(* ===== verification/_CoqProject ===== *)
-Q . S2P
Prelude.v
Utf8.v
Sorting.v
MetaCodec.v
RustStr.v
IpText.v
HeaderPolicy.v
Ledger.v
LedgerInvariants.v
LedgerSpec.v
Float64.v
TokenBucket.v
TokenBucketProps.v
QuotaBackend.v
QuotaBackendProps.v
TokenCache.v
Weights.v
SessionPool.v
SessionPoolProps.v
SseFrame.v
SseFrameProps.v
A2aSse.v
A2aSseProps.v
Json.v
Serde.v
ResponsesEvents.v
StreamAccumulator.v
StreamAccumulatorProps.v
TaskRouting.v
TaskRoutingProps.v
A2aCapture.v
A2aCaptureProps.v
Routing.v
RoutingProps.v
BudgetKeys.v
BudgetKeysProps.v
RateLimitRules.v
RateLimitFilter.v
RateLimitConfigProps.v
RateLimitProps.v
RouteOverlay.v
RouteOverlayProps.v
RouteFilter.v
ProviderRoute.v
RouteFilterProps.v
CredentialInject.v
CredentialInjectProps.v
Operation.v
OperationRoutes.v
OperationProps.v
TokenUsage.v
AnthropicStream.v
AnthropicStreamProps.v
AnthropicStreamRun.v
TokenPolicies.v
TokenCount.v
TokenCountProps.v
EventStream.v
EventStreamProps.v
StoreTypes.v
StoreApi.v
StoreRegistry.v
StoreRegistryProps.v
MemoryStore.v
MemoryStoreInv.v
MemoryStoreProps.v
MemoryBackend.v
