(* ===== verification/Prelude.v ===== *)
(** * Verification of the Praxis AI gateway

    Praxis AI is a set of HTTP filters for AI traffic (crate [filters]), the API
    layer the filters share (crate [apis]) and the state stores behind the
    Responses and Conversations APIs (crate [store]).  This library models the
    parts that decide: what is admitted and charged, what is parsed out of
    streams, who sees which stored state, and how concurrent callers share
    tokens and sessions.  All paths below are under [src/].

    ** Parts and files

    Token accounting, [filters/src/token_rate_limit/]:
    - [Ledger]: [ledger.rs].  [KeyState] and [Ledger] are the structs; [reserve],
      [reconcile] and [cleanup] the public methods.  [LedgerInvariants] has the
      invariant of reachable ledgers and the decisions, [LedgerSpec] the
      refinement of a history of charges that forgets nothing.
    - [TokenBucket]: [token_bucket_ledger.rs], with balances as IEEE doubles.
      [Float64] gives the arithmetic (the Standard Library's [SpecFloat] at 53
      bits, and Rust's conversions) and its error bounds; [TokenBucketProps] the
      invariant, the decisions, exact settlement and unobservable eviction.
      The bookkeeping part reuses the invariant of [LedgerInvariants].
    - [Weights]: [weights.rs], the cost a response is settled with.
    - [BudgetKeys], [BudgetKeysProps]: [keys.rs], which budget a request draws
      on.  [IpText] reads and prints addresses as [std::net] does.
    - [QuotaBackend]: [backend.rs].  The backend trait is the class
      [StateBackend]; [QuotaLaws] states what the filter relies on, and
      [QuotaBackendProps] discharges it for both ledgers.
    - [RateLimitRules], [RateLimitConfigProps]: [config.rs] and the first half of
      [mod.rs], estimation, tiers, over-quota annotation and the compilation of
      a configuration.
    - [RateLimitFilter], [RateLimitProps]: the filter of [mod.rs], proved against
      [QuotaLaws] for interleaved exchanges, over backends that settle in
      place or hand the settlement to a background worker (the hand-over is
      modelled, the worker is not).

    Token usage, [filters/src/token_usage/]:
    - [TokenUsage]: [mod.rs], [providers.rs], [streaming.rs], the counts read
      from a provider's document or from one of its stream events.
    - [TokenCount], [TokenCountProps]: [count.rs], both response hooks, with all
      state between callbacks kept as metadata strings; streams go through the
      scanner of [A2aSse], which the code shares.
    - [TokenPolicies]: [ceiling.rs], [stream_usage.rs], [headers.rs].

    Routing, [filters/src/routing/]:
    - [Routing], [RoutingProps]: [descriptor.rs], [group_index.rs], [picker.rs],
      candidates, the index of priority groups and the selection policies.
    - [RouteOverlay], [RouteOverlayProps]: [overlay.rs], overlay documents,
      signed envelopes, snapshots and the reload decision.
    - [RouteFilter]: [intelligent_route.rs], [metadata.rs], the edge filter with
      its session table.  [ProviderRoute]: [provider_route.rs], the filter on
      the far side of the hop.  [RouteFilterProps] composes the two.
    - [CredentialInject], [CredentialInjectProps]: [credential_inject.rs], the
      secrets a routed request gets, with the cache of projected files.

    Request classification, [apis/src/]:
    - [Operation]: [operation.rs], path templates and captured parameters.
    - [OperationRoutes]: the six route tables, one module each, and the
      classifier filter of [openai/operation.rs].  [OperationProps].

    Streams:
    - [SseFrame], [SseFrameProps]: [apis/src/openai/sse/frame.rs], the
      incremental SSE parser of the OpenAI endpoints.
    - [ResponsesEvents]: [apis/src/openai/sse/responses/event.rs] and
      [apis/src/openai/responses/usage.rs], typed events and usage merging.
    - [StreamAccumulator], [StreamAccumulatorProps]:
      [apis/src/openai/responses/stream_events/accumulator.rs], what a stream of
      typed events leaves in the request state.
    - [A2aSse], [A2aSseProps]: [filters/src/agentic/a2a/sse.rs], the bounded
      scanner of agent responses.
    - [EventStream], [EventStreamProps]: [apis/src/bedrock/eventstream.rs], the
      binary frames of AWS event streams.
    - [AnthropicStream]: [apis/src/anthropic/messages_to_chat_completions_stream/]
      and the wire types of [apis/src/anthropic/wire.rs], the translation of a
      Chat Completions stream into Messages events.  [AnthropicStreamProps] has
      a client of the Messages API as an automaton and the agreement of the
      filter's metadata with it, [AnthropicStreamRun] the chunking and the
      theorems on whole responses.

    Agent task routing, [filters/src/agentic/a2a/]:
    - [TaskRouting], [TaskRoutingProps]: [task_routing.rs], the route store.
    - [A2aCapture], [A2aCaptureProps]: the response side of [mod.rs], which
      feeds the scanner and the store and keeps its state between callbacks as
      metadata strings.

    Stores, [store/src/]:
    - [StoreTypes]: [types.rs], [owner.rs].
    - [StoreApi]: [traits.rs].  The traits are type classes; [OwnerConfined]
      states what the registry relies on.
    - [StoreRegistry], [StoreRegistryProps]: [registry.rs], owner-scoped handles
      over any backend; proved against the classes.
    - [MemoryStore], [MemoryStoreInv], [MemoryStoreProps]: [memory.rs].
    - [MemoryBackend]: the instances that discharge the classes.

    Shared helpers of [apis/src/]:
    - [HeaderPolicy]: [http_hop.rs], [promotion.rs].
    - [TokenCache]: [token_cache.rs], callers interleaved at await points.
    - [SessionPool], [SessionPoolProps]: [mcp_client/session_pool.rs], callers
      racing with idle timers.

    Groundwork: [Prelude] (results, machine integers, sums, hash-map orders,
    bytes), [Utf8], [RustStr] (methods of [str]), [Json] ([serde_json::Value]),
    [Sorting] (stable sorts),
    [Serde] (derived deserializers as a small monad over JSON values),
    [MetaCodec] (numbers and bytes as metadata strings, and the context's
    metadata interface as a class).

    ** How the code is rendered

    Structs are records, enums are inductive types, [Result] is [result] with
    the [let?] notation for the question mark.  [u64] and [usize] are [N]
    (64-bit target); saturating and wrapping operations are written out, and the
    theorems that need a width state it.  [HashMap] and [DashMap] are [gmap];
    where the code iterates one, the order is a parameter ([HashOrder]) and the
    theorems hold for every order.  Methods that run under one lock are one
    function; where callers can interleave ([TokenCache], [SessionPool],
    [CredentialInject]) the
    actions are the code between two suspension points and a relation allows
    every interleaving.  Time is an argument of the operations; theorems that
    need a monotonic clock say so.

    Third-party code is a parameter: the JSON reader and printer, the CRC
    function, SHA-256, Base64, the header types and reserved names, the
    tokenizer, the context's metadata map, the rmcp worker, the constructors of
    the Valkey backends, the file system.  Hypotheses on them state documented
    behaviour, and the witnesses instantiate them.  A metadata write may be
    refused ([MetaCodec.MetadataApi]).  Theorems that need the entries of a run
    to be kept say so of that run: it goes as it does under [keeps_all].
    How the proxy core applies header assignments and removals is
    [OperationProps.upstream] and [RouteFilterProps.forwards].

    ** What the theorems show

    Accounting: counters and indices never drift, admissions stay within every
    budget, settlement is exact and happens once, balances in floating point
    stay in range and lose nothing, forgetting idle state grants no tokens, the
    weighted cost covers the provider's total.  The filter: an accepted
    configuration is sound, requests share a budget exactly when their key
    dimensions agree, every exchange is charged once for its own usage (or
    handed once to the background worker with it), and
    clients cannot forge the headers a rule owns.  Streams: results do not depend
    on chunking, follow a reference reading, stay within their buffers, and
    reassemble arguments exactly; a terminal event overrides increments.
    A translated stream is in the order a Messages client reads, up to what an
    upstream adds after its own end; the message of a complete and accepted
    upstream response is delivered whole.
    Stores: owners are isolated, also through the registry for every conforming
    backend, approvals are used once, paging is complete.  Usage: a response
    publishes the counts of its whole body or of the events of an uninterrupted
    scan, whatever its chunks; ceilings hold for what is let through.  Routing:
    only verified snapshots serve, only admissible candidates are chosen, in
    proportion to their weights, sessions stick, the provider accepts a
    forwarded request only for the candidate the edge chose from its headers or
    its body, and a provider sees the secret of the chosen candidate and none of
    the client's, provided the context kept an entry naming the secret.
    Classification:
    order of declaration does not matter, captured parameters are read back
    exactly, clients cannot forge the routing headers.  Concurrency: one
    token fetch at a time, no session with two owners, no timer that cancels a
    session in use.

    ** Bounds and fuel

    The byte loops of the parsers recurse on the input with fuel equal to its
    length; [EventStream.decode_loop] has one more than the buffer length and
    [EventStreamProps] proves it never runs out.  Doubles are exact integers in
    units of [2^-1074].  Identifier counters wrap at [2^64]; theorems on runs
    assume fewer than [2^64 - 1] operations.

    ** Not modelled

    Network clients, SQL and Valkey backends (their behaviour is in the
    database), the reading of YAML configuration (the validation after it is
    modelled), the overlay watcher thread and its debouncing, process start-up,
    metrics, tracing and telemetry.  Protocol translation over JSON trees
    ([apis/src/openai/translation], [apis/src/anthropic] but for its stream,
    [apis/src/vertex], [apis/src/bedrock/converse]), the request side of the A2A filter, model
    access, the agentic
    loop and the rest of the Responses pipeline are candidates for extension. *)

From stdpp Require Export prelude gmap strings list fin_maps sorting.
From Stdlib Require Export NArith ZArith Lia.
From Stdlib Require Import Strings.Byte.

#[export] Set Default Goal Selector "!".

(** * Notation scope, automation database and tactics of the development *)

Declare Scope rust_scope.
Delimit Scope rust_scope with rust.
Create HintDb praxis discriminated.

(** ** Results: Rust's [Result<A, E>] *)

Inductive result (E A : Type) : Type :=
| Ok (a : A)
| Err (e : E).
Arguments Ok {E A} a.
Arguments Err {E A} e.

(** The [?] operator. *)
Notation "'let?' x ':=' c 'in' k" :=
  (match c with Ok x => k | Err e => Err e end)
  (at level 10, x pattern, c at level 100, k at level 200) : rust_scope.

#[export] Instance result_eq_dec {E A} `{EqDecision E, EqDecision A} : EqDecision (result E A).
Proof. solve_decision. Defined.

(** ** Machine integers

    [u64], [usize] and [u32] values are [N]; a 64-bit target is assumed, so
    [usize] has the width of [u64].  [saturating_sub] is the truncated [N.sub].
    Atomics wrap; ordinary arithmetic is checked (the release profile sets
    [overflow-checks = true]), so it is modelled with an option where it can
    overflow. *)

Definition u64_max : N := 18446744073709551615.
Definition u64_modulus : N := 18446744073709551616.

Definition saturating_add (a b : N) : N := N.min (a + b) u64_max.
Definition saturating_sub (a b : N) : N := (a - b)%N.
Definition saturating_mul (a b : N) : N := N.min (a * b) u64_max.
Definition wrapping_add (a b : N) : N := ((a + b) mod u64_modulus)%N.
Definition wrapping_sub (a b : N) : N :=
  ((a + (u64_modulus - b mod u64_modulus)) mod u64_modulus)%N.
Definition abs_diff (a b : N) : N := (N.max a b - N.min a b)%N.

Local Open Scope N_scope.

Lemma u64_modulus_max : u64_modulus = u64_max + 1.
Proof. reflexivity. Qed.

Lemma wrapping_sub_exact a b : b <= a -> a <= u64_max -> wrapping_sub a b = a - b.
Proof.
  intros Hb Ha. unfold wrapping_sub.
  rewrite (N.mod_small b) by (rewrite u64_modulus_max; lia).
  replace (a + (u64_modulus - b)) with ((a - b) + 1 * u64_modulus)
    by (rewrite u64_modulus_max; lia).
  rewrite N.Div0.mod_add, N.mod_small; [done|rewrite u64_modulus_max; lia].
Qed.

Lemma wrapping_add_exact a b : a + b <= u64_max -> wrapping_add a b = a + b.
Proof.
  intros H. unfold wrapping_add. rewrite N.mod_small; [done|rewrite u64_modulus_max; lia].
Qed.

Lemma saturating_add_le a b : saturating_add a b <= a + b.
Proof. unfold saturating_add. lia. Qed.

Lemma saturating_add_min a b :
  saturating_add (N.min a u64_max) (N.min b u64_max) = N.min (a + b) u64_max.
Proof. unfold saturating_add. lia. Qed.

(** ** Sums and extrema of lists (Rust's [Iterator::sum], [max], [min]) *)

Definition sumN (l : list N) : N := foldr N.add 0 l.
Arguments sumN : simpl never.

Definition iter_max (l : list N) : option N :=
  match l with [] => None | x :: l => Some (foldl N.max x l) end.
Definition iter_min (l : list N) : option N :=
  match l with [] => None | x :: l => Some (foldl N.min x l) end.

(** [Iterator::fold(0, |s, x| s.saturating_add(x))]. *)
Definition sat_sum (l : list N) : N := foldl saturating_add 0 l.

Lemma sumN_nil : sumN [] = 0.
Proof. done. Qed.

Lemma sumN_cons x l : sumN (x :: l) = x + sumN l.
Proof. done. Qed.

Lemma sumN_app l k : sumN (l ++ k) = sumN l + sumN k.
Proof. induction l; simpl; rewrite ?sumN_cons; [done|lia]. Qed.

#[export] Instance sumN_perm : Proper ((≡ₚ) ==> (=)) sumN.
Proof. intros l k. induction 1; rewrite ?sumN_cons in *; lia. Qed.

Lemma sat_sum_acc l a : foldl saturating_add (N.min a u64_max) l = N.min (a + sumN l) u64_max.
Proof.
  revert a. induction l as [|x l IH]; intros a; simpl.
  - rewrite sumN_nil. f_equal. lia.
  - replace (saturating_add (N.min a u64_max) x) with (N.min (a + x) u64_max)
      by (unfold saturating_add; lia).
    rewrite IH, sumN_cons. f_equal. lia.
Qed.

(** A saturating fold is the exact sum clamped once at [u64::MAX]. *)
Lemma sat_sum_exact l : sat_sum l = N.min (sumN l) u64_max.
Proof. exact (sat_sum_acc l 0). Qed.

Lemma foldl_max_ge l x y : y = x \/ y ∈ l -> y <= foldl N.max x l.
Proof.
  revert x y. induction l as [|z l IH]; intros x y; simpl.
  - intros [->|H]; [lia|set_solver].
  - intros [->|H].
    + etrans; [|apply IH; by left]. lia.
    + apply elem_of_cons in H as [->|H]; [|by apply IH; right].
      etrans; [|apply IH; by left]. lia.
Qed.

Lemma foldl_max_elem l x : foldl N.max x l = x \/ foldl N.max x l ∈ l.
Proof.
  revert x. induction l as [|z l IH]; intros x; simpl; [by left|].
  destruct (IH (N.max x z)) as [->|H]; [|set_solver].
  destruct (N.max_spec x z) as [[_ ->]|[_ ->]]; set_solver.
Qed.

Lemma foldl_min_le l x y : y = x \/ y ∈ l -> foldl N.min x l <= y.
Proof.
  revert x y. induction l as [|z l IH]; intros x y; simpl.
  - intros [->|H]; [lia|set_solver].
  - intros [->|H].
    + etrans; [apply IH; by left|]. lia.
    + apply elem_of_cons in H as [->|H]; [|by apply IH; right].
      etrans; [apply IH; by left|]. lia.
Qed.

Lemma foldl_min_elem l x : foldl N.min x l = x \/ foldl N.min x l ∈ l.
Proof.
  revert x. induction l as [|z l IH]; intros x; simpl; [by left|].
  destruct (IH (N.min x z)) as [->|H]; [|set_solver].
  destruct (N.min_spec x z) as [[_ ->]|[_ ->]]; set_solver.
Qed.

Lemma iter_max_ge l y : y ∈ l -> y <= default 0 (iter_max l).
Proof.
  destruct l as [|x l]; [set_solver|]. simpl. rewrite elem_of_cons. apply foldl_max_ge.
Qed.

Lemma iter_max_elem l m : iter_max l = Some m -> m ∈ l.
Proof.
  destruct l as [|x l]; [done|]. simpl. intros [= <-].
  destruct (foldl_max_elem l x) as [->|]; set_solver.
Qed.

Lemma iter_max_None l : iter_max l = None <-> l = [].
Proof. destruct l; simpl; split; congruence. Qed.

Lemma iter_min_le l y : y ∈ l -> default 0 (iter_min l) <= y.
Proof.
  destruct l as [|x l]; [set_solver|]. simpl. rewrite elem_of_cons. apply foldl_min_le.
Qed.

Lemma iter_min_elem l m : iter_min l = Some m -> m ∈ l.
Proof.
  destruct l as [|x l]; [done|]. simpl. intros [= <-].
  destruct (foldl_min_elem l x) as [->|]; set_solver.
Qed.

(** ** [VecDeque] pruning: [while front matches { pop_front }] *)

Fixpoint drop_while {A} (p : A -> bool) (l : list A) : list A :=
  match l with
  | [] => []
  | x :: l' => if p x then drop_while p l' else l
  end.

Lemma drop_while_split {A} (p : A -> bool) l :
  exists dropped, l = dropped ++ drop_while p l /\ Forall (fun x => p x = true) dropped.
Proof.
  induction l as [|x l [d [Hd Hp]]]; simpl; [by exists []|].
  destruct (p x) eqn:E; [|by exists []].
  exists (x :: d). simpl. split; [by f_equal|by constructor].
Qed.

Lemma NoDup_take {A} n (l : list A) : NoDup l -> NoDup (take n l).
Proof. intros H. rewrite <- (take_drop n l) in H. by apply NoDup_app in H as [? _]. Qed.

(** [Iterator::position]. *)
Fixpoint position {A} (p : A -> bool) (l : list A) : option nat :=
  match l with
  | [] => None
  | x :: l' => if p x then Some 0%nat else S <$> position p l'
  end.

Lemma position_Some {A} (p : A -> bool) l i :
  position p l = Some i <->
  (exists x, l !! i = Some x /\ p x = true) /\
  (forall j y, (j < i)%nat -> l !! j = Some y -> p y = false).
Proof.
  revert i. induction l as [|a l IH]; intros i; simpl.
  { split; [done|intros [[x [H _]] _]; done]. }
  destruct (p a) eqn:Ea.
  - split.
    + intros [= <-]. split; [by exists a|intros; lia].
    + intros [_ H]. destruct i; [done|]. specialize (H 0%nat a ltac:(lia) eq_refl). congruence.
  - destruct i as [|i]; simpl.
    + split; [by destruct (position p l)|].
      intros [[x [[= ->] H]] _]. congruence.
    + rewrite fmap_Some. split.
      * intros [k [Hk [= ->]]]. apply IH in Hk as [H1 H2]. split; [done|].
        intros [|j] y Hj; simpl; [intros [= ->]; done|]. apply H2. lia.
      * intros [H1 H2]. exists i. split; [|done]. apply IH. split; [done|].
        intros j y Hj Hy. apply (H2 (S j) y); [lia|done].
Qed.

Lemma position_None {A} (p : A -> bool) l :
  position p l = None <-> Forall (fun x => p x = false) l.
Proof.
  induction l as [|a l IH]; simpl; [by split|].
  rewrite Forall_cons, <- IH. destruct (p a); [naive_solver|].
  destruct (position p l); naive_solver.
Qed.

(** ** Finite maps: sums over the values, unspecified iteration order *)

Section SumMap.
Context `{Countable K} {V : Type} (f : V -> N).

Definition sum_map (m : gmap K V) : N := map_fold (fun _ v acc => f v + acc) 0 m.

Lemma sum_map_empty : sum_map ∅ = 0.
Proof. apply map_fold_empty. Qed.

Lemma sum_map_insert_new m k v : m !! k = None -> sum_map (<[k:=v]> m) = f v + sum_map m.
Proof.
  intros Hk. unfold sum_map. rewrite map_fold_insert_L; [done| |done]. intros; lia.
Qed.

Lemma sum_map_delete m k v : m !! k = Some v -> sum_map m = f v + sum_map (delete k m).
Proof.
  intros Hk. rewrite <- sum_map_insert_new with (k := k) by apply lookup_delete_eq.
  by rewrite insert_delete_id.
Qed.

Lemma sum_map_insert m k v v' :
  m !! k = Some v -> sum_map (<[k:=v']> m) + f v = f v' + sum_map m.
Proof.
  intros Hk. rewrite (sum_map_delete m k v Hk).
  rewrite <- insert_delete_eq, sum_map_insert_new by apply lookup_delete_eq. lia.
Qed.

Lemma sum_map_to_list m : sum_map m = sumN (f <$> (map_to_list m).*2).
Proof.
  induction m as [|k v m Hk IH] using map_ind.
  { rewrite sum_map_empty, map_to_list_empty. done. }
  rewrite sum_map_insert_new, map_to_list_insert by done.
  rewrite IH. done.
Qed.

Lemma sum_map_lookup_le m k v : m !! k = Some v -> f v <= sum_map m.
Proof. intros Hk. rewrite (sum_map_delete m k v Hk). lia. Qed.
End SumMap.

(** A [HashMap] or [DashMap] iterates its entries in an order the language
    leaves unspecified.  The order is a parameter of every definition that
    iterates: some enumeration of the map's entries. *)
Class HashOrder (K : Type) `{Countable K} := {
  hash_iter : forall {V : Type}, gmap K V -> list (K * V);
  hash_iter_perm : forall {V : Type} (m : gmap K V), hash_iter m ≡ₚ map_to_list m
}.

(** One such order, used to run the definitions on concrete inputs. *)
Definition list_order (K : Type) `{Countable K} : HashOrder K :=
  {| hash_iter := fun V m => map_to_list m; hash_iter_perm := fun V m => reflexivity _ |}.

Section HashOrderFacts.
Context `{HashOrder K} {V : Type}.
Implicit Types m : gmap K V.

Lemma elem_of_hash_iter m k v : (k, v) ∈ hash_iter m <-> m !! k = Some v.
Proof. rewrite hash_iter_perm. apply elem_of_map_to_list. Qed.

Lemma NoDup_hash_iter_fst m : NoDup (hash_iter m).*1.
Proof. rewrite hash_iter_perm. apply NoDup_fst_map_to_list. Qed.

Lemma sumN_hash_iter (f : V -> N) m : sumN (f <$> (hash_iter m).*2) = sum_map f m.
Proof. rewrite sum_map_to_list, hash_iter_perm. done. Qed.
End HashOrderFacts.

#[export] Hint Resolve hash_iter_perm : praxis.

(** ** Bytes *)

Abbreviation byte := Byte.byte.
Abbreviation bytes := (list Byte.byte).

#[export] Instance byte_eq_dec : EqDecision byte := Byte.byte_eq_dec.

Definition b2N (b : byte) : N := Byte.to_N b.
Definition byte_eqb (a b : byte) : bool := bool_decide (a = b).

(** A byte-string literal: [b"..."]. *)
Definition bstr (s : string) : bytes := String.list_byte_of_string s.

Definition LF : byte := x0a.
Definition CR : byte := x0d.
Definition COLON : byte := x3a.
Definition SPACE : byte := x20.
