(* ===== verification/Utf8.v ===== *)
(** UTF-8 as the Rust standard library decodes it.

    [utf8_items] cuts a byte string the way [core::str::lossy::Utf8Chunks]
    does: well-formed scalar values, and maximal ill-formed prefixes.
    [from_utf8] is [std::str::from_utf8], [from_utf8_lossy] is
    [String::from_utf8_lossy], and [is_control] is [char::is_control] on the
    bytes of one scalar value. *)

From S2P Require Import Prelude.
From Stdlib Require Import Strings.Byte.

Local Open Scope N_scope.

Inductive utf8_item := Scalar (l : bytes) | Invalid (l : bytes).

Definition in_range (lo hi : N) (b : byte) : bool := (lo <=? b2N b) && (b2N b <=? hi).
Definition is_cont (b : byte) : bool := in_range 128 191 b.

(** Number of bytes the lead byte announces; [0] for an invalid lead. *)
Definition utf8_char_width (b : byte) : nat :=
  (if (b2N b <? 128)%N then 1
   else if in_range 194 223 b then 2
   else if in_range 224 239 b then 3
   else if in_range 240 244 b then 4
   else 0)%nat.

(** Second bytes allowed after the lead byte of a 3 or 4 byte sequence. *)
Definition second_ok (lead b : byte) : bool :=
  if b2N lead =? 224 then in_range 160 191 b
  else if b2N lead =? 237 then in_range 128 159 b
  else if b2N lead =? 240 then in_range 144 191 b
  else if b2N lead =? 244 then in_range 128 143 b
  else is_cont b.

Fixpoint utf8_items (s : bytes) : list utf8_item :=
  match s with
  | [] => []
  | b :: r =>
      match utf8_char_width b with
      | 1%nat => Scalar [b] :: utf8_items r
      | 2%nat =>
          match r with
          | c1 :: r1 => if is_cont c1 then Scalar [b; c1] :: utf8_items r1
                        else Invalid [b] :: utf8_items r
          | [] => [Invalid [b]]
          end
      | 3%nat =>
          match r with
          | c1 :: r1 =>
              if second_ok b c1 then
                match r1 with
                | c2 :: r2 => if is_cont c2 then Scalar [b; c1; c2] :: utf8_items r2
                              else Invalid [b; c1] :: utf8_items r1
                | [] => [Invalid [b; c1]]
                end
              else Invalid [b] :: utf8_items r
          | [] => [Invalid [b]]
          end
      | 4%nat =>
          match r with
          | c1 :: r1 =>
              if second_ok b c1 then
                match r1 with
                | c2 :: r2 =>
                    if is_cont c2 then
                      match r2 with
                      | c3 :: r3 => if is_cont c3 then Scalar [b; c1; c2; c3] :: utf8_items r3
                                    else Invalid [b; c1; c2] :: utf8_items r2
                      | [] => [Invalid [b; c1; c2]]
                      end
                    else Invalid [b; c1] :: utf8_items r1
                | [] => [Invalid [b; c1]]
                end
              else Invalid [b] :: utf8_items r
          | [] => [Invalid [b]]
          end
      | _ => Invalid [b] :: utf8_items r
      end
  end.

Definition is_scalar (i : utf8_item) : bool := match i with Scalar _ => true | Invalid _ => false end.
Definition item_bytes (i : utf8_item) : bytes := match i with Scalar l | Invalid l => l end.

(** U+FFFD REPLACEMENT CHARACTER. *)
Definition replacement : bytes := [xef; xbf; xbd].

Definition lossy_item (i : utf8_item) : bytes :=
  match i with Scalar l => l | Invalid _ => replacement end.

Definition is_utf8 (s : bytes) : bool := forallb is_scalar (utf8_items s).
Definition from_utf8 (s : bytes) : option bytes := if is_utf8 s then Some s else None.
Definition from_utf8_lossy (s : bytes) : bytes := concat (lossy_item <$> utf8_items s).

(** [char::is_control]: U+0000..U+001F and U+007F..U+009F. *)
Definition is_control (i : utf8_item) : bool :=
  match i with
  | Scalar [b] => (b2N b <? 32) || (b2N b =? 127)
  | Scalar [b; c] => (b2N b =? 194) && in_range 128 159 c
  | _ => false
  end.

(** * Facts *)

(** Close one case of the induction below: the item cut is [i]. *)
Ltac invalid_cut H i :=
  first [eapply (H i (Invalid i)); simpl; try done; lia
        |eapply (H i (Invalid i) (@nil byte)); simpl; try done; lia].
Ltac scalar_cut H i :=
  eapply (H i (Scalar i)); try done; try (simpl; lia); intros t _; simpl.

(** Induction that follows the cuts of [utf8_items]. *)
Lemma utf8_items_ind (P : bytes -> list utf8_item -> Prop) :
  P [] [] ->
  (forall i s rest, i = item_bytes s -> i <> [] -> (length i <= 4)%nat ->
     (forall t, is_scalar s = true -> utf8_items (i ++ t) = s :: utf8_items t) ->
     P rest (utf8_items rest) -> P (i ++ rest) (s :: utf8_items rest)) ->
  forall s, P s (utf8_items s).
Proof.
  intros H0 H1 s. induction s as [s IH] using (induction_ltof1 _ length). unfold ltof in IH.
  destruct s as [|b r]; [done|].
  assert (forall i it rest, b :: r = i ++ rest -> i = item_bytes it -> i <> [] ->
    (length i <= 4)%nat ->
    (forall t, is_scalar it = true -> utf8_items (i ++ t) = it :: utf8_items t) ->
    P (b :: r) (it :: utf8_items rest)) as Hgo.
  { intros i it rest Heq Hi Hne Hl Ht. rewrite Heq. eapply H1; eauto. apply IH.
    rewrite Heq, length_app. destruct i; [done|simpl; lia]. }
  cbn [utf8_items].
  destruct (utf8_char_width b) as [|[|[|[|[|w]]]]] eqn:Ew;
    [invalid_cut Hgo [b]|..|
     invalid_cut Hgo [b]].
  - (* 1 *)
    scalar_cut Hgo [b]; by rewrite Ew.
  - (* 2 *)
    destruct r as [|c1 r1]; [invalid_cut Hgo [b]|].
    destruct (is_cont c1) eqn:E1; [|invalid_cut Hgo [b]].
    scalar_cut Hgo [b; c1]; by rewrite Ew, E1.
  - (* 3 *)
    destruct r as [|c1 r1]; [invalid_cut Hgo [b]|].
    destruct (second_ok b c1) eqn:E1; [|invalid_cut Hgo [b]].
    destruct r1 as [|c2 r2]; [invalid_cut Hgo [b; c1]|].
    destruct (is_cont c2) eqn:E2; [|invalid_cut Hgo [b; c1]].
    scalar_cut Hgo [b; c1; c2]; by rewrite Ew, E1, E2.
  - (* 4 *)
    destruct r as [|c1 r1]; [invalid_cut Hgo [b]|].
    destruct (second_ok b c1) eqn:E1; [|invalid_cut Hgo [b]].
    destruct r1 as [|c2 r2]; [invalid_cut Hgo [b; c1]|].
    destruct (is_cont c2) eqn:E2; [|invalid_cut Hgo [b; c1]].
    destruct r2 as [|c3 r3];
      [invalid_cut Hgo [b; c1; c2]|].
    destruct (is_cont c3) eqn:E3;
      [|invalid_cut Hgo [b; c1; c2]].
    scalar_cut Hgo [b; c1; c2; c3]; by rewrite Ew, E1, E2, E3.
Qed.

Lemma utf8_items_concat s : concat (item_bytes <$> utf8_items s) = s.
Proof.
  apply (utf8_items_ind (fun s l => concat (item_bytes <$> l) = s)); [done|].
  intros i it rest -> _ _ _ IH. csimpl. by rewrite IH.
Qed.

(** Lossy decoding of valid UTF-8 is the identity. *)
Lemma from_utf8_lossy_valid s : is_utf8 s = true -> from_utf8_lossy s = s.
Proof.
  unfold is_utf8, from_utf8_lossy.
  apply (utf8_items_ind (fun s l => forallb is_scalar l = true -> concat (lossy_item <$> l) = s));
    [done|].
  intros i it rest Hi _ _ _ IH. csimpl. intros [Hit Hr]%andb_prop. rewrite (IH Hr).
  destruct it; [|done]. by rewrite Hi.
Qed.

(** Lossy decoding always yields valid UTF-8: Rust's [String] invariant. *)
Lemma from_utf8_lossy_is_utf8 s : is_utf8 (from_utf8_lossy s) = true.
Proof.
  unfold from_utf8_lossy.
  apply (utf8_items_ind (fun _ l => is_utf8 (concat (lossy_item <$> l)) = true)); [done|].
  intros i it rest Hi _ _ Ht IH. csimpl. unfold is_utf8 in *.
  destruct it as [l|l]; simpl in Hi; subst; cbn [lossy_item].
  - by rewrite Ht.
  - simpl. done.
Qed.

(** Each ill-formed prefix grows to at most three bytes. *)
Lemma from_utf8_lossy_length s : (length (from_utf8_lossy s) <= 3 * length s)%nat.
Proof.
  unfold from_utf8_lossy.
  apply (utf8_items_ind (fun s l => (length (concat (lossy_item <$> l)) <= 3 * length s)%nat)); [done|].
  intros i it rest Hi Hne _ _ IH. csimpl. rewrite !length_app.
  assert (length i <> 0%nat) by (destruct i; done).
  destruct it as [l|l]; cbn [lossy_item item_bytes] in *; subst; simpl in *; lia.
Qed.

(** ** Boundaries *)

Lemma utf8_head_not_cont b s : is_utf8 (b :: s) = true -> is_cont b = false.
Proof.
  intros H. destruct (is_cont b) eqn:E; [|done]. unfold is_utf8 in H. cbn [utf8_items] in H.
  assert (utf8_char_width b = 0%nat) as Hw by (by destruct b). by rewrite Hw in H.
Qed.

Lemma second_ok_cont b c : second_ok b c = true -> is_cont c = true.
Proof. unfold second_ok, is_cont, in_range. repeat case_match; rewrite ?andb_true_iff, ?N.leb_le; lia. Qed.

(** A valid text is a lead byte, its continuation bytes and a valid text. *)
Lemma utf8_cons_inv b s :
  is_utf8 (b :: s) = true ->
  exists k t, s = k ++ t /\ Forall (fun c => is_cont c = true) k /\ is_utf8 t = true /\ (b2N b < 128 -> k = []).
Proof.
  unfold is_utf8. cbn [utf8_items]. intros H.
  destruct (utf8_char_width b) as [|[|[|[|[|w]]]]] eqn:Ew; cbn in H; try done.
  - by exists [], s.
  - destruct s as [|c1 r1]; [done|]. destruct (is_cont c1) eqn:E1; [|done]. exists [c1], r1. cbn in H.
    split_and!; try done; [by repeat constructor|]. unfold utf8_char_width in Ew. intros Hb%N.ltb_lt. by rewrite Hb in Ew.
  - destruct s as [|c1 [|c2 r2]]; [done|by destruct (second_ok b c1)|]. destruct (second_ok b c1) eqn:E1; [|done].
    destruct (is_cont c2) eqn:E2; [|done]. exists [c1; c2], r2. apply second_ok_cont in E1. cbn in H.
    split_and!; try done; [by repeat constructor|]. unfold utf8_char_width in Ew. intros Hb%N.ltb_lt. by rewrite Hb in Ew.
  - destruct s as [|c1 [|c2 [|c3 r3]]]; [done|by destruct (second_ok b c1)|by destruct (second_ok b c1), (is_cont c2)|].
    destruct (second_ok b c1) eqn:E1; [|done]. destruct (is_cont c2) eqn:E2; [|done].
    destruct (is_cont c3) eqn:E3; [|done]. exists [c1; c2; c3], r3. apply second_ok_cont in E1. cbn in H.
    split_and!; try done; [by repeat constructor|]. unfold utf8_char_width in Ew. intros Hb%N.ltb_lt. by rewrite Hb in Ew.
Qed.

(** In a valid text an ASCII character is followed by a character. *)
Lemma utf8_after_ascii a x y r : is_utf8 (a ++ x :: y :: r) = true -> b2N x < 128 -> is_cont y = false.
Proof.
  induction a as [a IH] using (induction_ltof1 _ length). unfold ltof in IH. intros H Hx.
  destruct a as [|b a]; cbn [app] in H; destruct (utf8_cons_inv _ _ H) as (k & t & Hs & Hk & Ht & Hb).
  - rewrite (Hb Hx) in Hs. cbn in Hs. subst t. by eapply utf8_head_not_cont.
  - apply app_eq_inv in Hs as [(l & -> & ->)|(l & -> & Hl)].
    + apply (IH l); [cbn; rewrite length_app; lia|done|done].
    + destruct l as [|z l]; cbn in Hl.
      * subst t. apply (IH []); [cbn; lia|done|done].
      * injection Hl as -> _. apply Forall_app in Hk as [_ Hk]. apply Forall_cons in Hk as [Hz _].
        unfold is_cont, in_range in Hz. rewrite andb_true_iff, N.leb_le in Hz. lia.
Qed.
