(* ===== verification/Sorting.v ===== *)
(** Stable sorting, as [slice::sort_by] does it, shared by the stores and the
    budget keys. *)

From S2P Require Import Prelude.

(** A stable sort: [slice::sort_by], and [sort_unstable_by_key] on distinct
    keys. *)
Fixpoint insert_by {A} (leb : A -> A -> bool) (x : A) (l : list A) : list A :=
  match l with
  | [] => [x]
  | y :: l' => if leb x y then x :: l else y :: insert_by leb x l'
  end.

Fixpoint sort_by {A} (leb : A -> A -> bool) (l : list A) : list A :=
  match l with [] => [] | x :: l => insert_by leb x (sort_by leb l) end.

Section Sorting.
Context {A : Type} (leb : A -> A -> bool).

Lemma insert_by_perm x l : insert_by leb x l ≡ₚ x :: l.
Proof.
  induction l as [|y l IH]; [done|]. cbn. destruct (leb x y); [done|]. rewrite IH. constructor.
Qed.

Lemma sort_by_perm l : sort_by leb l ≡ₚ l.
Proof. induction l as [|x l IH]; [done|]. cbn. by rewrite insert_by_perm, IH. Qed.

(** Elements above all others may be sorted apart. *)
Lemma insert_by_app x l1 l2 :
  Forall (fun y => leb x y = true) l2 -> insert_by leb x (l1 ++ l2) = insert_by leb x l1 ++ l2.
Proof.
  intros H. induction l1 as [|y l1 IH]; cbn.
  - destruct l2 as [|y l2]; [done|]. apply Forall_cons in H as [H _]. cbn. by rewrite H.
  - destruct (leb x y); [done|]. by rewrite IH.
Qed.

Lemma sort_by_app l1 l2 :
  (forall x y, x ∈ l1 -> y ∈ l2 -> leb x y = true) -> sort_by leb (l1 ++ l2) = sort_by leb l1 ++ sort_by leb l2.
Proof.
  induction l1 as [|x l1 IH]; intros H; [done|]. cbn. rewrite IH by set_solver.
  apply insert_by_app. rewrite Forall_forall. intros y Hy. rewrite sort_by_perm in Hy. set_solver.
Qed.

Lemma sort_by_sorted_id l : StronglySorted (fun x y => leb x y = true) l -> sort_by leb l = l.
Proof.
  induction 1 as [|x l _ IH Hx]; [done|]. cbn. rewrite IH. destruct l as [|y l]; [done|].
  apply Forall_cons in Hx as [Hx _]. cbn. by rewrite Hx.
Qed.

Hypothesis leb_total : forall x y, leb x y = true \/ leb y x = true.
Hypothesis leb_trans : forall x y z, leb x y = true -> leb y z = true -> leb x z = true.

Lemma insert_by_sorted x l :
  StronglySorted (fun x y => leb x y = true) l -> StronglySorted (fun x y => leb x y = true) (insert_by leb x l).
Proof.
  induction 1 as [|y l Hl IH Hy]; cbn; [by repeat constructor|].
  destruct (leb x y) eqn:E.
  - constructor; [by constructor|]. constructor; [done|].
    eapply Forall_impl; [exact Hy|]. intros z Hz. by eapply leb_trans.
  - constructor; [done|]. rewrite insert_by_perm. constructor; [|done].
    destruct (leb_total x y); congruence.
Qed.

Lemma sort_by_sorted l : StronglySorted (fun x y => leb x y = true) (sort_by leb l).
Proof. induction l as [|x l IH]; [constructor|]. by apply insert_by_sorted. Qed.

Lemma filter_insert_by (P : A -> Prop) `{!forall x, Decision (P x)} x l :
  StronglySorted (fun x y => leb x y = true) l ->
  filter P (insert_by leb x l) = if decide (P x) then insert_by leb x (filter P l) else filter P l.
Proof.
  induction 1 as [|y l Hl IH Hy].
  { cbn [insert_by]. rewrite filter_cons, filter_nil. by destruct (decide (P x)). }
  cbn [insert_by]. destruct (leb x y) eqn:E.
  - rewrite filter_cons. destruct (decide (P x)); [|done].
    rewrite <- (app_nil_l (filter P (y :: l))), insert_by_app; [done|].
    apply Forall_forall. intros z Hz. apply list_elem_of_filter in Hz as [_ Hz].
    apply elem_of_cons in Hz as [->|Hz]; [done|]. rewrite Forall_forall in Hy.
    eapply leb_trans; [exact E|by apply Hy].
  - rewrite !filter_cons, IH. destruct (decide (P y)), (decide (P x)); cbn; by rewrite ?E.
Qed.

Lemma sort_by_filter (P : A -> Prop) `{!forall x, Decision (P x)} l :
  sort_by leb (filter P l) = filter P (sort_by leb l).
Proof.
  induction l as [|x l IH]; [done|]. cbn [sort_by]. rewrite filter_insert_by by apply sort_by_sorted.
  rewrite filter_cons. destruct (decide (P x)); [|done]. cbn [sort_by]. by rewrite IH.
Qed.
(** Lists with the same elements sort alike when the order separates their
    elements. *)
Lemma sort_by_unique l l' :
  l ≡ₚ l' -> (forall x y, x ∈ l -> y ∈ l -> leb x y = true -> leb y x = true -> x = y) ->
  sort_by leb l = sort_by leb l'.
Proof.
  intros Hp Ha. apply (StronglySorted_unique_strong (fun x y => leb x y = true)).
  - intros x y. rewrite !sort_by_perm, <- Hp. naive_solver.
  - apply sort_by_sorted.
  - apply sort_by_sorted.
  - by rewrite !sort_by_perm.
Qed.
End Sorting.
