(* ===== verification/MetaCodec.v ===== *)
(** State the filters keep between callbacks as strings of the request's
    [filter_metadata]: decimal counters, flags and hexadecimal buffers, with
    their round trips.  The A2A capture and the token counter share it. *)

From S2P Require Import Prelude.
From Stdlib Require Import Strings.Byte Strings.Ascii.
From Stdlib Require Import DecimalString DecimalN DecimalPos.

Local Open Scope N_scope.

(** [HashMap<String, String>]. *)
Abbreviation Metadata := (gmap string string).

(** [HttpFilterContext::set_metadata] of the praxis-filter crate, which may
    refuse an entry over its limits. *)
Class MetadataApi := {
  set_metadata : Metadata -> string -> string -> Metadata;
  set_metadata_spec : forall m k v, set_metadata m k v = <[k := v]> m \/ set_metadata m k v = m
}.

(** A context that keeps every entry.  A run that goes under a context as it goes
    under this one is a run in which no entry was refused. *)
Definition keeps_all : MetadataApi := {| set_metadata m k v := <[k := v]> m; set_metadata_spec m k v := or_introl eq_refl |}.

(** ** Strings *)

Definition string_of_bytes (b : bytes) : string := String.string_of_list_byte b.
Definition bytes_of_string (s : string) : bytes := String.list_byte_of_string s.

(** [usize::to_string] and [str::parse::<usize>]. *)
Definition usize_to_string (n : N) : string := NilZero.string_of_uint (N.to_uint n).

Definition parse_digits (s : string) : option N :=
  u ← NilZero.uint_of_string s;
  if N.of_uint u <=? u64_max then Some (N.of_uint u) else None.

Definition parse_usize (s : string) : option N :=
  match s with
  | String "+" r => parse_digits r
  | _ => parse_digits s
  end.

(** * Hexadecimal buffers *)

(** [write!(buf, "{byte:02x}")]. *)
Definition hex_char (d : N) : ascii :=
  ascii_of_N (if d <? 10 then 48 + d else 87 + d).

Definition hex_byte (b : byte) : string :=
  String (hex_char (b2N b / 16)) (String (hex_char (b2N b mod 16)) "").

Fixpoint encode_hex (l : bytes) : string :=
  match l with [] => "" | b :: l => hex_byte b +:+ encode_hex l end.

(** [hex_digit]. *)
Definition hex_digit (c : ascii) : option N :=
  let b := N_of_ascii c in
  if (48 <=? b) && (b <=? 57) then Some (b - 48)
  else if (97 <=? b) && (b <=? 102) then Some (b - 97 + 10)
  else None.

Fixpoint decode_pairs (s : string) : option bytes :=
  match s with
  | String a (String b r) =>
      hi ← hex_digit a; lo ← hex_digit b; rest ← decode_pairs r;
      v ← Byte.of_N (N.lor (N.shiftl hi 4) lo);
      Some (v :: rest)
  | _ => Some []
  end.

(** [decode_hex]. *)
Definition decode_hex (hex : string) : option bytes :=
  if Nat.odd (String.length hex) then None else decode_pairs hex.

(** * Slots of the metadata *)

Definition bool_str (b : bool) : string := if b then "true" else "false".
Definition is_true (v : option string) : bool := bool_decide (v = Some "true"%string).

(** [set_hex_metadata]. *)
Definition set_hex_metadata (m : Metadata) (key : string) (data : bytes) : Metadata :=
  match data with [] => delete key m | _ => <[key := encode_hex data]> m end.

(** Metadata lookups after a chain of inserts and deletes at literal keys. *)
Ltac meta := repeat first
  [ rewrite lookup_insert_eq | rewrite lookup_delete_eq
  | rewrite lookup_insert_ne by discriminate | rewrite lookup_delete_ne by discriminate ].

(** * Hexadecimal buffers *)

Lemma decode_hex_byte b s : decode_pairs (hex_byte b +:+ s) = (rest ← decode_pairs s; Some (b :: rest)).
Proof.
  change (hex_byte b +:+ s) with (String (hex_char (b2N b / 16)) (String (hex_char (b2N b mod 16)) s)).
  cbn [decode_pairs].
  assert (hex_digit (hex_char (b2N b / 16)) = Some (b2N b / 16)) as -> by (by destruct b).
  assert (hex_digit (hex_char (b2N b mod 16)) = Some (b2N b mod 16)) as -> by (by destruct b).
  cbn [mbind option_bind]. destruct (decode_pairs s); [|done]. cbn [mbind option_bind].
  assert (Byte.of_N (N.lor (N.shiftl (b2N b / 16) 4) (b2N b mod 16)) = Some b) as -> by (by destruct b).
  done.
Qed.

Lemma hex_byte_length b : String.length (hex_byte b) = 2%nat.
Proof. done. Qed.

Lemma string_length_app s t : String.length (s +:+ t) = (String.length s + String.length t)%nat.
Proof. induction s as [|a s IH]; [done|]. exact (f_equal S IH). Qed.

Lemma encode_hex_length l : String.length (encode_hex l) = (2 * length l)%nat.
Proof.
  induction l as [|b l IH]; [done|]. cbn [encode_hex]. rewrite string_length_app, IH. cbn. lia.
Qed.

Lemma decode_encode l : decode_hex (encode_hex l) = Some l.
Proof.
  unfold decode_hex. rewrite encode_hex_length, Nat.odd_mul. cbn [Nat.odd negb Nat.even andb].
  induction l as [|b l IH]; [done|]. cbn [encode_hex]. rewrite decode_hex_byte, IH. done.
Qed.

Lemma string_app_assoc (s t u : string) : (s +:+ t) +:+ u = s +:+ (t +:+ u).
Proof. induction s as [|a s IH]; [done|]. exact (f_equal (String a) IH). Qed.

Lemma encode_hex_app a b : encode_hex (a ++ b) = encode_hex a +:+ encode_hex b.
Proof.
  induction a as [|x a IH]; [done|]. change (encode_hex ((x :: a) ++ b)) with (hex_byte x +:+ encode_hex (a ++ b)).
  rewrite IH. symmetry. apply string_app_assoc.
Qed.

(** ** Decimal counters *)

Lemma parse_digits_to_string n : n <= u64_max -> parse_digits (usize_to_string n) = Some n.
Proof.
  intros Hn. unfold parse_digits, usize_to_string. rewrite NilZero.usu.
  2:{ destruct n as [|p]; [done|]. apply DecimalPos.Unsigned.to_uint_nonnil. }
  cbn. rewrite DecimalN.Unsigned.of_to. by rewrite (proj2 (N.leb_le _ _)).
Qed.

Lemma uint_string_no_plus u r : NilZero.string_of_uint u <> String "+" r.
Proof. by destruct u. Qed.

Lemma parse_usize_to_string n : n <= u64_max -> parse_usize (usize_to_string n) = Some n.
Proof.
  intros Hn. rewrite <- (parse_digits_to_string n Hn). unfold parse_usize.
  pose proof (uint_string_no_plus (N.to_uint n)) as H. fold (usize_to_string n) in H.
  destruct (usize_to_string n) as [|[[] [] [] [] [] [] [] []] r]; try done.
  by destruct (H r).
Qed.

Lemma is_true_bool b : is_true (Some (bool_str b)) = b.
Proof. by destruct b. Qed.

Lemma set_hex_eq m k d :
  set_hex_metadata m k d !! k = match d with [] => None | _ => Some (encode_hex d) end.
Proof. destruct d; [apply lookup_delete_eq|apply lookup_insert_eq]. Qed.

Lemma set_hex_ne m k k' d : k <> k' -> set_hex_metadata m k d !! k' = m !! k'.
Proof. intros H. destruct d; [by apply lookup_delete_ne|by apply lookup_insert_ne]. Qed.

Lemma hex_slot (d : bytes) :
  default [] (match d with [] => None | _ => Some (encode_hex d) end ≫= decode_hex) = d.
Proof. destruct d as [|b d]; [done|]. cbn [mbind option_bind]. by rewrite decode_encode. Qed.

Lemma bytes_string_roundtrip l : bytes_of_string (string_of_bytes l) = l.
Proof. apply String.list_byte_of_string_of_list_byte. Qed.

