(* ===== verification/RustStr.v ===== *)
(** The [str] methods the components use, on byte strings.

    A Rust [str] is its UTF-8 bytes, here a [string] with one character per
    byte.  [trim] removes the characters of Unicode's [White_Space] property, as
    [str::trim] does. *)

From S2P Require Import Prelude Utf8.
From Stdlib Require Import Strings.Byte Strings.Ascii.

Local Open Scope N_scope.

Definition string_bytes (s : string) : bytes := String.list_byte_of_string s.
Definition bytes_string (b : bytes) : string := String.string_of_list_byte b.

(** [str::len]. *)
Definition str_len (s : string) : N := N.of_nat (String.length s).

(** ** ASCII case *)

Definition ascii_lower (c : ascii) : ascii :=
  if (65 <=? N_of_ascii c) && (N_of_ascii c <=? 90) then ascii_of_N (N_of_ascii c + 32) else c.

(** [str::to_ascii_lowercase]. *)
Fixpoint to_ascii_lowercase (s : string) : string :=
  match s with
  | EmptyString => EmptyString
  | String c s => String (ascii_lower c) (to_ascii_lowercase s)
  end.

(** [str::eq_ignore_ascii_case]. *)
Definition eq_ignore_ascii_case (a b : string) : bool :=
  bool_decide (to_ascii_lowercase a = to_ascii_lowercase b).

(** [str::starts_with] on a string pattern. *)
Definition starts_with (s p : string) : bool := String.prefix p s.

(** [str::ends_with] on a string pattern. *)
Definition ends_with (s p : string) : bool :=
  let n := (String.length s - String.length p)%nat in
  (String.length p <=? String.length s)%nat && bool_decide (String.substring n (String.length p) s = p).

(** ** Whitespace *)

(** [char::is_whitespace] on one decoded character. *)
Definition is_whitespace (i : utf8_item) : bool :=
  match item_bytes i with
  | [b] => ((9 <=? b2N b) && (b2N b <=? 13)) || (b2N b =? 32)
  | [b; c] => (b2N b =? 194) && ((b2N c =? 133) || (b2N c =? 160))
  | [b; c; d] =>
      ((b2N b =? 225) && (b2N c =? 154) && (b2N d =? 128))
      || ((b2N b =? 226) && (b2N c =? 128) &&
          (((128 <=? b2N d) && (b2N d <=? 138)) || (b2N d =? 168) || (b2N d =? 169) || (b2N d =? 175)))
      || ((b2N b =? 226) && (b2N c =? 129) && (b2N d =? 159))
      || ((b2N b =? 227) && (b2N c =? 128) && (b2N d =? 128))
  | _ => false
  end.

(** [str::trim]. *)
Definition trim (s : string) : string :=
  let chars := drop_while is_whitespace (utf8_items (string_bytes s)) in
  let chars := reverse (drop_while is_whitespace (reverse chars)) in
  bytes_string (concat (item_bytes <$> chars)).

(** [str::split] on one ASCII character: at least one piece. *)
Fixpoint split_on (c : ascii) (s : string) : list string :=
  match s with
  | EmptyString => [""%string]
  | String d s =>
      let pieces := split_on c s in
      if bool_decide (d = c) then ""%string :: pieces
      else match pieces with
           | p :: ps => String d p :: ps
           | [] => [String d ""]
           end
  end.

(** * Facts *)

Lemma ascii_lower_idem c : ascii_lower (ascii_lower c) = ascii_lower c.
Proof. destruct c as [[] [] [] [] [] [] [] []]; reflexivity. Qed.

Lemma to_ascii_lowercase_idem s : to_ascii_lowercase (to_ascii_lowercase s) = to_ascii_lowercase s.
Proof. induction s as [|c s IH]; [done|]. cbn. by rewrite ascii_lower_idem, IH. Qed.

Lemma to_ascii_lowercase_empty s : to_ascii_lowercase s = ""%string <-> s = ""%string.
Proof. by destruct s. Qed.

Lemma str_len_lowercase s : str_len (to_ascii_lowercase s) = str_len s.
Proof. unfold str_len. induction s as [|c s IH]; [done|]. cbn in *. lia. Qed.

Lemma eq_ignore_ascii_case_spec a b :
  eq_ignore_ascii_case a b = true <-> to_ascii_lowercase a = to_ascii_lowercase b.
Proof. apply bool_decide_eq_true. Qed.

(** ** Concatenation and splitting *)

Lemma str_app_cons x (a b : string) : String x a +:+ b = String x (a +:+ b).
Proof. done. Qed.

Lemma str_app_assoc (s t u : string) : (s +:+ t) +:+ u = s +:+ (t +:+ u).
Proof. induction s as [|a s IH]; [done|]. exact (f_equal (String a) IH). Qed.

Lemma str_app_nil (s : string) : s +:+ "" = s.
Proof. induction s as [|a s IH]; [done|]. exact (f_equal (String a) IH). Qed.

Lemma str_len_app s t : str_len (s +:+ t) = str_len s + str_len t.
Proof.
  unfold str_len. induction s as [|a s IH]; [done|].
  change (String.length (String a s +:+ t)) with (S (String.length (s +:+ t))). cbn [String.length]. lia.
Qed.

Lemma str_app_inj_r (a b t : string) : a +:+ t = b +:+ t -> a = b.
Proof.
  intros E. pose proof (f_equal str_len E) as Hl. rewrite !str_len_app in Hl.
  revert b E Hl. induction a as [|x a IH]; intros [|y b]; rewrite ?str_app_cons; unfold str_len; cbn [String.length]; intros E Hl;
    try done; try lia. injection E as -> E. f_equal. apply IH; [done|]. unfold str_len. lia.
Qed.

Lemma str_app_inj_l (t a b : string) : t +:+ a = t +:+ b -> a = b.
Proof. induction t as [|x t IH]; [done|]. rewrite !str_app_cons. intros [= E]. auto. Qed.

Lemma string_bytes_app s t : string_bytes (s +:+ t) = string_bytes s ++ string_bytes t.
Proof.
  induction s as [|a s IH]; [done|].
  change (string_bytes (String a s +:+ t)) with (byte_of_ascii a :: string_bytes (s +:+ t)). by rewrite IH.
Qed.

Lemma string_bytes_length s : length (string_bytes s) = String.length s.
Proof.
  induction s as [|a s IH]; [done|].
  change (string_bytes (String a s)) with (byte_of_ascii a :: string_bytes s). exact (f_equal S IH).
Qed.

Lemma substring_prefix s t : String.substring 0 (String.length s) (s +:+ t) = s.
Proof. induction s as [|a s IH]; [by destruct t|]. exact (f_equal (String a) IH). Qed.

Lemma substring_middle p s t : String.substring (String.length p) (String.length s) (p +:+ s +:+ t) = s.
Proof. induction p as [|a p IH]; [exact (substring_prefix s t)|exact IH]. Qed.

(** [Vec::join] with one character. *)
Fixpoint join (c : ascii) (l : list string) : string :=
  match l with [] => "" | [s] => s | s :: l => s +:+ String c (join c l) end.

Lemma join_cons c s l : l <> [] -> join c (s :: l) = s +:+ String c (join c l).
Proof. by destruct l. Qed.

Lemma substring_cut s n : (n <= String.length s)%nat ->
  s = String.substring 0 n s +:+ String.substring n (String.length s - n) s.
Proof.
  revert n. induction s as [|c s IH]; intros [|n] Hn; cbn in *; [done|lia| |].
  - change ("" +:+ ?x) with x. f_equal. symmetry. pose proof (substring_prefix s "") as E. by rewrite str_app_nil in E.
  - rewrite str_app_cons. f_equal. apply IH. lia.
Qed.

Lemma ends_with_inv s p : ends_with s p = true -> exists t, s = t +:+ p.
Proof.
  unfold ends_with. intros [Hl%Nat.leb_le E%bool_decide_eq_true]%andb_prop.
  pose proof (substring_cut s (String.length s - String.length p) ltac:(lia)) as Hc.
  replace (String.length s - (String.length s - String.length p))%nat with (String.length p) in Hc by lia. rewrite E in Hc. eauto.
Qed.

Lemma split_on_ne c s : split_on c s <> [].
Proof. destruct s as [|d s]; [done|]. cbn. case_bool_decide; [done|]. by destruct (split_on c s). Qed.

Lemma join_split c s : join c (split_on c s) = s.
Proof.
  induction s as [|d s IH]; [done|]. cbn [split_on]. case_bool_decide as E.
  - rewrite join_cons by apply split_on_ne. rewrite IH. by subst d.
  - pose proof (split_on_ne c s) as Hne. destruct (split_on c s) as [|p [|q ps]]; [done| |];
      cbn [join] in *; by rewrite <- IH.
Qed.

(** The first piece is what precedes the first separator. *)
Lemma split_on_head c s :
  exists h l, split_on c s = h :: l /\ exists r, s = h +:+ r /\ (r = ""%string \/ exists q, r = String c q).
Proof.
  pose proof (split_on_ne c s). destruct (split_on c s) as [|h l] eqn:E; [done|]. exists h, l. split; [done|].
  rewrite <- (join_split c s), E. destruct l as [|x l].
  - exists ""%string. cbn. rewrite str_app_nil. auto.
  - eexists. rewrite join_cons by done. eauto.
Qed.
