(* ===== verification/IpText.v ===== *)
(** Internet addresses as [std::net] reads and prints them, for the budget keys.

    The readers take a string and give the value read with the rest, or [None]
    with nothing consumed, as the atomic readers of the standard parser do. *)

From S2P Require Import Prelude MetaCodec RustStr.
From Stdlib Require Import Strings.Ascii.

Local Open Scope N_scope.

Inductive IpAddr := V4 (a b c d : N) | V6 (segments : list N).

#[export] Instance IpAddr_eq_dec : EqDecision IpAddr.
Proof. solve_decision. Defined.

(** Octets and segments within their width. *)
Definition ip_wf (x : IpAddr) : Prop :=
  match x with
  | V4 a b c d => a < 256 /\ b < 256 /\ c < 256 /\ d < 256
  | V6 l => length l = 8%nat /\ Forall (fun s => s < 65536) l
  end.

(** * Reading *)

(** [char::to_digit]. *)
Definition to_digit (radix : N) (c : ascii) : option N :=
  let n := N_of_ascii c in
  let digit :=
    if (48 <=? n) && (n <=? 57) then Some (n - 48)
    else if (97 <=? n) && (n <=? 122) then Some (n - 87)
    else if (65 <=? n) && (n <=? 90) then Some (n - 55)
    else None in
  match digit with Some d => if d <? radix then Some d else None | None => None end.

(** The digits at the front: their value, their number and the rest. *)
Fixpoint read_digits (radix acc : N) (count : nat) (s : string) : N * nat * string :=
  match s with
  | EmptyString => (acc, count, s)
  | String c r =>
      match to_digit radix c with
      | Some d => read_digits radix (acc * radix + d) (S count) r
      | None => (acc, count, s)
      end
  end.

(** [read_number]: [max] is the greatest value of the type read. *)
Definition read_number (radix max : N) (max_digits : option nat) (allow_zero_prefix : bool) (s : string)
    : option (N * string) :=
  let '(value, count, rest) := read_digits radix 0 0 s in
  let leading_zero := starts_with s "0" in
  if match max_digits with Some m => (m <? count)%nat | None => false end then None
  else if (count =? 0)%nat then None
  else if negb allow_zero_prefix && leading_zero && (1 <? count)%nat then None
  else if value <=? max then Some (value, rest) else None.

Definition read_given_char (c : ascii) (s : string) : option string :=
  match s with String d r => if bool_decide (d = c) then Some r else None | EmptyString => None end.

(** [read_separator]. *)
Definition read_separator {A} (c : ascii) (index : nat) (inner : string -> option (A * string)) (s : string)
    : option (A * string) :=
  match index with O => inner s | S _ => r ← read_given_char c s; inner r end.

(** [read_ipv4_addr]. *)
Definition read_ipv4 (s : string) : option ((N * N * N * N) * string) :=
  let octet := read_number 10 255 (Some 3%nat) false in
  '(a, s) ← octet s;
  '(b, s) ← read_separator "."%char 1 octet s;
  '(c, s) ← read_separator "."%char 2 octet s;
  '(d, s) ← read_separator "."%char 3 octet s;
  Some ((a, b, c, d), s).

(** [read_groups], with [left] groups to fill from the [i]-th on: the groups
    read, whether they end in an embedded IPv4 address, and the rest. *)
Fixpoint read_groups (left i : nat) (s : string) : list N * bool * string :=
  match left with
  | O => ([], false, s)
  | S left' =>
      let embedded := match left' with O => None | S _ => read_separator ":"%char i read_ipv4 s end in
      match embedded with
      | Some ((a, b, c, d), s) => ([a * 256 + b; c * 256 + d], true, s)
      | None =>
          match read_separator ":"%char i (read_number 16 65535 (Some 4%nat) true) s with
          | Some (g, s) => let '(gs, v4, s) := read_groups left' (S i) s in (g :: gs, v4, s)
          | None => ([], false, s)
          end
      end
  end.

(** [read_ipv6_addr]. *)
Definition read_ipv6 (s : string) : option (list N * string) :=
  let '(front, front_v4, s) := read_groups 8 0 s in
  if (length front =? 8)%nat then Some (front, s)
  else if front_v4 then None
  else
    s ← read_given_char ":"%char s;
    s ← read_given_char ":"%char s;
    let '(back, _, s) := read_groups (8 - (length front + 1)) 0 s in
    Some (front ++ replicate (8 - length front - length back) 0 ++ back, s).

Definition read_ip (s : string) : option (IpAddr * string) :=
  match read_ipv4 s with
  | Some ((a, b, c, d), s) => Some (V4 a b c d, s)
  | None => '(l, s) ← read_ipv6 s; Some (V6 l, s)
  end.

Definition read_port (s : string) : option (N * string) :=
  s ← read_given_char ":"%char s; read_number 10 65535 None true s.

Definition read_scope_id (s : string) : option (N * string) :=
  s ← read_given_char "%"%char s; read_number 10 4294967295 None true s.

(** [read_socket_addr], less the port and the scope: the address. *)
Definition read_socket_addr (s : string) : option (IpAddr * string) :=
  match '(v4, r) ← read_ipv4 s; '(_, r) ← read_port r; Some (v4, r) with
  | Some ((a, b, c, d), r) => Some (V4 a b c d, r)
  | None =>
      s ← read_given_char "["%char s;
      '(l, s) ← read_ipv6 s;
      let s := match read_scope_id s with Some (_, r) => r | None => s end in
      s ← read_given_char "]"%char s;
      '(_, s) ← read_port s;
      Some (V6 l, s)
  end.

(** [parse_with]: the whole text must be read. *)
Definition parse_with {A} (reader : string -> option (A * string)) (s : string) : option A :=
  match reader s with Some (x, EmptyString) => Some x | _ => None end.

Definition parse_ip : string -> option IpAddr := parse_with read_ip.
Definition parse_socket_addr : string -> option IpAddr := parse_with read_socket_addr.

(** * Printing *)

(** [{:x}] of a 16-bit number. *)
Definition lower_hex_digit (d : N) : ascii := ascii_of_N (if d <? 10 then 48 + d else 87 + d).
Fixpoint lower_hex_from (fuel : nat) (n : N) : string :=
  match fuel with
  | O => EmptyString
  | S fuel =>
      if n <? 16 then String (lower_hex_digit n) EmptyString
      else lower_hex_from fuel (n / 16) +:+ String (lower_hex_digit (n mod 16)) EmptyString
  end.
Definition lower_hex (n : N) : string := lower_hex_from 4 n.

Definition show_ipv4 (a b c d : N) : string := join "."%char (usize_to_string <$> [a; b; c; d]).

(** The first of the longest runs of zeros: its start and its length. *)
Fixpoint zero_run (i start len best_start best_len : nat) (l : list N) : nat * nat :=
  match l with
  | [] => (best_start, best_len)
  | s :: l =>
      if s =? 0 then
        let start := if (len =? 0)%nat then i else start in
        let len := S len in
        if (best_len <? len)%nat then zero_run (S i) start len start len l
        else zero_run (S i) start len best_start best_len l
      else zero_run (S i) 0 0 best_start best_len l
  end.

(** [Ipv6Addr::to_ipv4_mapped]. *)
Definition to_ipv4_mapped (l : list N) : option (N * N * N * N) :=
  match l with
  | [0; 0; 0; 0; 0; 65535; x; y] => Some (x / 256, x mod 256, y / 256, y mod 256)
  | _ => None
  end.

Definition show_ipv6 (l : list N) : string :=
  match to_ipv4_mapped l with
  | Some (a, b, c, d) => "::ffff:" +:+ show_ipv4 a b c d
  | None =>
      let '(start, len) := zero_run 0 0 0 0 0 l in
      if (1 <? len)%nat then
        join ":"%char (lower_hex <$> take start l) +:+ "::" +:+ join ":"%char (lower_hex <$> drop (start + len) l)
      else join ":"%char (lower_hex <$> l)
  end.

(** [IpAddr::to_string]. *)
Definition show_ip (x : IpAddr) : string :=
  match x with V4 a b c d => show_ipv4 a b c d | V6 l => show_ipv6 l end.

Example parse_samples :
  parse_ip "10.0.0.7" = Some (V4 10 0 0 7) /\ parse_ip "10.0.0.07" = None /\ parse_ip "256.1.1.1" = None /\
  parse_ip "2001:DB8::1" = Some (V6 [8193; 3512; 0; 0; 0; 0; 0; 1]) /\
  parse_ip "::ffff:1.2.3.4" = Some (V6 [0; 0; 0; 0; 0; 65535; 258; 772]) /\
  parse_ip "::" = Some (V6 [0; 0; 0; 0; 0; 0; 0; 0]) /\ parse_ip "1::2::3" = None /\ parse_ip "1:2:3:4:5:6:7:8:9" = None /\
  parse_socket_addr "[2001:db8::1%3]:443" = Some (V6 [8193; 3512; 0; 0; 0; 0; 0; 1]) /\
  parse_socket_addr "1.2.3.4:080" = Some (V4 1 2 3 4) /\ parse_socket_addr "1.2.3.4" = None /\
  show_ip (V6 [8193; 3512; 0; 0; 1; 0; 0; 1]) = "2001:db8::1:0:0:1"%string /\
  show_ip (V6 [1; 0; 2; 3; 4; 5; 6; 0]) = "1:0:2:3:4:5:6:0"%string.
Proof. vm_compute. done. Qed.

(** * Round trip *)

Definition headless (radix : N) (s : string) : Prop :=
  match s with String c _ => to_digit radix c = None | EmptyString => True end.

Lemma read_digits_app radix t r acc n :
  (forall v k, read_digits radix acc n t = (v, k, ""%string) -> read_digits radix acc n (t +:+ r) = read_digits radix v k r).
Proof.
  revert acc n. induction t as [|c t IH]; intros acc n v k; cbn.
  - by intros [= <- <-].
  - change (String c t +:+ r) with (String c (t +:+ r)). cbn. destruct (to_digit radix c) as [d|]; [|done]. apply IH.
Qed.

Lemma read_digits_stop radix acc n r : headless radix r -> read_digits radix acc n r = (acc, n, r).
Proof. destruct r as [|c r]; cbn; [done|]. by intros ->. Qed.

Fixpoint below (fuel : nat) (n : N) (p : N -> bool) : bool :=
  match fuel with O => true | S fuel => p n && below fuel (n + 1) p end.

Lemma below_spec fuel n p m : below fuel n p = true -> n <= m < n + N.of_nat fuel -> p m = true.
Proof.
  revert n. induction fuel as [|fuel IH]; intros n; cbn [below]; [lia|].
  intros [Hn Hb]%andb_true_iff Hm. destruct (decide (m = n)) as [->|]; [done|]. apply (IH (n + 1)); [done|]. lia.
Qed.

(** The number printed is read back, whatever follows that is no digit. *)
Definition reads_back (radix max : N) (digits : nat) (zero : bool) (show : N -> string) (n : N) : bool :=
  let '(v, k, rest) := read_digits radix 0 0 (show n) in
  bool_decide (rest = ""%string) && (v =? n) && (0 <? k)%nat && (k <=? digits)%nat && (v <=? max)
  && (zero || negb (starts_with (show n) "0") || (k =? 1)%nat) && negb (bool_decide (show n = ""%string)).

Lemma starts_with_app s r : s <> ""%string -> starts_with (s +:+ r) "0" = starts_with s "0".
Proof.
  destruct s as [|c s]; [done|]. intros _. change (String c s +:+ r) with (String c (s +:+ r)).
  unfold starts_with, String.prefix. destruct (Ascii.ascii_dec "0" c); [|done]. by destruct (s +:+ r), s.
Qed.

Lemma read_number_app radix max digits zero show n r :
  reads_back radix max digits zero show n = true -> headless radix r ->
  read_number radix max (Some digits) zero (show n +:+ r) = Some (n, r).
Proof.
  unfold reads_back. destruct (read_digits radix 0 0 (show n)) as [[v k] rest] eqn:E.
  rewrite !andb_true_iff, negb_true_iff, bool_decide_eq_true, bool_decide_eq_false.
  intros ((((((-> & <-%N.eqb_eq) & Hk) & Hd) & Hm) & Hz) & Hne) Hr. unfold read_number.
  rewrite (read_digits_app _ _ r _ _ _ _ E), read_digits_stop by done. rewrite starts_with_app by done.
  apply Nat.ltb_lt in Hk. apply Nat.leb_le in Hd. rewrite (proj2 (Nat.ltb_ge digits k)) by lia.
  rewrite (proj2 (Nat.eqb_neq k 0)) by lia. rewrite Hm.
  destruct zero; cbn [negb andb orb] in *; [done|].
  destruct (starts_with (show v) "0"); cbn [andb orb negb] in *; [|done]. apply Nat.eqb_eq in Hz as ->. done.
Qed.

Fixpoint lacks (c : ascii) (s : string) : bool :=
  match s with EmptyString => true | String d s => negb (bool_decide (d = c)) && lacks c s end.

Lemma hex_checked :
  below (N.to_nat 65536) 0 (fun n => reads_back 16 65535 4 true lower_hex n && lacks "." (lower_hex n)) = true.
Proof. vm_cast_no_check (eq_refl true). Qed.

Lemma hex_reads_back n : n < 65536 -> reads_back 16 65535 4 true lower_hex n = true.
Proof. intros Hn. pose proof (below_spec _ _ _ n hex_checked) as Hc. apply andb_true_iff in Hc; [apply Hc|lia]. Qed.
Lemma hex_lacks_dot n : n < 65536 -> lacks "." (lower_hex n) = true.
Proof. intros Hn. pose proof (below_spec _ _ _ n hex_checked) as Hc. apply andb_true_iff in Hc; [apply Hc|lia]. Qed.
Lemma octet_reads_back n : n < 256 -> reads_back 10 255 3 false usize_to_string n = true.
Proof.
  intros Hn. eapply (below_spec 256 0 (reads_back 10 255 3 false usize_to_string)); [vm_compute; reflexivity|lia].
Qed.

(** ** IPv4 *)

Lemma read_given_char_cons c s : read_given_char c (String c s) = Some s.
Proof. cbn. by rewrite bool_decide_eq_true_2. Qed.

Ltac read_numbers :=
  repeat (rewrite ?str_app_assoc, ?str_app_cons, ?read_given_char_cons; cbn [mbind option_bind];
    first [rewrite (read_number_app 10 255 3 false usize_to_string) by
             first [by apply octet_reads_back | reflexivity | assumption]
          | rewrite (read_number_app 16 65535 4 true lower_hex) by
             first [by apply hex_reads_back | reflexivity | assumption] ]; cbn [mbind option_bind]).

Lemma read_ipv4_show a b c d r :
  a < 256 -> b < 256 -> c < 256 -> d < 256 -> headless 10 r ->
  read_ipv4 (show_ipv4 a b c d +:+ r) = Some ((a, b, c, d), r).
Proof.
  intros Ha Hb Hc Hd Hr. unfold show_ipv4. cbn [fmap list_fmap join]. unfold read_ipv4. cbn [read_separator].
  read_numbers. done.
Qed.

Lemma read_digits_suffix radix acc n s v k r : read_digits radix acc n s = (v, k, r) -> exists p, s = p +:+ r.
Proof.
  revert acc n. induction s as [|c s IH]; intros acc n; cbn.
  - intros [= _ _ <-]. by exists ""%string.
  - destruct (to_digit radix c); [|intros [= _ _ <-]; by exists ""%string].
    intros (p & ->)%IH. by exists (String c p).
Qed.

Lemma lacks_app c s t : lacks c (s +:+ t) = lacks c s && lacks c t.
Proof. induction s as [|d s IH]; [done|]. rewrite str_app_cons. cbn. by rewrite IH, andb_assoc. Qed.

(** Without a dot there is no IPv4 address. *)
Lemma read_ipv4_no_dot s : lacks "." s = true -> read_ipv4 s = None.
Proof.
  intros Hs. unfold read_ipv4. destruct (read_number 10 255 (Some 3%nat) false s) as [[a r]|] eqn:E; [|done].
  cbn [mbind option_bind]. unfold read_number in E. destruct (read_digits 10 0 0 s) as [[v k] r'] eqn:Ed.
  repeat case_match; simplify_eq. apply read_digits_suffix in Ed as (p & ->).
  rewrite lacks_app in Hs. apply andb_true_iff in Hs as [_ Hs]. destruct r as [|c r]; [done|].
  cbn in Hs |- *. apply andb_true_iff in Hs as [Hs _]. apply negb_true_iff, bool_decide_eq_false in Hs.
  by rewrite bool_decide_eq_false_2.
Qed.

(** ** IPv6 *)

Definition colon_groups (gs : list N) (r : string) : string :=
  foldr (fun g acc => String ":" (lower_hex g +:+ acc)) r gs.

Lemma join_hex g gs r : join ":" (lower_hex <$> (g :: gs)) +:+ r = lower_hex g +:+ colon_groups gs r.
Proof.
  revert g. induction gs as [|g' gs IH]; intros g; [done|].
  rewrite fmap_cons, join_cons by done. by rewrite str_app_assoc, str_app_cons, IH.
Qed.

Lemma colon_groups_lacks_dot gs r :
  Forall (fun g => g < 65536) gs -> lacks "." r = true -> lacks "." (colon_groups gs r) = true.
Proof.
  intros Hg Hr. induction Hg as [|g gs Hg _ IH]; [done|]. change (lacks "." (lower_hex g +:+ colon_groups gs r) = true). by rewrite lacks_app, hex_lacks_dot, IH.
Qed.

Definition stops (r : string) : Prop :=
  lacks "." r = true /\ headless 16 r /\ forall t, r = String ":" t -> headless 16 t.

Lemma read_number_headless radix max m z s : headless radix s -> read_number radix max (Some m) z s = None.
Proof. intros Hs. unfold read_number. rewrite read_digits_stop by done. by destruct m. Qed.

Lemma read_given_lacks c s t : lacks "." s = true -> read_given_char c s = Some t -> lacks "." t = true.
Proof.
  destruct s as [|d s]; [done|]. cbn [lacks read_given_char]. intros [_ Hs]%andb_true_iff. case_bool_decide; [|done].
  by intros [= <-].
Qed.

Lemma no_embedded left i s :
  lacks "." s = true -> match left with O => None | S _ => read_separator ":" i read_ipv4 s end = None.
Proof.
  intros Hs. destruct left; [done|]. unfold read_separator. destruct i; [by apply read_ipv4_no_dot|].
  destruct (read_given_char ":" s) eqn:E; [|done]. cbn. by eapply read_ipv4_no_dot, read_given_lacks.
Qed.

Lemma headless_colon gs r : headless 16 r -> headless 16 (colon_groups gs r).
Proof. by destruct gs. Qed.

Lemma read_groups_colon gs left i r :
  Forall (fun g => g < 65536) gs -> (length gs <= left)%nat -> stops r ->
  read_groups left (S i) (colon_groups gs r) = (gs, false, r).
Proof.
  intros Hg. revert left i. induction Hg as [|g gs Hg Hgs IH]; intros left i Hl (Hd & Hh & Ht).
  - destruct left; [done|]. cbn [colon_groups foldr read_groups]. rewrite no_embedded by done.
    unfold read_separator. destruct r as [|c r]; [done|]. cbn [read_given_char]. case_bool_decide; [|done].
    subst. cbn [mbind option_bind]. by rewrite read_number_headless by (by apply Ht).
  - destruct left as [|left]; [cbn in Hl; lia|]. cbn [read_groups].
    rewrite no_embedded by (apply (colon_groups_lacks_dot (g :: gs)); [by constructor|done]).
    cbn [colon_groups foldr read_separator]. fold (colon_groups gs r). rewrite read_given_char_cons. cbn [mbind option_bind].
    rewrite (read_number_app 16 65535 4 true lower_hex) by first [by apply hex_reads_back | by apply headless_colon].
    rewrite IH; [done|cbn in Hl; lia|done].
Qed.

Lemma read_groups_join gs left r :
  Forall (fun g => g < 65536) gs -> (length gs <= left)%nat -> stops r ->
  read_groups left 0 (join ":" (lower_hex <$> gs) +:+ r) = (gs, false, r).
Proof.
  intros Hg Hl (Hd & Hh & Ht). destruct gs as [|g gs].
  - change (join ":" (lower_hex <$> []) +:+ r) with r. destruct left; [done|]. cbn [read_groups].
    rewrite no_embedded by done. cbn [read_separator]. by rewrite read_number_headless.
  - apply Forall_cons in Hg as [Hg Hgs]. destruct left as [|left]; [cbn in Hl; lia|]. rewrite join_hex.
    cbn [read_groups]. rewrite no_embedded by (by rewrite lacks_app, hex_lacks_dot, colon_groups_lacks_dot).
    cbn [read_separator]. rewrite (read_number_app 16 65535 4 true lower_hex) by first [by apply hex_reads_back | by apply headless_colon].
    rewrite read_groups_colon; [done|done|cbn in Hl; lia|done].
Qed.

Lemma stops_nil : stops "".
Proof. by split_and!. Qed.
Lemma stops_gap r : lacks "." r = true -> stops (String ":" (String ":" r)).
Proof. intros Hr. split_and!; [done..|]. intros t [= <-]. done. Qed.

Lemma join_hex_lacks_dot gs : Forall (fun g => g < 65536) gs -> lacks "." (join ":" (lower_hex <$> gs)) = true.
Proof.
  intros Hg. destruct gs as [|g gs]; [done|]. apply Forall_cons in Hg as [Hg Hgs].
  rewrite <- (str_app_nil (join _ _)), join_hex, lacks_app, hex_lacks_dot by done. by apply colon_groups_lacks_dot.
Qed.

Lemma zero_run_spec l start len :
  length l = 8%nat -> zero_run 0 0 0 0 0 l = (start, len) ->
  l = take start l ++ replicate len 0 ++ drop (start + len) l /\ (start + len <= 8)%nat.
Proof.
  intros Hl. do 8 (destruct l as [|? l]; [done|]). destruct l; [|done]. clear Hl.
  unfold zero_run. intros E.
  repeat match type of E with context [?x =? 0] => destruct (N.eqb_spec x 0) as [->|?]; cbn in E end;
    injection E as <- <-; cbn; split; try done; lia.
Qed.

Lemma read_ipv6_show l :
  length l = 8%nat -> Forall (fun g => g < 65536) l -> to_ipv4_mapped l = None ->
  read_ipv6 (show_ipv6 l) = Some (l, ""%string) /\ lacks "." (show_ipv6 l) = true.
Proof.
  intros Hl Hg Hm. unfold show_ipv6. rewrite Hm. destruct (zero_run 0 0 0 0 0 l) as [start len] eqn:E.
  apply zero_run_spec in E as [El Hle]; [|done]. unfold read_ipv6. destruct (Nat.ltb_spec 1 len) as [Hlen|_].
  - set (front := take start l) in *. set (back := drop (start + len) l) in *.
    assert (length front = start) as Hf by (unfold front; rewrite length_take; lia).
    assert (length back = (8 - start - len)%nat) as Hb by (unfold back; rewrite length_drop; lia).
    assert (Forall (fun g => g < 65536) front) as Hgf by (by apply Forall_take).
    assert (Forall (fun g => g < 65536) back) as Hgb by (by apply Forall_drop).
    change ("::" +:+ ?t) with (String ":" (String ":" t)). split.
    2:{ rewrite lacks_app, join_hex_lacks_dot by done. cbn. by apply join_hex_lacks_dot. }
    rewrite read_groups_join by (try apply stops_gap, join_hex_lacks_dot; try done; lia).
    rewrite (proj2 (Nat.eqb_neq (length front) 8)) by lia. rewrite !read_given_char_cons. cbn [mbind option_bind].
    rewrite read_given_char_cons. cbn [mbind option_bind].
    rewrite <- (str_app_nil (join ":" (lower_hex <$> back))).
    rewrite read_groups_join by (try apply stops_nil; try done; lia).
    replace (8 - length front - length back)%nat with len by lia. by rewrite <- El.
  - split; [|by apply join_hex_lacks_dot]. rewrite <- (str_app_nil (join ":" (lower_hex <$> l))).
    rewrite read_groups_join by (try apply stops_nil; try done; lia). by rewrite Hl.
Qed.

Lemma show_mapped a b c d :
  a < 256 -> b < 256 -> c < 256 -> d < 256 ->
  parse_ip ("::ffff:" +:+ show_ipv4 a b c d) = Some (V6 [0; 0; 0; 0; 0; 65535; a * 256 + b; c * 256 + d]).
Proof.
  intros Ha Hb Hc Hd. unfold parse_ip, parse_with, read_ip, read_ipv6.
  change (read_ipv4 ("::ffff:" +:+ show_ipv4 a b c d)) with (@None ((N * N * N * N) * string)). cbn [mbind option_bind].
  change (read_groups 8 0 ("::ffff:" +:+ show_ipv4 a b c d)) with (@nil N, false, "::ffff:" +:+ show_ipv4 a b c d).
  cbn [length Nat.eqb]. change ("::ffff:" +:+ ?t) with (String ":" (String ":" ("ffff:" +:+ t))).
  rewrite !read_given_char_cons. cbn [mbind option_bind]. rewrite read_given_char_cons. cbn [mbind option_bind].
  change (8 - (0 + 1))%nat with 7%nat. cbn [read_groups read_separator].
  change (read_ipv4 ("ffff:" +:+ show_ipv4 a b c d)) with (@None ((N * N * N * N) * string)).
  change (read_number 16 65535 (Some 4%nat) true ("ffff:" +:+ show_ipv4 a b c d))
    with (Some (65535, String ":" (show_ipv4 a b c d))). cbn beta iota zeta.
  rewrite read_given_char_cons. cbn [mbind option_bind].
  rewrite <- (str_app_nil (show_ipv4 a b c d)), read_ipv4_show by done. done.
Qed.

Lemma mapped_spec l x y z w :
  Forall (fun g => g < 65536) l -> to_ipv4_mapped l = Some (x, y, z, w) ->
  x < 256 /\ y < 256 /\ z < 256 /\ w < 256 /\ l = [0; 0; 0; 0; 0; 65535; x * 256 + y; z * 256 + w].
Proof.
  intros Hg Hm. unfold to_ipv4_mapped in Hm. repeat case_match; try done. simplify_eq.
  do 6 apply Forall_cons in Hg as [_ Hg]. apply Forall_cons in Hg as [Hu Hg]. apply Forall_cons in Hg as [Hv _].
  match goal with |- _ /\ _ /\ _ /\ _ /\ [_; _; _; _; _; _; ?u; ?v] = _ =>
    pose proof (N.div_mod u 256); pose proof (N.div_mod v 256);
    pose proof (N.mod_lt u 256); pose proof (N.mod_lt v 256);
    pose proof (N.Div0.div_lt_upper_bound u 256 256); pose proof (N.Div0.div_lt_upper_bound v 256 256)
  end. split_and!; [lia..|]. repeat f_equal; lia.
Qed.

(** An address is read back from its text. *)
Lemma parse_show_ip x : ip_wf x -> parse_ip (show_ip x) = Some x.
Proof.
  destruct x as [a b c d|l]; cbn [ip_wf show_ip].
  - intros (Ha & Hb & Hc & Hd). unfold parse_ip, parse_with, read_ip.
    rewrite <- (str_app_nil (show_ipv4 a b c d)), read_ipv4_show by done. done.
  - intros [Hl Hg]. destruct (to_ipv4_mapped l) as [[[[x y] z] w]|] eqn:Hm.
    + unfold show_ipv6. rewrite Hm. apply mapped_spec in Hm as (? & ? & ? & ? & ->); [|done]. by apply show_mapped.
    + destruct (read_ipv6_show l Hl Hg Hm) as [Hr Hd]. unfold parse_ip, parse_with, read_ip.
      rewrite read_ipv4_no_dot by done. by rewrite Hr.
Qed.

Lemma show_ip_inj x y : ip_wf x -> ip_wf y -> show_ip x = show_ip y -> x = y.
Proof. intros Hx%parse_show_ip Hy%parse_show_ip E. rewrite E in Hx. congruence. Qed.

(** ** Addresses read are in range *)

Lemma read_number_le radix max m z s v r : read_number radix max m z s = Some (v, r) -> v <= max.
Proof.
  unfold read_number. destruct (read_digits radix 0 0 s) as [[v' k] rest].
  repeat case_match; try done; intros [= <- <-]; by apply N.leb_le.
Qed.

Lemma read_separator_Some {A} c i (inner : string -> option (A * string)) s x r :
  read_separator c i inner s = Some (x, r) -> exists s', inner s' = Some (x, r).
Proof. unfold read_separator. destruct i; [eauto|]. intros (? & _ & ?)%bind_Some. eauto. Qed.

Lemma read_ipv4_wf s a b c d r : read_ipv4 s = Some ((a, b, c, d), r) -> ip_wf (V4 a b c d).
Proof.
  unfold read_ipv4. intros ([a' s1] & Ha & H)%bind_Some. apply bind_Some in H as ([b' s2] & Hb & H).
  apply bind_Some in H as ([c' s3] & Hc & H). apply bind_Some in H as ([d' s4] & Hd & H). simplify_eq.
  apply read_separator_Some in Hb as [? Hb], Hc as [? Hc], Hd as [? Hd].
  apply read_number_le in Ha, Hb, Hc, Hd. cbn. lia.
Qed.

Lemma read_groups_wf left i s gs v4 r :
  read_groups left i s = (gs, v4, r) -> (length gs <= left)%nat /\ Forall (fun g => g < 65536) gs.
Proof.
  revert i s gs v4 r. induction left as [|left IH]; intros i s gs v4 r; cbn [read_groups].
  { intros ?; simplify_eq. by split. }
  destruct (match left with O => None | S _ => _ end) as [[[[[a b] c] d] s']|] eqn:E.
  - destruct left as [|left]; [done|]. apply read_separator_Some in E as [? (? & ? & ? & ?)%read_ipv4_wf].
    intros ?; simplify_eq. split; [cbn; lia|]. repeat constructor; lia.
  - destruct (read_separator ":" i (read_number 16 65535 (Some 4%nat) true) s) as [[g s']|] eqn:Eg.
    + destruct (read_groups left (S i) s') as [[gs' ?] ?] eqn:Er. intros ?; simplify_eq. apply IH in Er as [? ?].
      apply read_separator_Some in Eg as [? Hg%read_number_le]. split; [cbn; lia|]. constructor; [lia|done].
    + intros ?; simplify_eq. split; [cbn; lia|done].
Qed.

Lemma read_ipv6_wf s l r : read_ipv6 s = Some (l, r) -> ip_wf (V6 l).
Proof.
  unfold read_ipv6. destruct (read_groups 8 0 s) as [[front v4] s'] eqn:Ef. apply read_groups_wf in Ef as [Hl Hf].
  destruct (Nat.eqb_spec (length front) 8) as [E|E]; [by intros [= <- _]|]. destruct v4; [done|].
  intros (? & _ & (? & _ & H)%bind_Some)%bind_Some.
  destruct (read_groups (8 - (length front + 1)) 0 _) as [[back ?] ?] eqn:Eb. apply read_groups_wf in Eb as [Hlb Hb].
  simplify_eq. split.
  - rewrite !length_app, length_replicate. lia.
  - apply Forall_app. split; [done|]. apply Forall_app. split; [|done]. apply Forall_replicate. lia.
Qed.

Lemma read_ip_wf s x r : read_ip s = Some (x, r) -> ip_wf x.
Proof.
  unfold read_ip. destruct (read_ipv4 s) as [[[[[a b] c] d] s']|] eqn:E.
  - intros [= <- _]. by eapply read_ipv4_wf.
  - intros ([l ?] & Hl & [= <- _])%bind_Some. by eapply read_ipv6_wf.
Qed.

Lemma read_socket_addr_wf s x r : read_socket_addr s = Some (x, r) -> ip_wf x.
Proof.
  unfold read_socket_addr. destruct (read_ipv4 s ≫= _) as [[[[[a b] c] d] s']|] eqn:E.
  - intros [= <- _]. apply bind_Some in E as ([[[[a' b'] c'] d'] ?] & E & ([? ?] & _ & [= -> -> -> -> _])%bind_Some).
    by eapply read_ipv4_wf.
  - intros (? & _ & ([l ?] & Hl & (? & _ & ([? ?] & _ & [= <- _])%bind_Some)%bind_Some)%bind_Some)%bind_Some.
    by eapply read_ipv6_wf.
Qed.

Lemma parse_with_Some {A} (reader : string -> option (A * string)) s x :
  parse_with reader s = Some x -> exists r, reader s = Some (x, r).
Proof. unfold parse_with. repeat case_match; naive_solver. Qed.

Lemma parse_ip_wf s x : parse_ip s = Some x -> ip_wf x.
Proof. intros [? ?]%parse_with_Some. by eapply read_ip_wf. Qed.
Lemma parse_socket_addr_wf s x : parse_socket_addr s = Some x -> ip_wf x.
Proof. intros [? ?]%parse_with_Some. by eapply read_socket_addr_wf. Qed.
