(* ===== verification/HeaderPolicy.v ===== *)
(** Header policies of the gateway: hop-by-hop fields ([apis/src/http_hop.rs])
    and the targets and values that body-derived data may be promoted to
    ([apis/src/promotion.rs]).

    The header-name syntax belongs to the [http] and [praxis_filter] crates:
    [validate_header_name] and [parse_header_name] are parameters.  A
    [FilterError] is its message. *)

From S2P Require Import Prelude Utf8 RustStr.
From Stdlib Require Import Strings.Ascii.

Local Open Scope N_scope.
Local Open Scope rust_scope.

(** * Hop-by-hop fields *)

Definition hop_by_hop_names : list string :=
  ["connection"; "keep-alive"; "proxy-authenticate"; "proxy-authorization"; "proxy-connection";
   "te"; "trailer"; "transfer-encoding"; "upgrade"]%string.

(** [is_hop_by_hop]. *)
Definition is_hop_by_hop (name : string) : bool := bool_decide (name ∈ hop_by_hop_names).

(** [connection_tokens]. *)
Definition connection_tokens (value : string) : list string :=
  filter (fun token => token <> ""%string) (trim <$> split_on "," value).

(** [connection_nominates]. *)
Definition connection_nominates (value name : string) : bool :=
  existsb (fun token => eq_ignore_ascii_case token name) (connection_tokens value).

(** [connection_nominates_header]: [values] are the [Connection] values of the
    request that are text. *)
Definition connection_nominates_header (values : list string) (name : string) : bool :=
  existsb (fun value => connection_nominates value name) values.

(** * Promoted values *)

Definition MAX_PROMOTED_VALUE_LEN : N := 256.

(** [is_safe_promoted_value]. *)
Definition is_safe_promoted_value (s : string) : bool :=
  forallb (fun b => (N_of_ascii b =? 9) || ((0x20 <=? N_of_ascii b) && negb (N_of_ascii b =? 0x7f)))
    (String.list_ascii_of_string s).

(** [contains_control_chars]. *)
Definition contains_control_chars (s : string) : bool := negb (is_safe_promoted_value s).

(** [is_promotable_value]. *)
Definition is_promotable_value (val : string) : bool :=
  (str_len val <=? MAX_PROMOTED_VALUE_LEN) && is_safe_promoted_value val.

(** * Promotion targets *)

Definition AI_FACT_PREFIXES : list string := ["x-praxis-ai-"; "x-praxis-responses-"]%string.
Definition MODEL_IDENTITY_HEADERS : list string :=
  ["x-praxis-ai-effective-model"; "x-praxis-ai-original-model"]%string.

Definition framing_names : list string := ["content-length"; "content-type"; "expect"; "host"]%string.

(** [is_transport_controlled_header_lowercase]. *)
Definition is_transport_controlled_header_lowercase (name : string) : bool :=
  bool_decide (name ∈ framing_names) || is_hop_by_hop name.

(** [is_transport_controlled_header]. *)
Definition is_transport_controlled_header (name : string) : bool :=
  is_transport_controlled_header_lowercase (to_ascii_lowercase name).

Definition credential_names : list string :=
  ["authorization"; "proxy-authorization"; "cookie"; "set-cookie"; "www-authenticate"; "x-api-key";
   "api-key"; "x-goog-api-key"; "x-mcp-authorized"]%string.

(** [is_credential_header_lowercase] and [is_credential_header]. *)
Definition is_credential_header_lowercase (name : string) : bool := bool_decide (name ∈ credential_names).
Definition is_credential_header (name : string) : bool :=
  is_credential_header_lowercase (to_ascii_lowercase name).

(** [is_unsafe_promotion_target_lowercase]. *)
Definition is_unsafe_promotion_target_lowercase (name : string) (dedicated prefixes : list string) : bool :=
  if is_transport_controlled_header_lowercase name || is_credential_header_lowercase name then true
  else if existsb (fun allowed => eq_ignore_ascii_case allowed name) dedicated then false
  else if existsb (fun prefix => starts_with name prefix) prefixes then false
  else starts_with name "x-praxis-".

(** [is_unsafe_promotion_target]. *)
Definition is_unsafe_promotion_target (name : string) (dedicated prefixes : list string) : bool :=
  is_unsafe_promotion_target_lowercase (to_ascii_lowercase name) dedicated prefixes.

(** [is_unsafe_promotion_header]. *)
Definition is_unsafe_promotion_header (name : string) : bool :=
  is_unsafe_promotion_target name [] AI_FACT_PREFIXES.

(** [is_unsafe_model_identity_promotion_header]. *)
Definition is_unsafe_model_identity_promotion_header (name : string) : bool :=
  is_unsafe_promotion_target name MODEL_IDENTITY_HEADERS [].

(** [reject_unsafe_promotion_target]. *)
Definition reject_unsafe_promotion_target (flt field : string) (name : option string)
    (dedicated prefixes : list string) : result string unit :=
  match name with
  | None => Ok tt
  | Some raw =>
      let normalized := to_ascii_lowercase raw in
      if is_unsafe_promotion_target_lowercase normalized dedicated prefixes then
        Err (flt +:+ ": '" +:+ field +:+
             "' must not use transport, credential, or internal header '" +:+ normalized +:+ "'")
      else Ok tt
  end.

(** The loop of [reject_duplicate_promotion_fields]; [seen] holds the fields so
    far with their normalized names. *)
Fixpoint duplicate_loop (flt : string) (seen : list (string * string)) (fields : list (string * option string))
    : result string unit :=
  match fields with
  | [] => Ok tt
  | (_, None) :: fields => duplicate_loop flt seen fields
  | (field, Some raw) :: fields =>
      let normalized := to_ascii_lowercase raw in
      match List.find (fun e => bool_decide (e.2 = normalized)) seen with
      | Some (other, _) =>
          Err (flt +:+ ": '" +:+ field +:+ "' and '" +:+ other +:+ "' must not use the same header name")
      | None => duplicate_loop flt (seen ++ [(field, normalized)]) fields
      end
  end.

(** [reject_duplicate_promotion_fields]. *)
Definition reject_duplicate_promotion_fields (flt : string) (fields : list (string * option string))
    : result string unit := duplicate_loop flt [] fields.

Section Validators.
Context (validate_header_name : string -> string -> option string -> result string unit).
Context (parse_header_name : string -> result string string).

(** [validate_promotion_header]. *)
Definition validate_promotion_header (flt field : string) (name : option string) : result string unit :=
  let? _ := validate_header_name flt field name in
  reject_unsafe_promotion_target flt field name [] AI_FACT_PREFIXES.

(** [validate_dedicated_promotion_header]. *)
Definition validate_dedicated_promotion_header (flt field : string) (name : option string)
    (dedicated : list string) : result string unit :=
  let? _ := validate_header_name flt field name in
  reject_unsafe_promotion_target flt field name dedicated [].

(** [validate_model_identity_promotion_header]. *)
Definition validate_model_identity_promotion_header (flt field : string) (name : option string)
    : result string unit :=
  validate_dedicated_promotion_header flt field name MODEL_IDENTITY_HEADERS.

(** [parse_dedicated_promotion_header]: a parsed [HeaderName] is its
    [as_str]. *)
Definition parse_dedicated_promotion_header (flt field name : string) (dedicated : list string)
    : result string string :=
  if bool_decide (name = ""%string)
  then Err (flt +:+ ": " +:+ field +:+ " header name must not be empty")
  else
    match parse_header_name name with
    | Err e =>
        Err (flt +:+ ": " +:+ field +:+ " header name is not a valid HTTP header name: " +:+ e)
    | Ok header =>
        let? _ := reject_unsafe_promotion_target flt field (Some header) dedicated [] in
        Ok header
    end.
End Validators.

(** * Properties *)

(** The names a promotion may never overwrite, whatever its allowances. *)
Definition protected_names : list string := framing_names ++ hop_by_hop_names ++ credential_names.

Lemma transport_or_credential name :
  is_transport_controlled_header_lowercase name || is_credential_header_lowercase name = true
  <-> name ∈ protected_names.
Proof.
  unfold is_transport_controlled_header_lowercase, is_hop_by_hop, is_credential_header_lowercase, protected_names.
  rewrite !orb_true_iff, !bool_decide_eq_true, !elem_of_app. tauto.
Qed.

Lemma reject_target_spec flt field raw dedicated prefixes :
  reject_unsafe_promotion_target flt field (Some raw) dedicated prefixes = Ok tt <->
  to_ascii_lowercase raw ∉ protected_names /\
  (starts_with (to_ascii_lowercase raw) "x-praxis-" = true ->
   (exists d, d ∈ dedicated /\ to_ascii_lowercase d = to_ascii_lowercase raw) \/
   (exists p, p ∈ prefixes /\ starts_with (to_ascii_lowercase raw) p = true)).
Proof.
  unfold reject_unsafe_promotion_target, is_unsafe_promotion_target_lowercase. cbv zeta.
  set (n := to_ascii_lowercase raw). rewrite <- transport_or_credential.
  destruct (is_transport_controlled_header_lowercase n || is_credential_header_lowercase n);
    [split; [done|intros [H _]; by destruct H]|].
  assert ((exists d, d ∈ dedicated /\ to_ascii_lowercase d = n) <->
    existsb (fun allowed => eq_ignore_ascii_case allowed n) dedicated = true) as ->.
  { rewrite existsb_exists. setoid_rewrite <- list_elem_of_In. setoid_rewrite eq_ignore_ascii_case_spec.
    unfold n. by rewrite to_ascii_lowercase_idem. }
  assert ((exists p, p ∈ prefixes /\ starts_with n p = true) <->
    existsb (fun prefix => starts_with n prefix) prefixes = true) as ->.
  { rewrite existsb_exists. by setoid_rewrite <- list_elem_of_In. }
  destruct (existsb _ dedicated), (existsb _ prefixes), (starts_with n "x-praxis-"); naive_solver.
Qed.

Section ValidatorFacts.
Context (validate_header_name : string -> string -> option string -> result string unit).
Context (parse_header_name : string -> result string string).

(** What the allowances of the two kinds of validator amount to. *)
Definition only_ai_facts (n : string) : Prop :=
  starts_with n "x-praxis-" = true -> exists p, p ∈ AI_FACT_PREFIXES /\ starts_with n p = true.
Definition only_dedicated (dedicated : list string) (n : string) : Prop :=
  starts_with n "x-praxis-" = true -> exists d, d ∈ dedicated /\ to_ascii_lowercase d = n.

Lemma validate_dedicated_spec flt field raw dedicated :
  validate_dedicated_promotion_header validate_header_name flt field (Some raw) dedicated = Ok tt <->
  validate_header_name flt field (Some raw) = Ok tt /\
  to_ascii_lowercase raw ∉ protected_names /\ only_dedicated dedicated (to_ascii_lowercase raw).
Proof.
  unfold validate_dedicated_promotion_header, only_dedicated.
  destruct (validate_header_name flt field (Some raw)) as [[]|e]; [|naive_solver].
  rewrite reject_target_spec. split.
  - intros [H1 H2]. split_and!; [done..|]. intros Hp. destruct (H2 Hp) as [?|(p & Hin & _)]; [done|].
    by apply not_elem_of_nil in Hin.
  - intros (_ & H1 & H2). split; [done|]. naive_solver.
Qed.

(** Promotion targets: a configured header is accepted exactly when its
    syntax is, it is not (in any spelling of case) a framing, hop-by-hop or
    credential name, and it lies outside [x-praxis-] or in the part of that
    namespace its validator reserves: the AI fact prefixes for classification
    headers, the two model identity headers for client-derived models. *)
Theorem promotion_targets_confined flt field raw :
  (validate_promotion_header validate_header_name flt field (Some raw) = Ok tt <->
   validate_header_name flt field (Some raw) = Ok tt /\
   to_ascii_lowercase raw ∉ protected_names /\ only_ai_facts (to_ascii_lowercase raw)) /\
  (validate_model_identity_promotion_header validate_header_name flt field (Some raw) = Ok tt <->
   validate_header_name flt field (Some raw) = Ok tt /\
   to_ascii_lowercase raw ∉ protected_names /\
   only_dedicated MODEL_IDENTITY_HEADERS (to_ascii_lowercase raw)).
Proof.
  split; [|apply validate_dedicated_spec]. unfold validate_promotion_header, only_ai_facts.
  destruct (validate_header_name flt field (Some raw)) as [[]|e]; [|naive_solver].
  rewrite reject_target_spec. split.
  - intros [H1 H2]. split_and!; [done..|]. intros Hp. destruct (H2 Hp) as [(d & Hin & _)|?]; [|done].
    by apply not_elem_of_nil in Hin.
  - intros (_ & H1 & H2). split; [done|]. naive_solver.
Qed.

(** Parsing and validating agree where the two syntax checks do. *)
Lemma parse_dedicated_agrees flt field raw dedicated h :
  (forall n h, parse_header_name n = Ok h -> h = to_ascii_lowercase n) ->
  (validate_header_name flt field (Some raw) = Ok tt <->
   raw <> ""%string /\ exists h, parse_header_name raw = Ok h) ->
  parse_dedicated_promotion_header parse_header_name flt field raw dedicated = Ok h <->
  validate_dedicated_promotion_header validate_header_name flt field (Some raw) dedicated = Ok tt /\
  h = to_ascii_lowercase raw.
Proof.
  intros Hlow Hsyn. rewrite validate_dedicated_spec, Hsyn. unfold parse_dedicated_promotion_header.
  case_bool_decide as He; [naive_solver|]. destruct (parse_header_name raw) as [h'|e] eqn:Ep.
  - pose proof (Hlow _ _ Ep) as ->. assert (forall r : result string unit,
      (let? _ := r in Ok (to_ascii_lowercase raw)) = Ok h <-> r = Ok tt /\ h = to_ascii_lowercase raw) as ->.
    { intros [[]|]; naive_solver. }
    rewrite reject_target_spec, to_ascii_lowercase_idem. unfold only_dedicated.
    assert (forall p : string, p ∈ @nil string <-> False) as Hnil by set_solver. split.
    + intros [[H1 H2] ->]. split; [|done]. split_and!; [done|by eexists|done|]. intros Hp.
      destruct (H2 Hp) as [?|(p & Hin & _)]; [done|by apply Hnil in Hin].
    + intros [(_ & H1 & H2) ->]. split; [|done]. naive_solver.
  - naive_solver.
Qed.
End ValidatorFacts.

Lemma duplicate_loop_spec flt fields seen :
  duplicate_loop flt seen fields = Ok tt <->
  NoDup (to_ascii_lowercase <$> omap snd fields) /\
  forall n, n ∈ seen.*2 -> n ∉ (to_ascii_lowercase <$> omap snd fields).
Proof.
  revert seen. induction fields as [|[field [raw|]] fields IH]; intros seen; cbn [duplicate_loop].
  - split; [intros _; split; [constructor|set_solver]|done].
  - csimpl. set (n := to_ascii_lowercase raw). destruct (List.find _ seen) as [[other m]|] eqn:Ef.
    + apply find_some in Ef as [Hin Hn]. apply bool_decide_eq_true in Hn. cbn in Hn. subst m.
      split; [done|]. intros [_ H]. destruct (H n); [|by left].
      apply list_elem_of_fmap. exists (other, n). by rewrite list_elem_of_In.
    + rewrite IH, NoDup_cons, fmap_app. cbn [fmap list_fmap snd].
      assert (n ∉ seen.*2) as Hn.
      { intros ([o m] & Hm & Hin)%list_elem_of_fmap. cbn in Hm. subst m.
        apply list_elem_of_In in Hin. pose proof (find_none _ _ Ef _ Hin) as Hf. cbn in Hf.
        by apply bool_decide_eq_false in Hf. }
      set_solver.
  - apply IH.
Qed.

(** Two configured fields are accepted together exactly when their header names
    differ beyond case. *)
Lemma promotion_fields_distinct flt fields :
  reject_duplicate_promotion_fields flt fields = Ok tt <-> NoDup (to_ascii_lowercase <$> omap snd fields).
Proof.
  unfold reject_duplicate_promotion_fields. rewrite duplicate_loop_spec. set_solver.
Qed.
