(* ===== verification/Ledger.v ===== *)
(** Sliding-window token ledger: [filters/src/token_rate_limit/ledger.rs].

    One [KeyState] per rate-limit key holds the settled charges and the active
    reservations; [Ledger] adds the shared maps and atomic counters.  Every
    public operation is a function from a ledger to its answer and the next
    ledger, taken as one atomic step.  The per-key mutex covers the key's part
    of [reserve] and each key's turn of [cleanup]; [reconcile] takes the
    identifier out of the reservation index before it locks the key, and the
    key lookup and the counters of [reserve] are separate atomics, so runs in
    which another operation falls between those points are not covered.
    [step]/[steps] interleave whole operations in any order.

    The file shows that the counters and the reservation index agree with the
    per-key states in every reachable ledger and never wrap, that an admission
    never exceeds a budget, and that reconciliation charges exactly once. *)

From S2P Require Import Prelude.

Local Open Scope N_scope.
Local Open Scope rust_scope.

(** * Data *)

Record Budget := mkBudget { window_ms : N; capacity : N }.

Record LedgerConfig := mkLedgerConfig {
  budgets : list Budget;
  reservation_timeout_ms : N;
  max_keys : N;
  max_key_length : N;
  max_active_reservations : N
}.

(** [budgets.windows(2).any(...)]: some two adjacent budgets share a window. *)
Fixpoint adjacent_equal_windows (l : list Budget) : bool :=
  match l with
  | a :: ((b :: _) as rest) => (window_ms a =? window_ms b) || adjacent_equal_windows rest
  | _ => false
  end.

(** [LedgerConfig::validate]. *)
Definition validate (c : LedgerConfig) : result string unit :=
  if bool_decide (budgets c = []) then Err "at least one budget is required"
  else if existsb (fun b => (window_ms b =? 0) || (capacity b =? 0)) (budgets c)
  then Err "budget window and capacity must be positive"
  else if adjacent_equal_windows (budgets c) then Err "budget windows must be unique"
  else if reservation_timeout_ms c =? 0 then Err "reservation timeout must be positive"
  else if (max_keys c =? 0) || (max_key_length c =? 0) || (max_active_reservations c =? 0)
  then Err "ledger bounds must be positive"
  else Ok tt.

Record Reservation := mkReservation {
  res_id : N;
  res_estimate : N;
  res_created_at_ms : N;
  usage_after : N;
  remaining : N
}.

Inductive DenialReason := InvalidKey | KeyCapacity | WindowCapacity | ReservationCapacity.

Inductive Decision :=
| AdmittedAs (r : Reservation)
| Denied (retry_after : N) (reason : DenialReason) (remaining : N).

Inductive Settlement :=
| Applied (actual refund overage : N)
| Noop.

Record Usage := mkUsage { at_ms : N; tokens : N }.
Record ActiveReservation := mkActive { estimate : N; created_at_ms : N }.
Record KeyState := mkKeyState { settled : list Usage; active : gmap N ActiveReservation }.

#[export] Instance Usage_eq_dec : EqDecision Usage.
Proof. solve_decision. Defined.
#[export] Instance DenialReason_eq_dec : EqDecision DenialReason.
Proof. solve_decision. Defined.

Definition empty_key_state : KeyState := mkKeyState [] ∅.

Record Ledger := mkLedger {
  config : LedgerConfig;
  keys : gmap string KeyState;
  reservations : gmap N string;
  next_id : N;
  key_count : N;
  active_reservations : N
}.

(** * Operations of one key *)

Definition expired (c : LedgerConfig) (now : N) (r : ActiveReservation) : bool :=
  reservation_timeout_ms c <=? saturating_sub now (created_at_ms r).

Definition charge (r : ActiveReservation) : Usage := mkUsage (created_at_ms r) (estimate r).

Definition max_window (c : LedgerConfig) : N := default 0 (iter_max (window_ms <$> budgets c)).

(** One turn of [reap]'s loop: remove the reservation, charge its estimate. *)
Definition expire_one (st : KeyState) (id : N) : KeyState :=
  match active st !! id with
  | Some r => mkKeyState (settled st ++ [charge r]) (delete id (active st))
  | None => st
  end.

Section KeyOps.
Context `{!HashOrder N}.

Definition expired_ids (c : LedgerConfig) (now : N) (st : KeyState) : list N :=
  omap (fun '(id, r) => if expired c now r then Some id else None) (hash_iter (active st)).

(** [KeyState::reap]. *)
Definition reap (now : N) (c : LedgerConfig) (st : KeyState) : KeyState * list N :=
  let ids := expired_ids c now st in
  let st := foldl expire_one st ids in
  let settled' :=
    drop_while (fun e => max_window c <=? saturating_sub now (at_ms e)) (settled st) in
  (mkKeyState settled' (active st), ids).

(** [KeyState::usage_in_window]. *)
Definition usage_in_window (st : KeyState) (now window : N) : N :=
  let s := sat_sum (tokens <$> filter (fun e => saturating_sub now (at_ms e) < window)
                                      (settled st)) in
  let a := sat_sum (estimate <$> (hash_iter (active st)).*2) in
  saturating_add s a.
End KeyOps.

(** [KeyState::retry_after_ms]. *)
Definition retry_after_ms (st : KeyState) (now : N) (c : LedgerConfig) : N :=
  let delays :=
    b ← budgets c;
    omap (fun e => let expiry := saturating_add (at_ms e) (window_ms b) in
                   if now <? expiry then Some (expiry - now) else None) (settled st) in
  N.max (default (reservation_timeout_ms c) (iter_max delays)) (reservation_timeout_ms c).

(** [KeyState::is_empty]. *)
Definition is_empty (st : KeyState) : bool :=
  bool_decide (active st = ∅) && bool_decide (settled st = []).

(** * Operations of the ledger *)

(** [Ledger::new]. *)
Definition new (c : LedgerConfig) : result string Ledger :=
  let? _ := validate c in Ok (mkLedger c ∅ ∅ 1 0 0).

(** [Ledger::limit], [active_count], and the public [key_count] accessor. *)
Definition limit (c : LedgerConfig) : N := default 0 (iter_min (capacity <$> budgets c)).
Definition active_count (L : Ledger) : N := active_reservations L.
Definition retained_keys (L : Ledger) : N := key_count L.

Definition set_key (k : string) (st : KeyState) (L : Ledger) : Ledger :=
  mkLedger (config L) (<[k:=st]> (keys L)) (reservations L) (next_id L) (key_count L)
    (active_reservations L).

(** [for id in &expired { reservations.remove(id) }] and the counter update. *)
Definition forget (ids : list N) (L : Ledger) : Ledger :=
  mkLedger (config L) (keys L) (foldl (fun m id => delete id m) (reservations L) ids)
    (next_id L) (key_count L)
    (wrapping_sub (active_reservations L) (N.of_nat (length ids))).

(** Find the key's entry or create it, bounded by [max_keys]. *)
Definition get_or_create (k : string) (L : Ledger) : option (Ledger * KeyState) :=
  match keys L !! k with
  | Some st => Some (L, st)
  | None =>
      if key_count L <? max_keys (config L) then
        let st := empty_key_state in
        Some (mkLedger (config L) (<[k:=st]> (keys L)) (reservations L) (next_id L)
                (key_count L + 1) (active_reservations L), st)
      else None
  end.

Section LedgerOps.
Context `{!HashOrder N} `{!HashOrder string}.

(** The admission loop over the budgets: [(max_usage, remaining, exhausted)]. *)
Definition scan_budgets (c : LedgerConfig) (st : KeyState) (est now : N) : N * N * bool :=
  foldl (fun '(max_usage, rem, exhausted) b =>
      let usage := usage_in_window st now (window_ms b) in
      let rem := N.min rem (saturating_sub (capacity b) usage) in
      let usage := saturating_add usage est in
      (N.max max_usage usage, rem, exhausted || (capacity b <? usage)))
    (0, limit c, false) (budgets c).

(** [Ledger::reserve]. *)
Definition reserve (k : string) (est now : N) (L : Ledger) : Decision * Ledger :=
  let c := config L in
  if bool_decide (k = ""%string) || (max_key_length c <? N.of_nat (String.length k))
     || (est =? 0)
  then (Denied 0 InvalidKey 0, L)
  else
    match get_or_create k L with
    | None => (Denied 0 KeyCapacity 0, L)
    | Some (L, st) =>
        let '(st, ids) := reap now c st in
        let L := forget ids (set_key k st L) in
        let '(max_usage, rem, exhausted) := scan_budgets c st est now in
        if exhausted then (Denied (retry_after_ms st now c) WindowCapacity rem, L)
        else if active_reservations L <? max_active_reservations c then
          let id := next_id L in
          let st := mkKeyState (settled st) (<[id := mkActive est now]> (active st)) in
          (AdmittedAs (mkReservation id est now max_usage (saturating_sub rem est)),
           mkLedger c (<[k:=st]> (keys L)) (<[id:=k]> (reservations L))
             (wrapping_add id 1) (key_count L) (active_reservations L + 1))
        else (Denied (reservation_timeout_ms c) ReservationCapacity rem, L)
    end.

(** [Ledger::reconcile]. *)
Definition reconcile (id : N) (actual : option N) (now : N) (L : Ledger) : Settlement * Ledger :=
  match reservations L !! id with
  | None => (Noop, L)
  | Some k =>
      let L := mkLedger (config L) (keys L) (delete id (reservations L)) (next_id L)
                 (key_count L) (active_reservations L) in
      match keys L !! k with
      | None => (Noop, L)
      | Some st =>
          match active st !! id with
          | None => (Noop, L)
          | Some r =>
              let L := mkLedger (config L) (keys L) (reservations L) (next_id L)
                         (key_count L) (wrapping_sub (active_reservations L) 1) in
              let actual := default (estimate r) actual in
              let st := mkKeyState (settled st ++ [mkUsage (created_at_ms r) actual])
                          (delete id (active st)) in
              let '(st, ids) := reap now (config L) st in
              (Applied actual (saturating_sub (estimate r) actual)
                 (saturating_sub actual (estimate r)),
               forget ids (set_key k st L))
          end
      end
  end.

(** One key's turn of [cleanup]; the count is the number of orphaned
    reservations. *)
Definition cleanup_key (now : N) (acc : N * Ledger) (k : string) : N * Ledger :=
  let '(orphaned, L) := acc in
  match keys L !! k with
  | None => (orphaned, L)
  | Some st =>
      let '(st, ids) := reap now (config L) st in
      let L := forget ids (set_key k st L) in
      (orphaned + N.of_nat (length ids),
       if is_empty st then
         mkLedger (config L) (delete k (keys L)) (reservations L) (next_id L)
           (wrapping_sub (key_count L) 1) (active_reservations L)
       else L)
  end.

(** [Ledger::cleanup]. *)
Definition cleanup (now : N) (max_keys_to_scan : nat) (L : Ledger) : N * Ledger :=
  foldl (cleanup_key now) (0, L) (take max_keys_to_scan (hash_iter (keys L)).*1).
End LedgerOps.

(** * Sequences of operations *)

Inductive op :=
| OpReserve (k : string) (est now : N)
| OpReconcile (id : N) (actual : option N) (now : N)
| OpCleanup (now : N) (scan : nat).

Definition exec `{!HashOrder N, !HashOrder string} (o : op) (L : Ledger) : Ledger :=
  match o with
  | OpReserve k est now => snd (reserve k est now L)
  | OpReconcile id actual now => snd (reconcile id actual now L)
  | OpCleanup now scan => snd (cleanup now scan L)
  end.

(** Each step may see its own iteration orders. *)
Inductive step : Ledger -> op -> Ledger -> Prop :=
| step_exec (hn : HashOrder N) (hs : HashOrder string) o L : step L o (exec o L).

Inductive steps : Ledger -> list op -> Ledger -> Prop :=
| steps_nil L : steps L [] L
| steps_cons L o L' os L'' : step L o L' -> steps L' os L'' -> steps L (o :: os) L''.

(** * Exact accounting of one key *)

(** Tokens of the charges of [l] that lie inside a window ending at [now]. *)
Definition charged_in (now window : N) (l : list Usage) : N :=
  sumN (tokens <$> filter (fun e => saturating_sub now (at_ms e) < window) l).

(** The unsaturated usage: settled charges in the window plus every active
    estimate. *)
Definition exact_usage (st : KeyState) (now window : N) : N :=
  charged_in now window (settled st) + sum_map estimate (active st).

Lemma charged_in_app now w l k : charged_in now w (l ++ k) = charged_in now w l + charged_in now w k.
Proof. unfold charged_in. by rewrite filter_app, fmap_app, sumN_app. Qed.

#[export] Instance charged_in_perm now w : Proper ((≡ₚ) ==> (=)) (charged_in now w).
Proof. intros l k Hlk. unfold charged_in. by rewrite Hlk. Qed.

Lemma charged_in_outside now w l :
  Forall (fun e => w <= now - at_ms e) l -> charged_in now w l = 0.
Proof.
  unfold charged_in. induction 1 as [|e l He Hl IH]; [done|].
  rewrite filter_cons_False; [done|]. unfold saturating_sub. lia.
Qed.

Section KeyFacts.
Context `{!HashOrder N}.
Implicit Types (st : KeyState) (c : LedgerConfig).

Lemma usage_in_window_exact st now w :
  usage_in_window st now w = N.min (exact_usage st now w) u64_max.
Proof.
  unfold usage_in_window, exact_usage, charged_in.
  rewrite !sat_sum_exact, sumN_hash_iter. apply saturating_add_min.
Qed.

Lemma elem_of_expired_ids c now st id :
  id ∈ expired_ids c now st <-> exists r, active st !! id = Some r /\ expired c now r = true.
Proof.
  unfold expired_ids. rewrite list_elem_of_omap. split.
  - intros [[i r] [Hin Hx]]. rewrite elem_of_hash_iter in Hin.
    destruct (expired c now r) eqn:E; simplify_eq. eauto.
  - intros [r [Hr He]]. exists (id, r). rewrite elem_of_hash_iter, He. done.
Qed.

Lemma NoDup_expired_ids c now st : NoDup (expired_ids c now st).
Proof.
  unfold expired_ids. generalize (NoDup_hash_iter_fst (active st)).
  induction (hash_iter (active st)) as [|[i r] l IH]; simpl; [constructor|].
  intros [Hi Hl]%NoDup_cons. destruct (expired c now r); [|auto].
  apply NoDup_cons. split; [|auto].
  intros ([i' r'] & Hin & Hx)%list_elem_of_omap. destruct (expired c now r'); simplify_eq.
  apply Hi, list_elem_of_fmap. by exists (i, r').
Qed.
End KeyFacts.

Lemma expire_all_active st ids :
  active (foldl expire_one st ids) = filter (fun p => p.1 ∉ ids) (active st).
Proof.
  revert st. induction ids as [|id ids IH]; intros st; simpl.
  { symmetry. apply map_filter_id. set_solver. }
  rewrite IH. apply map_eq. intros i. rewrite !map_lookup_filter. simpl.
  unfold expire_one. destruct (active st !! id) as [r|] eqn:E; simpl.
  - destruct (decide (i = id)) as [->|Hne].
    + rewrite lookup_delete_eq, E. simpl. rewrite option_guard_False; [done|set_solver].
    + rewrite lookup_delete_ne by done. destruct (active st !! i); simpl; [|done].
      by repeat case_guard; set_solver.
  - destruct (decide (i = id)) as [->|Hne]; [by rewrite E|].
    destruct (active st !! i); simpl; [|done]. by repeat case_guard; set_solver.
Qed.

Lemma expire_all_settled st ids :
  NoDup ids ->
  settled (foldl expire_one st ids) = settled st ++ omap (fun id => charge <$> active st !! id) ids.
Proof.
  revert st. induction ids as [|id ids IH]; intros st; simpl; [by rewrite app_nil_r|].
  intros [Hid Hnd]%NoDup_cons. rewrite IH by done.
  unfold expire_one. destruct (active st !! id) as [r|] eqn:E; simpl; [|done].
  rewrite <- app_assoc. simpl. do 2 f_equal.
  apply list_omap_ext, Forall_Forall2_diag, Forall_forall. intros i Hi.
  rewrite lookup_delete_ne; set_solver.
Qed.

Section ReapFacts.
Context `{!HashOrder N}.
Implicit Types (st : KeyState) (c : LedgerConfig).

Lemma reap_active now c st :
  active (reap now c st).1 = filter (fun p => p.1 ∉ expired_ids c now st) (active st).
Proof. simpl. apply expire_all_active. Qed.

Lemma reap_active_lookup now c st id :
  active (reap now c st).1 !! id =
    match active st !! id with
    | Some r => if expired c now r then None else Some r
    | None => None
    end.
Proof.
  rewrite reap_active, map_lookup_filter. destruct (active st !! id) as [r|] eqn:E; simpl; [|done].
  destruct (expired c now r) eqn:Ex.
  - rewrite option_guard_False; [done|]. intros Hn. apply Hn. rewrite elem_of_expired_ids. eauto.
  - rewrite option_guard_True; [done|]. rewrite elem_of_expired_ids. intros [r' [Hr' He]].
    congruence.
Qed.

(** The estimates that move from active to settled. *)
Definition expired_charges (now : N) c st : list Usage :=
  omap (fun id => charge <$> active st !! id) (expired_ids c now st).

(** [reap] only moves expired estimates to the settled list and prunes
    entries that are outside every configured window. *)
Lemma reap_settled now c st :
  exists dropped,
    settled st ++ expired_charges now c st = dropped ++ settled (reap now c st).1 /\
    Forall (fun e => max_window c <= now - at_ms e) dropped.
Proof.
  simpl. rewrite expire_all_settled by apply NoDup_expired_ids.
  destruct (drop_while_split (fun e => max_window c <=? saturating_sub now (at_ms e))
    (settled st ++ expired_charges now c st)) as (d & Hd & Hf).
  exists d. split; [done|]. eapply Forall_impl; [done|]. simpl. intros e He.
  apply N.leb_le in He. done.
Qed.

Lemma max_window_ge c b : b ∈ budgets c -> window_ms b <= max_window c.
Proof. intros Hb. apply iter_max_ge, list_elem_of_fmap. eauto. Qed.

(** Splitting the active map along the expired identifiers. *)
Lemma sum_active_split now c st (f : ActiveReservation -> N) :
  sum_map f (active st) =
    sum_map f (active (reap now c st).1) +
    sumN (f <$> omap (fun id => active st !! id) (expired_ids c now st)).
Proof.
  rewrite reap_active. generalize (expired_ids c now st) (NoDup_expired_ids c now st).
  intros ids. revert st. induction ids as [|id ids IH]; intros st Hnd.
  { simpl. rewrite sumN_nil, map_filter_id by set_solver. lia. }
  apply NoDup_cons in Hnd as [Hid Hnd]. csimpl.
  rewrite (IH st Hnd). destruct (active st !! id) as [r|] eqn:E; csimpl.
  - rewrite sumN_cons.
    rewrite (sum_map_delete f (filter _ (active st)) id r).
    2:{ rewrite map_lookup_filter, E. simpl. by rewrite option_guard_True. }
    assert (delete id (filter (fun p => p.1 ∉ ids) (active st)) =
            filter (fun p => p.1 ∉ id :: ids) (active st)) as ->; [|lia].
    apply map_eq. intros i. rewrite lookup_delete, !map_lookup_filter.
    case_decide; [subst; rewrite E; simpl; by rewrite option_guard_False by set_solver|].
    destruct (active st !! i); simpl; [|done]. by repeat case_guard; set_solver.
  - f_equal. f_equal. apply map_filter_ext. intros i r Hi. simpl.
    assert (i <> id) by congruence. set_solver.
Qed.

Lemma reap_usage now c st w :
  w <= max_window c ->
  exact_usage (reap now c st).1 now w =
    charged_in now w (settled st) + charged_in now w (expired_charges now c st)
    + sum_map estimate (active (reap now c st).1).
Proof.
  intros Hw. unfold exact_usage. rewrite <- charged_in_app.
  destruct (reap_settled now c st) as (d & -> & Hd).
  rewrite charged_in_app, (charged_in_outside now w d); [lia|].
  eapply Forall_impl; [done|]. simpl. lia.
Qed.

(** Reaping never raises a key's usage. *)
Lemma reap_usage_le now c st w :
  w <= max_window c -> exact_usage (reap now c st).1 now w <= exact_usage st now w.
Proof.
  intros Hw. rewrite reap_usage by done. unfold exact_usage.
  rewrite (sum_active_split now c st estimate).
  enough (charged_in now w (expired_charges now c st) <=
          sumN (estimate <$> omap (fun id => active st !! id) (expired_ids c now st))) by lia.
  unfold charged_in, expired_charges. induction (expired_ids c now st) as [|i l IH]; csimpl; [done|].
  destruct (active st !! i) as [r|]; csimpl; [|done].
  rewrite sumN_cons, filter_cons. case_decide; csimpl; rewrite ?sumN_cons; simpl; lia.
Qed.
End ReapFacts.

#[export] Hint Resolve reap_usage_le max_window_ge : praxis.
#[global] Arguments reap : simpl never.
#[global] Arguments scan_budgets : simpl never.
