(* ===== verification/LedgerInvariants.v ===== *)
(** Invariant of the sliding-window ledger and its consequences.

    [wf] ties the shared counters and the reservation index of a [Ledger] to
    the per-key states.  Every operation preserves it; [steps_wf] lifts that to
    all sequences of operations from a new ledger.  The admission and
    reconciliation theorems are proved under [wf]. *)

From S2P Require Import Prelude Ledger.

Local Open Scope N_scope.

(** * The invariant *)

Definition active_size (st : KeyState) : N := N.of_nat (size (active st)).

Record wf (L : Ledger) : Prop := mkWf {
  wf_width : max_keys (config L) <= u64_max /\ max_active_reservations (config L) <= u64_max;
  wf_key_count : key_count L = N.of_nat (size (keys L));
  wf_key_bound : key_count L <= max_keys (config L);
  wf_active : active_reservations L = sum_map active_size (keys L);
  wf_active_bound : active_reservations L <= max_active_reservations (config L);
  wf_index : forall id k, reservations L !! id = Some k <->
    exists st r, keys L !! k = Some st /\ active st !! id = Some r;
  wf_ids : forall id k, reservations L !! id = Some k -> 0 < id /\ id < next_id L
}.

Lemma new_wf c L :
  max_keys c <= u64_max -> max_active_reservations c <= u64_max ->
  new c = Ok L -> wf L.
Proof.
  intros Hk Ha. unfold new. destruct (validate c) as [[]|]; [|done]. intros [= <-].
  split; simpl; try done; try lia.
  intros id k. rewrite lookup_empty. split; [done|]. intros (st & r & H & _).
  by rewrite lookup_empty in H.
Qed.

(** Reservations of distinct keys have distinct identifiers. *)
Lemma wf_active_unique L k1 k2 st1 st2 id r1 r2 :
  wf L -> keys L !! k1 = Some st1 -> keys L !! k2 = Some st2 ->
  active st1 !! id = Some r1 -> active st2 !! id = Some r2 -> k1 = k2.
Proof.
  intros Hwf H1 H2 Ha1 Ha2.
  assert (reservations L !! id = Some k1) as E1 by (apply (wf_index L Hwf); eauto).
  assert (reservations L !! id = Some k2) as E2 by (apply (wf_index L Hwf); eauto).
  congruence.
Qed.

Lemma foldl_delete_lookup {V} (m : gmap N V) ids i :
  foldl (fun m id => delete id m) m ids !! i = if decide (i ∈ ids) then None else m !! i.
Proof.
  revert m. induction ids as [|id ids IH]; intros m; cbn [foldl].
  - case_decide; set_solver.
  - rewrite IH. destruct (decide (i = id)) as [->|Hne].
    + rewrite lookup_delete_eq. repeat case_decide; set_solver.
    + rewrite lookup_delete_ne by done. repeat case_decide; set_solver.
Qed.

Lemma size_filter_out (m : gmap N ActiveReservation) ids :
  NoDup ids -> (forall id, id ∈ ids -> is_Some (m !! id)) ->
  N.of_nat (size m) =
    N.of_nat (size (filter (fun p => p.1 ∉ ids) m)) + N.of_nat (length ids).
Proof.
  revert m. induction ids as [|id ids IH]; intros m Hnd Hin.
  { rewrite map_filter_id by set_solver. simpl. lia. }
  apply NoDup_cons in Hnd as [Hid Hnd].
  rewrite (IH m) by set_solver. destruct (Hin id) as [r Hr]; [set_solver|].
  assert (filter (fun p => p.1 ∉ id :: ids) m = delete id (filter (fun p => p.1 ∉ ids) m)) as ->.
  { apply map_eq. intros i. rewrite lookup_delete, !map_lookup_filter.
    case_decide; [subst; rewrite Hr; simpl; by rewrite option_guard_False by set_solver|].
    destruct (m !! i); simpl; [|done]. by repeat case_guard; set_solver. }
  rewrite map_size_delete_Some.
  2:{ rewrite map_lookup_filter, Hr. simpl. rewrite option_guard_True; done. }
  assert (size (filter (fun p => p.1 ∉ ids) m) <> 0%nat); [|simpl; lia].
  rewrite map_size_ne_0_lookup. exists id, r.
  rewrite map_lookup_filter, Hr. simpl. by rewrite option_guard_True.
Qed.

(** Dropping the reservations [ids] of one key, everywhere they are recorded. *)
Lemma wf_drop_active L k st st' ids :
  wf L -> keys L !! k = Some st -> NoDup ids ->
  (forall id, id ∈ ids -> is_Some (active st !! id)) ->
  active st' = filter (fun p => p.1 ∉ ids) (active st) ->
  wf (forget ids (set_key k st' L)) /\
  active_reservations (forget ids (set_key k st' L)) + N.of_nat (length ids)
    = active_reservations L.
Proof.
  intros Hwf Hk Hnd Hin Hact. pose proof Hwf as [Hw Hc Hcb Ha Hab Hi Hids].
  pose proof (sum_map_insert active_size _ k st st' Hk) as Hsum.
  pose proof (size_filter_out _ ids Hnd Hin) as Hsz. rewrite <- Hact in Hsz.
  fold (active_size st) (active_size st') in Hsz.
  pose proof (sum_map_lookup_le active_size _ _ _ Hk) as Hle.
  assert (wrapping_sub (active_reservations L) (N.of_nat (length ids))
          = active_reservations L - N.of_nat (length ids)) as Hsub
    by (apply wrapping_sub_exact; lia).
  split; [|simpl; rewrite Hsub; lia].
  split; simpl; try done.
  - rewrite map_size_insert_Some by eauto. done.
  - rewrite Hsub. lia.
  - rewrite Hsub. lia.
  - intros id k'. rewrite foldl_delete_lookup. case_decide as Hd.
    + split; [done|]. intros (s & r & Hs & Hr). destruct (Hin id Hd) as [r0 Hr0].
      destruct (decide (k' = k)) as [->|Hne].
      * rewrite lookup_insert_eq in Hs. simplify_eq. rewrite Hact, map_lookup_filter in Hr.
        rewrite Hr0 in Hr. simpl in Hr. by rewrite option_guard_False in Hr by (simpl; auto).
      * rewrite lookup_insert_ne in Hs by done.
        exfalso. apply Hne. eapply (wf_active_unique L k' k); eauto.
    + rewrite Hi. destruct (decide (k' = k)) as [->|Hne].
      * rewrite lookup_insert_eq. split; intros (s & r & Hs & Hr); simplify_eq.
        -- exists st', r. split; [done|]. rewrite Hact, map_lookup_filter, Hr. simpl.
           by rewrite option_guard_True.
        -- rewrite Hact in Hr. apply map_lookup_filter_Some in Hr as [Hr _]. eauto.
      * by rewrite lookup_insert_ne by done.
  - intros id k'. rewrite foldl_delete_lookup. case_decide; [done|]. apply Hids.
Qed.

(** * Preservation *)

Section Preservation.
Context `{!HashOrder N} `{!HashOrder string}.
Implicit Types (L : Ledger) (st : KeyState).

Lemma wf_reap L k st now :
  wf L -> keys L !! k = Some st ->
  let '(st', ids) := reap now (config L) st in
  wf (forget ids (set_key k st' L)) /\
  active_reservations (forget ids (set_key k st' L)) + N.of_nat (length ids)
    = active_reservations L.
Proof.
  intros Hwf Hk. destruct (reap now (config L) st) as [st' ids] eqn:E.
  assert (st' = (reap now (config L) st).1) as -> by by rewrite E.
  assert (ids = expired_ids (config L) now st) as -> by (unfold reap in E; congruence).
  eapply wf_drop_active; [done|done|apply NoDup_expired_ids| |apply reap_active].
  intros id (r & Hr & _)%elem_of_expired_ids. eauto.
Qed.

Lemma get_or_create_wf L k L' st :
  wf L -> get_or_create k L = Some (L', st) ->
  wf L' /\ keys L' !! k = Some st /\ config L' = config L /\ next_id L' = next_id L /\
  st = default empty_key_state (keys L !! k).
Proof.
  intros Hwf. unfold get_or_create. destruct (keys L !! k) as [st0|] eqn:Hk.
  { intros [= <- <-]. auto. }
  destruct (N.ltb_spec (key_count L) (max_keys (config L))); [|done]. intros [= <- <-].
  pose proof Hwf as [Hw Hc Hcb Ha Hab Hi Hids]. simpl. rewrite lookup_insert_eq.
  split; [|auto]. split; simpl; try done.
  - rewrite map_size_insert_None by done. lia.
  - lia.
  - rewrite sum_map_insert_new by done. done.
  - intros id k'. rewrite Hi. destruct (decide (k' = k)) as [->|Hne].
    + rewrite lookup_insert_eq. split; intros (s & r & Hs & Hr); simplify_eq.
    + by rewrite lookup_insert_ne.
Qed.

(** Recording a fresh reservation. *)
Lemma wf_admit L k st est now :
  wf L -> keys L !! k = Some st -> next_id L < u64_max -> 0 < next_id L ->
  active_reservations L < max_active_reservations (config L) ->
  wf (mkLedger (config L)
        (<[k := mkKeyState (settled st) (<[next_id L := mkActive est now]> (active st))]> (keys L))
        (<[next_id L := k]> (reservations L)) (wrapping_add (next_id L) 1)
        (key_count L) (active_reservations L + 1)).
Proof.
  intros Hwf Hk Hid Hpos Hlt. pose proof Hwf as [Hw Hc Hcb Ha Hab Hi Hids].
  rewrite wrapping_add_exact by lia.
  assert (forall k', reservations L !! next_id L <> Some k') as Hfresh
    by (intros k' (_ & ?)%Hids; lia).
  assert (forall k' s, keys L !! k' = Some s -> active s !! next_id L = None) as Hnone.
  { intros k' s Hs. destruct (active s !! next_id L) as [r|] eqn:E; [|done].
    exfalso. eapply Hfresh, Hi. eauto. }
  split; simpl; try done; try lia.
  - rewrite map_size_insert_Some by eauto. done.
  - pose proof (sum_map_insert active_size _ k st
      (mkKeyState (settled st) (<[next_id L := mkActive est now]> (active st))) Hk) as Hs.
    assert (active_size (mkKeyState (settled st)
      (<[next_id L := mkActive est now]> (active st))) = active_size st + 1); [|lia].
    unfold active_size. simpl. rewrite map_size_insert_None by eauto. lia.
  - intros id k'. destruct (decide (id = next_id L)) as [->|Hne].
    + rewrite lookup_insert_eq. split.
      * intros [= <-]. rewrite lookup_insert_eq. eexists _, _. split; [done|].
        apply lookup_insert_eq.
      * intros (s & r & Hs & Hr). destruct (decide (k' = k)) as [->|Hk']; [done|].
        rewrite lookup_insert_ne in Hs by done. by rewrite (Hnone k' s) in Hr.
    + rewrite lookup_insert_ne, Hi by done. destruct (decide (k' = k)) as [->|Hk'].
      * rewrite lookup_insert_eq. split; intros (s & r & Hs & Hr); simplify_eq.
        -- eexists _, _. split; [done|]. simpl. rewrite lookup_insert_ne; done.
        -- simpl in Hr. rewrite lookup_insert_ne in Hr by done. eauto.
      * by rewrite lookup_insert_ne.
  - intros id k'. destruct (decide (id = next_id L)) as [->|Hne].
    + intros _. lia.
    + rewrite lookup_insert_ne by done. intros ?%Hids. lia.
Qed.

Lemma reserve_wf L k est now :
  wf L -> 0 < next_id L -> next_id L < u64_max -> wf (reserve k est now L).2.
Proof.
  intros Hwf Hpos Hid. unfold reserve. case_match; [done|].
  destruct (get_or_create k L) as [[L1 st]|] eqn:Hg; [|done].
  destruct (get_or_create_wf _ _ _ _ Hwf Hg) as (Hwf1 & Hk1 & Hc1 & Hn1 & _).
  pose proof (wf_reap L1 k st now Hwf1 Hk1) as Hr. rewrite Hc1 in Hr.
  destruct (reap now (config L) st) as [st' ids]. destruct Hr as [Hwf2 _].
  destruct (scan_budgets _ _ _ _) as [[mu rem] ex]. destruct ex; [done|].
  match goal with |- context [if ?x then _ else _] => destruct x eqn:Hlt end; [|done].
  apply N.ltb_lt in Hlt. simpl. rewrite <- Hc1 in Hlt |- *.
  assert (keys (forget ids (set_key k st' L1)) !! k = Some st') as Hk2
    by (simpl; apply lookup_insert_eq).
  apply (wf_admit _ _ _ est now Hwf2 Hk2); simpl in *; try (rewrite Hn1; lia). done.
Qed.

Lemma reconcile_wf L id actual now : wf L -> wf (reconcile id actual now L).2.
Proof.
  intros Hwf. unfold reconcile. destruct (reservations L !! id) as [k|] eqn:Hr; [|done].
  pose proof Hr as Hr'. apply (wf_index L Hwf) in Hr' as (st & r & Hk & Ha).
  simpl. rewrite Hk, Ha.
  set (st1 := mkKeyState _ (delete id (active st))).
  destruct (wf_drop_active L k st st1 [id] Hwf Hk) as [Hwf1 _].
  { apply NoDup_singleton. }
  { intros i ->%list_elem_of_singleton. eauto. }
  { subst st1. simpl. apply map_eq. intros i. rewrite lookup_delete, map_lookup_filter.
    case_decide as Hi.
    - subst. rewrite Ha. simpl. by rewrite option_guard_False by set_solver.
    - destruct (active st !! i); simpl; [|done]. rewrite option_guard_True; set_solver. }
  assert (keys (forget [id] (set_key k st1 L)) !! k = Some st1) as Hk1
    by (simpl; apply lookup_insert_eq).
  pose proof (wf_reap _ k st1 now Hwf1 Hk1) as Hr1. simpl in Hr1 |- *.
  destruct (reap now (config L) st1) as [st2 ids]. destruct Hr1 as [Hwf2 _].
  unfold set_key, forget in *. simpl in *. by rewrite insert_insert_eq in Hwf2.
Qed.

Lemma wf_remove_empty L k st :
  wf L -> keys L !! k = Some st -> is_empty st = true ->
  wf (mkLedger (config L) (delete k (keys L)) (reservations L) (next_id L)
        (wrapping_sub (key_count L) 1) (active_reservations L)).
Proof.
  intros Hwf Hk He. pose proof Hwf as [Hw Hc Hcb Ha Hab Hi Hids].
  assert (active st = ∅) as Hact.
  { unfold is_empty in He. apply andb_prop in He as [He _]. by apply bool_decide_eq_true in He. }
  assert (size (keys L) <> 0%nat) as Hsz by (rewrite map_size_ne_0_lookup; eauto).
  split; simpl; try done; rewrite ?wrapping_sub_exact by lia; try lia.
  - rewrite map_size_delete_Some by eauto. lia.
  - rewrite Ha, (sum_map_delete active_size _ _ _ Hk). unfold active_size. rewrite Hact. done.
  - intros id k'. rewrite Hi. destruct (decide (k' = k)) as [->|Hne].
    + rewrite lookup_delete_eq. split; intros (s & r & Hs & Hr); simplify_eq.
      rewrite Hact, lookup_empty in Hr. done.
    + by rewrite lookup_delete_ne.
Qed.

Lemma cleanup_key_wf now n L k : wf L -> wf (cleanup_key now (n, L) k).2.
Proof.
  intros Hwf. unfold cleanup_key. destruct (keys L !! k) as [st|] eqn:Hk; [|done].
  pose proof (wf_reap L k st now Hwf Hk) as Hr.
  destruct (reap now (config L) st) as [st' ids]. destruct Hr as [Hwf1 _]. simpl.
  destruct (is_empty st') eqn:He; [|done].
  apply (wf_remove_empty _ k st' Hwf1); [|done]. simpl. apply lookup_insert_eq.
Qed.

Lemma cleanup_wf L now n : wf L -> wf (cleanup now n L).2.
Proof.
  unfold cleanup. generalize 0 as z. generalize (take n (hash_iter (keys L)).*1) as ks.
  intros ks. revert L. induction ks as [|k ks IH]; intros L z Hwf; cbn [foldl]; [done|].
  pose proof (cleanup_key_wf now z L k Hwf). destruct (cleanup_key now (z, L) k). by apply IH.
Qed.
End Preservation.


(** * What every operation keeps *)

Section Frames.
Context `{!HashOrder N} `{!HashOrder string}.
Implicit Types (L : Ledger).

Lemma get_or_create_frame k L L' st :
  get_or_create k L = Some (L', st) ->
  config L' = config L /\ next_id L' = next_id L /\ reservations L' = reservations L.
Proof. unfold get_or_create. repeat case_match; intros; simplify_eq; done. Qed.

Lemma cleanup_frame now n L :
  config (cleanup now n L).2 = config L /\ next_id (cleanup now n L).2 = next_id L /\
  forall id, reservations L !! id = None -> reservations (cleanup now n L).2 !! id = None.
Proof.
  unfold cleanup. generalize (take n (hash_iter (keys L)).*1) as ks. generalize 0 as z.
  intros z ks. revert z L. induction ks as [|k ks IH]; intros z L; cbn [foldl]; [done|].
  destruct (cleanup_key now (z, L) k) as [z' L'] eqn:E.
  destruct (IH z' L') as (H1 & H2 & H3).
  assert (config L' = config L /\ next_id L' = next_id L /\
    forall id, reservations L !! id = None -> reservations L' !! id = None) as (F1 & F2 & F3).
  { unfold cleanup_key in E. destruct (keys L !! k); [|simplify_eq; done].
    destruct (reap _ _ _). destruct (is_empty _); simplify_eq; simpl; (split; [done|]); (split; [done|]);
      intros id Hid; rewrite foldl_delete_lookup; by case_decide. }
  rewrite H1, H2. split; [done|]. split; [done|]. auto.
Qed.

Lemma reserve_frame k est now L :
  config (reserve k est now L).2 = config L /\
  (next_id (reserve k est now L).2 = next_id L \/
   next_id (reserve k est now L).2 = wrapping_add (next_id L) 1) /\
  forall id, id <> next_id L -> reservations L !! id = None ->
    reservations (reserve k est now L).2 !! id = None.
Proof.
  unfold reserve. destruct (_ || (est =? 0)); [auto|].
  destruct (get_or_create k L) as [[L1 st]|] eqn:Hg; [|auto].
  destruct (get_or_create_frame _ _ _ _ Hg) as (Hc & Hn & Hr).
  destruct (reap _ _ _) as [st' ids]. destruct (scan_budgets _ _ _ _) as [[mu rem] ex].
  repeat case_match; simpl; rewrite ?Hc, ?Hn, ?Hr; (split; [done|]); (split; [auto|]);
    intros id Hne Hid; rewrite ?lookup_insert_ne by congruence;
    rewrite foldl_delete_lookup; by case_decide.
Qed.

Lemma reconcile_frame id a now L :
  config (reconcile id a now L).2 = config L /\
  next_id (reconcile id a now L).2 = next_id L /\
  reservations (reconcile id a now L).2 !! id = None /\
  forall i, reservations L !! i = None -> reservations (reconcile id a now L).2 !! i = None.
Proof.
  assert (forall i j (m : gmap N string), m !! i = None -> delete j m !! i = None) as Hd.
  { intros i j m Hi. rewrite lookup_delete. by case_decide. }
  unfold reconcile. destruct (reservations L !! id) as [k|] eqn:Hr; [|by auto].
  cbn [keys config reservations]. destruct (keys L !! k) as [st|]; [|split_and!; simpl; rewrite ?lookup_delete_eq; auto].
  destruct (active st !! id) as [r|]; [|split_and!; simpl; rewrite ?lookup_delete_eq; auto].
  destruct (reap _ _ _) as [st' ids]. simpl. split; [done|]. split; [done|].
  split; [|intros i Hi]; rewrite foldl_delete_lookup; case_decide; try done;
    rewrite ?lookup_delete_eq; auto.
Qed.
End Frames.

Lemma step_frame L o L' :
  step L o L' ->
  config L' = config L /\
  (next_id L' = next_id L \/ next_id L' = wrapping_add (next_id L) 1) /\
  (forall id, id <> next_id L -> reservations L !! id = None -> reservations L' !! id = None).
Proof.
  intros [hn hs o' L0]. destruct o' as [k est now|id a now|now n]; simpl.
  - apply reserve_frame.
  - destruct (reconcile_frame id a now L0) as (H1 & H2 & _ & H3). auto.
  - destruct (cleanup_frame now n L0) as (H1 & H2 & H3). auto.
Qed.

Lemma step_wf L o L' :
  wf L -> 0 < next_id L -> next_id L < u64_max -> step L o L' -> wf L'.
Proof.
  intros Hwf H1 H2 Hs. destruct Hs as [hn hs o' L0]. destruct o'; cbn [exec].
  - by apply reserve_wf.
  - by apply reconcile_wf.
  - by apply cleanup_wf.
Qed.

(** A run of fewer than [2^64 - 1] operations cannot exhaust the identifiers. *)
Lemma steps_wf_gen L os L' :
  steps L os L' -> wf L -> 0 < next_id L -> next_id L + N.of_nat (length os) <= u64_max ->
  wf L' /\ config L' = config L /\ next_id L <= next_id L' /\
  next_id L' <= next_id L + N.of_nat (length os).
Proof.
  induction 1 as [L|L o L1 os L2 Hs Hss IH]; cbn [length];
    rewrite ?Nat2N.inj_succ; intros Hwf Hpos Hlen.
  { split; [done|]. split; [done|]. lia. }
  destruct (step_frame _ _ _ Hs) as (Hc & Hn & _).
  assert (wf L1) as Hwf1 by (eapply step_wf; eauto; lia).
  rewrite wrapping_add_exact in Hn by lia.
  destruct IH as (Hw & Hc' & Hlo & Hhi); [done|destruct Hn; lia|destruct Hn; lia|].
  rewrite Hc', Hc. destruct Hn; split_and!; try done; lia.
Qed.

(** * Properties *)

(** Widths the [usize] and [u64] fields of a configuration have by type. *)
Definition config_in_range (c : LedgerConfig) : Prop :=
  max_keys c <= u64_max /\ max_active_reservations c <= u64_max.

(** C1. In every ledger reached from a new one by any sequence of fewer than
    [2^64 - 1] operations, with any hash iteration orders, the key and
    reservation counters equal what the maps hold, stay within the configured
    bounds (so the wrapping [fetch_sub]s never underflow), the reservation
    index names exactly the active reservations, and every identifier in use
    lies below [next_id]. *)
Theorem reachable_ledger_wf c L0 os L :
  config_in_range c -> new c = Ok L0 -> steps L0 os L ->
  N.of_nat (length os) < u64_max ->
  wf L.
Proof.
  intros [Hk Ha] Hn Hs Hlen. pose proof (new_wf c L0 Hk Ha Hn) as Hwf.
  assert (next_id L0 = 1) as H1
    by (unfold new in Hn; destruct (validate c) as [[]|]; [|done]; by simplify_eq).
  eapply (steps_wf_gen _ _ _ Hs Hwf); rewrite H1; lia.
Qed.

Definition example_config : LedgerConfig :=
  mkLedgerConfig [mkBudget 1000 10; mkBudget 60000 15] 100 8 256 32.
Definition example_ledger : Ledger := mkLedger example_config ∅ ∅ 1 0 0.

#[local] Existing Instance list_order.

Definition example_run : list op :=
  [OpReserve "alice" 6 0; OpReserve "bob" 9 10; OpReconcile 1 (Some 4) 50; OpCleanup 5000 8].

Lemma steps_exec os L : steps L os (foldl (fun L o => exec o L) L os).
Proof. revert L. induction os as [|o os IH]; intros L; econstructor; [constructor|apply IH]. Qed.

Lemma reachable_ledger_wf_witness :
  wf (foldl (fun L o => exec o L) example_ledger example_run).
Proof.
  apply (reachable_ledger_wf example_config example_ledger example_run).
  - split; vm_compute; discriminate.
  - reflexivity.
  - apply steps_exec.
  - vm_compute. reflexivity.
Defined.

(** * Admission *)

(** Every budget still has room for [est] more tokens. *)
Definition fits (c : LedgerConfig) (st : KeyState) (est now : N) : Prop :=
  forall b, b ∈ budgets c -> exact_usage st now (window_ms b) + est <= capacity b.

(** Capacities a [u64] sum can distinguish from its saturation value. *)
Definition capacities_below_max (c : LedgerConfig) : Prop :=
  forall b, b ∈ budgets c -> capacity b < u64_max.

Section ScanFacts.
Context `{!HashOrder N} `{!HashOrder string}.

Lemma scan_exhausted c st est now :
  (scan_budgets c st est now).2 =
    existsb (fun b => capacity b <? saturating_add (usage_in_window st now (window_ms b)) est)
      (budgets c).
Proof.
  unfold scan_budgets. generalize 0, (limit c). intros mu rem.
  change (existsb _ _) with (false || existsb (fun b =>
    capacity b <? saturating_add (usage_in_window st now (window_ms b)) est) (budgets c)).
  generalize false as e. revert mu rem.
  induction (budgets c) as [|b bs IH]; intros mu rem e; cbn [foldl existsb].
  - simpl. by rewrite orb_false_r.
  - rewrite IH. by rewrite orb_assoc.
Qed.

Lemma scan_remaining c st est now :
  (scan_budgets c st est now).1.2 =
    foldl N.min (limit c)
      ((fun b => capacity b - usage_in_window st now (window_ms b)) <$> budgets c).
Proof.
  unfold scan_budgets. generalize 0, (limit c), false. intros mu rem e. revert mu rem e.
  induction (budgets c) as [|b bs IH]; intros mu rem e; cbn [foldl]; [done|].
  rewrite IH. csimpl. done.
Qed.

Lemma scan_exhausted_spec c st est now :
  capacities_below_max c ->
  (scan_budgets c st est now).2 = false <-> fits c st est now.
Proof.
  intros Hcap. rewrite scan_exhausted, <- not_true_iff_false, existsb_exists.
  unfold fits. setoid_rewrite usage_in_window_exact. split.
  - intros Hn b Hb. destruct (decide (exact_usage st now (window_ms b) + est <= capacity b)); [done|].
    exfalso. apply Hn. exists b. split; [by apply list_elem_of_In|].
    pose proof (Hcap b Hb). apply N.ltb_lt. unfold saturating_add. lia.
  - intros Hf (b & Hb & Hlt). apply list_elem_of_In in Hb. specialize (Hf b Hb).
    apply N.ltb_lt in Hlt. unfold saturating_add in Hlt. lia.
Qed.

Lemma limit_le c b : b ∈ budgets c -> limit c <= capacity b.
Proof. intros Hb. apply iter_min_le, list_elem_of_fmap. eauto. Qed.

Lemma scan_max_usage c st est now :
  (scan_budgets c st est now).1.1 =
    foldl N.max 0
      ((fun b => saturating_add (usage_in_window st now (window_ms b)) est) <$> budgets c).
Proof.
  unfold scan_budgets. generalize 0, (limit c), false. intros mu rem e. revert mu rem e.
  induction (budgets c) as [|b bs IH]; intros mu rem e; cbn [foldl]; [done|].
  rewrite IH. csimpl. done.
Qed.

(** The reported balance is the tightest budget's. *)
Lemma scan_remaining_spec c st est now b :
  b ∈ budgets c ->
  (scan_budgets c st est now).1.2 <= capacity b - usage_in_window st now (window_ms b).
Proof.
  intros Hb. rewrite scan_remaining. apply foldl_min_le. right.
  apply list_elem_of_fmap. eauto.
Qed.

Lemma scan_remaining_attained c st est now :
  budgets c <> [] ->
  exists b, b ∈ budgets c /\
    (scan_budgets c st est now).1.2 = capacity b - usage_in_window st now (window_ms b).
Proof.
  intros Hne. rewrite scan_remaining.
  destruct (foldl_min_elem ((fun b => capacity b - usage_in_window st now (window_ms b))
    <$> budgets c) (limit c)) as [E|E].
  - assert (exists m, iter_min (capacity <$> budgets c) = Some m) as [m Hm]
      by (destruct (budgets c); simpl; [done|eauto]).
    pose proof (iter_min_elem _ _ Hm) as (b & -> & Hb)%list_elem_of_fmap.
    exists b. split; [done|]. rewrite E.
    assert (limit c = capacity b) as Hl by (unfold limit; by rewrite Hm).
    pose proof (foldl_min_le ((fun b => capacity b - usage_in_window st now (window_ms b))
      <$> budgets c) (limit c) (capacity b - usage_in_window st now (window_ms b))) as Hle.
    rewrite E in Hle. rewrite Hl in *.
    enough (capacity b <= capacity b - usage_in_window st now (window_ms b)) by lia.
    apply Hle. right. apply list_elem_of_fmap. eauto.
  - apply list_elem_of_fmap in E as (b & E & Hb). eauto.
Qed.
End ScanFacts.

(** The state [reserve] decides on: the key's state with expired reservations
    charged. *)
Definition reaped `{!HashOrder N} (L : Ledger) (k : string) (now : N) : KeyState :=
  (reap now (config L) (default empty_key_state (keys L !! k))).1.

Definition valid_key (c : LedgerConfig) (k : string) : Prop :=
  k <> ""%string /\ N.of_nat (String.length k) <= max_key_length c.

(** The key is tracked already, or there is room for one more. *)
Definition has_slot (L : Ledger) (k : string) : Prop :=
  is_Some (keys L !! k) \/ key_count L < max_keys (config L).

(** Reservations of [k] that [reserve] expires at [now]. *)
Definition expiring `{!HashOrder N} (L : Ledger) (k : string) (now : N) : N :=
  N.of_nat (length (expired_ids (config L) now (default empty_key_state (keys L !! k)))).

(** [m] is the tightest budget's balance: what no budget goes below and some
    budget has left. *)
Definition is_balance (c : LedgerConfig) (st : KeyState) (now m : N) : Prop :=
  (forall b, b ∈ budgets c -> m <= capacity b - exact_usage st now (window_ms b)) /\
  exists b, b ∈ budgets c /\ m = capacity b - exact_usage st now (window_ms b).

(** [m] is the largest usage of a window once [est] is added. *)
Definition is_peak (c : LedgerConfig) (st : KeyState) (est now m : N) : Prop :=
  (forall b, b ∈ budgets c -> exact_usage st now (window_ms b) + est <= m) /\
  exists b, b ∈ budgets c /\ m = exact_usage st now (window_ms b) + est.

(** The instant a charge leaves a window, on the [u64] clock. *)
Definition expiry (e : Usage) (b : Budget) : N := N.min (at_ms e + window_ms b) u64_max.

(** [ra] is the least wait that is no shorter than the reservation timeout and
    outlasts every charge in every window. *)
Definition is_retry_hint (c : LedgerConfig) (st : KeyState) (now ra : N) : Prop :=
  reservation_timeout_ms c <= ra /\
  (forall e b, e ∈ settled st -> b ∈ budgets c -> expiry e b <= now + ra) /\
  (ra = reservation_timeout_ms c \/
   exists e b, e ∈ settled st /\ b ∈ budgets c /\ now < expiry e b /\ ra = expiry e b - now).

Section ReserveCases.
Context `{!HashOrder N} `{!HashOrder string}.
Implicit Types (L : Ledger).

Lemma valid_key_test c k est :
  valid_key c k -> est <> 0 ->
  bool_decide (k = ""%string) || (max_key_length c <? N.of_nat (String.length k)) || (est =? 0)
    = false.
Proof.
  intros [Hk Hl] He. rewrite bool_decide_eq_false_2 by done. simpl.
  apply orb_false_iff. split; [by apply N.ltb_ge|by apply N.eqb_neq].
Qed.

(** [reserve] on a valid request to a key with a slot, as one equation. *)
Lemma reserve_unfold L k est now :
  wf L -> valid_key (config L) k -> est <> 0 -> has_slot L k ->
  exists L1,
    wf L1 /\ config L1 = config L /\ next_id L1 = next_id L /\
    keys L1 !! k = Some (reaped L k now) /\
    (forall k', k' <> k -> keys L1 !! k' = keys L !! k') /\
    active_reservations L1 = active_reservations L - expiring L k now /\
    reserve k est now L =
      (let '(max_usage, rem, exhausted) := scan_budgets (config L) (reaped L k now) est now in
       if exhausted
       then (Denied (retry_after_ms (reaped L k now) now (config L)) WindowCapacity rem, L1)
       else if active_reservations L1 <? max_active_reservations (config L) then
         let id := next_id L in
         (AdmittedAs (mkReservation id est now max_usage (saturating_sub rem est)),
          mkLedger (config L)
            (<[k := mkKeyState (settled (reaped L k now))
                      (<[id := mkActive est now]> (active (reaped L k now)))]> (keys L1))
            (<[id:=k]> (reservations L1)) (wrapping_add id 1) (key_count L1)
            (active_reservations L1 + 1))
       else (Denied (reservation_timeout_ms (config L)) ReservationCapacity rem, L1)).
Proof.
  intros Hwf Hv He Hslot. unfold reserve. rewrite valid_key_test by done.
  assert (exists L0 st, get_or_create k L = Some (L0, st)) as (L0 & st & Hg).
  { unfold get_or_create. unfold has_slot in Hslot. destruct (keys L !! k); [eauto|].
    destruct Hslot as [[? ?]|Hlt]; [done|]. apply N.ltb_lt in Hlt. rewrite Hlt. eauto. }
  rewrite Hg. destruct (get_or_create_wf _ _ _ _ Hwf Hg) as (Hwf0 & Hk0 & Hc0 & Hn0 & ->).
  pose proof (wf_reap L0 k _ now Hwf0 Hk0) as Hr. rewrite Hc0 in Hr.
  assert (active_reservations L0 = active_reservations L) as Ha0.
  { unfold get_or_create in Hg. destruct (keys L !! k); [by simplify_eq|].
    destruct (_ <? _); by simplify_eq. }
  unfold reaped, expiring. set (st := default empty_key_state (keys L !! k)) in *.
  destruct (reap now (config L) st) as [st' ids] eqn:E.
  assert (ids = expired_ids (config L) now st) as <- by (unfold reap in E; congruence).
  destruct Hr as [Hwf1 Ha1]. exists (forget ids (set_key k st' L0)).
  split; [done|]. split; [done|]. split; [done|]. split; [simpl; apply lookup_insert_eq|].
  split.
  { intros k' Hne. simpl. rewrite lookup_insert_ne by done. unfold get_or_create in Hg.
    destruct (keys L !! k); [by simplify_eq|]. destruct (_ <? _); simplify_eq. simpl.
    by rewrite lookup_insert_ne. }
  split; [simpl in *; lia|].
  destruct (scan_budgets _ _ _ _) as [[mu rem] ex]. destruct ex; [done|].
  rewrite <- Hn0. done.
Qed.
End ReserveCases.

Section AdmissionTheorems.
Context `{!HashOrder N} `{!HashOrder string}.
Implicit Types (L : Ledger).

Lemma exact_usage_admit st id est now w :
  active st !! id = None ->
  exact_usage (mkKeyState (settled st) (<[id := mkActive est now]> (active st))) now w
    = exact_usage st now w + est.
Proof.
  intros Hid. unfold exact_usage. simpl. rewrite sum_map_insert_new by done. simpl. lia.
Qed.

Lemma wf_next_id_fresh L k st : wf L -> keys L !! k = Some st -> active st !! next_id L = None.
Proof.
  intros Hwf Hk. destruct (active st !! next_id L) as [r|] eqn:E; [|done].
  destruct (wf_ids L Hwf (next_id L) k) as [_ ?]; [|lia]. apply (wf_index L Hwf). eauto.
Qed.

(** The scan's three results against their specifications. *)
Lemma scan_remaining_is_balance c st est now :
  capacities_below_max c -> budgets c <> [] ->
  is_balance c st now (scan_budgets c st est now).1.2.
Proof.
  intros Hc Hne.
  assert (forall b, b ∈ budgets c ->
    capacity b - usage_in_window st now (window_ms b)
    = capacity b - exact_usage st now (window_ms b)) as E.
  { intros b Hb. rewrite usage_in_window_exact. specialize (Hc b Hb). lia. }
  split.
  - intros b Hb. rewrite <- E by done. by apply scan_remaining_spec.
  - destruct (scan_remaining_attained c st est now Hne) as (b & Hb & ->).
    exists b. split; [done|]. by apply E.
Qed.

Lemma scan_max_is_peak c st est now :
  capacities_below_max c -> budgets c <> [] -> fits c st est now ->
  is_peak c st est now (scan_budgets c st est now).1.1.
Proof.
  intros Hc Hne Hf. rewrite scan_max_usage.
  assert (forall b, b ∈ budgets c ->
    saturating_add (usage_in_window st now (window_ms b)) est
    = exact_usage st now (window_ms b) + est) as E.
  { intros b Hb. rewrite usage_in_window_exact. specialize (Hc b Hb). specialize (Hf b Hb).
    unfold saturating_add. lia. }
  set (us := (fun b => saturating_add (usage_in_window st now (window_ms b)) est) <$> budgets c).
  assert (forall b, b ∈ budgets c -> exact_usage st now (window_ms b) + est <= foldl N.max 0 us)
    as Hge.
  { intros b Hb. rewrite <- E by done. apply foldl_max_ge. right.
    apply list_elem_of_fmap. eauto. }
  split; [done|]. destruct (foldl_max_elem us 0) as [Hz|Hin].
  - destruct (budgets c) as [|b bs] eqn:Eb; [done|]. exists b. split; [left|].
    specialize (Hge b ltac:(left)). lia.
  - apply list_elem_of_fmap in Hin as (b & Hb & Hin). exists b. split; [done|].
    rewrite <- E by done. exact Hb.
Qed.

Lemma retry_after_is_hint c st now : is_retry_hint c st now (retry_after_ms st now c).
Proof.
  unfold retry_after_ms.
  set (delays := b ← budgets c; omap (fun e => if now <? saturating_add (at_ms e) (window_ms b)
    then Some (saturating_add (at_ms e) (window_ms b) - now) else None) (settled st)).
  cbv zeta. fold delays.
  assert (forall d, d ∈ delays <-> exists e b, e ∈ settled st /\ b ∈ budgets c /\
    now < expiry e b /\ d = expiry e b - now) as Hd.
  { intros d. subst delays. rewrite list_elem_of_bind. split.
    - intros (b & Hin & Hb). apply list_elem_of_omap in Hin as (e & He & Hx).
      destruct (N.ltb_spec now (saturating_add (at_ms e) (window_ms b))); simplify_eq.
      by exists e, b.
    - intros (e & b & He & Hb & Hlt & ->). exists b. split; [|done].
      apply list_elem_of_omap. exists e. split; [done|]. apply N.ltb_lt in Hlt.
      change (saturating_add (at_ms e) (window_ms b)) with (expiry e b). by rewrite Hlt. }
  split; [lia|]. split.
  - intros e b He Hb. destruct (decide (expiry e b <= now)); [lia|].
    assert (expiry e b - now ∈ delays) as Hin by (apply Hd; exists e, b; split_and!; auto; lia).
    pose proof (iter_max_ge delays _ Hin) as Hle.
    destruct (iter_max delays) as [m|] eqn:E; simpl in *; [lia|].
    apply iter_max_None in E. rewrite E in Hin. set_solver.
  - destruct (iter_max delays) as [m|] eqn:E; simpl; [|left; lia].
    destruct (N.max_spec m (reservation_timeout_ms c)) as [[_ ->]|[_ ->]]; [by left|right].
    apply Hd. by apply iter_max_elem.
Qed.

Lemma reserve_invalid L k est now :
  ~ (valid_key (config L) k /\ est <> 0) -> reserve k est now L = (Denied 0 InvalidKey 0, L).
Proof.
  intros Hv. unfold reserve.
  destruct (bool_decide (k = ""%string) || (max_key_length (config L) <? N.of_nat (String.length k))
            || (est =? 0)) eqn:E; [done|]. exfalso. apply Hv.
  apply orb_false_iff in E as [[E1 E2]%orb_false_iff E3].
  apply bool_decide_eq_false in E1. apply N.ltb_ge in E2. apply N.eqb_neq in E3. done.
Qed.

Lemma reserve_no_slot L k est now :
  valid_key (config L) k -> est <> 0 -> ~ has_slot L k ->
  reserve k est now L = (Denied 0 KeyCapacity 0, L).
Proof.
  intros Hv He Hs. unfold reserve. rewrite valid_key_test by done. unfold get_or_create.
  unfold has_slot in Hs. destruct (keys L !! k) as [st|]; [exfalso; eauto|].
  destruct (N.ltb_spec (key_count L) (max_keys (config L))); [exfalso; eauto|done].
Qed.

(** C2. The decision of [reserve] on every branch.  A bad key or a zero
    estimate is refused with [InvalidKey], a new key beyond [max_keys] with
    [KeyCapacity], both with no hint, no balance and no change.  Otherwise,
    once the expired reservations of the key are charged: when a budget lacks
    room the answer is [WindowCapacity] with the least wait that outlasts all
    charges; when all have room but the ledger-wide bound is reached it is
    [ReservationCapacity] with the reservation timeout; else the request is
    admitted under the next identifier, with the peak usage.  The balance
    reported is the tightest budget's, less the estimate on admission. *)
Theorem reserve_decision L k est now :
  wf L -> validate (config L) = Ok tt -> capacities_below_max (config L) ->
  let c := config L in
  let st := reaped L k now in
  let full := max_active_reservations c <= active_reservations L - expiring L k now in
  (~ (valid_key c k /\ est <> 0) -> reserve k est now L = (Denied 0 InvalidKey 0, L)) /\
  (valid_key c k -> est <> 0 -> ~ has_slot L k ->
     reserve k est now L = (Denied 0 KeyCapacity 0, L)) /\
  (valid_key c k -> est <> 0 -> has_slot L k ->
     exists bal, is_balance c st now bal /\
     (~ fits c st est now -> exists ra, is_retry_hint c st now ra /\
        (reserve k est now L).1 = Denied ra WindowCapacity bal) /\
     (fits c st est now -> full ->
        (reserve k est now L).1 = Denied (reservation_timeout_ms c) ReservationCapacity bal) /\
     (fits c st est now -> ~ full -> exists peak, is_peak c st est now peak /\
        (reserve k est now L).1 =
          AdmittedAs (mkReservation (next_id L) est now peak (bal - est)))).
Proof.
  intros Hwf Hval Hc c st full. subst c full. split; [apply reserve_invalid|].
  split; [apply reserve_no_slot|]. intros Hv He Hs.
  assert (budgets (config L) <> []) as Hne.
  { intros E. unfold validate in Hval. rewrite E in Hval. done. }
  destruct (reserve_unfold L k est now Hwf Hv He Hs) as (L1 & _ & _ & _ & _ & _ & Ha & Hr).
  pose proof (scan_exhausted_spec (config L) st est now Hc) as Hx.
  pose proof (scan_remaining_is_balance (config L) st est now Hc Hne) as Hb.
  pose proof (scan_max_is_peak (config L) st est now Hc Hne) as Hp.
  subst st. destruct (scan_budgets _ _ _ _) as [[mu rem] ex]. simpl in Hx, Hb, Hp.
  exists rem. split; [done|]. rewrite Hr, <- Ha. split; [|split].
  - intros Hnf. destruct ex; [|exfalso; apply Hnf, Hx; done].
    eexists. split; [apply retry_after_is_hint|done].
  - intros Hf Hfull. apply Hx in Hf as ->. by rewrite (proj2 (N.ltb_ge _ _) Hfull).
  - intros Hf Hfull. exists mu. split; [by apply Hp|]. apply Hx in Hf as ->.
    rewrite (proj2 (N.ltb_lt _ _)) by lia. done.
Qed.

(** C3. An admission never oversubscribes: in the ledger it produces, the
    key's exact usage (settled charges in the window plus all active
    estimates, the new one included) is within every budget; the reservation
    is recorded under a fresh identifier, and the reported balance is the
    tightest budget's remainder. *)
Theorem admitted_within_budgets L k est now r L' :
  wf L -> valid_key (config L) k -> est <> 0 -> has_slot L k ->
  capacities_below_max (config L) ->
  reserve k est now L = (AdmittedAs r, L') ->
  exists st,
    keys L' !! k = Some st /\
    active st !! res_id r = Some (mkActive est now) /\
    reservations L !! res_id r = None /\ reservations L' !! res_id r = Some k /\
    (forall b, b ∈ budgets (config L) ->
       exact_usage st now (window_ms b) <= capacity b /\
       remaining r <= capacity b - exact_usage st now (window_ms b)) /\
    (budgets (config L) <> [] ->
       exists b, b ∈ budgets (config L) /\
         remaining r = capacity b - exact_usage st now (window_ms b)).
Proof.
  intros Hwf Hv He Hs Hc.
  destruct (reserve_unfold L k est now Hwf Hv He Hs) as (L1 & Hwf1 & _ & Hn & Hk1 & _ & Ha & ->).
  pose proof (scan_exhausted_spec (config L) (reaped L k now) est now Hc) as Hx.
  pose proof (scan_remaining_spec (config L) (reaped L k now) est now) as Hle.
  pose proof (scan_remaining_attained (config L) (reaped L k now) est now) as Hatt.
  destruct (scan_budgets _ _ _ _) as [[mu rem] ex]. simpl in *. destruct ex; [done|].
  destruct (_ <? _); [|done]. intros [= <- <-].
  destruct Hx as [Hfit _]. specialize (Hfit eq_refl).
  pose proof (wf_next_id_fresh L1 k _ Hwf1 Hk1) as Hfresh. rewrite Hn in Hfresh.
  assert (forall b, b ∈ budgets (config L) ->
    usage_in_window (reaped L k now) now (window_ms b) =
    exact_usage (reaped L k now) now (window_ms b)) as Hexact.
  { intros b Hb. rewrite usage_in_window_exact. specialize (Hfit b Hb).
    specialize (Hc b Hb). lia. }
  exists (mkKeyState (settled (reaped L k now))
            (<[next_id L := mkActive est now]> (active (reaped L k now)))).
  cbn [keys reservations active res_id remaining].
  split; [apply lookup_insert_eq|]. split; [apply lookup_insert_eq|]. split.
  { destruct (reservations L !! next_id L) eqn:E; [|done].
    apply (wf_ids L Hwf) in E. lia. }
  split; [apply lookup_insert_eq|]. split.
  - intros b Hb. rewrite exact_usage_admit by done. specialize (Hfit b Hb).
    specialize (Hle b Hb). rewrite Hexact in Hle by done. unfold saturating_sub. lia.
  - intros Hne. destruct (Hatt Hne) as (b & Hb & ->). exists b. split; [done|].
    rewrite exact_usage_admit, Hexact by done. unfold saturating_sub. lia.
Qed.
End AdmissionTheorems.

Lemma example_ledger_wf : wf example_ledger.
Proof. by apply (new_wf example_config). Qed.

Lemma example_capacities : capacities_below_max (config example_ledger).
Proof. intros b Hb. repeat (apply elem_of_cons in Hb as [->|Hb]; [done|]). set_solver. Qed.

(** A second key is refused once [example_tight] tracks its only key, and a
    request beyond the one-second budget is told to wait. *)
Definition example_tight : Ledger :=
  (reserve "alice" 6 0
     (mkLedger (mkLedgerConfig [mkBudget 1000 10; mkBudget 60000 15] 100 1 256 32) ∅ ∅ 1 0 0)).2.

Lemma example_tight_wf : wf example_tight.
Proof.
  apply reserve_wf; [|done|done].
  by apply (new_wf (mkLedgerConfig [mkBudget 1000 10; mkBudget 60000 15] 100 1 256 32)).
Qed.

Lemma reserve_decision_witness :
  reserve "" 6 0 example_tight = (Denied 0 InvalidKey 0, example_tight) /\
  reserve "bob" 6 0 example_tight = (Denied 0 KeyCapacity 0, example_tight) /\
  (exists ra, (reserve "alice" 6 0 example_tight).1 = Denied ra WindowCapacity 4) /\
  (reserve "alice" 3 0 example_tight).1 = AdmittedAs (mkReservation 2 3 0 9 1).
Proof.
  assert (capacities_below_max (config example_tight)) as Hc by exact example_capacities.
  assert (valid_key (config example_tight) "alice") as Hv by (split; [done|vm_compute; discriminate]).
  assert (has_slot example_tight "alice") as Hs by (left; eexists; vm_compute; reflexivity).
  assert (forall bal, is_balance (config example_tight) (reaped example_tight "alice" 0) 0 bal ->
    bal = 4) as Hbal.
  { intros bal [Hle (b & Hb & E)]. specialize (Hle (mkBudget 1000 10) ltac:(left)).
    vm_compute in Hle.
    apply elem_of_cons in Hb as [->|Hb]; [vm_compute in E; exact E|].
    apply elem_of_cons in Hb as [->|Hb]; [|inversion Hb].
    vm_compute in E. subst. exfalso. by apply Hle. }
  split; [|split; [|split]].
  - apply (reserve_decision example_tight "" 6 0 example_tight_wf); [reflexivity|done|].
    intros [[H _] _]. done.
  - apply (reserve_decision example_tight "bob" 6 0 example_tight_wf); [reflexivity|done| |done|].
    + split; [done|vm_compute; discriminate].
    + intros [[? H]|H]; vm_compute in H; discriminate.
  - destruct (reserve_decision example_tight "alice" 6 0 example_tight_wf eq_refl Hc)
      as (_ & _ & H). destruct (H Hv ltac:(done) Hs) as (bal & Hb & Hd & _).
    apply Hbal in Hb as ->. destruct Hd as (ra & _ & E); [|by exists ra].
    intros Hf. specialize (Hf (mkBudget 1000 10) ltac:(left)). by apply Hf.
  - destruct (reserve_decision example_tight "alice" 3 0 example_tight_wf eq_refl Hc)
      as (_ & _ & H). destruct (H Hv ltac:(done) Hs) as (bal & Hb & _ & _ & Ha).
    apply Hbal in Hb as ->. destruct Ha as (p & [_ (b & Hin & Hp)] & ->).
    + intros b Hin. repeat (apply elem_of_cons in Hin as [->|Hin]; [vm_compute; discriminate|]).
      inversion Hin.
    + intros Hfull. by apply Hfull.
    + repeat (apply elem_of_cons in Hin as [->|Hin]; [vm_compute in Hp; by subst|]). inversion Hin.
Defined.

Lemma admitted_within_budgets_witness :
  exists r L' st, reserve "alice" 6 0 example_ledger = (AdmittedAs r, L') /\
    keys L' !! "alice" = Some st /\ exact_usage st 0 1000 <= 10.
Proof.
  destruct (reserve "alice" 6 0 example_ledger) as [[r|] L'] eqn:E.
  2:{ exfalso. vm_compute in E. discriminate. }
  destruct (admitted_within_budgets example_ledger "alice" 6 0 r L' example_ledger_wf)
    as (st & Hk & _ & _ & _ & Hb & _).
  - split; [done|vm_compute; discriminate].
  - done.
  - right. vm_compute. reflexivity.
  - exact example_capacities.
  - exact E.
  - exists r, L', st. split; [done|]. split; [done|].
    destruct (Hb (mkBudget 1000 10)) as [H _]; [set_solver|exact H].
Defined.

(** * Reconciliation *)

Section ReconcileTheorems.
Context `{!HashOrder N} `{!HashOrder string}.
Implicit Types (L : Ledger).

Lemma reap_nothing_expired now c st :
  (forall id r, active st !! id = Some r -> expired c now r = false) ->
  expired_ids c now st = [] /\ active (reap now c st).1 = active st.
Proof.
  intros Hne. assert (expired_ids c now st = []) as E.
  { destruct (expired_ids c now st) as [|i l] eqn:E; [done|].
    destruct (proj1 (elem_of_expired_ids c now st i)) as (r & Hr & Hx); [rewrite E; set_solver|].
    rewrite (Hne _ _ Hr) in Hx. done. }
  split; [done|]. rewrite reap_active, E. apply map_filter_id. set_solver.
Qed.

Lemma charged_in_singleton now w e :
  charged_in now w [e] = if now - at_ms e <? w then tokens e else 0.
Proof.
  unfold charged_in. rewrite filter_cons. unfold saturating_sub.
  destruct (N.ltb_spec (now - at_ms e) w); case_decide; try lia; csimpl; rewrite ?sumN_cons, sumN_nil; lia.
Qed.

(** C4. Reconciling a live reservation replaces its estimate by the actual
    usage and nothing else: the answer reports the actual, the refund and the
    overage, the reservation leaves both maps, the other keys are untouched,
    and the active counter drops by exactly the reservations the key lost.
    When no other reservation of the key expires at that instant the counter
    drops by one, the other reservations stay, and the key's usage in every
    budget changes by exactly [actual - estimate], or by [- estimate] once
    the admission time has left the window. *)
Theorem reconcile_exact L id a now k :
  wf L -> reservations L !! id = Some k ->
  exists st r,
    keys L !! k = Some st /\ active st !! id = Some r /\
    let actual := default (estimate r) a in
    let L' := (reconcile id a now L).2 in
    (reconcile id a now L).1 =
      Applied actual (estimate r - actual) (actual - estimate r) /\
    reservations L' !! id = None /\
    (forall k', k' <> k -> keys L' !! k' = keys L !! k') /\
    exists st', keys L' !! k = Some st' /\
      active st' !! id = None /\
      active_reservations L' + active_size st = active_reservations L + active_size st' /\
      ((forall i s, i <> id -> active st !! i = Some s -> expired (config L) now s = false) ->
       active st' = delete id (active st) /\
       active_reservations L' + 1 = active_reservations L /\
       forall b, b ∈ budgets (config L) ->
         exact_usage st' now (window_ms b) + estimate r =
         exact_usage st now (window_ms b) +
           (if now - created_at_ms r <? window_ms b then actual else 0)).
Proof.
  intros Hwf Hr. pose proof (proj1 (wf_index L Hwf id k) Hr) as (st & r & Hk & Ha).
  exists st, r. split; [done|]. split; [done|]. cbv zeta.
  destruct (reconcile_frame id a now L) as (_ & _ & Hnone & _).
  pose proof (wf_active _ (reconcile_wf L id a now Hwf)) as Hcnt.
  revert Hnone Hcnt. unfold reconcile. rewrite Hr. cbn [keys config reservations]. rewrite Hk, Ha.
  set (st1 := mkKeyState _ (delete id (active st))).
  assert (active (reap now (config L) st1).1 !! id = None) as Hgone.
  { rewrite reap_active_lookup. simpl. by rewrite lookup_delete_eq. }
  destruct (reap now (config L) st1) as [st' ids] eqn:E. intros Hnone Hcnt.
  split; [done|]. split; [done|].
  split; [intros k' Hne; simpl; by apply lookup_insert_ne|].
  exists st'. split; [simpl; apply lookup_insert_eq|].
  split; [done|].
  assert (forall n, n = sum_map active_size (<[k:=st']> (keys L)) ->
    n + active_size st = active_reservations L + active_size st') as Hmove.
  { intros n ->. rewrite (wf_active L Hwf).
    pose proof (sum_map_insert active_size _ k st st' Hk). lia. }
  apply Hmove in Hcnt. split; [exact Hcnt|]. intros Hothers.
  assert (st' = (reap now (config L) st1).1) as -> by by rewrite E.
  destruct (reap_nothing_expired now (config L) st1) as [E1 E2].
  { intros i s Hi. simpl in Hi. apply lookup_delete_Some in Hi as [Hne Hi]. eauto. }
  split; [exact E2|]. split.
  { unfold active_size in Hcnt. rewrite E2 in Hcnt.
    replace (size (active st)) with (S (size (active st1))) in Hcnt; [lia|].
    subst st1. simpl. rewrite map_size_delete_Some by eauto.
    assert (size (active st) <> 0%nat); [|lia]. rewrite map_size_ne_0_lookup. eauto. }
  intros b Hb.
  rewrite reap_usage by (by apply max_window_ge). unfold expired_charges. rewrite E1, E2.
  subst st1. simpl. rewrite charged_in_app, charged_in_singleton.
  unfold exact_usage. rewrite (sum_map_delete estimate _ _ _ Ha).
  change (charged_in now (window_ms b) []) with 0. simpl. lia.
Qed.

(** Settlement happens at most once: whatever the first reconciliation
    of an identifier answered, repeating it for the same identifier, with any
    usage and at any time, is a [Noop] that changes nothing. *)
Theorem reconcile_twice_noop L id a now a' now' :
  reconcile id a' now' (reconcile id a now L).2 = (Noop, (reconcile id a now L).2).
Proof.
  destruct (reconcile_frame id a now L) as (_ & _ & Hnone & _).
  unfold reconcile at 1. by rewrite Hnone.
Qed.
End ReconcileTheorems.

(** An identifier that is not recorded is never handed out again. *)
Lemma steps_retired L os L' id :
  steps L os L' -> wf L -> 0 < next_id L -> next_id L + N.of_nat (length os) <= u64_max ->
  id < next_id L -> reservations L !! id = None -> reservations L' !! id = None.
Proof.
  induction 1 as [L|L o L1 os L2 Hs Hss IH]; cbn [length]; rewrite ?Nat2N.inj_succ;
    intros Hwf Hpos Hlen Hlt Hn; [done|].
  destruct (step_frame _ _ _ Hs) as (_ & Hid & Hres).
  rewrite wrapping_add_exact in Hid by lia.
  apply IH; [eapply step_wf; eauto; lia|destruct Hid; lia..|apply Hres; [lia|done]].
Qed.

(** The at-most-once guarantee survives any later activity: once an
    identifier below [next_id] has left the reservation index (reconciled or
    expired), no sequence of operations makes it reconcilable again. *)
Theorem retired_id_stays_noop `{!HashOrder N} L os L' id a now :
  wf L -> 0 < next_id L -> next_id L + N.of_nat (length os) <= u64_max ->
  id < next_id L -> reservations L !! id = None -> steps L os L' ->
  reconcile id a now L' = (Noop, L').
Proof.
  intros Hwf Hpos Hlen Hlt Hn Hs. unfold reconcile.
  by rewrite (steps_retired L os L' id Hs Hwf Hpos Hlen Hlt Hn).
Qed.

Lemma reconcile_exact_witness :
  let L' := (reconcile 1 (Some 4) 50 (reserve "alice" 6 0 example_ledger).2).2 in
  exists st', keys L' !! "alice" = Some st' /\ exact_usage st' 50 1000 = 4 /\
    active_reservations L' + 1 = 1.
Proof.
  destruct (reconcile_exact (reserve "alice" 6 0 example_ledger).2 1 (Some 4) 50 "alice")
    as (st & r & Hk & Ha & _ & _ & _ & st' & Hst' & _ & _ & Hx).
  - apply reserve_wf; [exact example_ledger_wf|reflexivity|reflexivity].
  - reflexivity.
  - vm_compute in Hk. injection Hk as <-. vm_compute in Ha. injection Ha as <-.
    exists st'. split; [exact Hst'|].
    destruct (Hx ltac:(intros i s Hne Hi; exfalso; vm_compute in Hi;
      destruct i as [|[p|p|]]; [discriminate|destruct p; discriminate|destruct p; discriminate|
      apply Hne; reflexivity])) as (_ & Hone & Hb).
    specialize (Hb (mkBudget 1000 10) ltac:(left)).
    change (exact_usage st' 50 1000 + 6 = 10) in Hb. split; [lia|exact Hone].
Defined.

Lemma retired_id_stays_noop_witness :
  let L := (reconcile 1 None 50 (reserve "alice" 6 0 example_ledger).2).2 in
  let L' := exec (OpReserve "alice" 2 60) L in
  reconcile 1 (Some 9) 70 L' = (Noop, L').
Proof.
  intros L L'. apply (retired_id_stays_noop L [OpReserve "alice" 2 60] L').
  - apply reconcile_wf, reserve_wf; [exact example_ledger_wf|reflexivity|reflexivity].
  - reflexivity.
  - vm_compute. discriminate.
  - reflexivity.
  - reflexivity.
  - apply (steps_exec [OpReserve "alice" 2 60] L).
Defined.

(** * Retry hints and configuration *)

Section RetryTheorems.
Context `{!HashOrder N} `{!HashOrder string}.
Implicit Types (L : Ledger).

Lemma reap_keeps_charges now c st e :
  active st = ∅ -> e ∈ settled (reap now c st).1 -> e ∈ settled st.
Proof.
  intros Ha He. destruct (reap_settled now c st) as (d & E & _).
  assert (expired_charges now c st = []) as Hx.
  { unfold expired_charges. rewrite Ha. by induction (expired_ids c now st). }
  rewrite Hx, app_nil_r in E. rewrite E. set_solver.
Qed.

(** After the wait of a retry hint no settled charge is left in any window. *)
Lemma hint_fits c st est now ra :
  active st = ∅ -> is_retry_hint c st now ra ->
  (forall e b, e ∈ settled st -> b ∈ budgets c -> at_ms e + window_ms b <= u64_max) ->
  (forall b, b ∈ budgets c -> est <= capacity b) ->
  fits c st est (now + ra).
Proof.
  intros Ha (_ & Hcov & _) Hsat Hest b Hb. unfold exact_usage. rewrite Ha, sum_map_empty.
  rewrite charged_in_outside.
  - specialize (Hest b Hb). lia.
  - apply Forall_forall. intros e He.
    specialize (Hcov e b He Hb). specialize (Hsat e b He Hb). unfold expiry in Hcov. lia.
Qed.

(** C38. The retry hint of a window denial is sufficient when the key has no
    reservation in flight: if the estimate is within every capacity and the
    ledger-wide reservation bound is not reached, the same request repeated
    after the advertised delay on the ledger the denial left is admitted (the
    charge times lie below the end of the [u64] clock). *)
Theorem retry_after_suffices L k st est now ra rem L' :
  wf L -> capacities_below_max (config L) ->
  keys L !! k = Some st -> active st = ∅ ->
  active_reservations L < max_active_reservations (config L) ->
  (forall e b, e ∈ settled st -> b ∈ budgets (config L) -> at_ms e + window_ms b <= u64_max) ->
  (forall b, b ∈ budgets (config L) -> est <= capacity b) ->
  reserve k est now L = (Denied ra WindowCapacity rem, L') ->
  exists r, (reserve k est (now + ra) L').1 = AdmittedAs r.
Proof.
  intros Hwf Hc Hk Hact Hroom Hsat Hest Hden.
  assert (valid_key (config L) k /\ est <> 0) as [Hv He].
  { unfold valid_key. destruct (decide (est = 0)) as [->|Hne];
      [rewrite reserve_invalid in Hden by tauto; done|].
    destruct (decide (k = ""%string)) as [->|Hke];
      [rewrite reserve_invalid in Hden by (unfold valid_key; tauto); done|].
    destruct (decide (N.of_nat (String.length k) <= max_key_length (config L))); [done|].
    rewrite reserve_invalid in Hden by (unfold valid_key; tauto). done. }
  destruct (reserve_unfold L k est now Hwf Hv He) as (L1 & Hwf1 & Hc1 & _ & Hk1 & _ & Ha1 & Hr);
    [left; eauto|].
  assert (reaped L k now = (reap now (config L) st).1) as Hst by (unfold reaped; by rewrite Hk).
  assert (ra = retry_after_ms (reaped L k now) now (config L) /\ L' = L1) as [-> ->].
  { rewrite Hr in Hden. destruct (scan_budgets _ _ _ _) as [[mu rm] ex].
    destruct ex; [by simplify_eq|]. destruct (_ <? _); simplify_eq. }
  assert (active (reaped L k now) = ∅) as Hact'.
  { apply map_eq. intros i. by rewrite Hst, reap_active_lookup, Hact, lookup_empty. }
  set (t := now + _).
  assert (fits (config L) (reaped L1 k t) est t) as Hfit.
  { pose proof (hint_fits (config L) (reaped L k now) est now _ Hact'
      (retry_after_is_hint _ _ _)) as Hf.
    intros b Hb. unfold reaped at 1. rewrite Hk1, Hc1. change (default _ _) with (reaped L k now).
    pose proof (reap_usage_le t (config L) (reaped L k now) (window_ms b)
      (max_window_ge _ _ Hb)) as Hle.
    enough (exact_usage (reaped L k now) t (window_ms b) + est <= capacity b) by lia.
    apply Hf; [|done..]. intros e b' Hin Hb'. apply Hsat; [|done].
    rewrite Hst in Hin. by apply reap_keeps_charges in Hin. }
  rewrite <- Hc1 in Hv. destruct (reserve_unfold L1 k est t Hwf1 Hv He)
    as (L2 & _ & _ & _ & _ & _ & Ha2 & ->); [left; eauto|].
  rewrite Hc1. apply (scan_exhausted_spec _ _ _ _ Hc) in Hfit.
  destruct (scan_budgets (config L) (reaped L1 k t) est t) as [[mu rm] ex]. simpl in Hfit. subst ex.
  rewrite (proj2 (N.ltb_lt _ _)) by lia. eexists. reflexivity.
Qed.
End RetryTheorems.

(** "alice" settled 10 tokens at 100 ms; a request for 10 more at 200 ms is
    refused by the one-second budget with a hint. *)
Definition example_spent : Ledger :=
  mkLedger (mkLedgerConfig [mkBudget 1000 10] 100 8 256 32)
    {["alice" := mkKeyState [mkUsage 100 10] ∅]} ∅ 1 1 0.

Lemma example_spent_wf : wf example_spent.
Proof.
  split; try done.
  intros id k. unfold example_spent. cbn [reservations keys]. rewrite lookup_empty. split; [done|].
  intros (st & r & [_ <-]%lookup_singleton_Some & Hr). cbn [active] in Hr.
  by rewrite lookup_empty in Hr.
Qed.

Lemma retry_after_suffices_witness :
  exists L', reserve "alice" 10 200 example_spent = (Denied 900 WindowCapacity 0, L') /\
    exists r, (reserve "alice" 10 (200 + 900) L').1 = AdmittedAs r.
Proof.
  eexists. split; [reflexivity|].
  apply (retry_after_suffices example_spent "alice" (mkKeyState [mkUsage 100 10] ∅) 10 200 900 0).
  - exact example_spent_wf.
  - intros b Hb. apply elem_of_cons in Hb as [->|Hb]; [vm_compute; reflexivity|inversion Hb].
  - reflexivity.
  - reflexivity.
  - vm_compute. reflexivity.
  - intros e b He Hb. apply list_elem_of_singleton in He as ->.
    apply elem_of_cons in Hb as [->|Hb]; [vm_compute; discriminate|inversion Hb].
  - intros b Hb. apply elem_of_cons in Hb as [->|Hb]; [vm_compute; discriminate|inversion Hb].
  - reflexivity.
Defined.

(** With a reservation in flight the hint can be too short: here the caller is
    told to wait 100 ms, but the reservation then expires into a charge that
    stays in the 60 s window, and the same request is refused again. *)
Example retry_after_short_with_active :
  let c := mkLedgerConfig [mkBudget 60000 10] 100 8 256 32 in
  let L0 := mkLedger c ∅ ∅ 1 0 0 in
  let L1 := (reserve "a" 10 0 L0).2 in
  exists L2, reserve "a" 10 1 L1 = (Denied 100 WindowCapacity 0, L2) /\
    exists ra L3, reserve "a" 10 101 L2 = (Denied ra WindowCapacity 0, L3) /\ ra = 59899.
Proof. eexists. split; [reflexivity|]. eexists _, _. split; reflexivity. Qed.

(** [validate] compares adjacent budgets only: a repeated window that is not
    adjacent is accepted although the message says windows must be unique. *)
Example validate_accepts_separated_duplicates :
  validate (mkLedgerConfig [mkBudget 1000 5; mkBudget 2000 8; mkBudget 1000 9] 100 8 256 32) = Ok tt.
Proof. reflexivity. Qed.
