(* ===== verification/LedgerSpec.v ===== *)
(** Abstract specification of the sliding-window ledger and its refinement.

    The specification forgets nothing: for each key it keeps every charge ever
    made ([log]) and the reservations still pending, and it decides admissions
    from that complete history.  The implementation keeps a pruned deque per
    key and drops idle keys.  [exec_refines] shows that, with a clock that does
    not go back, every operation of the implementation is a step of the
    specification: pruning and key reclamation are unobservable. *)

From S2P Require Import Prelude Ledger LedgerInvariants.

Local Open Scope N_scope.

(** * Specification *)

Record KeySpec := mkKeySpec { pending : gmap N ActiveReservation; log : list Usage }.

Definition Spec : Type := string -> KeySpec.
Definition spec_init : Spec := fun _ => mkKeySpec ∅ [].

(** Charge every reservation whose timeout has passed at its estimate. *)
Definition expire (c : LedgerConfig) (now : N) (s : KeySpec) : KeySpec :=
  mkKeySpec (filter (fun p => expired c now p.2 = false) (pending s))
    (log s ++ (charge <$> filter (fun r => expired c now r = true) (map_to_list (pending s)).*2)).

Definition spec_usage (s : KeySpec) (now w : N) : N :=
  charged_in now w (log s) + sum_map estimate (pending s).

Definition spec_fits (c : LedgerConfig) (s : KeySpec) (est now : N) : Prop :=
  forall b, b ∈ budgets c -> spec_usage s now (window_ms b) + est <= capacity b.

Definition upd (S : Spec) (k : string) (s : KeySpec) : Spec :=
  fun k' => if decide (k' = k) then s else S k'.

(** What an operation answered. *)
Inductive event :=
| EvReserve (k : string) (est now : N) (d : Decision)
| EvReconcile (id : N) (actual : option N) (now : N) (s : Settlement)
| EvCleanup (now : N) (ks : list string).

Inductive spec_step (c : LedgerConfig) : Spec -> event -> Spec -> Prop :=
| spec_refuse S k est now ra reason rem :
    reason = InvalidKey \/ reason = KeyCapacity ->
    spec_step c S (EvReserve k est now (Denied ra reason rem)) S
| spec_admit S k est now r :
    let s := expire c now (S k) in
    spec_fits c s est now -> (forall k', pending (S k') !! res_id r = None) ->
    spec_step c S (EvReserve k est now (AdmittedAs r))
      (upd S k (mkKeySpec (<[res_id r := mkActive est now]> (pending s)) (log s)))
| spec_deny_window S k est now ra rem :
    ~ spec_fits c (expire c now (S k)) est now ->
    spec_step c S (EvReserve k est now (Denied ra WindowCapacity rem))
      (upd S k (expire c now (S k)))
| spec_deny_reservations S k est now ra rem :
    spec_fits c (expire c now (S k)) est now ->
    spec_step c S (EvReserve k est now (Denied ra ReservationCapacity rem))
      (upd S k (expire c now (S k)))
| spec_settle S k id r a now :
    pending (S k) !! id = Some r ->
    let actual := default (estimate r) a in
    spec_step c S
      (EvReconcile id a now (Applied actual (estimate r - actual) (actual - estimate r)))
      (upd S k (expire c now (mkKeySpec (delete id (pending (S k)))
                                (log (S k) ++ [mkUsage (created_at_ms r) actual]))))
| spec_noop S id a now :
    (forall k, pending (S k) !! id = None) ->
    spec_step c S (EvReconcile id a now Noop) S
| spec_cleanup S S' now ks :
    (forall k, S' k = if decide (k ∈ ks) then expire c now (S k) else S k) ->
    spec_step c S (EvCleanup now ks) S'.

(** * Simulation relation *)

(** The implementation's state of a key, idle keys included. *)
Definition key_of (L : Ledger) (k : string) : KeyState := default empty_key_state (keys L !! k).

(** The deque holds the history up to order, less entries that have left every
    window by time [t]. *)
Definition sim (c : LedgerConfig) (t : N) (st : KeyState) (s : KeySpec) : Prop :=
  active st = pending s /\
  exists dropped, log s ≡ₚ dropped ++ settled st /\
    Forall (fun e => max_window c <= t - at_ms e) dropped.

Definition refines (c : LedgerConfig) (t : N) (L : Ledger) (S : Spec) : Prop :=
  forall k, sim c t (key_of L k) (S k).

Section SimFacts.
Context `{!HashOrder N} `{!HashOrder string}.
Implicit Types (c : LedgerConfig) (st : KeyState) (s : KeySpec).

Lemma sim_mono c t t' st s : t <= t' -> sim c t st s -> sim c t' st s.
Proof.
  intros Ht (Ha & d & Hp & Hd). split; [done|]. exists d. split; [done|].
  eapply Forall_impl; [done|]. simpl. lia.
Qed.

(** Usage read from the pruned deque is the usage of the whole history. *)
Lemma sim_usage c t st s w :
  sim c t st s -> w <= max_window c -> exact_usage st t w = spec_usage s t w.
Proof.
  intros (Ha & d & Hp & Hd) Hw. unfold exact_usage, spec_usage. rewrite Hp, charged_in_app, Ha.
  rewrite (charged_in_outside t w d); [lia|]. eapply Forall_impl; [done|]. simpl. lia.
Qed.

Lemma sim_fits c t st s est : sim c t st s -> fits c st est t <-> spec_fits c s est t.
Proof.
  intros Hs. unfold fits, spec_fits. split; intros Hf b Hb; specialize (Hf b Hb);
    (rewrite (sim_usage c t st s) in * || rewrite <- (sim_usage c t st s));
    auto using max_window_ge.
Qed.

Lemma expired_charges_perm now c st :
  expired_charges now c st ≡ₚ
    charge <$> filter (fun r => expired c now r = true) (map_to_list (active st)).*2.
Proof.
  rewrite <- (hash_iter_perm (active st)). unfold expired_charges, expired_ids.
  assert (forall p, p ∈ hash_iter (active st) -> active st !! p.1 = Some p.2) as Hin.
  { intros [i r]. by rewrite elem_of_hash_iter. }
  induction (hash_iter (active st)) as [|[i r] l IH]; [done|].
  pose proof (Hin (i, r) ltac:(left)) as Hi. simpl in Hi. csimpl.
  rewrite filter_cons. destruct (expired c now r) eqn:E.
  - rewrite decide_True by done. csimpl. rewrite Hi. csimpl. f_equiv. apply IH. set_solver.
  - rewrite decide_False by done. apply IH. set_solver.
Qed.

Lemma sim_reap c t now st s :
  sim c t st s -> t <= now -> sim c now (reap now c st).1 (expire c now s).
Proof.
  intros Hs Ht. apply (sim_mono _ _ _ _ _ Ht) in Hs as (Ha & d & Hp & Hd). split.
  - cbn [pending expire]. rewrite <- Ha. apply map_eq. intros i. rewrite reap_active_lookup, map_lookup_filter.
    destruct (active st !! i) as [r|]; simpl; [|done].
    destruct (expired c now r); [by rewrite option_guard_False|by rewrite option_guard_True].
  - destruct (reap_settled now c st) as (d' & Heq & Hd'). exists (d ++ d'). split.
    + cbn [log expire]. rewrite Hp, <- Ha, <- (expired_charges_perm now c st), <- !app_assoc.
      by rewrite Heq.
    + by apply Forall_app.
Qed.

Lemma sim_empty c t : sim c t empty_key_state (mkKeySpec ∅ []).
Proof. split; [done|]. exists []. by split. Qed.

Lemma is_empty_spec st : is_empty st = true -> st = empty_key_state.
Proof.
  unfold is_empty. intros [H1 H2]%andb_prop. apply bool_decide_eq_true in H1, H2.
  destruct st; simpl in *; by subst.
Qed.
End SimFacts.

(** * Refinement *)

Definition op_time (o : op) : N :=
  match o with OpReserve _ _ now | OpReconcile _ _ now | OpCleanup now _ => now end.

(** The event an operation shows to its caller. *)
Definition observe `{!HashOrder N, !HashOrder string} (o : op) (L : Ledger) : event :=
  match o with
  | OpReserve k est now => EvReserve k est now (reserve k est now L).1
  | OpReconcile id a now => EvReconcile id a now (reconcile id a now L).1
  | OpCleanup now n => EvCleanup now (take n (hash_iter (keys L)).*1)
  end.

Lemma refines_upd c t now L L' S k st s :
  refines c t L S -> t <= now -> sim c now st s ->
  key_of L' k = st -> (forall k', k' <> k -> key_of L' k' = key_of L k') ->
  refines c now L' (upd S k s).
Proof.
  intros HR Ht Hs Hk Ho k'. unfold upd. case_decide as E.
  - subst. done.
  - rewrite Ho by done. eapply sim_mono; [done|]. apply HR.
Qed.

Section Refinement.
Context `{!HashOrder N} `{!HashOrder string}.
Implicit Types (L : Ledger) (S : Spec).

Lemma reserve_refines L S t k est now :
  wf L -> capacities_below_max (config L) -> refines (config L) t L S -> t <= now ->
  exists S', spec_step (config L) S (EvReserve k est now (reserve k est now L).1) S' /\
    refines (config L) now (reserve k est now L).2 S'.
Proof.
  intros Hwf Hc HR Ht.
  assert (refines (config L) now L S) as HRn by (intros k'; by eapply sim_mono).
  destruct (bool_decide (k = ""%string) || (max_key_length (config L) <? N.of_nat (String.length k))
    || (est =? 0)) eqn:Hv.
  { exists S. unfold reserve. rewrite Hv. split; [apply spec_refuse; auto|done]. }
  apply orb_false_iff in Hv as [[Hk Hl]%orb_false_iff He].
  apply bool_decide_eq_false in Hk. apply N.ltb_ge in Hl. apply N.eqb_neq in He.
  assert (valid_key (config L) k) as Hvk by done.
  destruct (decide (is_Some (keys L !! k) \/ key_count L < max_keys (config L))) as [Hs|Hs].
  2:{ exists S. unfold reserve. rewrite valid_key_test by done.
      assert (get_or_create k L = None) as ->; [|split; [apply spec_refuse; auto|done]].
      unfold get_or_create. destruct (keys L !! k); [naive_solver|].
      destruct (N.ltb_spec (key_count L) (max_keys (config L))); naive_solver. }
  destruct (reserve_unfold L k est now Hwf Hvk He Hs)
    as (L1 & Hwf1 & _ & Hn & Hk1 & Ho & _ & ->).
  assert (sim (config L) now (reaped L k now) (expire (config L) now (S k))) as Hsim
    by (eapply sim_reap; [apply HR|done]).
  pose proof (scan_exhausted_spec (config L) (reaped L k now) est now Hc) as Hx.
  rewrite (sim_fits _ _ _ _ _ Hsim) in Hx.
  assert (refines (config L) now L1 (upd S k (expire (config L) now (S k)))) as HR1.
  { eapply refines_upd; [done|done|done|by unfold key_of; rewrite Hk1|].
    intros k' Hk'. unfold key_of. by rewrite Ho. }
  destruct (scan_budgets _ _ _ _) as [[mu rem] ex]. simpl in Hx. destruct ex.
  { eexists. split; [apply spec_deny_window; naive_solver|done]. }
  destruct (_ <? _).
  2:{ eexists. split; [apply spec_deny_reservations; naive_solver|done]. }
  eexists. split.
  { apply spec_admit; [naive_solver|]. intros k'. simpl. rewrite <- (proj1 (HR k')).
    destruct (active (key_of L k') !! next_id L) as [r|] eqn:E; [|done].
    unfold key_of in E. destruct (keys L !! k') as [st|] eqn:Hk'; simpl in E; [|by rewrite lookup_empty in E].
    pose proof (wf_next_id_fresh L k' st Hwf Hk'). congruence. }
  eapply refines_upd; [exact HR|done| |unfold key_of; cbn [snd keys]; by rewrite lookup_insert_eq|].
  - destruct Hsim as (Ha & d & Hp & Hd). split; [cbn [active pending]; by rewrite Ha|].
    exists d. done.
  - intros k' Hk'. unfold key_of. simpl. rewrite lookup_insert_ne by done. by rewrite Ho.
Qed.

Lemma reconcile_refines L S t id a now :
  wf L -> refines (config L) t L S -> t <= now ->
  exists S', spec_step (config L) S (EvReconcile id a now (reconcile id a now L).1) S' /\
    refines (config L) now (reconcile id a now L).2 S'.
Proof.
  intros Hwf HR Ht. unfold reconcile. destruct (reservations L !! id) as [k|] eqn:Hr.
  2:{ exists S. split; [|intros k'; by eapply sim_mono]. apply spec_noop. intros k'.
      rewrite <- (proj1 (HR k')). destruct (active (key_of L k') !! id) as [r|] eqn:E; [|done].
      unfold key_of in E. destruct (keys L !! k') as [st|] eqn:Hk'; simpl in E; [|by rewrite lookup_empty in E].
      assert (reservations L !! id = Some k') by (apply (wf_index L Hwf); eauto). congruence. }
  pose proof (proj1 (wf_index L Hwf id k) Hr) as (st & r & Hk & Ha).
  cbn [keys config reservations]. rewrite Hk, Ha.
  pose proof (HR k) as Hsim. unfold key_of in Hsim. rewrite Hk in Hsim. simpl in Hsim.
  set (st1 := mkKeyState _ (delete id (active st))).
  set (s1 := mkKeySpec (delete id (pending (S k)))
               (log (S k) ++ [mkUsage (created_at_ms r) (default (estimate r) a)])).
  assert (sim (config L) t st1 s1) as Hs1.
  { destruct Hsim as (Hact & d & Hp & Hd). split; [simpl; by rewrite Hact|]. exists d.
    split; [|done]. simpl. by rewrite Hp, app_assoc. }
  pose proof (sim_reap _ _ now _ _ Hs1 Ht) as Hs2.
  destruct (reap now (config L) st1) as [st2 ids].
  eexists. split.
  { apply spec_settle with (k := k). rewrite <- (proj1 Hsim). done. }
  eapply refines_upd; [exact HR|done|exact Hs2|unfold key_of; simpl; by rewrite lookup_insert_eq|].
  intros k' Hk'. unfold key_of. simpl. by rewrite lookup_insert_ne.
Qed.

Lemma reap_empty now c : (reap now c empty_key_state).1 = empty_key_state.
Proof.
  unfold reap, expired_ids. simpl.
  assert (hash_iter (∅ : gmap N ActiveReservation) = []) as ->; [|done].
  apply Permutation_nil_r. by rewrite hash_iter_perm, map_to_list_empty.
Qed.

Lemma cleanup_key_of now z L k k' :
  key_of (cleanup_key now (z, L) k).2 k' =
    if decide (k' = k) then (reap now (config L) (key_of L k)).1 else key_of L k'.
Proof.
  unfold cleanup_key, key_of. destruct (keys L !! k) as [st|] eqn:Hk.
  2:{ cbn [snd default]. case_decide; [|done]. subst. by rewrite Hk, reap_empty. }
  cbn [default from_option id]. destruct (reap now (config L) st) as [st' ids]. simpl.
  destruct (is_empty st') eqn:E; simpl.
  - apply is_empty_spec in E. case_decide.
    + subst. by rewrite lookup_delete_eq.
    + by rewrite lookup_delete_ne, lookup_insert_ne.
  - case_decide; [subst; by rewrite lookup_insert_eq|by rewrite lookup_insert_ne].
Qed.

Lemma cleanup_key_config now z L k : config (cleanup_key now (z, L) k).2 = config L.
Proof.
  unfold cleanup_key. destruct (keys L !! k); [|done]. destruct (reap _ _ _).
  simpl. by destruct (is_empty _).
Qed.

Lemma cleanup_loop_key_of now ks z L k' :
  NoDup ks ->
  key_of (foldl (cleanup_key now) (z, L) ks).2 k' =
    if decide (k' ∈ ks) then (reap now (config L) (key_of L k')).1 else key_of L k'.
Proof.
  revert z L. induction ks as [|k ks IH]; intros z L Hnd; cbn [foldl].
  { by rewrite decide_False by set_solver. }
  apply NoDup_cons in Hnd as [Hk Hnd].
  pose proof (cleanup_key_of now z L k k') as Hko. pose proof (cleanup_key_config now z L k) as Hc.
  destruct (cleanup_key now (z, L) k) as [z1 L1]. simpl in Hko, Hc. rewrite IH, Hko, Hc by done.
  repeat case_decide; set_solver.
Qed.

Lemma cleanup_refines L S t now n :
  refines (config L) t L S -> t <= now ->
  exists S', spec_step (config L) S (EvCleanup now (take n (hash_iter (keys L)).*1)) S' /\
    refines (config L) now (cleanup now n L).2 S'.
Proof.
  intros HR Ht. set (ks := take n (hash_iter (keys L)).*1).
  exists (fun k => if decide (k ∈ ks) then expire (config L) now (S k) else S k).
  split; [by apply spec_cleanup|]. intros k. unfold cleanup. fold ks.
  rewrite cleanup_loop_key_of.
  2:{ apply NoDup_take, NoDup_hash_iter_fst. }
  case_decide; [eapply sim_reap; [apply HR|done]|eapply sim_mono; [done|apply HR]].
Qed.

(** Every operation is a step of the specification. *)
Lemma exec_refines L S t o :
  wf L -> capacities_below_max (config L) -> refines (config L) t L S -> t <= op_time o ->
  exists S', spec_step (config L) S (observe o L) S' /\
    refines (config L) (op_time o) (exec o L) S'.
Proof.
  intros Hwf Hc HR Ht. destruct o as [k est now|id a now|now n]; cbn [exec observe op_time] in *.
  - by eapply reserve_refines.
  - by eapply reconcile_refines.
  - by eapply cleanup_refines.
Qed.
End Refinement.

(** Runs of the specification, and timed runs of the implementation. *)
Inductive spec_run (c : LedgerConfig) : Spec -> list event -> Spec -> Prop :=
| spec_run_nil S : spec_run c S [] S
| spec_run_cons S e S' es S'' :
    spec_step c S e S' -> spec_run c S' es S'' -> spec_run c S (e :: es) S''.

(** [timed_run L t os L' t' es]: the operations [os], at times that do not go
    back from [t], lead from [L] to [L'] at time [t'], showing the events [es]. *)
Inductive timed_run : Ledger -> N -> list op -> Ledger -> N -> list event -> Prop :=
| timed_nil L t : timed_run L t [] L t []
| timed_cons (hn : HashOrder N) (hs : HashOrder string) L t o os L' t' es :
    t <= op_time o ->
    timed_run (exec o L) (op_time o) os L' t' es ->
    timed_run L t (o :: os) L' t' (observe o L :: es).

Lemma timed_run_refines L t os L' t' es S :
  timed_run L t os L' t' es -> wf L -> 0 < next_id L ->
  next_id L + N.of_nat (length os) <= u64_max ->
  capacities_below_max (config L) -> refines (config L) t L S ->
  exists S', spec_run (config L) S es S' /\ refines (config L) t' L' S'.
Proof.
  intros Hr. revert S. induction Hr as [L t|hn hs L t o os L' t' es Ht Hr IH]; cbn [length];
    rewrite ?Nat2N.inj_succ; intros S Hwf Hpos Hlen Hc HR.
  { exists S. split; [constructor|done]. }
  assert (step L o (exec o L)) as Hs by constructor.
  destruct (step_frame _ _ _ Hs) as (Hcfg & Hid & _).
  rewrite wrapping_add_exact in Hid by lia.
  assert (wf (exec o L)) as Hwf1 by (eapply step_wf; eauto; lia).
  destruct (exec_refines L S t o Hwf Hc HR Ht) as (S1 & Hs1 & HR1).
  rewrite Hcfg in IH.
  destruct (IH S1) as (S2 & Hs2 & HR2); [done|destruct Hid; lia..|done|done|].
  exists S2. split; [by econstructor|done].
Qed.

(** C5. Exact sliding window: every timed run of the ledger from its empty
    state, whatever the iteration orders, shows only events that the
    specification with complete history allows, and ends in a state whose
    pruned deques agree with that history.  In particular each admission
    decision is the one made from all charges ever recorded for the key. *)
Theorem ledger_refines_history c L0 os L t es :
  config_in_range c -> capacities_below_max c -> new c = Ok L0 ->
  timed_run L0 0 os L t es -> N.of_nat (length os) < u64_max ->
  exists S, spec_run c spec_init es S /\ refines c t L S /\
    forall k b, b ∈ budgets c ->
      exact_usage (key_of L k) t (window_ms b) = spec_usage (S k) t (window_ms b).
Proof.
  intros [Hk Ha] Hc Hn Hr Hlen. pose proof (new_wf c L0 Hk Ha Hn) as Hwf.
  assert (L0 = mkLedger c ∅ ∅ 1 0 0) as ->.
  { unfold new in Hn. destruct (validate c) as [[]|]; [|done]. by simplify_eq. }
  destruct (timed_run_refines _ _ _ _ _ _ spec_init Hr Hwf) as (S & Hs & HR); simpl; try lia; try done.
  { intros k. unfold key_of, spec_init. simpl. rewrite lookup_empty. apply sim_empty. }
  exists S. split; [done|]. split; [done|]. intros k b Hb.
  apply (sim_usage c t); [apply HR|by apply max_window_ge].
Qed.

#[local] Existing Instance list_order.

Lemma ledger_refines_history_witness :
  exists L es S,
    timed_run example_ledger 0 example_run L 5000 es /\ length es = 4%nat /\
    spec_run example_config spec_init es S /\
    exact_usage (key_of L "bob") 5000 60000 = spec_usage (S "bob") 5000 60000.
Proof.
  eassert (timed_run example_ledger 0 example_run _ 5000 _) as Hr.
  { unfold example_run. do 4 (eapply timed_cons; [vm_compute; discriminate|]). apply timed_nil. }
  edestruct (ledger_refines_history example_config example_ledger example_run)
    as (S & Hs & _ & Hu).
  - split; vm_compute; discriminate.
  - exact example_capacities.
  - reflexivity.
  - exact Hr.
  - vm_compute. reflexivity.
  - eexists _, _, S. split; [exact Hr|]. split; [reflexivity|]. split; [exact Hs|].
    apply (Hu "bob"%string (mkBudget 60000 15)). right. left.
Defined.
