(* ===== verification/Float64.v ===== *)
(** IEEE double precision as the code uses it ([f64]): the operations of the
    Standard Library's executable specification [SpecFloat] at 53 bits, the
    conversions and roundings of Rust's [f64] methods, and the facts that bound
    their results.

    Every finite double is a multiple of [2^-1074]; [units x] is that multiple,
    so that exact comparisons and sums are comparisons and sums of integers. *)

From S2P Require Import Prelude.
From Stdlib Require Import Floats.SpecFloat.

Local Open Scope Z_scope.

Abbreviation f64 := spec_float.
Definition f64_add : f64 -> f64 -> f64 := SFadd 53 1024.
Definition f64_sub : f64 -> f64 -> f64 := SFsub 53 1024.
Definition f64_mul : f64 -> f64 -> f64 := SFmul 53 1024.
Definition f64_div : f64 -> f64 -> f64 := SFdiv 53 1024.

(** An integer rounded to the nearest double; [n as f64] for a [u64]. *)
Definition f64_of_Z (z : Z) : f64 := binary_normalize 53 1024 z 0 false.
Definition f64_of_N (n : N) : f64 := f64_of_Z (Z.of_N n).

Definition is_nan (x : f64) : bool := match x with S754_nan => true | _ => false end.
Definition is_finite (x : f64) : bool :=
  match x with S754_zero _ | S754_finite _ _ _ => true | _ => false end.

(** [f64::min] and [f64::max]: a NaN loses. *)
Definition f64_min (x y : f64) : f64 :=
  if is_nan x then y else if is_nan y then x else if SFltb y x then y else x.
Definition f64_max (x y : f64) : f64 :=
  if is_nan x then y else if is_nan y then x else if SFltb x y then y else x.

(** [x > y]. *)
Definition f64_gtb (x y : f64) : bool := SFltb y x.

(** The largest integer not above, and the smallest not below, [m * 2^e]. *)
Definition floor_Z (m e : Z) : Z := if 0 <=? e then m * 2 ^ e else m / 2 ^ (- e).
Definition ceil_Z (m e : Z) : Z := - floor_Z (- m) e.

(** [f64::floor] and [f64::ceil]. *)
Definition f64_floor (x : f64) : f64 :=
  match x with
  | S754_finite s m e => f64_of_Z (floor_Z (cond_Zopp s (Zpos m)) e)
  | x => x
  end.
Definition f64_ceil (x : f64) : f64 :=
  match x with
  | S754_finite s m e => binary_normalize 53 1024 (ceil_Z (cond_Zopp s (Zpos m)) e) 0 s
  | x => x
  end.

(** [x as u64]: toward zero, saturating, NaN to zero. *)
Definition f64_to_u64 (x : f64) : N :=
  match x with
  | S754_nan | S754_zero _ => 0
  | S754_infinity s => if s then 0 else u64_max
  | S754_finite s m e => if s then 0 else N.min (Z.to_N (floor_Z (Zpos m) e)) u64_max
  end%N.

(** * Exact values *)

Definition valid (x : f64) : bool := valid_binary 53 1024 x.

(** The value of a finite double in units of [2^-1074]. *)
Definition units (x : f64) : Z :=
  match x with
  | S754_finite s m e => cond_Zopp s (Zpos m * 2 ^ (e + 1074))
  | _ => 0
  end.

(** ** Digits *)

Lemma digits2_pos_bounds p : 2 ^ (Zpos (digits2_pos p) - 1) <= Zpos p < 2 ^ Zpos (digits2_pos p).
Proof.
  induction p as [p IH|p IH|]; cbn [digits2_pos]; [..|split; reflexivity || done].
  all: rewrite ?Pos2Z.inj_succ; replace (Z.succ (Zpos (digits2_pos p)) - 1) with (Zpos (digits2_pos p)) by lia;
    rewrite Z.pow_succ_r by lia; replace (2 ^ Zpos (digits2_pos p)) with (2 * 2 ^ (Zpos (digits2_pos p) - 1)) in *
      by (rewrite <- Z.pow_succ_r by lia; f_equal; lia); lia.
Qed.

Lemma digits_le p d : 0 <= d -> Zpos p < 2 ^ d -> Zpos (digits2_pos p) <= d.
Proof.
  intros Hd H. destruct (digits2_pos_bounds p) as [Hl _]. apply Z.nlt_ge. intros Hlt.
  assert (2 ^ d <= 2 ^ (Zpos (digits2_pos p) - 1)) by (apply Z.pow_le_mono_r; lia). lia.
Qed.

Lemma digits_ge p d : 2 ^ d <= Zpos p -> d < Zpos (digits2_pos p).
Proof.
  intros H. destruct (digits2_pos_bounds p) as [_ Hu]. apply Z.nle_gt. intros Hle.
  assert (2 ^ Zpos (digits2_pos p) <= 2 ^ d) by (apply Z.pow_le_mono_r; lia). lia.
Qed.

Lemma pow_split a b : 0 <= a -> 0 <= b -> 2 ^ (a + b) = 2 ^ a * 2 ^ b.
Proof. intros. by apply Z.pow_add_r. Qed.

(** ** Canonical mantissas *)

Lemma fexp_spec e : fexp 53 1024 e = Z.max (e - 53) (-1074).
Proof. reflexivity. Qed.

Lemma bounded_spec m e :
  bounded 53 1024 m e = true <->
  Z.max (Zpos (digits2_pos m) + e - 53) (-1074) = e /\ e <= 971.
Proof.
  unfold bounded, canonical_mantissa. rewrite fexp_spec, andb_true_iff, Z.eqb_eq, Z.leb_le. done.
Qed.

Lemma bounded_range m e : bounded 53 1024 m e = true -> -1074 <= e <= 971 /\ Zpos m < 2 ^ 53.
Proof.
  rewrite bounded_spec. intros [H1 H2]. split; [lia|]. destruct (digits2_pos_bounds m) as [_ Hu].
  assert (2 ^ Zpos (digits2_pos m) <= 2 ^ 53) by (apply Z.pow_le_mono_r; lia). lia.
Qed.

Lemma bounded_normal m e : bounded 53 1024 m e = true -> -1074 < e -> 2 ^ 52 <= Zpos m.
Proof.
  rewrite bounded_spec. intros [H1 _] He. destruct (digits2_pos_bounds m) as [Hl _].
  assert (Zpos (digits2_pos m) = 53) as Hd by lia. rewrite Hd in Hl. exact Hl.
Qed.

(** A smaller exponent means a smaller value. *)
Lemma exponent_lt m1 e1 m2 e2 :
  bounded 53 1024 m1 e1 = true -> bounded 53 1024 m2 e2 = true -> e1 < e2 ->
  Zpos m1 * 2 ^ (e1 + 1074) < Zpos m2 * 2 ^ (e2 + 1074).
Proof.
  intros H1 H2 He. destruct (bounded_range _ _ H1) as [Hr1 Hm1]. pose proof (bounded_normal _ _ H2 ltac:(lia)) as Hm2.
  assert (2 ^ (e1 + 1074) * 2 <= 2 ^ (e2 + 1074)) as Hp.
  { rewrite Z.mul_comm, <- Z.pow_succ_r by lia. apply Z.pow_le_mono_r; lia. }
  assert (0 < 2 ^ (e1 + 1074)) by (apply Z.pow_pos_nonneg; lia). nia.
Qed.

(** ** Comparison *)

Lemma compare_units x y :
  valid x = true -> valid y = true -> is_finite x = true -> is_finite y = true ->
  SFcompare x y = Some (units x ?= units y).
Proof.
  intros Hx Hy Fx Fy. destruct x as [sx| | |sx mx ex]; try discriminate; destruct y as [sy| | |sy my ey]; try discriminate;
    cbn [SFcompare units valid valid_binary] in *.
  - reflexivity.
  - f_equal. assert (0 < Zpos my * 2 ^ (ey + 1074)).
    { destruct (bounded_range _ _ Hy). assert (0 < 2 ^ (ey + 1074)) by (apply Z.pow_pos_nonneg; lia). lia. }
    destruct sy; cbn [cond_Zopp]; symmetry; [rewrite Z.compare_gt_iff|rewrite Z.compare_lt_iff]; lia.
  - f_equal. assert (0 < Zpos mx * 2 ^ (ex + 1074)).
    { destruct (bounded_range _ _ Hx). assert (0 < 2 ^ (ex + 1074)) by (apply Z.pow_pos_nonneg; lia). lia. }
    destruct sx; cbn [cond_Zopp]; symmetry; [rewrite Z.compare_lt_iff|rewrite Z.compare_gt_iff]; lia.
  - assert ((ex ?= ey) = Lt -> Zpos mx * 2 ^ (ex + 1074) < Zpos my * 2 ^ (ey + 1074)) as Hlt
      by (rewrite Z.compare_lt_iff; by apply exponent_lt).
    assert ((ex ?= ey) = Gt -> Zpos my * 2 ^ (ey + 1074) < Zpos mx * 2 ^ (ex + 1074)) as Hgt
      by (rewrite Z.compare_gt_iff; by apply exponent_lt).
    assert ((ex ?= ey) = Eq -> (Zpos mx * 2 ^ (ex + 1074) ?= Zpos my * 2 ^ (ey + 1074)) = Pos.compare_cont Eq mx my) as Heq.
    { rewrite Z.compare_eq_iff. intros ->. destruct (bounded_range _ _ Hy).
      rewrite <- Zmult_compare_compat_r by (apply Z.lt_gt, Z.pow_pos_nonneg; lia). reflexivity. }
    destruct (bounded_range _ _ Hx), (bounded_range _ _ Hy).
    assert (0 < 2 ^ (ex + 1074)) by (apply Z.pow_pos_nonneg; lia).
    assert (0 < 2 ^ (ey + 1074)) by (apply Z.pow_pos_nonneg; lia).
    f_equal. destruct sx, sy; cbn [cond_Zopp]; symmetry.
    + rewrite Z.compare_opp. destruct (ex ?= ey) eqn:E.
      * by rewrite Z.compare_antisym, Heq.
      * rewrite Z.compare_gt_iff. by apply Hlt.
      * rewrite Z.compare_lt_iff. by apply Hgt.
    + rewrite Z.compare_lt_iff. lia.
    + rewrite Z.compare_gt_iff. lia.
    + destruct (ex ?= ey) eqn:E.
      * by apply Heq.
      * rewrite Z.compare_lt_iff. by apply Hlt.
      * rewrite Z.compare_gt_iff. by apply Hgt.
Qed.

(** ** Rounding *)

Lemma iter_pos_nat {A} (f : A -> A) p x : iter_pos f p x = Nat.iter (Pos.to_nat p) f x.
Proof.
  revert x. induction p as [p IH|p IH|]; intros x; cbn [iter_pos]; [..|done]; rewrite !IH, <- Nat.iter_add.
  - rewrite Pos2Nat.inj_xI. replace (S (2 * Pos.to_nat p)) with (Pos.to_nat p + Pos.to_nat p + 1)%nat by lia.
    by rewrite (Nat.iter_add (Pos.to_nat p + Pos.to_nat p) 1).
  - rewrite Pos2Nat.inj_xO. f_equal. lia.
Qed.

Lemma shr_1_spec mrs :
  0 <= shr_m mrs ->
  shr_m (shr_1 mrs) = shr_m mrs / 2 /\ shr_r (shr_1 mrs) = Z.odd (shr_m mrs) /\
  shr_s (shr_1 mrs) = shr_r mrs || shr_s mrs.
Proof.
  destruct mrs as [m r s]. cbn [shr_m shr_r shr_s]. intros Hm. destruct m as [|[p|p|]|p]; try done.
  - split; [|done]. cbn [shr_1 shr_m]. rewrite (Pos2Z.inj_xI p), Z.add_comm, Z.mul_comm, Z.div_add; done.
  - split; [|done]. cbn [shr_1 shr_m]. rewrite (Pos2Z.inj_xO p), Z.mul_comm, Z.div_mul; done.
Qed.

(** Shifting right by [k] divides by [2^k] and loses nothing of a multiple. *)
Lemma shr_iter k m :
  0 <= m ->
  shr_m (Nat.iter k shr_1 (Build_shr_record m false false)) = m / 2 ^ Z.of_nat k /\
  ((2 ^ Z.of_nat k | m) -> loc_of_shr_record (Nat.iter k shr_1 (Build_shr_record m false false)) = loc_Exact).
Proof.
  intros Hm. assert (forall mrs, loc_of_shr_record mrs = loc_Exact <-> shr_r mrs || shr_s mrs = false) as Hloc.
  { intros [? [] []]; done. }
  rewrite Hloc. induction k as [|k [IHm IHx]]; [cbn; rewrite Z.div_1_r; done|].
  cbn [Nat.iter nat_rect]. set (R := Nat.iter k shr_1 (Build_shr_record m false false)) in *.
  change (nat_rect _ _ _ k) with R.
  assert (0 <= shr_m R) as HR by (rewrite IHm; apply Z.div_pos; [done|apply Z.pow_pos_nonneg; lia]).
  destruct (shr_1_spec R HR) as (-> & -> & ->). rewrite Nat2Z.inj_succ, Z.pow_succ_r by lia. split.
  - rewrite IHm, Z.div_div by lia. f_equal. lia.
  - intros [q Hq]. assert ((2 ^ Z.of_nat k | m)) as Hk by (exists (2 * q); lia). rewrite (IHx Hk), orb_false_r.
    rewrite IHm, Hq. replace (q * (2 * 2 ^ Z.of_nat k)) with (2 * q * 2 ^ Z.of_nat k) by lia.
    rewrite Z.div_mul by lia. by rewrite Z.odd_mul.
Qed.

Lemma round_nearest_even_spec m l :
  (l = loc_Exact -> round_nearest_even m l = m) /\
  (round_nearest_even m l = m \/ round_nearest_even m l = m + 1).
Proof. destruct l as [|[]]; cbn; (split; [done|]); repeat case_match; auto. Qed.

(** The first step of rounding: an integer number of steps of size [2^(ez+n)],
    which is exact when the value is such a number. *)
Lemma shr_fexp_exact m ez n :
  fexp 53 1024 (Zpos (digits2_pos m) + ez) - ez = n -> 0 <= n ->
  exists mrs, shr_fexp 53 1024 (Zpos m) ez loc_Exact = (mrs, ez + n) /\
    shr_m mrs = Zpos m / 2 ^ n /\ ((2 ^ n | Zpos m) -> loc_of_shr_record mrs = loc_Exact).
Proof.
  intros Hn H0. unfold shr_fexp. cbn [Zdigits2 shr_record_of_loc]. rewrite Hn. unfold shr.
  destruct n as [|p|p]; [|..|lia].
  - eexists. split; [by rewrite Z.add_0_r|]. cbn. by rewrite Z.div_1_r.
  - eexists. split; [done|]. rewrite iter_pos_nat.
    replace (Zpos p) with (Z.of_nat (Pos.to_nat p)) by lia. apply shr_iter. lia.
Qed.

(** The second step only renormalizes. *)
Lemma renormalize R e :
  -1074 <= e -> 0 <= R <= 2 ^ 53 -> (-1074 < e -> 2 ^ 52 <= R) ->
  exists mrs E, shr_fexp 53 1024 R e loc_Exact = (mrs, E) /\
    shr_m mrs * 2 ^ (E + 1074) = R * 2 ^ (e + 1074) /\
    match shr_m mrs with
    | Z0 => R = 0
    | Zpos p => Z.max (Zpos (digits2_pos p) + E - 53) (-1074) = E
    | Zneg _ => False
    end.
Proof.
  intros He HR Hn. destruct (Z.eq_dec R (2 ^ 53)) as [->|Hne].
  - eexists _, (e + 1). split.
    { unfold shr_fexp. rewrite fexp_spec. change (Zdigits2 (2 ^ 53)) with 54.
      replace (Z.max (54 + e - 53) (-1074) - e) with 1 by lia. reflexivity. }
    cbn [shr_m iter_pos]. change (shr_m (shr_1 _)) with (2 ^ 52).
    replace (e + 1 + 1074) with (1 + (e + 1074)) by lia. rewrite (pow_split 1) by lia. split; [by rewrite Z.mul_assoc|].
    change (Z.max (53 + (e + 1) - 53) (-1074) = e + 1). lia.
  - exists (shr_record_of_loc R loc_Exact), e. destruct R as [|p|p]; [| |lia].
    + split; [|done]. unfold shr_fexp, shr. rewrite fexp_spec. cbn [Zdigits2].
      assert (Z.max (0 + e - 53) (-1074) - e <= 0) by lia. by destruct (Z.max (0 + e - 53) (-1074) - e) eqn:E; [..|].
    + assert (Zpos (digits2_pos p) <= 53) as Hd by (apply digits_le; lia).
      assert (Z.max (Zpos (digits2_pos p) + e - 53) (-1074) = e) as Hc.
      { destruct (Z.eq_dec e (-1074)); [lia|]. assert (52 < Zpos (digits2_pos p)); [|lia].
        apply digits_ge, Hn. lia. }
      split; [|done]. unfold shr_fexp, shr. rewrite fexp_spec. cbn [Zdigits2]. by rewrite Hc, Z.sub_diag.
Qed.

(** What rounding a positive value gives: a whole number [R] of steps, the
    value divided by the step or one more, and exactly that for a multiple. *)
Lemma binary_round_aux_spec s m ez :
  -1074 <= ez -> ez <= fexp 53 1024 (Zpos (digits2_pos m) + ez) ->
  exists R n, fexp 53 1024 (Zpos (digits2_pos m) + ez) = ez + n /\ 0 <= n /\
    Zpos m / 2 ^ n <= R /\ (R <= Zpos m / 2 ^ n + 1) /\ ((2 ^ n | Zpos m) -> R = Zpos m / 2 ^ n) /\
    ((R = 0 /\ binary_round_aux 53 1024 s (Zpos m) ez loc_Exact = S754_zero s) \/
     exists p E, R * 2 ^ (ez + n + 1074) = Zpos p * 2 ^ (E + 1074) /\ -1074 <= E /\
       Z.max (Zpos (digits2_pos p) + E - 53) (-1074) = E /\
       binary_round_aux 53 1024 s (Zpos m) ez loc_Exact =
         if E <=? 971 then S754_finite s p E else S754_infinity s).
Proof.
  intros He Hle. set (n := fexp 53 1024 (Zpos (digits2_pos m) + ez) - ez).
  destruct (shr_fexp_exact m ez n eq_refl ltac:(lia)) as (mrs & Hs & Hm & Hx).
  set (R := round_nearest_even (shr_m mrs) (loc_of_shr_record mrs)).
  destruct (round_nearest_even_spec (shr_m mrs) (loc_of_shr_record mrs)) as [HR0 HR1].
  assert (fexp 53 1024 (Zpos (digits2_pos m) + ez) = ez + n) as Hf by lia. rewrite fexp_spec in Hf.
  destruct (digits2_pos_bounds m) as [Hml Hmu].
  assert (0 < 2 ^ n) as Hpn by (apply Z.pow_pos_nonneg; lia).
  assert (0 <= Zpos m / 2 ^ n < 2 ^ 53) as Hq.
  { split; [apply Z.div_pos; lia|]. apply Z.div_lt_upper_bound; [done|]. rewrite <- pow_split by lia.
    eapply Z.lt_le_trans; [exact Hmu|]. apply Z.pow_le_mono_r; lia. }
  destruct (renormalize R (ez + n)) as (mrs2 & E & Hr & Hv & Hc).
  - lia.
  - subst R. destruct HR1 as [->| ->]; lia.
  - intros Hn. assert (2 ^ 52 <= Zpos m / 2 ^ n); [|subst R; destruct HR1 as [->| ->]; lia].
    apply Z.div_le_lower_bound; [done|]. rewrite <- pow_split by lia.
    etrans; [|exact Hml]. apply Z.pow_le_mono_r; lia.
  - exists R, n. split_and!; [rewrite fexp_spec; lia|lia|subst R; destruct HR1 as [->| ->]; lia..| |].
    + intros Hd. subst R. by rewrite HR0, Hm by auto.
    + unfold binary_round_aux. rewrite Hs. fold R. rewrite Hr. change (1024 - 53) with 971.
      destruct (shr_m mrs2) as [|p|p]; [by left|right|done]. exists p, E. split_and!; [lia|lia|done|done].
Qed.

Lemma iter_xO m d : Zpos (Pos.iter xO m d) = Zpos m * 2 ^ Zpos d.
Proof.
  revert m. induction d as [|d IH] using Pos.peano_ind; intros m; [cbn; lia|].
  rewrite Pos.iter_succ, Pos2Z.inj_xO, IH, Pos2Z.inj_succ, Z.pow_succ_r by lia. lia.
Qed.

Lemma shl_align_spec m e e' :
  snd (shl_align m e e') = Z.min e e' /\
  Zpos (fst (shl_align m e e')) = Zpos m * 2 ^ (e - Z.min e e').
Proof.
  unfold shl_align. destruct (e' - e) as [|d|d] eqn:E; cbn [fst snd].
  - rewrite Z.min_l, Z.sub_diag by lia. lia.
  - rewrite Z.min_l, Z.sub_diag by lia. lia.
  - rewrite Z.min_r by lia. split; [done|]. rewrite iter_xO. do 2 f_equal. lia.
Qed.

Lemma digits_shift m k p : 0 <= k -> Zpos p = Zpos m * 2 ^ k -> Zpos (digits2_pos p) = Zpos (digits2_pos m) + k.
Proof.
  intros Hk Hp. destruct (digits2_pos_bounds m) as [Hl Hu].
  assert (0 < 2 ^ k) by (apply Z.pow_pos_nonneg; lia). apply Z.le_antisymm.
  - apply digits_le; [lia|]. rewrite Hp, pow_split by lia. nia.
  - assert (Zpos (digits2_pos m) - 1 + k < Zpos (digits2_pos p)); [|lia]. apply digits_ge.
    rewrite Hp, pow_split by lia. nia.
Qed.

(** A double not above [m * 2^ez] is not above the value rounded to [R] steps. *)
Lemma round_lower m ez n R p E :
  -1074 <= ez -> fexp 53 1024 (Zpos (digits2_pos m) + ez) = ez + n -> 0 <= n -> Zpos m / 2 ^ n <= R ->
  bounded 53 1024 p E = true -> Zpos p * 2 ^ (E + 1074) <= Zpos m * 2 ^ (ez + 1074) ->
  Zpos p * 2 ^ (E + 1074) <= R * 2 ^ (ez + n + 1074).
Proof.
  intros Hez Ht Hn HR Hb Hle. destruct (bounded_range _ _ Hb) as [HE Hp]. rewrite fexp_spec in Ht.
  destruct (digits2_pos_bounds m) as [Hl _].
  assert (0 < 2 ^ (ez + 1074)) by (apply Z.pow_pos_nonneg; lia).
  assert (0 < 2 ^ (E + 1074)) by (apply Z.pow_pos_nonneg; lia).
  assert (0 < 2 ^ n) by (apply Z.pow_pos_nonneg; lia).
  destruct (Z.le_gt_cases (ez + n) E) as [HtE|HtE].
  - set (K := Zpos p * 2 ^ (E - (ez + n))).
    assert (Zpos p * 2 ^ (E + 1074) = K * 2 ^ n * 2 ^ (ez + 1074)) as HK.
    { unfold K. rewrite <- !Z.mul_assoc, <- !pow_split by lia. do 2 f_equal. lia. }
    rewrite HK in *. replace (ez + n + 1074) with (n + (ez + 1074)) by lia. rewrite (pow_split n), (Z.mul_assoc R) by lia.
    apply Z.mul_le_mono_nonneg_r; [lia|]. apply Z.mul_le_mono_nonneg_r; [lia|].
    etrans; [|exact HR]. apply Z.div_le_lower_bound; nia.
  - assert (2 ^ 52 <= R) as HR52.
    { etrans; [|exact HR]. apply Z.div_le_lower_bound; [done|]. rewrite <- pow_split by lia.
      etrans; [|exact Hl]. apply Z.pow_le_mono_r; lia. }
    assert (2 ^ 53 * 2 ^ (E + 1074) <= 2 ^ 52 * 2 ^ (ez + n + 1074)) as H53
      by (rewrite <- !pow_split by lia; apply Z.pow_le_mono_r; lia).
    assert (0 < 2 ^ (ez + n + 1074)) by (apply Z.pow_pos_nonneg; lia). nia.
Qed.

(** Rounding [m * 2^e]: the result has the sign given, and is infinite or a
    valid double of some value [v] such that no valid double lies strictly
    between the exact value and [v]. *)
Lemma binary_round_spec s m e :
  -1074 <= e ->
  binary_round 53 1024 s m e = S754_infinity s /\
    (forall p E, bounded 53 1024 p E = true -> Zpos p * 2 ^ (E + 1074) < Zpos m * 2 ^ (e + 1074)) \/
  exists v, 0 <= v /\ is_finite (binary_round 53 1024 s m e) = true /\ valid (binary_round 53 1024 s m e) = true /\
    units (binary_round 53 1024 s m e) = cond_Zopp s v /\
    (forall p E, bounded 53 1024 p E = true -> Zpos m * 2 ^ (e + 1074) <= Zpos p * 2 ^ (E + 1074) ->
       v <= Zpos p * 2 ^ (E + 1074)) /\
    (forall p E, bounded 53 1024 p E = true -> Zpos p * 2 ^ (E + 1074) <= Zpos m * 2 ^ (e + 1074) ->
       Zpos p * 2 ^ (E + 1074) <= v).
Proof.
  intros He. unfold binary_round.
  destruct (shl_align_spec m e (fexp 53 1024 (Zpos (digits2_pos m) + e))) as [Hez Hmz].
  destruct (shl_align m e _) as [mz ez]. cbn [fst snd] in *.
  set (t0 := fexp 53 1024 (Zpos (digits2_pos m) + e)) in *.
  assert (-1074 <= t0) by (unfold t0; rewrite fexp_spec; lia).
  assert (Zpos (digits2_pos mz) + ez = Zpos (digits2_pos m) + e) as Hd.
  { rewrite (digits_shift m (e - Z.min e t0) mz) by (done || lia). lia. }
  assert (Zpos mz * 2 ^ (ez + 1074) = Zpos m * 2 ^ (e + 1074)) as HV.
  { rewrite Hmz, <- Z.mul_assoc, <- pow_split by lia. do 2 f_equal. lia. }
  rewrite <- HV. clear HV Hmz.
  destruct (binary_round_aux_spec s mz ez) as (R & n & Ht & Hn & HRl & HRu & HRx & Hres); [lia|rewrite Hd; fold t0; lia|].
  assert (forall p E, bounded 53 1024 p E = true -> Zpos mz * 2 ^ (ez + 1074) <= Zpos p * 2 ^ (E + 1074) ->
    R * 2 ^ (ez + n + 1074) <= Zpos p * 2 ^ (E + 1074)) as Hup.
  { intros p E Hb Hle. destruct (bounded_range _ _ Hb) as [HE Hp]. destruct (digits2_pos_bounds mz) as [Hl _].
    assert (0 < 2 ^ (ez + 1074)) by (apply Z.pow_pos_nonneg; lia).
    assert (0 < 2 ^ (E + 1074)) by (apply Z.pow_pos_nonneg; lia).
    assert (ez + n <= E) as HtE.
    { rewrite <- Ht, fexp_spec. apply Z.max_lub; [|lia]. apply Z.nlt_ge. intros Hlt.
      assert (2 ^ 53 * 2 ^ (E + 1074) <= 2 ^ (Zpos (digits2_pos mz) - 1) * 2 ^ (ez + 1074)); [|nia].
      rewrite <- !pow_split by lia. apply Z.pow_le_mono_r; lia. }
    set (K := Zpos p * 2 ^ (E - (ez + n))).
    assert (Zpos p * 2 ^ (E + 1074) = K * 2 ^ n * 2 ^ (ez + 1074)) as HK.
    { unfold K. rewrite <- !Z.mul_assoc, <- !pow_split by lia. do 2 f_equal. lia. }
    rewrite HK in *. replace (ez + n + 1074) with (n + (ez + 1074)) by lia. rewrite pow_split, Z.mul_assoc by lia.
    assert (0 < 2 ^ n) by (apply Z.pow_pos_nonneg; lia).
    assert (Zpos mz <= K * 2 ^ n) by nia.
    apply Z.mul_le_mono_nonneg_r; [lia|]. apply Z.mul_le_mono_nonneg_r; [lia|].
    destruct (Z.eq_dec (Zpos mz mod 2 ^ n) 0) as [Hdv|Hdv]; rewrite Z.mod_divide in Hdv by lia.
    - rewrite (HRx Hdv). apply Z.div_le_upper_bound; lia.
    - assert (Zpos mz / 2 ^ n < K); [|lia]. apply Z.div_lt_upper_bound; [done|].
      assert (Zpos mz <> K * 2 ^ n) by (intros Heq; apply Hdv; by exists K). lia. }
  assert (forall p E, bounded 53 1024 p E = true -> Zpos p * 2 ^ (E + 1074) <= Zpos mz * 2 ^ (ez + 1074) ->
    Zpos p * 2 ^ (E + 1074) <= R * 2 ^ (ez + n + 1074)) as Hlow
    by (intros p E; apply round_lower; [lia|done|done|done]).
  destruct Hres as [[HR0 ->]|(p & E & Hv & HE & Hc & ->)].
  - right. exists 0. split_and!; try done; [by destruct s|..]; intros p E Hb Hle.
    + specialize (Hup p E Hb Hle). rewrite HR0 in Hup. lia.
    + specialize (Hlow p E Hb Hle). rewrite HR0 in Hlow. lia.
  - assert (0 < 2 ^ (E + 1074)) by (apply Z.pow_pos_nonneg; lia). destruct (Z.leb_spec E 971) as [Hle|Hgt].
    + right. exists (Zpos p * 2 ^ (E + 1074)). split_and!; [lia|done| |done|..].
      * cbn. apply bounded_spec. lia.
      * intros q F Hb Hq. rewrite <- Hv. by apply Hup.
      * intros q F Hb Hq. rewrite <- Hv. by apply Hlow.
    + left. split; [done|]. intros q F Hb. apply Z.nle_gt. intros Hq. specialize (Hup q F Hb Hq). rewrite Hv in Hup.
      destruct (bounded_range _ _ Hb) as [HF Hqb]. assert (Zpos (digits2_pos p) = 53) as Hd53 by lia.
      destruct (digits2_pos_bounds p) as [Hpl _]. rewrite Hd53 in Hpl. cbn [Z.sub Z.add Z.opp Z.pos_sub] in Hpl.
      assert (2 * 2 ^ (F + 1074) <= 2 ^ (E + 1074)).
      { rewrite <- Z.pow_succ_r by lia. apply Z.pow_le_mono_r; lia. }
      change (53 - 1) with 52 in Hpl. assert (0 < 2 ^ (F + 1074)) by (apply Z.pow_pos_nonneg; lia).
      change (2 ^ 53) with (2 * 2 ^ 52) in Hqb. assert (0 < 2 ^ 52) by done. nia.
Qed.

(** ** Signs and validity of results *)

(** Not NaN, and of sign [s]. *)
Definition has_sign (s : bool) (x : f64) : Prop :=
  match x with
  | S754_zero s' | S754_infinity s' | S754_finite s' _ _ => s' = s
  | S754_nan => False
  end.

(** Zero of either sign, or positive. *)
Definition nonneg (x : f64) : Prop :=
  match x with
  | S754_zero _ => True
  | S754_infinity s | S754_finite s _ _ => s = false
  | S754_nan => False
  end.

Lemma has_sign_nonneg x : has_sign false x -> nonneg x.
Proof. by destruct x. Qed.

Lemma shr_m_iter k mrs : 0 <= shr_m mrs -> shr_m (Nat.iter k shr_1 mrs) = shr_m mrs / 2 ^ Z.of_nat k.
Proof.
  intros Hm. induction k as [|k IH]; [cbn; by rewrite Z.div_1_r|]. cbn [Nat.iter nat_rect].
  change (nat_rect _ _ _ k) with (Nat.iter k shr_1 mrs).
  assert (0 <= shr_m (Nat.iter k shr_1 mrs)) as Hk
    by (rewrite IH; apply Z.div_pos; [done|apply Z.pow_pos_nonneg; lia]).
  destruct (shr_1_spec _ Hk) as (-> & _). rewrite IH, Nat2Z.inj_succ, Z.pow_succ_r by lia.
  rewrite Z.div_div by lia. f_equal. lia.
Qed.

Lemma Zdigits2_bounds m : 0 <= m -> m < 2 ^ Zdigits2 m /\ (0 < m -> 2 ^ (Zdigits2 m - 1) <= m).
Proof. destruct m as [|p|p]; [done| |lia]. intros _. destruct (digits2_pos_bounds p). by split. Qed.

Lemma binary_round_aux_valid s m ez l :
  0 <= m -> ez <= fexp 53 1024 (Zdigits2 m + ez) ->
  valid (binary_round_aux 53 1024 s m ez l) = true /\ has_sign s (binary_round_aux 53 1024 s m ez l).
Proof.
  intros Hm Hle. set (n := fexp 53 1024 (Zdigits2 m + ez) - ez).
  assert (exists mrs, shr_fexp 53 1024 m ez l = (mrs, ez + n) /\ shr_m mrs = m / 2 ^ n) as (mrs & Hs & Hq).
  { unfold shr_fexp. fold n. unfold shr. assert (shr_m (shr_record_of_loc m l) = m) as Hl by (by destruct l as [|[]]).
    assert (0 <= n) as Hn by lia. destruct n as [|p|p]; [|..|lia].
    - eexists. split; [by rewrite Z.add_0_r|]. by rewrite Z.div_1_r.
    - eexists. split; [done|]. rewrite iter_pos_nat, shr_m_iter by lia. rewrite Hl, positive_nat_Z. done. }
  destruct (round_nearest_even_spec (shr_m mrs) (loc_of_shr_record mrs)) as [_ HR].
  set (R := round_nearest_even (shr_m mrs) (loc_of_shr_record mrs)) in *.
  assert (fexp 53 1024 (Zdigits2 m + ez) = ez + n) as Hf by lia. rewrite fexp_spec in Hf.
  destruct (Zdigits2_bounds m Hm) as [Hmu Hml].
  assert (0 < 2 ^ n) as Hpn by (apply Z.pow_pos_nonneg; lia).
  assert (0 <= Zdigits2 m) by (by destruct m).
  assert (0 <= m / 2 ^ n < 2 ^ 53) as Hqb.
  { split; [apply Z.div_pos; lia|]. apply Z.div_lt_upper_bound; [done|]. rewrite <- pow_split by lia.
    eapply Z.lt_le_trans; [exact Hmu|]. apply Z.pow_le_mono_r; lia. }
  destruct (renormalize R (ez + n)) as (mrs2 & E & Hr & _ & Hc).
  - lia.
  - destruct HR as [->| ->]; lia.
  - intros Hn. assert (2 ^ 52 <= m / 2 ^ n); [|destruct HR as [->| ->]; lia].
    assert (0 < m) by (destruct m; [cbn in *; lia|lia|lia]).
    apply Z.div_le_lower_bound; [done|]. rewrite <- pow_split by lia.
    etrans; [|by apply Hml]. apply Z.pow_le_mono_r; lia.
  - unfold binary_round_aux. rewrite Hs. fold R. rewrite Hr. change (1024 - 53) with 971.
    destruct (shr_m mrs2) as [|p|p]; [done| |done]. destruct (Z.leb_spec E 971); [|done].
    split; [|done]. cbn. apply bounded_spec. lia.
Qed.

Lemma binary_round_valid s m e :
  valid (binary_round 53 1024 s m e) = true /\ has_sign s (binary_round 53 1024 s m e).
Proof.
  unfold binary_round. destruct (shl_align_spec m e (fexp 53 1024 (Zpos (digits2_pos m) + e))) as [Hez Hmz].
  destruct (shl_align m e _) as [mz ez]. cbn [fst snd] in *.
  apply binary_round_aux_valid; [lia|]. cbn [Zdigits2].
  rewrite (digits_shift m (e - ez) mz) by (rewrite ?Hez; done || lia).
  replace (Zpos (digits2_pos m) + (e - ez) + ez) with (Zpos (digits2_pos m) + e) by lia. lia.
Qed.

Lemma normalize_valid m e s :
  valid (binary_normalize 53 1024 m e s) = true /\ (0 <= m -> nonneg (binary_normalize 53 1024 m e s)) /\
  is_nan (binary_normalize 53 1024 m e s) = false.
Proof.
  destruct m as [|p|p]; [done|..]; cbn [binary_normalize];
    destruct (binary_round_valid false p e) as [H1 H2]; destruct (binary_round_valid true p e) as [H3 H4].
  - split_and!; [done|by intros _; apply has_sign_nonneg|by destruct (binary_round _ _ false p e)].
  - split_and!; [done|lia|by destruct (binary_round _ _ true p e)].
Qed.

Lemma div_valid x m e :
  valid x = true -> nonneg x -> bounded 53 1024 m e = true ->
  valid (f64_div x (S754_finite false m e)) = true /\ nonneg (f64_div x (S754_finite false m e)).
Proof.
  intros Hx Hn Hy. unfold f64_div. destruct x as [s|s| |s mx ex]; cbn [SFdiv]; [done|by cbn in *; subst|done|].
  cbn in Hn. subst s. unfold SFdiv_core_binary.
  set (d1 := Zdigits2 (Zpos mx)). set (d2 := Zdigits2 (Zpos m)).
  set (e' := Z.min (fexp 53 1024 (d1 + ex - (d2 + e))) (ex - e)). set (k := ex - e - e').
  assert (0 <= k) as Hk by lia.
  assert ((match k with Zpos _ => Z.shiftl (Zpos mx) k | Z0 => Zpos mx | Zneg _ => 0 end) = Zpos mx * 2 ^ k) as ->.
  { destruct k; [lia|by rewrite Z.shiftl_mul_pow2|lia]. }
  pose proof (Z_div_mod (Zpos mx * 2 ^ k) (Zpos m) ltac:(lia)) as Hdm.
  destruct (Z.div_eucl (Zpos mx * 2 ^ k) (Zpos m)) as [q r]. destruct Hdm as [Heq Hr].
  assert (0 < 2 ^ k) by (apply Z.pow_pos_nonneg; lia). assert (0 <= q) as Hq by nia.
  destruct (binary_round_aux_valid (xorb false false) q e' (new_location (Zpos m) r) Hq) as [H1 H2].
  - destruct (digits2_pos_bounds mx) as [Hl _]. destruct (digits2_pos_bounds m) as [_ Hu].
    assert (d1 + k - d2 <= Zdigits2 q) as Hd.
    { assert (0 <= Zdigits2 q) by (by destruct q). apply Z.nlt_ge. intros Hlt.
      destruct (Zdigits2_bounds q Hq) as [Hqu _].
      assert (q + 1 <= 2 ^ (d1 + k - d2 - 1)) as Hq1.
      { assert (2 ^ Zdigits2 q <= 2 ^ (d1 + k - d2 - 1)) by (apply Z.pow_le_mono_r; lia). lia. }
      assert (2 ^ (d1 + k - d2 - 1) * 2 ^ d2 = 2 ^ (d1 - 1) * 2 ^ k) as Hp
        by (rewrite <- !pow_split by (unfold d1, d2 in *; cbn [Zdigits2] in *; lia); f_equal; lia).
      unfold d1, d2 in *. cbn [Zdigits2] in *. nia. }
    rewrite fexp_spec. etrans; [apply Z.le_min_l|]. rewrite fexp_spec. lia.
  - by split; [|apply has_sign_nonneg].
Qed.

Lemma mul_valid x m e :
  valid x = true -> nonneg x -> bounded 53 1024 m e = true ->
  valid (f64_mul x (S754_finite false m e)) = true /\ nonneg (f64_mul x (S754_finite false m e)).
Proof.
  intros Hx Hn Hy. unfold f64_mul. destruct x as [s|s| |s mx ex]; cbn [SFmul]; [done|by cbn in *; subst|done|].
  cbn in Hn, Hx. subst s.
  destruct (binary_round_aux_valid (xorb false false) (Zpos (mx * m)) (ex + e) loc_Exact) as [H1 H2]; [lia| |].
  - cbn [Zdigits2]. rewrite fexp_spec. apply bounded_spec in Hx as [Hx _], Hy as [Hy _].
    assert (Zpos (digits2_pos mx) + Zpos (digits2_pos m) - 1 <= Zpos (digits2_pos (mx * m))) as Hd; [|lia].
    destruct (digits2_pos_bounds mx) as [Hl1 _], (digits2_pos_bounds m) as [Hl2 _].
    assert (Zpos (digits2_pos mx) - 1 + (Zpos (digits2_pos m) - 1) < Zpos (digits2_pos (mx * m))); [|lia].
    apply digits_ge. rewrite pow_split, Pos2Z.inj_mul by lia. apply Z.mul_le_mono_nonneg; try done; apply Z.pow_nonneg; lia.
  - by split; [|apply has_sign_nonneg].
Qed.

(** ** The operations of the code *)

(** A valid finite double of value [u], as a number of units. *)
Definition is_value (x : f64) (u : Z) : Prop :=
  valid x = true /\ is_finite x = true /\ nonneg x /\ units x = u.

Lemma units_nonneg x : valid x = true -> nonneg x -> 0 <= units x.
Proof.
  destruct x as [| | |s m e]; try done. cbn. intros Hb ->. cbn. destruct (bounded_range _ _ Hb).
  assert (0 < 2 ^ (e + 1074)) by (apply Z.pow_pos_nonneg; lia). lia.
Qed.

Lemma add_valid x y :
  valid x = true -> valid y = true -> nonneg x -> nonneg y -> valid (f64_add x y) = true /\ nonneg (f64_add x y).
Proof.
  intros Hx Hy Nx Ny. unfold f64_add.
  destruct x as [sx|sx| |sx mx ex], y as [sy|sy| |sy my ey]; cbn in Nx, Ny; subst; cbn [SFadd]; try done.
  - by destruct sx, sy.
  - cbn [cond_Zopp]. destruct (normalize_valid (Zpos (fst (shl_align mx ex (Z.min ex ey))) +
      Zpos (fst (shl_align my ey (Z.min ex ey)))) (Z.min ex ey) false) as (H1 & H2 & _).
    split; [done|]. apply H2. lia.
Qed.

(** The exact difference that [SFsub] rounds. *)
Lemma sub_finite sx mx ex my ey :
  bounded 53 1024 mx ex = true -> bounded 53 1024 my ey = true -> sx = false ->
  exists D, f64_sub (S754_finite sx mx ex) (S754_finite false my ey) = binary_normalize 53 1024 D (Z.min ex ey) false /\
    D * 2 ^ (Z.min ex ey + 1074) = units (S754_finite sx mx ex) - units (S754_finite false my ey).
Proof.
  intros Hx Hy ->. destruct (bounded_range _ _ Hx), (bounded_range _ _ Hy).
  eexists. split; [reflexivity|]. cbn [cond_Zopp units].
  destruct (shl_align_spec mx ex (Z.min ex ey)) as [_ ->], (shl_align_spec my ey (Z.min ex ey)) as [_ ->].
  rewrite (Z.min_r ex (Z.min ex ey)), (Z.min_r ey (Z.min ex ey)) by lia.
  rewrite Z.mul_sub_distr_r, <- !Z.mul_assoc, <- !pow_split by lia.
  f_equal; do 2 f_equal; lia.
Qed.

Lemma value_nonneg x u : is_value x u -> 0 <= u.
Proof. intros (Vx & _ & Nx & <-). by apply units_nonneg. Qed.

(** Equal positive values are equal doubles. *)
Lemma value_inj x y u : is_value x u -> is_value y u -> 0 < u -> x = y.
Proof.
  intros (Vx & Fx & Nx & Ux) (Vy & Fy & Ny & Uy) Hu.
  destruct x as [sx| | |sx mx ex]; try discriminate; [cbn in Ux; lia|].
  destruct y as [sy| | |sy my ey]; try discriminate; [cbn in Uy; lia|].
  cbn in Nx, Ny, Ux, Uy, Vx, Vy. subst sx sy. cbn in Ux, Uy. rewrite <- Uy in Ux.
  destruct (Z.lt_trichotomy ex ey) as [H|[<-|H]].
  - pose proof (exponent_lt mx ex my ey Vx Vy H). lia.
  - destruct (bounded_range _ _ Vx). assert (0 < 2 ^ (ex + 1074)) by (apply Z.pow_pos_nonneg; lia).
    assert (Zpos mx = Zpos my) as [= ->] by nia. done.
  - pose proof (exponent_lt my ey mx ex Vy Vx H). lia.
Qed.

(** A difference is rounded to a value that no double separates from it. *)
Lemma sub_value x y u v :
  is_value x u -> is_value y v -> v <= u ->
  exists w, is_value (f64_sub x y) w /\ 0 <= w /\
    forall z b, is_value z b -> (u - v <= b -> w <= b) /\ (b <= u - v -> b <= w).
Proof.
  intros (Vx & Fx & Nx & Ux) (Vy & Fy & Ny & Uy) Hle.
  pose proof (units_nonneg y Vy Ny) as Hy0. pose proof (units_nonneg x Vx Nx) as Hx0.
  destruct x as [sx| | |sx mx ex]; try discriminate; destruct y as [sy| | |sy my ey]; try discriminate; cbn in Nx, Ny.
  - exists 0. cbn in Ux. subst u. split; [by destruct sx, sy|]. split; [done|]. cbn in Uy.
    intros z b Hz%value_nonneg. lia.
  - subst sy. exfalso. cbn in Ux, Uy, Vy. destruct (bounded_range _ _ Vy).
    assert (0 < 2 ^ (ey + 1074)) by (apply Z.pow_pos_nonneg; lia). lia.
  - subst sx. exists u. cbn in Uy. split; [by rewrite <- Ux|]. split; [lia|]. intros; lia.
  - subst sx sy. destruct (sub_finite false mx ex my ey Vx Vy eq_refl) as (D & -> & HD).
    rewrite Ux, Uy in HD. cbn in Vx, Vy. destruct (bounded_range _ _ Vx), (bounded_range _ _ Vy).
    assert (0 < 2 ^ (Z.min ex ey + 1074)) as Hp by (apply Z.pow_pos_nonneg; lia). destruct D as [|p|p]; [| |nia].
    + exists 0. split; [done|]. split; [done|]. intros z b Hz%value_nonneg. lia.
    + cbn [binary_normalize]. destruct (binary_round_spec false p (Z.min ex ey) ltac:(lia)) as [[_ Hinf]|(w & Hw & Fr & Vr & Ur & Hup & Hlow)].
      * specialize (Hinf mx ex Vx). cbn in Ux. lia.
      * exists w. destruct (binary_round_valid false p (Z.min ex ey)) as [_ Hs].
        split; [split_and!; [done|done|by apply has_sign_nonneg|done]|]. split; [done|].
        intros z b (Vz & Fz & Nz & <-). destruct z as [| | |sz mz ez]; try discriminate; cbn in *; [lia|].
        subst sz. cbn in *. split; intros Hb; [apply (Hup mz ez Vz)|apply (Hlow mz ez Vz)]; lia.
Qed.

Lemma sub_value_le x y u v :
  is_value x u -> is_value y v -> v <= u -> exists w, is_value (f64_sub x y) w /\ 0 <= w <= u.
Proof.
  intros Hx Hy Hle. destruct (sub_value x y u v Hx Hy Hle) as (w & Hw & H0 & Hb). exists w. split; [done|].
  split; [done|]. apply (Hb x u Hx). pose proof (value_nonneg _ _ Hy). lia.
Qed.

(** A sum with a nonnegative double never falls below the other operand. *)
Lemma add_lower x y u :
  is_value x u -> valid y = true -> nonneg y ->
  f64_add x y = S754_infinity false \/ exists w, is_value (f64_add x y) w /\ u <= w.
Proof.
  intros Hx Vy Ny. pose proof Hx as (Vx & Fx & Nx & Ux). destruct (add_valid x y Vx Vy Nx Ny) as [Va Na].
  pose proof (units_nonneg y Vy Ny) as Hy0.
  destruct x as [sx| | |sx mx ex]; try discriminate; destruct y as [sy|sy| |sy my ey]; try done; cbn in Nx, Ny.
  - right. exists 0. cbn in Ux. subst u. split; [by destruct sx, sy|done].
  - left. by subst.
  - right. exists (units (S754_finite sy my ey)). cbn in Ux. subst u. split; [by split_and!|done].
  - right. exists u. by split.
  - left. by subst.
  - subst sx sy. destruct (bounded_range _ _ Vx), (bounded_range _ _ Vy).
    destruct (shl_align_spec mx ex (Z.min ex ey)) as [_ Hsx], (shl_align_spec my ey (Z.min ex ey)) as [_ Hsy].
    unfold f64_add in *. cbn [SFadd cond_Zopp] in *. set (px := fst (shl_align mx ex (Z.min ex ey))) in *.
    set (py := fst (shl_align my ey (Z.min ex ey))) in *. cbn [Z.add binary_normalize] in *.
    destruct (binary_round_spec false (px + py) (Z.min ex ey) ltac:(lia)) as [[Hi _]|(w & Hw & Fr & Vr & Ur & _ & Hlow)];
      [by left|right]. exists w. split; [by split_and!|]. rewrite <- Ux. cbn. apply (Hlow mx ex Vx).
    rewrite Pos2Z.inj_add, Hsx, Z.mul_add_distr_r, <- Z.mul_assoc, <- pow_split by lia.
    rewrite (Z.min_r ex) by lia. replace (ex - Z.min ex ey + (Z.min ex ey + 1074)) with (ex + 1074) by lia.
    assert (0 < 2 ^ (Z.min ex ey + 1074)) by (apply Z.pow_pos_nonneg; lia). nia.
Qed.

Lemma ltb_units x y :
  valid x = true -> valid y = true -> is_finite x = true -> is_finite y = true ->
  SFltb x y = (units x <? units y).
Proof. intros. unfold SFltb. rewrite compare_units by done. unfold Z.ltb. by destruct (_ ?= _). Qed.

Lemma leb_value x y u v : is_value x u -> is_value y v -> (u <= v)%Z -> SFleb x y = true.
Proof.
  intros (Vx & Fx & _ & <-) (Vy & Fy & _ & <-) Hle. unfold SFleb. rewrite compare_units by done.
  destruct (Z.compare_spec (units x) (units y)); (done || lia).
Qed.

Lemma leb_value_inv x y u v : is_value x u -> is_value y v -> SFleb x y = true -> (u <= v)%Z.
Proof.
  intros (Vx & Fx & _ & <-) (Vy & Fy & _ & <-). unfold SFleb. rewrite compare_units by done.
  destruct (Z.compare_spec (units x) (units y)); (done || lia).
Qed.

(** Rounding a value that is a double gives it back. *)
Lemma round_exact p e z :
  -1074 <= e -> is_value z (Zpos p * 2 ^ (e + 1074)) ->
  is_value (binary_round 53 1024 false p e) (Zpos p * 2 ^ (e + 1074)).
Proof.
  intros He (Vz & Fz & Nz & Uz). assert (0 < 2 ^ (e + 1074)) by (apply Z.pow_pos_nonneg; lia).
  destruct z as [| | |sz mz ez]; try discriminate; [cbn in Uz; lia|]. cbn in Nz, Vz, Uz. subst sz. cbn in Uz.
  destruct (binary_round_valid false p e) as [_ Hs].
  destruct (binary_round_spec false p e He) as [[_ Hinf]|(w & Hw & Fr & Vr & Ur & Hup & Hlow)].
  - specialize (Hinf mz ez Vz). lia.
  - specialize (Hup mz ez Vz). specialize (Hlow mz ez Vz).
    split_and!; [done|done|by apply has_sign_nonneg|]. rewrite Ur. cbn. lia.
Qed.

Lemma sub_exact x y z u v : is_value x u -> is_value y v -> is_value z (u - v) -> is_value (f64_sub x y) (u - v).
Proof.
  intros Hx Hy Hz. pose proof (value_nonneg _ _ Hz). destruct (sub_value x y u v) as (w & Hw & _ & Hb); [done|done|lia|].
  destruct (Hb z (u - v) Hz) as [H1 H2]. by replace (u - v) with w by lia.
Qed.

Lemma add_exact x y z u v : is_value x u -> is_value y v -> is_value z (u + v) -> is_value (f64_add x y) (u + v).
Proof.
  intros (Vx & Fx & Nx & Ux) (Vy & Fy & Ny & Uy) Hz.
  destruct x as [sx| | |sx mx ex]; try discriminate; destruct y as [sy| | |sy my ey]; try discriminate; cbn in Nx, Ny.
  - cbn in Ux, Uy. subst. by destruct sx, sy.
  - cbn in Ux. subst u v. by split_and!.
  - cbn in Uy. subst u v. rewrite Z.add_0_r. by split_and!.
  - subst sx sy. destruct (bounded_range _ _ Vx), (bounded_range _ _ Vy).
    destruct (shl_align_spec mx ex (Z.min ex ey)) as [_ Hsx], (shl_align_spec my ey (Z.min ex ey)) as [_ Hsy].
    unfold f64_add. cbn [SFadd cond_Zopp] in *. set (px := fst (shl_align mx ex (Z.min ex ey))) in *.
    set (py := fst (shl_align my ey (Z.min ex ey))) in *. cbn [Z.add binary_normalize] in *.
    assert (Zpos (px + py) * 2 ^ (Z.min ex ey + 1074) = u + v) as Huv.
    { rewrite Pos2Z.inj_add, Hsx, Hsy, (Z.min_r ex), (Z.min_r ey), Z.mul_add_distr_r, <- !Z.mul_assoc, <- !pow_split by lia.
      rewrite <- Ux, <- Uy. cbn. f_equal; do 2 f_equal; lia. }
    rewrite <- Huv in *. by apply (round_exact _ _ z); [lia|].
Qed.

(** Every number of at most 53 bits at an exponent in range is a double. *)
Lemma dyadic_value M e :
  0 <= M < 2 ^ 53 -> -1074 <= e <= 971 -> exists z, is_value z (M * 2 ^ (e + 1074)).
Proof.
  intros HM He. destruct M as [|p|p]; [by exists (S754_zero false)| |lia].
  set (k := Z.min (53 - Zpos (digits2_pos p)) (e + 1074)).
  assert (Zpos (digits2_pos p) <= 53) as Hd by (apply digits_le; lia). assert (0 <= k) as Hk by lia.
  set (q := Z.to_pos (Zpos p * 2 ^ k)). assert (0 < 2 ^ k) by (apply Z.pow_pos_nonneg; lia).
  assert (Zpos q = Zpos p * 2 ^ k) as Hq by (unfold q; rewrite Z2Pos.id; [done|lia]).
  pose proof (digits_shift p k q Hk Hq) as Hdq.
  exists (S754_finite false q (e - k)). split_and!; [|done|done|].
  - cbn. apply bounded_spec. lia.
  - cbn. rewrite Hq, <- Z.mul_assoc, <- pow_split by lia. do 2 f_equal. lia.
Qed.

(** [(x - y).max(0.0)]: the difference when it is not negative, else zero. *)
Lemma sub_floor_pos x y u v : is_value x u -> is_value y v -> v <= u -> f64_max (f64_sub x y) (S754_zero false) = f64_sub x y.
Proof.
  intros Hx Hy Hle. destruct (sub_value_le x y u v Hx Hy Hle) as (w & (Vr & Fr & Nr & Ur) & Hw). unfold f64_max.
  assert (is_nan (f64_sub x y) = false) as -> by (by destruct (f64_sub x y)). cbn [is_nan].
  rewrite ltb_units, Ur by done. cbn [units]. by rewrite (proj2 (Z.ltb_ge _ _)) by lia.
Qed.

Lemma sub_floor_zero x y u v :
  is_value x u -> is_value y v -> u < v -> is_value (f64_max (f64_sub x y) (S754_zero false)) 0.
Proof.
  intros (Vx & Fx & Nx & Ux) (Vy & Fy & Ny & Uy) Hgt. pose proof (units_nonneg x Vx Nx) as Hx0.
  destruct y as [sy| | |sy my ey]; try discriminate; [cbn in Uy; lia|]. cbn in Ny. subst sy.
  destruct x as [sx| | |sx mx ex]; try discriminate; cbn in Nx; [done|].
  subst sx. destruct (sub_finite false mx ex my ey Vx Vy eq_refl) as (D & -> & HD).
  rewrite Ux, Uy in HD. cbn in Vx, Vy. destruct (bounded_range _ _ Vx), (bounded_range _ _ Vy).
  assert (0 < 2 ^ (Z.min ex ey + 1074)) as Hp by (apply Z.pow_pos_nonneg; lia).
  destruct D as [|p|p]; [nia|nia|]. cbn [binary_normalize].
  destruct (binary_round_valid true p (Z.min ex ey)) as [Vr Sr]. unfold f64_max.
  destruct (binary_round 53 1024 true p (Z.min ex ey)) as [s|s| |s m e]; cbn in Sr; subst; done.
Qed.

Lemma sub_floor_value x y u :
  is_value x u -> valid y = true -> nonneg y ->
  exists w, is_value (f64_max (f64_sub x y) (S754_zero false)) w /\ 0 <= w <= u.
Proof.
  intros Hx Vy Ny. pose proof (value_nonneg _ _ Hx). destruct (is_finite y) eqn:Fy.
  - assert (is_value y (units y)) as Hy by done. destruct (Z.le_gt_cases (units y) u) as [Hle|Hgt].
    + rewrite (sub_floor_pos x y u _ Hx Hy Hle). by apply (sub_value_le x y u (units y)).
    + exists 0. split; [|lia]. by apply (sub_floor_zero x y u (units y)).
  - destruct y as [|sy| |]; try discriminate; [|done]. cbn in Ny. subst sy. exists 0.
    destruct Hx as (Vx & Fx & Nx & Ux). split; [|lia]. destruct x; try discriminate; done.
Qed.

(** [x.min(cap)]. *)
Lemma min_value x cap u :
  valid x = true -> nonneg x -> is_value cap u -> exists w, is_value (f64_min x cap) w /\ 0 <= w <= u.
Proof.
  intros Vx Nx (Vc & Fc & Nc & Uc). pose proof (units_nonneg _ Vx Nx). pose proof (units_nonneg _ Vc Nc).
  unfold f64_min. assert (is_nan x = false) as -> by (by destruct x). assert (is_nan cap = false) as -> by (by destruct cap).
  destruct (is_finite x) eqn:Fx.
  - rewrite ltb_units by done. destruct (Z.ltb_spec (units cap) (units x)).
    + exists u. split; [done|lia].
    + exists (units x). split; [done|lia].
  - destruct x as [|s| |]; try discriminate; [|done]. cbn in Nx. subst s.
    assert (SFltb cap (S754_infinity false) = true) as -> by (by destruct cap). exists u. split; [done|lia].
Qed.

Lemma min_keep x cap u v : is_value x u -> is_value cap v -> u <= v -> f64_min x cap = x.
Proof.
  intros (Vx & Fx & Nx & Ux) (Vc & Fc & Nc & Uc) Hle. unfold f64_min.
  assert (is_nan x = false) as -> by (by destruct x). assert (is_nan cap = false) as -> by (by destruct cap).
  rewrite ltb_units, Ux, Uc by done. by rewrite (proj2 (Z.ltb_ge _ _)).
Qed.

(** A full balance stays full: [(cap + x).min(cap)]. *)
Lemma full_stays_full cap u x :
  is_value cap u -> 0 < u -> valid x = true -> nonneg x -> f64_min (f64_add cap x) cap = cap.
Proof.
  intros Hc Hu Vx Nx. pose proof Hc as (Vc & Fc & Nc & Uc). unfold f64_min.
  assert (is_nan cap = false) as -> by (by destruct cap).
  destruct (add_lower cap x u Hc Vx Nx) as [->|(w & Hw & Hle)].
  - cbn [is_nan]. assert (SFltb cap (S754_infinity false) = true) as -> by (by destruct cap). done.
  - pose proof Hw as (Vw & Fw & Nw & Uw). assert (is_nan (f64_add cap x) = false) as -> by (by destruct (f64_add cap x)).
    rewrite ltb_units, Uc, Uw by done. destruct (Z.ltb_spec u w); [done|].
    apply (value_inj _ _ u); [|done|done]. by replace u with w by lia.
Qed.

(** Integers up to [2^53] are exact. *)
Lemma of_Z_value z : 0 <= z <= 2 ^ 53 -> is_value (f64_of_Z z) (z * 2 ^ 1074).
Proof.
  intros Hz. destruct (Z.eq_dec z (2 ^ 53)) as [->|Hne]; [by repeat split; vm_compute|].
  destruct z as [|p|p]; [done| |lia]. unfold f64_of_Z. cbn [binary_normalize].
  destruct (binary_round_valid false p 0) as [Vr Sr].
  assert (Zpos (digits2_pos p) <= 53) as Hd by (apply digits_le; lia).
  set (k := 53 - Zpos (digits2_pos p)).
  destruct (shl_align_spec p 0 (fexp 53 1024 (Zpos (digits2_pos p) + 0))) as [He Hm].
  assert (Z.min 0 (fexp 53 1024 (Zpos (digits2_pos p) + 0)) = - k) as Hk by (rewrite fexp_spec; lia).
  assert (exists q, binary_round 53 1024 false p 0 = S754_finite false q (- k) /\ Zpos q = Zpos p * 2 ^ k) as (q & Hr & Hq).
  { unfold binary_round. rewrite Hk in *. destruct (shl_align p 0 _) as [q ez]. cbn [fst snd] in *. subst ez.
    replace (0 - - k) with k in Hm by lia. exists q. split; [|done].
    assert (Zpos (digits2_pos q) = 53) as Hq53 by (rewrite (digits_shift p k q) by (done || lia); lia).
    unfold binary_round_aux, shr_fexp. cbn [Zdigits2]. rewrite Hq53, fexp_spec.
    replace (Z.max (53 + - k - 53) (-1074) - - k) with 0 by lia. cbn [shr shr_record_of_loc shr_m loc_of_shr_record round_nearest_even].
    cbn [Zdigits2]. rewrite Hq53, fexp_spec. replace (Z.max (53 + - k - 53) (-1074) - - k) with 0 by lia.
    cbn [shr shr_m]. change (1024 - 53) with 971. by rewrite (proj2 (Z.leb_le _ _)) by lia. }
  rewrite Hr in *. split_and!; [done|done|done|]. cbn. rewrite Hq, <- Z.mul_assoc, <- pow_split by lia. do 2 f_equal. lia.
Qed.

(** Truncation. *)
Lemma floor_Z_units m e : -1074 <= e -> floor_Z m e = m * 2 ^ (e + 1074) / 2 ^ 1074.
Proof.
  intros He. unfold floor_Z. destruct (Z.leb_spec 0 e) as [H|H].
  - rewrite pow_split, Z.mul_assoc, Z.div_mul by lia. done.
  - replace (2 ^ 1074) with (2 ^ (- e) * 2 ^ (e + 1074)) by (rewrite <- pow_split by lia; f_equal; lia).
    rewrite Z.div_mul_cancel_r; [done|..]; apply Z.pow_nonzero; lia.
Qed.

Lemma one_units_nonzero : 2 ^ 1074 <> 0.
Proof. apply Z.pow_nonzero; lia. Qed.

Lemma to_u64_value x u : is_value x u -> f64_to_u64 x = N.min (Z.to_N (u / 2 ^ 1074)) u64_max.
Proof.
  intros (Vx & Fx & Nx & <-).
  destruct x as [s| | |s m e]; try discriminate; [cbn [units]; rewrite Z.div_0_l by exact one_units_nonzero; reflexivity|].
  cbn in Nx, Vx. subst s. cbn [f64_to_u64 units cond_Zopp]. rewrite floor_Z_units; [done|]. destruct (bounded_range _ _ Vx); lia.
Qed.

Lemma floor_value x u :
  is_value x u -> u <= 2 ^ 53 * 2 ^ 1074 -> f64_to_u64 (f64_floor x) = Z.to_N (u / 2 ^ 1074).
Proof.
  intros (Vx & Fx & Nx & <-) Hu. pose proof (units_nonneg _ Vx Nx) as H0.
  assert (0 <= units x / 2 ^ 1074 <= 2 ^ 53) as Hq.
  { assert (0 < 2 ^ 1074) by (apply Z.pow_pos_nonneg; lia).
    split; [by apply Z.div_pos|]. apply Z.div_le_upper_bound; [done|lia]. }
  destruct x as [s| | |s m e]; try discriminate; [cbn [units]; rewrite Z.div_0_l by exact one_units_nonzero; reflexivity|].
  cbn in Nx, Vx. subst s.
  cbn [f64_floor units cond_Zopp] in *. rewrite floor_Z_units by (destruct (bounded_range _ _ Vx); lia).
  rewrite (to_u64_value _ _ (of_Z_value _ Hq)), Z.div_mul by exact one_units_nonzero.
  apply N.min_l. change u64_max with (Z.to_N 18446744073709551615). apply Z2N.inj_le; [lia|lia|].
  etrans; [apply Hq|]. by vm_compute.
Qed.

(** Below [2^53], subtracting an integer from a double gives a double. *)
Lemma integral_difference x u n :
  is_value x u -> u <= 2 ^ 53 * 2 ^ 1074 -> 0 <= n -> n * 2 ^ 1074 <= u -> exists z, is_value z (u - n * 2 ^ 1074).
Proof.
  intros (Vx & Fx & Nx & Ux) Hu Hn Hle. assert (0 < 2 ^ 1074) as H1074 by (apply Z.pow_pos_nonneg; lia).
  destruct x as [s| | |s m e]; try discriminate; cbn in Ux.
  { exists (S754_zero false). split_and!; try done. cbn. nia. }
  cbn in Nx, Vx. subst s. cbn in Ux. destruct (bounded_range _ _ Vx) as [He Hm].
  destruct (Z.le_gt_cases 0 e) as [H0|H0].
  - rewrite pow_split, Z.mul_assoc in Ux by lia.
    exists (f64_of_Z (Zpos m * 2 ^ e - n)). rewrite <- Ux, <- Z.mul_sub_distr_r. apply of_Z_value. nia.
  - assert (2 ^ 1074 = 2 ^ (- e) * 2 ^ (e + 1074)) as Hs by (rewrite <- pow_split by lia; f_equal; lia).
    assert (0 < 2 ^ (e + 1074)) by (apply Z.pow_pos_nonneg; lia).
    assert (0 < 2 ^ (- e)) by (apply Z.pow_pos_nonneg; lia).
    destruct (dyadic_value (Zpos m - n * 2 ^ (- e)) e) as [z Hz]; [|lia|].
    + rewrite Hs in Hle. nia.
    + exists z. replace (u - n * 2 ^ 1074) with ((Zpos m - n * 2 ^ (- e)) * 2 ^ (e + 1074)); [done|].
      rewrite Hs. lia.
Qed.

(** [x.max(1.0) as u64] is at least one. *)
Lemma max_one_to_u64 x : valid x = true -> (1 <= f64_to_u64 (f64_max x (f64_of_Z 1)))%N.
Proof.
  intros Vx. destruct (of_Z_value 1 ltac:(lia)) as (V1 & F1 & N1 & U1). unfold f64_max.
  destruct (is_nan x) eqn:Hn; [done|]. assert (is_nan (f64_of_Z 1) = false) as -> by done.
  destruct (SFltb x (f64_of_Z 1)) eqn:Hlt; [done|]. destruct (is_finite x) eqn:Fx.
  - rewrite ltb_units, U1 in Hlt by done. apply Z.ltb_ge in Hlt.
    assert (is_value x (units x)) as Hx.
    { split_and!; try done. destruct x as [| | |[] m e]; try done. cbn in Hlt.
      assert (0 < 2 ^ 1074) by (apply Z.pow_pos_nonneg; lia). cbn in Vx. destruct (bounded_range _ _ Vx).
      assert (0 < 2 ^ (e + 1074)) by (apply Z.pow_pos_nonneg; lia). lia. }
    rewrite (to_u64_value _ _ Hx). apply N.min_glb; [|done].
    assert (1 <= units x / 2 ^ 1074); [|lia]. apply Z.div_le_lower_bound; [by apply Z.pow_pos_nonneg|lia].
  - destruct x as [|[]| |]; try discriminate.
Qed.

Lemma ceil_valid x : valid x = true -> valid (f64_ceil x) = true.
Proof. destruct x as [| | |s m e]; try done. intros _. apply normalize_valid. Qed.

(** ** Lower bounds *)

(** Infinite, or a value of at least [b]. *)
Definition at_least (x : f64) (b : Z) : Prop :=
  x = S754_infinity false \/ exists w, is_value x w /\ b <= w.

Lemma at_least_mono x b b' : at_least x b -> b' <= b -> at_least x b'.
Proof. intros [->|(w & Hw & Hle)] H; [by left|right; exists w; split; [done|lia]]. Qed.

Lemma round_at_least p e z b :
  -1074 <= e -> is_value z b -> b <= Zpos p * 2 ^ (e + 1074) -> at_least (binary_round 53 1024 false p e) b.
Proof.
  intros He (Vz & Fz & Nz & <-) Hle. destruct (binary_round_valid false p e) as [_ Hs].
  destruct (binary_round_spec false p e He) as [[Hi _]|(w & Hw & Fr & Vr & Ur & _ & Hlow)]; [by left|right].
  exists w. split; [split_and!; [done|done|by apply has_sign_nonneg|done]|].
  destruct z as [| | |sz mz ez]; try discriminate; cbn in *; [done|]. subst sz. cbn in *. by apply (Hlow mz ez Vz).
Qed.

Lemma add_at_least x y z u v b :
  is_value x u -> is_value y v -> is_value z b -> b <= u + v -> at_least (f64_add x y) b.
Proof.
  intros Hx Hy Hz Hle. pose proof Hx as (Vx & Fx & Nx & Ux). pose proof Hy as (Vy & Fy & Ny & Uy).
  destruct x as [sx| | |sx mx ex]; try discriminate; destruct y as [sy| | |sy my ey]; try discriminate; cbn in Nx, Ny.
  - right. exists 0. cbn in Ux, Uy. subst. split; [by destruct sx, sy|lia].
  - right. exists v. cbn in Ux. subst u. split; [done|lia].
  - right. exists u. cbn in Uy. subst v. split; [done|lia].
  - subst sx sy. destruct (bounded_range _ _ Vx), (bounded_range _ _ Vy).
    destruct (shl_align_spec mx ex (Z.min ex ey)) as [_ Hsx], (shl_align_spec my ey (Z.min ex ey)) as [_ Hsy].
    unfold f64_add. cbn [SFadd cond_Zopp] in *. set (px := fst (shl_align mx ex (Z.min ex ey))) in *.
    set (py := fst (shl_align my ey (Z.min ex ey))) in *. cbn [Z.add binary_normalize] in *.
    apply (round_at_least _ _ z); [lia|done|]. etrans; [exact Hle|].
    rewrite Pos2Z.inj_add, Hsx, Hsy, (Z.min_r ex), (Z.min_r ey), Z.mul_add_distr_r, <- !Z.mul_assoc, <- !pow_split by lia.
    rewrite <- Ux, <- Uy. cbn. apply Z.eq_le_incl. f_equal; do 2 f_equal; lia.
Qed.

(** Sums of at least [n] and at least [k] whole units of one, up to [2^53]. *)
Lemma add_whole_at_least x y n k :
  0 <= n -> 0 <= k -> at_least x (Z.min n (2 ^ 53) * 2 ^ 1074) -> at_least y (Z.min k (2 ^ 53) * 2 ^ 1074) ->
  valid x = true -> nonneg x -> valid y = true -> nonneg y ->
  at_least (f64_add x y) (Z.min (n + k) (2 ^ 53) * 2 ^ 1074).
Proof.
  intros Hn Hk [->|(u & Hu & Hnu)] Hy Vx Nx Vy Ny; [left; by destruct y; cbn in Ny; subst|].
  destruct Hy as [->|(v & Hv & Hkv)].
  { left. destruct Hu as (_ & Fu & _). by destruct x; try discriminate. }
  assert (0 < 2 ^ 1074) by (apply Z.pow_pos_nonneg; lia).
  apply (add_at_least x y (f64_of_Z (Z.min (n + k) (2 ^ 53))) u v); [done|done|apply of_Z_value; lia|nia].
Qed.

(** ** Products *)

Lemma binary_round_aligned s m e :
  e <= fexp 53 1024 (Zpos (digits2_pos m) + e) ->
  binary_round 53 1024 s m e = binary_round_aux 53 1024 s (Zpos m) e loc_Exact.
Proof.
  intros Hle. unfold binary_round, shl_align.
  destruct (fexp 53 1024 (Zpos (digits2_pos m) + e) - e) as [|d|d] eqn:E; [done|done|lia].
Qed.

Lemma mul_round mx ex m e :
  bounded 53 1024 mx ex = true -> bounded 53 1024 m e = true ->
  f64_mul (S754_finite false mx ex) (S754_finite false m e) = binary_round 53 1024 false (mx * m) (ex + e).
Proof.
  intros Hx Hy. rewrite binary_round_aligned; [done|]. rewrite fexp_spec.
  apply bounded_spec in Hx as [Hx _], Hy as [Hy _].
  destruct (digits2_pos_bounds mx) as [Hl1 _], (digits2_pos_bounds m) as [Hl2 _].
  assert (Zpos (digits2_pos mx) - 1 + (Zpos (digits2_pos m) - 1) < Zpos (digits2_pos (mx * m))); [|lia].
  apply digits_ge. rewrite pow_split, Pos2Z.inj_mul by lia.
  apply Z.mul_le_mono_nonneg; try done; apply Z.pow_nonneg; lia.
Qed.

(** The exponent of a double of at least one. *)
Lemma exponent_above_one mx ex : bounded 53 1024 mx ex = true -> 2 ^ 1074 <= Zpos mx * 2 ^ (ex + 1074) -> -53 < ex.
Proof.
  intros Hb Hv. destruct (bounded_range _ _ Hb) as [Hex Hmx]. apply Z.nle_gt. intros Hle.
  assert (0 < 2 ^ (ex + 1074)) by (apply Z.pow_pos_nonneg; lia).
  assert (2 ^ 53 * 2 ^ (ex + 1074) <= 2 ^ 1074); [|nia]. rewrite <- pow_split by lia. apply Z.pow_le_mono_r; lia.
Qed.

(** A whole number times a factor of at least one. *)
Lemma mul_at_least n w v :
  0 <= n <= 2 ^ 53 -> is_value w v -> 2 ^ 1074 <= v -> at_least (f64_mul (f64_of_Z n) w) (n * 2 ^ 1074).
Proof.
  intros Hn (Vw & Fw & Nw & Uw) Hv. pose proof (of_Z_value n Hn) as Hx. assert (0 < 2 ^ 1074) as H1074 by (apply Z.pow_pos_nonneg; lia).
  pose proof Hx as (Vx & Fx & Nx & Ux).
  destruct w as [sw| | |sw m e]; try discriminate; [cbn in Uw; lia|]. cbn in Nw, Vw, Uw. subst sw. cbn in Uw.
  destruct (f64_of_Z n) as [sx| | |sx mx ex]; try discriminate.
  { right. exists 0. cbn in Ux. split; [by destruct sx|lia]. }
  cbn in Nx, Vx, Ux. subst sx. cbn in Ux. rewrite mul_round by done.
  destruct (bounded_range _ _ Vx) as [Hex Hmx], (bounded_range _ _ Vw) as [He Hm].
  assert (0 < 2 ^ (ex + 1074)) by (apply Z.pow_pos_nonneg; lia).
  assert (1 <= n) as Hn1 by (destruct (Z.eq_dec n 0); [subst n; lia|lia]).
  assert (-53 < ex) by (apply (exponent_above_one mx ex Vx); nia).
  assert (-53 < e) by (apply (exponent_above_one m e Vw); lia).
  apply (round_at_least _ _ (S754_finite false mx ex)); [lia|by rewrite <- Ux|].
  rewrite <- Ux, Pos2Z.inj_mul. apply (Z.mul_le_mono_pos_r _ _ (2 ^ 1074)); [done|].
  replace (Zpos mx * Zpos m * 2 ^ (ex + e + 1074) * 2 ^ 1074)
    with (Zpos mx * 2 ^ (ex + 1074) * (Zpos m * 2 ^ (e + 1074))); [nia|].
  assert (2 ^ (ex + e + 1074) * 2 ^ 1074 = 2 ^ (ex + 1074) * 2 ^ (e + 1074)) as Hp
    by (rewrite <- !pow_split by lia; f_equal; lia).
  rewrite <- (Z.mul_assoc _ (2 ^ (ex + e + 1074))), Hp. lia.
Qed.

(** Multiplying a whole number by one is exact. *)
Lemma mul_one n : 0 <= n <= 2 ^ 53 -> is_value (f64_mul (f64_of_Z n) (f64_of_Z 1)) (n * 2 ^ 1074).
Proof.
  intros Hn. pose proof (of_Z_value n Hn) as Hx. pose proof Hx as (Vx & Fx & Nx & Ux).
  assert (0 < 2 ^ 1074) by (apply Z.pow_pos_nonneg; lia).
  change (f64_of_Z 1) with (S754_finite false 4503599627370496 (-52)).
  destruct (f64_of_Z n) as [sx| | |sx mx ex]; try discriminate.
  { split_and!; [by destruct sx|by destruct sx|by destruct sx|]. by destruct sx. }
  cbn in Nx, Vx, Ux. subst sx. cbn in Ux. rewrite mul_round by done. destruct (bounded_range _ _ Vx) as [Hex _].
  assert (0 < 2 ^ (ex + 1074)) by (apply Z.pow_pos_nonneg; lia).
  assert (-53 < ex) by (apply (exponent_above_one mx ex Vx); nia).
  assert (Zpos (mx * 4503599627370496) * 2 ^ (ex + -52 + 1074) = n * 2 ^ 1074) as Hv.
  { rewrite <- Ux, Pos2Z.inj_mul. change (Zpos 4503599627370496) with (2 ^ 52).
    rewrite <- Z.mul_assoc, <- pow_split by lia. do 2 f_equal. lia. }
  rewrite <- Hv. apply (round_exact _ _ (S754_finite false mx ex)); [lia|]. by rewrite Hv.
Qed.

(** Rounding up. *)
Lemma ceil_value x u :
  is_value x u -> u <= 2 ^ 53 * 2 ^ 1074 -> f64_to_u64 (f64_ceil x) = Z.to_N (- (- u / 2 ^ 1074)).
Proof.
  intros Hx Hu. pose proof (value_nonneg _ _ Hx) as H0. destruct Hx as (Vx & Fx & Nx & <-).
  assert (0 < 2 ^ 1074) by (apply Z.pow_pos_nonneg; lia).
  assert (0 <= - (- units x / 2 ^ 1074) <= 2 ^ 53) as Hq.
  { assert (- 2 ^ 53 <= - units x / 2 ^ 1074) by (apply Z.div_le_lower_bound; lia).
    assert (- units x / 2 ^ 1074 <= 0) by (apply Z.div_le_upper_bound; lia). lia. }
  destruct x as [s| | |s m e]; try discriminate; [done|]. cbn in Nx, Vx. subst s.
  cbn [f64_ceil units cond_Zopp] in *. unfold ceil_Z. rewrite floor_Z_units by (destruct (bounded_range _ _ Vx); lia).
  rewrite Z.mul_opp_l. fold (f64_of_Z (- (- (Zpos m * 2 ^ (e + 1074)) / 2 ^ 1074))).
  rewrite (to_u64_value _ _ (of_Z_value _ Hq)), Z.div_mul by exact one_units_nonzero.
  apply N.min_l. change u64_max with (Z.to_N 18446744073709551615). apply Z2N.inj_le; [lia|lia|].
  etrans; [apply Hq|]. by vm_compute.
Qed.
