(* ===== verification/TokenBucket.v ===== *)
(** Token-bucket ledger: [filters/src/token_rate_limit/token_bucket_ledger.rs].

    One [BucketState] per key holds a balance in IEEE doubles ([Float64]), the
    time of its last refill and the active reservations; [TokenBucketLedger]
    adds the shared maps and the atomic counters.  As for the sliding-window
    ledger, the key's mutex is held for the whole body of [reserve] and
    [reconcile] and for each key's turn of [cleanup], so each public operation
    is one function from a ledger to its answer and the next ledger, and [step]
    interleaves them.  [DenialReason] is shared with [Ledger], as in the code. *)

From S2P Require Import Prelude Float64 Ledger.
From Stdlib Require Import Floats.SpecFloat.

Local Open Scope N_scope.
Local Open Scope rust_scope.

(** * Data *)

Definition MAX_CAPACITY_REFILL_RATE_RATIO_SECS : f64 := f64_of_N 1000000000.
Definition MAX_F64_SAFE_INTEGER : N := N.shiftl 1 53.

Record TokenBucketConfig := mkTokenBucketConfig {
  capacity : N;
  refill_rate : f64;
  reservation_timeout_ms : N;
  max_keys : N;
  max_key_length : N;
  max_active_reservations : N
}.

Definition validate_capacity_and_refill_rate (capacity : N) (refill_rate : f64) : result string unit :=
  if capacity =? 0 then Err "capacity must be positive"
  else if MAX_F64_SAFE_INTEGER <? capacity then Err "capacity must not exceed 9007199254740992 (2^53)"
  else if negb (is_finite refill_rate) || SFleb refill_rate (f64_of_N 0)
  then Err "refill_rate must be a positive, finite number"
  else if f64_gtb (f64_div (f64_of_N capacity) refill_rate) MAX_CAPACITY_REFILL_RATE_RATIO_SECS
  then Err "capacity / refill_rate must not exceed 1000000000 seconds (time to fill an empty bucket)"
  else Ok tt.

(** [TokenBucketConfig::validate]. *)
Definition validate (c : TokenBucketConfig) : result string unit :=
  let? _ := validate_capacity_and_refill_rate (capacity c) (refill_rate c) in
  if reservation_timeout_ms c =? 0 then Err "reservation timeout must be positive"
  else if (max_keys c =? 0) || (max_key_length c =? 0) || (max_active_reservations c =? 0)
  then Err "ledger bounds must be positive"
  else Ok tt.

Record Reservation := mkReservation {
  res_id : N;
  res_estimate : N;
  res_created_at_ms : N;
  usage_after : N;
  remaining : N
}.

Inductive Decision :=
| AdmittedAs (r : Reservation)
| Denied (retry_after_ms : N) (reason : DenialReason) (remaining : N).

Inductive Settlement :=
| Applied (actual refund overage : N)
| Noop.

Record ActiveReservation := mkActive { estimate : N; created_at_ms : N }.

Record BucketState := mkBucketState {
  tokens : f64;
  last_refill_ms : N;
  active : gmap N ActiveReservation
}.

Record TokenBucketLedger := mkTokenBucketLedger {
  config : TokenBucketConfig;
  keys : gmap string BucketState;
  reservations : gmap N string;
  next_id : N;
  key_count : N;
  active_reservations : N
}.

(** * Operations of one bucket *)

(** [BucketState::new]. *)
Definition new_bucket (capacity : N) : BucketState := mkBucketState (f64_of_N capacity) 0 ∅.

(** [BucketState::refill]. *)
Definition refill (now : N) (c : TokenBucketConfig) (st : BucketState) : BucketState :=
  let elapsed_ms := saturating_sub now (last_refill_ms st) in
  if 0 <? elapsed_ms then
    let elapsed_secs := f64_div (f64_of_N elapsed_ms) (f64_of_N 1000) in
    mkBucketState (f64_min (f64_add (tokens st) (f64_mul elapsed_secs (refill_rate c))) (f64_of_N (capacity c)))
      now (active st)
  else st.

Definition timed_out (now : N) (c : TokenBucketConfig) (r : ActiveReservation) : bool :=
  reservation_timeout_ms c <=? saturating_sub now (created_at_ms r).

Section BucketOps.
Context `{!HashOrder N}.

(** [BucketState::reap]. *)
Definition reap (now : N) (c : TokenBucketConfig) (st : BucketState) : BucketState * list N :=
  let expired :=
    omap (fun '(id, r) => if timed_out now c r then Some id else None) (hash_iter (active st)) in
  (mkBucketState (tokens st) (last_refill_ms st) (foldl (fun m id => delete id m) (active st) expired), expired).
End BucketOps.

(** [BucketState::is_empty]. *)
Definition is_empty (st : BucketState) (capacity : N) : bool :=
  bool_decide (active st = ∅) && SFleb (f64_of_N capacity) (tokens st).

(** * Operations of the ledger *)

(** [TokenBucketLedger::new]. *)
Definition new (c : TokenBucketConfig) : result string TokenBucketLedger :=
  let? _ := validate c in Ok (mkTokenBucketLedger c ∅ ∅ 1 0 0).

Definition limit (L : TokenBucketLedger) : N := capacity (config L).
Definition active_count (L : TokenBucketLedger) : N := active_reservations L.
Definition retained_keys (L : TokenBucketLedger) : N := key_count L.

Definition set_key (k : string) (st : BucketState) (L : TokenBucketLedger) : TokenBucketLedger :=
  mkTokenBucketLedger (config L) (<[k:=st]> (keys L)) (reservations L) (next_id L) (key_count L)
    (active_reservations L).

(** Forget the expired reservations in the shared index and counter. *)
Definition forget (ids : list N) (L : TokenBucketLedger) : TokenBucketLedger :=
  mkTokenBucketLedger (config L) (keys L) (foldl (fun m id => delete id m) (reservations L) ids)
    (next_id L) (key_count L) (wrapping_sub (active_reservations L) (N.of_nat (length ids))).

(** The loop that finds the key's entry or creates it, bounded by [max_keys]. *)
Definition get_or_create (k : string) (L : TokenBucketLedger) : option (TokenBucketLedger * BucketState) :=
  match keys L !! k with
  | Some st => Some (L, st)
  | None =>
      if key_count L <? max_keys (config L) then
        let st := new_bucket (capacity (config L)) in
        Some (mkTokenBucketLedger (config L) (<[k:=st]> (keys L)) (reservations L) (next_id L)
                (key_count L + 1) (active_reservations L), st)
      else None
  end.

(** The denial's delay: [(deficit / refill_rate * 1000.0).ceil().max(1.0) as u64]. *)
Definition retry_after (c : TokenBucketConfig) (deficit : f64) : N :=
  f64_to_u64 (f64_max (f64_ceil (f64_mul (f64_div deficit (refill_rate c)) (f64_of_N 1000))) (f64_of_N 1)).

Section BucketLedgerOps.
Context `{!HashOrder N} `{!HashOrder string}.

(** [TokenBucketLedger::reserve]. *)
Definition reserve (k : string) (est now : N) (L : TokenBucketLedger) : Decision * TokenBucketLedger :=
  let c := config L in
  if bool_decide (k = ""%string) || (max_key_length c <? N.of_nat (String.length k)) || (est =? 0)
  then (Denied 0 InvalidKey 0, L)
  else
    match get_or_create k L with
    | None => (Denied 0 KeyCapacity 0, L)
    | Some (L, st) =>
        let '(st, expired) := reap now c (refill now c st) in
        let L := forget expired (set_key k st L) in
        let remaining_before := f64_to_u64 (f64_floor (tokens st)) in
        let estimate_f64 := f64_of_N est in
        if f64_gtb estimate_f64 (tokens st) then
          (Denied (retry_after c (f64_sub estimate_f64 (tokens st))) WindowCapacity remaining_before, L)
        else if active_reservations L <? max_active_reservations c then
          let tokens' := f64_sub (tokens st) estimate_f64 in
          let usage_after := f64_to_u64 (f64_max (f64_sub (f64_of_N (capacity c)) tokens') (f64_of_N 0)) in
          let remaining_after := f64_to_u64 (f64_floor tokens') in
          let id := next_id L in
          let st := mkBucketState tokens' (last_refill_ms st) (<[id := mkActive est now]> (active st)) in
          (AdmittedAs (mkReservation id est now usage_after remaining_after),
           mkTokenBucketLedger c (<[k:=st]> (keys L)) (<[id:=k]> (reservations L))
             (wrapping_add id 1) (key_count L) (active_reservations L + 1))
        else (Denied (reservation_timeout_ms c) ReservationCapacity remaining_before, L)
    end.

(** [TokenBucketLedger::reconcile]. *)
Definition reconcile (id : N) (actual : option N) (now : N) (L : TokenBucketLedger) :
    Settlement * TokenBucketLedger :=
  match reservations L !! id with
  | None => (Noop, L)
  | Some k =>
      let c := config L in
      let L := mkTokenBucketLedger c (keys L) (delete id (reservations L)) (next_id L)
                 (key_count L) (active_reservations L) in
      match keys L !! k with
      | None => (Noop, L)
      | Some st =>
          match active st !! id with
          | None => (Noop, L)
          | Some r =>
              let L := mkTokenBucketLedger c (keys L) (reservations L) (next_id L)
                         (key_count L) (wrapping_sub (active_reservations L) 1) in
              let st := refill now c (mkBucketState (tokens st) (last_refill_ms st) (delete id (active st))) in
              let actual := default (estimate r) actual in
              let refund := saturating_sub (estimate r) actual in
              let overage := saturating_sub actual (estimate r) in
              let tokens' :=
                if 0 <? refund then f64_min (f64_add (tokens st) (f64_of_N refund)) (f64_of_N (capacity c))
                else if 0 <? overage then f64_max (f64_sub (tokens st) (f64_of_N overage)) (f64_of_N 0)
                else tokens st in
              (Applied actual refund overage,
               set_key k (mkBucketState tokens' (last_refill_ms st) (active st)) L)
          end
      end
  end.

(** Remove a key's entry and count it out. *)
Definition evict (k : string) (L : TokenBucketLedger) : TokenBucketLedger :=
  mkTokenBucketLedger (config L) (delete k (keys L)) (reservations L) (next_id L)
    (wrapping_sub (key_count L) 1) (active_reservations L).

(** One key's turn of [cleanup]; the count is the number of orphaned
    reservations. *)
Definition cleanup_key (now : N) (acc : N * TokenBucketLedger) (k : string) : N * TokenBucketLedger :=
  let '(orphaned, L) := acc in
  match keys L !! k with
  | None => (orphaned, L)
  | Some st =>
      let '(st, expired) := reap now (config L) (refill now (config L) st) in
      let L := forget expired (set_key k st L) in
      (orphaned + N.of_nat (length expired), if is_empty st (capacity (config L)) then evict k L else L)
  end.

(** [TokenBucketLedger::cleanup]. *)
Definition cleanup (now : N) (max_keys_to_scan : nat) (L : TokenBucketLedger) : N * TokenBucketLedger :=
  foldl (cleanup_key now) (0, L) (take max_keys_to_scan (hash_iter (keys L)).*1).
End BucketLedgerOps.

(** * Sequences of operations; [op] is the alphabet of [Ledger] *)

Definition exec `{!HashOrder N, !HashOrder string} (o : op) (L : TokenBucketLedger) : TokenBucketLedger :=
  match o with
  | OpReserve k est now => snd (reserve k est now L)
  | OpReconcile id actual now => snd (reconcile id actual now L)
  | OpCleanup now scan => snd (cleanup now scan L)
  end.

(** Each step may see its own iteration orders. *)
Inductive bucket_steps : TokenBucketLedger -> list op -> TokenBucketLedger -> Prop :=
| bucket_steps_nil L : bucket_steps L [] L
| bucket_steps_cons (hn : HashOrder N) (hs : HashOrder string) L o os L' :
    bucket_steps (exec o L) os L' -> bucket_steps L (o :: os) L'.
