(* ===== verification/TokenBucketProps.v ===== *)
(** Correctness of the token-bucket ledger.

    [bookkeeping] forgets the balances of a token-bucket ledger and leaves a
    sliding-window ledger with the same keys, reservations and counters, so the
    invariant of [LedgerInvariants] is reused for the shared bookkeeping.
    [bucket_inv] adds that every balance is a finite double between zero and
    the capacity.  Every operation preserves both; the admission decision and
    the eviction theorem follow. *)

From S2P Require Import Prelude Float64 Ledger LedgerInvariants TokenBucket.
From Stdlib Require Import Floats.SpecFloat.

Local Open Scope N_scope.

(** * The bookkeeping part *)

Definition plain_active (r : ActiveReservation) : Ledger.ActiveReservation :=
  Ledger.mkActive (estimate r) (created_at_ms r).

Definition plain_state (st : BucketState) : KeyState := mkKeyState [] (plain_active <$> active st).

Definition plain_config (c : TokenBucketConfig) : LedgerConfig :=
  mkLedgerConfig [] (reservation_timeout_ms c) (max_keys c) (max_key_length c) (max_active_reservations c).

Definition bookkeeping (L : TokenBucketLedger) : Ledger :=
  mkLedger (plain_config (config L)) (plain_state <$> keys L) (reservations L) (next_id L) (key_count L)
    (active_reservations L).

Lemma bookkeeping_set_key k st L :
  bookkeeping (set_key k st L) = Ledger.set_key k (plain_state st) (bookkeeping L).
Proof. unfold bookkeeping, set_key, Ledger.set_key. cbn. by rewrite fmap_insert. Qed.

Lemma bookkeeping_lookup L k st : keys L !! k = Some st -> Ledger.keys (bookkeeping L) !! k = Some (plain_state st).
Proof. intros Hk. cbn. by rewrite lookup_fmap, Hk. Qed.

Lemma bookkeeping_index L id k :
  wf (bookkeeping L) -> reservations L !! id = Some k ->
  exists st r, keys L !! k = Some st /\ active st !! id = Some r.
Proof.
  intros Hwf Hr. destruct (proj1 (wf_index _ Hwf id k) Hr) as (st & r & Hk & Ha).
  cbn in Hk. rewrite lookup_fmap, fmap_Some in Hk. destruct Hk as (st0 & Hk & ->).
  cbn in Ha. rewrite lookup_fmap, fmap_Some in Ha. destruct Ha as (r0 & Ha & ->). eauto.
Qed.

(** * Balances *)

Section Balances.
Local Open Scope Z_scope.

(** The value of one token in units. *)
Definition token : Z := 2 ^ 1074.

(** The balance of a bucket of [cap] tokens: a finite double in [0, cap]. *)
Definition balance (cap : N) (st : BucketState) (u : Z) : Prop :=
  is_value (tokens st) u /\ 0 <= u <= Z.of_N cap * token.

Definition bucket_ok (cap : N) (st : BucketState) : Prop := exists u, balance cap st u.

(** What [validate] guarantees of the two numbers of the refill formula. *)
Record rate_ok (c : TokenBucketConfig) : Prop := mkRateOk {
  rate_capacity : 1 <= Z.of_N (capacity c) <= 2 ^ 53;
  rate_positive : exists m e, refill_rate c = S754_finite false m e /\ bounded 53 1024 m e = true
}.

Lemma validate_rate_ok c : valid (refill_rate c) = true -> validate c = Ok tt -> rate_ok c.
Proof.
  intros Hv. unfold validate, validate_capacity_and_refill_rate.
  destruct (N.eqb_spec (capacity c) 0); [done|]. destruct (N.ltb_spec MAX_F64_SAFE_INTEGER (capacity c)) as [|Hle]; [done|].
  destruct (is_finite (refill_rate c)) eqn:Hf; [|done]. cbn [negb orb].
  destruct (SFleb (refill_rate c) (f64_of_N 0)) eqn:Hp; [done|]. intros _. split.
  - change MAX_F64_SAFE_INTEGER with (Z.to_N (2 ^ 53)) in Hle. lia.
  - destruct (refill_rate c) as [| | |[] m e]; try discriminate. by exists m, e.
Qed.

Lemma of_N_valid n : valid (f64_of_N n) = true /\ nonneg (f64_of_N n).
Proof. destruct (normalize_valid (Z.of_N n) 0 false) as (H1 & H2 & _). split; [done|]. apply H2. lia. Qed.

Lemma capacity_value c : rate_ok c -> is_value (f64_of_N (capacity c)) (Z.of_N (capacity c) * token).
Proof. intros [Hc _]. apply of_Z_value. lia. Qed.

Lemma earned_valid c n :
  rate_ok c ->
  let x := f64_mul (f64_div (f64_of_N n) (f64_of_N 1000)) (refill_rate c) in valid x = true /\ nonneg x.
Proof.
  intros [_ (m & e & -> & Hb)]. destruct (of_N_valid n) as [Hv Hn].
  destruct (f64_of_N 1000) as [| | |[] m' e'] eqn:E; try discriminate.
  destruct (div_valid (f64_of_N n) m' e' Hv Hn) as [Hd Hdn]; [by injection E as <- <-|].
  by apply mul_valid.
Qed.

Lemma new_bucket_ok c : rate_ok c -> bucket_ok (capacity c) (new_bucket (capacity c)).
Proof.
  intros Hr. eexists. split; [by apply capacity_value|]. pose proof (value_nonneg _ _ (capacity_value c Hr)). lia.
Qed.

Lemma refill_ok c now st : rate_ok c -> bucket_ok (capacity c) st -> bucket_ok (capacity c) (refill now c st).
Proof.
  intros Hr (u & Hu & Hb). unfold refill. destruct (0 <? _)%N; [|by exists u].
  destruct (earned_valid c (saturating_sub now (last_refill_ms st)) Hr) as [Hv Hn].
  pose proof Hu as (Vu & _ & Nu & _). destruct (add_valid _ _ Vu Hv Nu Hn) as [Va Na].
  destruct (min_value _ _ _ Va Na (capacity_value c Hr)) as (w & Hw & Hwb). by exists w.
Qed.

(** A full bucket stays full. *)
Lemma refill_full c now st :
  rate_ok c -> tokens st = f64_of_N (capacity c) ->
  tokens (refill now c st) = f64_of_N (capacity c).
Proof.
  intros Hr Ht. unfold refill. destruct (0 <? _)%N; [|done]. cbn [tokens]. rewrite Ht.
  destruct (earned_valid c (saturating_sub now (last_refill_ms st)) Hr) as [Hv Hn].
  apply (full_stays_full _ _ _ (capacity_value c Hr)); [|done..].
  assert (0 < token) by (apply Z.pow_pos_nonneg; lia). destruct Hr as [Hc _]. nia.
Qed.

Lemma ok_active cap st t m : bucket_ok cap st -> bucket_ok cap (mkBucketState (tokens st) t m).
Proof. done. Qed.

(** The comparison the code makes before it debits. *)
Lemma not_gtb_value x u n : is_value x u -> f64_gtb (f64_of_N n) x = false ->
  exists v, is_value (f64_of_N n) v /\ v <= u.
Proof.
  intros (Vx & Fx & Nx & Ux) Hg. destruct (of_N_valid n) as [Vn Nn]. unfold f64_gtb in Hg.
  destruct (is_finite (f64_of_N n)) eqn:Fn.
  - exists (units (f64_of_N n)). split; [done|]. rewrite ltb_units, Ux in Hg by done. by apply Z.ltb_ge in Hg.
  - destruct (f64_of_N n) as [|s| |]; try discriminate; [|done]. cbn in Nn. subst s.
    destruct x; try discriminate; done.
Qed.

Lemma debit_ok cap st n t m :
  bucket_ok cap st -> f64_gtb (f64_of_N n) (tokens st) = false ->
  bucket_ok cap (mkBucketState (f64_sub (tokens st) (f64_of_N n)) t m).
Proof.
  intros (u & Hu & Hb) Hg. destruct (not_gtb_value _ _ _ Hu Hg) as (v & Hv & Hle).
  destruct (sub_value_le _ _ _ _ Hu Hv Hle) as (w & Hw & Hwb). exists w. split; [done|lia].
Qed.

Lemma credit_ok c st n t m :
  rate_ok c -> bucket_ok (capacity c) st ->
  bucket_ok (capacity c)
    (mkBucketState (f64_min (f64_add (tokens st) (f64_of_N n)) (f64_of_N (capacity c))) t m).
Proof.
  intros Hr (u & (Vu & _ & Nu & _) & _). destruct (of_N_valid n) as [Vn Nn].
  destruct (add_valid _ _ Vu Vn Nu Nn) as [Va Na].
  destruct (min_value _ _ _ Va Na (capacity_value c Hr)) as (w & Hw & Hb). by exists w.
Qed.

Lemma overage_ok cap st n t m :
  bucket_ok cap st ->
  bucket_ok cap (mkBucketState (f64_max (f64_sub (tokens st) (f64_of_N n)) (f64_of_N 0)) t m).
Proof.
  intros (u & Hu & Hb). destruct (of_N_valid n) as [Vn Nn].
  destruct (sub_floor_value _ _ _ Hu Vn Nn) as (w & Hw & Hwb). exists w. split; [done|lia].
Qed.
End Balances.

#[export] Hint Resolve new_bucket_ok refill_ok debit_ok credit_ok overage_ok : praxis.

(** * Reaping *)

Section Reaping.
Context `{!HashOrder N}.

Lemma elem_of_reaped now c st id :
  id ∈ (reap now c st).2 <-> exists r, active st !! id = Some r /\ timed_out now c r = true.
Proof.
  unfold reap. cbn [snd]. rewrite list_elem_of_omap. split.
  - intros ([i r] & Hin & Hx). rewrite elem_of_hash_iter in Hin. destruct (timed_out now c r) eqn:E; simplify_eq. eauto.
  - intros (r & Hr & He). exists (id, r). by rewrite elem_of_hash_iter, He.
Qed.

Lemma NoDup_reaped now c st : NoDup (reap now c st).2.
Proof.
  unfold reap. cbn [snd]. generalize (NoDup_hash_iter_fst (active st)).
  induction (hash_iter (active st)) as [|[i r] l IH]; cbn; [constructor|].
  intros [Hi Hl]%NoDup_cons. destruct (timed_out now c r); [|auto]. apply NoDup_cons. split; [|auto].
  intros ([i' r'] & Hin & Hx)%list_elem_of_omap. destruct (timed_out now c r'); simplify_eq.
  apply Hi, list_elem_of_fmap. by exists (i, r').
Qed.

Lemma reap_plain now c st :
  Ledger.active (plain_state (reap now c st).1) =
    filter (fun p => p.1 ∉ (reap now c st).2) (Ledger.active (plain_state st)).
Proof.
  apply map_eq. intros i. cbn. rewrite map_lookup_filter, !lookup_fmap, foldl_delete_lookup.
  case_decide as Hd; cbn; destruct (active st !! i); cbn; try done;
    [by rewrite option_guard_False by (cbn; auto)|by rewrite option_guard_True by (cbn; auto)].
Qed.

Lemma reap_tokens now c st :
  tokens (reap now c st).1 = tokens st /\ last_refill_ms (reap now c st).1 = last_refill_ms st.
Proof. done. Qed.
End Reaping.

Lemma refill_active now c st : active (refill now c st) = active st.
Proof. unfold refill. by case_match. Qed.

#[global] Arguments reap : simpl never.
#[global] Arguments refill : simpl never.

(** * The invariant *)

Record bucket_inv (L : TokenBucketLedger) : Prop := mkBucketInv {
  inv_rate : rate_ok (config L);
  inv_book : wf (bookkeeping L);
  inv_balance : forall k st, keys L !! k = Some st -> bucket_ok (capacity (config L)) st
}.

(** Widths the fields of a configuration have by type. *)
Definition bucket_config_in_range (c : TokenBucketConfig) : Prop :=
  valid (refill_rate c) = true /\ max_keys c <= u64_max /\ max_active_reservations c <= u64_max.

Lemma new_inv c L : bucket_config_in_range c -> new c = Ok L -> bucket_inv L.
Proof.
  intros (Hv & Hk & Ha). unfold new. destruct (validate c) as [[]|] eqn:E; [|done]. intros [= <-].
  split; [by apply validate_rate_ok| |done]. split; cbn; try done; try lia.
  intros id k. rewrite fmap_empty, lookup_empty. split; [done|]. intros (st & r & H & _). by rewrite lookup_empty in H.
Qed.

Section Preservation.
Context `{!HashOrder N} `{!HashOrder string}.
Implicit Types (L : TokenBucketLedger) (st : BucketState).

Lemma inv_set L k st :
  bucket_inv L -> bucket_ok (capacity (config L)) st ->
  forall k' st', <[k:=st]> (keys L) !! k' = Some st' -> bucket_ok (capacity (config L)) st'.
Proof.
  intros [_ _ Hb] Hst k' st'. rewrite lookup_insert. case_decide; [by intros [= <-]|]. apply Hb.
Qed.

(** Refilling and reaping one key, with the shared index brought up to date. *)
Lemma inv_refill_reap L k st now st' ids :
  bucket_inv L -> keys L !! k = Some st -> reap now (config L) (refill now (config L) st) = (st', ids) ->
  bucket_inv (forget ids (set_key k st' L)).
Proof.
  intros Hinv Hk Hr. pose proof Hinv as [Hc Hw Hb].
  replace st' with (reap now (config L) (refill now (config L) st)).1 by (by rewrite Hr).
  replace ids with (reap now (config L) (refill now (config L) st)).2 by (by rewrite Hr).
  split; [done| |].
  - change (wf (Ledger.forget (reap now (config L) (refill now (config L) st)).2
      (bookkeeping (set_key k (reap now (config L) (refill now (config L) st)).1 L)))).
    rewrite bookkeeping_set_key. eapply wf_drop_active; [done|by apply bookkeeping_lookup|apply NoDup_reaped| |].
    + intros id (r & Ha & _)%elem_of_reaped. rewrite refill_active in Ha. cbn. rewrite lookup_fmap, Ha. eauto.
    + rewrite reap_plain. cbn. by rewrite refill_active.
  - cbn. apply inv_set; [done|]. apply ok_active, refill_ok; eauto.
Qed.

Lemma get_or_create_inv L k L' st :
  bucket_inv L -> get_or_create k L = Some (L', st) ->
  bucket_inv L' /\ keys L' !! k = Some st /\ config L' = config L /\ next_id L' = next_id L /\
  st = default (new_bucket (capacity (config L))) (keys L !! k).
Proof.
  intros Hinv. pose proof Hinv as [Hc Hw Hb]. unfold get_or_create. destruct (keys L !! k) as [st0|] eqn:Hk.
  { intros [= <- <-]. auto. }
  destruct (N.ltb_spec (key_count L) (max_keys (config L))) as [Hlt|]; [|done]. intros [= <- <-].
  cbn. rewrite lookup_insert_eq. split; [|auto]. split; [done| |].
  - destruct (get_or_create_wf (bookkeeping L) k (Ledger.mkLedger (plain_config (config L))
      (<[k:=empty_key_state]> (plain_state <$> keys L)) (reservations L) (next_id L) (key_count L + 1)
      (active_reservations L)) empty_key_state Hw) as [Hw' _].
    + unfold Ledger.get_or_create. cbn. rewrite lookup_fmap, Hk. cbn.
      by rewrite (proj2 (N.ltb_lt _ _) Hlt).
    + unfold bookkeeping. cbn. rewrite fmap_insert. exact Hw'.
  - cbn. apply inv_set; [done|]. by apply new_bucket_ok.
Qed.

Lemma reserve_inv L k est now :
  bucket_inv L -> 0 < next_id L -> next_id L < u64_max -> bucket_inv (reserve k est now L).2.
Proof.
  intros Hinv Hpos Hid. unfold reserve. destruct (_ || (est =? 0)); [done|].
  destruct (get_or_create k L) as [[L1 st]|] eqn:Hg; [|done].
  destruct (get_or_create_inv _ _ _ _ Hinv Hg) as (Hinv1 & Hk1 & Hc1 & Hn1 & _). rewrite <- Hc1.
  destruct (reap now (config L1) (refill now (config L1) st)) as [st' ids] eqn:Hr.
  pose proof (inv_refill_reap L1 k st now st' ids Hinv1 Hk1 Hr) as Hinv2.
  destruct (f64_gtb (f64_of_N est) (tokens st')) eqn:Hgt; [done|].
  match goal with |- context [if ?x then _ else _] => destruct x eqn:Hlt end; [|done].
  apply N.ltb_lt in Hlt. cbn in Hlt. assert (keys (forget ids (set_key k st' L1)) !! k = Some st') as Hk2
    by (cbn; apply lookup_insert_eq).
  pose proof Hinv2 as [Hc2 Hw2 Hb2]. split; [done| |].
  - unfold bookkeeping. cbn. rewrite fmap_insert. unfold plain_state at 1. cbn. rewrite fmap_insert, Hn1.
    pose proof (wf_admit _ k _ est now Hw2 (bookkeeping_lookup _ _ _ Hk2)) as Ha.
    cbn in Ha. rewrite Hn1 in Ha. apply Ha; done.
  - cbn. apply (inv_set _ k _ Hinv2). eapply debit_ok; [|done]. by apply (Hb2 k).
Qed.

Lemma reconcile_inv L id actual now : bucket_inv L -> bucket_inv (reconcile id actual now L).2.
Proof.
  intros Hinv. pose proof Hinv as [Hc Hw Hb]. unfold reconcile. destruct (reservations L !! id) as [k|] eqn:Hr; [|done].
  destruct (bookkeeping_index L id k Hw Hr) as (st & r & Hk & Ha). cbn [keys]. rewrite Hk, Ha.
  assert (bucket_ok (capacity (config L))
    (refill now (config L) (mkBucketState (tokens st) (last_refill_ms st) (delete id (active st))))) as Hok
    by (apply refill_ok; [done|]; apply ok_active; eauto).
  cbn [snd]. split; [done| |].
  - rewrite bookkeeping_set_key. cbn. unfold plain_state at 1. cbn. rewrite refill_active. cbn [active].
    eapply (wf_drop_active _ k _ _ [id] Hw (bookkeeping_lookup _ _ _ Hk)); [apply NoDup_singleton| |].
    + intros i ->%list_elem_of_singleton. cbn. rewrite lookup_fmap, Ha. eauto.
    + cbn. rewrite fmap_delete. apply map_eq. intros i. rewrite lookup_delete, map_lookup_filter.
      case_decide as Hi.
      * subst. rewrite lookup_fmap, Ha. cbn. by rewrite option_guard_False by set_solver.
      * destruct ((plain_active <$> active st) !! i); cbn; [|done]. rewrite option_guard_True; set_solver.
  - cbn. apply (inv_set L k _ Hinv).
    repeat case_match; [by apply credit_ok|by apply overage_ok|by apply ok_active].
Qed.

Lemma inv_evict L k st :
  bucket_inv L -> keys L !! k = Some st -> is_empty st (capacity (config L)) = true -> bucket_inv (evict k L).
Proof.
  intros [Hc Hw Hb] Hk He. split; [done| |].
  - unfold evict, bookkeeping. cbn. rewrite fmap_delete.
    apply (wf_remove_empty _ k _ Hw (bookkeeping_lookup _ _ _ Hk)).
    unfold is_empty in He. apply andb_prop in He as [He _]. apply bool_decide_eq_true in He.
    unfold plain_state. by rewrite He.
  - cbn. intros k' st'. rewrite lookup_delete. case_decide; [done|]. apply Hb.
Qed.

Lemma cleanup_key_inv now n L k : bucket_inv L -> bucket_inv (cleanup_key now (n, L) k).2.
Proof.
  intros Hinv. unfold cleanup_key. destruct (keys L !! k) as [st|] eqn:Hk; [|done].
  destruct (reap now (config L) (refill now (config L) st)) as [st' ids] eqn:Hr.
  pose proof (inv_refill_reap L k st now st' ids Hinv Hk Hr) as Hinv1. cbn [snd].
  match goal with |- context [if ?x then _ else _] => destruct x eqn:He end; [|done].
  apply (inv_evict _ k st' Hinv1); [cbn; apply lookup_insert_eq|done].
Qed.

Lemma cleanup_inv L now n : bucket_inv L -> bucket_inv (cleanup now n L).2.
Proof.
  unfold cleanup. generalize 0 as z. generalize (take n (hash_iter (keys L)).*1) as ks.
  intros ks. revert L. induction ks as [|k ks IH]; intros L z Hwf; cbn [foldl]; [done|].
  pose proof (cleanup_key_inv now z L k Hwf). destruct (cleanup_key now (z, L) k). by apply IH.
Qed.
End Preservation.

(** * Runs *)

Section Frames.
Context `{!HashOrder N} `{!HashOrder string}.
Implicit Types (L : TokenBucketLedger).

Lemma bucket_cleanup_frame now n L :
  config (cleanup now n L).2 = config L /\ next_id (cleanup now n L).2 = next_id L.
Proof.
  unfold cleanup. generalize (take n (hash_iter (keys L)).*1) as ks. generalize 0 as z.
  intros z ks. revert z L. induction ks as [|k ks IH]; intros z L; cbn [foldl]; [done|].
  destruct (cleanup_key now (z, L) k) as [z' L'] eqn:E. destruct (IH z' L') as [-> ->].
  unfold cleanup_key in E. destruct (keys L !! k); [|by simplify_eq]. destruct (reap _ _ _).
  destruct (is_empty _ _); by simplify_eq.
Qed.

Lemma exec_frame o L :
  config (exec o L) = config L /\
  (next_id (exec o L) = next_id L \/ next_id (exec o L) = wrapping_add (next_id L) 1).
Proof.
  destruct o as [k est now|id a now|now n]; cbn [exec].
  - unfold reserve. destruct (_ || (est =? 0)); [auto|]. unfold get_or_create.
    destruct (keys L !! k); [|destruct (key_count L <? _); [|auto]]; destruct (reap _ _ _); repeat case_match; auto.
  - unfold reconcile. repeat case_match; cbn; auto.
  - destruct (bucket_cleanup_frame now n L). auto.
Qed.

Lemma exec_inv o L : bucket_inv L -> 0 < next_id L -> next_id L < u64_max -> bucket_inv (exec o L).
Proof.
  destruct o; cbn [exec]; intros; [by apply reserve_inv|by apply reconcile_inv|by apply cleanup_inv].
Qed.
End Frames.

Lemma bucket_steps_inv L os L' :
  bucket_steps L os L' -> bucket_inv L -> 0 < next_id L -> next_id L + N.of_nat (length os) <= u64_max ->
  bucket_inv L' /\ config L' = config L.
Proof.
  induction 1 as [L|hn hs L o os L' Hs IH]; cbn [length]; rewrite ?Nat2N.inj_succ; intros Hinv Hpos Hlen; [done|].
  destruct (exec_frame o L) as [Hc Hn]. rewrite wrapping_add_exact in Hn by lia.
  destruct IH as [Hi Hc']; [apply exec_inv; (done || lia)|destruct Hn; lia|destruct Hn; lia|]. by rewrite Hc', Hc.
Qed.

(** * Properties *)

(** C6. In every token-bucket ledger reached from a new one by fewer than
    [2^64 - 1] operations, whatever the timestamps, estimates and reported
    usages: every bucket's balance is a finite double that is not negative and
    not above the capacity, computed with IEEE rounding as the code does; and
    the key and reservation counters and the reservation index agree with the
    per-key states within their configured bounds. *)
Theorem bucket_balances_bounded c L0 os L :
  bucket_config_in_range c -> new c = Ok L0 -> bucket_steps L0 os L -> N.of_nat (length os) < u64_max ->
  wf (bookkeeping L) /\
  forall k st, keys L !! k = Some st ->
    is_finite (tokens st) = true /\ SFleb (f64_of_N 0) (tokens st) = true /\
    SFleb (tokens st) (f64_of_N (capacity c)) = true.
Proof.
  intros Hc Hn Hs Hlen. pose proof (new_inv c L0 Hc Hn) as Hinv.
  assert (next_id L0 = 1 /\ config L0 = c) as [H1 Hc0]
    by (unfold new in Hn; destruct (validate c) as [[]|]; [|done]; by simplify_eq).
  destruct (bucket_steps_inv _ _ _ Hs Hinv) as [[Hr Hw Hb] Hc']; [lia..|]. split; [done|].
  intros k st Hk. destruct (Hb k st Hk) as (u & Hu & Hle). rewrite Hc', Hc0 in *.
  pose proof (capacity_value c Hr) as Hcap. pose proof (of_Z_value 0 ltac:(lia)) as H0.
  split; [apply Hu|]. by split; eapply leb_value; eauto; lia.
Qed.

(** A request that passes the first checks of [reserve]. *)
Definition well_formed_request (c : TokenBucketConfig) (k : string) (est : N) : Prop :=
  k <> ""%string /\ N.of_nat (String.length k) <= max_key_length c /\ 0 < est.

(** The bucket [reserve] looks at: the key's own, or a fresh one, refilled. *)
Definition bucket_at (L : TokenBucketLedger) (k : string) (now : N) : BucketState :=
  refill now (config L) (default (new_bucket (capacity (config L))) (keys L !! k)).

Definition whole_tokens (st : BucketState) : N := f64_to_u64 (f64_floor (tokens st)).

Lemma well_formed_request_test c k est :
  well_formed_request c k est ->
  bool_decide (k = ""%string) || (max_key_length c <? N.of_nat (String.length k)) || (est =? 0) = false.
Proof.
  intros (Hk & Hl & He). rewrite bool_decide_eq_false_2, (proj2 (N.ltb_ge _ _)), (proj2 (N.eqb_neq _ _)) by (done || lia).
  done.
Qed.

Section Tokens.
Local Open Scope Z_scope.

Lemma token_pos : 0 < token.
Proof. apply Z.pow_pos_nonneg; lia. Qed.

Lemma whole_tokens_value cap st u :
  Z.of_N cap <= 2 ^ 53 -> balance cap st u -> Z.of_N (whole_tokens st) = u / token /\ u / token <= Z.of_N cap.
Proof.
  intros Hc [Hu Hb]. pose proof token_pos. unfold whole_tokens.
  rewrite (floor_value _ _ Hu) by (fold token; nia). fold token.
  assert (0 <= u / token) by (apply Z.div_pos; lia). split; [lia|]. apply Z.div_le_upper_bound; lia.
Qed.

(** Comparing the doubles compares the estimate with the whole tokens. *)
Lemma gtb_whole_tokens cap st u est :
  Z.of_N cap <= 2 ^ 53 -> Z.of_N est <= 2 ^ 53 -> balance cap st u ->
  f64_gtb (f64_of_N est) (tokens st) = (whole_tokens st <? est)%N.
Proof.
  intros Hc He Hb. pose proof token_pos. destruct (whole_tokens_value cap st u Hc Hb) as [Hw _].
  destruct Hb as [(Vu & Fu & Nu & Uu) Hb].
  destruct (of_Z_value (Z.of_N est) ltac:(lia)) as (Ve & Fe & Ne & Ue). fold (f64_of_N est) token in *.
  unfold f64_gtb. rewrite ltb_units, Ue, Uu by done.
  assert (u < Z.of_N est * token <-> u / token < Z.of_N est) as Hiff.
  { split; [intros; apply Z.div_lt_upper_bound; lia|]. intros Hlt. apply Z.nle_gt. intros Hle.
    assert (Z.of_N est <= u / token) by (apply Z.div_le_lower_bound; lia). lia. }
  apply eq_true_iff_eq. rewrite Z.ltb_lt, N.ltb_lt, Hiff. lia.
Qed.
(** Debiting an admitted estimate is exact. *)
Lemma debit_exact cap st u est :
  Z.of_N cap <= 2 ^ 53 -> balance cap st u -> Z.of_N est * token <= u ->
  is_value (f64_sub (tokens st) (f64_of_N est)) (u - Z.of_N est * token).
Proof.
  intros Hc [Hu Hb] Hle. pose proof token_pos. assert (Z.of_N est <= 2 ^ 53) by nia.
  destruct (integral_difference _ _ (Z.of_N est) Hu) as [z Hz]; [fold token; nia|lia|done|].
  apply (sub_exact _ _ z); [done|apply of_Z_value; lia|done].
Qed.

End Tokens.

#[global] Arguments whole_tokens : simpl never.

(** The bucket after an admission: what is left and what is reported used. *)
Lemma debited_tokens c st u est t m :
  rate_ok c -> balance (capacity c) st u -> est <= whole_tokens st ->
  let st' := mkBucketState (f64_sub (tokens st) (f64_of_N est)) t m in
  balance (capacity c) st' (u - Z.of_N est * token) /\ whole_tokens st' = whole_tokens st - est.
Proof.
  intros Hr Hb Hle st'. pose proof (proj2 (rate_capacity c Hr)) as Hcap. pose proof token_pos.
  destruct (whole_tokens_value _ st u Hcap Hb) as [Hw _]. pose proof (Z.mul_div_le u token ltac:(done)).
  assert (Z.of_N est * token <= u)%Z as Hle' by nia. pose proof (debit_exact _ _ _ _ Hcap Hb Hle') as Hd.
  assert (balance (capacity c) st' (u - Z.of_N est * token)) as Hb' by (split; [done|]; destruct Hb as [_ Hb]; nia).
  split; [done|]. destruct (whole_tokens_value _ st' _ Hcap Hb') as [Hw' _].
  replace (u - Z.of_N est * token)%Z with (u + - Z.of_N est * token)%Z in Hw' by lia.
  rewrite Z.div_add in Hw' by lia. lia.
Qed.


Section Reserve.
Context `{!HashOrder N} `{!HashOrder string}.

Lemma reserve_known L L1 k st est now :
  well_formed_request (config L) k est -> get_or_create k L = Some (L1, st) ->
  let c := config L in
  let st' := (reap now c (refill now c st)).1 in
  let L2 := forget (reap now c (refill now c st)).2 (set_key k st' L1) in
  reserve k est now L =
    if f64_gtb (f64_of_N est) (tokens st') then
      (Denied (retry_after c (f64_sub (f64_of_N est) (tokens st'))) WindowCapacity (whole_tokens st'), L2)
    else if active_reservations L2 <? max_active_reservations c then
      let st'' := mkBucketState (f64_sub (tokens st') (f64_of_N est)) (last_refill_ms st')
                    (<[next_id L2 := mkActive est now]> (active st')) in
      (AdmittedAs (mkReservation (next_id L2) est now
         (f64_to_u64 (f64_max (f64_sub (f64_of_N (capacity c)) (tokens st'')) (f64_of_N 0))) (whole_tokens st'')),
       mkTokenBucketLedger c (<[k:=st'']> (keys L2)) (<[next_id L2:=k]> (reservations L2))
         (wrapping_add (next_id L2) 1) (key_count L2) (active_reservations L2 + 1))
    else (Denied (reservation_timeout_ms c) ReservationCapacity (whole_tokens st'), L2).
Proof.
  intros Hw Hg c st' L2. unfold reserve. rewrite well_formed_request_test, Hg by done.
  subst st' L2 c. by destruct (reap now (config L) (refill now (config L) st)) as [st' ids].
Qed.


(** A bucket that [cleanup] may forget holds exactly the capacity. *)
Lemma is_empty_full c st :
  rate_ok c -> bucket_ok (capacity c) st -> is_empty st (capacity c) = true ->
  active st = ∅ /\ tokens st = f64_of_N (capacity c).
Proof.
  intros Hr (u & Hu & Hb) He. apply andb_prop in He as [Ha Ht]. apply bool_decide_eq_true in Ha.
  pose proof (capacity_value c Hr) as Hc. pose proof (leb_value_inv _ _ _ _ Hc Hu Ht) as Hle.
  split; [done|]. apply (value_inj _ _ u); [done|by replace u with (Z.of_N (capacity c) * token)%Z by lia|].
  pose proof token_pos. pose proof (proj1 (rate_capacity c Hr)). nia.
Qed.

Lemma full_bucket_as_new c st now :
  rate_ok c -> active st = ∅ -> tokens st = f64_of_N (capacity c) -> last_refill_ms st <= now ->
  refill now c st = refill now c (new_bucket (capacity c)).
Proof.
  intros Hr Ha Ht Hl.
  assert (forall s, tokens s = f64_of_N (capacity c) -> active s = ∅ -> last_refill_ms s <= now ->
    refill now c s = mkBucketState (f64_of_N (capacity c)) now ∅) as Hs; [|by rewrite !Hs by (done || cbn; lia)].
  intros s Hst Hsa Hsl. pose proof (refill_full c now s Hr Hst) as Hf. pose proof (refill_active now c s) as Hfa.
  unfold refill, saturating_sub in *. destruct (N.ltb_spec 0 (now - last_refill_ms s)).
  - cbn [tokens] in Hf. by rewrite Hf, Hsa.
  - replace now with (last_refill_ms s) by lia. destruct s; cbn in *. by subst.
Qed.

(** Forgetting a key is unobservable: when [cleanup] may drop a key's
    bucket (no reservation pending, refilled to capacity), a later [reserve] on
    that key gives the same decision and leaves the same ledger whether the
    bucket was dropped or kept.  Dropping state therefore never grants tokens. *)
Theorem bucket_eviction_unobservable L k st est now :
  bucket_inv L -> keys L !! k = Some st -> is_empty st (capacity (config L)) = true ->
  last_refill_ms st <= now -> well_formed_request (config L) k est ->
  reserve k est now (evict k L) = reserve k est now L.
Proof.
  intros [Hr Hw Hb] Hk He Hl Hreq. destruct (is_empty_full _ _ Hr (Hb k st Hk) He) as [Ha Ht].
  assert (key_count L <> 0) as Hkc.
  { pose proof (wf_key_count _ Hw) as Hc. cbn in Hc. rewrite map_size_fmap in Hc.
    assert (size (keys L) <> 0%nat) by (rewrite map_size_ne_0_lookup; eauto). lia. }
  pose proof (wf_key_bound _ Hw) as Hkb. pose proof (proj1 (wf_width _ Hw)) as Hmax. cbn in Hkb, Hmax.
  assert (get_or_create k L = Some (L, st)) as Hg by (unfold get_or_create; by rewrite Hk).
  assert (get_or_create k (evict k L) = Some (mkTokenBucketLedger (config L)
    (<[k:=new_bucket (capacity (config L))]> (delete k (keys L))) (reservations L) (next_id L) (key_count L)
    (active_reservations L), new_bucket (capacity (config L)))) as Hg'.
  { unfold get_or_create, evict. cbn. rewrite lookup_delete_eq, wrapping_sub_exact by lia.
    rewrite (proj2 (N.ltb_lt _ _)) by lia. by rewrite N.sub_add by lia. }
  rewrite (reserve_known L L k st est now Hreq Hg), (reserve_known (evict k L) _ k _ est now Hreq Hg').
  change (config (evict k L)) with (config L). rewrite <- (full_bucket_as_new _ st now Hr Ha Ht Hl).
  unfold set_key, forget. cbn. by rewrite insert_insert_eq, insert_delete_eq.
Qed.

(** The settled balance: [est] was debited exactly from [u], then the
    difference to the actual usage is credited or debited. *)
Lemma settled_tokens c st u est a t m :
  rate_ok c -> balance (capacity c) st u -> est <= whole_tokens st -> a <= MAX_F64_SAFE_INTEGER ->
  let t0 := f64_sub (tokens st) (f64_of_N est) in
  let t1 :=
    if 0 <? saturating_sub est a then f64_min (f64_add t0 (f64_of_N (saturating_sub est a))) (f64_of_N (capacity c))
    else if 0 <? saturating_sub a est then f64_max (f64_sub t0 (f64_of_N (saturating_sub a est))) (f64_of_N 0)
    else t0 in
  whole_tokens (mkBucketState t1 t m) = whole_tokens st - a.
Proof.
  intros Hr Hb Hle Ha t0. pose proof (proj2 (rate_capacity c Hr)) as Hcap. pose proof token_pos.
  change MAX_F64_SAFE_INTEGER with (Z.to_N (2 ^ 53)) in Ha. unfold saturating_sub.
  destruct (debited_tokens c st u est t m Hr Hb Hle) as [Hb0 Hw0]. cbn zeta in Hb0, Hw0. fold t0 in Hb0, Hw0.
  assert (is_value t0 (u - Z.of_N est * token)) as Ht0 by apply Hb0.
  destruct (whole_tokens_value _ st u Hcap Hb) as [Hw Hwc]. pose proof (Z.mul_div_le u token ltac:(done)).
  destruct (N.ltb_spec 0 (est - a)) as [Hlt|Hge]; [|destruct (N.ltb_spec 0 (a - est)) as [Hlt'|Hge']].
  - assert (a <= whole_tokens st) as Haw by lia.
    destruct (debited_tokens c st u a t m Hr Hb Haw) as [Hba Hwa]. cbn zeta in Hba, Hwa.
    assert (is_value (f64_of_N (est - a)) (Z.of_N (est - a) * token)) as Hrv by (apply of_Z_value; lia).
    assert (u - Z.of_N est * token + Z.of_N (est - a) * token = u - Z.of_N a * token)%Z as Hsum
      by (rewrite N2Z.inj_sub by lia; lia).
    pose proof (add_exact t0 (f64_of_N (est - a)) _ _ _ Ht0 Hrv ltac:(rewrite Hsum; apply Hba)) as Hadd.
    rewrite Hsum in Hadd. rewrite <- Hwa. unfold whole_tokens. cbn [tokens].
    rewrite (min_keep _ _ _ _ Hadd (capacity_value c Hr) (proj2 (proj2 Hba))).
    destruct Hba as [Hba Hbb]. cbn [tokens] in Hba. change MAX_F64_SAFE_INTEGER with (Z.to_N (2 ^ 53)) in *.
    by rewrite (floor_value _ _ Hba), (floor_value _ _ Hadd) by (fold token; nia).
  - assert (is_value (f64_of_N (a - est)) (Z.of_N (a - est) * token)) as Hov by (apply of_Z_value; lia).
    change (f64_of_N 0) with (S754_zero false).
    destruct (Z.le_gt_cases (Z.of_N (a - est) * token) (u - Z.of_N est * token)) as [Hcov|Hshort].
    + rewrite (sub_floor_pos _ _ _ _ Ht0 Hov Hcov).
      assert (a - est <= whole_tokens (mkBucketState t0 t m)) as Hle'.
      { destruct (whole_tokens_value _ _ _ Hcap Hb0) as [Hw0' _]. apply N2Z.inj_le. rewrite Hw0'.
        apply Z.div_le_lower_bound; lia. }
      destruct (debited_tokens c _ _ (a - est) t m Hr Hb0 Hle') as [_ Hwd]. cbn [tokens] in Hwd.
      rewrite Hwd, Hw0. lia.
    + pose proof (sub_floor_zero _ _ _ _ Ht0 Hov Hshort) as Hz. unfold whole_tokens at 1. cbn [tokens].
      rewrite (floor_value _ _ Hz) by (fold token; nia). change (Z.to_N (0 / 2 ^ 1074)) with 0.
      assert (whole_tokens st < a); [|lia]. apply N2Z.inj_lt. rewrite Hw. apply Z.div_lt_upper_bound; nia.
  - rewrite Hw0. lia.
Qed.

Lemma reap_refilled now c st : last_refill_ms (refill now c st) < now -> False.
Proof. unfold refill, saturating_sub. destruct (N.ltb_spec 0 (now - last_refill_ms st)); cbn; lia. Qed.

Lemma refill_idle now c st : now <= last_refill_ms st -> refill now c st = st.
Proof. intros H. unfold refill, saturating_sub. by rewrite (proj2 (N.ltb_ge _ _)) by lia. Qed.

Lemma reserve_admitted L k est now r L' :
  reserve k est now L = (AdmittedAs r, L') ->
  well_formed_request (config L) k est /\ exists L1 st, get_or_create k L = Some (L1, st).
Proof.
  unfold reserve. destruct (_ || (est =? 0)) eqn:Ht; [done|]. destruct (get_or_create k L) as [[L1 st]|]; [|done].
  intros _. split; [|eauto]. apply orb_false_elim in Ht as [Ht He]. apply orb_false_elim in Ht as [Hk Hl].
  apply bool_decide_eq_false in Hk. apply N.ltb_ge in Hl. apply N.eqb_neq in He. split_and!; [done|done|lia].
Qed.

(** Settlement charges exactly the actual usage, once: an admitted
    reservation of [est] tokens that is reconciled with [a] tokens of usage
    before time advances leaves the key with the whole tokens it had minus [a]
    (or none), whether [a] is below, above or equal to the estimate, although
    the balance went through two rounded operations; every later reconciliation
    of the same reservation changes nothing. *)
Theorem bucket_settlement_exact L k est now r L' a :
  bucket_inv L -> est <= MAX_F64_SAFE_INTEGER -> a <= MAX_F64_SAFE_INTEGER ->
  reserve k est now L = (AdmittedAs r, L') ->
  exists st L'',
    reconcile (res_id r) (Some a) now L' = (Applied a (est - a) (a - est), L'') /\
    keys L'' !! k = Some st /\ whole_tokens st = whole_tokens (bucket_at L k now) - a /\
    forall a' now', reconcile (res_id r) a' now' L'' = (Noop, L'').
Proof.
  intros Hinv Hest Ha Hres. destruct (reserve_admitted _ _ _ _ _ _ Hres) as (Hreq & L1 & st & Hg).
  pose proof (inv_rate _ Hinv) as Hr. pose proof (proj2 (rate_capacity _ Hr)) as Hcap.
  destruct (get_or_create_inv _ _ _ _ Hinv Hg) as (Hinv1 & Hk1 & Hc1 & _ & Hst).
  rewrite (reserve_known L L1 k st est now Hreq Hg) in Hres. cbn zeta in Hres.
  set (st' := (reap now (config L) (refill now (config L) st)).1) in *.
  assert (last_refill_ms st' = last_refill_ms (refill now (config L) st)) as Hlast by done.
  pose proof (reap_refilled now (config L) st) as Hnow. rewrite <- Hlast in Hnow.
  assert (bucket_ok (capacity (config L)) st') as (u & Hu).
  { apply ok_active, refill_ok; [done|]. rewrite <- Hc1. by apply (inv_balance _ Hinv1 k). }
  assert (whole_tokens st' = whole_tokens (bucket_at L k now)) as Hwt by (unfold bucket_at; by rewrite <- Hst).
  destruct (f64_gtb (f64_of_N est) (tokens st')) eqn:Hgt; [done|].
  assert (est <= whole_tokens st') as Hle.
  { rewrite (gtb_whole_tokens _ st' u est Hcap) in Hgt; [by apply N.ltb_ge in Hgt| |done].
    change MAX_F64_SAFE_INTEGER with (Z.to_N (2 ^ 53)) in Hest. lia. }
  destruct (_ <? max_active_reservations (config L)); [|done]. injection Hres as <- <-.
  eexists _, _. unfold reconcile at 1. cbn [res_id reservations keys config]. rewrite !lookup_insert_eq.
  cbn [active]. rewrite lookup_insert_eq. cbn [estimate default]. split; [done|].
  cbn [set_key keys]. rewrite lookup_insert_eq. split; [done|].
  rewrite refill_idle by (cbn [last_refill_ms]; lia). cbn [tokens]. split.
  - rewrite <- Hwt. by apply (settled_tokens (config L) st' u est a).
  - intros a' now'. unfold reconcile. cbn [reservations set_key]. by rewrite lookup_delete_eq.
Qed.
End Reserve.

(** * Witnesses *)

Definition bucket_example_config : TokenBucketConfig := mkTokenBucketConfig 100 (f64_of_N 10) 5000 4 64 8.
Definition bucket_example : TokenBucketLedger := mkTokenBucketLedger bucket_example_config ∅ ∅ 1 0 0.

#[local] Existing Instance list_order.

Definition bucket_example_run : list op :=
  [OpReserve "alice" 60 1000; OpReserve "alice" 60 1500; OpReconcile 1 (Some 250) 2000; OpCleanup 90000 8].

Lemma bucket_steps_exec os L : bucket_steps L os (foldl (fun L o => exec o L) L os).
Proof. revert L. induction os as [|o os IH]; intros L; econstructor. apply IH. Qed.

Lemma bucket_example_range : bucket_config_in_range bucket_example_config.
Proof. split_and!; [reflexivity|vm_compute; discriminate..]. Qed.

Lemma bucket_example_inv : bucket_inv bucket_example.
Proof. apply (new_inv bucket_example_config); [apply bucket_example_range|reflexivity]. Qed.

Lemma bucket_balances_bounded_witness :
  wf (bookkeeping (foldl (fun L o => exec o L) bucket_example (take 3 bucket_example_run))) /\
  keys (foldl (fun L o => exec o L) bucket_example (take 3 bucket_example_run)) !! "alice"%string =
    Some (mkBucketState (f64_of_N 0) 2000 ∅).
Proof.
  split; [|vm_compute; reflexivity].
  apply (bucket_balances_bounded bucket_example_config bucket_example (take 3 bucket_example_run)).
  - apply bucket_example_range.
  - reflexivity.
  - apply bucket_steps_exec.
  - vm_compute. reflexivity.
Defined.


(** A ledger with one full bucket: a denied request creates the key. *)
Definition bucket_filled : TokenBucketLedger := exec (OpReserve "alice" 101 0) bucket_example.

Lemma bucket_filled_inv : bucket_inv bucket_filled.
Proof. apply exec_inv; [apply bucket_example_inv|vm_compute; reflexivity..]. Qed.

Lemma bucket_eviction_unobservable_witness :
  reserve "alice" 30 20000 (evict "alice" bucket_filled) = reserve "alice" 30 20000 bucket_filled.
Proof.
  apply (bucket_eviction_unobservable bucket_filled "alice" (new_bucket 100)).
  - apply bucket_filled_inv.
  - reflexivity.
  - vm_compute. reflexivity.
  - vm_compute. discriminate.
  - split_and!; [done|vm_compute; discriminate|lia].
Defined.

Lemma bucket_settlement_exact_witness :
  exists r L' st L'',
    reserve "alice" 60 1000 bucket_example = (AdmittedAs r, L') /\
    reconcile (res_id r) (Some 75) 1000 L' = (Applied 75 0 15, L'') /\
    keys L'' !! "alice"%string = Some st /\ whole_tokens st = 25.
Proof.
  destruct (reserve "alice" 60 1000 bucket_example) as [[r|? ? ?] L'] eqn:E;
    [|exfalso; vm_compute in E; discriminate].
  destruct (bucket_settlement_exact bucket_example "alice" 60 1000 r L' 75 bucket_example_inv)
    as (st & L'' & H1 & H2 & H3 & _); [vm_compute; discriminate..|exact E|].
  exists r, L', st, L''. split_and!; [done|exact H1|exact H2|]. rewrite H3. vm_compute. reflexivity.
Defined.
