(* ===== verification/QuotaBackend.v ===== *)
(** State backends of the token rate limiter
    ([filters/src/token_rate_limit/backend.rs]).

    The trait is the class [StateBackend] over the type of the backend's state;
    a method gives its result and the state after it.  The two in-process
    backends are instances.  [QuotaLaws] states what the filter relies on; the
    laws of the in-process backends are proved in [QuotaBackendProps]. *)

From S2P Require Import Prelude Float64 Ledger TokenBucket.

Local Open Scope N_scope.

Record ReserveRequest := mkReserveRequest { rq_key : string; rq_estimate : N; rq_now_ms : N }.

Record ReconcileRequest := mkReconcileRequest {
  rc_key : string;
  rc_reservation_id : N;
  rc_actual : option N;
  rc_now_ms : N
}.

Inductive BackendReserve :=
| BackendAdmitted (reservation_id estimate usage_after remaining : N)
| BackendDenied (retry_after_ms : N) (reason : DenialReason) (remaining : N).

Definition reserve_remaining (r : BackendReserve) : N :=
  match r with BackendAdmitted _ _ _ remaining => remaining | BackendDenied _ _ remaining => remaining end.

Inductive BackendSettlement := SettlementApplied (actual refund overage : N) | SettlementNoop.

Record BackendSnapshot := mkSnapshot {
  budget_remaining : N;
  snap_active_reservations : N;
  snap_active_keys : N
}.

Inductive BackendError := Unavailable (detail : string) | InvalidResponse | ConfigurationMismatch.

Record CleanupReport := mkCleanupReport { orphaned : N; report_active_reservations : N; report_active_keys : N }.

Definition MAX_REPORTED_REMAINING : N := 9007199254740991.

(** [TokenRateLimitStateBackend].  The default bodies of [reconcile_sync] and
    [cleanup] answer [None]. *)
Class StateBackend (S : Type) := {
  backend_reserve : ReserveRequest -> S -> result BackendError BackendReserve * S;
  backend_reconcile : ReconcileRequest -> S -> result BackendError BackendSettlement * S;
  enqueue_reconcile : ReconcileRequest -> S -> result BackendError unit * S;
  backend_limit : S -> N;
  snapshot : S -> BackendSnapshot;
  reconcile_sync : ReconcileRequest -> S -> option (BackendSettlement * S);
  backend_cleanup : N -> nat -> S -> option (CleanupReport * S)
}.

(** * In-process backends *)

Record InMemoryTokenRateLimitBackend := mkWindowBackend { window_ledger : Ledger; window_last_remaining : N }.
Record InMemoryTokenBucketBackend := mkBucketBackend { bucket_ledger : TokenBucketLedger; bucket_last_remaining : N }.

Definition window_backend_new (l : Ledger) : InMemoryTokenRateLimitBackend := mkWindowBackend l 0.
Definition bucket_backend_new (l : TokenBucketLedger) : InMemoryTokenBucketBackend := mkBucketBackend l 0.

Section InMemory.
Context `{!HashOrder N, !HashOrder string}.

Definition window_reserve (r : ReserveRequest) (b : InMemoryTokenRateLimitBackend)
    : result BackendError BackendReserve * InMemoryTokenRateLimitBackend :=
  let '(decision, l) := Ledger.reserve (rq_key r) (rq_estimate r) (rq_now_ms r) (window_ledger b) in
  let reply :=
    match decision with
    | Ledger.AdmittedAs x => BackendAdmitted (Ledger.res_id x) (Ledger.res_estimate x) (Ledger.usage_after x) (Ledger.remaining x)
    | Ledger.Denied retry reason remaining => BackendDenied retry reason remaining
    end in
  (Ok reply, mkWindowBackend l (reserve_remaining reply)).

Definition window_settle (r : ReconcileRequest) (b : InMemoryTokenRateLimitBackend)
    : BackendSettlement * InMemoryTokenRateLimitBackend :=
  let '(settlement, l) := Ledger.reconcile (rc_reservation_id r) (rc_actual r) (rc_now_ms r) (window_ledger b) in
  (match settlement with
   | Ledger.Applied actual refund overage => SettlementApplied actual refund overage
   | Ledger.Noop => SettlementNoop
   end, mkWindowBackend l (window_last_remaining b)).

Definition window_snapshot (b : InMemoryTokenRateLimitBackend) : BackendSnapshot :=
  mkSnapshot (N.min (window_last_remaining b) MAX_REPORTED_REMAINING) (Ledger.active_count (window_ledger b))
    (Ledger.retained_keys (window_ledger b)).

Definition window_cleanup (now : N) (scan : nat) (b : InMemoryTokenRateLimitBackend)
    : option (CleanupReport * InMemoryTokenRateLimitBackend) :=
  let '(orphans, l) := Ledger.cleanup now scan (window_ledger b) in
  Some (mkCleanupReport orphans (Ledger.active_count l) (Ledger.retained_keys l), mkWindowBackend l (window_last_remaining b)).

#[export] Instance window_backend : StateBackend InMemoryTokenRateLimitBackend := {|
  backend_reserve := window_reserve;
  backend_reconcile r b := let '(s, b) := window_settle r b in (Ok s, b);
  enqueue_reconcile r b := let '(_, b) := window_settle r b in (Ok tt, b);
  backend_limit b := Ledger.limit (Ledger.config (window_ledger b));
  snapshot := window_snapshot;
  reconcile_sync r b := Some (window_settle r b);
  backend_cleanup := window_cleanup
|}.

Definition bucket_reserve (r : ReserveRequest) (b : InMemoryTokenBucketBackend)
    : result BackendError BackendReserve * InMemoryTokenBucketBackend :=
  let '(decision, l) := TokenBucket.reserve (rq_key r) (rq_estimate r) (rq_now_ms r) (bucket_ledger b) in
  let reply :=
    match decision with
    | TokenBucket.AdmittedAs x =>
        BackendAdmitted (TokenBucket.res_id x) (TokenBucket.res_estimate x) (TokenBucket.usage_after x) (TokenBucket.remaining x)
    | TokenBucket.Denied retry reason remaining => BackendDenied retry reason remaining
    end in
  (Ok reply, mkBucketBackend l (reserve_remaining reply)).

(** [reconcile_ledger]. *)
Definition bucket_settle (r : ReconcileRequest) (b : InMemoryTokenBucketBackend)
    : BackendSettlement * InMemoryTokenBucketBackend :=
  let '(settlement, l) := TokenBucket.reconcile (rc_reservation_id r) (rc_actual r) (rc_now_ms r) (bucket_ledger b) in
  (match settlement with
   | TokenBucket.Applied actual refund overage => SettlementApplied actual refund overage
   | TokenBucket.Noop => SettlementNoop
   end, mkBucketBackend l (bucket_last_remaining b)).

Definition bucket_snapshot (b : InMemoryTokenBucketBackend) : BackendSnapshot :=
  mkSnapshot (N.min (bucket_last_remaining b) MAX_REPORTED_REMAINING) (TokenBucket.active_count (bucket_ledger b))
    (TokenBucket.retained_keys (bucket_ledger b)).

Definition bucket_cleanup (now : N) (scan : nat) (b : InMemoryTokenBucketBackend)
    : option (CleanupReport * InMemoryTokenBucketBackend) :=
  let '(orphans, l) := TokenBucket.cleanup now scan (bucket_ledger b) in
  Some (mkCleanupReport orphans (TokenBucket.active_count l) (TokenBucket.retained_keys l), mkBucketBackend l (bucket_last_remaining b)).

#[export] Instance bucket_backend : StateBackend InMemoryTokenBucketBackend := {|
  backend_reserve := bucket_reserve;
  backend_reconcile r b := let '(s, b) := bucket_settle r b in (Ok s, b);
  enqueue_reconcile r b := let '(_, b) := bucket_settle r b in (Ok tt, b);
  backend_limit b := TokenBucket.limit (bucket_ledger b);
  snapshot := bucket_snapshot;
  reconcile_sync r b := Some (bucket_settle r b);
  backend_cleanup := bucket_cleanup
|}.
End InMemory.

(** * Dynamic dispatch *)

(** [Arc<dyn TokenRateLimitStateBackend>] over two implementations. *)
#[export] Instance sum_backend {A B} `{!StateBackend A, !StateBackend B} : StateBackend (A + B) := {|
  backend_reserve r s :=
    match s with inl a => prod_map id inl (backend_reserve r a) | inr b => prod_map id inr (backend_reserve r b) end;
  backend_reconcile r s :=
    match s with inl a => prod_map id inl (backend_reconcile r a) | inr b => prod_map id inr (backend_reconcile r b) end;
  enqueue_reconcile r s :=
    match s with inl a => prod_map id inl (enqueue_reconcile r a) | inr b => prod_map id inr (enqueue_reconcile r b) end;
  backend_limit s := match s with inl a => backend_limit a | inr b => backend_limit b end;
  snapshot s := match s with inl a => snapshot a | inr b => snapshot b end;
  reconcile_sync r s :=
    match s with inl a => prod_map id inl <$> reconcile_sync r a | inr b => prod_map id inr <$> reconcile_sync r b end;
  backend_cleanup now n s :=
    match s with inl a => prod_map id inl <$> backend_cleanup now n a | inr b => prod_map id inr <$> backend_cleanup now n b end
|}.

(** * The background worker of remote backends *)

(** [run_reconcile_worker] on one request: at most three attempts, the delays
    between them left out; [None] when it is abandoned. *)
Fixpoint reconcile_attempts {S} `{!StateBackend S} (retries : nat) (r : ReconcileRequest) (s : S)
    : option BackendSettlement * S :=
  match backend_reconcile r s with
  | (Ok settlement, s) => (Some settlement, s)
  | (Err _, s) => match retries with O => (None, s) | S retries => reconcile_attempts retries r s end
  end.

Definition run_reconcile_worker {S} `{!StateBackend S} (queue : list ReconcileRequest) (s : S)
    : list (option BackendSettlement) * S :=
  foldl (fun '(out, s) r => let '(o, s) := reconcile_attempts 2 r s in (out ++ [o], s)) ([], s) queue.

(** [ReconcileWorker]: the bounded queue, and whether the worker was started and
    is still receiving. *)
Record ReconcileWorker := mkWorker { w_queue : list ReconcileRequest; w_bound : nat; w_receiver : bool; w_started : bool }.

Definition worker_new : ReconcileWorker := mkWorker [] 1024 true false.
(** The receiver of a detached worker is dropped at once. *)
Definition worker_detached : ReconcileWorker := mkWorker [] 1 false false.

(** [enqueue]: [try_send] fails when the queue is full or the receiver gone. *)
Definition enqueue (r : ReconcileRequest) (w : ReconcileWorker) : result BackendError unit * ReconcileWorker :=
  if w_receiver w && (length (w_queue w) <? w_bound w)%nat
  then (Ok tt, mkWorker (w_queue w ++ [r]) (w_bound w) (w_receiver w) (w_started w))
  else (Err (Unavailable "reconciliation queue is full or stopped"), w).

(** * What the filter relies on *)

Record Pending := mkPending { p_key : string; p_estimate : N; p_created_ms : N }.

(** [pending] are the reservations not settled yet, [issued] bounds the
    identifiers handed out, [lifetime] is the reservation timeout.  A
    reservation may disappear before it is settled only when it has lapsed;
    handing a settlement over ([enqueue_reconcile]) touches no reservation but
    its own. *)
Class QuotaLaws (S : Type) `{!StateBackend S} := {
  backend_ok : S -> Prop;
  pending : S -> N -> option Pending;
  issued : S -> N;
  lifetime : S -> N;
  pending_issued : forall s id p, backend_ok s -> pending s id = Some p -> id < issued s;
  reserve_law : forall r s o s',
    backend_ok s -> issued s < u64_max -> backend_reserve r s = (o, s') ->
    backend_ok s' /\ lifetime s' = lifetime s /\
    (forall id p, pending s id = Some p -> pending s' id = Some p \/ lifetime s <= rq_now_ms r - p_created_ms p) /\
    (forall id p, id < issued s -> pending s' id = Some p -> pending s id = Some p) /\
    match o with
    | Ok (BackendAdmitted id est _ _) =>
        id = issued s /\ issued s' = issued s + 1 /\ est = rq_estimate r /\
        pending s' id = Some (mkPending (rq_key r) (rq_estimate r) (rq_now_ms r))
    | _ => issued s' = issued s
    end;
  settle_law : forall r s o s',
    backend_ok s -> reconcile_sync r s = Some (o, s') ->
    backend_ok s' /\ lifetime s' = lifetime s /\ issued s' = issued s /\
    pending s' (rc_reservation_id r) = None /\
    (forall id p, id <> rc_reservation_id r -> pending s id = Some p ->
      pending s' id = Some p \/ lifetime s <= rc_now_ms r - p_created_ms p) /\
    (forall id p, pending s' id = Some p -> pending s id = Some p) /\
    o = match pending s (rc_reservation_id r) with
        | Some p => let a := default (p_estimate p) (rc_actual r) in
                    SettlementApplied a (p_estimate p - a) (a - p_estimate p)
        | None => SettlementNoop
        end;
  cleanup_law : forall now n s o s',
    backend_ok s -> backend_cleanup now n s = Some (o, s') ->
    backend_ok s' /\ lifetime s' = lifetime s /\ issued s' = issued s /\
    (forall id p, pending s id = Some p -> pending s' id = Some p \/ lifetime s <= now - p_created_ms p) /\
    (forall id p, pending s' id = Some p -> pending s id = Some p);
  enqueue_law : forall r s o s',
    backend_ok s -> enqueue_reconcile r s = (o, s') ->
    backend_ok s' /\ lifetime s' = lifetime s /\ issued s' = issued s /\
    (forall id p, id <> rc_reservation_id r -> pending s id = Some p ->
      pending s' id = Some p \/ lifetime s <= rc_now_ms r - p_created_ms p)
}.
