(* ===== verification/QuotaBackendProps.v ===== *)
(** The in-process backends satisfy the laws of [QuotaLaws], by the invariants of
    the two ledgers. *)

From S2P Require Import Prelude Float64 Ledger LedgerInvariants TokenBucket TokenBucketProps QuotaBackend.

Local Open Scope N_scope.

(** * Reservations recorded in a ledger *)

Definition act (L : Ledger) (k : string) (id : N) : option Ledger.ActiveReservation :=
  st ← Ledger.keys L !! k; Ledger.active st !! id.

Definition pending_of (k : string) (r : Ledger.ActiveReservation) : Pending :=
  mkPending k (Ledger.estimate r) (Ledger.created_at_ms r).

Definition ledger_pending (L : Ledger) (id : N) : option Pending :=
  k ← Ledger.reservations L !! id; r ← act L k id; Some (pending_of k r).

Lemma ledger_pending_spec L id p :
  wf L -> ledger_pending L id = Some p <-> exists k r, p = pending_of k r /\ act L k id = Some r.
Proof.
  intros Hwf. unfold ledger_pending. split.
  - intros (k & _ & (r & Hr & [= <-])%bind_Some)%bind_Some. eauto.
  - intros (k & r & -> & Ha). assert (Ledger.reservations L !! id = Some k) as ->.
    { apply (wf_index L Hwf). unfold act in Ha. apply bind_Some in Ha as (st & ? & ?). eauto. }
    cbn. by rewrite Ha.
Qed.

Lemma act_issued L k id r : wf L -> act L k id = Some r -> id < Ledger.next_id L.
Proof.
  intros Hwf (st & Hk & Ha)%bind_Some. eapply (wf_ids L Hwf id k). apply (wf_index L Hwf). eauto.
Qed.

(** [L'] keeps the reservations of [L] that have not lapsed at [now], and has no
    other ones but [extra]. *)
Record kept (now : N) (L L' : Ledger) (gone : N -> Prop) (extra : option (string * N * Ledger.ActiveReservation)) : Prop := mkKept {
  kept_old : forall k id r, act L k id = Some r -> act L' k id = Some r \/ expired (Ledger.config L) now r = true \/ gone id;
  kept_new : forall k id r, act L' k id = Some r -> act L k id = Some r \/ extra = Some (k, id, r);
  kept_config : Ledger.config L' = Ledger.config L
}.

Lemma kept_refl now L : kept now L L (fun _ => False) None.
Proof. split; auto. Qed.

Lemma kept_trans now L1 L2 L3 extra :
  kept now L1 L2 (fun _ => False) None -> kept now L2 L3 (fun _ => False) extra -> kept now L1 L3 (fun _ => False) extra.
Proof.
  intros [O1 N1 C1] [O2 N2 C2]. split; [| |congruence].
  - intros k id r Ha. destruct (O1 _ _ _ Ha) as [H|[H|[]]]; [|auto]. rewrite <- C1. auto.
  - intros k id r Ha. destruct (N2 _ _ _ Ha) as [H|H]; [|auto]. destruct (N1 _ _ _ H) as [?|[=]]; auto.
Qed.

(** Replacing the state of one key by what [reap] leaves of it. *)
Lemma kept_set now L L' k st st' (ids : list N) :
  Ledger.keys L !! k = Some st -> Ledger.keys L' = <[k := st']> (Ledger.keys L) -> Ledger.config L' = Ledger.config L ->
  Ledger.active st' = filter (fun p => p.1 ∉ ids) (Ledger.active st) ->
  (forall id, id ∈ ids -> exists r, Ledger.active st !! id = Some r /\ expired (Ledger.config L) now r = true) ->
  kept now L L' (fun _ => False) None.
Proof.
  intros Hk HL Hc Ha Hids. split; [| |done].
  - intros k' id r. unfold act. rewrite HL, lookup_insert. case_decide as E; [|by auto]. subst k'. rewrite Hk. cbn. intros Hr.
    rewrite Ha, map_lookup_filter, Hr. cbn. destruct (decide (id ∈ ids)) as [Hin|Hin].
    + destruct (Hids id Hin) as (r' & Hr' & He). right. left. congruence.
    + rewrite option_guard_True by done. auto.
  - intros k' id r. unfold act. rewrite HL, lookup_insert. case_decide as E; [|by auto]. subst k'. rewrite Hk. cbn.
    rewrite Ha. intros [Hr _]%map_lookup_filter_Some. auto.
Qed.

Lemma kept_create now L L' k st' :
  Ledger.keys L !! k = None -> Ledger.keys L' = <[k := st']> (Ledger.keys L) -> Ledger.config L' = Ledger.config L ->
  Ledger.active st' = ∅ -> kept now L L' (fun _ => False) None.
Proof.
  intros Hk HL Hc Ha. split; [| |done]; intros k' id r; unfold act; rewrite HL, lookup_insert; case_decide as E; try by auto.
  - subst k'. by rewrite Hk.
  - subst k'. cbn. by rewrite Ha, lookup_empty.
Qed.

Lemma kept_delete now L L' k st :
  Ledger.keys L !! k = Some st -> Ledger.keys L' = delete k (Ledger.keys L) -> Ledger.config L' = Ledger.config L ->
  Ledger.active st = ∅ -> kept now L L' (fun _ => False) None.
Proof.
  intros Hk HL Hc Ha. split; [| |done]; intros k' id r; unfold act; rewrite HL, lookup_delete; case_decide as E; try by auto.
  subst k'. rewrite Hk. cbn. by rewrite Ha, lookup_empty.
Qed.

(** Recording a fresh reservation. *)
Lemma kept_admit now L L' k st st' id r :
  (forall k', act L k' id = None) -> Ledger.keys L !! k = Some st -> Ledger.keys L' = <[k := st']> (Ledger.keys L) ->
  Ledger.config L' = Ledger.config L -> Ledger.active st' = <[id := r]> (Ledger.active st) ->
  kept now L L' (fun _ => False) (Some (k, id, r)).
Proof.
  intros Hf Hk HL Hc Ha. specialize (Hf k). unfold act in Hf. rewrite Hk in Hf. cbn in Hf.
  split; [| |done]; intros k' i x; unfold act; rewrite HL, lookup_insert; case_decide as E; try by auto.
  - subst k'. rewrite Hk. cbn. rewrite Ha. intros Hx. left. rewrite lookup_insert_ne; congruence.
  - subst k'. rewrite Hk. cbn. rewrite Ha, lookup_insert. case_decide; [|by auto]. intros [= <-]. subst. auto.
Qed.

(** Settling one reservation. *)
Lemma kept_settle now L L' k st st' id :
  wf L -> Ledger.keys L !! k = Some st -> is_Some (Ledger.active st !! id) ->
  Ledger.keys L' = <[k := st']> (Ledger.keys L) ->
  Ledger.config L' = Ledger.config L -> Ledger.active st' = delete id (Ledger.active st) ->
  kept now L L' (fun i => i = id) None /\ forall k', act L' k' id = None.
Proof.
  intros Hwf Hk [x Hx] HL Hc Ha. split; [split; [| |done]|]; intros k'; unfold act; rewrite HL; setoid_rewrite lookup_insert;
    case_decide as E; try by auto.
  - subst k'. rewrite Hk. cbn. intros i y Hy. rewrite Ha, lookup_delete. case_decide; auto.
  - subst k'. rewrite Hk. cbn. intros i y. rewrite Ha, lookup_delete. case_decide; [done|auto].
  - subst k'. cbn. by rewrite Ha, lookup_delete_eq.
  - destruct (Ledger.keys L !! k') as [s|] eqn:Es; [|done]. cbn. destruct (Ledger.active s !! id) eqn:E'; [|done].
    exfalso. apply E. eapply (wf_active_unique L k k'); eauto.
Qed.

(** * The sliding-window ledger *)

Section Window.
Context `{!HashOrder N, !HashOrder string}.

Lemma window_reap_kept now L L' k st st' ids :
  Ledger.keys L !! k = Some st -> Ledger.reap now (Ledger.config L) st = (st', ids) ->
  Ledger.keys L' = <[k := st']> (Ledger.keys L) -> Ledger.config L' = Ledger.config L ->
  kept now L L' (fun _ => False) None.
Proof.
  intros Hk Hr HL Hc. assert (st' = (Ledger.reap now (Ledger.config L) st).1) as -> by (by rewrite Hr).
  eapply kept_set; [done|done|done|apply reap_active|]. intros id (r & Ha & He)%elem_of_expired_ids. eauto.
Qed.

Lemma window_reserve_kept L k est now d L' :
  wf L -> Ledger.reserve k est now L = (d, L') ->
  kept now L L' (fun _ => False)
    match d with Ledger.AdmittedAs _ => Some (k, Ledger.next_id L, Ledger.mkActive est now) | _ => None end /\
  match d with
  | Ledger.AdmittedAs r =>
      Ledger.res_id r = Ledger.next_id L /\ Ledger.res_estimate r = est /\
      Ledger.next_id L' = wrapping_add (Ledger.next_id L) 1 /\ act L' k (Ledger.next_id L) = Some (Ledger.mkActive est now)
  | _ => Ledger.next_id L' = Ledger.next_id L
  end.
Proof.
  intros Hwf. unfold Ledger.reserve. destruct (_ || (est =? 0)).
  { intros [= <- <-]. split; [apply kept_refl|done]. }
  destruct (Ledger.get_or_create k L) as [[L1 st]|] eqn:Hg; [|intros [= <- <-]; split; [apply kept_refl|done]].
  destruct (LedgerInvariants.get_or_create_wf _ _ _ _ Hwf Hg) as (Hwf1 & Hk1 & Hc1 & Hn1 & Hst).
  assert (kept now L L1 (fun _ => False) None) as K1.
  { unfold Ledger.get_or_create in Hg. destruct (Ledger.keys L !! k) eqn:E; [simplify_eq; apply kept_refl|].
    case_match; simplify_eq. by eapply kept_create. }
  rewrite <- Hc1. destruct (Ledger.reap now (Ledger.config L1) st) as [st' ids] eqn:Hr.
  pose proof (window_reap_kept now L1 (Ledger.forget ids (Ledger.set_key k st' L1)) k st st' ids Hk1 Hr eq_refl eq_refl) as K2.
  pose proof (kept_trans _ _ _ _ _ K1 K2) as K3. pose proof (wf_reap L1 k st now Hwf1 Hk1) as Hw2. rewrite Hr in Hw2.
  destruct Hw2 as [Hwf2 _]. set (L2 := Ledger.forget ids (Ledger.set_key k st' L1)) in *.
  assert (Ledger.next_id L2 = Ledger.next_id L) as Hn2 by done.
  destruct (scan_budgets _ _ _ _) as [[mu rem] ex]. destruct ex; [intros [= <- <-]; by split|].
  destruct (_ <? _); [|intros [= <- <-]; by split]. intros [= <- <-].
  assert (Ledger.keys L2 !! k = Some st') as Hk2 by (cbn; apply lookup_insert_eq). split.
  - eapply kept_trans; [exact K3|]. rewrite <- Hn2. eapply kept_admit; [|exact Hk2|reflexivity..].
    intros k'. destruct (act L2 k' (Ledger.next_id L2)) eqn:E; [|done]. apply act_issued in E; [lia|done].
  - rewrite <- Hn2. split_and!; [done..|]. unfold act. cbn. rewrite lookup_insert_eq. cbn. by rewrite lookup_insert_eq.
Qed.

Lemma window_reconcile_kept L id a now o L' :
  wf L -> Ledger.reconcile id a now L = (o, L') ->
  kept now L L' (fun i => i = id) None /\ (forall k, act L' k id = None) /\ Ledger.next_id L' = Ledger.next_id L /\
  o = match ledger_pending L id with
      | Some p => let x := default (p_estimate p) a in Ledger.Applied x (p_estimate p - x) (x - p_estimate p)
      | None => Ledger.Noop
      end.
Proof.
  intros Hwf. unfold Ledger.reconcile, ledger_pending. destruct (Ledger.reservations L !! id) as [k|] eqn:Hr.
  2:{ intros [= <- <-]. assert (forall k, act L k id = None) as Hn.
      { intros k. destruct (act L k id) as [r|] eqn:E; [|done]. apply bind_Some in E as (st & ? & ?).
        assert (Ledger.reservations L !! id = Some k); [|congruence]. apply (wf_index L Hwf). eauto. }
      split_and!; [|done..]. split; [by auto..|done]. }
  destruct (proj1 (wf_index L Hwf id k) Hr) as (st & r & Hk & Ha). cbn [Ledger.keys]. assert (act L k id = Some r) as Hact by (unfold act; by rewrite Hk). rewrite Hk, Ha.
  cbn [mbind option_bind]. rewrite Hact. cbn [mbind option_bind pending_of p_estimate].
  set (st1 := mkKeyState _ (delete id (Ledger.active st))).
  destruct (Ledger.reap now _ st1) as [st2 ids] eqn:Hr2. intros [= <- <-].
  set (L1 := Ledger.set_key k st1 L).
  destruct (kept_settle now L L1 k st st1 id Hwf Hk) as [K1 Hn1]; [by eauto|done..|].
  assert (Ledger.keys L1 !! k = Some st1) as Hk1 by (apply lookup_insert_eq).
  match goal with |- kept now L ?L' _ _ /\ _ => assert (kept now L1 L' (fun _ => False) None) as K2 end.
  { eapply window_reap_kept; [exact Hk1|exact Hr2| |done]. cbn. by rewrite insert_insert_eq. }
  destruct K1 as [O1 N1 C1], K2 as [O2 N2 C2]. split_and!; try done.
  - split; [| |done].
    + intros k' i x Hx. destruct (O1 _ _ _ Hx) as [H|[H|H]]; auto. destruct (O2 _ _ _ H) as [H'|[H'|[]]]; auto.
    + intros k' i x Hx. destruct (N2 _ _ _ Hx) as [H|[=]]. auto.
  - intros k'. match goal with |- ?t = None => destruct t eqn:E end; [|done]. apply N2 in E as [E|[=]]. by rewrite Hn1 in E.
Qed.

Lemma window_cleanup_key_kept now z L k z' L' :
  Ledger.cleanup_key now (z, L) k = (z', L') -> kept now L L' (fun _ => False) None.
Proof.
  unfold Ledger.cleanup_key. destruct (Ledger.keys L !! k) as [st|] eqn:Hk; [|intros [= <- <-]; apply kept_refl].
  destruct (Ledger.reap now (Ledger.config L) st) as [st' ids] eqn:Hr. intros [= <- <-].
  set (L2 := Ledger.forget ids (Ledger.set_key k st' L)).
  assert (kept now L L2 (fun _ => False) None) as K by (by eapply window_reap_kept).
  destruct (Ledger.is_empty st') eqn:He; [|done]. eapply kept_trans; [exact K|].
  eapply (kept_delete _ _ _ k st'); [cbn; apply lookup_insert_eq|done|done|].
  unfold Ledger.is_empty in He. apply andb_prop in He as [He _]. by apply bool_decide_eq_true in He.
Qed.

Lemma window_cleanup_kept now n L : kept now L (Ledger.cleanup now n L).2 (fun _ => False) None.
Proof.
  unfold Ledger.cleanup. generalize 0 as z. generalize (take n (hash_iter (Ledger.keys L)).*1) as ks.
  intros ks. revert L. induction ks as [|k ks IH]; intros L z; cbn [foldl]; [apply kept_refl|].
  destruct (Ledger.cleanup_key now (z, L) k) as [z' L'] eqn:E. eapply kept_trans; [by eapply window_cleanup_key_kept|apply IH].
Qed.
End Window.

(** * The token-bucket ledger, through its bookkeeping *)

Section Bucket.
Context `{!HashOrder N, !HashOrder string}.

Lemma timed_out_plain now c r : timed_out now c r = expired (plain_config c) now (plain_active r).
Proof. done. Qed.

Lemma bucket_reap_kept now L L' k st st' ids :
  keys L !! k = Some st -> reap now (config L) (refill now (config L) st) = (st', ids) ->
  keys L' = <[k := st']> (keys L) -> config L' = config L ->
  kept now (bookkeeping L) (bookkeeping L') (fun _ => False) None.
Proof.
  intros Hk Hr HL Hc. eapply (kept_set _ _ _ k (plain_state st) (plain_state st') ids).
  - by apply bookkeeping_lookup.
  - cbn. by rewrite HL, fmap_insert.
  - cbn. by rewrite Hc.
  - pose proof (reap_plain now (config L) (refill now (config L) st)) as E. rewrite Hr in E. cbn in E. rewrite refill_active in E. exact E.
  - intros id Hid. pose proof (proj1 (elem_of_reaped now (config L) (refill now (config L) st) id)) as He. rewrite Hr in He.
    destruct (He Hid) as (r & Ha & Ht). rewrite refill_active in Ha. exists (plain_active r). split; [|done]. cbn.
    by rewrite lookup_fmap, Ha.
Qed.

Lemma bucket_reserve_kept L k est now d L' :
  bucket_inv L -> reserve k est now L = (d, L') ->
  kept now (bookkeeping L) (bookkeeping L') (fun _ => False)
    match d with AdmittedAs _ => Some (k, next_id L, Ledger.mkActive est now) | _ => None end /\
  match d with
  | AdmittedAs r =>
      res_id r = next_id L /\ res_estimate r = est /\ next_id L' = wrapping_add (next_id L) 1 /\
      act (bookkeeping L') k (next_id L) = Some (Ledger.mkActive est now)
  | _ => next_id L' = next_id L
  end.
Proof.
  intros Hinv. unfold reserve. destruct (_ || (est =? 0)).
  { intros [= <- <-]. split; [apply kept_refl|done]. }
  destruct (get_or_create k L) as [[L1 st]|] eqn:Hg; [|intros [= <- <-]; split; [apply kept_refl|done]].
  destruct (get_or_create_inv _ _ _ _ Hinv Hg) as (Hinv1 & Hk1 & Hc1 & Hn1 & _).
  assert (kept now (bookkeeping L) (bookkeeping L1) (fun _ => False) None) as K1.
  { unfold get_or_create in Hg. destruct (keys L !! k) eqn:E; [simplify_eq; apply kept_refl|].
    case_match; simplify_eq. eapply (kept_create _ _ _ k (plain_state (new_bucket (capacity (config L))))); [|by cbn; rewrite fmap_insert|done|done].
    cbn. by rewrite lookup_fmap, E. }
  rewrite <- Hc1. destruct (reap now (config L1) (refill now (config L1) st)) as [st' ids] eqn:Hr.
  pose proof (bucket_reap_kept now L1 (forget ids (set_key k st' L1)) k st st' ids Hk1 Hr eq_refl eq_refl) as K2.
  pose proof (kept_trans _ _ _ _ _ K1 K2) as K3. pose proof (inv_refill_reap L1 k st now st' ids Hinv1 Hk1 Hr) as Hinv2.
  set (L2 := forget ids (set_key k st' L1)) in *.
  assert (next_id L2 = next_id L) as Hn2 by done.
  destruct (f64_gtb _ _); [intros [= <- <-]; by split|]. destruct (_ <? _); [|intros [= <- <-]; by split]. intros [= <- <-].
  assert (keys L2 !! k = Some st') as Hk2 by (cbn; apply lookup_insert_eq). split.
  - eapply kept_trans; [exact K3|]. rewrite <- Hn2. eapply (kept_admit _ _ _ k (plain_state st')); [|by apply bookkeeping_lookup|by cbn; rewrite fmap_insert|done|].
    + intros k'. destruct (act (bookkeeping L2) k' (next_id L2)) eqn:E; [|done]. apply act_issued in E; [cbn in E; lia|by apply inv_book].
    + cbn. by rewrite fmap_insert.
  - rewrite <- Hn2. split_and!; [done..|]. unfold act. cbn. rewrite lookup_fmap, lookup_insert_eq. cbn.
    by rewrite fmap_insert, lookup_insert_eq.
Qed.

Lemma bucket_reconcile_kept L id a now o L' :
  bucket_inv L -> reconcile id a now L = (o, L') ->
  kept now (bookkeeping L) (bookkeeping L') (fun i => i = id) None /\ (forall k, act (bookkeeping L') k id = None) /\
  next_id L' = next_id L /\
  o = match ledger_pending (bookkeeping L) id with
      | Some p => let x := default (p_estimate p) a in Applied x (p_estimate p - x) (x - p_estimate p)
      | None => Noop
      end.
Proof.
  intros Hinv. pose proof (inv_book L Hinv) as Hwf. unfold reconcile, ledger_pending. cbn [Ledger.reservations bookkeeping].
  destruct (reservations L !! id) as [k|] eqn:Hr.
  2:{ intros [= <- <-]. assert (forall k, act (bookkeeping L) k id = None) as Hn.
      { intros k. destruct (act (bookkeeping L) k id) as [r|] eqn:E; [|done]. apply bind_Some in E as (st & ? & ?).
        assert (Ledger.reservations (bookkeeping L) !! id = Some k); [|cbn in *; congruence]. apply (wf_index _ Hwf). eauto. }
      split_and!; [|done..]. split; [by auto..|done]. }
  destruct (bookkeeping_index L id k Hwf Hr) as (st & r & Hk & Ha). cbn [keys].
  assert (act (bookkeeping L) k id = Some (plain_active r)) as Hact.
  { unfold act. rewrite (bookkeeping_lookup L k st Hk). cbn. by rewrite lookup_fmap, Ha. }
  rewrite Hk, Ha. cbn [mbind option_bind]. rewrite Hact. cbn [mbind option_bind pending_of p_estimate plain_active Ledger.estimate].
  intros [= <- <-].
  match goal with |- kept _ _ (bookkeeping (set_key k ?s ?L0)) _ _ /\ _ =>
    destruct (kept_settle now (bookkeeping L) (bookkeeping (set_key k s L0)) k (plain_state st) (plain_state s) id Hwf) as [K Hn] end;
    [by apply bookkeeping_lookup|cbn; rewrite lookup_fmap, Ha; eauto|by cbn; rewrite fmap_insert|done| |by split_and!].
  cbn. rewrite refill_active. cbn. by rewrite fmap_delete.
Qed.

Lemma bucket_cleanup_key_kept now z L k z' L' :
  cleanup_key now (z, L) k = (z', L') -> kept now (bookkeeping L) (bookkeeping L') (fun _ => False) None.
Proof.
  unfold cleanup_key. destruct (keys L !! k) as [st|] eqn:Hk; [|intros [= <- <-]; apply kept_refl].
  destruct (reap now (config L) (refill now (config L) st)) as [st' ids] eqn:Hr. intros [= <- <-].
  set (L2 := forget ids (set_key k st' L)).
  assert (kept now (bookkeeping L) (bookkeeping L2) (fun _ => False) None) as K by (by eapply bucket_reap_kept).
  destruct (is_empty st' _) eqn:He; [|done]. eapply kept_trans; [exact K|].
  eapply (kept_delete _ _ _ k (plain_state st')); [apply bookkeeping_lookup; cbn; apply lookup_insert_eq|by cbn; rewrite fmap_delete|done|].
  unfold is_empty in He. apply andb_prop in He as [He%bool_decide_eq_true _]. cbn. by rewrite He, fmap_empty.
Qed.

Lemma bucket_cleanup_kept now n L : kept now (bookkeeping L) (bookkeeping (cleanup now n L).2) (fun _ => False) None.
Proof.
  unfold cleanup. generalize 0 as z. generalize (take n (hash_iter (keys L)).*1) as ks.
  intros ks. revert L. induction ks as [|k ks IH]; intros L z; cbn [foldl]; [apply kept_refl|].
  destruct (cleanup_key now (z, L) k) as [z' L'] eqn:E. eapply kept_trans; [by eapply bucket_cleanup_key_kept|apply IH].
Qed.

Lemma bucket_cleanup_next now n L : next_id (cleanup now n L).2 = next_id L.
Proof.
  unfold cleanup. generalize 0 as z. generalize (take n (hash_iter (keys L)).*1) as ks.
  intros ks. revert L. induction ks as [|k ks IH]; intros L z; cbn [foldl]; [done|].
  destruct (cleanup_key now (z, L) k) as [z' L'] eqn:E. rewrite IH. unfold cleanup_key in E.
  repeat case_match; by simplify_eq.
Qed.
End Bucket.

(** * The laws *)

Section Laws.
Context `{!HashOrder N, !HashOrder string}.

(** [kept] in terms of pending reservations. *)
Lemma kept_pending now L L' gone extra :
  wf L -> wf L' -> kept now L L' gone extra ->
  (forall id p, ~ gone id -> ledger_pending L id = Some p ->
    ledger_pending L' id = Some p \/ Ledger.reservation_timeout_ms (Ledger.config L) <= now - p_created_ms p) /\
  (forall id p, (forall k r, extra <> Some (k, id, r)) -> ledger_pending L' id = Some p -> ledger_pending L id = Some p).
Proof.
  intros Hw Hw' [O N' C]. split; intros id p Hg.
  - intros (k & r & -> & Ha)%ledger_pending_spec; [|done]. destruct (O _ _ _ Ha) as [H|[H|H]]; [| |done].
    + left. apply ledger_pending_spec; eauto.
    + right. by apply N.leb_le in H.
  - intros (k & r & -> & Ha)%ledger_pending_spec; [|done]. apply ledger_pending_spec; [done|].
    destruct (N' _ _ _ Ha) as [H|H]; [eauto|by apply Hg in H].
Qed.

Lemma pending_lt L id p : wf L -> ledger_pending L id = Some p -> id < Ledger.next_id L.
Proof. intros Hw (k & r & _ & Ha)%ledger_pending_spec; [|done]. by eapply act_issued. Qed.

#[export] Program Instance window_laws : QuotaLaws InMemoryTokenRateLimitBackend := {|
  backend_ok b := wf (window_ledger b) /\ 0 < Ledger.next_id (window_ledger b);
  pending b := ledger_pending (window_ledger b);
  issued b := Ledger.next_id (window_ledger b);
  lifetime b := Ledger.reservation_timeout_ms (Ledger.config (window_ledger b))
|}.
Next Obligation. cbn. intros [L rem] id p [Hw _]. by apply pending_lt. Qed.
Next Obligation.
  cbn. intros [k est now] [L rem] o s' [Hw Hp] Hi. unfold window_reserve. cbn in *.
  destruct (Ledger.reserve k est now L) as [d L'] eqn:E. intros [= <- <-]. cbn.
  pose proof (LedgerInvariants.reserve_wf L k est now Hw Hp Hi) as Hw'. rewrite E in Hw'. cbn in Hw'.
  apply window_reserve_kept in E as [K Hd]; [|done]. destruct (kept_pending _ _ _ _ _ Hw Hw' K) as [Hold Hnew].
  assert (0 < Ledger.next_id L') as Hp'.
  { destruct d as [r|]; [|lia]. destruct Hd as (_ & _ & -> & _). rewrite wrapping_add_exact by lia. lia. }
  split_and!; [done..|by rewrite (kept_config _ _ _ _ _ K)|auto| |].
  - intros id p Hlt Hp2. apply (Hnew id p); [|done]. intros k' r. destruct d; [|done]. intros [= _ <- _]. lia.
  - destruct d as [r|]; [|done]. destruct Hd as (-> & -> & -> & Ha). rewrite wrapping_add_exact by lia. split_and!; [done..|].
    apply ledger_pending_spec; [done|]. by exists k, (Ledger.mkActive est now).
Qed.
Next Obligation.
  cbn. intros [k id a now] [L rem] o s' [Hw Hp]. unfold window_settle. cbn.
  destruct (Ledger.reconcile id a now L) as [d L'] eqn:E. intros [= <- <-]. cbn.
  pose proof (LedgerInvariants.reconcile_wf L id a now Hw) as Hw'. rewrite E in Hw'. cbn in Hw'.
  apply window_reconcile_kept in E as (K & Hn & Hx & ->); [|done]. destruct (kept_pending _ _ _ _ _ Hw Hw' K) as [Hold Hnew].
  split_and!; [done|by rewrite Hx|by rewrite (kept_config _ _ _ _ _ K)|done| |auto| |by destruct (ledger_pending L id)].
  - destruct (ledger_pending L' id) as [p|] eqn:Ep; [|done]. apply ledger_pending_spec in Ep as (k' & r & _ & Ha); [|done]. by rewrite Hn in Ha.
  - intros i p. by apply Hnew.
Qed.
Next Obligation.
  cbn. intros now n [L rem] o s' [Hw Hp]. unfold window_cleanup. cbn.
  pose proof (window_cleanup_kept now n L) as K. pose proof (LedgerInvariants.cleanup_wf L now n Hw) as Hw'.
  destruct (cleanup_frame now n L) as (_ & Hx & _).
  destruct (Ledger.cleanup now n L) as [z L']. cbn in *. intros [= <- <-]. cbn.
  destruct (kept_pending _ _ _ _ _ Hw Hw' K) as [Hold Hnew].
  split_and!; [done|by rewrite Hx|by rewrite (kept_config _ _ _ _ _ K)|done|auto|]. intros id p. by apply Hnew.
Qed.
Next Obligation.
  cbn [enqueue_reconcile window_backend]. intros r s o s' Hok. destruct (window_settle r s) as [x s1] eqn:E.
  intros [= <- <-]. destruct (window_laws_obligation_3 r s x s1 Hok (f_equal Some E)) as (H1 & H2 & H3 & _ & H5 & _).
  auto.
Qed.

#[export] Program Instance bucket_laws : QuotaLaws InMemoryTokenBucketBackend := {|
  backend_ok b := bucket_inv (bucket_ledger b) /\ 0 < next_id (bucket_ledger b);
  pending b := ledger_pending (bookkeeping (bucket_ledger b));
  issued b := next_id (bucket_ledger b);
  lifetime b := reservation_timeout_ms (config (bucket_ledger b))
|}.
Next Obligation. cbn. intros [L rem] id p [Hw _]. apply (pending_lt (bookkeeping L)), Hw. Qed.
Next Obligation.
  cbn. intros [k est now] [L rem] o s' [Hi Hp] Hm. unfold bucket_reserve. cbn in *.
  destruct (reserve k est now L) as [d L'] eqn:E. intros [= <- <-]. cbn.
  pose proof (reserve_inv L k est now Hi Hp Hm) as Hi'. rewrite E in Hi'. cbn in Hi'.
  apply bucket_reserve_kept in E as [K Hd]; [|done].
  destruct (kept_pending _ _ _ _ _ (inv_book _ Hi) (inv_book _ Hi') K) as [Hold Hnew].
  assert (0 < next_id L') as Hp'.
  { destruct d as [r|]; [|lia]. destruct Hd as (_ & _ & -> & _). rewrite wrapping_add_exact by lia. lia. }
  assert (reservation_timeout_ms (config L') = reservation_timeout_ms (config L)) as Hc
    by (pose proof (kept_config _ _ _ _ _ K) as Hc; cbn in Hc; unfold plain_config in Hc; congruence).
  split_and!; [done..|auto| |].
  - intros id p Hlt Hp2. apply (Hnew id p); [|done]. intros k' r. destruct d; [|done]. intros [= _ <- _]. lia.
  - destruct d as [r|]; [|done]. destruct Hd as (-> & -> & -> & Ha). rewrite wrapping_add_exact by lia. split_and!; [done..|].
    apply ledger_pending_spec; [by apply inv_book|]. by exists k, (Ledger.mkActive est now).
Qed.
Next Obligation.
  cbn. intros [k id a now] [L rem] o s' [Hi Hp]. unfold bucket_settle. cbn.
  destruct (reconcile id a now L) as [d L'] eqn:E. intros [= <- <-]. cbn.
  pose proof (reconcile_inv L id a now Hi) as Hi'. rewrite E in Hi'. cbn in Hi'.
  apply bucket_reconcile_kept in E as (K & Hn & Hx & ->); [|done].
  destruct (kept_pending _ _ _ _ _ (inv_book _ Hi) (inv_book _ Hi') K) as [Hold Hnew].
  assert (reservation_timeout_ms (config L') = reservation_timeout_ms (config L)) as Hc
    by (pose proof (kept_config _ _ _ _ _ K) as Hc; cbn in Hc; unfold plain_config in Hc; congruence).
  split_and!; [done|by rewrite Hx|done|done| |auto| |by destruct (ledger_pending (bookkeeping L) id)].
  - destruct (ledger_pending (bookkeeping L') id) as [p|] eqn:Ep; [|done].
    apply ledger_pending_spec in Ep as (k' & r & _ & Ha); [|by apply inv_book]. by rewrite Hn in Ha.
  - intros i p. by apply Hnew.
Qed.
Next Obligation.
  cbn. intros now n [L rem] o s' [Hi Hp]. unfold bucket_cleanup. cbn.
  pose proof (bucket_cleanup_kept now n L) as K. pose proof (cleanup_inv L now n Hi) as Hi'.
  pose proof (bucket_cleanup_next now n L) as Hx.
  destruct (cleanup now n L) as [z L']. cbn in *. intros [= <- <-]. cbn.
  destruct (kept_pending _ _ _ _ _ (inv_book _ Hi) (inv_book _ Hi') K) as [Hold Hnew].
  assert (reservation_timeout_ms (config L') = reservation_timeout_ms (config L)) as Hc
    by (pose proof (kept_config _ _ _ _ _ K) as Hc; cbn in Hc; unfold plain_config in Hc; congruence).
  split_and!; [done|by rewrite Hx|done|done|auto|]. intros id p. by apply Hnew.
Qed.
Next Obligation.
  cbn [enqueue_reconcile bucket_backend]. intros r s o s' Hok. destruct (bucket_settle r s) as [x s1] eqn:E.
  intros [= <- <-]. destruct (bucket_laws_obligation_3 r s x s1 Hok (f_equal Some E)) as (H1 & H2 & H3 & _ & H5 & _).
  auto.
Qed.
End Laws.

#[export] Program Instance sum_laws {A B} `{!StateBackend A, !StateBackend B, !QuotaLaws A, !QuotaLaws B} : QuotaLaws (A + B) := {|
  backend_ok s := match s with inl a => backend_ok a | inr b => backend_ok b end;
  pending s := match s with inl a => pending a | inr b => pending b end;
  issued s := match s with inl a => issued a | inr b => issued b end;
  lifetime s := match s with inl a => lifetime a | inr b => lifetime b end
|}.
Next Obligation. cbn. intros A B SA SB QA QB [a|b] id p; apply pending_issued. Qed.
Next Obligation.
  cbn. intros A B SA SB QA QB r [a|b] o s' Hok Hi E; [destruct (backend_reserve r a) as [o' a'] eqn:E'|destruct (backend_reserve r b) as [o' a'] eqn:E'];
    cbn in E; injection E as <- <-; exact (reserve_law _ _ _ _ Hok Hi E').
Qed.
Next Obligation.
  cbn. intros A B SA SB QA QB r [a|b] o s' Hok E; [destruct (reconcile_sync r a) as [[o' a']|] eqn:E'|destruct (reconcile_sync r b) as [[o' a']|] eqn:E'];
    cbn in E; try done; injection E as <- <-; exact (settle_law _ _ _ _ Hok E').
Qed.
Next Obligation.
  cbn. intros A B SA SB QA QB now n [a|b] o s' Hok E; [destruct (backend_cleanup now n a) as [[o' a']|] eqn:E'|destruct (backend_cleanup now n b) as [[o' a']|] eqn:E'];
    cbn in E; try done; injection E as <- <-; exact (cleanup_law _ _ _ _ _ Hok E').
Qed.
Next Obligation.
  cbn. intros A B SA SB QA QB r [a|b] o s' Hok E; [destruct (enqueue_reconcile r a) as [o' a'] eqn:E'|destruct (enqueue_reconcile r b) as [o' a'] eqn:E'];
    cbn in E; injection E as <- <-; exact (enqueue_law _ _ _ _ Hok E').
Qed.
