(* ===== verification/TokenCache.v ===== *)
(** Cache-through credential cache: [apis/src/token_cache.rs].

    [get_or_refresh] is an asynchronous function that many callers run at once
    on one cache.  Each caller is a program counter; an action is the code
    between two suspension points (waiting for the read lock, for the write
    lock, or for [fetch]), so any interleaving of callers is a list of actions.
    [fetch] and the clock are outside the program: their results are arguments
    of the actions.  The [RwLock] is the set of running callers that hold it:
    reads happen within one action, so only the writer is part of the state.

    The theorems state the module's contract: one fetch at a time, never a
    fetch while the cached value is usable, and never a value from the cache
    inside its safety margin. *)

From S2P Require Import Prelude.

Local Open Scope N_scope.

(** * Data *)

(** [effective_margin]. *)
Definition effective_margin (ttl margin : N) : N := N.min margin (ttl / 2).

Record Entry (T : Type) := mkEntry { value : T; expires_at : N }.
Arguments mkEntry {T}.
Arguments value {T}.
Arguments expires_at {T}.

(** [valid_cached_value], with the result of [Instant::now()]. *)
Definition valid_cached_value {T} (now : N) (entry : option (Entry T)) : option T :=
  match entry with
  | Some entry => if now <? expires_at entry then Some (value entry) else None
  | None => None
  end.

(** Where a caller of [get_or_refresh] stands. *)
Inductive caller :=
| WaitRead
| WaitWrite
| Locked
| Fetching.

(** How a call ended. [Panicked]: [Instant + Duration] overflowed. *)
Inductive outcome (T E : Type) :=
| Returned (r : result E T)
| Panicked.
Arguments Returned {T E}.
Arguments Panicked {T E}.

(** What a run shows: the fetches started, stored and failed, and the answers. *)
Inductive event (T E : Type) :=
| FetchStarted (t now : N)
| Stored (t : N) (v : T) (ttl now : N)
| FetchErr (t : N) (e : E)
| FromCache (t : N) (v : T) (now : N)
| Answer (t : N) (o : outcome T E).
Arguments FetchStarted {T E}.
Arguments Stored {T E}.
Arguments FetchErr {T E}.
Arguments FromCache {T E}.
Arguments Answer {T E}.

Record TokenCache (T : Type) := mkTokenCache {
  margin : N;
  cache : option (Entry T);
  writer : option N;
  callers : gmap N caller;
  clock : N
}.
Arguments mkTokenCache {T}.
Arguments margin {T}.
Arguments cache {T}.
Arguments writer {T}.
Arguments callers {T}.
Arguments clock {T}.

(** [TokenCache::new]. *)
Definition new {T} (margin : N) : TokenCache T := mkTokenCache margin None None ∅ 0.

Section GetOrRefresh.
Context {T E : Type}.
(** The largest [Instant] the platform represents. *)
Context (max_instant : N).
Implicit Types (c : TokenCache T).

Inductive action :=
| Call (t : N)
| ReadCache (t : N)
| LockWrite (t : N)
| Recheck (t : N)
| FetchReturns (t : N) (r : result E (T * N))
| Cancel (t : N)
| Tick (now : N).

(** A caller leaves; a guard it holds is dropped. *)
Definition leave (t : N) c : TokenCache T :=
  mkTokenCache (margin c) (cache c) (if bool_decide (writer c = Some t) then None else writer c)
    (delete t (callers c)) (clock c).

Definition goto (t : N) (pc : caller) c : TokenCache T :=
  mkTokenCache (margin c) (cache c) (writer c) (<[t:=pc]> (callers c)) (clock c).

(** [valid_cached_value] and the early return it guards; [pc] is where the
    caller goes on otherwise. *)
Definition check_cache (t : N) (pc : caller) (started : list (event T E)) c : TokenCache T * list (event T E) :=
  match valid_cached_value (clock c) (cache c) with
  | Some v => (leave t c, [FromCache t v (clock c); Answer t (Returned (Ok v))])
  | None => (goto t pc c, started)
  end.

(** One action of [get_or_refresh]; [None] when the action is not enabled. *)
Definition step (a : action) c : option (TokenCache T * list (event T E)) :=
  match a with
  | Call t =>
      match callers c !! t with None => Some (goto t WaitRead c, []) | Some _ => None end
  | ReadCache t =>
      match callers c !! t, writer c with
      | Some WaitRead, None => Some (check_cache t WaitWrite [] c)
      | _, _ => None
      end
  | LockWrite t =>
      match callers c !! t, writer c with
      | Some WaitWrite, None =>
          Some (mkTokenCache (margin c) (cache c) (Some t) (<[t:=Locked]> (callers c)) (clock c), [])
      | _, _ => None
      end
  | Recheck t =>
      match callers c !! t with
      | Some Locked => Some (check_cache t Fetching [FetchStarted t (clock c)] c)
      | _ => None
      end
  | FetchReturns t r =>
      match callers c !! t with
      | Some Fetching =>
          match r with
          | Err e => Some (leave t c, [FetchErr t e; Answer t (Returned (Err e))])
          | Ok (v, ttl) =>
              let expires_at := clock c + saturating_sub ttl (effective_margin ttl (margin c)) in
              if max_instant <? expires_at then Some (leave t c, [Answer t Panicked])
              else
                let c' := leave t c in
                Some (mkTokenCache (margin c') (Some (mkEntry v expires_at)) (writer c') (callers c') (clock c'),
                      [Stored t v ttl (clock c); Answer t (Returned (Ok v))])
          end
      | _ => None
      end
  | Cancel t =>
      match callers c !! t with Some _ => Some (leave t c, []) | None => None end
  | Tick now => if clock c <=? now then Some (mkTokenCache (margin c) (cache c) (writer c) (callers c) now, []) else None
  end.

(** The states and events a list of actions reaches from a new cache. *)
Inductive run (m : N) : TokenCache T -> list (event T E) -> Prop :=
| run_new : run m (new m) []
| run_step a c es c' es' : run m c es -> step a c = Some (c', es') -> run m c' (es ++ es').
End GetOrRefresh.
Arguments step {T E}.
Arguments run {T E}.
Arguments action : clear implicits.

(** * The invariant *)

(** When a value fetched at [now] leaves the cache. *)
Definition usable_until (m ttl now : N) : N := now + (ttl - effective_margin ttl m).

Lemma effective_margin_le ttl m : effective_margin ttl m <= ttl.
Proof. unfold effective_margin. assert (ttl / 2 <= ttl) by (apply N.Div0.div_le_upper_bound; lia). lia. Qed.

Definition holds_lock (pc : caller) : Prop := pc = Locked \/ pc = Fetching.

Section Invariant.
Context {T E : Type} (max_instant m : N).
Implicit Types (c : TokenCache T) (es : list (event T E)).

Record inv c es : Prop := mkInv {
  inv_margin : margin c = m;
  inv_writer : forall t, writer c = Some t <-> exists pc, callers c !! t = Some pc /\ holds_lock pc;
  inv_stale : forall t, callers c !! t = Some Fetching -> valid_cached_value (clock c) (cache c) = None;
  inv_entry : forall e, cache c = Some e ->
    exists t ttl now, Stored t (value e) ttl now ∈ es /\ expires_at e = usable_until m ttl now;
  inv_stored : forall t v ttl now, Stored t v ttl now ∈ es ->
    now <= clock c /\ (usable_until m ttl now <= clock c \/ cache c = Some (mkEntry v (usable_until m ttl now)));
  inv_served : forall t v at_, FromCache t v at_ ∈ es ->
    exists t' ttl now, Stored t' v ttl now ∈ es /\ now <= at_ /\ at_ < usable_until m ttl now
}.

Lemma inv_new : inv (new m) [].
Proof.
  split; cbn; try done; try (intros; set_solver).
Qed.

(** Facts of the history survive more events. *)
Lemma inv_more_events c es es' :
  inv c es -> (forall x, x ∈ es' -> match x with FetchStarted _ _ | FetchErr _ _ | Answer _ _ => True | _ => False end) ->
  inv c (es ++ es').
Proof.
  intros [H1 H2 H3 H4 H5 H6] Hn. split; try done.
  - intros e He. destruct (H4 e He) as (t & ttl & now & Hin & Hx). exists t, ttl, now. set_solver.
  - intros t v ttl now [Hin|Hin]%elem_of_app; [by apply (H5 t)|by apply Hn in Hin].
  - intros t v at_ [Hin|Hin]%elem_of_app; [|by apply Hn in Hin].
    destruct (H6 t v at_ Hin) as (t' & ttl & now & Hs & Hx). exists t', ttl, now. set_solver.
Qed.

(** A caller that leaves, or moves between program counters of the same kind. *)
Lemma inv_leave t c es : inv c es -> inv (leave t c) es.
Proof.
  intros [H1 H2 H3 H4 H5 H6]. split; cbn; try done.
  - intros t'. rewrite lookup_delete. case_bool_decide as Hw.
    + split; [done|]. intros (pc & Hpc & Hl). case_decide; [done|].
      assert (writer c = Some t') as Hw' by (apply H2; eauto). congruence.
    + rewrite H2. case_decide as Ht; [|done]. subst t'. split; [|by intros (pc & H & _)].
      intros (pc & Hpc & Hl). exfalso. apply Hw, H2. eauto.
  - intros t'. rewrite lookup_delete. case_decide; [done|]. apply H3.
Qed.

Lemma inv_goto t pc pc' c es :
  inv c es -> default WaitRead (callers c !! t) = pc -> (holds_lock pc <-> holds_lock pc') ->
  (pc' = Fetching -> valid_cached_value (clock c) (cache c) = None) -> inv (goto t pc' c) es.
Proof.
  intros [H1 H2 H3 H4 H5 H6] Hpc Hl Hf. split; cbn; try done.
  - intros t'. rewrite lookup_insert, H2. case_decide as Ht; [subst t'|done]. split.
    + intros (pc0 & H0 & Hl0). rewrite H0 in Hpc. cbn in Hpc. subst. exists pc'. by rewrite <- Hl.
    + intros (pc0 & [= <-] & Hl0). apply Hl in Hl0. destruct (callers c !! t) as [pc0|]; cbn in Hpc; subst; [eauto|].
      by destruct Hl0.
  - intros t'. rewrite lookup_insert. case_decide; [|apply H3]. intros [= ->]. auto.
Qed.

Lemma inv_check t pc pc' started c es c' es' :
  inv c es -> callers c !! t = Some pc -> (holds_lock pc <-> holds_lock pc') ->
  (forall x, x ∈ started -> exists t now, x = FetchStarted t now) ->
  check_cache t pc' started c = (c', es') -> inv c' (es ++ es').
Proof.
  intros Hinv Hpc Hl Hs. unfold check_cache. destruct (valid_cached_value (clock c) (cache c)) as [v|] eqn:Hv.
  - intros [= <- <-]. pose proof (inv_leave t c es Hinv) as [H1 H2 H3 H4 H5 H6].
    pose proof Hinv as [_ _ _ E4 E5 _]. unfold valid_cached_value in Hv. destruct (cache c) as [e|] eqn:Hc; [|done].
    destruct (N.ltb_spec (clock c) (expires_at e)) as [Hlt|]; [|done]. injection Hv as <-.
    split; try done.
    + intros e' He'. destruct (H4 e' He') as (t0 & ttl & now & Hin & Hx). exists t0, ttl, now. set_solver.
    + intros t0 v ttl now Hin. apply (H5 t0). set_solver.
    + intros t0 v at_ Hin. rewrite elem_of_app, !elem_of_cons in Hin.
      destruct Hin as [Hin|[[= -> -> ->]|[|]]]; [|..|done|set_solver].
      * destruct (H6 t0 v at_ Hin) as (t' & ttl & now & Hst & Hx). exists t', ttl, now. set_solver.
      * destruct (E4 e eq_refl) as (t' & ttl & now & Hin & Hx). exists t', ttl, now.
        split; [set_solver|]. rewrite <- Hx. split; [|done]. by destruct (E5 t' _ ttl now Hin).
  - intros [= <- <-]. apply inv_more_events; [|by intros x (t0 & now & ->)%Hs].
    by apply (inv_goto t pc); [|rewrite Hpc| |].
Qed.

(** Storing a fetched value: the fetching caller held the lock on a stale
    entry, so every earlier value has left the cache. *)
Lemma inv_store t v ttl c es :
  inv c es -> callers c !! t = Some Fetching ->
  inv (mkTokenCache (margin c) (Some (mkEntry v (usable_until m ttl (clock c)))) (writer (leave t c))
         (callers (leave t c)) (clock c))
    (es ++ [Stored t v ttl (clock c); Answer t (Returned (Ok v))]).
Proof.
  intros Hinv Ht. pose proof (inv_leave t c es Hinv) as [H1 H2 _ _ _ _]. pose proof Hinv as [_ E2 E3 E4 E5 E6].
  assert (forall t', callers c !! t' = Some Fetching -> t' = t) as Huniq.
  { intros t' Ht'. assert (writer c = Some t) by (apply E2; exists Fetching; split; [done|by right]).
    assert (writer c = Some t') by (apply E2; exists Fetching; split; [done|by right]). congruence. }
  split; cbn in *; try done.
  - intros t' Ht'. rewrite lookup_delete in Ht'. case_decide; [done|]. exfalso. by apply Huniq in Ht'.
  - intros e [= <-]. cbn. exists t, ttl, (clock c). set_solver.
  - intros t' v' ttl' now' Hin. rewrite elem_of_app, !elem_of_cons in Hin.
    destruct Hin as [Hin|[[= -> -> -> ->]|[|]]]; [|by auto|done|set_solver].
    destruct (E5 _ _ _ _ Hin) as [Hle Hx]. split; [done|]. left. destruct Hx as [Hx|Hx]; [done|].
    specialize (E3 t Ht). rewrite Hx in E3. cbn in E3. by destruct (N.ltb_spec (clock c) (usable_until m ttl' now')).
  - intros t' v' at_ Hin. rewrite elem_of_app, !elem_of_cons in Hin.
    destruct Hin as [Hin|[|[|]]]; [|done|done|set_solver].
    destruct (E6 t' v' at_ Hin) as (t0 & ttl0 & now0 & Hs & Hx). exists t0, ttl0, now0. set_solver.
Qed.

Lemma inv_tick now c es :
  inv c es -> clock c <= now -> inv (mkTokenCache (margin c) (cache c) (writer c) (callers c) now) es.
Proof.
  intros [H1 H2 H3 H4 H5 H6] Hle. split; cbn; try done.
  - intros t Ht. specialize (H3 t Ht). unfold valid_cached_value in *. destruct (cache c) as [e|]; [|done].
    destruct (N.ltb_spec (clock c) (expires_at e)); [done|]. by rewrite (proj2 (N.ltb_ge _ _)) by lia.
  - intros t v ttl now' Hin. destruct (H5 t v ttl now' Hin) as [? [?|?]]; split; auto; [lia|left; lia|lia].
Qed.

Lemma step_inv a c es c' es' : inv c es -> step max_instant a c = Some (c', es') -> inv c' (es ++ es').
Proof.
  intros Hinv. destruct a as [t|t|t|t|t r|t|now]; cbn [step].
  - destruct (callers c !! t) as [|] eqn:Ht; [done|]. intros [= <- <-]. rewrite app_nil_r.
    by apply (inv_goto t WaitRead); [|rewrite Ht| |].
  - destruct (callers c !! t) as [[]|] eqn:Ht; try done. destruct (writer c); [done|]. intros [= H].
    apply (inv_check t WaitRead WaitWrite [] c es); [done|done|by split; intros []|set_solver|done].
  - destruct (callers c !! t) as [[]|] eqn:Ht; try done. destruct (writer c) eqn:Hw; [done|]. intros [= <- <-].
    rewrite app_nil_r. destruct Hinv as [H1 H2 H3 H4 H5 H6]. split; cbn; try done.
    + intros t'. rewrite lookup_insert. case_decide as Ht'; [subst t'|].
      * split; [|done]. intros _. exists Locked. split; [done|by left].
      * split; [congruence|]. intros Hx%H2. congruence.
    + intros t'. rewrite lookup_insert. case_decide; [done|apply H3].
  - destruct (callers c !! t) as [[]|] eqn:Ht; try done. intros [= H].
    apply (inv_check t Locked Fetching [FetchStarted t (clock c)] c es); [done|done| |set_solver|done].
    split; intros _; [by right|by left].
  - destruct (callers c !! t) as [[]|] eqn:Ht; try done. destruct r as [[v ttl]|e].
    + pose proof (inv_margin _ _ Hinv) as Hm. destruct (_ <? _).
      * intros [= <- <-]. apply inv_more_events; [by apply inv_leave|]. by intros x ->%list_elem_of_singleton.
      * intros [= <- <-]. rewrite Hm. pose proof (inv_store t v ttl c es Hinv Ht) as Hs. by rewrite Hm in Hs.
    + intros [= <- <-]. apply inv_more_events; [by apply inv_leave|].
      intros x. rewrite !elem_of_cons. intros [->|[->|Hx]]; [done|done|set_solver].
  - destruct (callers c !! t); [|done]. intros [= <- <-]. rewrite app_nil_r. by apply inv_leave.
  - destruct (N.leb_spec (clock c) now); [|done]. intros [= <- <-]. rewrite app_nil_r. by apply inv_tick.
Qed.

Lemma run_inv c es : run max_instant m c es -> inv c es.
Proof. induction 1; [apply inv_new|by eapply step_inv]. Qed.

(** * Properties *)

Lemma check_started t pc started c c' es' t' now :
  check_cache t pc started c = (c', es') -> FetchStarted t' now ∈ es' ->
  FetchStarted t' now ∈ started /\ es' = started /\ valid_cached_value (clock c) (cache c) = None.
Proof.
  unfold check_cache. destruct (valid_cached_value _ _) eqn:Hv; intros [= <- <-] Hin; [|done].
  rewrite !elem_of_cons in Hin. destruct Hin as [|[|]]; [done|done|set_solver].
Qed.

(** A fetch starts only on a stale cache, alone in its action. *)
Lemma step_started a c c' es' t now :
  step max_instant a c = Some (c', es') -> FetchStarted t now ∈ es' ->
  es' = [FetchStarted t now] /\ now = clock c /\ valid_cached_value (clock c) (cache c) = None.
Proof.
  destruct a as [t0|t0|t0|t0|t0 r|t0|now0]; cbn [step]; repeat case_match; intros Hst Hin; simplify_eq;
    try (rewrite ?elem_of_cons in Hin; destruct_or? Hin; simplify_eq; set_solver).
  - destruct (check_started _ _ _ _ _ _ _ _ Hst Hin) as (Hx & _). set_solver.
  - destruct (check_started _ _ _ _ _ _ _ _ Hst Hin) as (Hx & -> & Hv).
    apply list_elem_of_singleton in Hx as [= -> ->]. done.
Qed.

(** C27. Single flight.  In every interleaving of callers, at most one is
    fetching; and once a fetched value is stored, no caller starts another
    fetch before the end of the value's life less the safety margin, however
    many callers found the cache stale at the same time. *)
Theorem token_cache_single_flight c es :
  run max_instant m c es ->
  (forall t1 t2, callers c !! t1 = Some Fetching -> callers c !! t2 = Some Fetching -> t1 = t2) /\
  (forall i j t v ttl t0 t' t1, (i < j)%nat -> es !! i = Some (Stored t v ttl t0) ->
     es !! j = Some (FetchStarted t' t1) -> t0 + ttl <= t1 + effective_margin ttl m).
Proof.
  intros Hrun. split.
  - intros t1 t2 H1 H2. destruct (run_inv c es Hrun) as [_ Hw _ _ _ _].
    assert (writer c = Some t1) by (apply Hw; exists Fetching; split; [done|by right]).
    assert (writer c = Some t2) by (apply Hw; exists Fetching; split; [done|by right]). congruence.
  - induction Hrun as [|a c es c' es' Hrun IH Hs]; [set_solver|]. intros i j t v ttl t0 t' t1 Hij Hi Hj.
    destruct (decide (j < length es)%nat) as [Hlt|Hge].
    { rewrite lookup_app_l in Hi, Hj by lia. by apply (IH i j t v ttl t0 t' t1). }
    rewrite lookup_app_r in Hj by lia.
    destruct (step_started _ _ _ _ t' t1 Hs (list_elem_of_lookup_2 _ _ _ Hj)) as (-> & -> & Hv).
    assert (j = length es) as -> by (apply lookup_lt_Some in Hj; cbn in Hj; lia).
    rewrite lookup_app_l in Hi by done. apply list_elem_of_lookup_2 in Hi.
    destruct (inv_stored _ _ (run_inv c es Hrun) t v ttl t0 Hi) as [_ Hx]. pose proof (effective_margin_le ttl m).
    unfold usable_until in Hx. destruct Hx as [Hx|Hx]; [lia|]. rewrite Hx in Hv. cbn in Hv.
    destruct (N.ltb_spec (clock c) (t0 + (ttl - effective_margin ttl m))); [done|lia].
Qed.

(** Every successful answer is a value some fetch returned: the caller's
    own, or one served from the cache while more than the safety margin of its
    life was left, the margin being cut to half of a short life. *)
Theorem token_cache_serves_usable c es t v :
  run max_instant m c es -> Answer t (Returned (Ok v)) ∈ es ->
  (exists ttl now, Stored t v ttl now ∈ es) \/
  (exists t' ttl now at_, FromCache t v at_ ∈ es /\ Stored t' v ttl now ∈ es /\
     now <= at_ /\ at_ + effective_margin ttl m < now + ttl).
Proof.
  intros Hrun Hans.
  assert ((exists ttl now, Stored t v ttl now ∈ es) \/ exists at_, FromCache t v at_ ∈ es) as [|(at_ & Hat)].
  - induction Hrun as [|a c es c' es' Hrun IH Hs]; [set_solver|]. apply elem_of_app in Hans as [Hin|Hin].
    { destruct (IH Hin) as [(ttl & now & H)|(at_ & H)]; [left; exists ttl, now|right; exists at_]; set_solver. }
    destruct a as [t0|t0|t0|t0|t0 r|t0|now0]; cbn [step] in Hs; repeat case_match; simplify_eq;
      unfold check_cache in *; repeat case_match; simplify_eq;
      rewrite ?elem_of_cons in Hin; destruct_or? Hin; simplify_eq; try set_solver.
    all: first [right; eexists; apply elem_of_app; right; by left|left; eexists _, _; apply elem_of_app; right; by left].
  - by left.
  - right. destruct (inv_served _ _ (run_inv c es Hrun) t v at_ Hat) as (t' & ttl & now & Hs & H1 & H2).
    exists t', ttl, now, at_. split_and!; [done|done|done|]. unfold usable_until in H2. pose proof (effective_margin_le ttl m). lia.
Qed.

(** No deadlock: while any call is running, some caller is fetching (and
    waits only for [fetch]) or can take its next step; a caller that is
    cancelled or fails never leaves the lock held. *)
Theorem token_cache_progress c es t pc :
  run max_instant m c es -> callers c !! t = Some pc ->
  exists t', callers c !! t' = Some Fetching \/
    exists a : action T E, (a = ReadCache t' \/ a = LockWrite t' \/ a = Recheck t') /\ is_Some (step max_instant a c).
Proof.
  intros Hrun Ht. destruct (run_inv c es Hrun) as [_ Hw _ _ _ _]. destruct (writer c) as [w|] eqn:Hwr.
  - destruct (proj1 (Hw w) eq_refl) as (pc' & Hpc & [->| ->]); exists w; [right|by left].
    exists (Recheck w). split; [auto|]. cbn. rewrite Hpc. eauto.
  - exists t. destruct pc; [right; exists (ReadCache t)|right; exists (LockWrite t)|right; exists (Recheck t)|by left];
      cbn; rewrite Ht, ?Hwr; eauto.
Qed.
End Invariant.

(** * Witnesses *)

(** Run a list of actions from a new cache. *)
Definition run_actions {T E} (max_instant m : N) (l : list (action T E)) : option (TokenCache T * list (event T E)) :=
  foldl (fun acc a => '(c, es) ← acc; '(c', es') ← step max_instant a c; Some (c', es ++ es')) (Some (new m, [])) l.

Lemma run_actions_run {T E} max_instant m (l : list (action T E)) c es :
  run_actions max_instant m l = Some (c, es) -> run max_instant m c es.
Proof.
  unfold run_actions. induction l as [|a l IH] using rev_ind in c, es |- *; [intros [= <- <-]; constructor|].
  rewrite foldl_app. cbn. destruct (foldl _ _ l) as [[c0 es0]|] eqn:Hl; [|done]. cbn.
  destruct (step max_instant a c0) as [[c1 es1]|] eqn:Hs; [|done]. intros [= <- <-].
  econstructor; [by apply IH|exact Hs].
Qed.

(** Two callers find the cache empty; the first fetches, the second is served
    from the cache; a third fetches after expiry. *)
Definition cache_example : list (action N string) :=
  [Call 1; Call 2; ReadCache 1; ReadCache 2; LockWrite 1; Recheck 1; Tick 5; FetchReturns 1 (Ok (77, 100));
   LockWrite 2; Recheck 2; Tick 95; Call 3; ReadCache 3; LockWrite 3; Recheck 3].

Definition cache_example_events : list (event N string) :=
  [FetchStarted 1 0; Stored 1 77 100 5; Answer 1 (Returned (Ok 77)); FromCache 2 77 5;
   Answer 2 (Returned (Ok 77)); FetchStarted 3 95].

Definition cache_example_end : TokenCache N :=
  mkTokenCache 10 (Some (mkEntry 77 95)) (Some 3) {[3 := Fetching]} 95.

Lemma cache_example_run : run u64_max 10 cache_example_end cache_example_events.
Proof. apply (run_actions_run _ _ cache_example). vm_compute. reflexivity. Qed.

Lemma token_cache_single_flight_witness : 5 + 100 <= 95 + effective_margin 100 10.
Proof.
  destruct (token_cache_single_flight u64_max 10 cache_example_end cache_example_events cache_example_run) as [_ H].
  exact (H 1%nat 5%nat 1 77 100 5 3 95 ltac:(lia) eq_refl eq_refl).
Defined.

Lemma token_cache_serves_usable_witness :
  (exists ttl now, Stored 2 77 ttl now ∈ cache_example_events) \/
  (exists t' ttl now at_, FromCache 2 77 at_ ∈ cache_example_events /\ Stored t' 77 ttl now ∈ cache_example_events /\
     now <= at_ /\ at_ + effective_margin ttl 10 < now + ttl).
Proof.
  apply (token_cache_serves_usable u64_max 10 cache_example_end cache_example_events 2 77 cache_example_run).
  unfold cache_example_events. set_solver.
Defined.

Lemma token_cache_progress_witness :
  exists t', callers cache_example_end !! t' = Some Fetching \/
    exists a : action N string,
      (a = ReadCache t' \/ a = LockWrite t' \/ a = Recheck t') /\ is_Some (step u64_max a cache_example_end).
Proof.
  apply (token_cache_progress u64_max 10 cache_example_end cache_example_events 3 Fetching cache_example_run).
  vm_compute. reflexivity.
Defined.
