(* ===== verification/Weights.v ===== *)
(** Weighted settlement cost: [filters/src/token_rate_limit/weights.rs], with
    the metadata keys of [filters/src/token_usage/mod.rs].

    After a response the filter settles its reservation with a cost computed
    from the typed token counts that the usage counter published as request
    metadata.  The cost is a sum of IEEE products rounded up; the theorems bound
    it, and show that with unit weights it is exact and covers the provider's
    own total. *)

From S2P Require Import Prelude MetaCodec RustStr Float64.
From Stdlib Require Import Floats.SpecFloat Strings.Ascii.

Local Open Scope N_scope.
Local Open Scope rust_scope.

(** * Metadata *)

Definition META_TOKEN_INPUT : string := "token.input".
Definition META_TOKEN_OUTPUT : string := "token.output".
Definition META_TOKEN_TOTAL : string := "token.total".
Definition META_TOKEN_STATUS : string := "token.status".
Definition TOKEN_STATUS_OVERFLOW : string := "overflow".
Definition META_TOKEN_CACHE_READ : string := "token.cache_read".
Definition META_TOKEN_CACHE_WRITE : string := "token.cache_write".
Definition META_TOKEN_REASONING : string := "token.reasoning".

(** [str::parse::<u64>]: an optional plus sign, then digits, within range; the
    reader of [usize] on this target. *)
Definition parse_u64 (s : string) : option N := parse_usize s.

(** [HttpFilterContext::get_metadata]: the string metadata of the request. *)
Abbreviation metadata := (gmap string string).

Definition parse_u64_meta (ctx : metadata) (key : string) : option N := v ← ctx !! key; parse_u64 v.

Record UsageCounts := mkUsageCounts {
  input : option N;
  output : option N;
  total : option N;
  cache_read : option N;
  cache_write : option N;
  reasoning : option N;
  overflow : bool
}.

(** [UsageCounts::from_context]. *)
Definition from_context (ctx : metadata) : UsageCounts :=
  mkUsageCounts (parse_u64_meta ctx META_TOKEN_INPUT) (parse_u64_meta ctx META_TOKEN_OUTPUT)
    (parse_u64_meta ctx META_TOKEN_TOTAL) (parse_u64_meta ctx META_TOKEN_CACHE_READ)
    (parse_u64_meta ctx META_TOKEN_CACHE_WRITE) (parse_u64_meta ctx META_TOKEN_REASONING)
    (bool_decide (ctx !! META_TOKEN_STATUS = Some TOKEN_STATUS_OVERFLOW)).

(** * Weights *)

Record TokenTypeWeightsConfig := mkWeightsConfig {
  cfg_input : option f64;
  cfg_output : option f64;
  cfg_cached_input : option f64;
  cfg_cache_write : option f64;
  cfg_reasoning : option f64
}.

Record TokenWeights := mkWeights {
  w_input : f64;
  w_output : f64;
  w_cached_input : f64;
  w_cache_write : f64;
  w_reasoning : f64
}.

Definition UNITY : TokenWeights :=
  mkWeights (f64_of_N 1) (f64_of_N 1) (f64_of_N 1) (f64_of_N 1) (f64_of_N 1).

(** The message of [checked_weight], before formatting. *)
Inductive weight_error := BadWeight (loc field : string) (value : f64).

Definition checked_weight (value : f64) (loc field : string) : result weight_error f64 :=
  if is_finite value && SFleb (f64_of_N 0) value then Ok value else Err (BadWeight loc field value).

(** [if let Some(value) = cfg.field { self.field = checked_weight(..)? }]. *)
Definition overlay_one (old : f64) (cfg : option f64) (loc field : string) : result weight_error f64 :=
  match cfg with Some value => checked_weight value loc field | None => Ok old end.

(** [TokenWeights::overlay]. *)
Definition overlay (w : TokenWeights) (cfg : TokenTypeWeightsConfig) (loc : string) : result weight_error TokenWeights :=
  let? i := overlay_one (w_input w) (cfg_input cfg) loc "input" in
  let? o := overlay_one (w_output w) (cfg_output cfg) loc "output" in
  let? ci := overlay_one (w_cached_input w) (cfg_cached_input cfg) loc "cached_input" in
  let? cw := overlay_one (w_cache_write w) (cfg_cache_write cfg) loc "cache_write" in
  let? r := overlay_one (w_reasoning w) (cfg_reasoning cfg) loc "reasoning" in
  Ok (mkWeights i o ci cw r).

(** * Cost *)

Definition COST_U64_CAP : N := 9007199254740992.
Definition COST_F64_CAP : f64 := f64_of_N 9007199254740992.

Definition reasoning_is_nested (input output : N) (total : option N) (reasoning : N) : bool :=
  if reasoning =? 0 then true
  else match total with
       | None => true
       | Some total =>
           let nested_sum := saturating_add input output in
           let additive_sum := saturating_add nested_sum reasoning in
           abs_diff total nested_sum <=? abs_diff total additive_sum
       end.

Definition to_cost_f64 (tokens : N) : f64 := f64_of_N (N.min tokens COST_U64_CAP).

Definition ceil_cost (cost : f64) : N :=
  if is_nan cost || SFleb cost (f64_of_N 0) then 0
  else if negb (is_finite cost) then COST_U64_CAP
  else f64_to_u64 (f64_ceil (f64_min cost COST_F64_CAP)).

(** The token counts that are multiplied by the weights, in the order of the
    sum: uncached, cache read, cache write, visible output, reasoning and the
    part of the total that the parents do not cover. *)
Record parts := mkParts {
  uncached : N;
  read : N;
  write : N;
  visible_output : N;
  reasoning_tokens : N;
  uncovered : N
}.

(** The integer part of [partitioned_cost]. *)
Definition partition (i o : N) (usage : UsageCounts) : parts :=
  let cache_read := N.min (default 0 (cache_read usage)) i in
  let after_read := i - cache_read in
  let cache_write := N.min (default 0 (cache_write usage)) after_read in
  let uncached := after_read - cache_write in
  let reasoning := default 0 (reasoning usage) in
  let nested := reasoning_is_nested i o (total usage) reasoning in
  let '(visible_output, reasoning_tokens) :=
    if nested then let nested_reasoning := N.min reasoning o in (o - nested_reasoning, nested_reasoning)
    else (o, reasoning) in
  let accounted := saturating_add i o in
  let accounted := if nested then accounted else saturating_add accounted reasoning in
  let uncovered := match total usage with Some t => saturating_sub t accounted | None => 0 end in
  mkParts uncached cache_read cache_write visible_output reasoning_tokens uncovered.

(** The floating-point part of [partitioned_cost]. *)
Definition weigh (p : parts) (w : TokenWeights) : f64 :=
  let t1 := f64_mul (to_cost_f64 (uncached p)) (w_input w) in
  let t2 := f64_mul (to_cost_f64 (read p)) (w_cached_input w) in
  let t3 := f64_mul (to_cost_f64 (write p)) (w_cache_write w) in
  let t4 := f64_mul (to_cost_f64 (visible_output p)) (w_output w) in
  let t5 := f64_mul (to_cost_f64 (reasoning_tokens p)) (w_reasoning w) in
  let t6 := f64_mul (to_cost_f64 (uncovered p)) (w_input w) in
  f64_add (f64_add (f64_add (f64_add (f64_add t1 t2) t3) t4) t5) t6.

Definition partitioned_cost (i o : N) (usage : UsageCounts) (w : TokenWeights) : N :=
  ceil_cost (weigh (partition i o usage) w).

(** [weighted_cost]. *)
Definition weighted_cost (usage : UsageCounts) (w : TokenWeights) : option N :=
  if overflow usage then None
  else match input usage, output usage with
       | Some i, Some o => Some (partitioned_cost i o usage w)
       | _, _ => total usage
       end.

(** * Validated weights *)

Definition weight_ok (x : f64) : Prop := valid x = true /\ is_finite x = true /\ nonneg x.

Definition weights_ok (w : TokenWeights) : Prop :=
  weight_ok (w_input w) /\ weight_ok (w_output w) /\ weight_ok (w_cached_input w) /\
  weight_ok (w_cache_write w) /\ weight_ok (w_reasoning w).

(** Every [f64] of a configuration is a double. *)
Definition config_valid (cfg : TokenTypeWeightsConfig) : Prop :=
  forall x, Some x ∈ [cfg_input cfg; cfg_output cfg; cfg_cached_input cfg; cfg_cache_write cfg; cfg_reasoning cfg] ->
  valid x = true.

Lemma UNITY_ok : weights_ok UNITY.
Proof. by repeat split. Qed.

Lemma overlay_one_ok old cfg loc field x :
  weight_ok old -> (forall y, cfg = Some y -> valid y = true) -> overlay_one old cfg loc field = Ok x -> weight_ok x.
Proof.
  intros Ho Hv. unfold overlay_one, checked_weight. destruct cfg as [y|]; [|by intros [= <-]].
  destruct (is_finite y) eqn:Hf; [|done]. destruct (SFleb (f64_of_N 0) y) eqn:Hp; [|done]. intros [= <-].
  split_and!; [by apply Hv|done|]. by destruct y as [| | |[]].
Qed.

Lemma overlay_ok w cfg loc w' : weights_ok w -> config_valid cfg -> overlay w cfg loc = Ok w' -> weights_ok w'.
Proof.
  intros (H1 & H2 & H3 & H4 & H5) Hv. unfold overlay.
  destruct (overlay_one (w_input w) _ _ _) eqn:E1; [|done]. destruct (overlay_one (w_output w) _ _ _) eqn:E2; [|done].
  destruct (overlay_one (w_cached_input w) _ _ _) eqn:E3; [|done].
  destruct (overlay_one (w_cache_write w) _ _ _) eqn:E4; [|done].
  destruct (overlay_one (w_reasoning w) _ _ _) eqn:E5; [|done]. intros [= <-].
  split_and!; cbn; (eapply overlay_one_ok; [|intros y Hy; apply Hv; rewrite <- Hy|eassumption]); [done|set_solver..].
Qed.

Lemma to_cost_value n : is_value (to_cost_f64 n) (Z.min (Z.of_N n) (2 ^ 53) * 2 ^ 1074).
Proof.
  unfold to_cost_f64, f64_of_N. replace (Z.of_N (N.min n COST_U64_CAP)) with (Z.min (Z.of_N n) (2 ^ 53))
    by (change COST_U64_CAP with (Z.to_N (2 ^ 53)); lia).
  apply of_Z_value. lia.
Qed.

Lemma product_valid n w :
  weight_ok w -> valid (f64_mul (to_cost_f64 n) w) = true /\ nonneg (f64_mul (to_cost_f64 n) w).
Proof.
  intros (Vw & Fw & Nw). destruct (to_cost_value n) as (Vx & Fx & Nx & _).
  destruct w as [s| | |s m e]; try discriminate.
  - by destruct (to_cost_f64 n); try discriminate.
  - cbn in Nw, Vw. subst s. by apply mul_valid.
Qed.

Lemma weigh_valid p w : weights_ok w -> valid (weigh p w) = true /\ nonneg (weigh p w).
Proof.
  intros (H1 & H2 & H3 & H4 & H5). unfold weigh.
  repeat match goal with
    | |- valid (f64_add _ _) = true /\ _ => apply add_valid
    | |- valid (f64_add _ _) = true => apply add_valid
    | |- nonneg (f64_add _ _) => apply add_valid
    end; by apply product_valid.
Qed.

(** The cost as an integer: rounded up, within the cap. *)
Lemma ceil_cost_spec cost :
  valid cost = true -> nonneg cost ->
  Z.of_N (ceil_cost cost) =
    if is_finite cost then Z.min (- (- units cost / 2 ^ 1074)) (2 ^ 53) else (2 ^ 53)%Z.
Proof.
  intros Vc Nc. assert (0 < 2 ^ 1074)%Z as H1074 by (apply Z.pow_pos_nonneg; lia). unfold ceil_cost.
  assert (is_nan cost = false) as -> by (by destruct cost). cbn [orb].
  pose proof (of_Z_value (2 ^ 53) ltac:(lia)) as Hcap. fold COST_F64_CAP in Hcap. change (f64_of_Z (2 ^ 53)) with COST_F64_CAP in Hcap.
  destruct (is_finite cost) eqn:Fc.
  - assert (is_value cost (units cost)) as Hc by done. pose proof (value_nonneg _ _ Hc) as H0.
    pose proof (of_Z_value 0 ltac:(lia)) as Hz. destruct (SFleb cost (f64_of_N 0)) eqn:Hle.
    + apply (leb_value_inv _ _ _ _ Hc Hz) in Hle. replace (units cost) with 0%Z by lia. done.
    + cbn [negb]. destruct (Z.le_gt_cases (units cost) (2 ^ 53 * 2 ^ 1074)) as [Hs|Hb].
      * rewrite (min_keep _ _ _ _ Hc Hcap Hs), (ceil_value _ _ Hc Hs).
        assert (- units cost / 2 ^ 1074 <= 0)%Z by (apply Z.div_le_upper_bound; lia).
        assert (- 2 ^ 53 <= - units cost / 2 ^ 1074)%Z by (apply Z.div_le_lower_bound; lia). lia.
      * assert (f64_min cost COST_F64_CAP = COST_F64_CAP) as ->.
        { unfold f64_min. assert (is_nan cost = false) as -> by (by destruct cost). destruct Hcap as (Vk & Fk & Nk & Uk).
          change (is_nan COST_F64_CAP) with false. cbn match. rewrite ltb_units, Uk by done.
          by rewrite (proj2 (Z.ltb_lt _ _)). }
        assert (- units cost / 2 ^ 1074 < - 2 ^ 53)%Z by (apply Z.div_lt_upper_bound; lia).
        rewrite Z.min_r by lia. reflexivity.
  - destruct cost as [|s| |]; try discriminate; [|done]. cbn in Nc. subst s. reflexivity.
Qed.

Lemma ceil_cost_at_least cost n :
  valid cost = true -> nonneg cost -> at_least cost (Z.min (Z.of_N n) (2 ^ 53) * 2 ^ 1074) ->
  N.min n COST_U64_CAP <= ceil_cost cost.
Proof.
  intros Vc Nc Hl. apply N2Z.inj_le. rewrite (ceil_cost_spec cost Vc Nc). change COST_U64_CAP with (Z.to_N (2 ^ 53)).
  destruct Hl as [->|(w & (_ & -> & _ & <-) & Hle)]; [cbn; lia|].
  assert (0 < 2 ^ 1074)%Z by (apply Z.pow_pos_nonneg; lia).
  assert (- units cost / 2 ^ 1074 <= - Z.min (Z.of_N n) (2 ^ 53))%Z by (apply Z.div_le_upper_bound; lia). lia.
Qed.

(** All the tokens that are charged. *)
Definition charged (p : parts) : N :=
  uncached p + read p + write p + visible_output p + reasoning_tokens p + uncovered p.

(** What the typed parents account for. *)
Definition accounted (i o : N) (usage : UsageCounts) : N :=
  let r := default 0 (reasoning usage) in
  if reasoning_is_nested i o (total usage) r then i + o else i + o + r.

(** The partition neither loses nor doubles tokens. *)
Lemma partition_charged i o usage :
  accounted i o usage <= u64_max ->
  charged (partition i o usage) = N.max (accounted i o usage) (default 0 (total usage)).
Proof.
  unfold charged, partition, accounted, saturating_add, saturating_sub.
  destruct (reasoning_is_nested _ _ _ _); destruct (total usage); cbn; lia.
Qed.

Lemma partition_covers i o usage : N.max (i + o) (default 0 (total usage)) <= charged (partition i o usage).
Proof.
  unfold charged, partition, saturating_add, saturating_sub.
  destruct (reasoning_is_nested _ _ _ _); destruct (total usage); cbn; lia.
Qed.

(** Every weight is at least one. *)
Definition weights_above_one (w : TokenWeights) : Prop :=
  forall x, x ∈ [w_input w; w_output w; w_cached_input w; w_cache_write w; w_reasoning w] -> SFleb (f64_of_N 1) x = true.

Lemma product_at_least n w :
  weight_ok w -> SFleb (f64_of_N 1) w = true ->
  at_least (f64_mul (to_cost_f64 n) w) (Z.min (Z.of_N n) (2 ^ 53) * 2 ^ 1074).
Proof.
  intros (Vw & Fw & Nw) Hle. pose proof (of_Z_value 1 ltac:(lia)) as H1.
  assert (is_value w (units w)) as Hw by done. apply (leb_value_inv _ _ _ _ H1 Hw) in Hle.
  unfold to_cost_f64, f64_of_N. replace (Z.of_N (N.min n COST_U64_CAP)) with (Z.min (Z.of_N n) (2 ^ 53))
    by (change COST_U64_CAP with (Z.to_N (2 ^ 53)); lia).
  apply (mul_at_least _ _ (units w)); [lia|done|lia].
Qed.

Lemma weigh_at_least p w :
  weights_ok w -> weights_above_one w -> at_least (weigh p w) (Z.min (Z.of_N (charged p)) (2 ^ 53) * 2 ^ 1074).
Proof.
  intros (H1 & H2 & H3 & H4 & H5) Hge. unfold weigh, charged. rewrite !N2Z.inj_add.
  repeat (apply add_whole_at_least; [lia|lia| | | | | |]);
    first [apply product_at_least; [done|apply Hge; set_solver]|by apply product_valid|
           repeat (apply add_valid; [..]); by apply product_valid].
Qed.

Lemma unit_product n : n <= COST_U64_CAP -> is_value (f64_mul (to_cost_f64 n) (f64_of_N 1)) (Z.of_N n * 2 ^ 1074).
Proof.
  intros Hn. unfold to_cost_f64. rewrite N.min_l by done. apply mul_one.
  change COST_U64_CAP with (Z.to_N (2 ^ 53)) in Hn. lia.
Qed.

Lemma whole_add x y n k :
  n + k <= COST_U64_CAP -> is_value x (Z.of_N n * 2 ^ 1074) -> is_value y (Z.of_N k * 2 ^ 1074) ->
  is_value (f64_add x y) (Z.of_N (n + k) * 2 ^ 1074).
Proof.
  intros Hle Hx Hy. change COST_U64_CAP with (Z.to_N (2 ^ 53)) in Hle.
  assert (Z.of_N (n + k) * 2 ^ 1074 = Z.of_N n * 2 ^ 1074 + Z.of_N k * 2 ^ 1074)%Z as -> by lia.
  apply (add_exact _ _ (f64_of_Z (Z.of_N (n + k)))); [done|done|].
  assert (Z.of_N n * 2 ^ 1074 + Z.of_N k * 2 ^ 1074 = Z.of_N (n + k) * 2 ^ 1074)%Z as -> by lia. apply of_Z_value. lia.
Qed.

Lemma unit_weigh p : charged p <= COST_U64_CAP -> is_value (weigh p UNITY) (Z.of_N (charged p) * 2 ^ 1074).
Proof.
  unfold charged, weigh. intros Hle. cbn [w_input w_output w_cached_input w_cache_write w_reasoning UNITY].
  repeat (apply whole_add; [lia| |]); apply unit_product; lia.
Qed.

(** * Properties *)

(** Whatever the provider reported and whatever weights the configuration
    accepted, the weighted cost of typed counts is at most [2^53]: no overflow,
    no NaN, and always a number the ledgers represent exactly. *)
Theorem weighted_cost_bounded cfg loc w usage n :
  config_valid cfg -> overlay UNITY cfg loc = Ok w ->
  is_Some (input usage) -> is_Some (output usage) -> weighted_cost usage w = Some n -> n <= COST_U64_CAP.
Proof.
  intros Hv Ho [i Hi] [o Ho']. pose proof (overlay_ok _ _ _ _ UNITY_ok Hv Ho) as Hw. unfold weighted_cost.
  destruct (overflow usage); [done|]. rewrite Hi, Ho'. intros [= <-]. unfold partitioned_cost.
  destruct (weigh_valid (partition i o usage) w Hw) as [V Nn]. apply N2Z.inj_le.
  rewrite (ceil_cost_spec _ V Nn). change COST_U64_CAP with (Z.to_N (2 ^ 53)). destruct (is_finite _); lia.
Qed.

(** With weights of at least one, settlement never charges less than the
    provider's own total, nor less than input plus output, up to the cap of
    [2^53]: breakdowns that exceed their parent, hidden cache tokens and the
    roundings of the weighted sum cannot lower the charge. *)
Theorem weighted_cost_covers_total usage w i o :
  weights_ok w -> weights_above_one w -> overflow usage = false -> input usage = Some i -> output usage = Some o ->
  exists n, weighted_cost usage w = Some n /\ N.min (N.max (i + o) (default 0 (total usage))) COST_U64_CAP <= n.
Proof.
  intros Hw Hge Ho Hi Hout. eexists. unfold weighted_cost. rewrite Ho, Hi, Hout. split; [done|].
  destruct (weigh_valid (partition i o usage) w Hw) as [V Nn].
  pose proof (ceil_cost_at_least _ _ V Nn (weigh_at_least (partition i o usage) w Hw Hge)) as Hc.
  pose proof (partition_covers i o usage). unfold partitioned_cost. lia.
Qed.

(** Unit weights reproduce plain accounting exactly: while the counts stay
    within [2^53], the cost is the larger of what the typed counts account for
    (input, output and, when the provider bills it on top, reasoning) and the
    provider's total, with no rounding error.  In particular a cache or nested
    reasoning breakdown never changes the charge. *)
Theorem unity_cost_exact usage i o :
  overflow usage = false -> input usage = Some i -> output usage = Some o ->
  N.max (accounted i o usage) (default 0 (total usage)) <= COST_U64_CAP ->
  weighted_cost usage UNITY = Some (N.max (accounted i o usage) (default 0 (total usage))).
Proof.
  intros Ho Hi Hout Hle. unfold weighted_cost. rewrite Ho, Hi, Hout. f_equal. unfold partitioned_cost.
  assert (COST_U64_CAP <= u64_max) as Hcap by done.
  pose proof (partition_charged i o usage ltac:(lia)) as Hc. rewrite <- Hc in Hle |- *.
  destruct (unit_weigh _ Hle) as (V & F & Nn & U). apply N2Z.inj. rewrite (ceil_cost_spec _ V Nn), F, U.
  rewrite <- Z.mul_opp_l, Z.div_mul by exact one_units_nonzero. change COST_U64_CAP with (Z.to_N (2 ^ 53)) in Hle. lia.
Qed.

(** * Witnesses *)

(** Cached input discounted to a tenth. *)
Definition tenth : f64 := f64_div (f64_of_N 1) (f64_of_N 10).
Definition example_weights : TokenTypeWeightsConfig := mkWeightsConfig None None (Some tenth) None (Some (f64_of_N 3)).
Definition example_usage : UsageCounts := mkUsageCounts (Some 100) (Some 40) (Some 150) (Some 80) None (Some 10) false.

Lemma weighted_cost_bounded_witness :
  exists w n, overlay UNITY example_weights "default_weights" = Ok w /\ weighted_cost example_usage w = Some n /\
    n = 98 /\ n <= COST_U64_CAP.
Proof.
  eexists _, 98. split; [reflexivity|]. split; [vm_compute; reflexivity|]. split; [done|].
  eapply (weighted_cost_bounded example_weights "default_weights" _ example_usage).
  - intros x Hx. unfold example_weights in Hx. cbn in Hx. rewrite !elem_of_cons in Hx.
    destruct Hx as [|[|[[= ->]|[|[[= ->]|Hx]]]]]; first [done|by vm_compute|set_solver].
  - reflexivity.
  - eexists. reflexivity.
  - eexists. reflexivity.
  - vm_compute. reflexivity.
Defined.

Lemma weighted_cost_covers_total_witness :
  exists n, weighted_cost example_usage UNITY = Some n /\ N.min (N.max (100 + 40) 150) COST_U64_CAP <= n.
Proof.
  apply (weighted_cost_covers_total example_usage UNITY 100 40).
  - apply UNITY_ok.
  - intros x Hx. unfold UNITY in Hx. cbn in Hx. assert (x = f64_of_N 1) as -> by set_solver. reflexivity.
  - reflexivity.
  - reflexivity.
  - reflexivity.
Defined.

Lemma unity_cost_exact_witness : weighted_cost example_usage UNITY = Some 150.
Proof.
  apply (unity_cost_exact example_usage 100 40); [reflexivity|reflexivity|reflexivity|vm_compute; discriminate].
Defined.
