(* ===== verification/SessionPool.v ===== *)
(** Pool of idle MCP sessions: [apis/src/mcp_client/session_pool.rs].

    A session is parked in the pool together with an idle timer, a task of its
    own that cancels the session's worker unless a checkout claims the session
    first; both sides race on one atomic flag.  The flags and the workers are
    shared state ([world]), so aliasing between a session, its timer and its
    worker is explicit.  The pool's mutex is held for the whole of [checkout],
    [checkin] and [take_all], so each is one function; [system] adds the
    sessions that callers hold and interleaves callers, timers, worker exits and
    time in any order.

    Times are milliseconds.  The rmcp worker is outside the repository: of it
    the model keeps whether it was cancelled and whether it has terminated. *)

From S2P Require Import Prelude.

Local Open Scope N_scope.

(** * Data *)

Definition MAX_IDLE_PER_KEY : N := 1.
Definition MAX_TOTAL_IDLE : N := 16.
Definition MAX_IDLE_AGE : N := 60000.

Record McpPoolKey := mkPoolKey { namespace : N; target_fingerprint : string }.

#[export] Instance McpPoolKey_eq_dec : EqDecision McpPoolKey.
Proof. solve_decision. Defined.
#[export] Instance McpPoolKey_countable : Countable McpPoolKey :=
  inj_countable' (fun k => (namespace k, target_fingerprint k)) (fun '(n, t) => mkPoolKey n t)
    ltac:(by intros []).

(** [McpPoolNamespace::new]: [fetch_add] on the process-wide counter, then the
    assertion that it has not wrapped. *)
Definition new_namespace (next : N) : option N * N :=
  (if next =? 0 then None else Some next, wrapping_add next 1).

(** [McpPoolKey::new]. *)
Definition new_key (namespace : N) (target_fingerprint : string) : option McpPoolKey :=
  if bool_decide (target_fingerprint = ""%string) then None else Some (mkPoolKey namespace target_fingerprint).

(** [PooledSession]; [service] names its worker, [idle_timer] the flag it shares
    with its timer task. *)
Record PooledSession := mkSession {
  service : N;
  payload_limit : N;
  last_used : N;
  idle_timer : option N
}.

#[export] Instance PooledSession_eq_dec : EqDecision PooledSession.
Proof. solve_decision. Defined.

(** What sessions and timer tasks share: the [parked] flags, the timer tasks
    (flag, worker and time of the sleep), the cancelled and the terminated
    workers, and the clock. *)
Record world := mkWorld {
  parked : gmap N bool;
  timers : list (N * N * N);
  cancelled : gset N;
  closed : gset N;
  clock : N
}.

Abbreviation sessions_map := (gmap McpPoolKey (list PooledSession)).

Record PoolCheckout := mkCheckout { session : option PooledSession; rejected : list PooledSession }.

(** * Sessions *)

(** [AtomicBool::compare_exchange(true, false)]. *)
Definition claim (flag : N) (w : world) : bool * world :=
  match parked w !! flag with
  | Some true => (true, mkWorld (<[flag:=false]> (parked w)) (timers w) (cancelled w) (closed w) (clock w))
  | _ => (false, w)
  end.

(** [PooledSession::new]. *)
Definition new_session (service payload_limit : N) (w : world) : PooledSession :=
  mkSession service payload_limit (clock w) None.

Definition is_closed (s : PooledSession) (w : world) : bool := bool_decide (service s ∈ closed w).

Definition is_expired_at (s : PooledSession) (now : N) : bool :=
  MAX_IDLE_AGE <=? saturating_sub now (last_used s).

(** [PooledSession::park]: a fresh flag and a timer task. *)
Definition park (s : PooledSession) (w : world) : PooledSession * world :=
  let flag := fresh (dom (parked w)) in
  (mkSession (service s) (payload_limit s) (clock w) (Some flag),
   mkWorld (<[flag:=true]> (parked w)) ((flag, service s, clock w + MAX_IDLE_AGE) :: timers w)
     (cancelled w) (closed w) (clock w)).

(** [PooledSession::unpark]. *)
Definition unpark (s : PooledSession) (w : world) : bool * PooledSession * world :=
  match idle_timer s with
  | Some flag =>
      let '(claimed, w) := claim flag w in
      (claimed, mkSession (service s) (payload_limit s) (last_used s) None, w)
  | None => (true, s, w)
  end.

(** The timer task when its sleep ends. *)
Definition timer_fires (flag service : N) (w : world) : world :=
  let '(claimed, w) := claim flag w in
  if claimed then mkWorld (parked w) (timers w) ({[service]} ∪ cancelled w) (closed w) (clock w) else w.

(** * The pool *)

(** One turn of [checkout]'s loop. *)
Definition checkout_one (limit : N) (acc : PoolCheckout * world) (candidate : PooledSession) : PoolCheckout * world :=
  let '(co, w) := acc in
  let '(idle_timer_disarmed, candidate, w) := unpark candidate w in
  if bool_decide (session co = None) && idle_timer_disarmed && (payload_limit candidate =? limit)
     && negb (is_closed candidate w) && negb (is_expired_at candidate (clock w))
  then (mkCheckout (Some candidate) (rejected co), w)
  else (mkCheckout (session co) (rejected co ++ [candidate]), w).

(** [McpSessionPool::checkout]. *)
Definition checkout (key : McpPoolKey) (limit : N) (m : sessions_map) (w : world) :
    PoolCheckout * sessions_map * world :=
  match m !! key with
  | None => (mkCheckout None [], m, w)
  | Some stack =>
      let '(co, w) := foldl (checkout_one limit) (mkCheckout None [], w) stack in
      (co, delete key m, w)
  end.

Definition total_idle (m : sessions_map) : N := sum_map (fun l => N.of_nat (length l)) m.

(** [McpSessionPool::checkin]: the pool keeps [s] or hands it back with the
    sessions it supersedes. *)
Definition checkin (key : McpPoolKey) (s : PooledSession) (m : sessions_map) (w : world) :
    list PooledSession * sessions_map * world :=
  let '(rejected, m) :=
    match m !! key with
    | Some existing =>
        (filter (fun p => payload_limit p ≠ payload_limit s) existing,
         <[key := filter (fun p => payload_limit p = payload_limit s) existing]> m)
    | None => ([], m)
    end in
  let total := total_idle m in
  let stack := default [] (m !! key) in
  if (MAX_IDLE_PER_KEY <=? N.of_nat (length stack)) || (MAX_TOTAL_IDLE <=? total)
  then (rejected ++ [s], <[key := stack]> m, w)
  else let '(s, w) := park s w in (rejected, <[key := stack ++ [s]]> m, w).

(** Every session of the map, in iteration order. *)
Definition all_sessions (m : sessions_map) : list PooledSession := concat (map_to_list m).*2.

(** [McpSessionPool::take_all]. *)
Definition take_all `{!HashOrder McpPoolKey} (m : sessions_map) : list PooledSession * sessions_map :=
  (concat (hash_iter m).*2, ∅).

(** * The system: callers, timers, workers and time *)

(** [held]: sessions owned by running calls; [closing]: sessions handed to a
    close task. *)
Record system := mkSystem {
  pool : sessions_map;
  held : list PooledSession;
  closing : list PooledSession;
  shared : world;
  workers : N
}.

Definition initial : system := mkSystem ∅ [] [] (mkWorld ∅ [] ∅ ∅ 0) 0.

Inductive sys_step : system -> system -> Prop :=
(** A caller connects: a worker not used before. *)
| step_connect S limit :
    sys_step S (mkSystem (pool S) (new_session (workers S) limit (shared S) :: held S) (closing S) (shared S)
                  (workers S + 1))
(** A caller asks the pool for a session. *)
| step_checkout S key limit co m w :
    checkout key limit (pool S) (shared S) = (co, m, w) ->
    sys_step S (mkSystem m (option_list (session co) ++ held S) (rejected co ++ closing S) w (workers S))
(** A caller returns the session it holds. *)
| step_checkin S key s h1 h2 rej m w :
    held S = h1 ++ s :: h2 -> checkin key s (pool S) (shared S) = (rej, m, w) ->
    sys_step S (mkSystem m (h1 ++ h2) (rej ++ closing S) w (workers S))
(** A caller closes the session it holds. *)
| step_close S s h1 h2 :
    held S = h1 ++ s :: h2 ->
    sys_step S (mkSystem (pool S) (h1 ++ h2) (s :: closing S) (shared S) (workers S))
(** The pool is drained. *)
| step_drain S (H : HashOrder McpPoolKey) l m :
    take_all (pool S) = (l, m) ->
    sys_step S (mkSystem m (held S) (l ++ closing S) (shared S) (workers S))
(** A timer's sleep has ended. *)
| step_timer S flag service deadline :
    (flag, service, deadline) ∈ timers (shared S) -> deadline <= clock (shared S) ->
    sys_step S (mkSystem (pool S) (held S) (closing S) (timer_fires flag service (shared S)) (workers S))
(** A worker terminates. *)
| step_worker S service w :
    w = shared S ->
    sys_step S (mkSystem (pool S) (held S) (closing S)
      (mkWorld (parked w) (timers w) (cancelled w) ({[service]} ∪ closed w) (clock w)) (workers S))
(** Time passes. *)
| step_tick S now w :
    w = shared S -> clock w <= now ->
    sys_step S (mkSystem (pool S) (held S) (closing S)
      (mkWorld (parked w) (timers w) (cancelled w) (closed w) now) (workers S)).

Definition reachable : system -> Prop := rtc sys_step initial.
