(* ===== verification/SessionPoolProps.v ===== *)
(** Correctness of the MCP session pool.

    [pool_inv] relates the pool, the sessions that callers hold and the shared
    flags in every reachable system: sessions are never duplicated, a flag that
    is still set belongs to a session nobody holds, and the bounds hold.  The
    race between checkout and idle timer is decided by it: a timer never
    cancels a session that a caller holds. *)

From S2P Require Import Prelude SessionPool.

Local Open Scope N_scope.

Implicit Types (s : PooledSession) (w : world) (m : sessions_map).

Lemma filter_perm {A} (P : A -> Prop) `{forall x, Decision (P x)} (l : list A) :
  l ≡ₚ filter P l ++ filter (fun x => ~ P x) l.
Proof.
  induction l as [|x l IH]; [done|]. rewrite !filter_cons. destruct (decide (P x)); destruct (decide (~ P x)); try done.
  - cbn. by rewrite <- IH.
  - by rewrite <- Permutation_middle, <- IH.
Qed.

(** * Sessions of the map *)

Lemma all_sessions_insert m k l : m !! k = None -> all_sessions (<[k:=l]> m) ≡ₚ l ++ all_sessions m.
Proof. intros Hk. unfold all_sessions. by rewrite map_to_list_insert. Qed.

Lemma all_sessions_delete m k l : m !! k = Some l -> all_sessions m ≡ₚ l ++ all_sessions (delete k m).
Proof.
  intros Hk. rewrite <- (all_sessions_insert (delete k m) k l) by apply lookup_delete_eq.
  by rewrite insert_delete_id.
Qed.

Lemma all_sessions_set m k l : all_sessions (<[k:=l]> m) ≡ₚ l ++ all_sessions (delete k m).
Proof. rewrite <- (insert_delete_eq m k l). apply all_sessions_insert, lookup_delete_eq. Qed.

Lemma all_sessions_default m k : all_sessions m ≡ₚ default [] (m !! k) ++ all_sessions (delete k m).
Proof.
  destruct (m !! k) as [l|] eqn:Hk; [by apply all_sessions_delete|]. by rewrite delete_id.
Qed.

(** * Claims on the flags *)

(** [w'] is [w] with the flags of [fs] cleared. *)
Record cleared (fs : N -> Prop) w w' : Prop := mkCleared {
  cl_parked : forall f, parked w' !! f = Some true <-> parked w !! f = Some true /\ ~ fs f;
  cl_dom : dom (parked w') = dom (parked w);
  cl_timers : timers w' = timers w;
  cl_cancelled : cancelled w' = cancelled w;
  cl_closed : closed w' = closed w;
  cl_clock : clock w' = clock w
}.

Lemma cleared_refl w : cleared (fun _ => False) w w.
Proof. split; try done. naive_solver. Qed.

Lemma cleared_trans fs gs w1 w2 w3 : cleared fs w1 w2 -> cleared gs w2 w3 -> cleared (fun f => fs f \/ gs f) w1 w3.
Proof. intros [H1 H2 H3 H4 H5 H6] [K1 K2 K3 K4 K5 K6]. split; [|congruence..]. intros f. rewrite K1, H1. tauto. Qed.

Lemma cleared_ext fs gs w w' : (forall f, fs f <-> gs f) -> cleared fs w w' -> cleared gs w w'.
Proof. intros He [H1 H2 H3 H4 H5 H6]. split; try done. intros f. by rewrite H1, He. Qed.

Lemma claim_spec f w b w' :
  claim f w = (b, w') ->
  cleared (eq f) w w' /\ (b = true <-> parked w !! f = Some true).
Proof.
  unfold claim. destruct (parked w !! f) as [[]|] eqn:Hf; intros [= <- <-]; (split; [|done || naive_solver]).
  - split; cbn; try done.
    + intros g. rewrite lookup_insert. case_decide; [subst; naive_solver|]. naive_solver.
    + rewrite dom_insert_L. assert (f ∈ dom (parked w)) by (by apply elem_of_dom). set_solver.
  - split; try done. intros g. split; [|tauto]. intros Hg. split; [done|]. intros ->. congruence.
  - split; try done. intros g. split; [|tauto]. intros Hg. split; [done|]. intros ->. congruence.
Qed.

(** The session and the flag race after [unpark]. *)
Lemma unpark_spec s w b s' w' :
  unpark s w = (b, s', w') ->
  service s' = service s /\ payload_limit s' = payload_limit s /\ last_used s' = last_used s /\ idle_timer s' = None /\
  cleared (fun f => idle_timer s = Some f) w w' /\
  (b = true -> forall f, idle_timer s = Some f -> parked w !! f = Some true).
Proof.
  unfold unpark. destruct (idle_timer s) as [f|] eqn:Hf.
  - destruct (claim f w) as [b0 w0] eqn:Hc. intros [= <- <- <-]. destruct (claim_spec _ _ _ _ Hc) as [Hcl Hb].
    split_and!; try done.
    + eapply cleared_ext; [|exact Hcl]. naive_solver.
    + intros Ht g [= <-]. by apply Hb.
  - intros [= <- <- <-]. split_and!; try done. eapply cleared_ext; [|apply cleared_refl]. naive_solver.
Qed.

(** What a caller may rely on when [checkout] gives it [s'], parked as [s]. *)
Record usable (limit : N) w s s' : Prop := mkUsable {
  us_same : service s' = service s /\ idle_timer s' = None;
  us_limit : payload_limit s' = limit;
  us_open : service s' ∉ closed w;
  us_fresh : clock w < last_used s + MAX_IDLE_AGE;
  us_claimed : forall f, idle_timer s = Some f -> parked w !! f = Some true
}.

Lemma usable_cleared fs limit w w1 s s' : cleared fs w w1 -> usable limit w1 s s' -> usable limit w s s'.
Proof.
  intros Hcl [? ? ? ? ?]. split; try done; [by rewrite <- (cl_closed _ _ _ Hcl)|by rewrite <- (cl_clock _ _ _ Hcl)|].
  intros f Hf. apply (cl_parked _ _ _ Hcl). auto.
Qed.

Definition checked_out (co : PoolCheckout) : list PooledSession := option_list (session co) ++ rejected co.

Lemma checkout_fold limit stack co w co' w' :
  foldl (checkout_one limit) (co, w) stack = (co', w') ->
  cleared (fun f => exists s, s ∈ stack /\ idle_timer s = Some f) w w' /\
  service <$> checked_out co' ≡ₚ (service <$> checked_out co) ++ (service <$> stack) /\
  (forall s', s' ∈ checked_out co' -> s' ∈ checked_out co \/ idle_timer s' = None) /\
  (forall s', session co' = Some s' -> session co = Some s' \/ exists s, s ∈ stack /\ usable limit w s s').
Proof.
  revert co w. induction stack as [|c stack IH]; intros co w; cbn [foldl].
  { intros [= <- <-]. split_and!; [|by rewrite app_nil_r|by auto|by auto].
    eapply cleared_ext; [|apply cleared_refl]. set_solver. }
  unfold checkout_one at 2. destruct (unpark c w) as [[b c'] w1] eqn:Hu.
  destruct (unpark_spec _ _ _ _ _ Hu) as (Hs & Hl & Hlu & Hi & Hcl & Hb).
  destruct (bool_decide (session co = None) && b && (payload_limit c' =? limit) && negb (is_closed c' w1)
            && negb (is_expired_at c' (clock w1))) eqn:Hc; intros Hf; apply IH in Hf as (H1 & H2 & H3 & H4).
  - apply andb_prop in Hc as [Hc He]. apply andb_prop in Hc as [Hc Hcd]. apply andb_prop in Hc as [Hc Hpl].
    apply andb_prop in Hc as [Hn Hbt]. apply bool_decide_eq_true in Hn. apply N.eqb_eq in Hpl.
    apply negb_true_iff, bool_decide_eq_false in Hcd. apply negb_true_iff, N.leb_gt in He.
    rewrite (cl_closed _ _ _ Hcl) in Hcd. rewrite (cl_clock _ _ _ Hcl) in He. split_and!.
    + eapply cleared_ext; [|eapply cleared_trans; [exact Hcl|exact H1]]. set_solver.
    + rewrite H2. unfold checked_out. cbn. rewrite Hn, Hs. cbn. by rewrite Permutation_middle.
    + intros s' Hin. apply H3 in Hin as [Hin|]; [|by right]. unfold checked_out in Hin. cbn in Hin. set_solver.
    + intros s' Hs'. destruct (H4 s' Hs') as [[= <-]|(s & Hin & Hus)].
      * right. exists c. split; [set_solver|]. split; try done; [unfold saturating_sub in He; rewrite <- Hlu; lia|auto].
      * right. exists s. split; [set_solver|by eapply usable_cleared].
  - split_and!.
    + eapply cleared_ext; [|eapply cleared_trans; [exact Hcl|exact H1]]. set_solver.
    + rewrite H2. unfold checked_out. cbn. rewrite !fmap_app. cbn. rewrite Hs, app_assoc.
      rewrite <- (app_assoc _ [service c]). done.
    + intros s' Hin. apply H3 in Hin as [Hin|]; [|by right]. unfold checked_out in *. cbn in Hin. set_solver.
    + intros s' Hs'. destruct (H4 s' Hs') as [Hx|(s & Hin & Hus)]; [by left|].
      right. exists s. split; [set_solver|by eapply usable_cleared].
Qed.

(** * Checkin *)

Lemma total_idle_set m k l : total_idle (<[k:=l]> m) = N.of_nat (length l) + total_idle (delete k m).
Proof.
  unfold total_idle. rewrite <- (insert_delete_eq m k l). apply (sum_map_insert_new (fun l => N.of_nat (length l))), lookup_delete_eq.
Qed.

Lemma total_idle_delete m k : total_idle (delete k m) <= total_idle m.
Proof.
  destruct (m !! k) as [l|] eqn:Hk; [|by rewrite delete_id]. unfold total_idle.
  rewrite (sum_map_delete (fun l => N.of_nat (length l)) m k l Hk). lia.
Qed.

(** [checkin] keeps the sessions of the same limit, hands back the others, and
    parks [s] when there is room. *)
Lemma checkin_spec key s m w rej m' w' :
  checkin key s m w = (rej, m', w') ->
  exists keep drop, default [] (m !! key) ≡ₚ keep ++ drop /\
    ((rej = drop ++ [s] /\ m' = <[key:=keep]> m /\ w' = w) \/
     (rej = drop /\ m' = <[key:=[(park s w).1]]> m /\ w' = (park s w).2 /\ keep = [] /\
      total_idle (delete key m) < MAX_TOTAL_IDLE)).
Proof.
  intros Hc. set (keep := filter (fun p => payload_limit p = payload_limit s) (default [] (m !! key))).
  set (drop := filter (fun p => payload_limit p ≠ payload_limit s) (default [] (m !! key))).
  assert (exists m1, default [] (m1 !! key) = keep /\
    (forall l, <[key:=l]> m1 = <[key:=l]> m) /\ total_idle m1 = N.of_nat (length keep) + total_idle (delete key m) /\
    (if (MAX_IDLE_PER_KEY <=? N.of_nat (length keep)) || (MAX_TOTAL_IDLE <=? total_idle m1)
     then (drop ++ [s], <[key := keep]> m1, w)
     else let '(s, w) := park s w in (drop, <[key := keep ++ [s]]> m1, w)) = (rej, m', w')) as (m1 & H1 & H2 & H3 & H4).
  { unfold checkin in Hc. destruct (m !! key) as [ex|] eqn:Hk.
    - exists (<[key:=keep]> m). rewrite lookup_insert_eq. split; [done|].
      split; [intros l; apply insert_insert_eq|]. split; [apply total_idle_set|].
      cbn in Hc. rewrite lookup_insert_eq in Hc. exact Hc.
    - exists m. rewrite Hk. split; [done|]. split; [done|]. split; [by rewrite delete_id|].
      rewrite Hk in Hc. exact Hc. }
  exists keep, drop. split; [apply filter_perm|].
  destruct ((_ <=? _) || (_ <=? _)) eqn:Hb; rewrite ?H2 in H4.
  - left. by simplify_eq.
  - right. apply orb_false_elim in Hb as [Hb1 Hb2]. apply N.leb_gt in Hb1, Hb2. unfold MAX_IDLE_PER_KEY in Hb1.
    assert (keep = []) as Hke by (destruct keep; [done|cbn in Hb1; lia]). rewrite Hke in *. cbn [app] in H4.
    destruct (park s w) as [s' w0]. simplify_eq. cbn in H3. split_and!; try done. lia.
Qed.

(** * The invariant *)

Definition everything (S : system) : list PooledSession := all_sessions (pool S) ++ held S ++ closing S.

(** Flags, timers and cancellations, for the idle, held and closing sessions. *)
Record flags_ok (idle held closing : list PooledSession) w (n : N) : Prop := mkFlagsOk {
  fo_ids : NoDup (service <$> (idle ++ held ++ closing));
  fo_workers : forall s, s ∈ idle ++ held ++ closing -> service s < n;
  fo_idle : forall s, s ∈ idle -> is_Some (idle_timer s);
  fo_held : forall s, s ∈ held -> idle_timer s = None;
  fo_timer : forall s f, s ∈ idle ++ closing -> idle_timer s = Some f -> exists d, (f, service s, d) ∈ timers w;
  fo_dom : forall f sv d, (f, sv, d) ∈ timers w -> f ∈ dom (parked w) /\ sv < n;
  fo_fun : forall f sv d sv' d', (f, sv, d) ∈ timers w -> (f, sv', d') ∈ timers w -> sv = sv';
  fo_set : forall f, parked w !! f = Some true -> exists s, s ∈ idle ++ closing /\ idle_timer s = Some f;
  fo_live : forall s f, s ∈ idle -> idle_timer s = Some f -> parked w !! f = Some true -> service s ∉ cancelled w;
  fo_held_live : forall s, s ∈ held -> service s ∉ cancelled w;
  fo_cancelled : forall sv, sv ∈ cancelled w -> sv < n
}.

Record pool_inv (S : system) : Prop := mkPoolInv {
  pi_flags : flags_ok (all_sessions (pool S)) (held S) (closing S) (shared S) (workers S);
  pi_per_key : forall k l, pool S !! k = Some l -> N.of_nat (length l) <= MAX_IDLE_PER_KEY;
  pi_total : total_idle (pool S) <= MAX_TOTAL_IDLE
}.

Lemma initial_inv : pool_inv initial.
Proof. split; [|done|done]. split; cbn; try constructor; try (intros; set_solver). Qed.

(** Two sessions with one worker are the same session. *)
Lemma ids_unique (l : list PooledSession) s1 s2 :
  NoDup (service <$> l) -> s1 ∈ l -> s2 ∈ l -> service s1 = service s2 -> s1 = s2.
Proof.
  intros Hnd H1 H2 Heq. apply list_elem_of_lookup in H1 as [i Hi], H2 as [j Hj].
  assert (i = j) as ->; [|congruence].
  eapply NoDup_lookup; [exact Hnd|rewrite list_lookup_fmap, Hi; done|rewrite list_lookup_fmap, Hj, Heq; done].
Qed.

(** Reordering, and moving sessions to the closing list. *)
Lemma flags_perm idle idle' held held' closing closing' w n :
  idle' ≡ₚ idle -> held' ≡ₚ held -> closing' ≡ₚ closing ->
  flags_ok idle held closing w n -> flags_ok idle' held' closing' w n.
Proof.
  intros Hi Hh Hc [? ? ? ? ? ? ? ? ? ? ?]. split; try done; intros *; rewrite ?Hi, ?Hh, ?Hc; eauto.
  intros Hf. setoid_rewrite Hi. setoid_rewrite Hc. eauto.
Qed.

(** Membership in concatenations. *)
Ltac mem := rewrite ?elem_of_app, ?elem_of_cons, ?elem_of_app in *; rewrite ?elem_of_app in *; tauto.

Lemma flags_close i1 i2 h1 h2 c w n :
  flags_ok (i1 ++ i2) (h1 ++ h2) c w n -> flags_ok i2 h2 (i1 ++ h1 ++ c) w n.
Proof.
  intros [F1 F2 F3 F4 F5 F6 F7 F8 F9 F10 F11].
  assert (i2 ++ h2 ++ i1 ++ h1 ++ c ≡ₚ (i1 ++ i2) ++ (h1 ++ h2) ++ c) as Hp by solve_Permutation.
  split; try done.
  - by rewrite Hp.
  - intros s. rewrite Hp. apply F2.
  - intros s Hs. apply F3. mem.
  - intros s Hs. apply F4. mem.
  - intros s f Hs Hf. destruct (decide (s ∈ h1)) as [Hh|Hh]; [|apply F5; [mem|done]].
    rewrite F4 in Hf by mem. done.
  - intros f Hf. destruct (F8 f Hf) as (s & Hs & Hi). exists s. split; [|done]. mem.
  - intros s f Hs. apply F9. mem.
  - intros s Hs. apply F10. mem.
Qed.

Lemma flags_connect i h c w n limit :
  flags_ok i h c w n -> flags_ok i (new_session n limit w :: h) c w (n + 1).
Proof.
  intros [F1 F2 F3 F4 F5 F6 F7 F8 F9 F10 F11].
  assert (i ++ (new_session n limit w :: h) ++ c ≡ₚ new_session n limit w :: i ++ h ++ c) as Hp by solve_Permutation.
  split; try done.
  - rewrite Hp. cbn. apply NoDup_cons. split; [|done]. intros (s & Hs & Hin)%list_elem_of_fmap.
    apply F2 in Hin. lia.
  - intros s. rewrite Hp, elem_of_cons. intros [->|Hs]; [cbn; lia|]. apply F2 in Hs. lia.
  - intros s [->|Hs]%elem_of_cons; [done|auto].
  - intros f sv d Hin. destruct (F6 f sv d Hin). split; [done|lia].
  - intros s [->|Hs]%elem_of_cons; [|auto]. intros Hc. apply F11 in Hc. cbn in Hc. lia.
  - intros sv Hsv. apply F11 in Hsv. lia.
Qed.

Lemma flags_park i h c w n s :
  flags_ok i (s :: h) c w n -> flags_ok ((park s w).1 :: i) h c (park s w).2 n.
Proof.
  intros [F1 F2 F3 F4 F5 F6 F7 F8 F9 F10 F11]. cbn [park fst snd]. set (flag := fresh (dom (parked w))).
  assert (flag ∉ dom (parked w)) as Hfr by apply is_fresh.
  assert (parked w !! flag = None) as Hfn by (by apply not_elem_of_dom).
  set (s' := mkSession (service s) (payload_limit s) (clock w) (Some flag)).
  assert (i ++ (s :: h) ++ c ≡ₚ s :: i ++ h ++ c) as Hp by solve_Permutation. rewrite Hp in F1. setoid_rewrite Hp in F2.
  assert (forall s0 f, s0 ∈ i ++ c -> idle_timer s0 = Some f -> f <> flag) as Hne.
  { intros s0 f Hs0 Hf ->. destruct (F5 s0 flag Hs0 Hf) as (d & Hd). by apply F6 in Hd as [Hd _]. }
  split; cbn [parked timers cancelled closed clock]; try done.
  - intros s0 [->|Hs0]%elem_of_cons; [apply (F2 s); mem|]. apply F2. mem.
  - intros s0 [->|Hs0]%elem_of_cons; [by eexists|auto].
  - intros s0 Hs0. apply F4. mem.
  - intros s0 f [->|Hs0]%elem_of_cons Hf.
    + injection Hf as <-. eexists. by left.
    + destruct (F5 s0 f Hs0 Hf) as (d & Hd). exists d. by right.
  - intros f sv d [[= -> -> ->]|Hin]%elem_of_cons.
    + split; [rewrite dom_insert_L, elem_of_union, elem_of_singleton; auto|]. apply F2. mem.
    + destruct (F6 f sv d Hin). split; [rewrite dom_insert_L, elem_of_union, elem_of_singleton; auto|done].
  - intros f sv d sv' d' [[= -> -> ->]|Hin]%elem_of_cons [Heq|Hin']%elem_of_cons.
    + by injection Heq.
    + by apply F6 in Hin' as [? _].
    + injection Heq as -> _ _. by apply F6 in Hin as [? _].
    + by eapply F7.
  - intros f. rewrite lookup_insert. case_decide as Hd.
    + intros _. subst f. exists s'. split; [mem|done].
    + intros Hf. destruct (F8 f Hf) as (s0 & Hs0 & Hi). exists s0. split; [mem|done].
  - intros s0 f [->|Hs0]%elem_of_cons Hf.
    + intros _. apply (F10 s). mem.
    + rewrite lookup_insert_ne by (intros <-; eapply Hne; [|done|done]; mem). by apply F9.
  - intros s0 Hs0. apply F10. mem.
Qed.

Lemma flags_timer i h c w n f sv d :
  flags_ok i h c w n -> (f, sv, d) ∈ timers w -> flags_ok i h c (timer_fires f sv w) n.
Proof.
  intros F Ht. unfold timer_fires. destruct (claim f w) as [b w'] eqn:Hc.
  destruct (claim_spec _ _ _ _ Hc) as [[C1 C2 C3 C4 C5 C6] Hb]. destruct F as [F1 F2 F3 F4 F5 F6 F7 F8 F9 F10 F11].
  destruct b; [destruct Hb as [Hb _]; specialize (Hb eq_refl)|].
  - destruct (F8 f Hb) as (s & Hs & Hi). destruct (F5 s f Hs Hi) as (d' & Hd').
    assert (service s = sv) as Hsv by (by eapply F7).
    split; cbn [parked timers cancelled closed clock]; rewrite ?C2, ?C3, ?C4; try done.
    + intros g [Hg _]%C1. auto.
    + intros s0 g Hs0 Hg [Hpg Hne]%C1. apply not_elem_of_union. split; [|by eapply F9].
      rewrite elem_of_singleton. intros Heq. apply Hne.
      assert (s0 = s) as -> by (eapply ids_unique; [exact F1|mem|mem|congruence]). congruence.
    + intros s0 Hs0. apply not_elem_of_union. split; [|by apply F10]. rewrite elem_of_singleton. intros Heq.
      assert (s0 = s) as -> by (eapply ids_unique; [exact F1|mem|mem|congruence]).
      rewrite (F4 s Hs0) in Hi. done.
    + intros x [->%elem_of_singleton|Hx]%elem_of_union; [|by apply F11]. by eapply F6.
  - split; rewrite ?C2, ?C3, ?C4; try done.
    + intros g [Hg _]%C1. auto.
    + intros s0 g Hs0 Hg [Hpg _]%C1. by eapply F9.
Qed.

Lemma flags_checkout stack i h c w n limit co w' :
  flags_ok (stack ++ i) h c w n -> foldl (checkout_one limit) (mkCheckout None [], w) stack = (co, w') ->
  flags_ok i (option_list (session co) ++ h) (rejected co ++ c) w' n.
Proof.
  intros [F1 F2 F3 F4 F5 F6 F7 F8 F9 F10 F11] Hf.
  destruct (checkout_fold _ _ _ _ _ _ Hf) as ([C1 C2 C3 C4 C5 C6] & Hperm & Hnone & Hout).
  assert (forall s', s' ∈ checked_out co -> idle_timer s' = None) as Hn by (intros s' [Hs'|Hs']%Hnone; [by apply elem_of_nil in Hs'|done]).
  cbn in Hperm. unfold checked_out in *.
  assert (service <$> (i ++ (option_list (session co) ++ h) ++ rejected co ++ c) ≡ₚ service <$> ((stack ++ i) ++ h ++ c)) as Hp.
  { rewrite !fmap_app in *. rewrite <- Hperm. solve_Permutation. }
  assert (forall s', s' ∈ option_list (session co) ++ rejected co -> service s' < n) as Hlt.
  { intros s' Hs'. assert (service s' ∈ service <$> stack) as Hin
      by (rewrite <- Hperm; apply list_elem_of_fmap; eauto).
    apply list_elem_of_fmap in Hin as (s & -> & Hs). apply F2. mem. }
  split; rewrite ?C2, ?C3, ?C4; try done.
  - by rewrite Hp.
  - intros s Hs. destruct (decide (s ∈ option_list (session co) ++ rejected co)) as [Hin|Hin]; [by apply Hlt|].
    apply F2. mem.
  - intros s Hs. apply F3. mem.
  - intros s [Hs|Hs]%elem_of_app; [|by apply F4]. apply Hn. mem.
  - intros s f Hs Hsf. destruct (decide (s ∈ rejected co)) as [Hr|Hr].
    + rewrite Hn in Hsf by mem. done.
    + apply F5; [mem|done].
  - intros f [Hpf Hnf]%C1. destruct (F8 f Hpf) as (s & Hs & Hi). exists s. split; [|done].
    destruct (decide (s ∈ stack)); [exfalso; eauto|mem].
  - intros s f Hs Hsf [Hpf _]%C1. apply (F9 s f); [mem|done|done].
  - intros s [Hs|Hs]%elem_of_app; [|by apply F10]. destruct (session co) as [s0|] eqn:Hs0; [|by apply elem_of_nil in Hs].
    cbn in Hs. apply list_elem_of_singleton in Hs as ->. destruct (Hout s0 eq_refl) as [|(s & Hin & [[-> _] _ _ _ Hcl])]; [done|].
    destruct (F3 s) as [f Hsf]; [mem|]. apply (F9 s f); [mem|done|auto].
Qed.

(** * Preservation *)

Lemma checkout_inv S key limit co m w :
  pool_inv S -> checkout key limit (pool S) (shared S) = (co, m, w) ->
  pool_inv (mkSystem m (option_list (session co) ++ held S) (rejected co ++ closing S) w (workers S)).
Proof.
  intros [Hf Hk Ht]. unfold checkout. destruct (pool S !! key) as [stack|] eqn:Hs.
  - destruct (foldl _ _ stack) as [co0 w0] eqn:Hfold. intros [= <- <- <-]. split; cbn.
    + eapply flags_checkout; [|exact Hfold]. eapply flags_perm; [|done|done|exact Hf].
      symmetry. by apply all_sessions_delete.
    + intros k l. rewrite lookup_delete. case_decide; [done|]. apply Hk.
    + pose proof (total_idle_delete (pool S) key). lia.
  - intros [= <- <- <-]. by split.
Qed.

Lemma checkin_inv S key s h1 h2 rej m w :
  pool_inv S -> held S = h1 ++ s :: h2 -> checkin key s (pool S) (shared S) = (rej, m, w) ->
  pool_inv (mkSystem m (h1 ++ h2) (rej ++ closing S) w (workers S)).
Proof.
  intros [Hf Hk Ht] Hh Hc. destruct (checkin_spec _ _ _ _ _ _ _ Hc) as (keep & drop & Hkd & Hcases).
  assert (flags_ok (drop ++ keep ++ all_sessions (delete key (pool S))) (s :: h1 ++ h2) (closing S) (shared S) (workers S)) as Hf'.
  { eapply flags_perm; [| |done|exact Hf].
    - rewrite (all_sessions_default (pool S) key), Hkd. solve_Permutation.
    - rewrite Hh. solve_Permutation. }
  assert (N.of_nat (length keep) <= MAX_IDLE_PER_KEY /\
    N.of_nat (length keep) + total_idle (delete key (pool S)) <= MAX_TOTAL_IDLE) as [Hlk Hlt].
  { destruct (pool S !! key) as [l|] eqn:Hl; cbn in Hkd; apply Permutation_length in Hkd; rewrite length_app in Hkd.
    - specialize (Hk key l Hl). unfold total_idle in *.
      rewrite (sum_map_delete (fun l => N.of_nat (length l)) _ _ _ Hl) in Ht. lia.
    - cbn in Hkd. pose proof (total_idle_delete (pool S) key). unfold MAX_IDLE_PER_KEY. lia. }
  assert (forall l, N.of_nat (length l) <= MAX_IDLE_PER_KEY -> forall k l', <[key:=l]> (pool S) !! k = Some l' ->
    N.of_nat (length l') <= MAX_IDLE_PER_KEY) as Hset.
  { intros l Hl k l'. rewrite lookup_insert. case_decide; [by intros [= <-]|]. apply Hk. }
  destruct Hcases as [(-> & -> & ->)|(-> & -> & -> & -> & Hlt')]; (split; cbn [pool held closing shared workers]).
  - apply (flags_close drop _ [s] (h1 ++ h2)) in Hf'. eapply flags_perm; [apply all_sessions_set|done| |exact Hf'].
    solve_Permutation.
  - by apply Hset.
  - by rewrite total_idle_set.
  - apply (flags_close drop _ [] (s :: h1 ++ h2)) in Hf'. apply flags_park in Hf'.
    eapply flags_perm; [apply all_sessions_set|done|done|exact Hf'].
  - apply Hset. unfold MAX_IDLE_PER_KEY. cbn. lia.
  - rewrite total_idle_set. cbn. unfold MAX_TOTAL_IDLE in *. lia.
Qed.

Lemma sys_step_inv S S' : pool_inv S -> sys_step S S' -> pool_inv S'.
Proof.
  intros Hinv Hstep. destruct Hstep as [S limit|S key limit co m w Hc|S key s h1 h2 rej m w Hh Hc|S s h1 h2 Hh|S H l m Ht|S f sv d Ht Hd|S sv w ->|S now w -> Hle].
  - destruct Hinv as [Hf Hk Ht]. split; cbn; [|done|done]. by apply flags_connect.
  - by eapply checkout_inv.
  - by eapply checkin_inv.
  - destruct Hinv as [Hf Hk Ht]. split; cbn; [|done|done]. apply (flags_close [] _ [s] (h1 ++ h2)).
    eapply flags_perm; [done| |done|exact Hf]. rewrite Hh. solve_Permutation.
  - destruct Hinv as [Hf Hk Ht']. injection Ht as <- <-. split; cbn; [|done|done].
    eapply flags_perm; [done|done| |apply (flags_close (all_sessions (pool S)) [] [] (held S)); by rewrite app_nil_r].
    unfold all_sessions. cbn. f_equiv. by rewrite hash_iter_perm.
  - destruct Hinv as [Hf Hk Ht']. split; cbn; [|done|done]. by eapply flags_timer.
  - destruct Hinv as [[? ? ? ? ? ? ? ? ? ? ?] Hk Ht']. by split.
  - destruct Hinv as [[? ? ? ? ? ? ? ? ? ? ?] Hk Ht']. by split.
Qed.

Lemma reachable_inv S : reachable S -> pool_inv S.
Proof.
  unfold reachable. intros H. assert (forall A B, rtc sys_step A B -> pool_inv A -> pool_inv B) as Hr.
  { induction 1; [done|]. eauto using sys_step_inv. }
  eapply Hr; [exact H|apply initial_inv].
Qed.

(** * Properties *)

(** C26. In every reachable system, whatever the order of callers, timers,
    worker exits and time: no session is owned twice (by the pool, by a caller
    or by a close task), a session that a caller holds was never cancelled by an
    idle timer, and the pool keeps at most one idle session per key and sixteen
    in all. *)
Theorem pool_sessions_exclusive S :
  reachable S ->
  NoDup (service <$> everything S) /\
  (forall s, s ∈ held S -> service s ∉ cancelled (shared S)) /\
  (forall k l, pool S !! k = Some l -> N.of_nat (length l) <= MAX_IDLE_PER_KEY) /\
  total_idle (pool S) <= MAX_TOTAL_IDLE.
Proof. intros [[? _ _ _ _ _ _ _ _ ? _] Hk Ht]%reachable_inv. done. Qed.

(** What [checkout] gives in a reachable system: only a session that was
    parked under the same dispatcher and target key, that has the requested
    response limit, whose worker is neither terminated nor cancelled, that was
    idle for less than the bound, and whose timer it disarmed; everything else
    parked under the key is handed back for closing, and the key is emptied. *)
Theorem checkout_gives_usable S key limit co m w :
  reachable S -> checkout key limit (pool S) (shared S) = (co, m, w) ->
  m !! key = None /\
  (forall s', session co = Some s' ->
     service s' ∉ cancelled w /\
     exists l s, pool S !! key = Some l /\ s ∈ l /\ usable limit (shared S) s s') /\
  service <$> checked_out co ≡ₚ service <$> default [] (pool S !! key).
Proof.
  intros Hr Hc. pose proof (checkout_inv _ _ _ _ _ _ (reachable_inv S Hr) Hc) as [Hf _ _]. cbn in Hf.
  unfold checkout in Hc. destruct (pool S !! key) as [stack|] eqn:Hs.
  - destruct (foldl _ _ stack) as [co0 w0] eqn:Hfold. injection Hc as <- <- <-.
    destruct (checkout_fold _ _ _ _ _ _ Hfold) as (_ & Hp & _ & Hout).
    split_and!; [apply lookup_delete_eq| |by rewrite Hp].
    intros s' Hs'. split; [apply (fo_held_live _ _ _ _ _ Hf); rewrite Hs'; by left|].
    destruct (Hout s' Hs') as [|(s & Hin & Hus)]; [done|]. by exists stack, s.
  - injection Hc as <- <- <-. by split_and!.
Qed.

(** * Witnesses *)

Definition pool_key : McpPoolKey := mkPoolKey 1 "target".

(** A caller connects, returns its session, and half a minute passes. *)
Definition pool_parked : system :=
  mkSystem {[pool_key := [mkSession 0 4096 0 (Some (fresh (dom (∅ : gmap N bool))))]]} [] []
    (mkWorld {[fresh (dom (∅ : gmap N bool)) := true]} [(fresh (dom (∅ : gmap N bool)), 0, 60000)] ∅ ∅ 30000) 1.

Lemma pool_parked_reachable : reachable pool_parked.
Proof.
  eapply rtc_l; [apply (step_connect initial 4096)|].
  eapply rtc_l; [apply (step_checkin _ pool_key (mkSession 0 4096 0 None) [] []); reflexivity|].
  eapply rtc_l; [eapply (step_tick _ 30000); [reflexivity|vm_compute; discriminate]|]. apply rtc_refl.
Qed.

(** A second caller then connects on its own. *)
Definition pool_busy : system :=
  mkSystem (pool pool_parked) [mkSession 1 4096 30000 None] [] (shared pool_parked) 2.

Lemma pool_busy_reachable : reachable pool_busy.
Proof. eapply rtc_r; [apply pool_parked_reachable|apply (step_connect pool_parked 4096)]. Qed.

Lemma pool_sessions_exclusive_witness :
  (service <$> everything pool_busy = [0; 1] \/ service <$> everything pool_busy = [1; 0]) /\
  NoDup (service <$> everything pool_busy) /\ 1 ∉ cancelled (shared pool_busy) /\
  total_idle (pool pool_busy) <= MAX_TOTAL_IDLE.
Proof.
  destruct (pool_sessions_exclusive pool_busy pool_busy_reachable) as (Hnd & Hheld & _ & Ht).
  split_and!; [vm_compute; auto|done| |done].
  apply (Hheld (mkSession 1 4096 30000 None)). by left.
Defined.

Lemma checkout_gives_usable_witness :
  exists co m w s', checkout pool_key 4096 (pool pool_parked) (shared pool_parked) = (co, m, w) /\
    session co = Some s' /\ service s' ∉ cancelled w.
Proof.
  destruct (checkout pool_key 4096 (pool pool_parked) (shared pool_parked)) as [[co m] w] eqn:E.
  destruct (checkout_gives_usable pool_parked pool_key 4096 co m w pool_parked_reachable E) as (_ & H & _).
  destruct (session co) as [s'|] eqn:Hs; [|exfalso; vm_compute in E; simplify_eq; vm_compute in Hs; done].
  exists co, m, w, s'. split_and!; [done|done|]. by apply (H s').
Defined.
