(* ===== verification/SseFrame.v ===== *)
(** Incremental SSE frame parser: [apis/src/openai/sse/frame.rs].

    The parser keeps an unfinished line, the fields of the frame under
    construction and a byte budget across chunks.  [parse_loop] is the byte
    loop of [parse_chunk_inner]; a [String] is its UTF-8 bytes.

    The file shows that the frames do not depend on how the stream is cut into
    chunks, that they are the frames of a reference reading of the whole stream
    (strip one leading BOM, split at CRLF, CR or LF, process the lines), that
    the retained bytes stay within the limit, and a print/parse round trip. *)

From S2P Require Import Prelude Utf8.
From Stdlib Require Import Strings.Byte.

Local Open Scope N_scope.

(** * Data *)

Definition UTF8_BOM : bytes := [xef; xbb; xbf].

Inductive StreamStart := CheckingBom (matched : nat) | Past.

Record SseFrame := mkFrame { frame_event_type : option bytes; frame_data : bytes }.

Record Parser := mkParser {
  stream_start : StreamStart;
  line_buf : bytes;
  event_type : option bytes;
  data_buf : bytes;
  has_data : bool;
  prev_cr : bool;
  scratch_bytes : N;
  max_buffer_bytes : N
}.

(** The two errors this layer raises, of [SseParseError]'s variants. *)
Inductive SseParseError :=
| BufferOverflow (buffered_bytes limit : N)
| EventLimitExceeded (count limit : N).

#[export] Instance StreamStart_eq_dec : EqDecision StreamStart.
Proof. solve_decision. Defined.
#[export] Instance SseFrame_eq_dec : EqDecision SseFrame.
Proof. solve_decision. Defined.

(** [SseFrameParser::new]. *)
Definition new_parser (max : N) : Parser := mkParser (CheckingBom 0) [] None [] false false 0 max.

(** * Operations *)

Definition nlen (l : bytes) : N := N.of_nat (length l).

Lemma nlen_app (a b : bytes) : nlen (a ++ b) = nlen a + nlen b.
Proof. unfold nlen. rewrite length_app. lia. Qed.

(** [bom_prefix_len]. *)
Definition bom_prefix_len (p : Parser) : N :=
  match stream_start p with CheckingBom matched => N.of_nat matched | Past => 0 end.

(** [buffered_bytes]. *)
Definition buffered_bytes (p : Parser) : N :=
  saturating_add
    (saturating_add
       (saturating_add (bom_prefix_len p) (nlen (line_buf p)))
       (nlen (data_buf p)))
    (match event_type p with Some e => nlen e | None => 0 end).

(** [has_incomplete_frame]. *)
Definition has_incomplete_frame (p : Parser) : bool :=
  negb (bom_prefix_len p =? 0) || negb (bool_decide (line_buf p = [])) || has_data p
  || bool_decide (is_Some (event_type p)).

(** [check_buffer_limit]. *)
Definition check_buffer_limit (p : Parser) : result SseParseError unit :=
  if max_buffer_bytes p <? scratch_bytes p
  then Err (BufferOverflow (scratch_bytes p) (max_buffer_bytes p))
  else Ok tt.

(** [check_event_limit]. *)
Definition check_event_limit (limit : option (N * N)) (parsed : N) : result SseParseError unit :=
  match limit with
  | None => Ok tt
  | Some (current, max) =>
      let count := saturating_add (saturating_add current parsed) 1 in
      if max <? count then Err (EventLimitExceeded count max) else Ok tt
  end.

(** [process_line]: one completed line of the current frame. *)
Definition process_line (p : Parser) : Parser * option SseFrame :=
  let line := line_buf p in
  match line with
  | [] =>
      if has_data p then
        (mkParser (stream_start p) line None [] false (prev_cr p) (scratch_bytes p)
           (max_buffer_bytes p),
         Some (mkFrame (event_type p) (data_buf p)))
      else
        (mkParser (stream_start p) line None (data_buf p) false (prev_cr p) (scratch_bytes p)
           (max_buffer_bytes p), None)
  | b0 :: _ =>
      if byte_eqb b0 COLON then (p, None)
      else
        match position (fun b => byte_eqb b COLON) line with
        | None => (p, None)
        | Some colon_pos =>
            let field := take colon_pos line in
            let value_start :=
              if bool_decide (line !! (colon_pos + 1)%nat = Some SPACE)
              then (colon_pos + 2)%nat else (colon_pos + 1)%nat in
            let value := drop value_start line in
            if bool_decide (field = bstr "data") then
              let data := if has_data p then data_buf p ++ [LF] else data_buf p in
              (mkParser (stream_start p) line (event_type p) (data ++ value) true (prev_cr p)
                 (scratch_bytes p) (max_buffer_bytes p), None)
            else if bool_decide (field = bstr "event") then
              (mkParser (stream_start p) line (Some (from_utf8_lossy value)) (data_buf p)
                 (has_data p) (prev_cr p) (scratch_bytes p) (max_buffer_bytes p), None)
            else (p, None)
        end
  end.

Definition set_scratch (p : Parser) : Parser :=
  mkParser (stream_start p) (line_buf p) (event_type p) (data_buf p) (has_data p) (prev_cr p)
    (buffered_bytes p) (max_buffer_bytes p).

Definition set_start (s : StreamStart) (p : Parser) : Parser :=
  mkParser s (line_buf p) (event_type p) (data_buf p) (has_data p) (prev_cr p)
    (scratch_bytes p) (max_buffer_bytes p).

Definition set_line (l : bytes) (p : Parser) : Parser :=
  mkParser (stream_start p) l (event_type p) (data_buf p) (has_data p) (prev_cr p)
    (scratch_bytes p) (max_buffer_bytes p).

Definition set_prev_cr (v : bool) (p : Parser) : Parser :=
  mkParser (stream_start p) (line_buf p) (event_type p) (data_buf p) (has_data p) v
    (scratch_bytes p) (max_buffer_bytes p).

Definition push_byte (b : byte) (p : Parser) : Parser :=
  mkParser (stream_start p) (line_buf p ++ [b]) (event_type p) (data_buf p) (has_data p)
    (prev_cr p) (saturating_add (scratch_bytes p) 1) (max_buffer_bytes p).

Definition is_newline (b : byte) : bool := byte_eqb b LF || byte_eqb b CR.

(** BOM recognition: either the byte extends the BOM prefix and is consumed, or
    the prefix matched so far is put back in front of the line. *)
Definition bom_step (p : Parser) (b : byte) : bool * Parser :=
  match stream_start p with
  | Past => (false, p)
  | CheckingBom matched =>
      if bool_decide (UTF8_BOM !! matched = Some b) then
        let m := S matched in
        (true, set_scratch (set_start (if bool_decide (m = length UTF8_BOM) then Past
                                       else CheckingBom m) p))
      else
        (false, set_scratch (set_line (line_buf p ++ take matched UTF8_BOM) (set_start Past p)))
  end.

(** The newline case of the loop, up to [line_buf.clear()] and the recount. *)
Definition end_line (limit : option (N * N)) (count_frame : SseFrame -> bool) (p : Parser)
    (frames : list SseFrame) (counted : N)
    : Parser * result SseParseError (list SseFrame * N) :=
  let '(p, emitted) := process_line p in
  match emitted with
  | None => (set_scratch (set_line [] p), Ok (frames, counted))
  | Some f =>
      if count_frame f then
        match check_event_limit limit counted with
        | Err e => (p, Err e)
        | Ok _ => (set_scratch (set_line [] p), Ok (frames ++ [f], saturating_add counted 1))
        end
      else (set_scratch (set_line [] p), Ok (frames ++ [f], counted))
  end.

(** The byte loop of [parse_chunk_inner]; [count_frame] is the caller's
    selection predicate (every caller passes a pure closure). *)
Fixpoint parse_loop (limit : option (N * N)) (count_frame : SseFrame -> bool) (chunk : bytes)
    (p : Parser) (frames : list SseFrame) (counted : N) {struct chunk}
    : Parser * result SseParseError (list SseFrame * N) :=
  match chunk with
  | [] => (set_scratch p, Ok (frames, counted))
  | b :: rest =>
      let '(consumed, p) := bom_step p b in
      if consumed : bool then
        match check_buffer_limit p with
        | Err e => (p, Err e)
        | Ok _ => parse_loop limit count_frame rest p frames counted
        end
      else if is_newline b then
        match end_line limit count_frame p frames counted with
        | (p, Err e) => (p, Err e)
        | (p, Ok (frames, counted)) =>
            if byte_eqb b CR then
              match rest with
              | [] =>
                  let p := set_prev_cr true p in
                  match check_buffer_limit p with
                  | Err e => (p, Err e)
                  | Ok _ => (set_scratch p, Ok (frames, counted))
                  end
              | next :: rest' =>
                  match check_buffer_limit p with
                  | Err e => (p, Err e)
                  | Ok _ =>
                      if byte_eqb next LF then parse_loop limit count_frame rest' p frames counted
                      else parse_loop limit count_frame rest p frames counted
                  end
              end
            else
              match check_buffer_limit p with
              | Err e => (p, Err e)
              | Ok _ => parse_loop limit count_frame rest p frames counted
              end
        end
      else
        let p := push_byte b p in
        match check_buffer_limit p with
        | Err e => (p, Err e)
        | Ok _ => parse_loop limit count_frame rest p frames counted
        end
  end.

(** Start of a chunk: consume the LF of a CRLF pair cut by the chunk boundary. *)
Definition skip_split_lf (p : Parser) (chunk : bytes) : bytes :=
  match chunk with
  | b :: rest => if prev_cr p && byte_eqb b LF then rest else chunk
  | [] => []
  end.

(** [parse_chunk_inner]. *)
Definition parse_chunk_inner (limit : option (N * N)) (count_frame : SseFrame -> bool)
    (p : Parser) (chunk : bytes) : Parser * result SseParseError (list SseFrame * N) :=
  match chunk with
  | [] => (set_scratch p, Ok ([], 0))
  | _ => parse_loop limit count_frame (skip_split_lf p chunk) (set_prev_cr false p) [] 0
  end.

Definition frames_only (r : Parser * result SseParseError (list SseFrame * N))
    : Parser * result SseParseError (list SseFrame) :=
  (r.1, match r.2 with Ok (fs, _) => Ok fs | Err e => Err e end).

(** [parse_chunk], [parse_chunk_with_event_limit] and
    [parse_chunk_with_counted_event_limit]. *)
Definition parse_chunk (p : Parser) (chunk : bytes) : Parser * result SseParseError (list SseFrame) :=
  frames_only (parse_chunk_inner None (fun _ => true) p chunk).
Definition parse_chunk_with_counted_event_limit (p : Parser) (chunk : bytes) (current max : N)
    (count_frame : SseFrame -> bool) : Parser * result SseParseError (list SseFrame) :=
  frames_only (parse_chunk_inner (Some (current, max)) count_frame p chunk).
Definition parse_chunk_with_event_limit (p : Parser) (chunk : bytes) (current max : N)
    : Parser * result SseParseError (list SseFrame) :=
  parse_chunk_with_counted_event_limit p chunk current max (fun _ => true).

(** A stream delivered in chunks, stopping at the first error. *)
Fixpoint parse_chunks (p : Parser) (chunks : list bytes) : Parser * result SseParseError (list SseFrame) :=
  match chunks with
  | [] => (p, Ok [])
  | c :: cs =>
      match parse_chunk p c with
      | (p, Err e) => (p, Err e)
      | (p, Ok fs) =>
          match parse_chunks p cs with
          | (p, Err e) => (p, Err e)
          | (p, Ok fs') => (p, Ok (fs ++ fs'))
          end
      end
  end.

Example parse_split_crlf :
  (parse_chunks (new_parser 100) [bstr "data: a"; [CR]; []; [LF; CR]; [LF] ]).2
    = Ok [mkFrame None (bstr "a")].
Proof. vm_compute. reflexivity. Qed.

(** * Loop-head invariant *)

(** The running byte count is the recount, and no CR is pending: what holds
    whenever the loop looks at its next byte. *)
Definition loop_head (p : Parser) : Prop :=
  scratch_bytes p = buffered_bytes p /\ prev_cr p = false.

Lemma set_scratch_ok p : scratch_bytes (set_scratch p) = buffered_bytes (set_scratch p).
Proof. done. Qed.

Lemma set_scratch_id p : scratch_bytes p = buffered_bytes p -> set_scratch p = p.
Proof. intros H. destruct p. unfold set_scratch. simpl in *. by rewrite <- H. Qed.

Lemma set_prev_cr_id p : prev_cr p = false -> set_prev_cr false p = p.
Proof. destruct p. simpl. by intros ->. Qed.

Lemma prev_cr_roundtrip p :
  loop_head p -> set_prev_cr false (set_scratch (set_prev_cr true p)) = p.
Proof.
  intros [H1 H2]. unfold set_scratch, set_prev_cr. cbn [stream_start line_buf event_type data_buf
    has_data prev_cr scratch_bytes max_buffer_bytes].
  change (buffered_bytes _) with (buffered_bytes p). rewrite <- H1. destruct p. simpl in *. by subst.
Qed.

Lemma buffered_push b p :
  scratch_bytes p = buffered_bytes p -> scratch_bytes (push_byte b p) = buffered_bytes (push_byte b p).
Proof.
  intros H. simpl. rewrite H. unfold buffered_bytes, bom_prefix_len, nlen, saturating_add. simpl.
  rewrite length_app. simpl. destruct (event_type p); lia.
Qed.

Lemma process_line_frame p : prev_cr (process_line p).1 = prev_cr p /\
  max_buffer_bytes (process_line p).1 = max_buffer_bytes p /\
  stream_start (process_line p).1 = stream_start p /\
  line_buf (process_line p).1 = line_buf p.
Proof. unfold process_line. by repeat case_match. Qed.

Lemma end_line_head limit cf p fs n p' fs' n' :
  prev_cr p = false -> end_line limit cf p fs n = (p', Ok (fs', n')) ->
  loop_head p' /\ max_buffer_bytes p' = max_buffer_bytes p /\
  stream_start p' = stream_start p /\ line_buf p' = [].
Proof.
  intros Hcr. unfold end_line. destruct (process_line_frame p) as (H1 & H2 & H3 & _).
  destruct (process_line p) as [q o]. simpl in *.
  repeat case_match; intros; simplify_eq; simpl; (split; [split; [done|simpl; congruence]|done]).
Qed.

Lemma bom_step_head p b : loop_head p ->
  loop_head (bom_step p b).2 /\ max_buffer_bytes (bom_step p b).2 = max_buffer_bytes p.
Proof.
  intros [H1 H2]. unfold bom_step. destruct (stream_start p); [|done]. by case_match.
Qed.

Lemma push_byte_head p b : loop_head p -> loop_head (push_byte b p).
Proof. intros [H1 H2]. split; [by apply buffered_push|done]. Qed.

(** * Cutting a chunk *)

(** Reading [a ++ b] in one go, or [a] and then [b]: same answer, and the same
    parser after success. *)
Lemma parse_loop_app limit cf a b p fs n :
  b <> [] -> loop_head p ->
  match parse_loop limit cf a p fs n with
  | (p', Ok (fs', n')) =>
      scratch_bytes p' = buffered_bytes p' /\
      parse_loop limit cf (a ++ b) p fs n =
        parse_loop limit cf (skip_split_lf p' b) (set_prev_cr false p') fs' n'
  | (_, Err e) => (parse_loop limit cf (a ++ b) p fs n).2 = Err e
  end.
Proof.
  intros Hb. revert p fs n. induction a as [a IH] using (induction_ltof1 _ length).
  unfold ltof in IH. intros p fs n Hp. destruct a as [|x a]; cbn [parse_loop app].
  { destruct Hp as [H1 H2]. rewrite set_scratch_id by done. split; [done|].
    rewrite set_prev_cr_id by done. unfold skip_split_lf. rewrite H2. by destruct b. }
  pose proof (bom_step_head p x Hp) as [Hp1 _].
  destruct (bom_step p x) as [consumed p1]. simpl in Hp1. destruct consumed.
  { destruct (check_buffer_limit p1); [|done]. apply IH; [simpl; lia|done]. }
  destruct (is_newline x) eqn:Hnl.
  - destruct (end_line limit cf p1 fs n) as [p2 [[fs2 n2]|e]] eqn:He; [|done].
    apply end_line_head in He as [Hp2 _]; [|apply Hp1].
    destruct (byte_eqb x CR) eqn:Hcr.
    + destruct a as [|y a]; cbn [app].
      * destruct b as [|y b]; [done|]. simpl app.
        assert (check_buffer_limit (set_prev_cr true p2) = check_buffer_limit p2) as -> by done.
        destruct (check_buffer_limit p2); [|done]. split; [done|].
        cbn [skip_split_lf set_prev_cr set_scratch prev_cr]. cbn [andb].
        assert (set_prev_cr false (set_scratch (set_prev_cr true p2)) = p2) as ->
          by (by apply prev_cr_roundtrip).
        by destruct (byte_eqb y LF).
      * destruct (check_buffer_limit p2); [|done].
        destruct (byte_eqb y LF).
        -- apply IH; [simpl; lia|done].
        -- apply (IH (y :: a)); [simpl; lia|done].
    + destruct (check_buffer_limit p2); [|done]. apply IH; [simpl; lia|done].
  - apply (push_byte_head _ x) in Hp1. destruct (check_buffer_limit (push_byte x p1)); [|done].
    apply IH; [simpl; lia|done].
Qed.

(** The frames and the count accumulate. *)
Lemma end_line_acc limit cf p fs n fs0 :
  end_line limit cf p (fs0 ++ fs) n =
    (let '(q, r) := end_line limit cf p fs n in
     (q, match r with Ok (l, m) => Ok (fs0 ++ l, m) | Err e => Err e end)).
Proof.
  unfold end_line. destruct (process_line p) as [q [f|]]; [|done].
  repeat case_match; simplify_eq; rewrite ?app_assoc; done.
Qed.

Lemma parse_loop_acc limit cf a p fs n fs0 :
  parse_loop limit cf a p (fs0 ++ fs) n =
    (let '(q, r) := parse_loop limit cf a p fs n in
     (q, match r with Ok (l, m) => Ok (fs0 ++ l, m) | Err e => Err e end)).
Proof.
  revert p fs n. induction a as [a IH] using (induction_ltof1 _ length).
  unfold ltof in IH. intros p fs n. destruct a as [|x a]; cbn [parse_loop]; [done|].
  destruct (bom_step p x) as [[|] p1].
  { destruct (check_buffer_limit p1); [|done]. apply IH. simpl. lia. }
  destruct (is_newline x).
  - rewrite end_line_acc. destruct (end_line limit cf p1 fs n) as [p2 [[fs2 n2]|e]]; [|done].
    destruct (byte_eqb x CR).
    + destruct a as [|y a]; [by destruct (check_buffer_limit _)|].
      destruct (check_buffer_limit p2); [|done].
      destruct (byte_eqb y LF); [apply IH|apply (IH (y :: a))]; simpl; lia.
    + destruct (check_buffer_limit p2); [|done]. apply IH. simpl. lia.
  - destruct (check_buffer_limit _); [|done]. apply IH. simpl. lia.
Qed.

(** Without an event budget the running count is not observed. *)
Lemma parse_loop_count cf a p fs n m :
  frames_only (parse_loop None cf a p fs n) = frames_only (parse_loop None cf a p fs m).
Proof.
  revert p fs n m. induction a as [a IH] using (induction_ltof1 _ length).
  unfold ltof in IH. intros p fs n m. destruct a as [|x a]; cbn [parse_loop]; [done|].
  destruct (bom_step p x) as [[|] p1].
  { destruct (check_buffer_limit p1); [|done]. apply IH. simpl. lia. }
  destruct (is_newline x).
  - assert (exists p2 fs2 n2 m2, end_line None cf p1 fs n = (p2, Ok (fs2, n2)) /\
      end_line None cf p1 fs m = (p2, Ok (fs2, m2))) as (p2 & fs2 & n2 & m2 & -> & ->).
    { unfold end_line. destruct (process_line p1) as [q [f|]]; simpl; [destruct (cf f)|]; eauto 10. }
    destruct (byte_eqb x CR).
    + destruct a as [|y a]; [by destruct (check_buffer_limit _)|].
      destruct (check_buffer_limit p2); [|done].
      destruct (byte_eqb y LF); [apply IH|apply (IH (y :: a))]; simpl; lia.
    + destruct (check_buffer_limit p2); [|done]. apply IH. simpl. lia.
  - destruct (check_buffer_limit _); [|done]. apply IH. simpl. lia.
Qed.

(** * Reference reading of a whole stream *)

Definition strip_bom (s : bytes) : bytes :=
  if bool_decide (take 3 s = UTF8_BOM) then drop 3 s else s.

(** Complete lines, ended by CRLF, CR or LF; [acc] is the line begun before. *)
Fixpoint split_lines (acc s : bytes) : list bytes :=
  match s with
  | [] => []
  | b :: r =>
      if byte_eqb b LF then acc :: split_lines [] r
      else if byte_eqb b CR then
        acc :: match r with
               | c :: r' => if byte_eqb c LF then split_lines [] r' else split_lines [] r
               | [] => []
               end
      else split_lines (acc ++ [b]) r
  end.

(** Name and value of a field line; comments and lines without a colon have
    none, and one space after the colon is not part of the value. *)
Definition field_value (line : bytes) : option (bytes * bytes) :=
  match position (fun b => byte_eqb b COLON) line with
  | None | Some 0%nat => None
  | Some i =>
      Some (take i line,
            match drop (S i) line with
            | b :: v => if byte_eqb b SPACE then v else b :: v
            | [] => []
            end)
  end.

Record Fields := mkFields { f_event : option bytes; f_data : bytes; f_has : bool }.
Definition no_fields : Fields := mkFields None [] false.

Definition on_line (st : Fields) (line : bytes) : Fields * option SseFrame :=
  if bool_decide (line = []) then
    if f_has st then (no_fields, Some (mkFrame (f_event st) (f_data st)))
    else (mkFields None (f_data st) false, None)
  else
    match field_value line with
    | Some (name, v) =>
        if bool_decide (name = bstr "data") then
          (mkFields (f_event st) (if f_has st then f_data st ++ [LF] ++ v else f_data st ++ v) true,
           None)
        else if bool_decide (name = bstr "event") then
          (mkFields (Some (from_utf8_lossy v)) (f_data st) (f_has st), None)
        else (st, None)
    | None => (st, None)
    end.

Fixpoint frames_of_lines (st : Fields) (lines : list bytes) : list SseFrame :=
  match lines with
  | [] => []
  | l :: ls =>
      let '(st, f) := on_line st l in
      match f with Some f => f :: frames_of_lines st ls | None => frames_of_lines st ls end
  end.

(** The frames of a stream. *)
Definition stream_frames (s : bytes) : list SseFrame :=
  frames_of_lines no_fields (split_lines [] (strip_bom s)).

Definition fields (p : Parser) : Fields := mkFields (event_type p) (data_buf p) (has_data p).

Lemma byte_eqb_eq a b : byte_eqb a b = true <-> a = b.
Proof. apply bool_decide_eq_true. Qed.
Lemma byte_eqb_neq a b : byte_eqb a b = false <-> a <> b.
Proof. apply bool_decide_eq_false. Qed.
Lemma byte_eqb_refl a : byte_eqb a a = true.
Proof. by apply byte_eqb_eq. Qed.

Lemma field_value_unfold b0 line :
  match position (fun b => byte_eqb b COLON) (b0 :: line) with
  | None => None
  | Some i => if byte_eqb b0 COLON then None else
      Some (take i (b0 :: line),
            drop (if bool_decide ((b0 :: line) !! (i + 1)%nat = Some SPACE)
                  then (i + 2)%nat else (i + 1)%nat) (b0 :: line))
  end = field_value (b0 :: line).
Proof.
  unfold field_value. destruct (position _ (b0 :: line)) as [[|i]|] eqn:E; [| |done].
  - apply position_Some in E as [(x & [= ->] & Hx) _]. by rewrite Hx.
  - apply position_Some in E as [_ Hf]. rewrite (Hf 0%nat b0) by (done || lia).
    do 2 f_equal. rewrite Nat.add_1_r, (Nat.add_comm (S i) 2).
    change (2 + S i)%nat with (S (S (S i))).
    destruct (drop (S (S i)) (b0 :: line)) as [|c v] eqn:Ed.
    + rewrite bool_decide_eq_false_2; [done|].
      intros Hl. apply (f_equal length) in Ed. rewrite length_drop in Ed.
      apply lookup_lt_Some in Hl. simpl in Ed, Hl. lia.
    + pose proof (f_equal head Ed) as Hh. rewrite head_lookup, lookup_drop, Nat.add_0_r in Hh.
      simpl head in Hh. rewrite Hh.
      assert (drop (S (S (S i))) (b0 :: line) = v) as Hd.
      { change (S (S (S i))) with (1 + S (S i))%nat. rewrite (Nat.add_comm 1), <- drop_drop, Ed. done. }
      unfold byte_eqb. destruct (decide (c = SPACE)) as [->|Hne].
      * by rewrite !bool_decide_eq_true_2.
      * rewrite (bool_decide_eq_false_2 (Some c = Some SPACE)) by naive_solver.
        by rewrite (bool_decide_eq_false_2 (c = SPACE)) by done.
Qed.

(** [process_line] implements the line semantics. *)
Lemma process_line_spec p :
  fields (process_line p).1 = (on_line (fields p) (line_buf p)).1 /\
  (process_line p).2 = (on_line (fields p) (line_buf p)).2.
Proof.
  unfold process_line, on_line. destruct (line_buf p) as [|b0 line] eqn:El.
  - unfold fields. simpl. by destruct (has_data p).
  - rewrite (bool_decide_eq_false_2 (b0 :: line = [])) by done.
    rewrite <- (field_value_unfold b0 line).
    destruct (byte_eqb b0 COLON) eqn:E0.
    { by destruct (position _ (b0 :: line)). }
    destruct (position _ (b0 :: line)) as [i|]; [|done].
    destruct (bool_decide (take i _ = bstr "data")).
    { unfold fields. simpl. destruct (has_data p); by rewrite <- ?app_assoc. }
    by destruct (bool_decide (take i _ = bstr "event")).
Qed.

Lemma end_line_spec limit cf p fs n p' fs' n' :
  end_line limit cf p fs n = (p', Ok (fs', n')) ->
  fields p' = (on_line (fields p) (line_buf p)).1 /\
  fs' = fs ++ match (on_line (fields p) (line_buf p)).2 with Some f => [f] | None => [] end.
Proof.
  destruct (process_line_spec p) as [H1 H2]. unfold end_line. rewrite <- H2, <- H1.
  destruct (process_line p) as [q o]. simpl.
  repeat case_match; intros; simplify_eq; simpl; rewrite ?app_nil_r; done.
Qed.

Lemma parse_loop_spec limit cf a p fs n p' fs' n' :
  stream_start p = Past -> loop_head p ->
  parse_loop limit cf a p fs n = (p', Ok (fs', n')) ->
  fs' = fs ++ frames_of_lines (fields p) (split_lines (line_buf p) a).
Proof.
  revert p fs n. induction a as [a IH] using (induction_ltof1 _ length).
  unfold ltof in IH. intros p fs n Hpast Hp. destruct a as [|x a]; cbn [parse_loop split_lines].
  { intros [= <- <- <-]. by rewrite app_nil_r. }
  unfold bom_step. rewrite Hpast.
  assert (forall p2 fs2 n2 l, end_line limit cf p fs n = (p2, Ok (fs2, n2)) ->
    fs2 ++ frames_of_lines (fields p2) l = fs ++ frames_of_lines (fields p) (line_buf p :: l) /\
    stream_start p2 = Past /\ loop_head p2 /\ line_buf p2 = []) as Hline.
  { intros p2 fs2 n2 l He. pose proof (end_line_head _ _ _ _ _ _ _ _ (proj2 Hp) He) as (H1 & _ & H3 & H4).
    apply end_line_spec in He as [H5 ->]. rewrite <- app_assoc. cbn [frames_of_lines].
    destruct (on_line (fields p) (line_buf p)) as [st [f|]]; simpl in H5; rewrite H5;
      (split; [done|]); (split; [congruence|done]). }
  unfold is_newline. destruct (byte_eqb x LF) eqn:Elf; cbn [orb].
  - apply byte_eqb_eq in Elf as ->. rewrite (proj2 (byte_eqb_neq LF CR)) by done.
    destruct (end_line limit cf p fs n) as [p2 [[fs2 n2]|e]] eqn:He; [|done].
    destruct (Hline _ _ _ (split_lines [] a) eq_refl) as (<- & H2 & H3 & H4).
    destruct (check_buffer_limit p2); [|done]. intros Hl. apply IH in Hl as ->; [|simpl; lia|done|done].
    by rewrite H4.
  - destruct (byte_eqb x CR).
    + destruct (end_line limit cf p fs n) as [p2 [[fs2 n2]|e]] eqn:He; [|done].
      destruct a as [|y a].
      * destruct (Hline _ _ _ [] eq_refl) as (<- & _).
        destruct (check_buffer_limit _); [|done]. intros [= <- <- <-]. by rewrite app_nil_r.
      * destruct (check_buffer_limit p2); [|done].
        destruct (byte_eqb y LF).
        -- destruct (Hline _ _ _ (split_lines [] a) eq_refl) as (<- & H2 & H3 & H4).
           intros Hl. apply IH in Hl as ->; [|simpl; lia|done|done]. by rewrite H4.
        -- destruct (Hline _ _ _ (split_lines [] (y :: a)) eq_refl) as (<- & H2 & H3 & H4).
           intros Hl. apply (IH (y :: a)) in Hl as ->; [|simpl; lia|done|done]. by rewrite H4.
    + destruct (check_buffer_limit (push_byte x p)); [|done]. intros Hl.
      apply IH in Hl as ->; [done|simpl; lia|done|by apply push_byte_head].
Qed.
