(* ===== verification/SseFrameProps.v ===== *)
(** Properties of the incremental SSE frame parser.

    Chunk independence, agreement with the reference reading of the whole
    stream, success below the byte limit, the memory bound, the event budget
    and the print/parse round trip. *)

From S2P Require Import Prelude Utf8 SseFrame.
From Stdlib Require Import Strings.Byte.

Local Open Scope N_scope.

(** * Chunk independence *)

Lemma skip_split_lf_app p c r : c <> [] -> skip_split_lf p (c ++ r) = skip_split_lf p c ++ r.
Proof. destruct c as [|b c]; [done|]. simpl. by destruct (_ && _). Qed.

Lemma parse_chunk_nonempty p c :
  c <> [] -> parse_chunk p c =
    frames_only (parse_loop None (fun _ => true) (skip_split_lf p c) (set_prev_cr false p) [] 0).
Proof. by destruct c. Qed.

Lemma parse_chunk_nil p : scratch_bytes p = buffered_bytes p -> parse_chunk p [] = (p, Ok []).
Proof. intros H. unfold parse_chunk, frames_only. simpl. by rewrite set_scratch_id. Qed.

(** Continuing after a prefix that parsed to [fs] prepends [fs]. *)
Lemma parse_loop_resume cf a p fs n :
  frames_only (parse_loop None cf a p fs n) =
    (let '(q, r) := frames_only (parse_loop None cf a p [] 0) in
     (q, match r with Ok l => Ok (fs ++ l) | Err e => Err e end)).
Proof.
  rewrite (parse_loop_count cf a p fs n 0). rewrite <- (app_nil_r fs) at 1.
  rewrite parse_loop_acc. destruct (parse_loop None cf a p [] 0) as [q [[l m]|e]]; done.
Qed.

Lemma parse_chunk_cut p c r :
  scratch_bytes p = buffered_bytes p -> c <> [] -> r <> [] ->
  match parse_chunk p c with
  | (p', Ok fs) =>
      scratch_bytes p' = buffered_bytes p' /\
      parse_chunk p (c ++ r) =
        (let '(q, x) := parse_chunk p' r in
         (q, match x with Ok l => Ok (fs ++ l) | Err e => Err e end))
  | (_, Err e) => (parse_chunk p (c ++ r)).2 = Err e
  end.
Proof.
  intros Hp Hc Hr. rewrite !parse_chunk_nonempty by (try done; by destruct c).
  rewrite skip_split_lf_app by done.
  assert (loop_head (set_prev_cr false p)) as Hh by (split; [exact Hp|done]).
  pose proof (parse_loop_app None (fun _ => true) (skip_split_lf p c) r
    (set_prev_cr false p) [] 0 Hr Hh) as Happ.
  destruct (parse_loop None _ (skip_split_lf p c) _ _ _) as [p' [[fs n]|e]]; cbn [frames_only fst snd].
  - destruct Happ as [Hs ->]. split; [done|].
    by rewrite parse_loop_resume, <- (parse_chunk_nonempty p' r).
  - by rewrite Happ.
Qed.

Lemma parse_chunk_scratch p c p' fs :
  scratch_bytes p = buffered_bytes p -> parse_chunk p c = (p', Ok fs) ->
  scratch_bytes p' = buffered_bytes p'.
Proof.
  intros Hp. destruct (decide (c = [])) as [->|Hc].
  { rewrite parse_chunk_nil by done. by intros [= <- <-]. }
  intros E. pose proof (parse_chunk_cut p c [LF] Hp Hc) as H. rewrite E in H. by apply H.
Qed.

Lemma parse_chunks_gen p cs :
  scratch_bytes p = buffered_bytes p ->
  (parse_chunks p cs).2 = (parse_chunk p (concat cs)).2 /\
  forall fs, (parse_chunks p cs).2 = Ok fs -> parse_chunks p cs = parse_chunk p (concat cs).
Proof.
  revert p. induction cs as [|c cs IH]; intros p Hp; cbn [concat parse_chunks].
  { by rewrite parse_chunk_nil. }
  destruct (decide (c = [])) as [->|Hc].
  { rewrite parse_chunk_nil by done. destruct (IH p Hp) as [H1 H2]. cbn [app].
    destruct (parse_chunks p cs) as [q [l|e]]; [|done]. done. }
  pose proof (parse_chunk_scratch p c) as Hs.
  destruct (parse_chunk p c) as [p1 [fs1|e1]] eqn:E1.
  - specialize (Hs p1 fs1 Hp eq_refl). destruct (IH p1 Hs) as [H1 H2].
    destruct (decide (concat cs = [])) as [Hr|Hr].
    + rewrite Hr, app_nil_r, E1. rewrite Hr, parse_chunk_nil in H1, H2 by done.
      destruct (parse_chunks p1 cs) as [q [l|e]]; simpl in *; [|done].
      specialize (H2 l eq_refl). simplify_eq. by rewrite app_nil_r.
    + pose proof (parse_chunk_cut p c (concat cs) Hp Hc Hr) as Hcut. rewrite E1 in Hcut.
      destruct Hcut as [_ ->]. destruct (parse_chunk p1 (concat cs)) as [q x]. simpl in H1.
      destruct (parse_chunks p1 cs) as [q' x']. simpl in H1, H2. subst x'.
      destruct x as [l|e]; [|done]. specialize (H2 l eq_refl). by simplify_eq.
  - split; [|done]. destruct (decide (concat cs = [])) as [Hr|Hr].
    + by rewrite Hr, app_nil_r, E1.
    + pose proof (parse_chunk_cut p c (concat cs) Hp Hc Hr) as Hcut. by rewrite E1 in Hcut.
Qed.

(** Chunk independence: however the bytes of a stream are cut into chunks
    (inside a line, inside the BOM, between CR and LF, with empty chunks), the
    parser answers the same frames, or fails with the same error, as on the
    whole stream in one chunk; after success it is in the same state. *)
Theorem sse_chunk_independence max cs :
  (parse_chunks (new_parser max) cs).2 = (parse_chunk (new_parser max) (concat cs)).2 /\
  forall fs, (parse_chunks (new_parser max) cs).2 = Ok fs ->
    parse_chunks (new_parser max) cs = parse_chunk (new_parser max) (concat cs).
Proof. by apply parse_chunks_gen. Qed.

(** * Agreement with the reference reading *)

Lemma split_lines_bom_prefix m s :
  (m <= 3)%nat -> split_lines [] (take m UTF8_BOM ++ s) = split_lines (take m UTF8_BOM) s.
Proof. intros Hm. destruct m as [|[|[|[|m]]]]; [done..|lia]. Qed.

Lemma bom_phase_spec m a p fs n p' fs' n' :
  (m < 3)%nat -> stream_start p = CheckingBom m -> loop_head p -> line_buf p = [] ->
  parse_loop None (fun _ => true) a p fs n = (p', Ok (fs', n')) ->
  fs' = fs ++ frames_of_lines (fields p) (split_lines [] (strip_bom (take m UTF8_BOM ++ a))).
Proof.
  revert m p fs n. induction a as [|x a IH]; intros m p fs n Hm Hst Hp Hl; cbn [parse_loop].
  { intros [= <- <- <-]. rewrite app_nil_r. by destruct m as [|[|[|m]]]; [rewrite app_nil_r..|lia]. }
  pose proof (bom_step_head p x Hp) as [Hp1 _]. unfold bom_step in *. rewrite Hst in *.
  case_bool_decide as Hx; cbn [snd] in Hp1.
  - destruct (check_buffer_limit _); [|done].
    assert (take m UTF8_BOM ++ x :: a = take (S m) UTF8_BOM ++ a) as ->.
    { rewrite (take_S_r _ _ _ Hx), <- app_assoc. done. }
    revert Hp1. change (length UTF8_BOM) with 3%nat. case_bool_decide as Hm3; intros Hp1.
    + intros Hloop. apply parse_loop_spec in Hloop as ->; [|done|done].
      injection Hm3 as ->. simpl line_buf. rewrite Hl. done.
    + intros Hloop. eapply (IH (S m)) in Hloop as ->; [done| |done|done|done].
      lia.
  - set (p1 := set_scratch _) in *.
    intros Hloop. change (parse_loop None (fun _ => true) (x :: a) p1 fs n = (p', Ok (fs', n'))) in Hloop.
    apply parse_loop_spec in Hloop as ->; [|done|done].
    assert (strip_bom (take m UTF8_BOM ++ x :: a) = take m UTF8_BOM ++ x :: a) as ->.
    { unfold strip_bom. rewrite bool_decide_eq_false_2; [done|]. intros Heq. apply Hx.
      rewrite <- Heq. rewrite lookup_take_lt by lia.
      rewrite lookup_app_r by (rewrite length_take; simpl; lia).
      rewrite length_take. change (length UTF8_BOM) with 3%nat.
      by replace (m - m `min` 3)%nat with 0%nat by lia. }
    rewrite split_lines_bom_prefix by lia. subst p1. simpl line_buf. rewrite Hl. done.
Qed.

Lemma parse_chunk_frames max s p fs :
  parse_chunk (new_parser max) s = (p, Ok fs) -> fs = stream_frames s.
Proof.
  destruct s as [|b s]; [by intros [= <- <-]|].
  rewrite parse_chunk_nonempty by done. cbn [skip_split_lf new_parser prev_cr andb].
  destruct (parse_loop _ _ _ _ _ _) as [p' [[l n]|e]] eqn:E; [|done].
  cbn [frames_only fst snd]. intros [= <- <-].
  apply (bom_phase_spec 0) in E as ->; [done|lia|done|done|done].
Qed.

(** * Success below the limit *)

Definition potential (p : Parser) : N :=
  3 * bom_prefix_len p + 3 * nlen (line_buf p) + nlen (data_buf p) +
  match event_type p with Some e => nlen e | None => 0 end.

Lemma buffered_le_potential p : buffered_bytes p <= potential p.
Proof. unfold buffered_bytes, potential, saturating_add. destruct (event_type p); lia. Qed.

Lemma process_line_potential p : potential (set_line [] (process_line p).1) <= potential p.
Proof.
  destruct (process_line_frame p) as (_ & _ & Hss & _).
  unfold potential, bom_prefix_len, set_line. cbn [stream_start line_buf event_type data_buf].
  rewrite Hss. change (nlen []) with 0.
  enough (nlen (data_buf (process_line p).1) +
    match event_type (process_line p).1 with Some e => nlen e | None => 0 end <=
    3 * nlen (line_buf p) + nlen (data_buf p) +
    match event_type p with Some e => nlen e | None => 0 end) by (destruct (stream_start p); lia).
  unfold process_line, nlen. destruct (line_buf p) as [|b0 line] eqn:El.
  { destruct (has_data p); simpl; lia. }
  destruct (byte_eqb b0 COLON); [simpl; rewrite ?El; lia|].
  destruct (position _ _) as [i|] eqn:Ei; [|simpl; lia].
  set (vs := if bool_decide (_ = Some SPACE) then _ else _).
  assert (i + 1 <= vs)%nat as Hvs by (subst vs; case_bool_decide; lia).
  case_bool_decide as Hd.
  { cbn [fst data_buf event_type].
    assert (length (drop vs (b0 :: line)) < length (b0 :: line))%nat.
    { rewrite length_drop. simpl. lia. }
    destruct (has_data p); rewrite !length_app; simpl length; simpl length in *; destruct (event_type p); lia. }
  case_bool_decide; [|simpl; lia]. cbn [fst data_buf event_type].
  pose proof (from_utf8_lossy_length (drop vs (b0 :: line))) as Hlen.
  rewrite length_drop in Hlen. simpl length in *. lia.
Qed.

Lemma end_line_no_limit cf p fs n :
  exists p' fs' n', end_line None cf p fs n = (p', Ok (fs', n')) /\ potential p' <= potential p.
Proof.
  unfold end_line. pose proof (process_line_potential p) as H.
  destruct (process_line p) as [q [f|]]; simpl in H |- *; [destruct (cf f)|]; eauto 10.
Qed.

Lemma check_ok p m : loop_head p -> potential p <= m -> m <= max_buffer_bytes p -> check_buffer_limit p = Ok tt.
Proof.
  intros [H _] Hp Hm. unfold check_buffer_limit. rewrite H.
  pose proof (buffered_le_potential p). by rewrite (proj2 (N.ltb_ge _ _)) by lia.
Qed.

Lemma bom_step_potential p x :
  potential (bom_step p x).2 <= potential p + (if (bom_step p x).1 then 3 else 0).
Proof.
  unfold bom_step. destruct (stream_start p) as [m|] eqn:Hs; [|simpl; lia].
  case_bool_decide; unfold potential, bom_prefix_len, nlen; cbn [fst snd set_scratch set_start
    set_line stream_start line_buf data_buf event_type]; rewrite Hs.
  - case_bool_decide; destruct (event_type p); lia.
  - rewrite length_app, length_take. destruct (event_type p); lia.
Qed.

Lemma push_byte_potential b p : potential (push_byte b p) = potential p + 3.
Proof.
  unfold potential, bom_prefix_len, nlen. cbn [push_byte line_buf stream_start data_buf event_type].
  rewrite length_app. simpl length. destruct (event_type p); lia.
Qed.

Lemma parse_loop_total cf a p fs n :
  loop_head p -> potential p + 3 * nlen a <= max_buffer_bytes p ->
  exists p' fs' n', parse_loop None cf a p fs n = (p', Ok (fs', n')).
Proof.
  revert p fs n. induction a as [a IH] using (induction_ltof1 _ length).
  unfold ltof in IH. intros p fs n Hp Hpot. destruct a as [|x a]; cbn [parse_loop]; [eauto|].
  unfold nlen in *. cbn [length] in Hpot. rewrite Nat2N.inj_succ in Hpot.
  pose proof (bom_step_head p x Hp) as [Hp1 Hm1]. pose proof (bom_step_potential p x) as Hpot1.
  destruct (bom_step p x) as [consumed p1]. cbn [fst snd] in *. destruct consumed.
  { rewrite (check_ok p1 (max_buffer_bytes p)) by (done || lia). apply IH; [simpl; lia|done|lia]. }
  destruct (is_newline x).
  - destruct (end_line_no_limit cf p1 fs n) as (p2 & fs2 & n2 & He & Hpot2). rewrite He.
    apply end_line_head in He as (Hp2 & Hm2 & _); [|apply Hp1].
    destruct (byte_eqb x CR).
    + destruct a as [|y a].
      * assert (check_buffer_limit (set_prev_cr true p2) = check_buffer_limit p2) as -> by done.
        rewrite (check_ok p2 (max_buffer_bytes p)) by (done || lia). eauto.
      * rewrite (check_ok p2 (max_buffer_bytes p)) by (done || lia).
        cbn [length] in Hpot. rewrite Nat2N.inj_succ in Hpot.
        destruct (byte_eqb y LF); [apply IH|apply (IH (y :: a))]; try done; cbn [length];
          rewrite ?Nat2N.inj_succ; lia.
    + rewrite (check_ok p2 (max_buffer_bytes p)) by (done || lia). apply IH; [simpl; lia|done|lia].
  - pose proof (push_byte_potential x p1). apply (push_byte_head _ x) in Hp1.
    rewrite (check_ok _ (max_buffer_bytes p)) by (done || (simpl max_buffer_bytes; lia)).
    apply IH; [simpl; lia|done|simpl max_buffer_bytes; lia].
Qed.

Lemma parse_chunk_total max s :
  3 * nlen s <= max -> (parse_chunk (new_parser max) s).2 = Ok (stream_frames s).
Proof.
  intros Hmax. destruct s as [|b s]; [done|].
  destruct (parse_loop_total (fun _ => true) (b :: s) (set_prev_cr false (new_parser max)) [] 0)
    as (p & fs & n & E).
  { done. }
  { simpl max_buffer_bytes. change (potential _) with 0. lia. }
  pose proof (parse_chunk_frames max (b :: s) p fs) as Hf. rewrite parse_chunk_nonempty in Hf |- * by done.
  cbn [skip_split_lf new_parser prev_cr andb] in Hf |- *. rewrite E in Hf |- *. simpl.
  by rewrite (Hf eq_refl).
Qed.

(** C25. The parser computes the reference reading: a stream of [n] bytes, in
    any chunks, under a limit of at least [3 * n] bytes (lossy decoding of an
    event name can triple it) parses without error to exactly the frames
    obtained by stripping one leading BOM, splitting at CRLF, CR or LF and
    processing the lines in order. *)
Theorem sse_frames_of_stream max cs :
  3 * nlen (concat cs) <= max ->
  (parse_chunks (new_parser max) cs).2 = Ok (stream_frames (concat cs)).
Proof.
  intros Hmax. destruct (parse_chunks_gen (new_parser max) cs eq_refl) as [-> _].
  by apply parse_chunk_total.
Qed.

Lemma sse_frames_of_stream_witness :
  (parse_chunks (new_parser 200)
     [ [xef; xbb]; [xbf] ++ bstr "event: ping"; [CR]; [LF] ++ bstr "data: 1"; [LF] ++ bstr "data:2"; [CR; LF; LF] ]).2
  = Ok [mkFrame (Some (bstr "ping")) (bstr "1" ++ [LF] ++ bstr "2")].
Proof. rewrite sse_frames_of_stream; [vm_compute; reflexivity|vm_compute; discriminate]. Defined.

(** * Memory bound *)

Lemma check_passed p : check_buffer_limit p = Ok tt -> scratch_bytes p <= max_buffer_bytes p.
Proof. unfold check_buffer_limit. destruct (N.ltb_spec (max_buffer_bytes p) (scratch_bytes p)); done. Qed.

Lemma check_failed p e : check_buffer_limit p = Err e ->
  exists b, e = BufferOverflow b (max_buffer_bytes p) /\ max_buffer_bytes p < b.
Proof.
  unfold check_buffer_limit. destruct (N.ltb_spec (max_buffer_bytes p) (scratch_bytes p)); [|done].
  intros [= <-]. eauto.
Qed.

(** What a run of the loop guarantees about the byte budget [m]. *)
Definition within_budget (m : N) (r : Parser * result SseParseError (list SseFrame * N)) : Prop :=
  match r with
  | (p, Ok _) => buffered_bytes p <= m /\ scratch_bytes p = buffered_bytes p /\ max_buffer_bytes p = m
  | (_, Err (BufferOverflow b l)) => l = m /\ m < b
  | (_, Err (EventLimitExceeded _ _)) => True
  end.

Lemma checked_step m p (k : Parser * result SseParseError (list SseFrame * N)) :
  max_buffer_bytes p = m -> scratch_bytes p = buffered_bytes p ->
  (buffered_bytes p <= m -> within_budget m k) ->
  within_budget m (match check_buffer_limit p with Err e => (p, Err e) | Ok _ => k end).
Proof.
  intros <- Hs Hk. destruct (check_buffer_limit p) as [[]|e] eqn:E.
  - apply Hk. rewrite <- Hs. by apply check_passed.
  - apply check_failed in E as (b & -> & Hb). done.
Qed.

Lemma parse_loop_budget limit cf a p fs n m :
  loop_head p -> max_buffer_bytes p = m -> buffered_bytes p <= m ->
  within_budget m (parse_loop limit cf a p fs n).
Proof.
  revert p fs n. induction a as [a IH] using (induction_ltof1 _ length).
  unfold ltof in IH. intros p fs n Hp Hm Hb. destruct a as [|x a]; cbn [parse_loop].
  { rewrite set_scratch_id by apply Hp. split; [done|]. split; [apply Hp|done]. }
  pose proof (bom_step_head p x Hp) as [Hp1 Hm1]. rewrite Hm in Hm1.
  destruct (bom_step p x) as [consumed p1]. cbn [fst snd] in *. destruct consumed.
  { apply checked_step; [done|apply Hp1|]. intros. apply IH; [simpl; lia|done..]. }
  destruct (is_newline x).
  - destruct (end_line limit cf p1 fs n) as [p2 [[fs2 n2]|e]] eqn:He.
    2:{ revert He. unfold end_line. destruct (process_line p1) as [q [f|]]; [|done].
        destruct (cf f); [|done]. unfold check_event_limit. repeat case_match; intros; by simplify_eq. }
    apply end_line_head in He as (Hp2 & Hm2 & _); [|apply Hp1]. rewrite Hm1 in Hm2.
    destruct (byte_eqb x CR).
    + destruct a as [|y a].
      * apply checked_step; [done|apply Hp2|]. intros Hle. rewrite set_scratch_id by apply Hp2.
        split; [done|]. split; [apply Hp2|done].
      * apply checked_step; [done|apply Hp2|]. intros Hle.
        destruct (byte_eqb y LF); [apply IH|apply (IH (y :: a))]; try done; simpl; lia.
    + apply checked_step; [done|apply Hp2|]. intros. apply IH; [simpl; lia|done..].
  - apply (push_byte_head _ x) in Hp1. apply checked_step; [done|apply Hp1|].
    intros. apply IH; [simpl; lia|done..].
Qed.

Lemma parse_chunk_inner_budget limit cf p c m :
  scratch_bytes p = buffered_bytes p -> max_buffer_bytes p = m -> buffered_bytes p <= m ->
  within_budget m (parse_chunk_inner limit cf p c).
Proof.
  intros Hs Hm Hb. destruct c as [|b c]; cbn [parse_chunk_inner].
  - rewrite set_scratch_id by done. done.
  - by apply parse_loop_budget.
Qed.

(** Bounded retention: between chunks the parser never retains more than
    [max_buffer_bytes] bytes (BOM prefix, unfinished line, data and event name
    together), whatever the input, event budget and selection predicate; and a
    [BufferOverflow] error reports the configured limit and a count above it. *)
Theorem sse_retention_bounded limit cf p c :
  scratch_bytes p = buffered_bytes p -> buffered_bytes p <= max_buffer_bytes p ->
  match parse_chunk_inner limit cf p c with
  | (p', Ok _) => buffered_bytes p' <= max_buffer_bytes p /\ scratch_bytes p' = buffered_bytes p'
                  /\ max_buffer_bytes p' = max_buffer_bytes p
  | (_, Err (BufferOverflow b l)) => l = max_buffer_bytes p /\ max_buffer_bytes p < b
  | (_, Err (EventLimitExceeded _ _)) => True
  end.
Proof. intros Hs Hb. exact (parse_chunk_inner_budget limit cf p c _ Hs eq_refl Hb). Qed.

Lemma sse_retention_bounded_witness :
  exists b, (parse_chunk_inner None (fun _ => true) (new_parser 4) (bstr "data: x")).2
    = Err (BufferOverflow b 4) /\ 4 < b.
Proof.
  pose proof (sse_retention_bounded None (fun _ => true) (new_parser 4) (bstr "data: x")
    eq_refl ltac:(vm_compute; discriminate)) as H.
  vm_compute in H. exists 5. split; [reflexivity|exact (proj2 H)].
Defined.

(** * Event budget *)

Definition counted (cf : SseFrame -> bool) (fs : list SseFrame) : N :=
  N.of_nat (length (List.filter cf fs)).

Lemma counted_snoc cf fs f : counted cf (fs ++ [f]) = counted cf fs + (if cf f then 1 else 0).
Proof. unfold counted. rewrite List.filter_app, length_app. simpl. destruct (cf f); simpl; lia. Qed.

(** The count the loop carries is the number of selected frames, and it never
    passes the budget. *)
Definition budget_kept (cf : SseFrame -> bool) (cur max : N) (fs : list SseFrame) (n : N) : Prop :=
  n = counted cf fs /\ (n <> 0 -> cur + n <= max).

Lemma end_line_event_budget cf cur max p fs n p' fs' n' :
  max < u64_max -> budget_kept cf cur max fs n ->
  end_line (Some (cur, max)) cf p fs n = (p', Ok (fs', n')) -> budget_kept cf cur max fs' n'.
Proof.
  intros Hmax [Hn Hb]. unfold end_line. destruct (process_line p) as [q [f|]].
  2:{ by intros [= <- <- <-]. }
  destruct (cf f) eqn:Ef.
  - cbn [check_event_limit].
    destruct (N.ltb_spec max (saturating_add (saturating_add cur n) 1)) as [|Hle]; [done|].
    intros [= <- <- <-]. unfold saturating_add in *. split; [rewrite counted_snoc, Ef; lia|lia].
  - intros [= <- <- <-]. split; [rewrite counted_snoc, Ef; lia|done].
Qed.

Lemma parse_loop_event_budget cf cur max a p fs n p' fs' n' :
  max < u64_max -> budget_kept cf cur max fs n ->
  parse_loop (Some (cur, max)) cf a p fs n = (p', Ok (fs', n')) -> budget_kept cf cur max fs' n'.
Proof.
  intros Hmax. revert p fs n. induction a as [a IH] using (induction_ltof1 _ length).
  unfold ltof in IH. intros p fs n Hk. destruct a as [|x a]; cbn [parse_loop].
  { by intros [= <- <- <-]. }
  destruct (bom_step p x) as [[|] p1].
  { destruct (check_buffer_limit p1); [|done]. apply IH; [simpl; lia|done]. }
  destruct (is_newline x).
  - destruct (end_line (Some (cur, max)) cf p1 fs n) as [p2 [[fs2 n2]|e]] eqn:He; [|done].
    pose proof (end_line_event_budget _ _ _ _ _ _ _ _ _ Hmax Hk He) as Hk2.
    destruct (byte_eqb x CR).
    + destruct a as [|y a]; (destruct (check_buffer_limit _); [|done]).
      * by intros [= <- <- <-].
      * destruct (byte_eqb y LF); [apply IH|apply (IH (y :: a))]; try done; simpl; lia.
    + destruct (check_buffer_limit p2); [|done]. apply IH; [simpl; lia|done].
  - destruct (check_buffer_limit _); [|done]. apply IH; [simpl; lia|done].
Qed.

(** Event budget: when a chunk is accepted with [current] events already
    seen, the selected frames it yields keep the total within [max_events]. *)
Theorem sse_event_budget p chunk cur max cf p' fs :
  max < u64_max ->
  parse_chunk_with_counted_event_limit p chunk cur max cf = (p', Ok fs) ->
  counted cf fs <> 0 -> cur + counted cf fs <= max.
Proof.
  intros Hmax. unfold parse_chunk_with_counted_event_limit, parse_chunk_inner.
  destruct chunk as [|b c]; [by intros [= <- <-]|].
  destruct (parse_loop _ _ _ _ _ _) as [q [[l n]|e]] eqn:E; [|done].
  intros [= <- <-]. apply parse_loop_event_budget in E as [-> H]; [done|done|].
  by split.
Qed.

Lemma sse_event_budget_witness :
  exists p fs, parse_chunk_with_counted_event_limit (new_parser 100)
      (bstr "data: a" ++ [LF; LF] ++ bstr "data: [DONE]" ++ [LF; LF]) 4 5
      (fun f => negb (bool_decide (frame_data f = bstr "[DONE]"))) = (p, Ok fs) /\
    length fs = 2%nat /\ 4 + counted (fun f => negb (bool_decide (frame_data f = bstr "[DONE]"))) fs <= 5.
Proof.
  eexists _, _. split; [vm_compute; reflexivity|]. split; [reflexivity|].
  eapply (sse_event_budget (new_parser 100)
      (bstr "data: a" ++ [LF; LF] ++ bstr "data: [DONE]" ++ [LF; LF])).
  - vm_compute. reflexivity.
  - vm_compute. reflexivity.
  - vm_compute. discriminate.
Defined.

(** * Print and parse *)

Definition no_newline (l : bytes) : Prop := LF ∉ l /\ CR ∉ l.

(** An event as a server writes it: an optional name and its data lines. *)
Record Event := mkEvent { ev_name : option bytes; ev_lines : list bytes }.

Definition print_event (e : Event) : bytes :=
  match ev_name e with Some n => bstr "event: " ++ n ++ [LF] | None => [] end ++
  concat ((fun l => bstr "data: " ++ l ++ [LF]) <$> ev_lines e) ++ [LF].

Fixpoint join_lines (ls : list bytes) : bytes :=
  match ls with
  | [] => []
  | [l] => l
  | l :: ls => l ++ [LF] ++ join_lines ls
  end.

Definition event_frame (e : Event) : SseFrame := mkFrame (ev_name e) (join_lines (ev_lines e)).

Definition printable (e : Event) : Prop :=
  (forall n, ev_name e = Some n -> is_utf8 n = true /\ no_newline n) /\
  ev_lines e <> [] /\ Forall no_newline (ev_lines e).

Lemma split_lines_line acc l r :
  no_newline l -> split_lines acc (l ++ LF :: r) = (acc ++ l) :: split_lines [] r.
Proof.
  revert acc. induction l as [|b l IH]; intros acc [H1 H2]; cbn [app split_lines].
  { by rewrite byte_eqb_refl, app_nil_r. }
  rewrite (proj2 (byte_eqb_neq b LF)) by set_solver.
  rewrite (proj2 (byte_eqb_neq b CR)) by set_solver.
  rewrite IH by (split; set_solver). by rewrite <- app_assoc.
Qed.

Lemma split_lines_prefixed pre l r :
  no_newline pre -> no_newline l ->
  split_lines [] ((pre ++ l ++ [LF]) ++ r) = (pre ++ l) :: split_lines [] r.
Proof.
  intros [H1 H2] [H3 H4]. rewrite <- !app_assoc, (app_assoc pre l). cbn [app].
  rewrite split_lines_line; [done|]. split; set_solver.
Qed.

Lemma data_line_frames st l ls :
  frames_of_lines st ((bstr "data: " ++ l) :: ls) =
    frames_of_lines (mkFields (f_event st)
      (if f_has st then f_data st ++ [LF] ++ l else f_data st ++ l) true) ls.
Proof. done. Qed.

Lemma event_line_frames st n ls :
  frames_of_lines st ((bstr "event: " ++ n) :: ls) =
    frames_of_lines (mkFields (Some (from_utf8_lossy n)) (f_data st) (f_has st)) ls.
Proof. done. Qed.

Lemma print_data_lines st ls r :
  Forall no_newline ls -> f_has st = true ->
  frames_of_lines st (split_lines [] (concat ((fun l => bstr "data: " ++ l ++ [LF]) <$> ls) ++ LF :: r))
    = mkFrame (f_event st) (f_data st ++ concat ((fun l => [LF] ++ l) <$> ls))
        :: frames_of_lines no_fields (split_lines [] r).
Proof.
  intros Hls. revert st. induction Hls as [|l ls Hl Hls IH]; intros st Hst.
  { destruct st as [ev d h]. simpl in *. subst. rewrite app_nil_r. done. }
  rewrite !fmap_cons. cbn [concat]. rewrite <- (app_assoc (bstr "data: " ++ _) _ (LF :: r)).
  rewrite split_lines_prefixed by (done || (split; vm_compute; set_solver)).
  rewrite data_line_frames, IH by done. rewrite Hst. cbn [f_event f_data]. by rewrite <- !app_assoc.
Qed.

Lemma join_lines_cons l ls : join_lines (l :: ls) = l ++ concat ((fun l => [LF] ++ l) <$> ls).
Proof.
  revert l. induction ls as [|k ls IH]; intros l; [by rewrite app_nil_r|].
  change (join_lines (l :: k :: ls)) with (l ++ [LF] ++ join_lines (k :: ls)). rewrite IH. done.
Qed.

Lemma print_event_frames e r :
  printable e ->
  frames_of_lines no_fields (split_lines [] (print_event e ++ r)) =
    event_frame e :: frames_of_lines no_fields (split_lines [] r).
Proof.
  intros (Hn & Hne & Hls). unfold print_event, event_frame.
  destruct e as [name ls]. cbn [ev_name ev_lines] in *.
  destruct ls as [|l ls]; [done|]. apply Forall_cons in Hls as [Hl Hls].
  rewrite join_lines_cons, fmap_cons. cbn [concat].
  replace ((match name with Some n => bstr "event: " ++ n ++ [LF] | None => [] end ++
      ((bstr "data: " ++ l ++ [LF]) ++ concat ((fun l => bstr "data: " ++ l ++ [LF]) <$> ls)) ++ [LF]) ++ r)
    with (match name with Some n => bstr "event: " ++ n ++ [LF] | None => [] end ++
      (bstr "data: " ++ l ++ [LF]) ++ concat ((fun l => bstr "data: " ++ l ++ [LF]) <$> ls) ++ LF :: r)
    by by rewrite <- !app_assoc.
  assert (forall st, f_has st = false -> f_data st = [] ->
    frames_of_lines st (split_lines [] ((bstr "data: " ++ l ++ [LF]) ++
      concat ((fun l => bstr "data: " ++ l ++ [LF]) <$> ls) ++ LF :: r)) =
    mkFrame (f_event st) (l ++ concat ((fun l => [LF] ++ l) <$> ls))
      :: frames_of_lines no_fields (split_lines [] r)) as Hdata.
  { intros st H1 H2. rewrite split_lines_prefixed by (done || (split; vm_compute; set_solver)).
    rewrite data_line_frames, print_data_lines by done. rewrite H1, H2. done. }
  destruct name as [n|]; [|by rewrite app_nil_l, Hdata].
  destruct (Hn n eq_refl) as [Hu Hnn].
  rewrite split_lines_prefixed by (done || (split; vm_compute; set_solver)).
  rewrite event_line_frames. cbn [no_fields f_data f_has].
  rewrite Hdata by done. cbn [f_event]. by rewrite from_utf8_lossy_valid.
Qed.

Lemma print_events_frames es :
  Forall printable es ->
  frames_of_lines no_fields (split_lines [] (concat (print_event <$> es))) = event_frame <$> es.
Proof.
  induction 1 as [|e es He Hes IH]; [done|]. csimpl. rewrite print_event_frames by done. by rewrite IH.
Qed.

Lemma print_events_no_bom es : Forall printable es ->
  strip_bom (concat (print_event <$> es)) = concat (print_event <$> es).
Proof.
  intros Hes. unfold strip_bom. rewrite bool_decide_eq_false_2; [done|].
  destruct Hes as [|[[n|] ls] es He Hes]; [done|done|].
  destruct ls as [|l ls]; [|done]. by destruct He as (_ & ? & _).
Qed.

(** Round trip: a sequence of events, printed with an [event:] line for
    the name and one [data:] line per data line, and delivered in any chunks,
    parses back to exactly those events. *)
Theorem sse_print_parse max es cs :
  Forall printable es -> concat cs = concat (print_event <$> es) -> 3 * nlen (concat cs) <= max ->
  (parse_chunks (new_parser max) cs).2 = Ok (event_frame <$> es).
Proof.
  intros Hes Hcs Hmax. destruct (parse_chunks_gen (new_parser max) cs eq_refl) as [-> _].
  rewrite parse_chunk_total by done. unfold stream_frames.
  by rewrite Hcs, print_events_no_bom, print_events_frames.
Qed.

Lemma sse_print_parse_witness :
  (parse_chunks (new_parser 500)
     [take 9 (print_event (mkEvent (Some (bstr "delta")) [bstr "{"; bstr "}"]));
      drop 9 (print_event (mkEvent (Some (bstr "delta")) [bstr "{"; bstr "}"]));
      print_event (mkEvent None [bstr "[DONE]"])]).2
  = Ok [mkFrame (Some (bstr "delta")) (bstr "{" ++ [LF] ++ bstr "}"); mkFrame None (bstr "[DONE]")].
Proof.
  apply (sse_print_parse 500 [mkEvent (Some (bstr "delta")) [bstr "{"; bstr "}"]; mkEvent None [bstr "[DONE]"] ]).
  - assert (forall l : bytes, forallb (fun b => negb (is_newline b)) l = true -> no_newline l) as Hnn.
    { intros l H. rewrite forallb_forall in H. split; intros Hin; apply list_elem_of_In in Hin;
        apply H in Hin; vm_compute in Hin; discriminate. }
    apply Forall_cons; split; [|apply Forall_cons; split; [|apply Forall_nil_2]].
    all: (split; [intros n' Hn; simplify_eq/=; try (split; [reflexivity|by apply Hnn])|]).
    all: (split; [done|]).
    all: repeat (apply Forall_cons; split; [by apply Hnn|]); apply Forall_nil_2.
  - reflexivity.
  - vm_compute. discriminate.
Defined.
