(* ===== verification/A2aSse.v ===== *)
(** Bounded SSE scanner for A2A responses: [filters/src/agentic/a2a/sse.rs].

    Unlike the frame parser of [SseFrame], this scanner never fails: an event
    that outgrows [max_scratch_bytes] is discarded while it arrives and scanning
    resumes at the next blank line.  [scan_loop] is the byte loop of
    [scan_sse_chunk], one [match] of the body per byte.

    Shown in [A2aSseProps]: the reading of a stream does not depend on its
    chunks, the bytes kept never exceed the limit, the payloads and drops are
    those of a line-by-line reference reading, what follows a blank line is read
    as on a fresh stream, and the flush at end of stream supplies the missing
    blank line. *)

From S2P Require Import Prelude Utf8 SseFrame.

Local Open Scope N_scope.

(** * Data *)

Inductive SkipPhase := NotSkipping | LineEmptySoFar | LineHasContent.
Inductive ScanTail := Payload | Dropped.

#[export] Instance SkipPhase_eq_dec : EqDecision SkipPhase.
Proof. solve_decision. Defined.
#[export] Instance ScanTail_eq_dec : EqDecision ScanTail.
Proof. solve_decision. Defined.

Record SseScanState := mkScan {
  s_line_buf : bytes;
  s_data_buf : bytes;
  s_has_data : bool;
  s_prev_cr : bool;
  s_scratch_bytes : N;
  skip : SkipPhase;
  tail : ScanTail
}.

(** [SseScanState::default()]. *)
Definition scan_default : SseScanState := mkScan [] [] false false 0 NotSkipping Payload.

Record SseScanResult := mkScanResult { payloads : list bytes; dropped_events : N }.

(** [SkipPhase::as_str] and [SkipPhase::from_metadata_str]. *)
Definition skip_as_str (p : SkipPhase) : string :=
  match p with
  | NotSkipping => "not_skipping"
  | LineEmptySoFar => "line_empty"
  | LineHasContent => "line_has_content"
  end.

Definition skip_from_metadata_str (s : option string) : SkipPhase :=
  match s with
  | Some s =>
      if bool_decide (s = "line_empty"%string) then LineEmptySoFar
      else if bool_decide (s = "line_has_content"%string) then LineHasContent
      else NotSkipping
  | None => NotSkipping
  end.

(** [ScanTail::as_str] and [ScanTail::from_metadata_str]. *)
Definition tail_as_str (t : ScanTail) : string :=
  match t with Payload => "payload" | Dropped => "dropped" end.

Definition tail_from_metadata_str (s : option string) : ScanTail :=
  match s with
  | Some s => if bool_decide (s = "dropped"%string) then Dropped else Payload
  | None => Payload
  end.

(** * Scanning *)

(** [process_line]: returns [data_buf], [has_data] and the extended payloads. *)
Definition scan_line (line data_buf : bytes) (has_data : bool) (payloads : list bytes)
    : bytes * bool * list bytes :=
  match line with
  | [] => if has_data then ([], false, payloads ++ [data_buf]) else (data_buf, has_data, payloads)
  | b0 :: _ =>
      if byte_eqb b0 COLON then (data_buf, has_data, payloads)
      else
        match position (fun b => byte_eqb b COLON) line with
        | None => (data_buf, has_data, payloads)
        | Some colon_pos =>
            if bool_decide (take colon_pos line = bstr "data") then
              let value_start :=
                if bool_decide (line !! (colon_pos + 1)%nat = Some SPACE)
                then (colon_pos + 2)%nat else (colon_pos + 1)%nat in
              let value := drop value_start line in
              let data_buf := if has_data then data_buf ++ [LF] else data_buf in
              (data_buf ++ value, true, payloads)
            else (data_buf, has_data, payloads)
        end
  end.

Definition set_skip (ph : SkipPhase) (s : SseScanState) : SseScanState :=
  mkScan (s_line_buf s) (s_data_buf s) (s_has_data s) (s_prev_cr s) (s_scratch_bytes s) ph (tail s).

Definition set_scan_cr (v : bool) (s : SseScanState) : SseScanState :=
  mkScan (s_line_buf s) (s_data_buf s) (s_has_data s) v (s_scratch_bytes s) (skip s) (tail s).

(** The [match state.skip] of the loop body. *)
Definition dispatch_byte (b : byte) (s : SseScanState) (ps : list bytes)
    : SseScanState * list bytes :=
  match skip s with
  | NotSkipping =>
      if is_newline b then
        let '(data, has, ps') := scan_line (s_line_buf s) (s_data_buf s) (s_has_data s) ps in
        let t := if (length ps <? length ps')%nat then Payload else tail s in
        (mkScan [] data has (s_prev_cr s) (s_scratch_bytes s) (skip s) t, ps')
      else
        (mkScan (s_line_buf s ++ [b]) (s_data_buf s) (s_has_data s) (s_prev_cr s)
           (s_scratch_bytes s) (skip s) (tail s), ps)
  | LineEmptySoFar => (set_skip (if is_newline b then NotSkipping else LineHasContent) s, ps)
  | LineHasContent => ((if is_newline b then set_skip LineEmptySoFar s else s), ps)
  end.

(** The scratch accounting at the end of the loop body. *)
Definition enforce_limit (max : N) (b : byte) (s : SseScanState) (dropped : N)
    : SseScanState * N :=
  match skip s with
  | NotSkipping =>
      let scratch := nlen (s_line_buf s) + nlen (s_data_buf s) in
      if max <? scratch then
        (mkScan [] [] false (s_prev_cr s) 0
           (if is_newline b then LineEmptySoFar else LineHasContent) Dropped, dropped + 1)
      else
        (mkScan (s_line_buf s) (s_data_buf s) (s_has_data s) (s_prev_cr s) scratch
           (skip s) (tail s), dropped)
  | _ => (s, dropped)
  end.

Fixpoint scan_loop (max : N) (chunk : bytes) (s : SseScanState) (ps : list bytes) (dropped : N)
    {struct chunk} : SseScanState * SseScanResult :=
  match chunk with
  | [] => (s, mkScanResult ps dropped)
  | b :: rest =>
      let '(s, ps) := dispatch_byte b s ps in
      if byte_eqb b CR then
        match rest with
        | [] =>
            let '(s, dropped) := enforce_limit max b (set_scan_cr true s) dropped in
            (s, mkScanResult ps dropped)
        | next :: rest' =>
            let '(s, dropped) := enforce_limit max b s dropped in
            if byte_eqb next LF then scan_loop max rest' s ps dropped
            else scan_loop max rest s ps dropped
        end
      else
        let '(s, dropped) := enforce_limit max b s dropped in
        scan_loop max rest s ps dropped
  end.

(** [scan_sse_chunk]. *)
Definition scan_sse_chunk (s : SseScanState) (chunk : bytes) (max : N)
    : SseScanState * SseScanResult :=
  let chunk' :=
    match chunk with
    | b :: rest => if s_prev_cr s && byte_eqb b LF then rest else chunk
    | [] => []
    end in
  scan_loop max chunk' (set_scan_cr false s) [] 0.

(** [flush_sse_state]. *)
Definition flush_sse_state (s : SseScanState) (ps : list bytes) : SseScanState * list bytes :=
  let '(line, data, has, ps1) :=
    match s_line_buf s with
    | [] => ([], s_data_buf s, s_has_data s, ps)
    | line => let '(d, h, p) := scan_line line (s_data_buf s) (s_has_data s) ps in ([], d, h, p)
    end in
  let '(data, has, ps2) := if has : bool then ([], false, ps1 ++ [data]) else (data, has, ps1) in
  (mkScan line data has (s_prev_cr s) 0 (skip s)
     (if (length ps <? length ps2)%nat then Payload else tail s), ps2).

(** The chunks of a response in order, as the body callback delivers them. *)
Fixpoint scan_chunks (s : SseScanState) (cs : list bytes) (max : N)
    : SseScanState * SseScanResult :=
  match cs with
  | [] => (s, mkScanResult [] 0)
  | c :: cs =>
      let '(s1, r1) := scan_sse_chunk s c max in
      let '(s2, r2) := scan_chunks s1 cs max in
      (s2, mkScanResult (payloads r1 ++ payloads r2) (dropped_events r1 + dropped_events r2))
  end.

(** * Phases as metadata strings *)

Lemma skip_roundtrip p : skip_from_metadata_str (Some (skip_as_str p)) = p.
Proof. by destruct p. Qed.

Lemma tail_roundtrip t : tail_from_metadata_str (Some (tail_as_str t)) = t.
Proof. by destruct t. Qed.

(** * Accumulators and chunk boundaries *)

Lemma scan_line_acc line d h ps :
  scan_line line d h ps =
  (let '(d', h', p') := scan_line line d h [] in (d', h', ps ++ p')).
Proof.
  unfold scan_line. destruct line as [|b line]; [destruct h; by rewrite ?app_nil_r|].
  destruct (byte_eqb b COLON); [by rewrite app_nil_r|].
  destruct (position _ _); [|by rewrite app_nil_r].
  destruct (bool_decide _); by rewrite app_nil_r.
Qed.

Lemma dispatch_byte_acc b s ps :
  dispatch_byte b s ps = (let '(s', p') := dispatch_byte b s [] in (s', ps ++ p')).
Proof.
  unfold dispatch_byte. destruct (skip s), (is_newline b); rewrite ?app_nil_r; try done.
  rewrite scan_line_acc. destruct (scan_line _ _ _ []) as [[d h] p].
  do 2 f_equal. f_equal. rewrite length_app. simpl.
  destruct p; simpl; [by rewrite Nat.add_0_r, Nat.ltb_irrefl|].
  by rewrite (proj2 (Nat.ltb_lt _ _)) by lia.
Qed.

Lemma enforce_limit_acc max b s d :
  enforce_limit max b s d = (let '(s', d') := enforce_limit max b s 0 in (s', d + d')).
Proof.
  unfold enforce_limit. destruct (skip s); rewrite ?N.add_0_r; try done.
  case_match; f_equal; lia.
Qed.

Lemma scan_loop_acc max c s ps d :
  scan_loop max c s ps d =
  (let '(s', r) := scan_loop max c s [] 0 in
   (s', mkScanResult (ps ++ payloads r) (d + dropped_events r))).
Proof.
  revert s ps d. induction c as [c IH] using (induction_ltof1 _ length). unfold ltof in IH.
  intros s ps d. destruct c as [|b c]; [by simpl; rewrite app_nil_r, N.add_0_r|].
  cbn [scan_loop]. rewrite dispatch_byte_acc. destruct (dispatch_byte b s []) as [s1 p1].
  assert (forall c' s2 d2, (length c' < length (b :: c))%nat ->
    scan_loop max c' s2 (ps ++ p1) (d + d2) =
    (let '(s', r) := scan_loop max c' s2 p1 d2 in
     (s', mkScanResult (ps ++ payloads r) (d + dropped_events r)))) as Hstep.
  { intros c' s2 d2 Hlt. rewrite (IH c' Hlt s2 (ps ++ p1)), (IH c' Hlt s2 p1).
    destruct (scan_loop max c' s2 [] 0) as [s3 r3]. simpl. by rewrite app_assoc, N.add_assoc. }
  destruct (byte_eqb b CR).
  - destruct c as [|y c].
    + rewrite enforce_limit_acc. by destruct (enforce_limit _ _ _ 0).
    + rewrite enforce_limit_acc. destruct (enforce_limit _ _ _ 0) as [s2 d2].
      destruct (byte_eqb y LF); apply Hstep; simpl; lia.
  - rewrite enforce_limit_acc. destruct (enforce_limit _ _ _ 0) as [s2 d2].
    apply Hstep. simpl. lia.
Qed.

Lemma set_scan_cr_id s : s_prev_cr s = false -> set_scan_cr false s = s.
Proof. by destruct s; simpl; intros ->. Qed.

Lemma dispatch_byte_cr b s ps : s_prev_cr (dispatch_byte b s ps).1 = s_prev_cr s.
Proof.
  unfold dispatch_byte. destruct (skip s), (is_newline b); try done.
  by destruct (scan_line _ _ _ _) as [[??]?].
Qed.

Lemma enforce_limit_cr max b s d : s_prev_cr (enforce_limit max b s d).1 = s_prev_cr s.
Proof. unfold enforce_limit. destruct (skip s); [case_match|..]; done. Qed.

Lemma enforce_limit_set_cr max b v s d :
  enforce_limit max b (set_scan_cr v s) d =
  (set_scan_cr v (enforce_limit max b s d).1, (enforce_limit max b s d).2).
Proof. unfold enforce_limit. cbn. destruct (skip s); [case_match|..]; done. Qed.

Lemma scan_loop_app max a c s ps d :
  c <> [] -> s_prev_cr s = false ->
  scan_loop max (a ++ c) s ps d =
  (let '(s1, r1) := scan_loop max a s ps d in
   let '(s2, r2) := scan_sse_chunk s1 c max in
   (s2, mkScanResult (payloads r1 ++ payloads r2) (dropped_events r1 + dropped_events r2))).
Proof.
  intros Hc. revert s ps d. induction a as [a IH] using (induction_ltof1 _ length).
  unfold ltof in IH. intros s ps d Hcr. destruct a as [|b a].
  { cbn [app scan_loop]. unfold scan_sse_chunk. rewrite Hcr, set_scan_cr_id by done.
    rewrite scan_loop_acc. destruct c; [done|]. cbn [andb].
    by destruct (scan_loop max _ s [] 0). }
  cbn [app scan_loop]. pose proof (dispatch_byte_cr b s ps) as Hd.
  destruct (dispatch_byte b s ps) as [s1 p1]. cbn [fst] in Hd. rewrite Hcr in Hd.
  pose proof (enforce_limit_cr max b s1 d) as He. rewrite Hd in He.
  destruct (byte_eqb b CR).
  - destruct a as [|y a].
    + destruct c as [|y c]; [done|]. cbn [app]. rewrite enforce_limit_set_cr.
      destruct (enforce_limit max b s1 d) as [s2 d2]. cbn [fst snd] in He |- *.
      unfold scan_sse_chunk.
      assert (set_scan_cr false (set_scan_cr true s2) = s2) as ->
        by (destruct s2; simpl in *; by subst).
      cbn [s_prev_cr set_scan_cr andb payloads dropped_events].
      destruct (byte_eqb y LF); rewrite scan_loop_acc;
        by destruct (scan_loop max _ s2 [] 0).
    + cbn [app]. destruct (enforce_limit max b s1 d) as [s2 d2]. cbn [fst] in He.
      destruct (byte_eqb y LF); [by rewrite IH by (done || simpl; lia)|].
      change (y :: a ++ c) with ((y :: a) ++ c). by rewrite IH by (done || simpl; lia).
  - destruct (enforce_limit max b s1 d) as [s2 d2]. cbn [fst] in He.
    by rewrite IH by (done || simpl; lia).
Qed.

Lemma scan_chunk_cut max a c s :
  a <> [] -> c <> [] ->
  scan_sse_chunk s (a ++ c) max =
  (let '(s1, r1) := scan_sse_chunk s a max in
   let '(s2, r2) := scan_sse_chunk s1 c max in
   (s2, mkScanResult (payloads r1 ++ payloads r2) (dropped_events r1 + dropped_events r2))).
Proof.
  intros Ha Hc. unfold scan_sse_chunk at 1 2. destruct a as [|b a]; [done|]. cbn [app].
  destruct (s_prev_cr s && byte_eqb b LF).
  - by rewrite scan_loop_app.
  - change (b :: a ++ c) with ((b :: a) ++ c). by rewrite scan_loop_app.
Qed.

Lemma scan_chunks_whole max cs c s :
  Forall (fun x => x <> []) (c :: cs) ->
  scan_chunks s (c :: cs) max = scan_sse_chunk s (concat (c :: cs)) max.
Proof.
  revert c s. induction cs as [|c' cs IH]; intros c s Hne.
  { cbn [concat scan_chunks]. rewrite app_nil_r.
    destruct (scan_sse_chunk s c max) as [s1 [p1 d1]]. cbn.
    by rewrite app_nil_r, N.add_0_r. }
  apply Forall_cons in Hne as [Hc Hne].
  change (concat (c :: c' :: cs)) with (c ++ concat (c' :: cs)).
  rewrite scan_chunk_cut by (done || (apply Forall_cons in Hne as [Hc' _]; by destruct c')).
  change (scan_chunks s (c :: c' :: cs) max) with
    (let '(s1, r1) := scan_sse_chunk s c max in
     let '(s2, r2) := scan_chunks s1 (c' :: cs) max in
     (s2, mkScanResult (payloads r1 ++ payloads r2) (dropped_events r1 + dropped_events r2))).
  destruct (scan_sse_chunk s c max) as [s1 r1]. by rewrite IH.
Qed.
