(* ===== verification/A2aSseProps.v ===== *)
(** Properties of the A2A SSE scanner ([A2aSse]): the line-by-line reference
    reading, the retention bound, recovery after oversized events and the flush
    at end of stream. *)

From S2P Require Import Prelude Utf8 SseFrame SseFrameProps A2aSse.

Local Open Scope N_scope.

(** * Reference reading with drops *)

(** Either the fields of the current event are collected, or the rest of an
    oversized event is skipped up to its blank line. *)
Inductive Mode := Collecting (st : Fields) | Skipping.

Definition line_step (max : N) (m : Mode) (line : bytes) : Mode * list bytes * N :=
  match m with
  | Skipping => (if bool_decide (line = []) then Collecting no_fields else Skipping, [], 0)
  | Collecting st =>
      if max <? nlen (f_data st) + nlen line then (Skipping, [], 1)
      else let '(st, f) := on_line st line in
           (Collecting st, match f with Some f => [frame_data f] | None => [] end, 0)
  end.

Fixpoint read_lines (max : N) (m : Mode) (lines : list bytes) : Mode * list bytes * N :=
  match lines with
  | [] => (m, [], 0)
  | l :: ls =>
      let '(m, ps, d) := line_step max m l in
      let '(m, ps', d') := read_lines max m ls in
      (m, ps ++ ps', d + d')
  end.

(** The line a stream leaves unfinished, [acc] being the part already read. *)
Fixpoint unfinished (acc s : bytes) : bytes :=
  match s with
  | [] => acc
  | b :: r =>
      if byte_eqb b LF then unfinished [] r
      else if byte_eqb b CR then
        match r with
        | c :: r' => if byte_eqb c LF then unfinished [] r' else unfinished [] r
        | [] => []
        end
      else unfinished (acc ++ [b]) r
  end.

(** An unfinished line already too long counts its event as dropped. *)
Definition overflowing (max : N) (m : Mode) (line : bytes) : N :=
  match m with
  | Collecting st => if max <? nlen (f_data st) + nlen line then 1 else 0
  | Skipping => 0
  end.

(** Payloads and dropped events of the bytes [s] read after the partial line
    [acc] in mode [m]. *)
Definition read_stream (max : N) (m : Mode) (acc s : bytes) : list bytes * N :=
  let '(m', ps, d) := read_lines max m (split_lines acc s) in
  (ps, d + overflowing max m' (unfinished acc s)).

(** ** Equations of the reference reading *)

Lemma read_stream_push max m acc b s :
  is_newline b = false -> read_stream max m acc (b :: s) = read_stream max m (acc ++ [b]) s.
Proof.
  unfold is_newline. intros [H1 H2]%orb_false_iff. unfold read_stream. cbn [split_lines unfinished].
  by rewrite H1, H2.
Qed.

(** After a newline the reading goes on in the mode the line leads to. *)
Lemma read_stream_newline max m acc b s :
  is_newline b = true ->
  read_stream max m acc (b :: s) =
  (let '(m', ps, d) := line_step max m acc in
   let rest := match s with
               | c :: s' => if byte_eqb b CR && byte_eqb c LF then s' else s
               | [] => []
               end in
   let '(ps', d') := read_stream max m' [] rest in (ps ++ ps', d + d')).
Proof.
  intros Hb. unfold read_stream. cbn [split_lines unfinished].
  assert (byte_eqb b LF = true /\ byte_eqb b CR = false \/
          byte_eqb b LF = false /\ byte_eqb b CR = true) as [[-> ->]|[-> ->]].
  { unfold is_newline in Hb. apply orb_true_iff in Hb as [Hb|Hb]; [left|right].
    - split; [done|]. apply byte_eqb_eq in Hb as ->. done.
    - split; [|done]. apply byte_eqb_eq in Hb as ->. done. }
  - cbn [andb]. assert (match s with [] => [] | _ :: _ => s end = s) as -> by by destruct s.
    cbn [read_lines]. destruct (line_step max m acc) as [[m' ps] d].
    destruct (read_lines max m' _) as [[m2 ps2] d2]. by rewrite N.add_assoc.
  - cbn [andb]. destruct s as [|c s].
    + cbn [read_lines split_lines unfinished].
      destruct (line_step max m acc) as [[m' ps] d]. by rewrite N.add_assoc.
    + destruct (byte_eqb c LF); cbn [read_lines]; destruct (line_step max m acc) as [[m' ps] d];
        destruct (read_lines max m' _) as [[m2 ps2] d2]; by rewrite N.add_assoc.
Qed.

(** A partial line that is too long already decides the event's fate. *)
Lemma read_stream_overflow max st acc s :
  acc <> [] -> max < nlen (f_data st) + nlen acc ->
  read_stream max (Collecting st) acc s =
  (let '(ps, d) := read_stream max Skipping acc s in (ps, 1 + d)).
Proof.
  revert acc. induction s as [|b s IH]; intros acc Hne Hover.
  { unfold read_stream. cbn. by rewrite (proj2 (N.ltb_lt _ _)). }
  destruct (is_newline b) eqn:Hb.
  - rewrite !read_stream_newline by done. cbn [line_step].
    rewrite (proj2 (N.ltb_lt _ _)), bool_decide_eq_false_2 by done.
    destruct (read_stream max Skipping [] _) as [ps d]. by rewrite N.add_assoc.
  - rewrite !read_stream_push by done. apply IH; [by destruct acc|].
    unfold nlen in *. rewrite length_app. simpl. lia.
Qed.

(** * What the scanner keeps *)

Definition kept (s : SseScanState) : N := nlen (s_line_buf s) + nlen (s_data_buf s).

Definition scan_inv (max : N) (s : SseScanState) : Prop :=
  kept s <= max /\ s_scratch_bytes s = kept s /\
  (s_has_data s = false -> s_data_buf s = []) /\
  (skip s <> NotSkipping -> s_line_buf s = [] /\ s_data_buf s = [] /\ s_has_data s = false) /\
  (s_prev_cr s = true -> s_line_buf s = [] /\ skip s <> LineHasContent).

(** The scanner's state and the reference mode describe the same position. *)
Definition reads (s : SseScanState) (m : Mode) (acc : bytes) : Prop :=
  match skip s, m with
  | NotSkipping, Collecting st =>
      acc = s_line_buf s /\ f_data st = s_data_buf s /\ f_has st = s_has_data s
  | LineEmptySoFar, Skipping => acc = []
  | LineHasContent, Skipping => acc <> []
  | _, _ => False
  end.

Lemma scan_default_inv max : scan_inv max scan_default.
Proof. unfold scan_inv, kept, nlen. simpl. split_and!; try done. lia. Qed.

(** ** One line *)

Lemma scan_line_spec line d h st :
  f_data st = d -> f_has st = h ->
  scan_line line d h [] =
  (let '(st', f) := on_line st line in
   (f_data st', f_has st', match f with Some f => [frame_data f] | None => [] end)).
Proof.
  intros <- <-. unfold on_line. destruct line as [|b0 line]; [simpl; by destruct (f_has st) eqn:?|].
  rewrite bool_decide_eq_false_2 by done. rewrite <- field_value_unfold. unfold scan_line.
  destruct (byte_eqb b0 COLON) eqn:Hc.
  { by destruct (position _ _). }
  destruct (position _ _) as [i|]; [|done].
  destruct (bool_decide (take i (b0 :: line) = bstr "data")).
  - cbn. destruct (f_has st); by rewrite <- ?app_assoc.
  - by destruct (bool_decide (take i (b0 :: line) = bstr "event")).
Qed.

Lemma field_value_length line name v :
  field_value line = Some (name, v) -> 1 + nlen v <= nlen line.
Proof.
  unfold field_value. destruct (position _ line) as [[|i]|] eqn:E; [done| |done].
  apply position_Some in E as [(x & Hx & _) _]. apply lookup_lt_Some in Hx.
  intros [= _ <-]. pose proof (length_drop line (S (S i))) as Hl. unfold nlen.
  destruct (drop (S (S i)) line) as [|b v'] eqn:Ev; [simpl; lia|].
  simpl in Hl. destruct (byte_eqb b SPACE); simpl; lia.
Qed.

Lemma on_line_data st line :
  (f_has st = false -> f_data st = []) ->
  nlen (f_data (on_line st line).1) <= nlen (f_data st) + nlen line /\
  (f_has (on_line st line).1 = false -> f_data (on_line st line).1 = []).
Proof.
  intros Hst. unfold on_line. case_bool_decide as Hl.
  { destruct (f_has st) eqn:?; simpl; unfold nlen; simpl; split; auto; lia. }
  destruct (field_value line) as [[name v]|] eqn:Ev; [|simpl; split; auto; lia].
  apply field_value_length in Ev. case_bool_decide; simpl; [|case_bool_decide; simpl; split; auto; lia].
  split; [|done]. unfold nlen in *. destruct (f_has st); rewrite !length_app; simpl; lia.
Qed.

(** ** One byte *)

Definition scan_byte (max : N) (b : byte) (s : SseScanState) : SseScanState * list bytes * N :=
  let '(s, ps) := dispatch_byte b s [] in
  let '(s, d) := enforce_limit max b s 0 in (s, ps, d).

Lemma scan_byte_newline max b s m acc :
  scan_inv max s -> s_prev_cr s = false -> reads s m acc -> is_newline b = true ->
  exists m', line_step max m acc = (m', (scan_byte max b s).1.2, (scan_byte max b s).2) /\
    reads (scan_byte max b s).1.1 m' [] /\ scan_inv max (scan_byte max b s).1.1 /\
    s_prev_cr (scan_byte max b s).1.1 = false /\ s_line_buf (scan_byte max b s).1.1 = [] /\
    skip (scan_byte max b s).1.1 <> LineHasContent.
Proof.
  intros (Hk & Hs & Hh & Hsk & _) Hcr Hr Hb. unfold reads in Hr. unfold scan_byte, dispatch_byte.
  destruct (skip s) eqn:Esk; rewrite Hb.
  - destruct m as [st|]; [|done]. destruct Hr as (-> & Hd & Hhas).
    rewrite (scan_line_spec _ _ _ st) by done. cbn [line_step].
    rewrite Hd. unfold kept in Hk. rewrite (proj2 (N.ltb_ge _ _)) by lia.
    destruct (on_line_data st (s_line_buf s)) as [Hle Hemp]; [by rewrite Hd, Hhas|].
    rewrite Hd in Hle.
    destruct (on_line st (s_line_buf s)) as [st' f]. cbn [fst] in Hle, Hemp.
    unfold enforce_limit. cbn [skip s_line_buf s_data_buf s_prev_cr s_has_data tail].
    rewrite ?Esk, (proj2 (N.ltb_ge _ _)) by (unfold nlen in *; simpl; lia). cbn [fst snd].
    exists (Collecting st'). unfold scan_inv, reads, kept. cbn. rewrite ?Hcr, ?Esk.
    split_and!; try done. unfold nlen in *. simpl. lia.
  - destruct m as [st|]; [done|]. subst acc. destruct (Hsk ltac:(done)) as (Hl & Hd & Hhas).
    unfold enforce_limit, set_skip. cbn [skip s_line_buf s_data_buf s_prev_cr s_has_data tail].
    rewrite Hl, Hd. unfold kept in Hk. rewrite Hl, Hd in Hk. rewrite (proj2 (N.ltb_ge _ _)) by done.
    exists (Collecting no_fields). unfold scan_inv, reads, kept. cbn. rewrite ?Hcr, ?Hhas. by split_and!.
  - destruct m as [st|]; [done|]. destruct (Hsk ltac:(done)) as (Hl & Hd & Hhas).
    cbn. rewrite bool_decide_eq_false_2 by done.
    exists Skipping. unfold scan_inv, reads, kept. cbn. rewrite ?Hcr, ?Hhas. by split_and!.
Qed.

Lemma scan_byte_push max b s m acc :
  scan_inv max s -> s_prev_cr s = false -> reads s m acc -> is_newline b = false ->
  scan_inv max (scan_byte max b s).1.1 /\ s_prev_cr (scan_byte max b s).1.1 = false /\
  (scan_byte max b s).1.2 = [] /\
  (reads (scan_byte max b s).1.1 m (acc ++ [b]) /\ (scan_byte max b s).2 = 0 \/
   exists st, m = Collecting st /\ max < nlen (f_data st) + nlen (acc ++ [b]) /\
     reads (scan_byte max b s).1.1 Skipping (acc ++ [b]) /\ (scan_byte max b s).2 = 1).
Proof.
  intros (Hk & Hs & Hh & Hsk & _) Hcr Hr Hb. unfold reads in Hr. unfold scan_byte, dispatch_byte.
  destruct (skip s) eqn:Esk; rewrite Hb.
  - destruct m as [st|]; [|done]. destruct Hr as (-> & Hd & Hhas).
    unfold enforce_limit. cbn [skip s_line_buf s_data_buf s_prev_cr s_has_data tail].
    rewrite ?Esk, Hb. destruct (N.ltb_spec max (nlen (s_line_buf s ++ [b]) + nlen (s_data_buf s))) as [Hm|Hm].
    + unfold scan_inv, reads, kept. cbn. rewrite Hcr. split_and!; try done; [unfold nlen; simpl; lia|].
      right. exists st. rewrite Hd. split_and!; try done; [lia|by destruct (s_line_buf s)].
    + unfold scan_inv, reads, kept. cbn. rewrite ?Hcr, ?Esk. split_and!; try done. by left.
  - destruct m as [st|]; [done|]. subst acc. destruct (Hsk ltac:(done)) as (Hl & Hd & Hhas).
    cbn. unfold scan_inv, reads, kept. cbn. rewrite ?Hcr. split_and!; try done. by left.
  - destruct m as [st|]; [done|]. destruct (Hsk ltac:(done)) as (Hl & Hd & Hhas).
    cbn. unfold enforce_limit. rewrite ?Esk. cbn. unfold scan_inv, reads. rewrite ?Hcr, ?Esk.
    split_and!; try done. left. split; [by destruct acc|done].
Qed.

(** ** A chunk *)

Definition after (ps : list bytes) (d : N) (r : SseScanState * SseScanResult)
    : SseScanState * SseScanResult :=
  (r.1, mkScanResult (ps ++ payloads r.2) (d + dropped_events r.2)).

Lemma scan_loop_cons max b rest s :
  scan_loop max (b :: rest) s [] 0 =
  (let '(s1, ps, d) := scan_byte max b s in
   match rest with
   | [] => (if byte_eqb b CR then set_scan_cr true s1 else s1, mkScanResult ps d)
   | c :: rest' =>
       after ps d (scan_loop max (if byte_eqb b CR && byte_eqb c LF then rest' else rest) s1 [] 0)
   end).
Proof.
  cbn [scan_loop]. unfold scan_byte, after. destruct (dispatch_byte b s []) as [s0 ps].
  destruct (byte_eqb b CR), rest as [|c rest]; try rewrite enforce_limit_set_cr;
    destruct (enforce_limit max b s0 0) as [s1 d]; cbn [andb fst snd]; try done;
    try (destruct (byte_eqb c LF)); rewrite (scan_loop_acc _ _ s1 ps d);
    by destruct (scan_loop max _ s1 [] 0).
Qed.

Lemma inv_set_cr max s :
  scan_inv max s -> s_line_buf s = [] -> skip s <> LineHasContent ->
  scan_inv max (set_scan_cr true s).
Proof. intros (?&?&?&?&?) ??. unfold scan_inv, kept. cbn. by split_and!. Qed.

Lemma inv_reset_cr max s : scan_inv max s -> scan_inv max (set_scan_cr false s).
Proof. intros (?&?&?&?&?). unfold scan_inv, kept. cbn. by split_and!. Qed.

Lemma inv_reads max s : scan_inv max s -> exists m acc, reads s m acc.
Proof.
  intros _. unfold reads. destruct (skip s).
  - by exists (Collecting (mkFields None (s_data_buf s) (s_has_data s))), (s_line_buf s).
  - by exists Skipping, [].
  - by exists Skipping, [LF].
Qed.

Lemma scan_loop_read max c s m acc :
  scan_inv max s -> s_prev_cr s = false -> reads s m acc ->
  (payloads (scan_loop max c s [] 0).2, dropped_events (scan_loop max c s [] 0).2)
    = read_stream max m acc c /\
  scan_inv max (scan_loop max c s [] 0).1.
Proof.
  revert s m acc. induction c as [c IH] using (induction_ltof1 _ length). unfold ltof in IH.
  intros s m acc Hi Hcr Hr. destruct c as [|b c].
  { cbn. split; [|done]. unfold read_stream. cbn. f_equal. unfold overflowing, reads in *.
    destruct m as [st|]; [|done]. destruct (skip s); [|done..].
    destruct Hr as (-> & -> & _). destruct Hi as (Hk & _). unfold kept in Hk.
    by rewrite (proj2 (N.ltb_ge _ _)) by lia. }
  rewrite scan_loop_cons. destruct (is_newline b) eqn:Hb.
  - destruct (scan_byte_newline max b s m acc) as (m' & Hl & Hr' & Hi' & Hcr' & Hline & Hsk); [done..|].
    rewrite read_stream_newline, Hl by done.
    destruct (scan_byte max b s) as [[s1 ps] d]. cbn [fst snd] in *.
    destruct c as [|y c].
    + cbn [payloads dropped_events fst snd].
      split; [|destruct (byte_eqb b CR); [by apply inv_set_cr|done]].
      destruct (IH [] ltac:(simpl; lia) s1 m' [] Hi' Hcr' Hr') as [Heq _].
      cbn [scan_loop fst snd payloads dropped_events] in Heq. rewrite <- Heq. by rewrite app_nil_r, N.add_0_r.
    + unfold after. cbn [fst snd payloads dropped_events].
      destruct (IH (if byte_eqb b CR && byte_eqb y LF then c else y :: c)
        ltac:(destruct (_ && _); simpl; lia) s1 m' [] Hi' Hcr' Hr') as [Heq Hinv].
      rewrite <- Heq. by split.
  - assert (byte_eqb b CR = false) as Hnc by (unfold is_newline in Hb; by apply orb_false_iff in Hb as []).
    rewrite Hnc. cbn [andb].
    destruct (scan_byte_push max b s m acc) as (Hi' & Hcr' & Hps & Hcase); [done..|].
    rewrite read_stream_push by done.
    destruct (scan_byte max b s) as [[s1 ps] d]. cbn [fst snd] in *. subst ps.
    assert (forall m', reads s1 m' (acc ++ [b]) ->
      (payloads (after [] d (scan_loop max c s1 [] 0)).2,
       dropped_events (after [] d (scan_loop max c s1 [] 0)).2) =
        (let '(ps, d') := read_stream max m' (acc ++ [b]) c in (ps, d + d')) /\
      scan_inv max (after [] d (scan_loop max c s1 [] 0)).1) as Hrest.
    { intros m' Hm'. destruct (IH c ltac:(simpl; lia) s1 m' (acc ++ [b]) Hi' Hcr' Hm') as [Heq ?].
      rewrite <- Heq. by split. }
    assert (match c with [] => (s1, mkScanResult [] d) | _ :: _ => after [] d (scan_loop max c s1 [] 0) end
            = after [] d (scan_loop max c s1 [] 0)) as ->.
    { destruct c; [|done]. unfold after. cbn. by rewrite N.add_0_r. }
    destruct Hcase as [[Hm Hd]|(st & -> & Hov & Hm & Hd)]; destruct (Hrest _ Hm) as [Heq Hinv];
      (split; [|done]); rewrite Heq, Hd.
    + by destruct (read_stream max m (acc ++ [b]) c).
    + rewrite (read_stream_overflow max st) by (done || by destruct acc). done.
Qed.

Definition scan_input (s : SseScanState) (c : bytes) : bytes :=
  match c with
  | b :: rest => if s_prev_cr s && byte_eqb b LF then rest else c
  | [] => []
  end.

Lemma scan_chunk_read max c s m acc :
  scan_inv max s -> reads s m acc ->
  (payloads (scan_sse_chunk s c max).2, dropped_events (scan_sse_chunk s c max).2)
    = read_stream max m acc (scan_input s c) /\
  scan_inv max (scan_sse_chunk s c max).1.
Proof.
  intros Hi Hr. apply (scan_loop_read max (scan_input s c) (set_scan_cr false s)); [|done..].
  by apply inv_reset_cr.
Qed.

Lemma scan_chunks_inv max cs s :
  scan_inv max s -> scan_inv max (scan_chunks s cs max).1.
Proof.
  revert s. induction cs as [|c cs IH]; intros s Hi; [done|]. cbn [scan_chunks].
  destruct (inv_reads _ _ Hi) as (m & acc & Hr).
  destruct (scan_chunk_read max c s m acc Hi Hr) as [_ Hi1].
  destruct (scan_sse_chunk s c max) as [s1 r1]. specialize (IH s1 Hi1).
  by destruct (scan_chunks s1 cs max).
Qed.

Lemma scan_reachable_inv max cs : scan_inv max (scan_chunks scan_default cs max).1.
Proof. apply scan_chunks_inv, scan_default_inv. Qed.

(** ** Blank lines *)

(** Nothing collected, nothing skipped: the state of a fresh stream, up to the
    record of the last action. *)
Definition idle (s : SseScanState) : Prop :=
  s_line_buf s = [] /\ s_data_buf s = [] /\ s_has_data s = false /\ s_prev_cr s = false /\
  skip s = NotSkipping.

Lemma idle_reads max s : idle s -> scan_inv max (set_scan_cr false s) -> reads s (Collecting no_fields) [].
Proof. intros (H1 & H2 & H3 & H4 & H5) _. unfold reads. by rewrite H5, H1, H2, H3. Qed.

Lemma blank_line_idle max b s m :
  scan_inv max s -> s_prev_cr s = false -> reads s m [] -> is_newline b = true ->
  idle (scan_byte max b s).1.1.
Proof.
  intros Hi Hcr Hr Hb.
  destruct (scan_byte_newline max b s m []) as (m' & Hl & Hr' & Hi' & Hcr' & Hline & _); [done..|].
  assert (exists st, m' = Collecting st /\ f_has st = false) as (st & -> & Hst).
  { destruct m as [st|].
    - unfold line_step, reads in *. destruct (skip s); [|done..]. destruct Hr as (H1 & H2 & _).
      destruct Hi as (Hk & _). unfold kept in Hk. rewrite H2, H1 in Hl.
      rewrite (proj2 (N.ltb_ge _ _)) in Hl by lia. unfold on_line in Hl. rewrite <- H1 in Hl.
      rewrite bool_decide_eq_true_2 in Hl by done.
      destruct (f_has st); injection Hl as <- _ _; eauto.
    - injection Hl as <- _ _. by exists no_fields. }
  unfold reads in Hr'. destruct (skip (scan_byte max b s).1.1) eqn:Esk; [|done..].
  destruct Hr' as (_ & Hd & Hh). destruct Hi' as (_ & _ & He & _).
  rewrite Hst in Hh. unfold idle. rewrite <- Hh in He |- *. split_and!; auto.
Qed.

Lemma blank_lines_idle max s : scan_inv max s -> idle (scan_sse_chunk s [LF; LF] max).1.
Proof.
  intros Hi. pose proof (inv_reset_cr _ _ Hi) as Hi0. destruct (inv_reads _ _ Hi0) as (m & acc & Hr).
  unfold scan_sse_chunk. destruct (s_prev_cr s) eqn:Ecr; cbn [andb byte_eqb].
  - destruct Hi as (_ & _ & _ & _ & H). destruct (H Ecr) as [Hline Hsk].
    rewrite byte_eqb_refl, scan_loop_cons.
    assert (reads (set_scan_cr false s) m []) as Hr0.
    { unfold reads in *. cbn in *. destruct (skip s), m; try done. by destruct Hr as (_ & ? & ?). }
    pose proof (blank_line_idle max LF (set_scan_cr false s) m Hi0 eq_refl Hr0 eq_refl) as Hid.
    by destruct (scan_byte _ _ _) as [[??]?].
  - rewrite scan_loop_cons.
    destruct (scan_byte_newline max LF (set_scan_cr false s) m acc) as (m' & _ & Hr1 & Hi1 & Hcr1 & _); [done..|].
    destruct (scan_byte max LF (set_scan_cr false s)) as [[s1 ?] ?]. cbn [fst snd] in *.
    unfold after. cbn [fst]. change (byte_eqb LF CR && byte_eqb LF LF) with false. cbn iota.
    rewrite scan_loop_cons.
    pose proof (blank_line_idle max LF s1 m' Hi1 Hcr1 Hr1 eq_refl) as Hid.
    by destruct (scan_byte _ _ _) as [[??]?].
Qed.

Lemma flush_payloads s :
  skip s = NotSkipping ->
  (flush_sse_state s []).2 =
  (let '(st, f) := on_line (mkFields None (s_data_buf s) (s_has_data s)) (s_line_buf s) in
   match f with Some f => [frame_data f] | None => [] end ++
   match (on_line st []).2 with Some f => [frame_data f] | None => [] end).
Proof.
  intros _. unfold flush_sse_state. destruct (s_line_buf s) as [|b line] eqn:El.
  { cbn. by destruct (s_has_data s). }
  rewrite (scan_line_spec _ _ _ (mkFields None (s_data_buf s) (s_has_data s))) by done.
  destruct (on_line _ (b :: line)) as [st f]. cbn [on_line]. cbn.
  by destruct (f_has st), f; rewrite ?app_nil_r.
Qed.

Lemma flush_skipping s :
  s_line_buf s = [] /\ s_data_buf s = [] /\ s_has_data s = false -> (flush_sse_state s []).2 = [].
Proof. intros (Hl & Hd & Hh). unfold flush_sse_state. by rewrite Hl, Hh. Qed.

Lemma flush_blank_lines max s :
  scan_inv max s -> (flush_sse_state s []).2 = payloads (scan_sse_chunk s [LF; LF] max).2.
Proof.
  intros Hi. destruct (skip s) eqn:Esk.
  - set (st := mkFields None (s_data_buf s) (s_has_data s)).
    assert (reads s (Collecting st) (s_line_buf s)) as Hr by (unfold reads; by rewrite Esk).
    destruct (scan_chunk_read max [LF; LF] s _ _ Hi Hr) as [Heq _].
    rewrite flush_payloads by done. fold st. apply (f_equal fst) in Heq. cbn [fst] in Heq.
    rewrite Heq. clear Heq. destruct Hi as (Hk & _ & Hh & _ & Hcr). unfold kept in Hk.
    destruct (on_line_data st (s_line_buf s) Hh) as [Hle _].
    unfold scan_input, read_stream. destruct (s_prev_cr s); cbn [andb].
    + rewrite byte_eqb_refl. destruct (Hcr eq_refl) as [-> _]. cbn. rewrite byte_eqb_refl. cbn.
      rewrite (proj2 (N.ltb_ge _ _)) by (unfold nlen in *; simpl in *; lia).
      by destruct (s_has_data s).
    + change (split_lines (s_line_buf s) [LF; LF]) with [s_line_buf s; []].
      cbn [read_lines line_step]. rewrite (proj2 (N.ltb_ge _ _)) by (simpl; lia).
      destruct (on_line st (s_line_buf s)) as [st' f]. cbn [fst] in Hle. cbn [line_step].
      rewrite (proj2 (N.ltb_ge _ _)) by (unfold nlen in *; simpl in *; lia).
      destruct (on_line st' []) as [st2 f2]. cbn. by rewrite app_nil_r.
  - rewrite flush_skipping by (destruct Hi as (_ & _ & _ & H & _); apply H; congruence).
    assert (reads s Skipping []) as Hr by (unfold reads; by rewrite Esk).
    destruct (scan_chunk_read max [LF; LF] s _ _ Hi Hr) as [Heq _].
    apply (f_equal fst) in Heq. cbn [fst] in Heq. rewrite Heq. unfold scan_input.
    by destruct (s_prev_cr s), max.
  - rewrite flush_skipping by (destruct Hi as (_ & _ & _ & H & _); apply H; congruence).
    assert (reads s Skipping [SPACE]) as Hr by (unfold reads; by rewrite Esk).
    destruct (scan_chunk_read max [LF; LF] s _ _ Hi Hr) as [Heq _].
    apply (f_equal fst) in Heq. cbn [fst] in Heq. rewrite Heq. unfold scan_input.
    by destruct (s_prev_cr s), max.
Qed.

(** * The properties *)

(** Chunk independence: with no empty chunk among them, the chunks of a
    response give the payloads, the drops and the state that the whole response
    gives in one call. *)
Theorem a2a_scan_chunk_independence max s c cs :
  Forall (fun x => x <> []) (c :: cs) ->
  scan_chunks s (c :: cs) max = scan_sse_chunk s (concat (c :: cs)) max.
Proof. apply scan_chunks_whole. Qed.

Lemma a2a_scan_chunk_independence_witness :
  payloads (scan_chunks scan_default [bstr "data: a" ++ [CR]; [LF] ++ bstr "da"; bstr "ta:b" ++ [LF; LF] ] 64).2
  = [bstr "a" ++ [LF] ++ bstr "b"].
Proof.
  rewrite a2a_scan_chunk_independence; [reflexivity|].
  repeat (apply Forall_cons; split; [discriminate|]). apply Forall_nil_2.
Defined.

(** Without that condition it fails: an empty chunk between the CR and the
    LF of one CRLF makes the scanner see a blank line, and a two-line event is
    delivered as two payloads. *)
Theorem a2a_empty_chunk_splits_crlf :
  exists cs, payloads (scan_chunks scan_default cs 64).2 = [bstr "a"; bstr "b"] /\
    payloads (scan_sse_chunk scan_default (concat cs) 64).2 = [bstr "a" ++ [LF] ++ bstr "b"].
Proof.
  exists [bstr "data: a" ++ [CR]; []; [LF] ++ bstr "data: b" ++ [CR; LF; CR; LF] ].
  split; reflexivity.
Qed.

(** Bounded retention: whatever the response, between chunks the scanner
    holds at most [max_scratch_bytes], [scratch_bytes] is the exact count, and
    nothing is held while an oversized event is being skipped. *)
Theorem a2a_scan_bounded max cs :
  s_scratch_bytes (scan_chunks scan_default cs max).1 <= max /\
  s_scratch_bytes (scan_chunks scan_default cs max).1 =
    nlen (s_line_buf (scan_chunks scan_default cs max).1) +
    nlen (s_data_buf (scan_chunks scan_default cs max).1) /\
  (skip (scan_chunks scan_default cs max).1 <> NotSkipping ->
   s_scratch_bytes (scan_chunks scan_default cs max).1 = 0).
Proof.
  destruct (scan_reachable_inv max cs) as (Hk & Hs & _ & Hsk & _).
  split_and!; [by rewrite Hs|done|]. intros H. destruct (Hsk H) as (Hl & Hd & _).
  rewrite Hs. unfold kept. by rewrite Hl, Hd.
Qed.

(** The scanner computes the reference reading: payloads and dropped
    events of a response are those of reading its lines one by one, an event
    being dropped exactly when its collected data and the current line together
    exceed the limit. *)
Theorem a2a_scan_reference max s :
  (payloads (scan_sse_chunk scan_default s max).2, dropped_events (scan_sse_chunk scan_default s max).2)
  = read_stream max (Collecting no_fields) [] s.
Proof.
  destruct (scan_chunk_read max s scan_default (Collecting no_fields) []) as [-> _];
    [apply scan_default_inv|done|]. unfold scan_input. by destruct s.
Qed.

(** Recovery: what follows a blank line is read as on a fresh stream,
    whatever preceded it, so an oversized or malformed event never costs a
    later one. *)
Theorem a2a_scan_resync max a c :
  (scan_sse_chunk scan_default (a ++ [LF; LF] ++ c) max).2 =
  mkScanResult
    (payloads (scan_sse_chunk scan_default (a ++ [LF; LF]) max).2 ++
     payloads (scan_sse_chunk scan_default c max).2)
    (dropped_events (scan_sse_chunk scan_default (a ++ [LF; LF]) max).2 +
     dropped_events (scan_sse_chunk scan_default c max).2).
Proof.
  destruct c as [|b c].
  { rewrite app_nil_r. cbn [scan_sse_chunk scan_loop snd payloads dropped_events].
    rewrite app_nil_r, N.add_0_r. by destruct (scan_sse_chunk _ _ _) as [? []]. }
  rewrite app_assoc, scan_chunk_cut by (done || by destruct a).
  assert (idle (scan_sse_chunk scan_default (a ++ [LF; LF]) max).1 /\
          scan_inv max (scan_sse_chunk scan_default (a ++ [LF; LF]) max).1) as [Hid Hinv].
  { destruct a as [|x a].
    - split; [apply blank_lines_idle, scan_default_inv|].
      by apply (scan_chunk_read max _ _ (Collecting no_fields) []); [apply scan_default_inv|].
    - rewrite scan_chunk_cut by done.
      destruct (scan_chunk_read max (x :: a) scan_default (Collecting no_fields) []) as [_ Hi1];
        [apply scan_default_inv|done|].
      destruct (scan_sse_chunk scan_default (x :: a) max) as [s1 r1]. cbn [fst] in Hi1.
      pose proof (blank_lines_idle max s1 Hi1) as Hid.
      destruct (inv_reads _ _ Hi1) as (m & acc & Hr).
      destruct (scan_chunk_read max [LF; LF] s1 m acc Hi1 Hr) as [_ Hi2].
      by destruct (scan_sse_chunk s1 [LF; LF] max). }
  destruct (scan_sse_chunk scan_default (a ++ [LF; LF]) max) as [s1 r1]. cbn [fst snd] in *.
  destruct (scan_chunk_read max (b :: c) s1 (Collecting no_fields) []) as [Heq _];
    [done|apply (idle_reads max); [done|by apply inv_reset_cr]|].
  destruct (scan_chunk_read max (b :: c) scan_default (Collecting no_fields) []) as [Heq' _];
    [apply scan_default_inv|done|].
  assert (scan_input s1 (b :: c) = scan_input scan_default (b :: c)) as Hin.
  { unfold scan_input. by destruct Hid as (_ & _ & _ & -> & _). }
  rewrite Hin, <- Heq' in Heq. destruct (scan_sse_chunk s1 (b :: c) max) as [s2 r2].
  cbn [fst snd] in *. by injection Heq as -> ->.
Qed.

(** Flush at end of stream: it delivers exactly what the missing blank
    line would have delivered, in every state the scanner can be in. *)
Theorem a2a_flush_completes max cs :
  (flush_sse_state (scan_chunks scan_default cs max).1 []).2 =
  payloads (scan_sse_chunk (scan_chunks scan_default cs max).1 [LF; LF] max).2.
Proof. apply flush_blank_lines, scan_reachable_inv. Qed.
