(* ===== verification/Json.v ===== *)
(** JSON values as the code sees them: [serde_json::Value] with the
    [preserve_order] feature, an object being its entries in insertion order
    with distinct keys, and a string its UTF-8 bytes. *)

From S2P Require Import Prelude.
From Stdlib Require Import Floats.SpecFloat.

(** [serde_json::Number]: [u64], negative [i64] or [f64]. *)
Inductive Number := PosInt (n : N) | NegInt (z : Z) | Float (f : spec_float).

Inductive Json :=
| JNull
| JBool (b : bool)
| JNumber (n : Number)
| JString (s : string)
| JArray (l : list Json)
| JObject (l : list (string * Json)).

Fixpoint assoc {A} (k : string) (l : list (string * A)) : option A :=
  match l with
  | [] => None
  | (k', v) :: l => if bool_decide (k' = k) then Some v else assoc k l
  end.

(** [Value::get] with a string index. *)
Definition get (v : Json) (k : string) : option Json :=
  match v with JObject l => assoc k l | _ => None end.

Definition as_str (v : Json) : option string :=
  match v with JString s => Some s | _ => None end.

(** Equal except, possibly, in the numbers: what printing and re-reading a
    value guarantees without the [float_roundtrip] feature. *)
Inductive same_shape : Json -> Json -> Prop :=
| ss_null : same_shape JNull JNull
| ss_bool b : same_shape (JBool b) (JBool b)
| ss_number n n' : same_shape (JNumber n) (JNumber n')
| ss_string s : same_shape (JString s) (JString s)
| ss_array l l' : Forall2 same_shape l l' -> same_shape (JArray l) (JArray l')
| ss_object l l' :
    Forall2 (fun e e' => e.1 = e'.1 /\ same_shape e.2 e'.2) l l' ->
    same_shape (JObject l) (JObject l').

Lemma assoc_shape l l' k :
  Forall2 (fun e e' => e.1 = e'.1 /\ same_shape e.2 e'.2) l l' ->
  option_Forall2 same_shape (assoc k l) (assoc k l').
Proof.
  induction 1 as [|[k1 v] [k2 v'] l l' [Hk Hv] _ IH]; simpl in *; [constructor|subst].
  case_bool_decide; [by constructor|done].
Qed.

Lemma get_shape v v' k : same_shape v v' -> option_Forall2 same_shape (get v k) (get v' k).
Proof. destruct 1; simpl; try constructor. by apply assoc_shape. Qed.

Lemma as_str_shape v v' : same_shape v v' -> as_str v = as_str v'.
Proof. by destruct 1. Qed.

Lemma same_shape_refl v : same_shape v v.
Proof.
  revert v. fix IH 1. intros [| | | |l|l]; constructor.
  - induction l as [|x l IHl]; constructor; [apply IH|exact IHl].
  - induction l as [|[k x] l IHl]; constructor; [split; [reflexivity|apply IH]|exact IHl].
Qed.

(** ** Equality of values

    [Value]'s [PartialEq]: objects are compared as maps (the entries' order does
    not matter), numbers by kind and value. *)

Definition number_eqb (a b : Number) : bool :=
  match a, b with
  | PosInt n, PosInt m => (n =? m)%N
  | NegInt n, NegInt m => (n =? m)%Z
  | Float f, Float g => SFeqb f g
  | _, _ => false
  end.

Fixpoint json_eqb (a b : Json) {struct a} : bool :=
  match a, b with
  | JNull, JNull => true
  | JBool x, JBool y => Bool.eqb x y
  | JNumber x, JNumber y => number_eqb x y
  | JString x, JString y => bool_decide (x = y)
  | JArray l, JArray l' =>
      (fix go (l l' : list Json) : bool :=
         match l, l' with
         | [], [] => true
         | x :: l, y :: l' => json_eqb x y && go l l'
         | _, _ => false
         end) l l'
  | JObject l, JObject l' =>
      (length l =? length l')%nat &&
      (fix go (l : list (string * Json)) : bool :=
         match l with
         | [] => true
         | (k, v) :: l => match assoc k l' with Some v' => json_eqb v v' | None => false end && go l
         end) l
  | _, _ => false
  end.

Definition is_null (v : Json) : bool := match v with JNull => true | _ => false end.
Definition as_array (v : Json) : option (list Json) := match v with JArray l => Some l | _ => None end.
Definition is_array (v : Json) : bool := match v with JArray _ => true | _ => false end.

Lemma json_eqb_array l l' : json_eqb (JArray l) (JArray l') = true -> length l = length l'.
Proof.
  revert l'. induction l as [|x l IH]; intros [|y l']; try done. cbn.
  intros [_ H]%andb_true_iff. f_equal. apply IH. exact H.
Qed.

(** ** Objects as maps *)

(** [Map::insert]: an existing key keeps its place. *)
Fixpoint assoc_insert {A} (k : string) (v : A) (l : list (string * A)) : list (string * A) :=
  match l with
  | [] => [(k, v)]
  | (k', v') :: l => if bool_decide (k' = k) then (k', v) :: l else (k', v') :: assoc_insert k v l
  end.

Definition number_as_u64 (n : Number) : option N := match n with PosInt n => Some n | _ => None end.
(** [Value::as_u64]. *)
Definition as_u64 (v : Json) : option N := match v with JNumber n => number_as_u64 n | _ => None end.

Lemma assoc_insert_lookup {A} k k' (v : A) l :
  assoc k' (assoc_insert k v l) = if decide (k' = k) then Some v else assoc k' l.
Proof.
  induction l as [|[k0 v0] l IH]; cbn.
  - case_bool_decide; case_decide; congruence.
  - case_bool_decide as Hk; cbn; [subst k0|rewrite IH]; repeat case_bool_decide; repeat case_decide; congruence.
Qed.

Lemma assoc_None {A} k (l : list (string * A)) : assoc k l = None <-> k ∉ l.*1.
Proof.
  induction l as [|[k0 v0] l IH]; cbn; [split; [intros _; apply not_elem_of_nil|done]|].
  rewrite not_elem_of_cons, <- IH. case_bool_decide; naive_solver.
Qed.

Lemma assoc_insert_keys {A} k (v : A) l :
  (assoc_insert k v l).*1 = if decide (k ∈ l.*1) then l.*1 else l.*1 ++ [k].
Proof.
  induction l as [|[k0 v0] l IH]; cbn; [done|].
  case_bool_decide as Hk; cbn; [subst; by rewrite decide_True by (by left)|].
  rewrite IH. repeat case_decide; try done; exfalso; rewrite elem_of_cons in *; naive_solver.
Qed.

(** Every value that parsing produces has objects with distinct keys. *)
Inductive json_wf : Json -> Prop :=
| wf_null : json_wf JNull
| wf_bool b : json_wf (JBool b)
| wf_number n : json_wf (JNumber n)
| wf_string s : json_wf (JString s)
| wf_array l : (forall v, v ∈ l -> json_wf v) -> json_wf (JArray l)
| wf_object l : NoDup l.*1 -> (forall e, e ∈ l -> json_wf e.2) -> json_wf (JObject l).

Lemma assoc_elem {A} k (v : A) l : assoc k l = Some v -> (k, v) ∈ l.
Proof.
  induction l as [|[k0 v0] l IH]; cbn; [done|]. case_bool_decide; [intros [= ->]; subst; by left|right; auto].
Qed.
