(* ===== verification/Serde.v ===== *)
(** Typed deserialization as [#[derive(Deserialize)]] generates it, on the tree
    the JSON reader produces.

    The reader is a parameter of the clients: it turns text into a [Json] tree
    whose objects list every member in order, repeated keys included.  Reading a
    [Value] keeps the last member of each key ([to_value]); reading a struct
    rejects a repeated known field, ignores unknown fields unless
    [deny_unknown_fields] is set, and accepts an array with the fields in
    declaration order, as serde does.  Only success is modelled: an error is
    [None]. *)

From S2P Require Import Prelude Json.

Local Open Scope N_scope.

(** * Values *)

(** [serde_json::Value] of a tree: the last member of a key wins, at the place
    of the first. *)
Fixpoint to_value (t : Json) : Json :=
  match t with
  | JArray l => JArray (to_value <$> l)
  | JObject l => JObject (foldl (fun acc e => assoc_insert e.1 e.2 acc) [] ((fun e => (e.1, to_value e.2)) <$> l))
  | _ => t
  end.

(** * Scalars and containers *)

Abbreviation De A := (Json -> option A).

Definition de_string : De string := as_str.
Definition de_bool : De bool := fun v => match v with JBool b => Some b | _ => None end.
Definition de_u64 : De N := fun v => n ← as_u64 v; if n <=? u64_max then Some n else None.
Definition de_u32 : De N := fun v => n ← as_u64 v; if n <=? 4294967295 then Some n else None.
(** [i64]: a [u64] literal must fit. *)
Definition de_i64 : De Z := fun v =>
  match v with
  | JNumber (PosInt n) => if n <=? 9223372036854775807 then Some (Z.of_N n) else None
  | JNumber (NegInt z) => Some z
  | _ => None
  end.

Definition de_option {A} (d : De A) : De (option A) := fun v => match v with JNull => Some None | _ => Some <$> d v end.

Definition de_vec {A} (d : De A) : De (list A) := fun v => match v with JArray l => mapM d l | _ => None end.

(** A unit-only enum: the variant's name, or an object with it as its only key
    and [null] as the value. *)
Definition de_unit_enum {A} (variant : string -> option A) : De A := fun v =>
  match v with
  | JString s => variant s
  | JObject [(s, JNull)] => variant s
  | _ => None
  end.

(** An untagged enum: the first variant that fits. *)
Definition de_untagged {A} (ds : list (De A)) : De A := fun v => head (omap (fun d => d v) ds).

(** * Structs *)

Abbreviation Members := (list (string * Json)).

(** How the fields of a struct are read, by name and by position. *)
Record Fields (A : Type) := mkFields {
  f_names : list string;
  by_name : Members -> option A;
  by_position : list Json -> option (A * list Json)
}.
Arguments mkFields {A} _ _ _.
Arguments f_names {A} _.
Arguments by_name {A} _ _.
Arguments by_position {A} _ _.

Definition named (ks : list string) (l : Members) : Members := filter (fun e => e.1 ∈ ks) l.

(** A field with its names (the first and the aliases); [absent] is its value
    when no member has one of them, [short] when the array ends before it. *)
Definition field {A} (ks : list string) (absent short : option A) (d : De A) : Fields A :=
  mkFields ks
    (fun l => match named ks l with [] => absent | [(_, v)] => d v | _ => None end)
    (fun l => match l with [] => a ← short; Some (a, []) | v :: l => a ← d v; Some (a, l) end).

Definition required {A} (k : string) (d : De A) : Fields A := field [k] None None d.
(** [Option<T>]: an absent member is [None]; a short array is an error. *)
Definition optional {A} (k : string) (d : De A) : Fields (option A) := field [k] (Some None) None (de_option d).
(** With [#[serde(default)]] a short array gives the default too. *)
Definition defaulted {A} (k : string) (a : A) (d : De A) : Fields A := field [k] (Some a) (Some a) d.

Definition f_map {A B} (f : A -> B) (x : Fields A) : Fields B :=
  mkFields (f_names x) (fun l => f <$> by_name x l)
    (fun l => r ← by_position x l; Some (f r.1, r.2)).

Definition f_ap {A B} (f : Fields (A -> B)) (x : Fields A) : Fields B :=
  mkFields (f_names f ++ f_names x)
    (fun l => g ← by_name f l; a ← by_name x l; Some (g a))
    (fun l => r ← by_position f l; s ← by_position x r.2; Some (r.1 s.1, s.2)).

Declare Scope serde_scope.
Delimit Scope serde_scope with serde.
Notation "f <$$> x" := (f_map f x) (at level 61, left associativity) : serde_scope.
Notation "f <**> x" := (f_ap f x) (at level 61, left associativity) : serde_scope.

(** A struct that ignores unknown fields. *)
Definition de_struct {A} (f : Fields A) : De A := fun v =>
  match v with
  | JObject l => by_name f l
  | JArray l => r ← by_position f l; match r.2 with [] => Some r.1 | _ => None end
  | _ => None
  end.

(** A struct with [deny_unknown_fields]. *)
Definition de_strict {A} (f : Fields A) : De A := fun v =>
  match v with
  | JObject l => if forallb (fun e => bool_decide (e.1 ∈ f_names f)) l then by_name f l else None
  | _ => de_struct f v
  end.

(** * Facts *)

Lemma named_nil ks l : named ks l = [] <-> forall k, k ∈ ks -> assoc k l = None.
Proof.
  unfold named. split.
  - intros H k Hk. apply assoc_None. intros (e & -> & He)%list_elem_of_fmap.
    assert (e ∈ filter (fun e => e.1 ∈ ks) l) as Hf by (by apply list_elem_of_filter). rewrite H in Hf.
    by apply not_elem_of_nil in Hf.
  - intros H. destruct (filter _ l) as [|e r] eqn:E; [done|].
    assert (e ∈ filter (fun e => e.1 ∈ ks) l) as [He Hl]%list_elem_of_filter by (rewrite E; by left).
    specialize (H _ He). rewrite assoc_None in H. destruct H. apply list_elem_of_fmap. by exists e.
Qed.

(** In an object without repeated keys a field is read from its only member. *)
Lemma named_unique k l : NoDup l.*1 -> named [k] l = match assoc k l with Some v => [(k, v)] | None => [] end.
Proof.
  intros H. unfold named. induction l as [|[k' v] l IH]; [done|]. cbn in H. apply NoDup_cons in H as [Hk H].
  rewrite filter_cons. cbn. case_bool_decide as E; [subst k'|].
  - rewrite decide_True by (by left). f_equal. rewrite IH by done. by rewrite (proj2 (assoc_None k l)).
  - rewrite decide_False by (by intros ->%list_elem_of_singleton). by apply IH.
Qed.

(** ** What a reader guarantees of its result *)

Definition de_post {A} (P : A -> Prop) (d : De A) : Prop := forall v a, d v = Some a -> P a.

Definition fields_post {A} (P : A -> Prop) (f : Fields A) : Prop :=
  (forall l a, by_name f l = Some a -> P a) /\ (forall l r, by_position f l = Some r -> P r.1).

Lemma de_u64_post : de_post (fun n => n <= u64_max) de_u64.
Proof. intros v n. unfold de_u64. destruct (as_u64 v) as [k|]; cbn; [|done]. destruct (N.leb_spec k u64_max); [|done]. by intros [= <-]. Qed.

Lemma de_string_post : de_post (fun _ => True) de_string.
Proof. done. Qed.

Lemma de_option_post {A} (P : A -> Prop) d :
  de_post P d -> de_post (fun o => forall a, o = Some a -> P a) (de_option d).
Proof.
  intros Hd v o Hv a ->. destruct v; cbn in Hv; try done;
    apply fmap_Some in Hv as (? & Hv & [= ->]); by eapply Hd.
Qed.

Lemma de_map_post {A B} (P : A -> Prop) (Q : B -> Prop) (g : A -> B) d :
  de_post P d -> (forall a, P a -> Q (g a)) -> de_post Q (fun v => g <$> d v).
Proof. intros Hd Hg v b (a & Ha & ->)%fmap_Some. eauto. Qed.

Lemma de_untagged_post {A} (P : A -> Prop) ds : Forall (de_post P) ds -> de_post P (de_untagged ds).
Proof.
  intros Hds v a. unfold de_untagged. induction Hds as [|d ds Hd _ IH]; cbn; [done|].
  destruct (d v) eqn:E; cbn; [|done]. intros [= ->]. by eapply Hd.
Qed.

Lemma required_post {A} (P : A -> Prop) k d : de_post P d -> fields_post P (required k d).
Proof.
  intros Hd. split; cbn.
  - intros l a. destruct (named [k] l) as [|[? v] [|]]; try done. apply Hd.
  - intros [|v l] r; cbn; [done|]. destruct (d v) eqn:E; cbn; [|done]. intros [= <-]. by eapply Hd.
Qed.

Lemma optional_post {A} (P : A -> Prop) k d :
  de_post P d -> fields_post (fun o => forall a, o = Some a -> P a) (optional k d).
Proof.
  intros Hd%de_option_post. split; cbn.
  - intros l o. destruct (named [k] l) as [|[? v] [|]]; try done; [by intros [= <-]|]. by apply Hd.
  - intros [|v l] r; cbn; [done|]. destruct (de_option d v) eqn:E; cbn; [|done]. intros [= <-]. by eapply Hd.
Qed.

Lemma f_map_post {A B} (P : A -> Prop) (Q : B -> Prop) (g : A -> B) x :
  fields_post P x -> (forall a, P a -> Q (g a)) -> fields_post Q (f_map g x).
Proof.
  intros [Hn Hp] Hg. split; cbn.
  - intros l b (a & Ha & ->)%fmap_Some. eauto.
  - intros l r (s & Hs & [= <-])%bind_Some. cbn. eauto.
Qed.

Lemma f_ap_post {A B} (P : A -> Prop) (Q : B -> Prop) (f : Fields (A -> B)) x :
  fields_post P x -> fields_post (fun g => forall a, P a -> Q (g a)) f -> fields_post Q (f_ap f x).
Proof.
  intros [Hn Hp] [Gn Gp]. split; cbn.
  - intros l b (g & Hg & (a & Ha & [= <-])%bind_Some)%bind_Some. eauto.
  - intros l r (g & Hg & (a & Ha & [= <-])%bind_Some)%bind_Some. cbn. eauto.
Qed.

Lemma de_struct_post {A} (P : A -> Prop) f : fields_post P f -> de_post P (de_struct f).
Proof.
  intros [Hn Hp] v a. destruct v as [| | | |l|l]; cbn; try done; [|by apply Hn].
  intros (r & Hr & H)%bind_Some. destruct r.2; [|done]. injection H as <-. eauto.
Qed.

(** Reads the guarantee of a struct off its fields, the guarantees of the
    fields' own readers being hints. *)
Create HintDb serde.
#[export] Hint Resolve de_u64_post de_string_post : serde.
Ltac struct_post := repeat lazymatch goal with
  | |- de_post _ (de_struct _) => apply de_struct_post
  | |- fields_post _ (f_ap _ _) => eapply f_ap_post
  | |- fields_post _ (f_map _ _) => eapply f_map_post
  | |- fields_post _ (required _ _) => apply required_post
  | |- fields_post _ (optional _ _) => apply optional_post
  | |- de_post _ _ => solve [eauto with serde nocore]
  end.
