(* ===== verification/ResponsesEvents.v ===== *)
(** Typed events of a Responses stream:
    [apis/src/openai/sse/responses/event.rs], and the usage accumulation that
    every iterative flow shares, [apis/src/openai/responses/usage.rs].

    The JSON parser of [serde_json] is a parameter.  The theorems state that an
    accepted event's type can neither disagree with the frame nor smuggle an SSE
    line break, that every typed event keeps its payload, and that merged usage
    is the saturating sum of the reports. *)

From S2P Require Import Prelude Utf8 RustStr SseFrame Json.
From Stdlib Require Import Strings.Ascii.

Local Open Scope N_scope.
Local Open Scope rust_scope.

(** * Events *)

Inductive ResponsesEvent :=
| ResponseCreated (p : Json)
| ResponseQueued (p : Json)
| ResponseInProgress (p : Json)
| ResponseCompleted (p : Json)
| ResponseIncomplete (p : Json)
| ResponseFailed (p : Json)
| OutputItemAdded (p : Json)
| OutputItemDone (p : Json)
| ContentPartAdded (p : Json)
| ContentPartDone (p : Json)
| OutputTextDelta (p : Json)
| OutputTextDone (p : Json)
| OutputTextAnnotationAdded (p : Json)
| FunctionCallArgumentsDelta (p : Json)
| FunctionCallArgumentsDone (p : Json)
| RefusalDelta (p : Json)
| RefusalDone (p : Json)
| ReasoningDelta (p : Json)
| ReasoningDone (p : Json)
| ReasoningSummaryTextDelta (p : Json)
| ReasoningSummaryTextDone (p : Json)
| ReasoningSummaryPartAdded (p : Json)
| ReasoningSummaryPartDone (p : Json)
| ErrorEvent (p : Json)
| Unknown (event_type : string) (data : Json).

(** The errors of [from_frame]. *)
Inductive EventError :=
| MalformedJson (event_type err : string)
| MissingEventType (field event_type : string)
| InvalidEventType
| EventTypeMismatch (sse_event_type data_event_type : string).

(** [ResponsesEvent::known_variant]: the arms of the match in order. *)
Definition known_variants : list (string * (Json -> ResponsesEvent)) :=
  [("response.created", ResponseCreated);
   ("response.queued", ResponseQueued);
   ("response.in_progress", ResponseInProgress);
   ("response.completed", ResponseCompleted);
   ("response.incomplete", ResponseIncomplete);
   ("response.failed", ResponseFailed);
   ("response.output_item.added", OutputItemAdded);
   ("response.output_item.done", OutputItemDone);
   ("response.content_part.added", ContentPartAdded);
   ("response.content_part.done", ContentPartDone);
   ("response.output_text.delta", OutputTextDelta);
   ("response.output_text.done", OutputTextDone);
   ("response.output_text.annotation.added", OutputTextAnnotationAdded);
   ("response.function_call_arguments.delta", FunctionCallArgumentsDelta);
   ("response.function_call_arguments.done", FunctionCallArgumentsDone);
   ("response.refusal.delta", RefusalDelta);
   ("response.refusal.done", RefusalDone);
   ("response.reasoning.delta", ReasoningDelta);
   ("response.reasoning_text.delta", ReasoningDelta);
   ("response.reasoning.done", ReasoningDone);
   ("response.reasoning_text.done", ReasoningDone);
   ("response.reasoning_summary_text.delta", ReasoningSummaryTextDelta);
   ("response.reasoning_summary_text.done", ReasoningSummaryTextDone);
   ("response.reasoning_summary_part.added", ReasoningSummaryPartAdded);
   ("response.reasoning_summary_part.done", ReasoningSummaryPartDone);
   ("error", ErrorEvent)]%string.

Definition known_variant (event_type : string) : option (Json -> ResponsesEvent) := assoc event_type known_variants.

(** [canonical_event_type]. *)
Definition canonical_event_type (event_type : string) : string :=
  if bool_decide (event_type = "response.reasoning_text.delta"%string) then "response.reasoning.delta"
  else if bool_decide (event_type = "response.reasoning_text.done"%string) then "response.reasoning.done"
  else event_type.

(** [str::contains(['\r', '\n'])]. *)
Definition has_line_break (s : string) : bool :=
  existsb (fun b => byte_eqb b CR || byte_eqb b LF) (string_bytes s).

(** [frame.event_type.clone().unwrap_or_default()]. *)
Definition frame_type (f : SseFrame) : string := default ""%string (bytes_string <$> frame_event_type f).

Section FromFrame.
(** [serde_json::from_slice] and the text of its error. *)
Context (from_slice : bytes -> result string Json).

(** [ResponsesEvent::from_frame]. *)
Definition from_frame (f : SseFrame) : result EventError ResponsesEvent :=
  match from_slice (frame_data f) with
  | Err e => Err (MalformedJson (frame_type f) e)
  | Ok data =>
      match v ← get data "type"; as_str v with
      | None => Err (MissingEventType "data.type" (frame_type f))
      | Some data_type =>
          if has_line_break data_type then Err InvalidEventType
          else
            let mismatch :=
              match frame_event_type f with
              | Some t => if bool_decide (canonical_event_type (bytes_string t) = canonical_event_type data_type)
                          then None else Some (bytes_string t)
              | None => None
              end in
            match mismatch with
            | Some t => Err (EventTypeMismatch t data_type)
            | None =>
                Ok match known_variant data_type with
                   | Some ctor => ctor data
                   | None => Unknown data_type data
                   end
            end
      end
  end.
End FromFrame.

Definition is_terminal (e : ResponsesEvent) : bool :=
  match e with
  | ResponseCompleted _ | ResponseIncomplete _ | ResponseFailed _ | ErrorEvent _ => true
  | _ => false
  end.

(** [payload] and [into_payload]. *)
Definition payload (e : ResponsesEvent) : Json :=
  match e with
  | ResponseCreated p | ResponseQueued p | ResponseInProgress p | ResponseCompleted p | ResponseIncomplete p
  | ResponseFailed p | OutputItemAdded p | OutputItemDone p | ContentPartAdded p | ContentPartDone p
  | OutputTextDelta p | OutputTextDone p | OutputTextAnnotationAdded p | FunctionCallArgumentsDelta p
  | FunctionCallArgumentsDone p | RefusalDelta p | RefusalDone p | ReasoningDelta p | ReasoningDone p
  | ReasoningSummaryTextDelta p | ReasoningSummaryTextDone p | ReasoningSummaryPartAdded p
  | ReasoningSummaryPartDone p | ErrorEvent p | Unknown _ p => p
  end.

Definition event_type (e : ResponsesEvent) : string :=
  match e with
  | ResponseCreated _ => "response.created"
  | ResponseQueued _ => "response.queued"
  | ResponseInProgress _ => "response.in_progress"
  | ResponseCompleted _ => "response.completed"
  | ResponseIncomplete _ => "response.incomplete"
  | ResponseFailed _ => "response.failed"
  | OutputItemAdded _ => "response.output_item.added"
  | OutputItemDone _ => "response.output_item.done"
  | ContentPartAdded _ => "response.content_part.added"
  | ContentPartDone _ => "response.content_part.done"
  | OutputTextDelta _ => "response.output_text.delta"
  | OutputTextDone _ => "response.output_text.done"
  | OutputTextAnnotationAdded _ => "response.output_text.annotation.added"
  | FunctionCallArgumentsDelta _ => "response.function_call_arguments.delta"
  | FunctionCallArgumentsDone _ => "response.function_call_arguments.done"
  | RefusalDelta _ => "response.refusal.delta"
  | RefusalDone _ => "response.refusal.done"
  | ReasoningDelta _ => "response.reasoning.delta"
  | ReasoningDone _ => "response.reasoning.done"
  | ReasoningSummaryTextDelta _ => "response.reasoning_summary_text.delta"
  | ReasoningSummaryTextDone _ => "response.reasoning_summary_text.done"
  | ReasoningSummaryPartAdded _ => "response.reasoning_summary_part.added"
  | ReasoningSummaryPartDone _ => "response.reasoning_summary_part.done"
  | ErrorEvent _ => "error"
  | Unknown t _ => t
  end.

(** * Usage *)

(** [merge_usage]. *)
Fixpoint merge_usage (accumulated current : Json) {struct current} : Json :=
  match accumulated, current with
  | JObject a, JObject c =>
      JObject ((fix go (a c : list (string * Json)) {struct c} : list (string * Json) :=
                  match c with
                  | [] => a
                  | (key, value) :: c =>
                      go (match assoc key a with
                          | Some existing => assoc_insert key (merge_usage existing value) a
                          | None => a ++ [(key, value)]
                          end) c
                  end) a c)
  | JNumber a, JNumber c =>
      match number_as_u64 a, number_as_u64 c with
      | Some l, Some r => JNumber (PosInt (saturating_add l r))
      | _, _ => JNumber c
      end
  | _, _ => current
  end.

(** * Facts *)

Lemma known_variant_spec t ctor :
  known_variant t = Some ctor -> forall d, payload (ctor d) = d /\ event_type (ctor d) = canonical_event_type t.
Proof.
  intros H d. apply assoc_elem in H. unfold known_variants in H.
  repeat (apply elem_of_cons in H as [[= -> ->]|H]; [split; reflexivity|]). by apply elem_of_nil in H.
Qed.

Lemma unknown_canonical t : known_variant t = None -> canonical_event_type t = t.
Proof.
  intros H. unfold canonical_event_type. repeat case_bool_decide; subst; [by vm_compute in H..|done].
Qed.

Lemma canonical_line_break t : has_line_break t = false -> has_line_break (canonical_event_type t) = false.
Proof. unfold canonical_event_type. repeat case_bool_decide; done. Qed.

(** The lookup of a merged object. *)
Lemma merge_lookup a c k :
  NoDup c.*1 ->
  get (merge_usage (JObject a) (JObject c)) k =
    match assoc k a, assoc k c with
    | Some x, Some y => Some (merge_usage x y)
    | None, y => y
    | x, None => x
    end.
Proof.
  cbn [merge_usage get]. revert a. induction c as [|[key value] c IH]; intros a Hnd; cbn; [by destruct (assoc k a)|].
  apply NoDup_cons in Hnd as [Hni Hnd]. cbn in Hni. rewrite IH by done. case_bool_decide as Hk.
  - subst key. assert (assoc k c = None) as -> by (by apply assoc_None). destruct (assoc k a) as [x|] eqn:Ha.
    + rewrite assoc_insert_lookup. by case_decide.
    + assert (assoc k (a ++ [(k, value)]) = Some value) as ->; [|done].
      clear -Ha. induction a as [|[k0 v0] a IHa]; cbn in *; [by case_bool_decide|]. case_bool_decide; [done|auto].
  - assert (assoc k (match assoc key a with
        | Some existing => assoc_insert key (merge_usage existing value) a | None => a ++ [(key, value)] end) = assoc k a) as ->; [|done].
    destruct (assoc key a) as [x|].
    + rewrite assoc_insert_lookup. by case_decide; [congruence|].
    + clear -Hk. induction a as [|[k0 v0] a IHa]; cbn; [by case_bool_decide|]. case_bool_decide; done.
Qed.

(** The value at a path of keys. *)
Fixpoint at_path (v : Json) (p : list string) : option Json :=
  match p with
  | [] => Some v
  | k :: p => x ← get v k; at_path x p
  end.
Definition count_at (v : Json) (p : list string) : option N := x ← at_path v p; as_u64 x.

Lemma merge_count acc cur p a b :
  json_wf cur -> count_at acc p = Some a -> count_at cur p = Some b ->
  count_at (merge_usage acc cur) p = Some (saturating_add a b).
Proof.
  revert acc cur. induction p as [|k p IH]; intros acc cur Hwf Ha Hc.
  - unfold count_at in *. cbn in *. destruct acc as [| |[]| | |]; try done. destruct cur as [| |[]| | |]; try done.
    cbn in *. by simplify_eq.
  - unfold count_at in *. cbn [at_path] in *. destruct acc as [| | | | |la]; try done. destruct cur as [| | | | |lc]; try done.
    cbn [get] in Ha, Hc. inversion Hwf as [| | | | |l Hnd Hall]; subst. rewrite merge_lookup by done.
    destruct (assoc k la) as [x|] eqn:Hx; [|done]. destruct (assoc k lc) as [y|] eqn:Hy; [|done]. cbn in *.
    apply (IH x y); [|done|done]. apply (Hall (k, y)). by apply assoc_elem.
Qed.

(** * Properties *)

(** C37. An accepted event is what its frame says: it carries the parsed payload
    unchanged, its type is the payload's own (up to the two provider aliases),
    the frame's [event:] field cannot name another type, and the type contains
    no line break, so re-emitting it as an [event:] line cannot inject SSE
    fields. *)
Theorem typed_event_faithful from_slice f e :
  from_frame from_slice f = Ok e ->
  exists t, from_slice (frame_data f) = Ok (payload e) /\ get (payload e) "type" = Some (JString t) /\
    event_type e = canonical_event_type t /\ has_line_break (event_type e) = false /\
    forall h, frame_event_type f = Some h -> canonical_event_type (bytes_string h) = event_type e.
Proof.
  unfold from_frame. destruct (from_slice (frame_data f)) as [data|] eqn:Hd; [|done].
  destruct (get data "type") as [v|] eqn:Hg; [|done]. cbn. destruct v as [| | |t| |]; cbn; try done.
  destruct (has_line_break t) eqn:Hlb; [done|].
  assert (forall e', match known_variant t with Some ctor => ctor data | None => Unknown t data end = e' ->
    payload e' = data /\ event_type e' = canonical_event_type t) as He.
  { intros e' <-. destruct (known_variant t) as [ctor|] eqn:Hk; [by apply known_variant_spec|].
    by rewrite (unknown_canonical t Hk). }
  intros Hok. exists t. destruct (frame_event_type f) as [h|] eqn:Hh.
  - case_bool_decide as Hc; [|done]. injection Hok as Heq. destruct (He e Heq) as [-> ->].
    split_and!; try done; [by apply canonical_line_break|]. by intros h' [= <-].
  - injection Hok as Heq. destruct (He e Heq) as [-> ->]. split_and!; try done. by apply canonical_line_break.
Qed.

(** Accumulated usage is the sum of the rounds: whatever other fields the
    usage objects have and at whatever nesting depth the counter sits, merging
    the reports of one or more rounds leaves there the sum of their counters,
    saturated at [u64::MAX]. *)
Theorem merged_usage_sums p us ns :
  us <> [] -> Forall json_wf us -> Forall2 (fun u n => count_at u p = Some n /\ n <= u64_max) us ns ->
  count_at (foldl merge_usage JNull us) p = Some (N.min (sumN ns) u64_max).
Proof.
  intros Hne Hwf Hc. destruct Hc as [|u n us ns [Hn Hle] Hc]; [done|]. apply Forall_cons in Hwf as [_ Hwf].
  cbn [foldl]. assert (merge_usage JNull u = u) as -> by (by destruct u). clear Hne.
  rewrite sumN_cons. assert (exists m, N.min m u64_max = n /\ N.min (n + sumN ns) u64_max = N.min (m + sumN ns) u64_max)
    as (m & Hm & ->) by (exists n; split; [lia|done]). rewrite <- Hm in Hn. clear n Hle Hm.
  revert u m Hn. induction Hc as [|u' n us ns [Hn' Hle'] Hc IH]; intros u m Hn; cbn [foldl].
  - rewrite sumN_nil, N.add_0_r. done.
  - apply Forall_cons in Hwf as [Hw Hwf]. rewrite sumN_cons, N.add_assoc. apply IH; [done|].
    rewrite (merge_count _ _ _ _ _ Hw Hn Hn'). f_equal. unfold saturating_add. lia.
Qed.

(** * Witnesses *)

Definition created_payload : Json :=
  JObject [("type", JString "response.reasoning_text.delta"); ("delta", JString "x")]%string.

Lemma typed_event_faithful_witness :
  exists t, get created_payload "type" = Some (JString t) /\
    canonical_event_type t = "response.reasoning.delta"%string.
Proof.
  destruct (typed_event_faithful (fun _ => Ok created_payload)
    (mkFrame (Some (bstr "response.reasoning.delta")) []) (ReasoningDelta created_payload))
    as (t & _ & Ht & He & _); [vm_compute; reflexivity|]. exists t. split; [exact Ht|symmetry; exact He].
Defined.

Definition usage_report (n : N) : Json :=
  JObject [("output_tokens", JNumber (PosInt 1));
           ("input_tokens_details", JObject [("cached_tokens", JNumber (PosInt n))])]%string.

Lemma usage_report_wf n : json_wf (usage_report n).
Proof.
  constructor; [by apply (bool_decide_unpack _)|]. intros e [->|[->|[]%elem_of_nil]%elem_of_cons]%elem_of_cons; cbn.
  - constructor.
  - constructor; [apply NoDup_singleton|]. intros e' ->%list_elem_of_singleton. constructor.
Qed.

Lemma merged_usage_sums_witness :
  count_at (foldl merge_usage JNull [usage_report 5; usage_report 7; usage_report 30])
    ["input_tokens_details"; "cached_tokens"]%string = Some 42.
Proof.
  apply (merged_usage_sums ["input_tokens_details"; "cached_tokens"]%string
    [usage_report 5; usage_report 7; usage_report 30] [5; 7; 30]).
  - discriminate.
  - repeat (apply Forall_cons; split; [apply usage_report_wf|]); apply Forall_nil; exact I.
  - repeat constructor; vm_compute; discriminate.
Defined.
