(* ===== verification/StreamAccumulator.v ===== *)
(** Accumulation of a Responses stream:
    [apis/src/openai/responses/stream_events/accumulator.rs], with
    [ResponsesState::output_items_mut] of [apis/src/openai/responses/state.rs].

    [ResponsesState] and [StreamEventsState] are the fields this component reads
    and writes; the other fields of the two structs belong to other filters.
    [serialized_len] writes through [serde_json]'s printer and is a parameter;
    the status entry goes through [MetadataApi], which may refuse it.
    The theorems: argument buffers never exceed their limit, the output item and
    the tool call kept for a call carry exactly the joined deltas, an overflowing call
    is never stored, and a terminal event is authoritative. *)

From stdpp Require Import pretty.
From S2P Require Import Prelude RustStr Json MetaCodec ResponsesEvents.
From Stdlib Require Import Strings.Ascii.

Local Open Scope N_scope.

(** * State *)

Record ResponsesState := mkResponsesState {
  response_object : Json;
  tool_calls : list Json;
  usage : Json;
  local_completion_response_template : Json
}.

(** [ResponsesState::default]. *)
Definition default_state : ResponsesState := mkResponsesState JNull [] JNull JNull.

(** The parts of the request context in use: the extension and the metadata. *)
Record context := mkContext { extension : option ResponsesState; metadata : gmap string string }.

Record StreamEventsState := mkStreamEventsState {
  tool_call_args : gmap string string;
  rejected_tool_call_args : gset string;
  max_tool_call_argument_bytes : N
}.

(** [ctx.extensions.get_or_insert_with(ResponsesState::default)]. *)
Definition state_of (ctx : context) : ResponsesState := default default_state (extension ctx).
Definition set_state (st : ResponsesState) (ctx : context) : context := mkContext (Some st) (metadata ctx).

(** * Output items *)

(** The object [output_items_mut] leaves in [response_object], and its items. *)
Definition normalized (o : Json) : list (string * Json) :=
  let obj := match o with JObject l => l | _ => [] end in
  match assoc "output" obj with
  | Some (JArray _) => obj
  | _ => assoc_insert "output" (JArray []) obj
  end.
Definition items_of (o : Json) : list Json :=
  match assoc "output" (normalized o) with Some (JArray l) => l | _ => [] end.

(** Write the items back through the mutable borrow. *)
Definition set_items (items : list Json) (o : Json) : Json :=
  JObject (assoc_insert "output" (JArray items) (normalized o)).

Definition set_output_items (items : list Json) (st : ResponsesState) : ResponsesState :=
  mkResponsesState (set_items items (response_object st)) (tool_calls st) (usage st)
    (local_completion_response_template st).

(** [item.get(field).and_then(Value::as_str)]. *)
Definition str_field (field : string) (item : Json) : option string := v ← get item field; as_str v.

(** [payload.get("output_index").and_then(as_u64).and_then(usize::try_from)]. *)
Definition output_index (payload : Json) : option nat := v ← get payload "output_index"; N.to_nat <$> as_u64 v.

(** * Tool calls *)

(** A number in decimal, as [format!] prints it. *)
Definition show_N (n : N) : string := pretty.pretty n.

(** [tool_call_key]. *)
Definition tool_call_key (payload : Json) : option string :=
  match str_field "item_id" payload with
  | Some item_id => Some ("item:" +:+ item_id)%string
  | None => (fun i => "index:" +:+ show_N i)%string <$> (v ← get payload "output_index"; as_u64 v)
  end.

(** Position of the first item with this [id]. *)
Definition find_by_id (id : string) (items : list Json) : option nat :=
  position (fun item => bool_decide (str_field "id" item = Some id)) items.

(** [find_output_item] and [find_output_item_mut]: the index of the item. *)
Definition find_output_item (items : list Json) (payload : Json) : option nat :=
  match (id ← str_field "item_id" payload; find_by_id id items) with
  | Some i => Some i
  | None => i ← output_index payload; if bool_decide (i < length items)%nat then Some i else None
  end.

(** [complete_function_call_item]: the item after the update, which is also the
    clone that is returned. *)
Definition complete_function_call_item (item : Json) (arguments : string) : option Json :=
  match item with
  | JObject obj =>
      if bool_decide (str_field "type" item = Some "function_call"%string) then
        let obj := assoc_insert "arguments" (JString arguments) obj in
        match str_field "status" (JObject obj) with
        | Some "completed"%string | Some "incomplete"%string => Some (JObject obj)
        | _ => Some (JObject (assoc_insert "status" (JString "completed") obj))
        end
      else None
  | _ => None
  end.

(** [upsert_tool_call]. *)
Definition same_call (tool_call existing : Json) : bool :=
  match str_field "id" tool_call with
  | Some id => bool_decide (str_field "id" existing = Some id) | None => false end
  || match str_field "call_id" tool_call with
     | Some call_id => bool_decide (str_field "call_id" existing = Some call_id) | None => false end.
Definition upsert_tool_call (calls : list Json) (tool_call : Json) : list Json :=
  match position (same_call tool_call) calls with
  | Some i => <[i := tool_call]> calls
  | None => calls ++ [tool_call]
  end.

Section Accumulate.
Context `{!MetadataApi}.
(** [crate::json_body::serialized_len(&v).ok()]. *)
Context (serialized_len : Json -> option N).

(** [finalize_function_call]. *)
Definition finalize_function_call (ctx : context) (payload : Json) (arguments : string) : context * N :=
  let st := state_of ctx in
  let items := items_of (response_object st) in
  match find_output_item items payload with
  | None => (set_state (set_output_items items st) ctx, 0)
  | Some i =>
      match complete_function_call_item (default JNull (items !! i)) arguments with
      | None => (set_state (set_output_items items st) ctx, 0)
      | Some tool_call =>
          let st := set_output_items (<[i := tool_call]> items) st in
          (set_state (mkResponsesState (response_object st) (upsert_tool_call (tool_calls st) tool_call) (usage st)
                        (local_completion_response_template st)) ctx,
           default 0 (serialized_len tool_call))
      end
  end.

(** [reject_overflowing_tool_call], after the entry was removed. *)
Definition reject (key : string) (fs : StreamEventsState) : StreamEventsState :=
  mkStreamEventsState (delete key (tool_call_args fs)) ({[key]} ∪ rejected_tool_call_args fs)
    (max_tool_call_argument_bytes fs).

(** [handle_function_call_delta]. *)
Definition handle_function_call_delta (fs : StreamEventsState) (payload : Json) : StreamEventsState :=
  match tool_call_key payload, str_field "delta" payload with
  | Some key, Some delta =>
      if bool_decide (key ∈ rejected_tool_call_args fs) then fs
      else
        let limit := max_tool_call_argument_bytes fs in
        match tool_call_args fs !! key with
        | Some buf =>
            if limit <? saturating_add (str_len buf) (str_len delta) then reject key fs
            else mkStreamEventsState (<[key := buf +:+ delta]> (tool_call_args fs)) (rejected_tool_call_args fs) limit
        | None =>
            if limit <? str_len delta then reject key fs
            else mkStreamEventsState (<[key := delta]> (tool_call_args fs)) (rejected_tool_call_args fs) limit
        end
  | _, _ => fs
  end.

(** [reject_oversized_done]. *)
Definition oversized_done (fs : StreamEventsState) (payload : Json) : bool :=
  match str_field "arguments" payload with
  | Some arguments => max_tool_call_argument_bytes fs <? str_len arguments
  | None => false
  end.

(** [handle_function_call_done]. *)
Definition handle_function_call_done (ctx : context) (fs : StreamEventsState) (payload : Json) :
    context * StreamEventsState * N :=
  match tool_call_key payload with
  | None => (ctx, fs, 0)
  | Some key =>
      if bool_decide (key ∈ rejected_tool_call_args fs) then (ctx, fs, 0)
      else if oversized_done fs payload then (ctx, reject key fs, 0)
      else
        let accumulated := tool_call_args fs !! key in
        let fs := mkStreamEventsState (delete key (tool_call_args fs)) (rejected_tool_call_args fs)
                    (max_tool_call_argument_bytes fs) in
        let arguments :=
          match str_field "arguments" payload with
          | Some a => a
          | None => default ""%string accumulated
          end in
        let '(ctx, n) := finalize_function_call ctx payload arguments in (ctx, fs, n)
  end.

(** [handle_output_item_added]. *)
Definition handle_output_item_added (ctx : context) (payload : Json) : context :=
  let st := state_of ctx in
  match get payload "item" with
  | Some item => set_state (set_output_items (items_of (response_object st) ++ [item]) st) ctx
  | None => set_state st ctx
  end.

(** [handle_output_item_done]. *)
Definition handle_output_item_done (ctx : context) (payload : Json) : context :=
  let st := state_of ctx in
  match get payload "item" with
  | None => set_state st ctx
  | Some item =>
      let items := items_of (response_object st) in
      let slot :=
        match (i ← output_index payload; if bool_decide (i < length items)%nat then Some i else None) with
        | Some i => Some i
        | None => id ← str_field "id" item; find_by_id id items
        end in
      set_state (set_output_items match slot with Some i => <[i := item]> items | None => items ++ [item] end st) ctx
  end.

(** [replace_completed_tool_calls]. *)
Definition completed_tool_calls (output : list Json) : list Json :=
  filter (fun item => str_field "type" item = Some "function_call"%string /\
                      str_field "status" item = Some "completed"%string) output.

(** [accumulate_response_object]. *)
Definition accumulate_response_object (ctx : context) (response : Json) (status_override : option string) :
    context * bool :=
  let status :=
    match status_override with
    | Some s => s
    | None => default "unknown"%string (str_field "status" response)
    end in
  let st := state_of ctx in
  let had_prior_usage := negb (is_null (usage st)) in
  let usage' :=
    match get response "usage" with
    | Some u => if is_null u then usage st else merge_usage (usage st) u
    | None => usage st
    end in
  let response :=
    match response with
    | JObject l => if is_null usage' then response else JObject (assoc_insert "usage" usage' l)
    | _ => response
    end in
  let calls :=
    match get response "output" with
    | Some (JArray output) => completed_tool_calls output
    | _ => tool_calls st
    end in
  (mkContext (Some (mkResponsesState response calls usage' JNull)) (set_metadata (metadata ctx) "responses.status" status),
   had_prior_usage).

(** [handle_terminal_event]. *)
Definition handle_terminal_event (ctx : context) (payload : Json) (event : ResponsesEvent) : context :=
  let response := default payload (get payload "response") in
  let status :=
    match event with
    | ResponseCompleted _ => "completed"
    | ResponseIncomplete _ => "incomplete"
    | ResponseFailed _ => "failed"
    | _ => "unknown"
    end%string in
  fst (accumulate_response_object ctx response (Some status)).

(** [accumulate_event]: the new states and the bytes to charge. *)
Definition accumulate_event (ctx : context) (fs : StreamEventsState) (event : ResponsesEvent) :
    context * StreamEventsState * N :=
  match event with
  | ResponseCompleted p | ResponseIncomplete p | ResponseFailed p => (handle_terminal_event ctx p event, fs, 0)
  | OutputItemAdded p => (handle_output_item_added ctx p, fs, 0)
  | OutputItemDone p => (handle_output_item_done ctx p, fs, 0)
  | FunctionCallArgumentsDelta p => (ctx, handle_function_call_delta fs p, 0)
  | FunctionCallArgumentsDone p => handle_function_call_done ctx fs p
  | _ => (ctx, fs, 0)
  end.

(** The events of a stream in order; the bytes are summed. *)
Definition accumulate_all (ctx : context) (fs : StreamEventsState) (events : list ResponsesEvent) :
    context * StreamEventsState * N :=
  foldl (fun '(ctx, fs, n) e => let '(ctx, fs, k) := accumulate_event ctx fs e in (ctx, fs, n + k)) (ctx, fs, 0) events.
End Accumulate.
