(* ===== verification/StreamAccumulatorProps.v ===== *)
(** Correctness of stream accumulation.

    The buffers of one call are related to the concatenation of its deltas by
    following a single key through an arbitrary event sequence ([key_state]). *)

From S2P Require Import Prelude RustStr Json MetaCodec ResponsesEvents StreamAccumulator.

Local Open Scope N_scope.

(** * One key *)

(** What the filter knows about one call: its buffer, or that it overflowed. *)
Inductive call_state := Open (buffer : option string) | Overflowed.

Definition key_state (fs : StreamEventsState) (k : string) : call_state :=
  if decide (k ∈ rejected_tool_call_args fs) then Overflowed else Open (tool_call_args fs !! k).

(** Buffers fit and belong to calls that have not overflowed. *)
Definition buffers_ok (fs : StreamEventsState) : Prop :=
  forall k b, tool_call_args fs !! k = Some b ->
    str_len b <= max_tool_call_argument_bytes fs /\ k ∉ rejected_tool_call_args fs.

(** The delta an event adds to key [k]. *)
Definition delta_of (k : string) (e : ResponsesEvent) : option string :=
  match e with
  | FunctionCallArgumentsDelta p => if decide (tool_call_key p = Some k) then str_field "delta" p else None
  | _ => None
  end.

Definition is_done_of (k : string) (e : ResponsesEvent) : bool :=
  match e with
  | FunctionCallArgumentsDone p => bool_decide (tool_call_key p = Some k)
  | _ => false
  end.

Definition add_delta (limit : N) (s : call_state) (d : string) : call_state :=
  match s with
  | Overflowed => Overflowed
  | Open b => let b := (default "" b +:+ d)%string in if limit <? str_len b then Overflowed else Open (Some b)
  end.

Lemma key_state_reject key fs k :
  key_state (reject key fs) k = if decide (k = key) then Overflowed else key_state fs k.
Proof.
  unfold key_state, reject. cbn. destruct (decide (k = key)) as [->|Hne]; [by rewrite decide_True by set_solver|].
  rewrite lookup_delete_ne by done. repeat case_decide; (done || set_solver).
Qed.

Lemma key_state_delta fs p k :
  max_tool_call_argument_bytes fs < u64_max ->
  key_state (handle_function_call_delta fs p) k =
    match delta_of k (FunctionCallArgumentsDelta p) with
    | Some d => add_delta (max_tool_call_argument_bytes fs) (key_state fs k) d
    | None => key_state fs k
    end.
Proof.
  intros Hmax. unfold handle_function_call_delta, delta_of.
  destruct (tool_call_key p) as [key|] eqn:Hk; [|done].
  destruct (str_field "delta" p) as [d|] eqn:Hd; [|by repeat case_decide].
  case_bool_decide as Hr.
  { case_decide as Heq; [|done]. injection Heq as ->. unfold key_state. by rewrite decide_True. }
  assert (forall b, default ""%string (tool_call_args fs !! key) = b ->
    add_delta (max_tool_call_argument_bytes fs) (key_state fs key) d =
      if max_tool_call_argument_bytes fs <? str_len b + str_len d then Overflowed else Open (Some (b +:+ d))) as Hadd.
  { intros b <-. unfold key_state. rewrite decide_False by done. cbn. by rewrite str_len_app. }
  assert (forall b, (max_tool_call_argument_bytes fs <? saturating_add (str_len b) (str_len d)) =
    (max_tool_call_argument_bytes fs <? str_len b + str_len d)) as Hsat.
  { intros b. unfold saturating_add.
    destruct (N.ltb_spec (max_tool_call_argument_bytes fs) (N.min (str_len b + str_len d) u64_max));
      destruct (N.ltb_spec (max_tool_call_argument_bytes fs) (str_len b + str_len d)); (done || lia). }
  assert (forall b, key_state (mkStreamEventsState (<[key := b]> (tool_call_args fs)) (rejected_tool_call_args fs)
    (max_tool_call_argument_bytes fs)) k = if decide (k = key) then Open (Some b) else key_state fs k) as Hset.
  { intros b. unfold key_state. cbn. destruct (decide (k = key)) as [->|Hk'];
      [by rewrite decide_False, lookup_insert_eq|by rewrite lookup_insert_ne by congruence]. }
  destruct (decide (k = key)) as [->|Hne]; [rewrite decide_True by done|rewrite decide_False by congruence].
  - rewrite (Hadd _ eq_refl). destruct (tool_call_args fs !! key) as [buf|] eqn:Hb; cbn [default from_option id].
    + rewrite Hsat. destruct (_ <? _); [by rewrite key_state_reject, decide_True|by rewrite Hset].
    + change (str_len "") with 0. rewrite N.add_0_l. destruct (_ <? _); [by rewrite key_state_reject, decide_True|by rewrite Hset].
  - destruct (tool_call_args fs !! key); destruct (_ <? _); rewrite ?key_state_reject, ?decide_False by done; rewrite ?Hset; done.
Qed.

Section Accumulation.
Context `{!MetadataApi} (serialized_len : Json -> option N).

Lemma accumulate_limit ctx fs e :
  max_tool_call_argument_bytes (accumulate_event serialized_len ctx fs e).1.2 = max_tool_call_argument_bytes fs.
Proof.
  destruct e; cbn; try done; unfold handle_function_call_delta, handle_function_call_done; repeat case_match; done.
Qed.

(** Following one key through any event that does not finish it. *)
Lemma accumulate_key_state ctx fs e k :
  max_tool_call_argument_bytes fs < u64_max -> is_done_of k e = false ->
  key_state (accumulate_event serialized_len ctx fs e).1.2 k =
    match delta_of k e with
    | Some d => add_delta (max_tool_call_argument_bytes fs) (key_state fs k) d
    | None => key_state fs k
    end.
Proof.
  intros Hmax Hd. destruct e as [p|p|p|p|p|p|p|p|p|p|p|p|p|p|p|p|p|p|p|p|p|p|p|p|t p]; try reflexivity.
  - by apply key_state_delta.
  - cbn in Hd |- *. apply bool_decide_eq_false in Hd. unfold handle_function_call_done.
    destruct (tool_call_key p) as [key|] eqn:Hk; [|done]. assert (k <> key) as Hne by congruence.
    case_bool_decide; [done|]. destruct (oversized_done fs p).
    + cbn [fst snd]. by rewrite key_state_reject, decide_False.
    + destruct (finalize_function_call _ _ _ _). cbn. unfold key_state. cbn. by rewrite lookup_delete_ne by congruence.
Qed.

Lemma accumulate_snoc ctx fs evs e :
  accumulate_all serialized_len ctx fs (evs ++ [e]) =
    let '(ctx', fs', n) := accumulate_all serialized_len ctx fs evs in
    let '(ctx'', fs'', k) := accumulate_event serialized_len ctx' fs' e in (ctx'', fs'', n + k).
Proof.
  unfold accumulate_all. rewrite foldl_app. cbn [foldl]. by destruct (foldl _ _ evs) as [[ctx' fs'] n].
Qed.

Lemma accumulate_all_limit ctx fs evs :
  max_tool_call_argument_bytes (accumulate_all serialized_len ctx fs evs).1.2 = max_tool_call_argument_bytes fs.
Proof.
  induction evs as [|e evs IH] using rev_ind; [done|]. rewrite accumulate_snoc.
  destruct (accumulate_all serialized_len ctx fs evs) as [[ctx' fs'] n]. cbn in IH.
  pose proof (accumulate_limit ctx' fs' e). destruct (accumulate_event _ _ _ _) as [[ctx'' fs''] k]. cbn in *. congruence.
Qed.

Lemma accumulate_all_key_state ctx fs evs k :
  max_tool_call_argument_bytes fs < u64_max -> existsb (is_done_of k) evs = false ->
  key_state (accumulate_all serialized_len ctx fs evs).1.2 k =
    foldl (add_delta (max_tool_call_argument_bytes fs)) (key_state fs k) (omap (delta_of k) evs).
Proof.
  intros Hmax. induction evs as [|e evs IH] using rev_ind; [done|].
  rewrite existsb_app, orb_false_iff. intros [Hd He]. specialize (IH Hd). rewrite accumulate_snoc.
  pose proof (accumulate_all_limit ctx fs evs) as Hl.
  destruct (accumulate_all serialized_len ctx fs evs) as [[ctx' fs'] n]. cbn in IH, Hl.
  cbn in He. rewrite orb_false_r in He.
  pose proof (accumulate_key_state ctx' fs' e k ltac:(lia) He) as Hk.
  destruct (accumulate_event _ ctx' fs' e) as [[ctx'' fs''] m]. cbn in Hk |- *. rewrite Hk, IH, Hl, omap_app, foldl_app.
  cbn. by destruct (delta_of k e).
Qed.
End Accumulation.

(** The fold of deltas is their concatenation, unless it outgrows the limit. *)
Definition concat_str (l : list string) : string := foldr (fun a b => a +:+ b)%string ""%string l.

Lemma concat_str_app a b : concat_str (a ++ b) = (concat_str a +:+ concat_str b)%string.
Proof.
  induction a as [|x a IH]; [done|]. change (concat_str ((x :: a) ++ b)) with (x +:+ concat_str (a ++ b))%string.
  by rewrite IH, <- str_app_assoc.
Qed.

Lemma fold_deltas limit ds :
  foldl (add_delta limit) (Open None) ds =
    if limit <? str_len (concat_str ds) then Overflowed
    else Open (match ds with [] => None | _ => Some (concat_str ds) end).
Proof.
  induction ds as [|d ds IH] using rev_ind.
  { cbn. destruct (N.ltb_spec limit (str_len "")); [unfold str_len in *; cbn in *; lia|done]. }
  rewrite foldl_app, IH, concat_str_app, str_len_app. cbn [foldl].
  replace (concat_str [d]) with d by (symmetry; apply str_app_nil).
  destruct (N.ltb_spec limit (str_len (concat_str ds))) as [Hl|Hl].
  { cbn. by rewrite (proj2 (N.ltb_lt _ _)) by lia. }
  assert (default ""%string match ds with [] => None | _ => Some (concat_str ds) end = concat_str ds) as Hdef by (by destruct ds).
  cbn. rewrite Hdef, str_len_app. destruct (_ <? _); [done|]. by destruct ds.
Qed.

(** * Buffers *)

Definition fresh_state (limit : N) : StreamEventsState := mkStreamEventsState ∅ ∅ limit.

Lemma fresh_key_state limit k : key_state (fresh_state limit) k = Open None.
Proof. unfold key_state. cbn. by rewrite decide_False by set_solver. Qed.

Lemma reject_ok key fs : buffers_ok fs -> buffers_ok (reject key fs).
Proof.
  intros Hok k b. cbn. rewrite lookup_delete. case_decide; [done|]. intros [Hl Hr]%Hok. split; [done|]. set_solver.
Qed.

Lemma set_buffer_ok key b fs :
  buffers_ok fs -> str_len b <= max_tool_call_argument_bytes fs -> key ∉ rejected_tool_call_args fs ->
  buffers_ok (mkStreamEventsState (<[key:=b]> (tool_call_args fs)) (rejected_tool_call_args fs)
    (max_tool_call_argument_bytes fs)).
Proof. intros Hok Hl Hr k b'. cbn. rewrite lookup_insert. case_decide; [intros [= <-]; by subst|apply Hok]. Qed.

Lemma accumulate_buffers_ok `{!MetadataApi} serialized_len ctx fs e :
  max_tool_call_argument_bytes fs < u64_max -> buffers_ok fs ->
  buffers_ok (accumulate_event serialized_len ctx fs e).1.2.
Proof.
  intros Hmax Hok. destruct e; try exact Hok; cbn [accumulate_event fst snd].
  - unfold handle_function_call_delta. destruct (tool_call_key p) as [key|]; [|done].
    destruct (str_field "delta" p) as [d|]; [|done]. case_bool_decide; [done|].
    destruct (tool_call_args fs !! key) as [b|] eqn:Hb.
    + destruct (_ <? saturating_add _ _) eqn:Hlt; [by apply reject_ok|]. apply set_buffer_ok; [done| |done].
      apply N.ltb_ge in Hlt. rewrite str_len_app. unfold saturating_add in Hlt. lia.
    + destruct (_ <? str_len d) eqn:Hlt; [by apply reject_ok|]. apply N.ltb_ge in Hlt. by apply set_buffer_ok.
  - unfold handle_function_call_done. destruct (tool_call_key p) as [key|]; [|done]. case_bool_decide; [done|].
    destruct (oversized_done fs p); [by apply reject_ok|]. destruct (finalize_function_call _ _ _ _). cbn.
    intros k b. cbn. rewrite lookup_delete. case_decide; [done|]. apply Hok.
Qed.

(** * Properties *)

(** Bounded buffers: after any sequence of events, every argument buffer the
    filter keeps is within the configured limit, and no buffer is kept for a
    call that overflowed. *)
Theorem argument_buffers_bounded `{!MetadataApi} serialized_len ctx limit evs :
  limit < u64_max ->
  let fs := (accumulate_all serialized_len ctx (fresh_state limit) evs).1.2 in
  forall k b, tool_call_args fs !! k = Some b -> str_len b <= limit /\ k ∉ rejected_tool_call_args fs.
Proof.
  intros Hmax. cbn zeta.
  assert (buffers_ok (accumulate_all serialized_len ctx (fresh_state limit) evs).1.2) as Hok.
  { induction evs as [|e evs IH] using rev_ind; [by intros k b|]. rewrite accumulate_snoc.
    pose proof (accumulate_all_limit serialized_len ctx (fresh_state limit) evs) as Hl.
    destruct (accumulate_all _ _ _ evs) as [[ctx' fs'] n]. cbn in Hl, IH.
    pose proof (accumulate_buffers_ok serialized_len ctx' fs' e ltac:(lia) IH).
    by destruct (accumulate_event _ ctx' fs' e) as [[ctx'' fs''] m]. }
  pose proof (accumulate_all_limit serialized_len ctx (fresh_state limit) evs) as Hl. cbn in Hl.
  intros k b Hb. destruct (Hok k b Hb) as [H1 H2]. by rewrite Hl in H1.
Qed.

(** * The stored call *)

Lemma assoc_insert_other {A} k k' (v : A) l : k <> k' -> assoc k' (assoc_insert k v l) = assoc k' l.
Proof. intros Hne. rewrite assoc_insert_lookup. by rewrite decide_False by congruence. Qed.

Lemma assoc_insert_same {A} k (v : A) l : assoc k (assoc_insert k v l) = Some v.
Proof. by rewrite assoc_insert_lookup, decide_True. Qed.

Lemma items_set_items l o : items_of (set_items l o) = l.
Proof. unfold items_of, set_items. cbn [normalized]. unfold normalized at 1. by rewrite !assoc_insert_same. Qed.

(** The output items of a state, as its next reader sees them. *)
Definition output_items (ctx : context) : list Json := items_of (response_object (state_of ctx)).

(** The item an event is about: the first with the event's [item_id], or, when no
    item has it, the one at the event's [output_index]. *)
Definition addresses (p : Json) (items : list Json) (i : nat) (item : Json) : Prop :=
  items !! i = Some item /\
  ((exists id, str_field "item_id" p = Some id /\ str_field "id" item = Some id /\
      forall j y, (j < i)%nat -> items !! j = Some y -> str_field "id" y <> Some id) \/
   (output_index p = Some i /\
      forall id y, str_field "item_id" p = Some id -> y ∈ items -> str_field "id" y <> Some id)).

(** The item with its final arguments: every other field is kept, and the status
    is [completed] unless the item was already [incomplete]. *)
Definition with_arguments (arguments : string) (item item' : Json) : Prop :=
  str_field "arguments" item' = Some arguments /\
  (forall f, f <> "arguments"%string -> f <> "status"%string -> get item' f = get item f) /\
  str_field "status" item' =
    Some (if decide (str_field "status" item = Some "incomplete"%string) then "incomplete" else "completed")%string.

(** Two items describe one call: a common [id] or a common [call_id]. *)
Definition one_call (a b : Json) : Prop :=
  exists f x, f ∈ ["id"; "call_id"]%string /\ str_field f a = Some x /\ str_field f b = Some x.

(** The calls after storing one: in place of the first entry of the same call,
    otherwise at the end. *)
Definition stored_in (calls : list Json) (call : Json) (calls' : list Json) : Prop :=
  (exists before old rest, calls = before ++ old :: rest /\ one_call call old /\
     Forall (fun c => ~ one_call call c) before /\ calls' = before ++ call :: rest) \/
  (Forall (fun c => ~ one_call call c) calls /\ calls' = calls ++ [call]).

Lemma find_by_id_Some id items i :
  find_by_id id items = Some i <->
  (exists item, items !! i = Some item /\ str_field "id" item = Some id) /\
  forall j y, (j < i)%nat -> items !! j = Some y -> str_field "id" y <> Some id.
Proof.
  unfold find_by_id. rewrite position_Some. setoid_rewrite bool_decide_eq_true. by setoid_rewrite bool_decide_eq_false.
Qed.

Lemma find_by_id_None id items :
  find_by_id id items = None <-> forall y, y ∈ items -> str_field "id" y <> Some id.
Proof. unfold find_by_id. rewrite position_None, Forall_forall. by setoid_rewrite bool_decide_eq_false. Qed.

Lemma index_in_range (items : list Json) (i j : nat) :
  (if bool_decide (i < length items)%nat then Some i else None) = Some j <-> i = j /\ is_Some (items !! j).
Proof. case_bool_decide as H; rewrite lookup_lt_is_Some; naive_solver. Qed.

Lemma find_output_item_spec items p i :
  find_output_item items p = Some i <-> exists item, addresses p items i item.
Proof.
  unfold find_output_item, addresses. destruct (str_field "item_id" p ≫= _) as [j|] eqn:Hf.
  - apply bind_Some in Hf as (id & Hid & ((item & Hj & Hi) & Hfirst)%find_by_id_Some). split.
    + intros [= ->]. exists item. split; [done|]. left. by exists id.
    + intros (item' & Hi' & [(id' & Hid' & Hi2 & Hfirst')|(_ & Hno)]).
      * rewrite Hid in Hid'. injection Hid' as <-. f_equal. destruct (lt_eq_lt_dec i j) as [[Hlt| ->]|Hlt]; [|done|].
        -- by destruct (Hfirst i item' Hlt Hi').
        -- by destruct (Hfirst' j item Hlt Hj).
      * destruct (Hno id item Hid); [by eapply list_elem_of_lookup_2|done].
  - assert (forall id y, str_field "item_id" p = Some id -> y ∈ items -> str_field "id" y <> Some id) as Hno.
    { intros id y Hid. rewrite Hid in Hf. revert y. by apply find_by_id_None. }
    rewrite bind_Some. setoid_rewrite index_in_range. split.
    + intros (j & Hj & -> & item & Hi). exists item. split; [done|]. by right.
    + intros (item & Hi & [(id & Hid & Hi2 & _)|(Hn & _)]); [|by exists i].
      destruct (Hno id item Hid); [by eapply list_elem_of_lookup_2|done].
Qed.

(** Completing an item gives it its arguments, exactly when it is a function call. *)
Lemma complete_call item arguments :
  str_field "type" item = Some "function_call"%string ->
  exists item', complete_function_call_item item arguments = Some item' /\ with_arguments arguments item item'.
Proof.
  intros Ht. destruct item as [| | | | |obj]; try discriminate. unfold complete_function_call_item.
  rewrite bool_decide_eq_true_2 by done. set (obj' := assoc_insert "arguments" (JString arguments) obj).
  assert (forall f, f <> "arguments"%string -> assoc f obj' = assoc f obj) as Hobj
    by (intros f Hf; by apply assoc_insert_other).
  assert (assoc "arguments" obj' = Some (JString arguments)) as Harg by apply assoc_insert_same.
  assert (str_field "status" (JObject obj') = str_field "status" (JObject obj)) as Hst
    by (unfold str_field; cbn [get]; by rewrite Hobj).
  rewrite Hst. unfold with_arguments.
  destruct (decide (str_field "status" (JObject obj) = Some "completed"%string)) as [Hc|Hc];
    [|destruct (decide (str_field "status" (JObject obj) = Some "incomplete"%string)) as [Hi|Hi]].
  - rewrite Hc. exists (JObject obj'). rewrite Hst, Hc. split_and!; [done| |naive_solver|done]. unfold str_field. cbn [get]. by rewrite Harg.
  - rewrite Hi. exists (JObject obj'). rewrite Hst, Hi. split_and!; [done| |naive_solver|done]. unfold str_field. cbn [get]. by rewrite Harg.
  - exists (JObject (assoc_insert "status" (JString "completed") obj')). split.
    { repeat case_match; congruence. }
    split_and!; unfold str_field; cbn [get].
    + rewrite assoc_insert_other by done. by rewrite Harg.
    + intros f H1 H2. rewrite assoc_insert_other by done. by apply Hobj.
    + by rewrite assoc_insert_same.
Qed.

Lemma complete_other item arguments :
  str_field "type" item <> Some "function_call"%string -> complete_function_call_item item arguments = None.
Proof. intros Ht. destruct item; try done. unfold complete_function_call_item. by rewrite bool_decide_eq_false_2. Qed.

Lemma same_call_spec a b : same_call a b = true <-> one_call a b.
Proof.
  unfold same_call, one_call. rewrite orb_true_iff. split.
  - intros [H|H]; case_match; try done; apply bool_decide_eq_true in H; eexists _, _; (split; [|by split]); set_solver.
  - intros (f & x & Hf & Ha & Hb).
    apply elem_of_cons in Hf as [->|[->|[]%not_elem_of_nil]%elem_of_cons]; [left|right]; rewrite Ha; by apply bool_decide_eq_true.
Qed.

Lemma same_call_false a b : same_call a b = false <-> ~ one_call a b.
Proof. rewrite <- same_call_spec. by destruct (same_call a b). Qed.

Lemma upsert_stores calls call : stored_in calls call (upsert_tool_call calls call).
Proof.
  unfold upsert_tool_call, stored_in. destruct (position _ calls) as [i|] eqn:Hp; [left|right].
  - apply position_Some in Hp as ((old & Hi & Ho%same_call_spec) & Hb).
    exists (take i calls), old, (drop (S i) calls). pose proof (take_drop_middle calls i old Hi) as Hs. split_and!; try done.
    + apply Forall_lookup. intros j y [Hj Hlt]%lookup_take_Some. apply same_call_false. by apply (Hb j).
    + apply insert_take_drop. by eapply lookup_lt_Some.
  - apply position_None in Hp. split; [|done]. eapply Forall_impl; [exact Hp|]. intros c. apply same_call_false.
Qed.

(** What finishing a call leaves. *)
Lemma finalize_stores `{!MetadataApi} serialized_len ctx p arguments i item :
  addresses p (output_items ctx) i item -> str_field "type" item = Some "function_call"%string ->
  let '(ctx', n) := finalize_function_call serialized_len ctx p arguments in
  exists item', with_arguments arguments item item' /\
    output_items ctx' = <[i := item']> (output_items ctx) /\
    stored_in (tool_calls (state_of ctx)) item' (tool_calls (state_of ctx')) /\
    n = default 0 (serialized_len item').
Proof.
  intros Ha Ht. unfold finalize_function_call. fold (output_items ctx).
  rewrite (proj2 (find_output_item_spec _ _ i)) by eauto. destruct Ha as [-> _]. cbn [default from_option id].
  destruct (complete_call item arguments Ht) as (item' & -> & Hw). exists item'. split_and!; try done.
  - unfold output_items at 1. cbn. apply items_set_items.
  - apply upsert_stores.
Qed.

Lemma finalize_nothing `{!MetadataApi} serialized_len ctx p arguments :
  (forall i item, addresses p (output_items ctx) i item -> str_field "type" item <> Some "function_call"%string) ->
  let '(ctx', n) := finalize_function_call serialized_len ctx p arguments in
  output_items ctx' = output_items ctx /\ tool_calls (state_of ctx') = tool_calls (state_of ctx) /\ n = 0.
Proof.
  intros Hno. unfold finalize_function_call. fold (output_items ctx).
  destruct (find_output_item _ p) as [i|] eqn:Hf; [|split_and!; try done; apply items_set_items].
  apply find_output_item_spec in Hf as (item & Ha). pose proof (Hno i item Ha) as Ht. destruct Ha as [-> _].
  cbn [default from_option id]. rewrite complete_other by done. split_and!; try done. apply items_set_items.
Qed.

(** The event that finishes a call reaches [finalize_function_call] with the
    arguments of the event or the joined deltas, unless they are too long. *)
Lemma done_event `{!MetadataApi} serialized_len ctx limit evs p k :
  limit < u64_max -> tool_call_key p = Some k -> existsb (is_done_of k) evs = false ->
  let '(ctx1, fs1, _) := accumulate_all serialized_len ctx (fresh_state limit) evs in
  let '(ctx2, fs2, n) := accumulate_event serialized_len ctx1 fs1 (FunctionCallArgumentsDone p) in
  let deltas := concat_str (omap (delta_of k) evs) in
  let arguments := default deltas (str_field "arguments" p) in
  if (limit <? str_len deltas) || (limit <? str_len (default "" (str_field "arguments" p)))
  then ctx2 = ctx1 /\ n = 0 /\ k ∈ rejected_tool_call_args fs2
  else (ctx2, n) = finalize_function_call serialized_len ctx1 p arguments.
Proof.
  intros Hmax Hk Hd. pose proof (accumulate_all_key_state serialized_len ctx (fresh_state limit) evs k Hmax Hd) as Hs.
  pose proof (accumulate_all_limit serialized_len ctx (fresh_state limit) evs) as Hl.
  rewrite fresh_key_state, fold_deltas in Hs.
  destruct (accumulate_all serialized_len ctx (fresh_state limit) evs) as [[ctx1 fs1] n1]. cbn in Hs, Hl.
  cbn [accumulate_event]. unfold handle_function_call_done. rewrite Hk. unfold key_state in Hs.
  destruct (limit <? str_len (concat_str (omap (delta_of k) evs))) eqn:Hlt.
  { case_decide; [|done]. rewrite bool_decide_eq_true_2 by done. by cbn. }
  case_decide as Hr; [done|]. rewrite bool_decide_eq_false_2 by done. injection Hs as Hs. cbn [orb].
  unfold oversized_done. rewrite Hl. destruct (str_field "arguments" p) as [a|] eqn:Ha; cbn [default from_option id].
  - destruct (limit <? str_len a); [split_and!; [done|done|cbn; set_solver]|].
    by destruct (finalize_function_call _ _ _ _).
  - assert (limit <? str_len "" = false) as -> by (apply N.ltb_ge; unfold str_len; cbn; lia).
    rewrite Hs. assert (default ""%string match omap (delta_of k) evs with [] => None | _ => Some (concat_str (omap (delta_of k) evs)) end
      = concat_str (omap (delta_of k) evs)) as Hdef by (by destruct (omap (delta_of k) evs)).
    rewrite Hdef. by destruct (finalize_function_call _ _ _ _).
Qed.

(** C36. Arguments are reassembled exactly.  Whatever other events came before,
    when the [done] event of a call arrives, its arguments are those the event
    carries or, if it carries none, the call's deltas joined in order.  The
    output item the event addresses then has exactly these arguments, its other
    fields, name and call id included, unchanged; the same item is stored among
    the tool calls, in place of an earlier entry of the call if there is one;
    and its serialized size is charged.  If the event addresses no function call, nothing is
    stored or charged.  If the deltas together or the event's own arguments
    exceed the limit, nothing changes and the call stays rejected. *)
Theorem streamed_arguments_exact `{!MetadataApi} serialized_len ctx limit evs p k :
  limit < u64_max -> tool_call_key p = Some k -> existsb (is_done_of k) evs = false ->
  let '(ctx1, fs1, _) := accumulate_all serialized_len ctx (fresh_state limit) evs in
  let '(ctx2, fs2, n) := accumulate_event serialized_len ctx1 fs1 (FunctionCallArgumentsDone p) in
  let deltas := concat_str (omap (delta_of k) evs) in
  let arguments := default deltas (str_field "arguments" p) in
  if (limit <? str_len deltas) || (limit <? str_len (default "" (str_field "arguments" p)))
  then ctx2 = ctx1 /\ n = 0 /\ k ∈ rejected_tool_call_args fs2
  else
    (forall i item, addresses p (output_items ctx1) i item -> str_field "type" item = Some "function_call"%string ->
      exists item', with_arguments arguments item item' /\
        output_items ctx2 = <[i := item']> (output_items ctx1) /\
        stored_in (tool_calls (state_of ctx1)) item' (tool_calls (state_of ctx2)) /\
        n = default 0 (serialized_len item')) /\
    ((forall i item, addresses p (output_items ctx1) i item -> str_field "type" item <> Some "function_call"%string) ->
      output_items ctx2 = output_items ctx1 /\ tool_calls (state_of ctx2) = tool_calls (state_of ctx1) /\ n = 0).
Proof.
  intros Hmax Hk Hd. pose proof (done_event serialized_len ctx limit evs p k Hmax Hk Hd) as Hfin.
  destruct (accumulate_all serialized_len ctx (fresh_state limit) evs) as [[ctx1 fs1] n1].
  destruct (accumulate_event _ ctx1 fs1 _) as [[ctx2 fs2] n]. cbn zeta in *. destruct (_ || _); [done|].
  set (arguments := default _ _) in *. split.
  - intros i item Ha Ht. pose proof (finalize_stores serialized_len ctx1 p arguments i item Ha Ht) as Hs. by rewrite <- Hfin in Hs.
  - intros Hno. pose proof (finalize_nothing serialized_len ctx1 p arguments Hno) as Hs. by rewrite <- Hfin in Hs.
Qed.

(** * Terminal events *)

(** The lifecycle events that carry the complete response. *)
Definition is_lifecycle_terminal (e : ResponsesEvent) : bool :=
  match e with ResponseCompleted _ | ResponseIncomplete _ | ResponseFailed _ => true | _ => false end.

(** What incremental events cannot touch. *)
Definition keeps_usage (ctx ctx' : context) : Prop :=
  usage (state_of ctx') = usage (state_of ctx) /\ metadata ctx' = metadata ctx.

Lemma accumulate_keeps_usage `{!MetadataApi} serialized_len ctx fs e :
  is_lifecycle_terminal e = false -> keeps_usage ctx (accumulate_event serialized_len ctx fs e).1.1.
Proof.
  intros He. destruct e; try discriminate; cbn [accumulate_event fst snd]; try done.
  - unfold handle_output_item_added. by destruct (get p "item").
  - unfold handle_output_item_done. by destruct (get p "item").
  - unfold handle_function_call_done, finalize_function_call. repeat case_match; simplify_eq; done.
Qed.

Lemma accumulate_all_keeps_usage `{!MetadataApi} serialized_len ctx fs evs :
  forallb (fun e => negb (is_lifecycle_terminal e)) evs = true ->
  keeps_usage ctx (accumulate_all serialized_len ctx fs evs).1.1.
Proof.
  induction evs as [|e evs IH] using rev_ind; [done|]. rewrite forallb_app, andb_true_iff. intros [H1 H2].
  cbn in H2. rewrite andb_true_r, negb_true_iff in H2. specialize (IH H1). rewrite accumulate_snoc.
  destruct (accumulate_all serialized_len ctx fs evs) as [[ctx' fs'] n]. cbn in IH.
  pose proof (accumulate_keeps_usage serialized_len ctx' fs' e H2) as [Hu Hm].
  destruct (accumulate_event serialized_len ctx' fs' e) as [[ctx'' fs''] k]. cbn in *.
  destruct IH as [IHu IHm]. split; cbn; congruence.
Qed.

(** A terminal event is authoritative: when it carries a complete response
    with an output array, the resulting state has exactly that output and its
    completed function calls, and does not depend on the incremental events that
    came before, present, missing or contradictory. *)
Theorem terminal_overrides_increments `{!MetadataApi} serialized_len ctx fs1 fs2 evs1 evs2 e obj out :
  is_lifecycle_terminal e = true ->
  default (payload e) (get (payload e) "response") = JObject obj -> assoc "output" obj = Some (JArray out) ->
  forallb (fun e => negb (is_lifecycle_terminal e)) evs1 = true ->
  forallb (fun e => negb (is_lifecycle_terminal e)) evs2 = true ->
  let after fs evs := (accumulate_all serialized_len ctx fs (evs ++ [e])).1.1 in
  after fs1 evs1 = after fs2 evs2 /\
  tool_calls (state_of (after fs1 evs1)) = completed_tool_calls out /\
  items_of (response_object (state_of (after fs1 evs1))) = out.
Proof.
  intros He Hp Hout Ht1 Ht2 after.
  assert (forall fs evs, forallb (fun e => negb (is_lifecycle_terminal e)) evs = true ->
    exists u status, after fs evs = mkContext
      (Some (mkResponsesState (if is_null u then JObject obj else JObject (assoc_insert "usage" u obj))
         (completed_tool_calls out) u JNull)) (set_metadata (metadata ctx) "responses.status" status) /\
      u = match get (JObject obj) "usage" with
          | Some x => if is_null x then usage (state_of ctx) else merge_usage (usage (state_of ctx)) x
          | None => usage (state_of ctx) end /\
      status = match e with ResponseCompleted _ => "completed" | ResponseIncomplete _ => "incomplete" | _ => "failed" end%string)
    as Hafter.
  { intros fs evs Ht. pose proof (accumulate_all_keeps_usage serialized_len ctx fs evs Ht) as [Hu Hm].
    unfold after. rewrite accumulate_snoc. destruct (accumulate_all serialized_len ctx fs evs) as [[ctx' fs'] n].
    cbn [fst snd] in Hu, Hm. rewrite <- Hu, <- Hm. eexists _, _. split; [|split; reflexivity].
    assert ((accumulate_event serialized_len ctx' fs' e).1.1 = handle_terminal_event ctx' (payload e) e) as Hev
      by (by destruct e; try discriminate).
    destruct (accumulate_event serialized_len ctx' fs' e) as [[ctx'' fs''] k]. cbn [fst] in Hev |- *. subst ctx''.
    unfold handle_terminal_event, accumulate_response_object. rewrite Hp. cbn [fst].
    destruct (is_null _) eqn:Hn; cbn [get]; rewrite ?assoc_insert_other by done; rewrite Hout;
      destruct e; try discriminate; reflexivity. }
  destruct (Hafter fs1 evs1 Ht1) as (u & st & H1 & Hu & Hs), (Hafter fs2 evs2 Ht2) as (u' & st' & H2 & Hu' & Hs').
  split; [rewrite H1, H2; by subst|]. rewrite H1. split; [done|]. cbn. unfold items_of, normalized.
  destruct (is_null u); rewrite ?assoc_insert_other by done; rewrite Hout; rewrite ?assoc_insert_other by done; by rewrite Hout.
Qed.

(** * Witnesses *)

#[local] Existing Instance keeps_all.

Definition delta_event (d : string) : ResponsesEvent :=
  FunctionCallArgumentsDelta (JObject [("item_id", JString "fc_1"); ("delta", JString d)]%string).
Definition added_event : ResponsesEvent :=
  OutputItemAdded (JObject [("item", JObject [("id", JString "fc_1"); ("type", JString "function_call");
    ("name", JString "lookup"); ("call_id", JString "call_1")])]%string).
Definition done_payload : Json := JObject [("item_id", JString "fc_1")]%string.
Definition empty_context : context := mkContext None ∅.
Definition call_events : list ResponsesEvent := [added_event; delta_event "{\u0022a"; delta_event ":1}"].

Lemma argument_buffers_bounded_witness :
  tool_call_args (accumulate_all (fun _ => Some 1) empty_context (fresh_state 16) call_events).1.2 !! "item:fc_1"%string
    = Some "{\u0022a:1}"%string /\ str_len "{\u0022a:1}" <= 16.
Proof.
  split; [vm_compute; reflexivity|].
  apply (argument_buffers_bounded (fun _ => Some 1) empty_context 16 call_events ltac:(vm_compute; reflexivity) "item:fc_1").
  vm_compute. reflexivity.
Defined.

Lemma streamed_arguments_exact_witness :
  let '(ctx1, fs1, _) := accumulate_all (fun _ => Some 1) empty_context (fresh_state 16) call_events in
  let '(ctx2, _, n) := accumulate_event (fun _ => Some 1) ctx1 fs1 (FunctionCallArgumentsDone done_payload) in
  exists call, tool_calls (state_of ctx2) = [call] /\ output_items ctx2 = [call] /\
    str_field "arguments" call = Some "{\u0022a:1}"%string /\ str_field "name" call = Some "lookup"%string /\
    str_field "call_id" call = Some "call_1"%string /\ str_field "status" call = Some "completed"%string /\ n = 1.
Proof.
  pose proof (streamed_arguments_exact (fun _ => Some 1) empty_context 16 call_events done_payload "item:fc_1"
    ltac:(vm_compute; reflexivity) eq_refl eq_refl) as H.
  destruct (accumulate_all _ _ _ call_events) as [[ctx1 fs1] m] eqn:E1.
  destruct (accumulate_event _ _ _ _) as [[ctx2 fs2] n]. vm_compute in E1. injection E1 as <- <- <-.
  destruct H as [H _]. edestruct (H 0%nat) as (call & (Harg & Hrest & Hst) & Hout & Hcalls & Hn).
  - split; [vm_compute; reflexivity|]. left. exists "fc_1"%string. split_and!; [reflexivity..|intros; lia].
  - reflexivity.
  - exists call. destruct Hcalls as [(before & old & rest & Heq & _)|[_ ->]]; [by destruct before|].
    split_and!; try done; unfold str_field; by rewrite Hrest.
Defined.

Lemma terminal_overrides_increments_witness :
  items_of (response_object (state_of (accumulate_all (fun _ => Some 1) empty_context (fresh_state 16)
    (call_events ++ [ResponseCompleted (JObject [("output", JArray [JString "m"])]%string)])).1.1)) = [JString "m"].
Proof.
  apply (terminal_overrides_increments (fun _ => Some 1) empty_context (fresh_state 16) (fresh_state 16) call_events []
    (ResponseCompleted (JObject [("output", JArray [JString "m"])]%string)) [("output"%string, JArray [JString "m"])] [JString "m"]);
    reflexivity.
Defined.
