(* ===== verification/TaskRouting.v ===== *)
(** A2A task routing: [filters/src/agentic/a2a/task_routing.rs] and the
    configuration record it reads; the identifier check uses the value policy of
    [HeaderPolicy].

    The store maps task and context identifiers to the cluster that owns them,
    each entry with an expiry instant.  Every [Instant::now()] of the code is
    one reading of the clock: [World] carries the store and the number of
    readings taken so far, [instant n] is the [n]-th reading.  The map locks are
    held for each block below; the eviction mutex is only ever taken under the
    map's write lock, so its [try_lock] succeeds. *)

From S2P Require Import Prelude HeaderPolicy Json.
From Stdlib Require Import Strings.Ascii.

Local Open Scope N_scope.

(** * Constants and identifiers *)

Definition MAX_ID_LEN : N := 256.
Definition MAX_TASK_ROUTES : N := 50000.
Definition MAX_CONTEXT_ROUTES : N := 50000.

Definition NS : N := 1000000000.
(** [Duration::from_secs], in nanoseconds. *)
Definition from_secs (s : N) : N := s * NS.
Definition EVICTION_INTERVAL : N := from_secs 30.

(** The last representable [Instant]: seconds are an [i64]. *)
Definition INSTANT_MAX : N := (2 ^ 63 - 1) * NS + (NS - 1).

Definition strlen (s : string) : N := N.of_nat (String.length s).

(** [validate_id]. *)
Definition validate_id (id : string) : bool :=
  negb (bool_decide (id = ""%string)) && (strlen id <=? MAX_ID_LEN) && negb (contains_control_chars id).

(** * Data *)

Inductive RouteSource := Task | Context.

Definition source_as_str (r : RouteSource) : string :=
  match r with Task => "task" | Context => "context" end.

Record TaskRoute := mkRoute { cluster : string; expires_at : N }.

Record ExtractedTaskRoute := mkExtracted {
  terminal : bool;
  task_id : string;
  context_id : option string
}.

Record LocalTaskRouteStore := mkStore {
  tasks : gmap string TaskRoute;
  contexts : gmap string TaskRoute;
  last_task_eviction : N;
  last_context_eviction : N
}.

Record World := mkWorld { store : LocalTaskRouteStore; tick : nat }.

(** [a2a/config.rs]. *)
Inductive OnLookupMiss := ContinueOnMiss.
Inductive TaskRouteStore := LocalStore.

Record TaskRoutingConfig := mkTaskRoutingConfig {
  enabled : bool;
  max_response_body_bytes : N;
  on_lookup_miss : OnLookupMiss;
  route_cluster_header : string;
  route_store : TaskRouteStore;
  terminal_ttl_seconds : N;
  ttl_seconds : N
}.

(** * The store *)

Section Clock.
Context (instant : nat -> N).

(** [LocalTaskRouteStore::new]. *)
Definition store_new (t : nat) : World :=
  mkWorld (mkStore ∅ ∅ (instant t) (instant (S t))) (S (S t)).

(** [try_route], reading the clock at [t]. *)
Definition try_route (c : string) (ttl : N) (t : nat) : option TaskRoute :=
  if instant t + ttl <=? INSTANT_MAX then Some (mkRoute c (instant t + ttl)) else None.

(** The entries a reading of the clock still allows. *)
Definition live (now : N) (m : gmap string TaskRoute) : gmap string TaskRoute :=
  filter (fun e => now < expires_at e.2) m.

(** [maybe_evict_map]: the new map, eviction time and clock position. *)
Definition maybe_evict_map (m : gmap string TaskRoute) (last : N) (t : nat)
    : gmap string TaskRoute * N * nat :=
  if saturating_sub (instant t) last <? EVICTION_INTERVAL then (m, last, S t)
  else (live (instant (S t)) m, instant (S (S t)), S (S (S t))).

(** First block of [get_by_task_id] and [get_by_context_id], under the read
    lock: a live route, or whether an expired one was seen. *)
Definition get_read (m : gmap string TaskRoute) (id : string) (t : nat)
    : option string * bool * nat :=
  match m !! id with
  | Some r => if instant t <? expires_at r then (Some (cluster r), false, S t) else (None, true, S t)
  | None => (None, false, t)
  end.

(** Second block, under the write lock: remove the entry if it is expired now. *)
Definition get_sweep (m : gmap string TaskRoute) (id : string) (t : nat)
    : gmap string TaskRoute * nat :=
  match m !! id with
  | Some r => if expires_at r <=? instant t then (delete id m, S t) else (m, S t)
  | None => (m, t)
  end.

(** The two blocks in sequence. *)
Definition get_from (m : gmap string TaskRoute) (id : string) (t : nat)
    : option string * gmap string TaskRoute * nat :=
  let '(found, expired, t) := get_read m id t in
  if expired : bool then let '(m, t) := get_sweep m id t in (found, m, t) else (found, m, t).

Definition get_by_task_id (w : World) (id : string) : option string * World :=
  let s := store w in
  let '(found, m, t) := get_from (tasks s) id (tick w) in
  (found, mkWorld (mkStore m (contexts s) (last_task_eviction s) (last_context_eviction s)) t).

Definition get_by_context_id (w : World) (id : string) : option string * World :=
  let s := store w in
  let '(found, m, t) := get_from (contexts s) id (tick w) in
  (found, mkWorld (mkStore (tasks s) m (last_task_eviction s) (last_context_eviction s)) t).

(** The common text of [put] and [put_context]. *)
Definition put_into (limit : N) (m : gmap string TaskRoute) (last : N)
    (id c : string) (ttl : N) (t : nat) : gmap string TaskRoute * N * nat :=
  if negb (validate_id id) then (m, last, t)
  else
    match try_route c ttl t with
    | None => (m, last, S t)
    | Some route =>
        let '(m, last, t) := maybe_evict_map m last (S t) in
        if (limit <=? N.of_nat (size m)) && negb (bool_decide (is_Some (m !! id)))
        then (m, last, t)
        else (<[id := route]> m, last, t)
    end.

Definition put (w : World) (id c : string) (ttl : N) : World :=
  let s := store w in
  let '(m, last, t) := put_into MAX_TASK_ROUTES (tasks s) (last_task_eviction s) id c ttl (tick w) in
  mkWorld (mkStore m (contexts s) last (last_context_eviction s)) t.

Definition put_context (w : World) (id c : string) (ttl : N) : World :=
  let s := store w in
  let '(m, last, t) :=
    put_into MAX_CONTEXT_ROUTES (contexts s) (last_context_eviction s) id c ttl (tick w) in
  mkWorld (mkStore (tasks s) m (last_task_eviction s) last) t.

Definition remove (w : World) (id : string) : World :=
  let s := store w in
  mkWorld (mkStore (delete id (tasks s)) (contexts s) (last_task_eviction s)
             (last_context_eviction s)) (tick w).

(** [attempt_route_lookup]. *)
Definition attempt_route_lookup (w : World) (tid cid : option string)
    : option (string * RouteSource) * World :=
  match tid with
  | Some tid =>
      let '(found, w) := get_by_task_id w tid in
      (match found with Some c => Some (c, Task) | None => None end, w)
  | None =>
      match cid with
      | Some cid =>
          let '(found, w) := get_by_context_id w cid in
          (match found with Some c => Some (c, Context) | None => None end, w)
      | None => (None, w)
      end
  end.
End Clock.

(** * Response extraction *)

Definition is_terminal_state (state : string) : bool :=
  bool_decide (state ∈ ["TASK_STATE_COMPLETED"; "TASK_STATE_FAILED"; "TASK_STATE_CANCELED";
    "TASK_STATE_REJECTED"; "completed"; "failed"; "canceled"; "cancelled"; "rejected"]%string).

Definition extract_context_id_from_object (obj : Json) : option string :=
  s ← (get obj "contextId" ≫= as_str);
  if validate_id s then Some s else None.

(** [status.state] of an object, tested for a terminal state. *)
Definition terminal_status (obj : Json) : bool :=
  match (get obj "status" ≫= (fun s => get s "state")) ≫= as_str with
  | Some st => is_terminal_state st
  | None => false
  end.

Definition extract_from_task_object (task : Json) : option ExtractedTaskRoute :=
  tid ← (get task "id" ≫= as_str);
  if negb (validate_id tid) then None
  else Some (mkExtracted (terminal_status task) tid (extract_context_id_from_object task)).

Definition extract_from_status_update (update : Json) : option ExtractedTaskRoute :=
  tid ← (get update "taskId" ≫= as_str);
  if negb (validate_id tid) then None
  else Some (mkExtracted (terminal_status update) tid (extract_context_id_from_object update)).

Definition extract_from_artifact_update (update : Json) : option ExtractedTaskRoute :=
  tid ← (get update "taskId" ≫= as_str);
  if negb (validate_id tid) then None
  else Some (mkExtracted false tid (extract_context_id_from_object update)).

(** [extract_task_route]. *)
Definition extract_task_route (value : Json) : option ExtractedTaskRoute :=
  result ← get value "result";
  match get result "task" with
  | Some task_obj => extract_from_task_object task_obj
  | None =>
      if bool_decide (is_Some (get result "id")) && bool_decide (is_Some (get result "status"))
      then extract_from_task_object result
      else
        match get result "statusUpdate" with
        | Some u => extract_from_status_update u
        | None =>
            match get result "artifactUpdate" with
            | Some u => extract_from_artifact_update u
            | None => None
            end
        end
  end.

(** [route_ttl]. *)
Definition route_ttl (term : bool) (config : TaskRoutingConfig) : N :=
  if term then from_secs (terminal_ttl_seconds config) else from_secs (ttl_seconds config).
