(* ===== verification/TaskRoutingProps.v ===== *)
(** Properties of the A2A route store ([TaskRouting]): the invariant of the
    store, its refinement of a plain map whose entries die at their expiry, and
    what route extraction returns. *)

From S2P Require Import Prelude Json TaskRouting.

Local Open Scope N_scope.

(** * Runs *)

(** The operations on the shared store.  A lookup whose first block saw an
    expired entry runs its second block later, after other operations: the
    sweeps are steps of their own. *)
Inductive route_op :=
| OPut (id c : string) (ttl : N)
| OPutContext (id c : string) (ttl : N)
| ORemove (id : string)
| OGetTask (id : string)
| OGetContext (id : string)
| OSweepTask (id : string)
| OSweepContext (id : string).

Section Runs.
Context (instant : nat -> N).

Definition route_exec (o : route_op) (w : World) : World :=
  match o with
  | OPut id c ttl => put instant w id c ttl
  | OPutContext id c ttl => put_context instant w id c ttl
  | ORemove id => remove w id
  | OGetTask id => (get_by_task_id instant w id).2
  | OGetContext id => (get_by_context_id instant w id).2
  | OSweepTask id =>
      let '(m, t) := get_sweep instant (tasks (store w)) id (tick w) in
      mkWorld (mkStore m (contexts (store w)) (last_task_eviction (store w))
                 (last_context_eviction (store w))) t
  | OSweepContext id =>
      let '(m, t) := get_sweep instant (contexts (store w)) id (tick w) in
      mkWorld (mkStore (tasks (store w)) m (last_task_eviction (store w))
                 (last_context_eviction (store w))) t
  end.

Definition route_run (w : World) (os : list route_op) : World := foldl (fun w o => route_exec o w) w os.

(** * Invariant *)

Definition map_ok (limit : N) (m : gmap string TaskRoute) : Prop :=
  N.of_nat (size m) <= limit /\ map_Forall (fun id r => validate_id id = true /\ expires_at r <= INSTANT_MAX) m.

Definition store_ok (s : LocalTaskRouteStore) : Prop :=
  map_ok MAX_TASK_ROUTES (tasks s) /\ map_ok MAX_CONTEXT_ROUTES (contexts s).

Lemma size_subset (m m' : gmap string TaskRoute) : m ⊆ m' -> (size m <= size m')%nat.
Proof. intros H. rewrite <- !size_dom. by apply subseteq_size, subseteq_dom. Qed.

Lemma map_ok_subset limit m m' : m ⊆ m' -> map_ok limit m' -> map_ok limit m.
Proof.
  intros Hs [H1 H2]. split; [pose proof (size_subset _ _ Hs); lia|].
  intros id r Hr. apply (H2 id r). by eapply lookup_weaken.
Qed.

Lemma live_subset now m : live now m ⊆ m.
Proof. apply map_filter_subseteq. Qed.

Lemma live_lookup now m id r : live now m !! id = Some r <-> m !! id = Some r /\ now < expires_at r.
Proof. unfold live. rewrite map_lookup_filter_Some. done. Qed.

Lemma evict_subset m last t : (maybe_evict_map instant m last t).1.1 ⊆ m.
Proof. unfold maybe_evict_map. case_match; [done|]. apply live_subset. Qed.

Lemma sweep_subset m id t : (get_sweep instant m id t).1 ⊆ m.
Proof. unfold get_sweep. repeat case_match; try done. apply delete_subseteq. Qed.

Lemma get_from_subset m id t : (get_from instant m id t).1.2 ⊆ m.
Proof.
  unfold get_from. destruct (get_read instant m id t) as [[f [|]] t']; [|done].
  pose proof (sweep_subset m id t'). by destruct (get_sweep _ _ _ _).
Qed.

Lemma put_into_ok limit m last id c ttl t :
  map_ok limit m -> map_ok limit (put_into instant limit m last id c ttl t).1.1.
Proof.
  intros Hok. unfold put_into. destruct (validate_id id) eqn:Hv; [|done]. cbn [negb].
  unfold try_route. destruct (N.leb_spec (instant t + ttl) INSTANT_MAX) as [Hle|]; [|done].
  pose proof (map_ok_subset _ _ _ (evict_subset m last (S t)) Hok) as [H1 H2].
  destruct (maybe_evict_map instant m last (S t)) as [[m1 l1] t1]. cbn [fst] in *.
  destruct (N.leb_spec limit (N.of_nat (size m1))) as [Hfull|Hroom]; cbn [andb].
  - case_bool_decide as Hin; [|by split]. cbn. destruct Hin as [r Hr].
    split; [by rewrite map_size_insert_Some|by apply map_Forall_insert_2].
  - cbn. split; [rewrite map_size_insert; destruct (m1 !! id); simpl; lia|]. by apply map_Forall_insert_2.
Qed.

Lemma route_exec_ok o w : store_ok (store w) -> store_ok (store (route_exec o w)).
Proof.
  intros [Ht Hc]. destruct o; cbn.
  - unfold put. pose proof (put_into_ok _ _ (last_task_eviction (store w)) id c ttl (tick w) Ht).
    by destruct (put_into _ _ _ _ _ _ _ _) as [[??]?].
  - unfold put_context.
    pose proof (put_into_ok _ _ (last_context_eviction (store w)) id c ttl (tick w) Hc).
    by destruct (put_into _ _ _ _ _ _ _ _) as [[??]?].
  - split; [|done]. cbn. eapply map_ok_subset; [apply delete_subseteq|done].
  - unfold get_by_task_id. pose proof (get_from_subset (tasks (store w)) id (tick w)).
    destruct (get_from _ _ _ _) as [[??]?]. split; [|done]. by eapply map_ok_subset.
  - unfold get_by_context_id. pose proof (get_from_subset (contexts (store w)) id (tick w)).
    destruct (get_from _ _ _ _) as [[??]?]. split; [done|]. by eapply map_ok_subset.
  - pose proof (sweep_subset (tasks (store w)) id (tick w)).
    destruct (get_sweep _ _ _ _) as [??]. split; [|done]. by eapply map_ok_subset.
  - pose proof (sweep_subset (contexts (store w)) id (tick w)).
    destruct (get_sweep _ _ _ _) as [??]. split; [done|]. by eapply map_ok_subset.
Qed.

Lemma route_run_ok os w : store_ok (store w) -> store_ok (store (route_run w os)).
Proof.
  revert w. induction os as [|o os IH]; intros w Hw; [done|]. apply IH, route_exec_ok, Hw.
Qed.
End Runs.

(** * Refinement of a map with expiry *)

(** The abstract store keeps every accepted route for ever; a lookup ignores
    the expired ones. *)
Definition spec_get (a : gmap string TaskRoute) (id : string) (now : N) : option string :=
  match a !! id with
  | Some r => if now <? expires_at r then Some (cluster r) else None
  | None => None
  end.

(** [spec_put limit id c ttl now later a a']: a put at [now], finished by
    [later].  It may be refused only when the map is full and [id] has no live
    route. *)
Definition spec_put (limit : N) (id c : string) (ttl now later : N) (a a' : gmap string TaskRoute) : Prop :=
  if validate_id id && (now + ttl <=? INSTANT_MAX) then
    a' = <[id := mkRoute c (now + ttl)]> a \/
    (a' = a /\ limit <= N.of_nat (size a) /\ spec_get a id later = None)
  else a' = a.

Section Refinement.
Context (instant : nat -> N).
Hypothesis clock_monotone : forall i j, (i <= j)%nat -> instant i <= instant j.

(** The concrete map has lost only entries already expired. *)
Definition agrees (now : N) (m a : gmap string TaskRoute) : Prop :=
  forall id, m !! id = a !! id \/ (m !! id = None /\ exists r, a !! id = Some r /\ expires_at r <= now).

Lemma agrees_mono now now' m a : now <= now' -> agrees now m a -> agrees now' m a.
Proof.
  intros Hle H id. destruct (H id) as [?|[? (r & ? & ?)]]; [by left|]. right. split; [done|].
  exists r. split; [done|lia].
Qed.

Lemma agrees_subset now m a : agrees now m a -> m ⊆ a.
Proof.
  intros H. apply map_subseteq_spec. intros id r Hr.
  destruct (H id) as [<-|[Hn _]]; [done|congruence].
Qed.

Lemma agrees_get now m a id now' : agrees now m a -> now <= now' -> spec_get m id now' = spec_get a id now'.
Proof.
  intros H Hle. unfold spec_get. destruct (H id) as [->|[-> (r & -> & Hr)]]; [done|].
  by rewrite (proj2 (N.ltb_ge _ _)) by lia.
Qed.

Lemma agrees_live now m a : agrees now m a -> agrees now (live now m) a.
Proof.
  intros H id. destruct (live now m !! id) as [r|] eqn:El.
  - apply live_lookup in El as [Hm _]. left. destruct (H id) as [<-|[Hn _]]; congruence.
  - destruct (H id) as [Heq|[Hn Hr]]; [|by right].
    destruct (m !! id) as [r|] eqn:Em; [|by left].
    right. split; [done|]. exists r. split; [done|].
    destruct (N.lt_ge_cases now (expires_at r)) as [Hlt|]; [|done].
    assert (live now m !! id = Some r) by (by apply live_lookup). congruence.
Qed.

Lemma agrees_insert now m a id r : agrees now m a -> agrees now (<[id:=r]> m) (<[id:=r]> a).
Proof.
  intros H id'. destruct (decide (id = id')) as [->|Hne]; [left; by rewrite !lookup_insert_eq|].
  rewrite !lookup_insert_ne by done. apply H.
Qed.

Lemma agrees_delete now m a id : agrees now m a -> agrees now (delete id m) (delete id a).
Proof.
  intros H id'. destruct (decide (id = id')) as [->|Hne]; [left; by rewrite !lookup_delete_eq|].
  rewrite !lookup_delete_ne by done. apply H.
Qed.

Lemma evict_agrees m last t a :
  agrees (instant t) m a ->
  agrees (instant (maybe_evict_map instant m last t).2) (maybe_evict_map instant m last t).1.1 a /\
  (t <= (maybe_evict_map instant m last t).2)%nat.
Proof.
  intros H. unfold maybe_evict_map. case_match; cbn [fst snd]; (split; [|lia]).
  - apply (agrees_mono (instant t)); [apply clock_monotone; lia|done].
  - eapply agrees_mono; [apply (clock_monotone (S t)); lia|]. apply agrees_live.
    eapply (agrees_mono (instant t)); [apply clock_monotone; lia|done].
Qed.

Lemma put_into_refines limit m last id c ttl t a :
  agrees (instant t) m a ->
  exists a',
    spec_put limit id c ttl (instant t) (instant (put_into instant limit m last id c ttl t).2) a a' /\
    agrees (instant (put_into instant limit m last id c ttl t).2)
      (put_into instant limit m last id c ttl t).1.1 a' /\
    (t <= (put_into instant limit m last id c ttl t).2)%nat.
Proof.
  intros H. unfold put_into, spec_put. destruct (validate_id id); cbn [negb andb]; [|by exists a].
  unfold try_route. destruct (N.leb_spec (instant t + ttl) INSTANT_MAX).
  2:{ exists a. split_and!; [done| |simpl; lia].
      apply (agrees_mono (instant t)); [apply clock_monotone; simpl; lia|done]. }
  destruct (evict_agrees m last (S t) a) as [Ha Ht].
  { apply (agrees_mono (instant t)); [apply clock_monotone; lia|done]. }
  destruct (maybe_evict_map instant m last (S t)) as [[m1 l1] t1]. cbn [fst snd] in *.
  destruct (_ && _) eqn:Efull; cbn [fst snd].
  - exists a. split_and!; [|done|lia]. right. apply andb_true_iff in Efull as [Hl Hn].
    apply N.leb_le in Hl. apply negb_true_iff, bool_decide_eq_false in Hn.
    apply eq_None_not_Some in Hn.
    split_and!; [done| |].
    + pose proof (size_subset _ _ (agrees_subset _ _ _ Ha)). lia.
    + rewrite <- (agrees_get (instant t1) m1) by (done || lia). unfold spec_get. by rewrite Hn.
  - exists (<[id:=mkRoute c (instant t + ttl)]> a). split_and!; [by left|by apply agrees_insert|lia].
Qed.

Lemma sweep_refines m id t a :
  agrees (instant t) m a ->
  agrees (instant (get_sweep instant m id t).2) (get_sweep instant m id t).1 a /\
  (t <= (get_sweep instant m id t).2)%nat.
Proof.
  intros H. unfold get_sweep. destruct (m !! id) as [r|] eqn:Em; [|by split].
  destruct (N.leb_spec (expires_at r) (instant t)); cbn [fst snd]; (split; [|lia]);
    (eapply agrees_mono; [apply (clock_monotone t); lia|]); [|done].
  intros id'. destruct (decide (id = id')) as [<-|Hne]; [|rewrite lookup_delete_ne by done; apply H].
  right. split; [apply lookup_delete_eq|]. exists r. split; [|done].
  destruct (H id) as [<-|[? _]]; congruence.
Qed.

Lemma get_from_refines m id t a :
  agrees (instant t) m a ->
  (get_from instant m id t).1.1 = spec_get a id (instant t) /\
  agrees (instant (get_from instant m id t).2) (get_from instant m id t).1.2 a /\
  (t <= (get_from instant m id t).2)%nat.
Proof.
  intros H. rewrite <- (agrees_get (instant t) m) by (done || lia).
  unfold get_from, get_read, spec_get. destruct (m !! id) as [r|] eqn:Em; [|by split_and!].
  destruct (instant t <? expires_at r).
  - split_and!; [done| |cbn; lia]. eapply agrees_mono; [apply (clock_monotone t); cbn; lia|done].
  - destruct (sweep_refines m id (S t) a) as [H1 H2].
    { eapply agrees_mono; [apply (clock_monotone t); lia|done]. }
    destruct (get_sweep instant m id (S t)) as [m1 t1]. cbn [fst snd] in *. split_and!; [done..|lia].
Qed.

(** Runs of the abstract store: the pair of maps, one step per operation. *)
Inductive spec_step (t t' : nat) : route_op -> gmap string TaskRoute * gmap string TaskRoute ->
    gmap string TaskRoute * gmap string TaskRoute -> Prop :=
| sp_put id c ttl at1 at2 ac :
    spec_put MAX_TASK_ROUTES id c ttl (instant t) (instant t') at1 at2 ->
    spec_step t t' (OPut id c ttl) (at1, ac) (at2, ac)
| sp_put_context id c ttl at1 ac1 ac2 :
    spec_put MAX_CONTEXT_ROUTES id c ttl (instant t) (instant t') ac1 ac2 ->
    spec_step t t' (OPutContext id c ttl) (at1, ac1) (at1, ac2)
| sp_remove id at1 ac : spec_step t t' (ORemove id) (at1, ac) (delete id at1, ac)
| sp_get_task id a : spec_step t t' (OGetTask id) a a
| sp_get_context id a : spec_step t t' (OGetContext id) a a
| sp_sweep_task id a : spec_step t t' (OSweepTask id) a a
| sp_sweep_context id a : spec_step t t' (OSweepContext id) a a.

Inductive spec_run : World -> list route_op -> gmap string TaskRoute * gmap string TaskRoute -> Prop :=
| sr_nil t : spec_run (store_new instant t) [] (∅, ∅)
| sr_snoc w os o a a' :
    spec_run w os a -> spec_step (tick w) (tick (route_exec instant o w)) o a a' ->
    spec_run (route_exec instant o w) (os ++ [o]) a'.

Definition world_agrees (w : World) (a : gmap string TaskRoute * gmap string TaskRoute) : Prop :=
  agrees (instant (tick w)) (tasks (store w)) a.1 /\ agrees (instant (tick w)) (contexts (store w)) a.2.

Lemma route_exec_refines o w a :
  world_agrees w a ->
  exists a', spec_step (tick w) (tick (route_exec instant o w)) o a a' /\
    world_agrees (route_exec instant o w) a'.
Proof.
  intros [Ht Hc]. destruct a as [at1 ac]. cbn [fst snd] in *. unfold world_agrees.
  assert (forall t' m x, agrees (instant (tick w)) m x -> (tick w <= t')%nat ->
            agrees (instant t') m x) as Hm.
  { intros t' m x Hx Hle. eapply agrees_mono; [by apply clock_monotone|done]. }
  destruct o as [id c ttl|id c ttl|id|id|id|id|id]; cbn [route_exec].
  - unfold put. destruct (put_into_refines MAX_TASK_ROUTES (tasks (store w))
      (last_task_eviction (store w)) id c ttl (tick w) at1 Ht) as (a' & Hs & Ha & Hle).
    destruct (put_into _ _ _ _ _ _ _ _) as [[m l] t]. cbn [fst snd tick store tasks contexts] in *.
    exists (a', ac). split; [by constructor|]. split; auto.
  - unfold put_context. destruct (put_into_refines MAX_CONTEXT_ROUTES (contexts (store w))
      (last_context_eviction (store w)) id c ttl (tick w) ac Hc) as (a' & Hs & Ha & Hle).
    destruct (put_into _ _ _ _ _ _ _ _) as [[m l] t]. cbn [fst snd tick store tasks contexts] in *.
    exists (at1, a'). split; [by constructor|]. split; auto.
  - exists (delete id at1, ac). split; [constructor|]. cbn. split; [by apply agrees_delete|done].
  - unfold get_by_task_id. destruct (get_from_refines (tasks (store w)) id (tick w) at1 Ht) as (_ & H1 & H2).
    destruct (get_from _ _ _ _) as [[f m] t]. cbn [fst snd] in *.
    exists (at1, ac). split; [constructor|]. cbn. split; auto.
  - unfold get_by_context_id.
    destruct (get_from_refines (contexts (store w)) id (tick w) ac Hc) as (_ & H1 & H2).
    destruct (get_from _ _ _ _) as [[f m] t]. cbn [fst snd] in *.
    exists (at1, ac). split; [constructor|]. cbn. split; auto.
  - destruct (sweep_refines (tasks (store w)) id (tick w) at1 Ht) as (H1 & H2).
    destruct (get_sweep _ _ _ _) as [m t]. cbn [fst snd] in *.
    exists (at1, ac). split; [constructor|]. cbn. split; auto.
  - destruct (sweep_refines (contexts (store w)) id (tick w) ac Hc) as (H1 & H2).
    destruct (get_sweep _ _ _ _) as [m t]. cbn [fst snd] in *.
    exists (at1, ac). split; [constructor|]. cbn. split; auto.
Qed.

Lemma route_run_refines t os :
  exists a, spec_run (route_run instant (store_new instant t) os) os a /\
    world_agrees (route_run instant (store_new instant t) os) a.
Proof.
  induction os as [|o os IH] using rev_ind.
  { exists (∅, ∅). split; [constructor|]. split; intros id; by left. }
  destruct IH as (a & Hrun & Ha). unfold route_run in *. rewrite foldl_app. cbn [foldl].
  destruct (route_exec_refines o _ _ Ha) as (a' & Hs & Ha'). exists a'.
  split; [by eapply sr_snoc|done].
Qed.
End Refinement.

(** Store invariant: after any operations, sweeps of interrupted lookups
    included, each map holds at most its configured number of routes, every
    stored identifier passed validation and every expiry is representable. *)
Theorem route_store_invariant instant t os :
  store_ok (store (route_run instant (store_new instant t) os)).
Proof.
  apply route_run_ok. split; (split; [vm_compute; discriminate|apply map_Forall_empty]).
Qed.

(** C32. Refinement: with a monotonic clock the store answers every lookup as a
    plain map does that keeps all accepted routes and ignores the expired ones.
    Lazy removal, periodic eviction and interrupted lookups are invisible, and a
    put is refused only when the map is full and the identifier has no live
    route. *)
Theorem route_store_refines_expiring_map instant t os :
  (forall i j, (i <= j)%nat -> instant i <= instant j) ->
  exists a, spec_run instant (route_run instant (store_new instant t) os) os a /\
    forall id,
      (get_by_task_id instant (route_run instant (store_new instant t) os) id).1 =
        spec_get a.1 id (instant (tick (route_run instant (store_new instant t) os))) /\
      (get_by_context_id instant (route_run instant (store_new instant t) os) id).1 =
        spec_get a.2 id (instant (tick (route_run instant (store_new instant t) os))).
Proof.
  intros Hmono. destruct (route_run_refines instant Hmono t os) as (a & Hrun & Ht & Hc).
  exists a. split; [done|]. intros id. unfold get_by_task_id, get_by_context_id.
  destruct (get_from_refines instant Hmono _ id _ _ Ht) as (<- & _).
  destruct (get_from_refines instant Hmono _ id _ _ Hc) as (<- & _).
  split; by destruct (get_from _ _ _ _) as [[??]?].
Qed.

Lemma route_store_refines_expiring_map_witness :
  exists a, spec_run N.of_nat
      (route_run N.of_nat (store_new N.of_nat 0) [OPut "task-1" "east" 100; OGetTask "task-1"])
      [OPut "task-1" "east" 100; OGetTask "task-1"] a /\
    spec_get a.1 "task-1" 5 = Some "east"%string.
Proof.
  destruct (route_store_refines_expiring_map N.of_nat 0 [OPut "task-1" "east" 100; OGetTask "task-1"])
    as (a & Hrun & Hget); [intros; lia|].
  exists a. split; [exact Hrun|]. destruct (Hget "task-1"%string) as [H _].
  vm_compute in H. symmetry in H. exact H.
Defined.

(** ** Serving a route until it expires *)

Definition touches_task (id : string) (o : route_op) : bool :=
  match o with OPut id' _ _ | ORemove id' => bool_decide (id' = id) | _ => false end.

Lemma spec_step_untouched instant t t' o a a' id :
  spec_step instant t t' o a a' -> touches_task id o = false -> a'.1 !! id = a.1 !! id.
Proof.
  destruct 1; cbn; intros H0; try done.
  - apply bool_decide_eq_false in H0. unfold spec_put in *. case_match; [|by subst].
    destruct H as [->|[-> _]]; [by rewrite lookup_insert_ne|done].
  - apply bool_decide_eq_false in H0. by rewrite lookup_delete_ne.
Qed.

Lemma untouched_run instant (Hmono : forall i j, (i <= j)%nat -> instant i <= instant j) os w a id :
  world_agrees instant w a -> Forall (fun o => touches_task id o = false) os ->
  exists a', world_agrees instant (route_run instant w os) a' /\ a'.1 !! id = a.1 !! id.
Proof.
  revert w a. induction os as [|o os IH]; intros w a Ha Hos; [by exists a|].
  apply Forall_cons in Hos as [Ho Hos].
  destruct (route_exec_refines instant Hmono o w a Ha) as (a1 & Hs & Ha1).
  destruct (IH _ _ Ha1 Hos) as (a' & Ha' & Heq). exists a'. split; [done|].
  rewrite Heq. by eapply spec_step_untouched.
Qed.

(** A stored task route is served exactly until its expiry: with a
    monotonic clock, a valid identifier and room in the map, after a put at
    reading [t] every later lookup, whatever operations on other identifiers
    came between, returns the cluster before [t + ttl] and nothing from then
    on. *)
Theorem put_served_until_expiry instant w id c ttl os :
  (forall i j, (i <= j)%nat -> instant i <= instant j) ->
  validate_id id = true -> instant (tick w) + ttl <= INSTANT_MAX ->
  N.of_nat (size (tasks (store w))) < MAX_TASK_ROUTES ->
  Forall (fun o => touches_task id o = false) os ->
  (get_by_task_id instant (route_run instant (put instant w id c ttl) os) id).1 =
  (if instant (tick (route_run instant (put instant w id c ttl) os)) <? instant (tick w) + ttl
   then Some c else None).
Proof.
  intros Hmono Hv Hmax Hroom Hos.
  assert (world_agrees instant w (tasks (store w), contexts (store w))) as Hw by (split; intros ?; by left).
  destruct (route_exec_refines instant Hmono (OPut id c ttl) w _ Hw) as (a1 & Hs & Ha1).
  assert (a1.1 !! id = Some (mkRoute c (instant (tick w) + ttl))) as Hid.
  { inversion Hs as [? ? ? ? at2 ? Hput| | | | | |]; subst. cbn. unfold spec_put in Hput.
    rewrite Hv, (proj2 (N.leb_le _ _)) in Hput by done. cbn [andb] in Hput.
    destruct Hput as [->|(_ & Hfull & _)]; [by rewrite lookup_insert_eq|lia]. }
  destruct (untouched_run instant Hmono os _ _ id Ha1 Hos) as (a' & [Ht _] & Heq).
  cbn [route_exec] in *. unfold get_by_task_id.
  destruct (get_from_refines instant Hmono _ id _ _ Ht) as (Hget & _).
  unfold spec_get in Hget. rewrite Heq, Hid in Hget. cbn [cluster expires_at] in Hget.
  rewrite <- Hget. by destruct (get_from _ _ _ _) as [[??]?].
Qed.

Lemma put_served_until_expiry_witness :
  (get_by_task_id N.of_nat (route_run N.of_nat (put N.of_nat (store_new N.of_nat 0) "t1" "east" 6)
     [OPut "t2" "west" 50]) "t1").1 = Some "east"%string /\
  (get_by_task_id N.of_nat (route_run N.of_nat (put N.of_nat (store_new N.of_nat 0) "t1" "east" 6)
     [OPut "t2" "west" 50; OPut "t2" "west" 50]) "t1").1 = None.
Proof.
  split; rewrite put_served_until_expiry; try reflexivity; try (intros; lia); try (vm_compute; done);
    repeat (apply Forall_cons; split; [reflexivity|]); apply Forall_nil_2.
Defined.

(** * Extraction *)

(** Whatever the response, an extracted task identifier and context
    identifier are safe to store: non-empty, at most 256 bytes and free of
    control characters; and a route marked terminal only comes from a task
    object or a status update. *)
Theorem extracted_route_valid v r :
  extract_task_route v = Some r ->
  validate_id (task_id r) = true /\
  (forall c, context_id r = Some c -> validate_id c = true) /\
  (terminal r = true -> forall res, get v "result" = Some res ->
     is_Some (get res "task") \/ is_Some (get res "status") \/ is_Some (get res "statusUpdate")).
Proof.
  intros H. unfold extract_task_route in H. destruct (get v "result") as [res|] eqn:Er; [|done].
  cbn in H.
  assert (forall k o t, (tid ← (get o k ≫= as_str);
      if negb (validate_id tid) then None
      else Some (mkExtracted t tid (extract_context_id_from_object o))) = Some r ->
    validate_id (task_id r) = true /\ (forall c, context_id r = Some c -> validate_id c = true) /\
    terminal r = t) as Hx.
  { intros k o t. destruct (get o k ≫= as_str) as [tid|]; [|done]. cbn.
    destruct (validate_id tid) eqn:Hv; [|done]. cbn. intros [= <-]. cbn.
    split_and!; [done| |done]. intros c. unfold extract_context_id_from_object.
    destruct (get o "contextId" ≫= as_str) as [s|]; [|done]. cbn.
    destruct (validate_id s) eqn:Hs; [|done]. by intros [= <-]. }
  destruct (get res "task") as [o|] eqn:E1.
  { destruct (Hx _ _ _ H) as (? & ? & _). split_and!; [done..|]. intros _ res' [= <-]. rewrite E1. eauto. }
  destruct (bool_decide (is_Some (get res "id")) && bool_decide (is_Some (get res "status"))) eqn:E2.
  { apply andb_true_iff in E2 as [_ E2]. apply bool_decide_eq_true in E2.
    destruct (Hx _ _ _ H) as (? & ? & _). split_and!; [done..|]. intros _ res' [= <-]. eauto. }
  destruct (get res "statusUpdate") as [o|] eqn:E3.
  { destruct (Hx _ _ _ H) as (? & ? & _). split_and!; [done..|]. intros _ res' [= <-]. rewrite E3. eauto. }
  destruct (get res "artifactUpdate") as [o|]; [|done].
  destruct (Hx _ _ _ H) as (? & ? & Ht). split_and!; [done..|]. congruence.
Qed.

Lemma extracted_route_valid_witness :
  validate_id "t-9" = true.
Proof.
  destruct (extracted_route_valid
    (JObject [("result", JObject [("statusUpdate", JObject [("taskId", JString "t-9");
       ("status", JObject [("state", JString "completed")])])])])%string
    (mkExtracted true "t-9" None) ltac:(vm_compute; reflexivity)) as [H _]. exact H.
Defined.

(** Extraction only looks at objects and strings. *)
Lemma extract_shape v v' : same_shape v v' -> extract_task_route v = extract_task_route v'.
Proof.
  intros H.
  assert (forall o o' k, same_shape o o' -> get o k ≫= as_str = get o' k ≫= as_str) as Hstr.
  { intros o o' k Ho. destruct (get_shape o o' k Ho) as [x y Hxy|]; [|done]. by apply as_str_shape. }
  assert (forall o o', same_shape o o' ->
    extract_context_id_from_object o = extract_context_id_from_object o') as Hctx.
  { intros o o' Ho. unfold extract_context_id_from_object. by rewrite (Hstr o o' _ Ho). }
  assert (forall o o', same_shape o o' -> terminal_status o = terminal_status o') as Hterm.
  { intros o o' Ho. unfold terminal_status.
    destruct (get_shape o o' "status" Ho) as [x y Hxy|]; [|done]. cbn. by rewrite (Hstr x y _ Hxy). }
  unfold extract_task_route. destruct (get_shape v v' "result" H) as [res res' Hres|]; [|done]. cbn.
  destruct (get_shape res res' "task" Hres) as [o o' Ho|].
  { unfold extract_from_task_object. by rewrite (Hstr o o' _ Ho), (Hterm o o' Ho), (Hctx o o' Ho). }
  assert (forall k, bool_decide (is_Some (get res k)) = bool_decide (is_Some (get res' k))) as Hs.
  { intros k. by destruct (get_shape res res' k Hres) as [? ? ?|]. }
  rewrite !Hs. case_match.
  { unfold extract_from_task_object. by rewrite (Hstr res res' _ Hres), (Hterm res res' Hres), (Hctx res res' Hres). }
  destruct (get_shape res res' "statusUpdate" Hres) as [o o' Ho|].
  { unfold extract_from_status_update. by rewrite (Hstr o o' _ Ho), (Hterm o o' Ho), (Hctx o o' Ho). }
  destruct (get_shape res res' "artifactUpdate" Hres) as [o o' Ho|]; [|done].
  unfold extract_from_artifact_update. by rewrite (Hstr o o' _ Ho), (Hctx o o' Ho).
Qed.
