(* ===== verification/A2aCapture.v ===== *)
(** Response-side task-route capture of the A2A filter:
    [filters/src/agentic/a2a/mod.rs], from [on_response] to the metadata
    helpers.

    Between body callbacks the filter keeps its state as strings in the
    request's [filter_metadata].  The handlers below take that map and the
    [World] of the route store and return both; [from_slice], [from_str] and
    [json_to_string] are serde_json, and the readings of the filter context
    (method, response status, content type, cluster) are arguments. *)

From S2P Require Import Prelude Utf8 MetaCodec SseFrame A2aSse Json TaskRouting.
From Stdlib Require Import Strings.Byte Strings.Ascii.

Local Open Scope N_scope.

(** * Bracket balance *)

Record JsonBalanceState := mkBalance {
  stack : bytes;
  started : bool;
  in_string : bool;
  escaped : bool;
  invalid : bool
}.

Definition balance_default : JsonBalanceState := mkBalance [] false false false false.

Definition is_complete (s : JsonBalanceState) : bool :=
  started s && negb (invalid s) && bool_decide (stack s = []).

Definition is_done (s : JsonBalanceState) : bool := is_complete s || invalid s.

(** [Vec::pop]. *)
Fixpoint pop (l : bytes) : option (byte * bytes) :=
  match l with
  | [] => None
  | b :: l => match pop l with Some (x, l') => Some (x, b :: l') | None => Some (b, []) end
  end.

Definition BACKSLASH : byte := x5c.
Definition QUOTE : byte := x22.
Definition LBRACE : byte := x7b.
Definition RBRACE : byte := x7d.
Definition LBRACKET : byte := x5b.
Definition RBRACKET : byte := x5d.

(** One byte of [scan_json_balance]; the flag is the early [return]. *)
Definition balance_byte (s : JsonBalanceState) (b : byte) : JsonBalanceState * bool :=
  if escaped s then (mkBalance (stack s) (started s) (in_string s) false (invalid s), false)
  else if in_string s then
    if byte_eqb b BACKSLASH then
      (mkBalance (stack s) (started s) (in_string s) true (invalid s), false)
    else if byte_eqb b QUOTE then
      (mkBalance (stack s) (started s) false (escaped s) (invalid s), false)
    else (s, false)
  else if byte_eqb b QUOTE then
    (mkBalance (stack s) (started s) true (escaped s) (invalid s), false)
  else if byte_eqb b LBRACE then
    (mkBalance (stack s ++ [RBRACE]) true (in_string s) (escaped s) (invalid s), false)
  else if byte_eqb b LBRACKET then
    (mkBalance (stack s ++ [RBRACKET]) true (in_string s) (escaped s) (invalid s), false)
  else if byte_eqb b RBRACE || byte_eqb b RBRACKET then
    match pop (stack s) with
    | Some (expected, st) =>
        let s' := mkBalance st (started s) (in_string s) (escaped s) (invalid s) in
        if byte_eqb expected b then (s', is_complete s')
        else (mkBalance st (started s) (in_string s) (escaped s) true, true)
    | None => (mkBalance [] (started s) (in_string s) (escaped s) true, true)
    end
  else (s, false).

Fixpoint balance_loop (s : JsonBalanceState) (chunk : bytes) : JsonBalanceState :=
  match chunk with
  | [] => s
  | b :: rest => let '(s, stop) := balance_byte s b in if stop : bool then s else balance_loop s rest
  end.

(** [scan_json_balance]. *)
Definition scan_json_balance (s : JsonBalanceState) (chunk : bytes) : JsonBalanceState :=
  if is_done s then s else balance_loop s chunk.

(** * State in the metadata *)

Definition load_json_balance_state (m : Metadata) : JsonBalanceState :=
  mkBalance
    (match m !! "a2a.response.json_stack"%string with Some v => bytes_of_string v | None => [] end)
    (is_true (m !! "a2a.response.json_started"%string))
    (is_true (m !! "a2a.response.json_in_string"%string))
    (is_true (m !! "a2a.response.json_escaped"%string))
    (is_true (m !! "a2a.response.json_invalid"%string)).

Definition save_json_balance_state (m : Metadata) (s : JsonBalanceState) : Metadata :=
  let m := <["a2a.response.json_stack"%string :=
               match from_utf8 (stack s) with Some v => string_of_bytes v | None => "" end]> m in
  let m := <["a2a.response.json_started"%string := bool_str (started s)]> m in
  let m := <["a2a.response.json_in_string"%string := bool_str (in_string s)]> m in
  let m := <["a2a.response.json_escaped"%string := bool_str (escaped s)]> m in
  <["a2a.response.json_invalid"%string := bool_str (invalid s)]> m.

Definition load_sse_scan_state (m : Metadata) : SseScanState :=
  mkScan
    (default [] (m !! "a2a.response.sse_line_buf_hex"%string ≫= decode_hex))
    (default [] (m !! "a2a.response.sse_data_hex"%string ≫= decode_hex))
    (is_true (m !! "a2a.response.sse_has_data"%string))
    (is_true (m !! "a2a.response.sse_prev_cr"%string))
    (default 0 (m !! "a2a.response.sse_scratch_bytes"%string ≫= parse_usize))
    (skip_from_metadata_str (m !! "a2a.response.sse_skip"%string))
    (tail_from_metadata_str (m !! "a2a.response.sse_dropped_tail"%string)).

Definition save_sse_scan_state (m : Metadata) (s : SseScanState) : Metadata :=
  let m := set_hex_metadata m "a2a.response.sse_line_buf_hex" (s_line_buf s) in
  let m := set_hex_metadata m "a2a.response.sse_data_hex" (s_data_buf s) in
  let m := <["a2a.response.sse_has_data"%string := bool_str (s_has_data s)]> m in
  let m := <["a2a.response.sse_prev_cr"%string := bool_str (s_prev_cr s)]> m in
  let m := <["a2a.response.sse_scratch_bytes"%string := usize_to_string (s_scratch_bytes s)]> m in
  let m := <["a2a.response.sse_skip"%string := skip_as_str (skip s)]> m in
  <["a2a.response.sse_dropped_tail"%string := tail_as_str (tail s)]> m.

Definition capture_keys : list string :=
  ["a2a.response.capture_enabled"; "a2a.response.buffer_hex"; "a2a.response.buffer_bytes";
   "a2a.response.cluster"; "a2a.response.json_stack"; "a2a.response.json_started";
   "a2a.response.json_in_string"; "a2a.response.json_escaped"; "a2a.response.json_invalid";
   "a2a.response.tentative_json"]%string.

(** [clear_capture_metadata]. *)
Definition clear_capture_metadata (m : Metadata) : Metadata :=
  foldl (fun m k => delete k m) m capture_keys.

Definition sse_capture_keys : list string :=
  ["a2a.response.sse_capture_enabled"; "a2a.response.sse_line_buf_hex"; "a2a.response.sse_data_hex";
   "a2a.response.sse_has_data"; "a2a.response.sse_prev_cr"; "a2a.response.sse_scratch_bytes";
   "a2a.response.sse_skip"; "a2a.response.cluster"]%string.

(** [clear_sse_capture_metadata]. *)
Definition clear_sse_capture_metadata (m : Metadata) : Metadata :=
  foldl (fun m k => delete k m) m sse_capture_keys.

(** [accumulate_response_hex]: [false] when the limit was exceeded. *)
Definition accumulate_response_hex (m : Metadata) (chunk : bytes) (max_bytes : N) : Metadata * bool :=
  let existing := default 0 (m !! "a2a.response.buffer_bytes"%string ≫= parse_usize) in
  if max_bytes <? saturating_add existing (nlen chunk) then (clear_capture_metadata m, false)
  else
    let hex := default ""%string (m !! "a2a.response.buffer_hex"%string) in
    let m := <["a2a.response.buffer_hex"%string := hex +:+ encode_hex chunk]> m in
    (<["a2a.response.buffer_bytes"%string := usize_to_string (existing + nlen chunk)]> m, true).

(** * Handlers *)

Section Handlers.
Context (instant : nat -> N).
Context (from_slice : bytes -> option Json) (from_str : string -> option Json)
        (json_to_string : Json -> option string).
Context (config : TaskRoutingConfig).

(** [store_task_route]. *)
Definition store_task_route (value : Json) (c : string) (w : World) : World :=
  match extract_task_route value with
  | None => w
  | Some extracted =>
      let task_ttl := route_ttl (terminal extracted) config in
      let w :=
        if terminal extracted && (terminal_ttl_seconds config =? 0)
        then remove w (task_id extracted)
        else put instant w (task_id extracted) c task_ttl in
      match context_id extracted with
      | Some ctx_id => put_context instant w ctx_id c (from_secs (ttl_seconds config))
      | None => w
      end
  end.

(** The accumulated buffer, decoded and parsed. *)
Definition parsed_buffer (m : Metadata) : option Json :=
  (m !! "a2a.response.buffer_hex"%string ≫= decode_hex) ≫= from_slice.

(** [try_capture_from_buffer]. *)
Definition try_capture_from_buffer (m : Metadata) (w : World) : Metadata * World :=
  let w :=
    match parsed_buffer m, m !! "a2a.response.cluster"%string with
    | Some value, Some c => store_task_route value c w
    | _, _ => w
    end in
  (clear_capture_metadata m, w).

(** [parse_to_tentative]. *)
Definition parse_to_tentative (m : Metadata) : Metadata :=
  match parsed_buffer m with
  | Some value =>
      match json_to_string value with
      | Some json_str => <["a2a.response.tentative_json"%string := json_str]> m
      | None => clear_capture_metadata m
      end
  | None => clear_capture_metadata m
  end.

(** [commit_tentative_capture]. *)
Definition commit_tentative_capture (m : Metadata) (w : World) : World :=
  match m !! "a2a.response.tentative_json"%string with
  | None => w
  | Some json_str =>
      match from_str json_str with
      | None => w
      | Some value =>
          match m !! "a2a.response.cluster"%string with
          | None => w
          | Some c => store_task_route value c w
          end
      end
  end.

Definition is_json_whitespace (b : byte) : bool :=
  byte_eqb b SPACE || byte_eqb b x09 || byte_eqb b LF || byte_eqb b CR.

Definition has_content (body : option bytes) : bool :=
  match body with Some b => existsb (fun b => negb (is_json_whitespace b)) b | None => false end.

(** [handle_pending_tentative]: the flag tells the caller to return. *)
Definition handle_pending_tentative (m : Metadata) (w : World) (body : option bytes) (eos : bool)
    : Metadata * World * bool :=
  match m !! "a2a.response.tentative_json"%string with
  | None => (m, w, false)
  | Some _ =>
      if has_content body then (clear_capture_metadata m, w, true)
      else if eos then (clear_capture_metadata m, commit_tentative_capture m w, true)
      else (m, w, true)
  end.

(** [handle_non_streaming_capture]. *)
Definition handle_non_streaming_capture (m : Metadata) (w : World) (body : option bytes) (eos : bool)
    : Metadata * World :=
  let '(m, w, handled) := handle_pending_tentative m w body eos in
  if handled : bool then (m, w)
  else
    let '(m, ok) :=
      match body with
      | Some chunk => accumulate_response_hex m chunk (max_response_body_bytes config)
      | None => (m, true)
      end in
    if negb ok then (m, w)
    else
      let balance := load_json_balance_state m in
      let balance := match body with Some chunk => scan_json_balance balance chunk | None => balance end in
      let m := save_json_balance_state m balance in
      if invalid balance then (clear_capture_metadata m, w)
      else if is_complete balance && negb eos then (parse_to_tentative m, w)
      else if is_complete balance || eos then try_capture_from_buffer m w
      else (m, w).

(** [try_extract_task_from_sse_payload]. *)
Definition try_extract_task_from_sse_payload (data : bytes) (m : Metadata) (w : World) : World :=
  match from_slice data with
  | None => w
  | Some value =>
      match m !! "a2a.response.cluster"%string with
      | None => w
      | Some c => store_task_route value c w
      end
  end.

Definition extract_all (ps : list bytes) (m : Metadata) (w : World) : World :=
  foldl (fun w p => try_extract_task_from_sse_payload p m w) w ps.

(** [process_sse_response_chunk]. *)
Definition process_sse_response_chunk (m : Metadata) (w : World) (chunk : bytes) : Metadata * World :=
  let '(s, r) := scan_sse_chunk (load_sse_scan_state m) chunk (max_response_body_bytes config) in
  (save_sse_scan_state m s, extract_all (payloads r) m w).

(** [flush_pending_sse_payloads]. *)
Definition flush_pending_sse_payloads (m : Metadata) (w : World) : World :=
  extract_all (flush_sse_state (load_sse_scan_state m) []).2 m w.

(** [on_response], for a filter with a route store: [method] is the request's
    [a2a.method], [is_success] and [is_sse] describe the response header, and
    [cluster_name] the selected cluster. *)
Definition on_response (m : Metadata) (method : option string) (is_success is_sse : bool)
    (cluster_name : option string) : Metadata :=
  let is_send_message := bool_decide (method = Some "SendMessage"%string) in
  let is_sse_capable :=
    bool_decide (method = Some "SendStreamingMessage"%string) ||
    bool_decide (method = Some "SubscribeToTask"%string) in
  if negb is_send_message && negb is_sse_capable then m
  else if negb is_success then m
  else if is_sse_capable && is_sse then
    match cluster_name with
    | Some c =>
        <["a2a.response.cluster"%string := c]>
          (<["a2a.response.sse_capture_enabled"%string := "true"%string]> m)
    | None => m
    end
  else if is_sse then <["a2a.response.is_sse"%string := "true"%string]> m
  else
    match cluster_name with
    | Some c =>
        <["a2a.response.capture_enabled"%string := "true"%string]>
          (<["a2a.response.cluster"%string := c]> m)
    | None => m
    end.

(** [on_response_body]; [get_metadata] is the context's accessor. *)
Definition on_response_body (get_metadata : Metadata -> string -> option string)
    (m : Metadata) (w : World) (body : option bytes) (eos : bool) : Metadata * World :=
  if is_true (get_metadata m "a2a.response.capture_enabled"%string) then
    handle_non_streaming_capture m w body eos
  else if is_true (get_metadata m "a2a.response.sse_capture_enabled"%string) then
    let '(m, w) :=
      match body with Some chunk => process_sse_response_chunk m w chunk | None => (m, w) end in
    if eos then (clear_sse_capture_metadata m, flush_pending_sse_payloads m w) else (m, w)
  else (m, w).

(** The body callbacks of one response: the chunks in order, the last call
    with [end_of_stream]. *)
Fixpoint response_body (get_metadata : Metadata -> string -> option string)
    (m : Metadata) (w : World) (calls : list (option bytes * bool)) : Metadata * World :=
  match calls with
  | [] => (m, w)
  | (body, eos) :: calls =>
      let '(m, w) := on_response_body get_metadata m w body eos in
      response_body get_metadata m w calls
  end.
End Handlers.
