(* ===== verification/A2aCaptureProps.v ===== *)
(** Properties of the A2A route capture ([A2aCapture]): the hexadecimal and
    metadata round trips, the bracket scanner against the grammar of balanced
    words, persisted SSE scanning, and when a response stores a route. *)

From S2P Require Import Prelude Utf8 MetaCodec SseFrame A2aSse A2aSseProps Json TaskRouting TaskRoutingProps A2aCapture.
From Stdlib Require Import Strings.Byte Strings.Ascii.

Local Open Scope N_scope.

(** * Metadata round trips *)

Lemma load_save_scan m s :
  s_scratch_bytes s <= u64_max -> load_sse_scan_state (save_sse_scan_state m s) = s.
Proof.
  intros Hn. unfold load_sse_scan_state, save_sse_scan_state. meta.
  rewrite (set_hex_ne _ "a2a.response.sse_data_hex" "a2a.response.sse_line_buf_hex"), !set_hex_eq by discriminate.
  rewrite !hex_slot, !is_true_bool, skip_roundtrip, tail_roundtrip. cbn [mbind option_bind].
  rewrite parse_usize_to_string by done. by destruct s.
Qed.

Lemma save_scan_cluster m s :
  save_sse_scan_state m s !! "a2a.response.cluster"%string = m !! "a2a.response.cluster"%string.
Proof. unfold save_sse_scan_state. meta. by rewrite !set_hex_ne. Qed.

(** Closing brackets only: what the scanner pushes on its stack. *)
Definition closers (l : bytes) : Prop := Forall (fun b => b = RBRACE \/ b = RBRACKET) l.

Lemma closers_utf8 l : closers l -> from_utf8 l = Some l.
Proof.
  intros H. unfold from_utf8. enough (is_utf8 l = true) as -> by done.
  induction H as [|b l [->| ->] _ IH]; [done|exact IH..].
Qed.

Lemma load_save_balance m s :
  closers (stack s) -> load_json_balance_state (save_json_balance_state m s) = s.
Proof.
  intros H. unfold load_json_balance_state, save_json_balance_state. meta.
  rewrite closers_utf8, bytes_string_roundtrip, !is_true_bool by done. by destruct s.
Qed.

(** * The bracket scanner *)

Definition is_closer (b : byte) : bool := byte_eqb b RBRACE || byte_eqb b RBRACKET.
Definition is_opener (b : byte) : bool := byte_eqb b LBRACE || byte_eqb b LBRACKET.
Definition closer_of (b : byte) : byte := if byte_eqb b LBRACE then RBRACE else RBRACKET.

(** The brackets of a text outside its string literals, read from inside a
    literal or after a backslash according to the flags. *)
Fixpoint brackets (in_str esc : bool) (l : bytes) : bytes :=
  match l with
  | [] => []
  | b :: l =>
      if esc then brackets in_str false l
      else if in_str then
        if byte_eqb b BACKSLASH then brackets true true l
        else brackets (negb (byte_eqb b QUOTE)) false l
      else if byte_eqb b QUOTE then brackets true false l
      else if is_opener b || is_closer b then b :: brackets false false l
      else brackets false false l
  end.

(** Balanced, type-matched bracket words. *)
Inductive balanced : bytes -> Prop :=
| bal_nil : balanced []
| bal_group o w v : is_opener o = true -> balanced w -> balanced v ->
    balanced (o :: w ++ closer_of o :: v).

(** A single group: one opener, a balanced word, the matching closer. *)
Definition group (p : bytes) : Prop :=
  exists o w, is_opener o = true /\ balanced w /\ p = o :: w ++ [closer_of o].

(** [closes st p]: [p] closes the open brackets [st] (innermost first), the
    last of them at its last byte. *)
Inductive closes : bytes -> bytes -> Prop :=
| cl_one c w : is_closer c = true -> balanced w -> closes [c] (w ++ [c])
| cl_more c d st w v : is_closer c = true -> balanced w -> closes (d :: st) v ->
    closes (c :: d :: st) (w ++ c :: v).

Lemma opener_not_closer b : is_opener b = true -> is_closer b = false.
Proof.
  unfold is_opener, is_closer. intros [H|H]%orb_true_iff; apply byte_eqb_eq in H as ->; done.
Qed.

Lemma closer_of_closer o : is_closer (closer_of o) = true.
Proof. unfold closer_of. by destruct (byte_eqb o LBRACE). Qed.

Lemma balanced_app w v : balanced w -> balanced v -> balanced (w ++ v).
Proof.
  induction 1 as [|o w1 w2 Ho Hw1 _ Hw2 IH2]; [done|]. intros Hv.
  change ((o :: w1 ++ closer_of o :: w2) ++ v) with (o :: (w1 ++ closer_of o :: w2) ++ v).
  rewrite <- app_assoc. apply bal_group; auto.
Qed.

(** A balanced word followed by a closer either is empty or begins with a group. *)
Lemma balanced_split w c r o p :
  balanced w -> is_closer c = true -> w ++ c :: r = o :: p ->
  (w = [] /\ o = c /\ p = r) \/
  (is_opener o = true /\
   exists w1 v1, balanced w1 /\ balanced v1 /\ p = w1 ++ closer_of o :: v1 ++ c :: r).
Proof.
  intros Hw Hc Heq. destruct Hw as [|o' w1 v1 Ho Hw1 Hv1]; simplify_eq/=; [by left|].
  right. split; [done|]. exists w1, v1. split_and!; [done..|]. by rewrite <- app_assoc.
Qed.

Lemma closes_prepend st w p : balanced w -> closes st p -> closes st (w ++ p).
Proof.
  intros Hw. destruct 1; rewrite app_assoc; constructor; auto using balanced_app.
Qed.

Lemma closes_closer c st p : closes (c :: st) p -> is_closer c = true.
Proof. by inversion 1. Qed.

Lemma closes_open o st p :
  is_opener o = true -> st <> [] -> closes st (o :: p) <-> closes (closer_of o :: st) p.
Proof.
  intros Ho Hst. assert (forall c, is_closer c = true -> o <> c) as Hoc.
  { intros c Hc ->. by rewrite opener_not_closer in Hc. }
  split; intros H.
  - inversion H as [c w Hc Hw Heq1 Heq2|c d st' w v Hc Hw Hv Heq1 Heq2]; subst.
    + destruct (balanced_split _ _ _ _ _ Hw Hc Heq2) as [(_ & -> & _)|(_ & w1 & v1 & Hw1 & Hv1 & ->)].
      { by destruct (Hoc c). }
      apply cl_more; [apply closer_of_closer|done|]. by apply cl_one.
    + destruct (balanced_split _ _ _ _ _ Hw Hc Heq2) as [(_ & -> & _)|(_ & w1 & v1 & Hw1 & Hv1 & ->)].
      { by destruct (Hoc c). }
      apply cl_more; [apply closer_of_closer|done|]. by apply cl_more.
  - inversion H as [c w Hc Hw Heq1 Heq2|c d st' w v Hc Hw Hv Heq1 Heq2]; subst; [done|].
    replace (o :: w ++ closer_of o :: v) with ((o :: w ++ closer_of o :: []) ++ v)
      by (cbn; by rewrite <- app_assoc).
    apply closes_prepend; [|done]. apply bal_group; [done..|constructor].
Qed.

Lemma closes_close b st p :
  is_closer b = true ->
  closes st (b :: p) <->
  (st = [b] /\ p = []) \/ exists d st', st = b :: d :: st' /\ closes (d :: st') p.
Proof.
  intros Hb. assert (is_opener b = true -> False) as Hno.
  { intros Ho. by rewrite opener_not_closer in Hb. }
  split; intros H.
  - inversion H as [c w Hc Hw Heq1 Heq2|c d st' w v Hc Hw Hv Heq1 Heq2]; subst.
    + destruct (balanced_split _ _ _ _ _ Hw Hc Heq2) as [(_ & -> & ->)|(? & _)]; [|done]. by left.
    + destruct (balanced_split _ _ _ _ _ Hw Hc Heq2) as [(_ & -> & ->)|(? & _)]; [|done]. right. eauto.
  - destruct H as [[-> ->]|(d & st' & -> & H)].
    + apply (cl_one b []); [done|constructor].
    + apply (cl_more b d st' []); [done|constructor|done].
Qed.

Lemma group_open o p : is_opener o = true -> group (o :: p) <-> closes [closer_of o] p.
Proof.
  intros Ho. split.
  - intros (o' & w & _ & Hw & [= <- ->]). apply cl_one; [apply closer_of_closer|done].
  - inversion 1 as [c w Hc Hw Heq1 Heq2|]; subst. by exists o, w.
Qed.

(** What the scanner still waits for. *)
Definition awaits (s : JsonBalanceState) (p : bytes) : Prop :=
  if started s then closes (reverse (stack s)) p else group p.

(** Scanner states before completion. *)
Definition scanning (s : JsonBalanceState) : Prop :=
  invalid s = false /\ (started s = true <-> stack s <> []) /\ closers (stack s).

Lemma pop_snoc l x : pop (l ++ [x]) = Some (x, l).
Proof. induction l as [|b l IH]; [done|]. cbn. by rewrite IH. Qed.

Lemma awaits_nil s : ~ awaits s [].
Proof.
  unfold awaits. destruct (started s); [|by intros (o & w & _ & _ & ?)].
  intros H. by inversion H; destruct w.
Qed.

Lemma scanning_not_done s : scanning s -> is_done s = false.
Proof.
  intros (Hi & Hs & _). unfold is_done, is_complete. rewrite Hi. cbn. rewrite andb_true_r, orb_false_r.
  destruct (started s); [|done]. cbn. apply bool_decide_eq_false. by apply Hs.
Qed.

(** One byte: an opener or closer outside strings moves along the bracket word,
    any other byte leaves it alone. *)
Lemma balance_byte_spec s b l :
  scanning s ->
  match balance_byte s b with
  | (s', false) =>
      scanning s' /\
      ((brackets (in_string s) (escaped s) (b :: l) = brackets (in_string s') (escaped s') l /\
        stack s' = stack s /\ started s' = started s) \/
       (brackets (in_string s) (escaped s) (b :: l) = b :: brackets (in_string s') (escaped s') l /\
        forall p, awaits s (b :: p) <-> awaits s' p))
  | (s', true) =>
      exists r, brackets (in_string s) (escaped s) (b :: l) = b :: r /\ is_done s' = true /\
        forall p, awaits s (b :: p) <-> (is_complete s' = true /\ p = [])
  end.
Proof.
  intros (Hi & Hs & Hcl). unfold balance_byte. cbn [brackets].
  destruct (escaped s) eqn:Ee; [split; [by split_and!|by left]|].
  destruct (in_string s) eqn:Eq.
  { destruct (byte_eqb b BACKSLASH); [split; [by split_and!|by left]|].
    destruct (byte_eqb b QUOTE); cbn [negb]; [split; [by split_and!|by left]|].
    split; [by split_and!|]. left. by rewrite Ee, Eq. }
  destruct (byte_eqb b QUOTE); [split; [by split_and!|by left]|].
  assert (forall c, closer_of b = c -> is_opener b = true -> closers (stack s ++ [c]) ->
    let s' := mkBalance (stack s ++ [c]) true false false (invalid s) in
    scanning s' /\ (b :: brackets false false l = b :: brackets (in_string s') (escaped s') l /\
      forall p, awaits s (b :: p) <-> awaits s' p)) as Hopen.
  { intros c <- Ho Hc s'. split; [split_and!; [done| |done]; cbn; split; [by destruct (stack s)|done]|].
    split; [done|]. intros p. unfold awaits. cbn [started stack s']. rewrite reverse_snoc.
    destruct (started s) eqn:Es.
    - apply closes_open; [done|]. destruct Hs as [Hs _]. intros Hr. apply (Hs eq_refl).
      by rewrite <- (reverse_involutive (stack s)), Hr.
    - destruct (stack s); [|by destruct Hs as [_ Hs]; specialize (Hs ltac:(done))]. by apply group_open. }
  destruct (byte_eqb b LBRACE) eqn:E1.
  { destruct (Hopen RBRACE) as [H1 H2]; [unfold closer_of; by rewrite E1|unfold is_opener; by rewrite E1| |].
    { apply Forall_app. split; [done|]. apply Forall_singleton. by left. }
    unfold is_opener. rewrite E1. cbn [orb]. split; [done|by right]. }
  destruct (byte_eqb b LBRACKET) eqn:E2.
  { destruct (Hopen RBRACKET) as [H1 H2];
      [unfold closer_of; by rewrite E1|unfold is_opener; by rewrite E1, E2| |].
    { apply Forall_app. split; [done|]. apply Forall_singleton. by right. }
    unfold is_opener. rewrite E1, E2. cbn [orb]. split; [done|by right]. }
  unfold is_opener, is_closer. rewrite E1, E2. cbn [orb].
  destruct (byte_eqb b RBRACE || byte_eqb b RBRACKET) eqn:E3.
  2:{ split; [by split_and!|]. left. by rewrite Ee, Eq. }
  assert (is_closer b = true) as Hb by exact E3.
  assert (started s = false -> forall p, ~ awaits s (b :: p)) as Hun.
  { unfold awaits. intros -> p (o & w & Ho & _ & [= -> _]). by rewrite opener_not_closer in Hb. }
  destruct (stack s) as [|x st _] eqn:Estk using rev_ind.
  { cbn [pop]. exists (brackets false false l). split_and!; [done|apply orb_true_r|].
    intros p. split; [|intros [H _]; by unfold is_complete in H; cbn in H; rewrite andb_false_r in H].
    intros H. destruct (started s) eqn:Es; [by destruct Hs as [Hs _]; destruct (Hs eq_refl)|].
    by destruct (Hun eq_refl p). }
  rewrite pop_snoc. apply Forall_app in Hcl as [Hst Hx].
  assert (started s = true) as Es by (apply Hs; by destruct st). rewrite Es.
  assert (forall p, awaits s (b :: p) <-> (x = b /\ st = [] /\ p = []) \/
    (x = b /\ st <> [] /\ closes (reverse st) p)) as Haw.
  { intros p. unfold awaits. rewrite Es, Estk, reverse_snoc, closes_close by done. split.
    - intros [[[= -> Hr] ->]|(d & st' & [= -> Hr] & Hc)].
      + left. split_and!; [done| |done]. by rewrite <- (reverse_involutive st), Hr.
      + right. rewrite Hr. split_and!; [done| |done]. intros ->. done.
    - intros [(-> & -> & ->)|(-> & Hne & Hc)]; [by left|]. right.
      destruct (reverse st) as [|d st'] eqn:Hr; [|eauto].
      destruct Hne. by rewrite <- (reverse_involutive st), Hr. }
  destruct (byte_eqb x b) eqn:Ex.
  - apply byte_eqb_eq in Ex as ->. unfold is_complete at 1. cbn [started invalid stack]. rewrite Hi.
    cbn [negb andb]. case_bool_decide as Hnil; cbn [andb].
    + exists (brackets false false l). unfold is_done, is_complete. cbn. rewrite ?Hi, Hnil.
      split_and!; [done..|]. intros p. rewrite Haw. split; [by intros [(_ & _ & ->)|(_ & ? & _)]|].
      intros [_ ->]. by left.
    + split; [split_and!; [done|by cbn|done]|]. right. cbn [in_string escaped]. split; [done|].
      intros p. rewrite Haw. unfold awaits. cbn [started stack].
      split; [by intros [(_ & ? & _)|(_ & _ & ?)]|]. intros Hc. by right.
  - exists (brackets false false l). apply byte_eqb_neq in Ex.
    split_and!; [done|apply orb_true_r|]. intros p. rewrite Haw. unfold is_complete. cbn.
    split; [by intros [[? _]|[? _]]|]. by intros [? _].
Qed.

Lemma balance_loop_spec l s :
  scanning s ->
  is_complete (balance_loop s l) = true <->
  exists p q, brackets (in_string s) (escaped s) l = p ++ q /\ awaits s p.
Proof.
  revert s. induction l as [|b l IH]; intros s Hs.
  { cbn. pose proof (scanning_not_done _ Hs) as Hd. unfold is_done in Hd.
    apply orb_false_iff in Hd as [-> _]. split; [done|]. intros (p & q & Hpq & Hp).
    symmetry in Hpq. apply app_eq_nil in Hpq as [-> _]. by destruct (awaits_nil s). }
  cbn [balance_loop]. pose proof (balance_byte_spec s b l Hs) as Hb.
  destruct (balance_byte s b) as [s' [|]].
  - destruct Hb as (r & -> & Hd & Haw). split.
    + intros Hc. exists [b], r. split; [done|]. by apply Haw.
    + intros (p & q & Hpq & Hp). destruct p as [|x p]; [by destruct (awaits_nil s)|].
      simplify_eq/=. by apply Haw in Hp as [? _].
  - destruct Hb as (Hs' & [(-> & H1 & H2)|(-> & Haw)]).
    + rewrite IH by done. unfold awaits. by rewrite H1, H2.
    + rewrite IH by done. split; intros (p & q & Hpq & Hp).
      * exists (b :: p), q. rewrite Hpq. split; [done|]. by apply Haw.
      * destruct p as [|x p]; [by destruct (awaits_nil s)|]. simplify_eq/=.
        exists p, q. split; [done|]. by apply Haw.
Qed.

Lemma balance_loop_app a b s : scanning s -> balance_loop s (a ++ b) =
  (if is_done (balance_loop s a) then balance_loop s a else balance_loop (balance_loop s a) b) /\
  (is_done (balance_loop s a) = false -> scanning (balance_loop s a)).
Proof.
  revert s. induction a as [|x a IH]; intros s Hs.
  { cbn. by rewrite scanning_not_done. }
  cbn [app balance_loop]. pose proof (balance_byte_spec s x a Hs) as Hb.
  destruct (balance_byte s x) as [s' [|]].
  - destruct Hb as (r & _ & Hd & _). by rewrite Hd.
  - destruct Hb as (Hs' & _). by apply IH.
Qed.

Lemma default_scanning : scanning balance_default.
Proof. unfold scanning, closers. cbn. split_and!; [done| |constructor]. by split. Qed.

Lemma scan_balance_app a b :
  scan_json_balance (scan_json_balance balance_default a) b = scan_json_balance balance_default (a ++ b).
Proof.
  unfold scan_json_balance. rewrite (scanning_not_done _ default_scanning).
  destruct (balance_loop_app a b _ default_scanning) as [-> _].
  by destruct (is_done (balance_loop balance_default a)).
Qed.

(** The stack of a reachable state holds only closing brackets, also when the
    scan has stopped. *)
Lemma pop_closers l x l' : pop l = Some (x, l') -> closers l -> closers l'.
Proof.
  destruct l as [|y l _] using rev_ind; [done|]. rewrite pop_snoc. intros [= -> ->].
  unfold closers. by intros [? _]%Forall_app.
Qed.

Lemma balance_byte_closers s b : closers (stack s) -> closers (stack (balance_byte s b).1).
Proof.
  intros H. unfold balance_byte. repeat case_match; simplify_eq/=; try done.
  - apply Forall_app. split; [done|]. apply Forall_singleton. by left.
  - apply Forall_app. split; [done|]. apply Forall_singleton. by right.
  - by eapply pop_closers.
  - by eapply pop_closers.
  - constructor.
Qed.

Lemma scan_balance_closers s l : closers (stack s) -> closers (stack (scan_json_balance s l)).
Proof.
  unfold scan_json_balance. destruct (is_done s); [done|]. revert s.
  induction l as [|b l IH]; intros s H; [done|]. cbn [balance_loop].
  pose proof (balance_byte_closers s b H). destruct (balance_byte s b) as [s' [|]]; auto.
Qed.

(** * Properties of the pieces *)

(** The hexadecimal buffer is lossless: decoding what successive chunks
    appended gives back their bytes, whatever they are. *)
Theorem hex_buffer_roundtrip cs :
  decode_hex (foldl (fun hex c => hex +:+ encode_hex c) ""%string cs) = Some (concat cs).
Proof.
  assert (forall acc, foldl (fun hex c => hex +:+ encode_hex c) (encode_hex acc) cs = encode_hex (acc ++ concat cs)) as H.
  { induction cs as [|c cs IH]; intros acc; cbn [foldl concat]; [by rewrite app_nil_r|].
    rewrite <- encode_hex_app, IH. by rewrite app_assoc. }
  change ""%string with (encode_hex []). rewrite H. apply decode_encode.
Qed.

(** The bracket scanner recognises exactly the texts whose brackets,
    string literals and escapes set aside, begin with one complete and
    type-matched group; how the text is cut into chunks does not matter. *)
Theorem json_balance_complete_iff cs :
  is_complete (foldl scan_json_balance balance_default cs) = true <->
  exists p q, brackets false false (concat cs) = p ++ q /\ group p.
Proof.
  assert (foldl scan_json_balance balance_default cs = scan_json_balance balance_default (concat cs)) as ->.
  { enough (forall a, foldl scan_json_balance (scan_json_balance balance_default a) cs =
      scan_json_balance balance_default (a ++ concat cs)) as H by apply (H []).
    induction cs as [|c cs IH]; intros a; cbn [foldl concat]; [by rewrite app_nil_r|].
    by rewrite scan_balance_app, IH, app_assoc. }
  unfold scan_json_balance. rewrite (scanning_not_done _ default_scanning).
  apply (balance_loop_spec _ _ default_scanning).
Qed.

(** ** SSE capture across callbacks *)

Section SsePersist.
Context (instant : nat -> N) (from_slice : bytes -> option Json) (config : TaskRoutingConfig).

(** The SSE callbacks for the chunks [cs], state going through the metadata. *)
Definition sse_callbacks (m : Metadata) (w : World) (cs : list bytes) : Metadata * World :=
  foldl (fun mw c => process_sse_response_chunk instant from_slice config mw.1 mw.2 c) (m, w) cs.

Lemma extract_all_cluster ps m m' w :
  m !! "a2a.response.cluster"%string = m' !! "a2a.response.cluster"%string ->
  extract_all instant from_slice config ps m w = extract_all instant from_slice config ps m' w.
Proof.
  intros H. unfold extract_all. revert w. induction ps as [|p ps IH]; intros w; [done|].
  cbn [foldl]. rewrite IH. f_equal. unfold try_extract_task_from_sse_payload. by rewrite H.
Qed.

Lemma sse_callbacks_scan m w cs :
  max_response_body_bytes config <= u64_max ->
  scan_inv (max_response_body_bytes config) (load_sse_scan_state m) ->
  load_sse_scan_state (sse_callbacks m w cs).1 =
    (scan_chunks (load_sse_scan_state m) cs (max_response_body_bytes config)).1 /\
  (sse_callbacks m w cs).2 = extract_all instant from_slice config
    (payloads (scan_chunks (load_sse_scan_state m) cs (max_response_body_bytes config)).2) m w /\
  (sse_callbacks m w cs).1 !! "a2a.response.cluster"%string = m !! "a2a.response.cluster"%string.
Proof.
  intros Hmax. revert m w. induction cs as [|c cs IH]; intros m w Hi; [done|].
  cbn [sse_callbacks foldl scan_chunks fst snd]. unfold sse_callbacks. cbn [foldl fst snd].
  unfold process_sse_response_chunk at 2 4 6.
  destruct (inv_reads _ _ Hi) as (mo & acc & Hr).
  destruct (scan_chunk_read (max_response_body_bytes config) c _ _ _ Hi Hr) as [_ Hi1].
  destruct (scan_sse_chunk (load_sse_scan_state m) c (max_response_body_bytes config)) as [s1 r1].
  cbn [fst] in Hi1.
  assert (load_sse_scan_state (save_sse_scan_state m s1) = s1) as Hload.
  { apply load_save_scan. destruct Hi1 as (Hk & -> & _). lia. }
  specialize (IH (save_sse_scan_state m s1) (extract_all instant from_slice config (payloads r1) m w)).
  rewrite Hload, save_scan_cluster in IH. destruct (IH Hi1) as (H1 & H2 & H3).
  unfold sse_callbacks in H1, H2, H3. rewrite H1, H2, H3.
  destruct (scan_chunks s1 cs (max_response_body_bytes config)) as [s2 r2]. cbn [fst snd payloads].
  split_and!; [done| |done]. rewrite (extract_all_cluster _ _ m) by apply save_scan_cluster.
  unfold extract_all. by rewrite foldl_app.
Qed.
End SsePersist.

Lemma foldl_delete_in (ks : list string) (m : Metadata) k :
  k ∈ ks -> foldl (fun m k => delete k m) m ks !! k = None.
Proof.
  revert m. induction ks as [|x ks IH]; intros m Hk; [by apply not_elem_of_nil in Hk|]. cbn [foldl].
  destruct (decide (k ∈ ks)) as [Hin|Hin]; [by apply IH|].
  apply elem_of_cons in Hk as [->|]; [|done]. clear IH.
  assert (delete x m !! x = None) as Hx by apply lookup_delete_eq. revert Hx.
  generalize (delete x m). induction ks as [|y ks IH]; intros m' Hx; [done|]. cbn [foldl].
  apply IH; [set_solver|]. rewrite lookup_delete_ne by set_solver. done.
Qed.

Lemma foldl_delete_out (ks : list string) (m : Metadata) k :
  k ∉ ks -> foldl (fun m k => delete k m) m ks !! k = m !! k.
Proof.
  revert m. induction ks as [|x ks IH]; intros m Hk; [done|]. cbn [foldl].
  rewrite IH by set_solver. apply lookup_delete_ne. set_solver.
Qed.

Definition cleared (m : Metadata) : Prop := Forall (fun k => m !! k = None) capture_keys.

Lemma clear_cleared m : cleared (clear_capture_metadata m).
Proof. apply Forall_forall. intros k Hk. by apply foldl_delete_in. Qed.

(** The end-of-stream cleanup of an SSE capture leaves one scanner key behind. *)
Lemma sse_clear_leaves_tail m s :
  clear_sse_capture_metadata (save_sse_scan_state m s) !! "a2a.response.sse_dropped_tail"%string
  = Some (tail_as_str (tail s)).
Proof.
  unfold clear_sse_capture_metadata. rewrite foldl_delete_out.
  - unfold save_sse_scan_state. by meta.
  - unfold sse_capture_keys. rewrite !not_elem_of_cons. split_and!; try discriminate. apply not_elem_of_nil.
Qed.

Section SseResponse.
Context (instant : nat -> N) (from_slice : bytes -> option Json) (from_str : string -> option Json)
        (json_to_string : Json -> option string) (config : TaskRoutingConfig)
        (get_metadata : Metadata -> string -> option string).
Hypothesis get_metadata_spec : forall m k, get_metadata m k = m !! k.

Lemma save_scan_other m s k :
  k ∈ ["a2a.response.capture_enabled"; "a2a.response.sse_capture_enabled"]%string ->
  save_sse_scan_state m s !! k = m !! k.
Proof.
  intros [->|[->|[]%not_elem_of_nil]%elem_of_cons]%elem_of_cons;
    unfold save_sse_scan_state; meta; by rewrite !set_hex_ne.
Qed.

Lemma sse_callbacks_other m w cs k :
  k ∈ ["a2a.response.capture_enabled"; "a2a.response.sse_capture_enabled"]%string ->
  (sse_callbacks instant from_slice config m w cs).1 !! k = m !! k.
Proof.
  intros Hk. unfold sse_callbacks. revert m w. induction cs as [|c cs IH]; intros m w; [done|].
  cbn [foldl fst snd]. unfold process_sse_response_chunk at 2.
  destruct (scan_sse_chunk _ _ _) as [s r]. rewrite IH. by apply save_scan_other.
Qed.

Lemma sse_calls m w bodies rest :
  m !! "a2a.response.capture_enabled"%string = None ->
  m !! "a2a.response.sse_capture_enabled"%string = Some "true"%string ->
  response_body instant from_slice from_str json_to_string config get_metadata m w
    (((fun b => (b, false)) <$> bodies) ++ rest) =
  response_body instant from_slice from_str json_to_string config get_metadata
    (sse_callbacks instant from_slice config m w (omap id bodies)).1
    (sse_callbacks instant from_slice config m w (omap id bodies)).2 rest.
Proof.
  unfold sse_callbacks. revert m w. induction bodies as [|[c|] bodies IH]; intros m w H1 H2; [done|..];
    cbn [fmap list_fmap omap list_omap id app response_body foldl fst snd]; unfold on_response_body;
    rewrite !get_metadata_spec, H1, H2; change (is_true None) with false; change (is_true (Some "true"%string)) with true; cbn iota.
  - destruct (process_sse_response_chunk instant from_slice config m w c) as [m1 w1] eqn:E.
    unfold process_sse_response_chunk in E. destruct (scan_sse_chunk _ _ _) as [s r]. injection E as <- <-.
    apply IH; rewrite save_scan_other; try done; set_solver.
  - by apply IH.
Qed.

(** The callback that ends the stream, with or without a last chunk. *)
Lemma sse_last_call m w last :
  m !! "a2a.response.capture_enabled"%string = None ->
  m !! "a2a.response.sse_capture_enabled"%string = Some "true"%string ->
  (response_body instant from_slice from_str json_to_string config get_metadata m w [(last, true)]).2 =
  flush_pending_sse_payloads instant from_slice config
    (sse_callbacks instant from_slice config m w (option_list last)).1
    (sse_callbacks instant from_slice config m w (option_list last)).2.
Proof.
  intros H1 H2. cbn [response_body]. unfold on_response_body. rewrite !get_metadata_spec, H1, H2.
  change (is_true None) with false. change (is_true (Some "true"%string)) with true. cbn iota.
  unfold sse_callbacks. destruct last as [c|]; simpl; [|done].
  by destruct (process_sse_response_chunk instant from_slice config m w c).
Qed.

Lemma sse_callbacks_app m w cs cs' :
  sse_callbacks instant from_slice config m w (cs ++ cs') =
  sse_callbacks instant from_slice config (sse_callbacks instant from_slice config m w cs).1
    (sse_callbacks instant from_slice config m w cs).2 cs'.
Proof. unfold sse_callbacks. rewrite foldl_app. by destruct (foldl _ (m, w) cs). Qed.

(** C33. Capture of a streamed response that starts without scanner state: with
    the state stored as metadata strings between callbacks, the routes stored are
    exactly those of the payloads an uninterrupted scan of the chunks and its
    final flush deliver, in that order.  Callbacks may come without a body, and
    the one that ends the stream with or without a last chunk. *)
Theorem sse_capture_refines_scan m w bodies last :
  max_response_body_bytes config <= u64_max ->
  load_sse_scan_state m = scan_default ->
  m !! "a2a.response.capture_enabled"%string = None ->
  m !! "a2a.response.sse_capture_enabled"%string = Some "true"%string ->
  let chunks := omap id bodies ++ option_list last in
  (response_body instant from_slice from_str json_to_string config get_metadata m w
     (((fun b => (b, false)) <$> bodies) ++ [(last, true)])).2 =
  extract_all instant from_slice config
    (payloads (scan_chunks scan_default chunks (max_response_body_bytes config)).2 ++
     (flush_sse_state (scan_chunks scan_default chunks (max_response_body_bytes config)).1 []).2) m w.
Proof.
  intros Hmax Hload H1 H2 chunks. rewrite sse_calls by done.
  rewrite sse_last_call by (rewrite sse_callbacks_other; [done|set_solver]).
  rewrite <- sse_callbacks_app. fold chunks.
  destruct (sse_callbacks_scan instant from_slice config m w chunks Hmax) as (Hs & Hw & Hc).
  { rewrite Hload. apply scan_default_inv. }
  unfold flush_pending_sse_payloads. cbn [snd]. rewrite Hs, Hw, Hload.
  rewrite (extract_all_cluster _ _ _ _ _ m) by done. unfold extract_all. by rewrite foldl_app.
Qed.
End SseResponse.

(** ** Capture of a complete document *)

Section Document.
Context (instant : nat -> N) (from_slice : bytes -> option Json) (from_str : string -> option Json)
        (json_to_string : Json -> option string) (config : TaskRoutingConfig)
        (get_metadata : Metadata -> string -> option string) (c : string).
Hypothesis get_metadata_spec : forall m k, get_metadata m k = m !! k.

(** What the capture relies on of serde_json. *)
Hypothesis parse_empty : from_slice [] = None.
Hypothesis parse_trailing_whitespace : forall b s,
  forallb is_json_whitespace s = true -> from_slice (b ++ s) = from_slice b.
Hypothesis parsed_brackets_match : forall b v,
  from_slice b = Some v -> invalid (scan_json_balance balance_default b) = false.
Hypothesis nothing_after_document : forall p s v,
  from_slice (p ++ s) = Some v -> is_complete (scan_json_balance balance_default p) = true ->
  forallb is_json_whitespace s = true.
Hypothesis print_then_parse : forall b v, from_slice b = Some v ->
  exists js v', json_to_string v = Some js /\ from_str js = Some v' /\ same_shape v v'.

(** Phases of a capture that has received the bytes [seen]. *)
Definition accumulating (m : Metadata) (seen : bytes) : Prop :=
  m !! "a2a.response.capture_enabled"%string = Some "true"%string /\ m !! "a2a.response.cluster"%string = Some c /\
  m !! "a2a.response.tentative_json"%string = None /\
  (m !! "a2a.response.buffer_hex"%string = Some (encode_hex seen) \/ m !! "a2a.response.buffer_hex"%string = None /\ seen = []) /\
  default 0 (m !! "a2a.response.buffer_bytes"%string ≫= parse_usize) = nlen seen /\
  load_json_balance_state m = scan_json_balance balance_default seen /\
  is_done (scan_json_balance balance_default seen) = false.

Definition tentative (m : Metadata) (seen : bytes) : Prop :=
  m !! "a2a.response.capture_enabled"%string = Some "true"%string /\ m !! "a2a.response.cluster"%string = Some c /\
  exists js p s v, m !! "a2a.response.tentative_json"%string = Some js /\ seen = p ++ s /\
    forallb is_json_whitespace s = true /\ from_slice p = Some v /\ json_to_string v = Some js /\
    is_complete (scan_json_balance balance_default p) = true.

Definition abandoned (m : Metadata) (seen : bytes) : Prop :=
  cleared m /\ forall rest, from_slice (seen ++ rest) = None.

Definition phase (m : Metadata) (seen : bytes) : Prop :=
  m !! "a2a.response.sse_capture_enabled"%string = None /\
  (accumulating m seen \/ tentative m seen \/ abandoned m seen).

Definition bytes_of (body : option bytes) : bytes := match body with Some b => b | None => [] end.

(** The outcome at end of stream. *)
Definition document_route (seen : bytes) (w : World) : World :=
  match from_slice seen with Some v => store_task_route instant config v c w | None => w end.

Lemma store_route_shape v v' w :
  same_shape v v' -> store_task_route instant config v' c w = store_task_route instant config v c w.
Proof. intros H. unfold store_task_route. by rewrite (extract_shape v v' H). Qed.

Lemma invalid_stays seen rest :
  invalid (scan_json_balance balance_default seen) = true ->
  invalid (scan_json_balance balance_default (seen ++ rest)) = true.
Proof.
  intros H. rewrite <- scan_balance_app. unfold scan_json_balance at 1, is_done.
  by rewrite H, orb_true_r.
Qed.

Lemma invalid_abandoned seen :
  invalid (scan_json_balance balance_default seen) = true -> forall rest, from_slice (seen ++ rest) = None.
Proof.
  intros H rest. destruct (from_slice (seen ++ rest)) as [v|] eqn:E; [|done].
  apply parsed_brackets_match in E. by rewrite invalid_stays in E.
Qed.

Lemma complete_unparsed seen :
  is_complete (scan_json_balance balance_default seen) = true -> from_slice seen = None ->
  forall rest, from_slice (seen ++ rest) = None.
Proof.
  intros Hc Hn rest. destruct (from_slice (seen ++ rest)) as [v|] eqn:E; [|done].
  pose proof (nothing_after_document _ _ _ E Hc) as Hws.
  rewrite parse_trailing_whitespace in E by done. congruence.
Qed.

(** The accumulation step: metadata after the chunk is appended and the
    balance saved, before the decision. *)
Definition accumulated (m : Metadata) (seen : bytes) : Prop :=
  m !! "a2a.response.capture_enabled"%string = Some "true"%string /\ m !! "a2a.response.cluster"%string = Some c /\
  m !! "a2a.response.tentative_json"%string = None /\ m !! "a2a.response.sse_capture_enabled"%string = None /\
  (m !! "a2a.response.buffer_hex"%string = Some (encode_hex seen) \/ m !! "a2a.response.buffer_hex"%string = None /\ seen = []) /\
  default 0 (m !! "a2a.response.buffer_bytes"%string ≫= parse_usize) = nlen seen /\
  load_json_balance_state m = scan_json_balance balance_default seen.

Lemma save_balance_other m s k :
  k ∈ ["a2a.response.capture_enabled"; "a2a.response.cluster"; "a2a.response.tentative_json";
        "a2a.response.sse_capture_enabled"; "a2a.response.buffer_hex"; "a2a.response.buffer_bytes"]%string ->
  save_json_balance_state m s !! k = m !! k.
Proof.
  intros Hk. unfold save_json_balance_state. repeat (apply elem_of_cons in Hk as [->|Hk]; [by meta|]).
  by apply not_elem_of_nil in Hk.
Qed.

(** One call in the accumulating phase, decision included. *)
Lemma accumulate_call m w body eos seen :
  accumulating m seen -> m !! "a2a.response.sse_capture_enabled"%string = None ->
  nlen (seen ++ bytes_of body) <= max_response_body_bytes config ->
  max_response_body_bytes config <= u64_max ->
  exists m1, accumulated m1 (seen ++ bytes_of body) /\
    let balance := scan_json_balance balance_default (seen ++ bytes_of body) in
    handle_non_streaming_capture instant from_slice from_str json_to_string config m w body eos =
    (if invalid balance then (clear_capture_metadata m1, w)
     else if is_complete balance && negb eos then (parse_to_tentative from_slice json_to_string m1, w)
     else if is_complete balance || eos then try_capture_from_buffer instant from_slice config m1 w
     else (m1, w)).
Proof.
  intros (H1 & H2 & H3 & H4 & H5 & H6 & H7) Hsse Hmax Hu. unfold handle_non_streaming_capture, handle_pending_tentative.
  rewrite H3. destruct body as [chunk|]; cbn [bytes_of] in *.
  - unfold accumulate_response_hex. rewrite H5. unfold nlen in *. rewrite length_app in Hmax.
    unfold saturating_add. rewrite (proj2 (N.ltb_ge _ _)) by lia. cbn [negb].
    set (m0 := <["a2a.response.buffer_bytes"%string := _]> _).
    assert (load_json_balance_state m0 = scan_json_balance balance_default seen) as Hl.
    { rewrite <- H6. unfold load_json_balance_state, m0. by meta. }
    rewrite Hl, scan_balance_app.
    exists (save_json_balance_state m0 (scan_json_balance balance_default (seen ++ chunk))).
    split; [|done]. unfold accumulated. rewrite !save_balance_other by set_solver.
    rewrite load_save_balance by (apply scan_balance_closers; constructor).
    unfold m0. meta. split_and!; try done.
    + left. f_equal. rewrite encode_hex_app. f_equal. by destruct H4 as [-> |[-> ->]].
    + cbn [mbind option_bind]. rewrite parse_usize_to_string by (unfold nlen; lia). unfold nlen. rewrite length_app, Nat2N.inj_add. done.
  - cbn [negb]. rewrite H6, app_nil_r.
    exists (save_json_balance_state m (scan_json_balance balance_default seen)).
    split; [|done]. unfold accumulated. rewrite !save_balance_other by set_solver.
    rewrite load_save_balance by (apply scan_balance_closers; constructor). done.
Qed.

Lemma parsed_accumulated m seen : accumulated m seen -> parsed_buffer from_slice m = from_slice seen.
Proof.
  intros (_ & _ & _ & _ & [H|[H ->]] & _). all: unfold parsed_buffer; rewrite H; cbn [mbind option_bind].
  - by rewrite decode_encode.
  - by rewrite parse_empty.
Qed.

Lemma clear_sse m :
  clear_capture_metadata m !! "a2a.response.sse_capture_enabled"%string = m !! "a2a.response.sse_capture_enabled"%string.
Proof.
  apply foldl_delete_out. unfold capture_keys. rewrite !not_elem_of_cons.
  split_and!; try discriminate. apply not_elem_of_nil.
Qed.

Lemma has_content_spec body : has_content body = negb (forallb is_json_whitespace (bytes_of body)).
Proof.
  destruct body as [b|]; [|done]. cbn. induction b as [|x b IH]; [done|]. cbn.
  rewrite IH. by destruct (is_json_whitespace x).
Qed.

Lemma whitespace_app a b :
  forallb is_json_whitespace (a ++ b) = forallb is_json_whitespace a && forallb is_json_whitespace b.
Proof. apply forallb_app. Qed.

(** New content after a complete document rules out every reading of the body. *)
Lemma content_abandons p s x :
  is_complete (scan_json_balance balance_default p) = true ->
  forallb is_json_whitespace x = false -> forall rest, from_slice (((p ++ s) ++ x) ++ rest) = None.
Proof.
  intros Hc Hx rest. destruct (from_slice (((p ++ s) ++ x) ++ rest)) as [v|] eqn:E; [|done].
  rewrite <- !app_assoc in E. apply nothing_after_document in E; [|done].
  rewrite !whitespace_app, Hx in E. by rewrite andb_false_r in E.
Qed.

Abbreviation on_body := (on_response_body instant from_slice from_str json_to_string config get_metadata).

Lemma enabled_call m w body eos :
  m !! "a2a.response.capture_enabled"%string = Some "true"%string ->
  on_body m w body eos =
  handle_non_streaming_capture instant from_slice from_str json_to_string config m w body eos.
Proof. intros H. unfold on_response_body. by rewrite get_metadata_spec, H. Qed.

Lemma abandoned_call m w body eos seen :
  m !! "a2a.response.sse_capture_enabled"%string = None -> abandoned m seen -> on_body m w body eos = (m, w).
Proof.
  intros Hs [Hc _]. unfold on_response_body. rewrite !get_metadata_spec, Hs.
  unfold cleared in Hc. rewrite Forall_forall in Hc. rewrite (Hc "a2a.response.capture_enabled"%string); [done|].
  unfold capture_keys. set_solver.
Qed.

Lemma abandoned_app m seen x : abandoned m seen -> abandoned m (seen ++ x).
Proof. intros [H1 H2]. split; [done|]. intros rest. by rewrite <- app_assoc. Qed.

Lemma phase_step m w body seen :
  phase m seen -> nlen (seen ++ bytes_of body) <= max_response_body_bytes config ->
  max_response_body_bytes config <= u64_max ->
  (on_body m w body false).2 = w /\ phase (on_body m w body false).1 (seen ++ bytes_of body).
Proof.
  intros [Hsse [Ha|[Ht|Hd]]] Hmax Hu.
  - rewrite enabled_call by apply Ha.
    destruct (accumulate_call m w body false seen Ha Hsse Hmax Hu) as (m1 & Hm1 & Heq).
    cbv zeta in Heq. rewrite Heq. clear Heq.
    pose proof (parsed_accumulated _ _ Hm1) as Hp. destruct Hm1 as (A1 & A2 & A3 & A4 & A5 & A6 & A7).
    destruct (invalid (scan_json_balance balance_default (seen ++ bytes_of body))) eqn:Ei.
    { split; [done|]. split; [cbn [fst]; by rewrite clear_sse|]. right; right.
      split; [apply clear_cleared|by apply invalid_abandoned]. }
    destruct (is_complete (scan_json_balance balance_default (seen ++ bytes_of body))) eqn:Ec; cbn [negb andb orb].
    + split; [done|]. unfold parse_to_tentative. cbn [fst]. rewrite Hp.
      destruct (from_slice (seen ++ bytes_of body)) as [v|] eqn:Ev.
      * destruct (print_then_parse _ _ Ev) as (js & v' & Hjs & _). rewrite Hjs.
        split; [by meta|]. right; left. unfold tentative. meta. split_and!; [done..|].
        exists js, (seen ++ bytes_of body), [], v. by rewrite app_nil_r.
      * split; [by rewrite clear_sse|]. right; right. split; [apply clear_cleared|].
        by apply complete_unparsed.
    + split; [done|]. split; [done|]. left. unfold accumulating. split_and!; try done.
      unfold is_done. by rewrite Ec, Ei.
  - destruct Ht as (H1 & H2 & js & p & s & v & Hjs & -> & Hs & Hp & Hpr & Hc).
    rewrite enabled_call by done. unfold handle_non_streaming_capture, handle_pending_tentative.
    rewrite Hjs, has_content_spec. destruct (forallb is_json_whitespace (bytes_of body)) eqn:Eb; cbn [negb fst snd].
    + split; [done|]. split; [done|]. right; left. split_and!; [done..|].
      exists js, p, (s ++ bytes_of body), v. rewrite whitespace_app, Hs, Eb, app_assoc. by split_and!.
    + split; [done|]. split; [by rewrite clear_sse|]. right; right.
      split; [apply clear_cleared|by apply content_abandons].
  - rewrite (abandoned_call _ _ _ _ seen) by done. split; [done|]. split; [done|].
    right; right. by apply abandoned_app.
Qed.

Lemma phase_end m w body seen :
  phase m seen -> nlen (seen ++ bytes_of body) <= max_response_body_bytes config ->
  max_response_body_bytes config <= u64_max ->
  cleared (on_body m w body true).1 /\ (on_body m w body true).2 = document_route (seen ++ bytes_of body) w.
Proof.
  intros [Hsse [Ha|[Ht|Hd]]] Hmax Hu; unfold document_route.
  - rewrite enabled_call by apply Ha.
    destruct (accumulate_call m w body true seen Ha Hsse Hmax Hu) as (m1 & Hm1 & Heq).
    cbv zeta in Heq. rewrite Heq. clear Heq.
    pose proof (parsed_accumulated _ _ Hm1) as Hp. destruct Hm1 as (A1 & A2 & _).
    destruct (invalid (scan_json_balance balance_default (seen ++ bytes_of body))) eqn:Ei.
    { split; [apply clear_cleared|]. rewrite <- (app_nil_r (seen ++ bytes_of body)).
      by rewrite invalid_abandoned. }
    rewrite andb_false_r, orb_true_r. unfold try_capture_from_buffer. rewrite Hp, A2. cbn [fst snd].
    split; [apply clear_cleared|done].
  - destruct Ht as (H1 & H2 & js & p & s & v & Hjs & -> & Hs & Hp & Hpr & Hc).
    rewrite enabled_call by done. unfold handle_non_streaming_capture, handle_pending_tentative.
    rewrite Hjs, has_content_spec. destruct (forallb is_json_whitespace (bytes_of body)) eqn:Eb;
      cbn [negb fst snd]; (split; [apply clear_cleared|]).
    + unfold commit_tentative_capture. rewrite Hjs, H2.
      destruct (print_then_parse _ _ Hp) as (js' & v' & Hjs' & Hfs & Hshape).
      assert (js' = js) as -> by congruence. rewrite Hfs.
      rewrite !parse_trailing_whitespace, Hp by done. by apply store_route_shape.
    + rewrite <- (app_nil_r ((p ++ s) ++ bytes_of body)). by rewrite content_abandons.
  - rewrite (abandoned_call _ _ _ _ seen) by done. destruct Hd as [Hcl Hd]. split; [done|].
    by rewrite Hd.
Qed.

(** Capture of a plain response: for a body within the byte limit,
    delivered in any pieces, the response stores exactly the route of the
    complete body when that body is a JSON document, and nothing otherwise (in
    particular nothing for a document followed by other bytes); at end of stream
    no capture state is left in the metadata. *)
Theorem capture_stores_document_route m w bs last :
  phase m [] ->
  nlen (concat (bytes_of <$> bs) ++ bytes_of last) <= max_response_body_bytes config ->
  max_response_body_bytes config <= u64_max ->
  cleared (response_body instant from_slice from_str json_to_string config get_metadata m w
             (((fun b => (b, false)) <$> bs) ++ [(last, true)])).1 /\
  (response_body instant from_slice from_str json_to_string config get_metadata m w
     (((fun b => (b, false)) <$> bs) ++ [(last, true)])).2 =
  document_route (concat (bytes_of <$> bs) ++ bytes_of last) w.
Proof.
  change (concat (bytes_of <$> bs)) with ([] ++ concat (bytes_of <$> bs)).
  generalize ([] : bytes) as seen. revert m w.
  induction bs as [|b bs IH]; intros m w seen Hph Hmax Hu.
  - cbn [fmap list_fmap app concat response_body] in *. rewrite app_nil_r in *.
    destruct (phase_end m w last seen Hph Hmax Hu) as [H1 H2].
    by destruct (on_body m w last true).
  - cbn [fmap list_fmap app concat response_body] in *. rewrite app_assoc in *.
    destruct (phase_step m w b seen Hph) as [H1 H2]; [|done|].
    { unfold nlen in *. rewrite !length_app in *. lia. }
    destruct (on_body m w b false) as [m1 w1]. cbn [fst snd] in *. subst w1. by apply IH.
Qed.
End Document.

(** ** A concrete instance *)

(** A parser of a single document, enough to run the capture. *)
Definition sample_doc : bytes := bstr "{[]}".
Definition sample_value : Json :=
  (JObject [("result", JObject [("id", JString "task-7"); ("status", JObject [])])])%string.
Definition rstrip (b : bytes) : bytes := reverse (drop_while is_json_whitespace (reverse b)).
Definition sample_from_slice (b : bytes) : option Json :=
  if bool_decide (rstrip b = sample_doc) then Some sample_value else None.
Definition sample_from_str (s : string) : option Json := Some sample_value.
Definition sample_to_string (v : Json) : option string := Some "document"%string.
Definition sample_config : TaskRoutingConfig := 
  mkTaskRoutingConfig true 64 ContinueOnMiss "x-praxis-a2a-route-cluster" LocalStore 0 60.
Definition sample_metadata : Metadata :=
  <["a2a.response.capture_enabled"%string := "true"%string]>
    (<["a2a.response.cluster"%string := "east"%string]> ∅).
Definition sample_sse_metadata : Metadata :=
  <["a2a.response.sse_capture_enabled"%string := "true"%string]>
    (<["a2a.response.cluster"%string := "east"%string]> ∅).

Lemma rstrip_whitespace b s : forallb is_json_whitespace s = true -> rstrip (b ++ s) = rstrip b.
Proof.
  intros H. unfold rstrip. rewrite reverse_app. f_equal.
  assert (forallb is_json_whitespace (reverse s) = true) as Hr.
  { rewrite forallb_forall in H |- *. intros x Hx. apply H.
    rewrite <- list_elem_of_In in *. by rewrite elem_of_reverse in Hx. }
  induction (reverse s) as [|x l IH]; [done|]. cbn in Hr |- *. apply andb_true_iff in Hr as [-> Hr]. auto.
Qed.

Lemma rstrip_split b : exists s, b = rstrip b ++ s /\ forallb is_json_whitespace s = true.
Proof.
  unfold rstrip. destruct (drop_while_split is_json_whitespace (reverse b)) as (s & Hs & Hw).
  exists (reverse s). split.
  - rewrite <- reverse_app, <- Hs. by rewrite reverse_involutive.
  - rewrite forallb_forall. rewrite Forall_forall in Hw. intros x Hx. apply Hw.
    rewrite <- list_elem_of_In in Hx. by rewrite elem_of_reverse in Hx.
Qed.

Lemma sample_parsed b v :
  sample_from_slice b = Some v -> exists s, b = sample_doc ++ s /\ forallb is_json_whitespace s = true.
Proof.
  unfold sample_from_slice. case_bool_decide as H; [|done]. intros _.
  destruct (rstrip_split b) as (s & Hs & Hw). rewrite H in Hs. eauto.
Qed.

Lemma sample_prefix p s r :
  p ++ s = sample_doc ++ r -> is_complete (scan_json_balance balance_default p) = true ->
  exists r1, r = r1 ++ s.
Proof.
  intros Heq Hc. destruct p as [|a [|b [|c [|d p]]]]; cbn in Heq; simplify_eq; try (vm_compute in Hc; discriminate).
  by exists p.
Qed.

Lemma sample_document_hyps :
  sample_from_slice [] = None /\
  (forall b s, forallb is_json_whitespace s = true -> sample_from_slice (b ++ s) = sample_from_slice b) /\
  (forall b v, sample_from_slice b = Some v -> invalid (scan_json_balance balance_default b) = false) /\
  (forall p s v, sample_from_slice (p ++ s) = Some v ->
     is_complete (scan_json_balance balance_default p) = true -> forallb is_json_whitespace s = true) /\
  (forall b v, sample_from_slice b = Some v ->
     exists js v', sample_to_string v = Some js /\ sample_from_str js = Some v' /\ same_shape v v').
Proof.
  split_and!.
  - done.
  - intros b s Hs. unfold sample_from_slice. by rewrite rstrip_whitespace.
  - intros b v H. apply sample_parsed in H as (s & -> & _). by rewrite <- scan_balance_app.
  - intros p s v H Hc. apply sample_parsed in H as (r & Heq & Hw).
    apply sample_prefix in Heq as [r1 ->]; [|done]. rewrite whitespace_app in Hw.
    by apply andb_true_iff in Hw as [_ ?].
  - intros b v H. unfold sample_from_slice in H. case_bool_decide; [|done]. injection H as <-.
    exists "document"%string, sample_value. split_and!; [done..|]. repeat constructor.
Qed.

Lemma sample_phase : phase sample_from_slice sample_to_string "east" sample_metadata [].
Proof.
  split; [reflexivity|]. left. unfold accumulating. split_and!; try reflexivity. by right.
Qed.

Lemma capture_stores_document_route_witness :
  (get_by_task_id N.of_nat
     (response_body N.of_nat sample_from_slice sample_from_str sample_to_string sample_config
        (fun m k => m !! k) sample_metadata (store_new N.of_nat 0)
        [(Some (bstr "{["), false); (Some (bstr "]} "), false); (Some (bstr " "), true)]).2
     "task-7").1 = Some "east"%string.
Proof.
  destruct sample_document_hyps as (H1 & H2 & H3 & H4 & H5).
  destruct (capture_stores_document_route N.of_nat sample_from_slice sample_from_str sample_to_string
    sample_config (fun m k => m !! k) "east" (fun _ _ => eq_refl) H1 H2 H3 H4 H5
    sample_metadata (store_new N.of_nat 0) [Some (bstr "{["); Some (bstr "]} ")] (Some (bstr " "))
    sample_phase) as [_ Heq]; [vm_compute; discriminate|vm_compute; discriminate|].
  cbn [fmap list_fmap app] in Heq. rewrite Heq. vm_compute. reflexivity.
Defined.

Lemma sse_capture_refines_scan_witness :
  (get_by_task_id N.of_nat
     (response_body N.of_nat sample_from_slice sample_from_str sample_to_string sample_config
        (fun m k => m !! k) sample_sse_metadata (store_new N.of_nat 0)
        [(Some (bstr "data: {["), false); (None, false); (Some (bstr "]}"), true)]).2
     "task-7").1 = Some "east"%string.
Proof.
  pose proof (sse_capture_refines_scan N.of_nat sample_from_slice sample_from_str sample_to_string
    sample_config (fun m k => m !! k) (fun _ _ => eq_refl) sample_sse_metadata (store_new N.of_nat 0)
    [Some (bstr "data: {["); None] (Some (bstr "]}"))) as Heq.
  cbn [fmap list_fmap app] in Heq. rewrite Heq; try reflexivity. vm_compute. discriminate.
Defined.
