(* ===== verification/Routing.v ===== *)
(** Route candidates, their validation, the priority-group index and the
    request-time picker of the intelligent route filter:
    [filters/src/routing/descriptor.rs], [group_index.rs], [picker.rs] and the
    credential references of [metadata.rs].

    A [FilterError] is represented by the site that raises it ([RouteError]);
    its message text is not kept.  The syntax of header values ([http]) and
    SHA-256 (OpenSSL) are class methods; random numbers are an argument. *)

From S2P Require Import Prelude Utf8 MetaCodec RustStr.
From Stdlib Require Import Strings.Ascii Strings.Byte.

Local Open Scope N_scope.
Local Open Scope rust_scope.

(** [str::parse::<http::HeaderValue>().is_ok()] and [str::parse::<HeaderName>()]. *)
Class HeaderSyntax := { header_value_ok : string -> bool; parse_header_name : string -> option string }.
(** [Sha256::digest]. *)
Class Sha256 := { sha256 : bytes -> bytes }.

(** * Data *)

Inductive CapabilityKind := InferenceModel | McpTool.
Inductive AdmissionState := NewAndExisting | ExistingOnly | Excluded.

#[export] Instance CapabilityKind_eq_dec : EqDecision CapabilityKind.
Proof. solve_decision. Defined.
#[export] Instance AdmissionState_eq_dec : EqDecision AdmissionState.
Proof. solve_decision. Defined.
#[export] Instance CapabilityKind_countable : Countable CapabilityKind.
Proof.
  refine (inj_countable' (fun k => match k with InferenceModel => true | McpTool => false end)
            (fun b : bool => if b then InferenceModel else McpTool) _). by intros [].
Defined.

Definition admission_as_str (a : AdmissionState) : string :=
  match a with
  | NewAndExisting => "new_and_existing"
  | ExistingOnly => "existing_only"
  | Excluded => "none"
  end.

Definition kind_as_str (k : CapabilityKind) : string :=
  match k with InferenceModel => "inference_model" | McpTool => "mcp_tool" end.

Inductive RouteError :=
| UnknownAdmission (i : N) | UnknownKind
| EmptyCandidates | TooManyCandidates | BadName | PathsWithoutTarget | BadPathCount | BadPath
| DuplicatePath | BadCatalog | BadCredentialStrategy | DuplicateCandidate
| MixedGrouping (i : N) | GroupStart (i : N) | MixedAdmission (i : N) | GroupGap (i : N)
| BadWeight (i : N) | WeightOverflow
| BadTier (i : N) | BadStableId (i : N) | DuplicateStableId (i : N)
| WeightWithoutPolicy | PolicyWithoutWeight
| ParseError | EnvelopeParseError | UnsupportedSchema | BadEnvelopeField | ZeroGeneration | BadTimestamp
| BadRevision | RevisionMismatch | MissingOverlay | CanonicalizationError | DigestMismatch
| MissingNetwork | NetworkMismatch | SiteMismatch | SourceMismatch | ScopeMismatch | LegacyRefused
| BadHopCandidateId | BadHopRequestId | BadHopRevision | BodySerialization
| BadConfig (what : string).

#[export] Instance RouteError_eq_dec : EqDecision RouteError.
Proof. solve_decision. Defined.

(** [AdmissionState::from_overlay_str]. *)
Definition admission_from_overlay_str (s : string) : option AdmissionState :=
  if bool_decide (s = "new_and_existing") then Some NewAndExisting
  else if bool_decide (s = "existing_only") then Some ExistingOnly
  else if bool_decide (s = "none") then Some Excluded
  else None.

(** [CapabilityKind::from_overlay_str]. *)
Definition kind_from_overlay_str (s : string) : result RouteError CapabilityKind :=
  if bool_decide (s = "inference_model") then Ok InferenceModel
  else if bool_decide (s = "mcp_tool") then Ok McpTool
  else Err UnknownKind.

Record CredentialRef := mkCredentialRef { cr_key : string; cr_name : string; cr_namespace : string }.
Record CandidateCredential := mkCredential { cred_strategy : string; cred_ref : CredentialRef }.

Record CandidateConfig := mkConfig {
  cc_cluster : string;
  cc_provider : option string;
  cc_target_model : option string;
  cc_paths : option (list string);
  cc_catalog : option (list string);
  cc_display_name : option string;
  cc_owned_by : option string;
  cc_created : option Z;
  cc_credential : option CandidateCredential;
  cc_fresh : bool;
  cc_kind : CapabilityKind;
  cc_name : string;
  cc_site : string;
  cc_traffic_weight : option N
}.

Record RouteCandidate := mkCandidate {
  admission_state : AdmissionState;
  cluster : string;
  provider : option string;
  target_model : option string;
  paths : option (list string);
  catalog : option (list string);
  display_name : option string;
  owned_by : option string;
  created : option Z;
  credential : option CandidateCredential;
  fresh : bool;
  kind : CapabilityKind;
  name : string;
  rank : option N;
  selection_group : option N;
  traffic_weight : option N;
  selection_tier : option string;
  site : string;
  stable_id : string
}.

(** * Validation *)

Definition MAX_CANDIDATES : N := 1024.
Definition MAX_NAME_LEN : N := 256.
Definition MAX_PATHS_PER_CANDIDATE : N := 16.

Definition nlength {A} (l : list A) : N := N.of_nat (length l).

Definition is_blank (s : string) : bool := bool_decide (trim s = ""%string).

(** [validate_name]. *)
Definition validate_name (value : string) : result RouteError unit :=
  if is_blank value || (MAX_NAME_LEN <? str_len value) then Err BadName else Ok tt.

Definition validate_opt_name (value : option string) : result RouteError unit :=
  match value with Some v => validate_name v | None => Ok tt end.

(** [str::contains(['?', '#'])]. *)
Definition has_query_or_fragment (s : string) : bool :=
  existsb (fun c => bool_decide (c = "?"%char) || bool_decide (c = "#"%char)) (String.list_ascii_of_string s).

(** The loop of [validate_paths]; [validated] is the vector so far. *)
Fixpoint collect_paths (paths validated : list string) : result RouteError (list string) :=
  match paths with
  | [] => Ok validated
  | path :: paths =>
      if negb (starts_with path "/") || has_query_or_fragment path || (512 <? str_len path) then Err BadPath
      else if bool_decide (path ∈ validated) then Err DuplicatePath
      else collect_paths paths (validated ++ [path])
  end.

(** [validate_paths]. *)
Definition validate_paths (has_target_model : bool) (paths : option (list string))
    : result RouteError (option (list string)) :=
  match paths with
  | None => Ok None
  | Some paths =>
      if negb has_target_model then Err PathsWithoutTarget
      else if bool_decide (paths = []) || (MAX_PATHS_PER_CANDIDATE <? nlength paths) then Err BadPathCount
      else let? validated := collect_paths paths [] in Ok (Some validated)
  end.

Fixpoint collect_catalog (catalog validated : list string) : result RouteError (list string) :=
  match catalog with
  | [] => Ok validated
  | value :: catalog =>
      if negb (bool_decide (value = "openai"%string)) && negb (bool_decide (value = "anthropic"%string))
      then Err BadCatalog
      else collect_catalog catalog (if bool_decide (value ∈ validated) then validated else validated ++ [value])
  end.

(** [validate_catalog]. *)
Definition validate_catalog (catalog : option (list string)) : result RouteError (option (list string)) :=
  match catalog with
  | None => Ok None
  | Some catalog => let? validated := collect_catalog catalog [] in Ok (Some validated)
  end.

(** [is_supported_strategy]. *)
Definition is_supported_strategy (strategy : string) : bool :=
  bool_decide (strategy = "bearer_token"%string) || bool_decide (strategy = "apikey"%string).

(** [validate_credential]. *)
Definition validate_credential (credential : option CandidateCredential) : result RouteError unit :=
  match credential with
  | None => Ok tt
  | Some c =>
      if negb (is_supported_strategy (cred_strategy c)) then Err BadCredentialStrategy
      else let? _ := validate_name (cr_name (cred_ref c)) in
           let? _ := validate_name (cr_namespace (cred_ref c)) in
           validate_name (cr_key (cred_ref c))
  end.

Definition RESERVED_HEADER_PREFIXES : list string := ["x-praxis-"; "x-mcp-"]%string.

(** [validate_model_header]. *)
Definition validate_model_header `{HeaderSyntax} (raw : string) : result RouteError string :=
  if is_blank raw then Err (BadConfig "model_header")
  else match parse_header_name raw with
       | None => Err (BadConfig "model_header")
       | Some h => if existsb (starts_with h) RESERVED_HEADER_PREFIXES then Err (BadConfig "model_header") else Ok h
       end.

(** [u64::to_be_bytes], for the length prefixes of the digest. *)
Definition be_bytes (n : N) : bytes :=
  (fun i => default x00 (Byte.of_N (N.land (N.shiftr n (8 * N.of_nat i)) 255))) <$> reverse (seq 0 8).

Section Validation.
Context `{HeaderSyntax, Sha256}.

(** [default_stable_id]. *)
Definition default_stable_id (k : CapabilityKind) (name site cluster : string) : string :=
  let readable := kind_as_str k +:+ "/" +:+ name +:+ "/" +:+ site +:+ "/" +:+ cluster in
  if (str_len readable <=? 256) && header_value_ok readable then readable
  else
    let digest := concat ((fun f => be_bytes (str_len f) ++ string_bytes f) <$> [kind_as_str k; name; site; cluster]) in
    "sha256:" +:+ encode_hex (sha256 digest).

(** The body of the loop of [validate_candidates_with_empty], without the
    duplicate check. *)
Definition validate_candidate (c : CandidateConfig) : result RouteError RouteCandidate :=
  let? _ := validate_name (cc_name c) in
  let? _ := validate_name (cc_site c) in
  let? _ := validate_name (cc_cluster c) in
  let? _ := validate_opt_name (cc_provider c) in
  let? _ := validate_opt_name (cc_target_model c) in
  let? paths := validate_paths (bool_decide (is_Some (cc_target_model c))) (cc_paths c) in
  let? catalog := validate_catalog (cc_catalog c) in
  let? _ := validate_credential (cc_credential c) in
  Ok (mkCandidate NewAndExisting (cc_cluster c) (cc_provider c) (cc_target_model c) paths catalog
        (cc_display_name c) (cc_owned_by c) (cc_created c) (cc_credential c) (cc_fresh c) (cc_kind c)
        (cc_name c) None None (cc_traffic_weight c) None (cc_site c)
        (default_stable_id (cc_kind c) (cc_name c) (cc_site c) (cc_cluster c))).

Definition identity (c : CandidateConfig) : CapabilityKind * string * string * string :=
  (cc_kind c, cc_name c, cc_site c, cc_cluster c).

Fixpoint validate_loop (raw : list CandidateConfig) (seen : list (CapabilityKind * string * string * string))
    : result RouteError (list RouteCandidate) :=
  match raw with
  | [] => Ok []
  | c :: raw =>
      let? v := validate_candidate c in
      if bool_decide (identity c ∈ seen) then Err DuplicateCandidate
      else let? vs := validate_loop raw (identity c :: seen) in Ok (v :: vs)
  end.

(** [validate_candidates_with_empty]. *)
Definition validate_candidates_with_empty (raw : list CandidateConfig) (allow_empty : bool)
    : result RouteError (list RouteCandidate) :=
  if bool_decide (raw = []) && negb allow_empty then Err EmptyCandidates
  else if MAX_CANDIDATES <? nlength raw then Err TooManyCandidates
  else validate_loop raw [].

Definition validate_candidates (raw : list CandidateConfig) := validate_candidates_with_empty raw false.
Definition validate_overlay_candidates (raw : list CandidateConfig) := validate_candidates_with_empty raw true.
End Validation.

(** * The group index *)

Record WeightedEntry := mkWeighted { candidate_index : nat; cumulative_upper_bound : N }.

Record SelectionGroup := mkGroup {
  number : N;
  g_admission_state : AdmissionState;
  candidate_indexes : list nat;
  weighted_entries : list WeightedEntry;
  total_weight : N;
  next : N
}.

(** [HashMap<CapabilityKind, HashMap<Arc<str>, Vec<SelectionGroup>>>]. *)
Abbreviation GroupIndex := (gmap CapabilityKind (gmap string (list SelectionGroup))).

Definition u32_max : N := 4294967295.

(** [append_weight]. *)
Definition append_weight (group : SelectionGroup) (index : nat) (candidate : RouteCandidate)
    : result RouteError SelectionGroup :=
  match traffic_weight candidate with
  | None => Ok group
  | Some weight =>
      if negb ((1 <=? weight) && (weight <=? 1000)) then Err (BadWeight (N.of_nat index))
      else
        let total := total_weight group + weight in
        if u64_max <? total then Err WeightOverflow
        else Ok (mkGroup (number group) (g_admission_state group) (candidate_indexes group)
                   (weighted_entries group ++ [mkWeighted index total]) total (next group))
  end.

Definition push_index (group : SelectionGroup) (index : nat) : SelectionGroup :=
  mkGroup (number group) (g_admission_state group) (candidate_indexes group ++ [index])
    (weighted_entries group) (total_weight group) (next group).

(** [index.entry(kind).or_default().entry(name).or_default()]. *)
Definition groups_of (idx : GroupIndex) (k : CapabilityKind) (n : string) : option (list SelectionGroup) :=
  idx !! k ≫= fun by_name => by_name !! n.

Definition set_groups (idx : GroupIndex) (k : CapabilityKind) (n : string) (gs : list SelectionGroup) : GroupIndex :=
  <[k := <[n := gs]> (default ∅ (idx !! k))]> idx.

(** The [match groups.last_mut()] of [build]: the groups with [candidate]
    added, in group [num]. *)
Definition add_to_groups (groups : list SelectionGroup) (i : nat) (candidate : RouteCandidate) (num : N)
    : result RouteError (list SelectionGroup) :=
  let fresh_group :=
    let? group := append_weight (mkGroup num (admission_state candidate) [i] [] 0 0) i candidate in
    Ok (groups ++ [group]) in
  match last groups with
  | None => if negb (num =? 0) then Err (GroupStart (N.of_nat i)) else fresh_group
  | Some group =>
      if number group =? num then
        if negb (bool_decide (g_admission_state group = admission_state candidate))
        then Err (MixedAdmission (N.of_nat i))
        else
          let? group := append_weight (push_index group i) i candidate in
          Ok (removelast groups ++ [group])
      else if negb (num =? N.min (number group + 1) u32_max) then Err (GroupGap (N.of_nat i))
      else fresh_group
  end.

(** One iteration of the loop of [build]; [mode] records whether the
    capability's candidates are grouped. *)
Definition build_step (idx : GroupIndex) (mode : gmap (CapabilityKind * string) bool)
    (i : nat) (c : RouteCandidate) : result RouteError (GroupIndex * gmap (CapabilityKind * string) bool) :=
  let grouped := bool_decide (is_Some (selection_group c)) in
  let previous := mode !! (kind c, name c) in
  let mode := <[(kind c, name c) := grouped]> mode in
  if bool_decide (previous = Some (negb grouped)) then Err (MixedGrouping (N.of_nat i))
  else
    match selection_group c with
    | None => Ok (idx, mode)
    | Some num =>
        let? groups := add_to_groups (default [] (groups_of idx (kind c) (name c))) i c num in
        Ok (set_groups idx (kind c) (name c) groups, mode)
    end.

Fixpoint build_loop (idx : GroupIndex) (mode : gmap (CapabilityKind * string) bool)
    (i : nat) (cs : list RouteCandidate) : result RouteError GroupIndex :=
  match cs with
  | [] => Ok idx
  | c :: cs => let? (idx, mode) := build_step idx mode i c in build_loop idx mode (S i) cs
  end.

(** [group_index::build]. *)
Definition build (candidates : list RouteCandidate) : result RouteError GroupIndex :=
  build_loop ∅ ∅ 0 candidates.

(** * The picker *)

Inductive PickerPolicy := Deterministic | RoundRobin | Random | WeightedRandom.
#[export] Instance PickerPolicy_eq_dec : EqDecision PickerPolicy.
Proof. solve_decision. Defined.

(** [slice::partition_point], on a slice whose elements satisfying the
    predicate come first. *)
Definition partition_point {A} (p : A -> bool) (l : list A) : nat :=
  default (length l) (position (fun x => negb (p x)) l).

(** [weighted_index_for_draw]. *)
Definition weighted_index_for_draw (group : SelectionGroup) (draw : N) : option nat :=
  if total_weight group <=? draw then None
  else
    let bucket := partition_point (fun entry => cumulative_upper_bound entry <=? draw) (weighted_entries group) in
    candidate_index <$> weighted_entries group !! bucket.

Definition bump (group : SelectionGroup) : SelectionGroup :=
  mkGroup (number group) (g_admission_state group) (candidate_indexes group)
    (weighted_entries group) (total_weight group) (wrapping_add (next group) 1).

Section Picker.
(** [rand::rng().random_range(0..n)] of one request. *)
Context (rng : N -> N).

(** [choose_candidate_index]: the index and the group with its counter. *)
Definition choose_candidate_index (policy : PickerPolicy) (group : SelectionGroup)
    : option nat * SelectionGroup :=
  let len := nlength (candidate_indexes group) in
  if len =? 0 then (None, group)
  else
    match policy with
    | Deterministic => (head (candidate_indexes group), group)
    | RoundRobin => (candidate_indexes group !! N.to_nat (next group mod len), bump group)
    | Random => (candidate_indexes group !! N.to_nat (rng len), group)
    | WeightedRandom =>
        if total_weight group =? 0 then (None, group)
        else (weighted_index_for_draw group (rng (total_weight group)), group)
    end.

(** [select_from_group]. *)
Definition select_from_group (candidates : list RouteCandidate) (group : SelectionGroup) (policy : PickerPolicy)
    : option RouteCandidate * SelectionGroup :=
  if negb (bool_decide (g_admission_state group = NewAndExisting)) then (None, group)
  else
    let '(index, group) := choose_candidate_index policy group in
    (index ≫= fun i => candidates !! i, group).

(** The loop over the groups of a capability. *)
Fixpoint select_from_groups (candidates : list RouteCandidate) (groups : list SelectionGroup) (policy : PickerPolicy)
    : option (RouteCandidate * N) * list SelectionGroup :=
  match groups with
  | [] => (None, [])
  | group :: groups =>
      match select_from_group candidates group policy with
      | (Some candidate, group) => (Some (candidate, number group), group :: groups)
      | (None, group) =>
          let '(r, groups) := select_from_groups candidates groups policy in (r, group :: groups)
      end
  end.

(** [select_legacy]. *)
Definition select_legacy (candidates : list RouteCandidate) (k : CapabilityKind) (n : string) : option RouteCandidate :=
  List.find (fun c => bool_decide (kind c = k) && bool_decide (name c = n)
                      && bool_decide (admission_state c = NewAndExisting)) candidates.

(** [select_candidate]; the index carries the round-robin counters. *)
Definition select_candidate (candidates : list RouteCandidate) (idx : GroupIndex)
    (k : CapabilityKind) (n : string) (policy : PickerPolicy)
    : option (RouteCandidate * option N) * GroupIndex :=
  match groups_of idx k n with
  | Some groups =>
      let '(r, groups) := select_from_groups candidates groups policy in
      ((fun cg => (cg.1, Some cg.2)) <$> r, set_groups idx k n groups)
  | None => ((fun c => (c, None)) <$> select_legacy candidates k n, idx)
  end.
End Picker.
