(* ===== verification/RoutingProps.v ===== *)
(** Properties of the group index and the picker ([Routing]): what a built index
    contains, which candidate a request gets, the exact distribution of weighted
    draws and the rotation of round-robin picks. *)

From S2P Require Import Prelude Utf8 MetaCodec RustStr Routing.

Local Open Scope N_scope.

(** * Reference description of an index *)

Definition in_capability (k : CapabilityKind) (n : string) (c : RouteCandidate) : bool :=
  bool_decide (kind c = k) && bool_decide (name c = n).

Definition in_group (k : CapabilityKind) (n : string) (g : N) (c : RouteCandidate) : bool :=
  in_capability k n c && bool_decide (selection_group c = Some g).

(** The positions of the candidates of a group, in order. *)
Definition members (cs : list RouteCandidate) (k : CapabilityKind) (n : string) (g : N) : list nat :=
  List.filter (fun i => match cs !! i with Some c => in_group k n g c | None => false end) (seq 0 (length cs)).

(** The weights of the candidates at some positions, and their cumulative
    upper bounds. *)
Definition weighted (cs : list RouteCandidate) (ix : list nat) : list (nat * N) :=
  omap (fun i => c ← cs !! i; w ← traffic_weight c; Some (i, w)) ix.

Fixpoint cumulate (acc : N) (l : list (nat * N)) : list WeightedEntry :=
  match l with
  | [] => []
  | (i, w) :: l => mkWeighted i (acc + w) :: cumulate (acc + w) l
  end.

Record group_ok (cs : list RouteCandidate) (k : CapabilityKind) (n : string) (j : N) (g : SelectionGroup) : Prop := {
  ok_number : number g = j;
  ok_indexes : candidate_indexes g = members cs k n j;
  ok_nonempty : candidate_indexes g <> [];
  ok_admission : forall i c, i ∈ candidate_indexes g -> cs !! i = Some c -> admission_state c = g_admission_state g;
  ok_entries : weighted_entries g = cumulate 0 (weighted cs (candidate_indexes g));
  ok_total : total_weight g = sumN (weighted cs (candidate_indexes g)).*2;
  ok_weights : Forall (fun w => 1 <= w <= 1000) (weighted cs (candidate_indexes g)).*2
}.

(** Groups described so far, with no candidate numbered beyond them. *)
Record groups_upto (cs : list RouteCandidate) (k : CapabilityKind) (n : string) (gs : list SelectionGroup) : Prop := {
  up_oks : forall j g, gs !! j = Some g -> group_ok cs k n (N.of_nat j) g;
  up_bound : forall c j, c ∈ cs -> in_group k n j c = true -> j < nlength gs;
  up_grouped : forall c, c ∈ cs -> in_capability k n c = true -> is_Some (selection_group c)
}.

Definition groups_ok (cs : list RouteCandidate) (k : CapabilityKind) (n : string) (gs : list SelectionGroup) : Prop :=
  groups_upto cs k n gs /\ gs <> [] /\ nlength gs <= u32_max + 1.

(** An index that describes [cs]: every capability has either no grouped
    candidate and no entry, or only grouped candidates, listed exactly. *)
Definition index_ok (cs : list RouteCandidate) (idx : GroupIndex) : Prop :=
  forall k n,
    match groups_of idx k n with
    | Some gs => groups_ok cs k n gs
    | None => forall c, c ∈ cs -> in_capability k n c = true -> selection_group c = None
    end.

(** * Building *)

Lemma groups_of_set idx k n gs k' n' :
  groups_of (set_groups idx k n gs) k' n' = if decide (k' = k /\ n' = n) then Some gs else groups_of idx k' n'.
Proof.
  unfold groups_of, set_groups. destruct (decide (k' = k)) as [->|Hk].
  - rewrite lookup_insert_eq. cbn. destruct (decide (n' = n)) as [->|Hn].
    + rewrite lookup_insert_eq, decide_True; done.
    + rewrite lookup_insert_ne, decide_False by naive_solver. by destruct (idx !! k).
  - rewrite lookup_insert_ne, decide_False by naive_solver. done.
Qed.

Lemma members_snoc cs c k n g :
  members (cs ++ [c]) k n g = members cs k n g ++ (if in_group k n g c then [length cs] else []).
Proof.
  unfold members. rewrite length_app. cbn [length]. rewrite Nat.add_1_r, seq_S, List.filter_app. cbn.
  rewrite lookup_app_r, Nat.sub_diag by lia. cbn. f_equal.
  apply List.filter_ext_in. intros i [_ Hi]%in_seq. by rewrite lookup_app_l by lia.
Qed.

Lemma members_elem cs k n g i :
  i ∈ members cs k n g <-> exists c, cs !! i = Some c /\ in_group k n g c = true.
Proof.
  unfold members. rewrite list_elem_of_In, List.filter_In, in_seq. split.
  - intros [_ H]. destruct (cs !! i) as [c|]; [by exists c|done].
  - intros (c & Hc & Hg). rewrite Hc. split; [|done]. apply lookup_lt_Some in Hc. lia.
Qed.

Lemma members_lt cs k n g i : i ∈ members cs k n g -> (i < length cs)%nat.
Proof. intros (c & Hc & _)%members_elem. by apply lookup_lt_Some in Hc. Qed.

Lemma weighted_app cs a b : weighted cs (a ++ b) = weighted cs a ++ weighted cs b.
Proof. apply omap_app. Qed.

Lemma weighted_snoc cs c ix : Forall (fun i => (i < length cs)%nat) ix -> weighted (cs ++ [c]) ix = weighted cs ix.
Proof.
  induction 1 as [|i ix Hi _ IH]; [done|]. unfold weighted in *. cbn. rewrite lookup_app_l by done.
  destruct (cs !! i) as [d|]; cbn; [|exact IH]. destruct (traffic_weight d); cbn; by rewrite ?IH.
Qed.

Lemma cumulate_app acc a b :
  cumulate acc (a ++ b) = cumulate acc a ++ cumulate (acc + sumN a.*2) b.
Proof.
  revert acc. induction a as [|[i w] a IH]; intros acc; cbn.
  - by rewrite sumN_nil, N.add_0_r.
  - rewrite IH, sumN_cons. do 3 f_equal. lia.
Qed.

Lemma weighted_last cs c :
  weighted (cs ++ [c]) [length cs] = match traffic_weight c with Some w => [(length cs, w)] | None => [] end.
Proof.
  unfold weighted. cbn. rewrite lookup_app_r, Nat.sub_diag by lia. cbn. by destruct (traffic_weight c).
Qed.

Lemma in_group_capability k n g c : in_group k n g c = true -> in_capability k n c = true.
Proof. by intros [? _]%andb_true_iff. Qed.

Lemma in_capability_spec k n c : in_capability k n c = true <-> kind c = k /\ name c = n.
Proof. unfold in_capability. rewrite andb_true_iff, !bool_decide_eq_true. done. Qed.

Lemma in_group_spec k n g c :
  in_group k n g c = true <-> kind c = k /\ name c = n /\ selection_group c = Some g.
Proof. unfold in_group. rewrite andb_true_iff, in_capability_spec, bool_decide_eq_true. naive_solver. Qed.

Lemma indexes_lt cs k n j g : group_ok cs k n j g -> Forall (fun i => (i < length cs)%nat) (candidate_indexes g).
Proof. intros H. rewrite (ok_indexes _ _ _ _ _ H). apply Forall_forall. intros i. apply members_lt. Qed.

(** A candidate outside the group leaves the description of the group intact. *)
Lemma group_ok_snoc cs c k n j g :
  in_group k n j c = false -> group_ok cs k n j g -> group_ok (cs ++ [c]) k n j g.
Proof.
  intros Hc H. pose proof (indexes_lt _ _ _ _ _ H) as Hlt. destruct H as [H1 H2 H3 H4 H5 H6 H7].
  constructor; rewrite ?(weighted_snoc _ _ _ Hlt); try done.
  - by rewrite members_snoc, Hc, app_nil_r.
  - intros i d Hi. rewrite lookup_app_l; [by apply H4|]. rewrite Forall_forall in Hlt. by apply Hlt.
Qed.

Lemma append_weight_spec g i c g' :
  append_weight g i c = Ok g' ->
  number g' = number g /\ g_admission_state g' = g_admission_state g /\ candidate_indexes g' = candidate_indexes g /\
  next g' = next g /\
  match traffic_weight c with
  | None => weighted_entries g' = weighted_entries g /\ total_weight g' = total_weight g
  | Some w => weighted_entries g' = weighted_entries g ++ [mkWeighted i (total_weight g + w)] /\
              total_weight g' = total_weight g + w /\ 1 <= w <= 1000
  end.
Proof.
  unfold append_weight. destruct (traffic_weight c) as [w|]; [|by intros [= <-]].
  destruct (_ && _) eqn:Hw; cbn; [|done]. destruct (u64_max <? _); [done|]. intros [= <-]. cbn.
  apply andb_true_iff in Hw as [?%N.leb_le ?%N.leb_le]. by split_and!.
Qed.

(** Adding the next candidate to a described group. *)
Lemma group_ok_grow cs c k n j g g' :
  in_group k n j c = true ->
  number g = j ->
  candidate_indexes g = members (cs ++ [c]) k n j ->
  g_admission_state g = admission_state c ->
  (forall i d, i ∈ members cs k n j -> cs !! i = Some d -> admission_state d = admission_state c) ->
  weighted_entries g = cumulate 0 (weighted cs (members cs k n j)) ->
  total_weight g = sumN (weighted cs (members cs k n j)).*2 ->
  Forall (fun w => 1 <= w <= 1000) (weighted cs (members cs k n j)).*2 ->
  append_weight g (length cs) c = Ok g' ->
  group_ok (cs ++ [c]) k n j g'.
Proof.
  intros Hc Hn Hi Ha Hm He Ht Hw (E1 & E2 & E3 & _ & E5)%append_weight_spec.
  rewrite members_snoc, Hc in Hi.
  assert (Forall (fun i => (i < length cs)%nat) (members cs k n j)) as Hlt.
  { apply Forall_forall. intros i. apply members_lt. }
  assert (weighted (cs ++ [c]) (candidate_indexes g')
          = weighted cs (members cs k n j) ++ match traffic_weight c with Some w => [(length cs, w)] | None => [] end) as Hwt.
  { rewrite E3, Hi, weighted_app, weighted_last, weighted_snoc by done. done. }
  constructor; rewrite ?Hwt.
  - by rewrite E1.
  - by rewrite E3, Hi, members_snoc, Hc.
  - rewrite E3, Hi. by destruct (members cs k n j).
  - intros i d. rewrite E3, Hi, E2, Ha, elem_of_app, list_elem_of_singleton. intros [Him| ->].
    + rewrite lookup_app_l by (by eapply members_lt). by apply Hm.
    + rewrite lookup_app_r, Nat.sub_diag by lia. cbn. by intros [= ->].
  - destruct (traffic_weight c) as [w|]; [|by rewrite app_nil_r; destruct E5 as [-> _]].
    destruct E5 as (-> & _ & _). rewrite cumulate_app, He, Ht. done.
  - destruct (traffic_weight c) as [w|]; [|by rewrite app_nil_r; destruct E5 as [_ ->]].
    destruct E5 as (_ & -> & _). rewrite fmap_app, sumN_app, Ht. cbn. rewrite sumN_cons, sumN_nil. lia.
  - rewrite fmap_app. apply Forall_app_2; [done|].
    destruct (traffic_weight c) as [w|]; [|constructor]. cbn. constructor; [by apply E5|constructor].
Qed.

Lemma groups_upto_none cs k n : (forall c, c ∈ cs -> in_capability k n c = false) -> groups_upto cs k n [].
Proof.
  intros H. constructor; [done|..].
  - intros c j Hc Hj%in_group_capability. by rewrite H in Hj.
  - intros c Hc Hj. by rewrite H in Hj.
Qed.

Section AddCandidate.
Context (cs : list RouteCandidate) (c : RouteCandidate) (num : N).
Context (Hnum : selection_group c = Some num).
Abbreviation k := (kind c).
Abbreviation n := (name c).

Lemma in_group_self j : in_group k n j c = bool_decide (j = num).
Proof.
  apply eq_bool_prop_intro. rewrite !Is_true_true, in_group_spec, bool_decide_eq_true, Hnum. naive_solver.
Qed.

Lemma in_group_own : in_group k n num c = true.
Proof. rewrite in_group_self. by apply bool_decide_eq_true. Qed.

Lemma grouped_snoc :
  (forall d, d ∈ cs -> in_capability k n d = true -> is_Some (selection_group d)) ->
  forall d, d ∈ cs ++ [c] -> in_capability k n d = true -> is_Some (selection_group d).
Proof.
  intros H d [Hd|Hd]%elem_of_app; [by apply H|]. apply list_elem_of_singleton in Hd as ->. by rewrite Hnum.
Qed.

Lemma bound_snoc m m' :
  (forall d j, d ∈ cs -> in_group k n j d = true -> j < m) -> m <= m' -> num < m' ->
  forall d j, d ∈ cs ++ [c] -> in_group k n j d = true -> j < m'.
Proof.
  intros H Hm Hn d j [Hd|Hd]%elem_of_app Hj; [specialize (H d j Hd Hj); lia|].
  apply list_elem_of_singleton in Hd as ->. rewrite in_group_self in Hj. apply bool_decide_eq_true in Hj. lia.
Qed.

(** The candidate opens the next group. *)
Lemma groups_new gs g :
  groups_upto cs k n gs -> num = nlength gs ->
  append_weight (mkGroup num (admission_state c) [length cs] [] 0 0) (length cs) c = Ok g ->
  groups_upto (cs ++ [c]) k n (gs ++ [g]).
Proof.
  intros [Hok Hb Hg] Hn Happ.
  assert (members cs k n num = []) as Hm.
  { destruct (members cs k n num) as [|i ix] eqn:E; [done|].
    assert (i ∈ members cs k n num) as (d & Hd & Hdg)%members_elem by (rewrite E; by left).
    apply Hb in Hdg; [lia|]. by eapply list_elem_of_lookup_2. }
  constructor; [|eapply bound_snoc; [exact Hb|unfold nlength in *; rewrite length_app; cbn; lia..]|by apply grouped_snoc].
  intros j g0 Hj. unfold nlength in Hn. destruct (decide (j < length gs)%nat) as [Hlt|Hge].
  - rewrite lookup_app_l in Hj by done. apply group_ok_snoc; [|by apply Hok].
    rewrite in_group_self. apply bool_decide_eq_false. lia.
  - rewrite lookup_app_r in Hj by lia. destruct (j - _)%nat eqn:Ej; [|done]. injection Hj as <-.
    replace (N.of_nat j) with num by lia.
    eapply group_ok_grow; [exact in_group_own| | | | | | | |exact Happ]; cbn;
      rewrite ?members_snoc, ?Hm, ?in_group_own; try done.
    intros i d Hi. by apply not_elem_of_nil in Hi.
Qed.

(** The candidate joins the last group. *)
Lemma groups_join gs g g' :
  groups_upto cs k n (gs ++ [g]) -> num = nlength gs -> g_admission_state g = admission_state c ->
  append_weight (push_index g (length cs)) (length cs) c = Ok g' ->
  groups_upto (cs ++ [c]) k n (gs ++ [g']).
Proof.
  intros [Hok Hb Hg] Hn Hadm Happ.
  assert (group_ok cs k n num g) as [H1 H2 H3 H4 H5 H6 H7].
  { rewrite Hn. apply Hok. by rewrite lookup_app_r, Nat.sub_diag by lia. }
  constructor; [|eapply bound_snoc; [exact Hb|unfold nlength in *; rewrite !length_app; cbn; lia..]|by apply grouped_snoc].
  intros j g0 Hj. unfold nlength in Hn. destruct (decide (j < length gs)%nat) as [Hlt|Hge].
  - rewrite lookup_app_l in Hj by done. apply group_ok_snoc; [|apply Hok; by rewrite lookup_app_l].
    rewrite in_group_self. apply bool_decide_eq_false. lia.
  - rewrite lookup_app_r in Hj by lia. destruct (j - _)%nat eqn:Ej; [|done]. injection Hj as <-.
    replace (N.of_nat j) with num by lia.
    eapply group_ok_grow; [exact in_group_own| | | | | | | |exact Happ]; cbn; rewrite ?H2 in *; try done.
    + by rewrite members_snoc, in_group_own.
    + intros i d Hi Hd. rewrite <- Hadm. by apply (H4 i).
Qed.

(** The entry of a capability after its next candidate. *)
Lemma add_to_groups_ok gs gs' :
  groups_upto cs k n gs -> nlength gs <= u32_max + 1 ->
  add_to_groups gs (length cs) c num = Ok gs' ->
  groups_ok (cs ++ [c]) k n gs'.
Proof.
  intros Hgs Hu. unfold add_to_groups. destruct (last gs) as [g|] eqn:Hlast.
  - apply last_Some in Hlast as [gs0 ->].
    assert (number g = nlength gs0) as Hng.
    { apply (ok_number cs k n). apply Hgs. by rewrite lookup_app_r, Nat.sub_diag by lia. }
    unfold nlength in *. rewrite length_app in Hu. cbn [length] in Hu.
    destruct (N.eqb_spec (number g) num) as [Heq|Hne].
    + destruct (bool_decide _) eqn:Hadm; cbn; [|done]. apply bool_decide_eq_true in Hadm.
      destruct (append_weight _ _ _) as [g'|] eqn:Hg'; [|done]. intros [= <-]. rewrite removelast_last.
      split; [|split; [by destruct gs0|unfold nlength; rewrite length_app; cbn; lia]].
      eapply groups_join; [exact Hgs|unfold nlength; lia|done..].
    + destruct (N.eqb_spec num (N.min (number g + 1) u32_max)) as [Heq|]; cbn; [|done].
      destruct (append_weight _ _ _) as [g'|] eqn:Hg'; [|done]. intros [= <-].
      split; [|split; [by destruct gs0|unfold nlength; rewrite !length_app; cbn; lia]].
      apply groups_new; [done| |done]. unfold nlength. rewrite length_app. cbn. lia.
  - apply last_None in Hlast as ->. destruct (N.eqb_spec num 0) as [Hz|]; cbn; [|done].
    destruct (append_weight _ _ _) as [g'|] eqn:Hg'; [|done]. intros [= <-].
    split; [|by split]. by apply (groups_new [] g').
Qed.
End AddCandidate.

(** Candidates and index after some prefix of the loop; [mode] tells grouped
    from ungrouped capabilities. *)
Definition loop_ok (cs : list RouteCandidate) (idx : GroupIndex) (mode : gmap (CapabilityKind * string) bool) : Prop :=
  forall k n,
    match mode !! (k, n) with
    | None => groups_of idx k n = None /\ forall c, c ∈ cs -> in_capability k n c = false
    | Some false => groups_of idx k n = None /\
                    forall c, c ∈ cs -> in_capability k n c = true -> selection_group c = None
    | Some true => exists gs, groups_of idx k n = Some gs /\ groups_ok cs k n gs
    end.

Lemma other_capability cs c k n (P : RouteCandidate -> Prop) :
  (k, n) <> (kind c, name c) ->
  (forall d, d ∈ cs -> in_capability k n d = true -> P d) ->
  forall d, d ∈ cs ++ [c] -> in_capability k n d = true -> P d.
Proof.
  intros Hne H d [Hd|Hd]%elem_of_app Hc; [by apply H|]. apply list_elem_of_singleton in Hd as ->.
  apply in_capability_spec in Hc as [<- <-]. done.
Qed.

Lemma other_group k n c j : (k, n) <> (kind c, name c) -> in_group k n j c = false.
Proof.
  intros Hne. apply not_true_is_false. intros (? & ? & _)%in_group_spec. naive_solver.
Qed.

Lemma groups_ok_other cs c k n gs :
  (k, n) <> (kind c, name c) -> groups_ok cs k n gs -> groups_ok (cs ++ [c]) k n gs.
Proof.
  intros Hne [[Hok Hb Hg] H]. split; [|done]. constructor; [..|by apply other_capability].
  - intros j g Hj. apply group_ok_snoc; [by apply other_group|by apply Hok].
  - intros d j [Hd|Hd]%elem_of_app Hj; [by apply (Hb d)|]. apply list_elem_of_singleton in Hd as ->.
    by rewrite other_group in Hj.
Qed.

Lemma loop_ok_other cs c k n idx mode :
  (k, n) <> (kind c, name c) -> loop_ok cs idx mode ->
  match mode !! (k, n) with
  | None => groups_of idx k n = None /\ forall d, d ∈ cs ++ [c] -> in_capability k n d = false
  | Some false => groups_of idx k n = None /\
                  forall d, d ∈ cs ++ [c] -> in_capability k n d = true -> selection_group d = None
  | Some true => exists gs, groups_of idx k n = Some gs /\ groups_ok (cs ++ [c]) k n gs
  end.
Proof.
  intros Hne H. specialize (H k n). destruct (mode !! (k, n)) as [[|]|].
  - destruct H as (gs & Hgs & Hok). exists gs. split; [done|by apply groups_ok_other].
  - split; [apply H|]. apply other_capability; [done|apply H].
  - split; [apply H|]. intros d Hd. apply not_true_is_false. intros Hc. destruct H as [_ H].
    revert d Hd Hc. apply (other_capability cs c k n (fun _ => False)); [done|].
    intros d Hd Hc. by rewrite H in Hc.
Qed.

Lemma build_step_ok cs c idx mode idx' mode' :
  loop_ok cs idx mode -> build_step idx mode (length cs) c = Ok (idx', mode') -> loop_ok (cs ++ [c]) idx' mode'.
Proof.
  intros Hinv. unfold build_step. case_bool_decide as Hprev; [done|].
  pose proof (Hinv (kind c) (name c)) as Hown. destruct (selection_group c) as [num|] eqn:Hsel.
  - rewrite bool_decide_eq_true_2 in Hprev by done. cbn in Hprev.
    destruct (add_to_groups _ _ _ _) as [gs'|] eqn:Hadd; [|done]. intros [= <- <-].
    assert (groups_ok (cs ++ [c]) (kind c) (name c) gs') as Hok.
    { revert Hadd. apply add_to_groups_ok; [done|..]; destruct (mode !! _) as [[|]|]; try done.
      - destruct Hown as (gs & -> & [? _]). done.
      - destruct Hown as [-> Hnone]. by apply groups_upto_none.
      - destruct Hown as (gs & -> & (_ & _ & ?)). done.
      - by destruct Hown as [-> _]. }
    intros k n. rewrite groups_of_set. destruct (decide ((k, n) = (kind c, name c))) as [[= -> ->]|Hne].
    + rewrite lookup_insert_eq, decide_True by done. by exists gs'.
    + rewrite lookup_insert_ne, decide_False by naive_solver. by apply loop_ok_other.
  - rewrite bool_decide_eq_false_2 in Hprev by (intros []; done). cbn in Hprev. intros [= <- <-].
    intros k n. destruct (decide ((k, n) = (kind c, name c))) as [[= -> ->]|Hne].
    + rewrite lookup_insert_eq. split.
      * destruct (mode !! _) as [[|]|]; [done|apply Hown..].
      * intros d [Hd|Hd]%elem_of_app Hc; [|by apply list_elem_of_singleton in Hd as ->].
        destruct (mode !! _) as [[|]|]; [done|by apply Hown|]. destruct Hown as [_ Hown]. by rewrite Hown in Hc.
    + rewrite lookup_insert_ne by naive_solver. by apply loop_ok_other.
Qed.

Lemma build_loop_ok pre cs idx mode idx' :
  loop_ok pre idx mode -> build_loop idx mode (length pre) cs = Ok idx' -> index_ok (pre ++ cs) idx'.
Proof.
  revert pre idx mode. induction cs as [|c cs IH]; intros pre idx mode Hinv; cbn.
  - intros [= <-]. rewrite app_nil_r. intros k n. specialize (Hinv k n).
    destruct (mode !! (k, n)) as [[|]|]; [by destruct Hinv as (gs & -> & ?)|by destruct Hinv as [-> ?]|].
    destruct Hinv as [-> H]. intros c Hc Hk. by rewrite H in Hk.
  - destruct (build_step _ _ _ _) as [[idx1 mode1]|] eqn:Hs; [|done]. intros Hb.
    rewrite cons_middle, app_assoc. apply (IH (pre ++ [c]) idx1 mode1); [by eapply build_step_ok|].
    rewrite length_app. cbn [length]. by rewrite Nat.add_1_r.
Qed.

Lemma build_index_ok cs idx : build cs = Ok idx -> index_ok cs idx.
Proof.
  apply (build_loop_ok []). intros k n. rewrite lookup_empty. split; [done|]. intros c Hc. by apply not_elem_of_nil in Hc.
Qed.

(** * Weighted draws *)

(** The position a draw selects in a list of weights. *)
Fixpoint pick (acc : N) (l : list (nat * N)) (d : N) : option nat :=
  match l with
  | [] => None
  | (i, w) :: l => if acc + w <=? d then pick (acc + w) l d else Some i
  end.

Lemma partition_pick acc l d :
  candidate_index <$> cumulate acc l !! partition_point (fun e => cumulative_upper_bound e <=? d) (cumulate acc l)
  = pick acc l d.
Proof.
  revert acc. induction l as [|[i w] l IH]; intros acc; [done|]. cbn. unfold partition_point in *. cbn.
  destruct (acc + w <=? d); [|done]. cbn. rewrite <- IH. by destruct (position _ _).
Qed.

Lemma pick_total acc l d :
  acc <= d -> d < acc + sumN l.*2 -> exists i, pick acc l d = Some i /\ i ∈ l.*1.
Proof.
  revert acc. induction l as [|[i w] l IH]; intros acc Hlo Hhi; cbn in *; [rewrite sumN_nil in Hhi; lia|].
  rewrite sumN_cons in Hhi. destruct (N.leb_spec (acc + w) d) as [Hle|Hlt].
  - destruct (IH (acc + w)) as (j & Hj & Hin); [lia..|]. exists j. split; [done|by right].
  - exists i. split; [done|by left].
Qed.

(** The integers from [a], [n] of them. *)
Definition range (a : N) (n : N) : list N := (fun x => a + N.of_nat x) <$> seq 0 (N.to_nat n).

Lemma range_app a n m : range a (n + m) = range a n ++ range (a + n) m.
Proof.
  unfold range. rewrite N2Nat.inj_add, seq_app, fmap_app. f_equal. cbn.
  replace (seq (N.to_nat n) (N.to_nat m)) with (Nat.add (N.to_nat n) <$> seq 0 (N.to_nat m))
    by (by rewrite fmap_add_seq, Nat.add_0_r).
  rewrite <- list_fmap_compose.
  apply list_fmap_ext. intros i x _. cbn. lia.
Qed.

Lemma range_elem a n d : d ∈ range a n <-> a <= d < a + n.
Proof.
  unfold range. rewrite list_elem_of_fmap. setoid_rewrite elem_of_seq. split.
  - intros (x & -> & Hx). lia.
  - intros H. exists (N.to_nat (d - a)). lia.
Qed.

Lemma range_length a n : length (range a n) = N.to_nat n.
Proof. unfold range. by rewrite length_fmap, length_seq. Qed.

(** How many draws of a range select a position. *)
Definition hits (f : N -> option nat) (i : nat) (ds : list N) : nat :=
  length (filter (fun d => f d = Some i) ds).

Lemma hits_app f i a b : hits f i (a ++ b) = (hits f i a + hits f i b)%nat.
Proof. unfold hits. by rewrite filter_app, length_app. Qed.

Lemma hits_const f i ds : (forall d, d ∈ ds -> f d = Some i) -> hits f i ds = length ds.
Proof.
  intros H. unfold hits. induction ds as [|d ds IH]; [done|]. rewrite filter_cons_True by (apply H; by left).
  cbn. f_equal. apply IH. intros e He. apply H. by right.
Qed.

Lemma hits_none f i ds : (forall d, d ∈ ds -> f d <> Some i) -> hits f i ds = 0%nat.
Proof.
  intros H. unfold hits. induction ds as [|d ds IH]; [done|]. rewrite filter_cons_False by (apply H; by left).
  apply IH. intros e He. apply H. by right.
Qed.

Lemma hits_ext f g i ds : (forall d, d ∈ ds -> f d = g d) -> hits f i ds = hits g i ds.
Proof.
  intros H. unfold hits. induction ds as [|d ds IH]; [done|]. rewrite !filter_cons, (H d) by (by left).
  assert (length (filter (fun d => f d = Some i) ds) = length (filter (fun d => g d = Some i) ds)) as IH'.
  { apply IH. intros e He. apply H. by right. }
  case_decide; cbn; by rewrite IH'.
Qed.

Lemma pick_hits acc l i w :
  NoDup l.*1 -> (i, w) ∈ l -> hits (pick acc l) i (range acc (sumN l.*2)) = N.to_nat w.
Proof.
  revert acc. induction l as [|[j v] l IH]; intros acc Hnd Hin; [by apply not_elem_of_nil in Hin|].
  cbn [fmap list_fmap fst snd] in Hnd |- *. rewrite sumN_cons, range_app, hits_app.
  apply NoDup_cons in Hnd as [Hj Hnd].
  assert (forall d, d ∈ range acc v -> pick acc ((j, v) :: l) d = Some j) as Hlo.
  { intros d [_ Hd]%range_elem. cbn. by rewrite (proj2 (N.leb_gt _ _)). }
  assert (forall d, d ∈ range (acc + v) (sumN l.*2) -> pick acc ((j, v) :: l) d = pick (acc + v) l d) as Hhi.
  { intros d [Hd _]%range_elem. cbn. by rewrite (proj2 (N.leb_le _ _)). }
  rewrite (hits_ext _ _ i _ Hhi). apply elem_of_cons in Hin as [[= -> ->]|Hin].
  - rewrite hits_const, range_length, hits_none; [lia| |done].
    intros d [Hd1 Hd2]%range_elem He. destruct (pick_total (acc + v) l d) as (x & Hx & Hxin); [done..|]. naive_solver.
  - rewrite (IH (acc + v)) by done. rewrite hits_none; [done|]. intros d Hd. rewrite Hlo by done. intros [= ->].
    apply Hj. apply list_elem_of_fmap. by exists (i, w).
Qed.

(** * Selection *)

(** [random_range(0..n)] answers below [n]. *)
Definition rng_ok (rng : N -> N) : Prop := forall n, 0 < n -> rng n < n.

(** What [validate_selection_mode] leaves: weighted selection only where every
    candidate is grouped and weighted. *)
Definition weights_ready (cs : list RouteCandidate) (policy : PickerPolicy) : Prop :=
  policy = WeightedRandom -> forall c, c ∈ cs -> is_Some (selection_group c) /\ is_Some (traffic_weight c).

Lemma group_ok_bump cs k n j g : group_ok cs k n j g -> group_ok cs k n j (bump g).
Proof. by intros []; constructor. Qed.

Lemma weighted_fst cs ix : (weighted cs ix).*1 `sublist_of` ix.
Proof.
  induction ix as [|i ix IH]; [done|]. unfold weighted in *. cbn. destruct (cs !! i) as [c|]; cbn; [|by constructor].
  destruct (traffic_weight c); cbn; by constructor.
Qed.

(** Every draw below the total weight selects a member of the group. *)
Lemma draw_selects cs k n j g d :
  group_ok cs k n j g -> d < total_weight g ->
  exists i, weighted_index_for_draw g d = Some i /\ i ∈ candidate_indexes g.
Proof.
  intros H Hd. unfold weighted_index_for_draw. rewrite (proj2 (N.leb_gt _ _) Hd).
  rewrite (ok_entries _ _ _ _ _ H), partition_pick. rewrite (ok_total _ _ _ _ _ H) in Hd.
  destruct (pick_total 0 (weighted cs (candidate_indexes g)) d) as (i & Hi & Hin); [lia..|].
  exists i. split; [done|]. by eapply elem_of_sublist, weighted_fst.
Qed.

Lemma total_positive cs k n j g :
  group_ok cs k n j g -> weights_ready cs WeightedRandom -> 0 < total_weight g.
Proof.
  intros H Hw. rewrite (ok_total _ _ _ _ _ H). destruct (candidate_indexes g) as [|i ix] eqn:Hix.
  { by destruct (ok_nonempty _ _ _ _ _ H). }
  assert (i ∈ members cs k n j) as (c & Hc & _)%members_elem.
  { rewrite <- (ok_indexes _ _ _ _ _ H), Hix. by left. }
  destruct (Hw eq_refl c) as [_ [w Hwt]]; [by eapply list_elem_of_lookup_2|].
  pose proof (ok_weights _ _ _ _ _ H) as Hall. rewrite Hix in Hall.
  unfold weighted in *. cbn in *. rewrite Hc in *. cbn in *. rewrite Hwt in *. cbn in *.
  apply Forall_cons in Hall as [Hw1 _]. rewrite sumN_cons. lia.
Qed.

Lemma choose_ok rng cs k n j g policy :
  group_ok cs k n j g -> rng_ok rng -> weights_ready cs policy ->
  exists i g', choose_candidate_index rng policy g = (Some i, g') /\ i ∈ candidate_indexes g /\ (g' = g \/ g' = bump g).
Proof.
  intros H Hr Hw. unfold choose_candidate_index, nlength.
  assert (0 < N.of_nat (length (candidate_indexes g))) as Hlen.
  { pose proof (ok_nonempty _ _ _ _ _ H). destruct (candidate_indexes g); [done|cbn; lia]. }
  rewrite (proj2 (N.eqb_neq _ _)) by lia.
  assert (forall x, x < N.of_nat (length (candidate_indexes g)) ->
          exists i, candidate_indexes g !! N.to_nat x = Some i /\ i ∈ candidate_indexes g) as Hget.
  { intros x Hx. destruct (lookup_lt_is_Some_2 (candidate_indexes g) (N.to_nat x)) as [i Hi]; [lia|].
    exists i. split; [done|]. by eapply list_elem_of_lookup_2. }
  destruct policy.
  - destruct (candidate_indexes g) as [|i ix] eqn:E; [done|]. exists i, g. split_and!; [done|by left|by left].
  - edestruct Hget as (i & -> & Hi); [by apply N.mod_lt; lia|]. exists i, (bump g). split_and!; [done..|by right].
  - edestruct Hget as (i & -> & Hi); [by apply Hr|]. exists i, g. split_and!; [done..|by left].
  - pose proof (total_positive _ _ _ _ _ H Hw) as Ht. rewrite (proj2 (N.eqb_neq _ _)) by lia.
    destruct (draw_selects _ _ _ _ _ (rng (total_weight g)) H) as (i & -> & Hi); [by apply Hr|].
    exists i, g. split_and!; [done..|by left].
Qed.

Lemma select_from_group_ok rng cs k n j g policy :
  group_ok cs k n j g -> rng_ok rng -> weights_ready cs policy ->
  exists r g', select_from_group rng cs g policy = (r, g') /\ (g' = g \/ g' = bump g) /\
    match r with
    | Some c => c ∈ cs /\ in_group k n j c = true /\ admission_state c = NewAndExisting
    | None => g_admission_state g <> NewAndExisting
    end.
Proof.
  intros H Hr Hw. unfold select_from_group. case_bool_decide as Hadm; cbn; [|by exists None, g; auto].
  destruct (choose_ok _ _ _ _ _ _ _ H Hr Hw) as (i & g' & -> & Hi & Hg). cbn.
  pose proof Hi as Him. rewrite (ok_indexes _ _ _ _ _ H) in Him. apply members_elem in Him as (c & Hc & Hin).
  exists (Some c), g'. rewrite Hc. split_and!; [done..|by eapply list_elem_of_lookup_2|done|].
  rewrite <- Hadm. by eapply ok_admission.
Qed.

(** Groups [gs] numbered from [o]. *)
Definition described (cs : list RouteCandidate) k n (o : N) (gs : list SelectionGroup) : Prop :=
  forall j g, gs !! j = Some g -> group_ok cs k n (o + N.of_nat j) g.

Lemma described_cons cs k n o g gs :
  described cs k n o (g :: gs) <-> group_ok cs k n o g /\ described cs k n (o + 1) gs.
Proof.
  unfold described. split.
  - intros H. split; [replace o with (o + N.of_nat 0) by lia; by apply H|].
    intros j g' Hj. replace (o + 1 + N.of_nat j) with (o + N.of_nat (S j)) by lia. by apply H.
  - intros [H1 H2] [|j] g'; cbn; [intros [= <-]; by rewrite N.add_0_r|]. intros Hj.
    replace (o + N.of_nat (S j)) with (o + 1 + N.of_nat j) by lia. by apply H2.
Qed.

Lemma select_from_groups_ok rng cs k n o gs policy :
  described cs k n o gs -> rng_ok rng -> weights_ready cs policy ->
  exists r gs', select_from_groups rng cs gs policy = (r, gs') /\
    described cs k n o gs' /\ length gs' = length gs /\
    match r with
    | Some (c, num) =>
        c ∈ cs /\ in_group k n num c = true /\ admission_state c = NewAndExisting /\
        forall j g, gs !! j = Some g -> g_admission_state g = NewAndExisting -> num <= o + N.of_nat j
    | None => forall g, g ∈ gs -> g_admission_state g <> NewAndExisting
    end.
Proof.
  intros Hd Hr Hw. revert o Hd. induction gs as [|g gs IH]; intros o Hd.
  { exists None, []. split_and!; [done..|]. intros g Hg. by apply not_elem_of_nil in Hg. }
  apply described_cons in Hd as [Hg Hgs]. cbn.
  destruct (select_from_group_ok _ _ _ _ _ _ _ Hg Hr Hw) as (r & g' & -> & Hg' & Hres).
  assert (group_ok cs k n o g') as Hgok by (destruct Hg' as [->| ->]; [done|by apply group_ok_bump]).
  destruct r as [c|].
  - exists (Some (c, number g')), (g' :: gs). rewrite (ok_number _ _ _ _ _ Hgok).
    split_and!; [done|by apply described_cons|done|apply Hres..|]. intros j g0 _ _. lia.
  - destruct (IH (o + 1) Hgs) as (r & gs' & -> & Hd' & Hlen & Hr'). exists r, (g' :: gs').
    split_and!; [done|by apply described_cons|by cbn; rewrite Hlen|].
    destruct r as [[c num]|].
    + destruct Hr' as (? & ? & ? & Hmin). split_and!; [done..|]. intros [|j] g0; cbn.
      * by intros [= ->].
      * intros Hj Ha. specialize (Hmin j g0 Hj Ha). lia.
    + intros g0 [->|Hg0]%elem_of_cons; [done|by apply Hr'].
Qed.

(** The outcome a request may get. *)
Definition first_viable (cs : list RouteCandidate) k n (r : option (RouteCandidate * option N)) : Prop :=
  match r with
  | Some (c, g) =>
      c ∈ cs /\ kind c = k /\ name c = n /\ admission_state c = NewAndExisting /\ selection_group c = g /\
      forall d, d ∈ cs -> in_capability k n d = true -> admission_state d = NewAndExisting ->
        from_option (fun x => exists y, selection_group d = Some y /\ x <= y) True g
  | None => forall d, d ∈ cs -> in_capability k n d = true -> admission_state d <> NewAndExisting
  end.

Lemma group_of_candidate cs k n gs d :
  groups_ok cs k n gs -> d ∈ cs -> in_capability k n d = true ->
  exists y g, selection_group d = Some y /\ gs !! N.to_nat y = Some g /\ g_admission_state g = admission_state d.
Proof.
  intros [[Hok Hb Hg] _] Hd Hc. destruct (Hg d Hd Hc) as [y Hy].
  assert (in_group k n y d = true) as Hin.
  { apply in_capability_spec in Hc as [? ?]. by apply in_group_spec. }
  specialize (Hb d y Hd Hin). unfold nlength in Hb.
  destruct (lookup_lt_is_Some_2 gs (N.to_nat y)) as [g Hgy]; [lia|].
  exists y, g. split_and!; [done..|]. specialize (Hok _ _ Hgy). rewrite N2Nat.id in Hok.
  apply list_elem_of_lookup_1 in Hd as [i Hi]. symmetry. apply (ok_admission _ _ _ _ _ Hok i); [|done].
  rewrite (ok_indexes _ _ _ _ _ Hok). apply members_elem. by exists d.
Qed.

Lemma select_candidate_ok rng cs idx k n policy :
  index_ok cs idx -> rng_ok rng -> weights_ready cs policy ->
  exists r idx', select_candidate rng cs idx k n policy = (r, idx') /\ index_ok cs idx' /\ first_viable cs k n r.
Proof.
  intros Hidx Hr Hw. unfold select_candidate. pose proof (Hidx k n) as Hkn.
  destruct (groups_of idx k n) as [gs|] eqn:Hgs.
  - destruct (select_from_groups_ok rng cs k n 0 gs policy) as (r & gs' & -> & Hd & Hlen & Hres);
      [intros j g Hj; rewrite N.add_0_l; by apply Hkn|done..|].
    eexists _, _. split; [done|]. split.
    + intros k' n'. rewrite groups_of_set. case_decide as E; [|apply Hidx]. destruct E as [-> ->].
      destruct Hkn as ([_ Hb Hg] & Hs & Hu). unfold nlength in *.
      split; [|split; [by destruct gs, gs'|unfold nlength; lia]].
      constructor; [intros j g Hj; specialize (Hd j g Hj); by rewrite N.add_0_l in Hd| |done].
      unfold nlength. by rewrite Hlen.
    + destruct r as [[c num]|]; cbn.
      * destruct Hres as (Hc & (? & ? & ?)%in_group_spec & Ha & Hmin). split_and!; [done..|].
        intros d Hd' Hcap Had. destruct (group_of_candidate _ _ _ _ _ Hkn Hd' Hcap) as (y & g & Hy & Hg & Hga).
        exists y. split; [done|]. specialize (Hmin _ _ Hg). rewrite Hga in Hmin. specialize (Hmin Had). lia.
      * intros d Hd' Hcap Had. destruct (group_of_candidate _ _ _ _ _ Hkn Hd' Hcap) as (y & g & _ & Hg & Hga).
        apply (Hres g); [by eapply list_elem_of_lookup_2|]. by rewrite Hga.
  - eexists _, _. split; [done|]. split; [done|]. unfold select_legacy.
    destruct (List.find _ cs) as [c|] eqn:Hf; cbn.
    + apply find_some in Hf as [Hc%list_elem_of_In Hp].
      apply andb_true_iff in Hp as [[Hk%bool_decide_eq_true Hn%bool_decide_eq_true]%andb_true_iff Ha%bool_decide_eq_true].
      split_and!; [done..|apply Hkn; [done|by apply in_capability_spec]|done].
    + intros d Hd Hcap Ha. apply list_elem_of_In in Hd. pose proof (find_none _ _ Hf d Hd) as Hp. cbn in Hp.
      apply in_capability_spec in Hcap as [Hk Hn]. by rewrite !bool_decide_eq_true_2 in Hp.
Qed.

(** * Sequences of requests *)

(** A request for a capability, with the random numbers drawn for it. *)
Abbreviation Request := (CapabilityKind * string * (N -> N))%type.

(** Requests served one after the other from one snapshot. *)
Fixpoint serve (cs : list RouteCandidate) (policy : PickerPolicy) (idx : GroupIndex) (reqs : list Request)
    : list (option (RouteCandidate * option N)) * GroupIndex :=
  match reqs with
  | [] => ([], idx)
  | (k, n, rng) :: reqs =>
      let '(r, idx) := select_candidate rng cs idx k n policy in
      let '(rs, idx) := serve cs policy idx reqs in (r :: rs, idx)
  end.

Lemma serve_ok cs policy idx reqs :
  index_ok cs idx -> weights_ready cs policy -> Forall (fun q => rng_ok q.2) reqs ->
  Forall2 (fun (q : Request) r => first_viable cs q.1.1 q.1.2 r) reqs (serve cs policy idx reqs).1.
Proof.
  intros Hidx Hw Hr. revert idx Hidx. induction Hr as [|[[k n] rng] reqs Hq _ IH]; intros idx Hidx; cbn; [constructor|].
  destruct (select_candidate_ok rng cs idx k n policy Hidx Hq Hw) as (r & idx' & -> & Hidx' & Hv).
  specialize (IH idx' Hidx'). destruct (serve cs policy idx' reqs). by constructor.
Qed.

(** C39. Whatever requests were served before from the same snapshot, under every
    policy and all random numbers, a request gets a candidate of its capability
    that admits new sessions, from the lowest-numbered group that has one, and it
    gets none exactly when no candidate of the capability admits new sessions. *)
Theorem selection_first_viable cs idx policy reqs :
  build cs = Ok idx -> weights_ready cs policy -> Forall (fun q => rng_ok q.2) reqs ->
  Forall2 (fun (q : Request) r => first_viable cs q.1.1 q.1.2 r) reqs (serve cs policy idx reqs).1.
Proof. intros Hb%build_index_ok. by apply serve_ok. Qed.

(** ** Weighted draws *)

Lemma members_NoDup cs k n g : NoDup (members cs k n g).
Proof. unfold members. apply NoDup_ListNoDup, List.NoDup_filter, List.seq_NoDup. Qed.

(** Weighted selection is exact: over the draws below a group's total weight
    each candidate is selected by as many draws as its traffic weight, and every
    draw selects a member of the group. *)
Theorem weighted_draws_exact cs idx k n gs g i c w :
  build cs = Ok idx -> groups_of idx k n = Some gs -> g ∈ gs ->
  i ∈ candidate_indexes g -> cs !! i = Some c -> traffic_weight c = Some w ->
  hits (weighted_index_for_draw g) i (range 0 (total_weight g)) = N.to_nat w /\
  forall d, d < total_weight g -> exists i', weighted_index_for_draw g d = Some i' /\ i' ∈ candidate_indexes g.
Proof.
  intros Hb%build_index_ok Hgs Hg Hi Hc Hw. specialize (Hb k n). rewrite Hgs in Hb.
  apply list_elem_of_lookup_1 in Hg as [j Hj]. destruct Hb as [[Hok _ _] _]. specialize (Hok _ _ Hj).
  split; [|by intros d; eapply draw_selects].
  rewrite (ok_total _ _ _ _ _ Hok). rewrite <- (pick_hits 0 (weighted cs (candidate_indexes g)) i w).
  - apply hits_ext. intros d [_ Hd]%range_elem. rewrite N.add_0_l, <- (ok_total _ _ _ _ _ Hok) in Hd.
    unfold weighted_index_for_draw. rewrite (proj2 (N.leb_gt _ _) Hd), (ok_entries _ _ _ _ _ Hok). apply partition_pick.
  - eapply sublist_NoDup; [|apply weighted_fst]. rewrite (ok_indexes _ _ _ _ _ Hok). apply members_NoDup.
  - unfold weighted. apply list_elem_of_omap. exists i. split; [done|]. by rewrite Hc; cbn; rewrite Hw.
Qed.

(** ** Round robin *)

(** The answers to the requests for one capability. *)
Definition picks (k : CapabilityKind) (n : string) (reqs : list Request)
    (rs : list (option (RouteCandidate * option N))) : list (option (RouteCandidate * option N)) :=
  (filter (fun qr => qr.1.1 = (k, n)) (zip reqs rs)).*2.

Section RoundRobin.
Context (cs : list RouteCandidate) (k : CapabilityKind) (n : string).
Context (pre post : list SelectionGroup) (g : SelectionGroup).
Context (Hpre : Forall (fun h => g_admission_state h <> NewAndExisting) pre).
Context (Hg : g_admission_state g = NewAndExisting).
Context (Hmem : Forall (fun i => is_Some (cs !! i)) (candidate_indexes g)).
Context (Hne : candidate_indexes g <> []).

(** The counter of the first viable group is the number of requests served. *)
Definition rotated (idx : GroupIndex) (j : N) : Prop :=
  groups_of idx k n = Some (pre ++ mkGroup (number g) (g_admission_state g) (candidate_indexes g)
                                     (weighted_entries g) (total_weight g) j :: post).

Definition expected (j : N) : option (RouteCandidate * option N) :=
  i ← candidate_indexes g !! N.to_nat (j mod nlength (candidate_indexes g)); c ← cs !! i; Some (c, Some (number g)).

Lemma skip_closed rng gs policy :
  Forall (fun h => g_admission_state h <> NewAndExisting) gs ->
  forall rest, select_from_groups rng cs (gs ++ rest) policy =
    let '(r, rest) := select_from_groups rng cs rest policy in (r, gs ++ rest).
Proof.
  induction 1 as [|h gs Hh _ IH]; intros rest; cbn; [by destruct (select_from_groups _ _ _ _)|].
  unfold select_from_group. rewrite bool_decide_eq_false_2 by done. cbn. rewrite IH.
  by destruct (select_from_groups _ _ _ _).
Qed.

Lemma rotated_step idx j rng :
  rotated idx j -> exists idx', select_candidate rng cs idx k n RoundRobin = (expected j, idx') /\ rotated idx' (wrapping_add j 1).
Proof.
  intros H. unfold select_candidate. rewrite H, skip_closed by done. cbn -[N.modulo].
  unfold select_from_group, choose_candidate_index. cbn -[N.modulo]. rewrite bool_decide_eq_true_2 by done. cbn -[N.modulo].
  assert (0 < nlength (candidate_indexes g)) as Hlen.
  { unfold nlength. destruct (candidate_indexes g); [done|cbn; lia]. }
  rewrite (proj2 (N.eqb_neq _ _)) by lia. unfold expected.
  destruct (lookup_lt_is_Some_2 (candidate_indexes g) (N.to_nat (j mod nlength (candidate_indexes g)))) as [i Hi].
  { unfold nlength in *. pose proof (N.mod_lt j (N.of_nat (length (candidate_indexes g)))). lia. }
  rewrite Hi. cbn -[N.modulo]. rewrite Forall_forall in Hmem.
  destruct (Hmem i) as [c Hc]; [by eapply list_elem_of_lookup_2|]. rewrite Hc. cbn.
  eexists. split; [done|]. unfold rotated. by rewrite groups_of_set, decide_True.
Qed.

Lemma rotated_other idx j rng k' n' policy :
  (k', n') <> (k, n) -> rotated idx j -> rotated (select_candidate rng cs idx k' n' policy).2 j.
Proof.
  intros Hkn H. unfold select_candidate. destruct (groups_of idx k' n') as [gs|]; [|done].
  destruct (select_from_groups rng cs gs policy) as [r gs']. cbn. unfold rotated.
  rewrite groups_of_set, decide_False by naive_solver. done.
Qed.

Lemma picks_cons q (r : option (RouteCandidate * option N)) reqs rs :
  picks k n (q :: reqs) (r :: rs) = (if decide (q.1 = (k, n)) then [r] else []) ++ picks k n reqs rs.
Proof.
  unfold picks. change (zip (q :: reqs) (r :: rs)) with ((q, r) :: zip reqs rs).
  rewrite filter_cons. cbn. by case_decide.
Qed.

Lemma rotation reqs idx j :
  rotated idx j -> j + nlength reqs <= u64_max ->
  forall i r, picks k n reqs (serve cs RoundRobin idx reqs).1 !! i = Some r -> r = expected (j + N.of_nat i).
Proof.
  revert idx j. induction reqs as [|[[k' n'] rng] reqs IH]; intros idx j Hrot Hj; [done|].
  unfold nlength in *. cbn [length] in Hj. cbn [serve].
  destruct (decide ((k', n') = (k, n))) as [[= -> ->]|Hkn].
  - destruct (rotated_step idx j rng Hrot) as (idx' & -> & Hrot').
    rewrite wrapping_add_exact in Hrot' by lia. specialize (IH idx' (j + 1) Hrot').
    destruct (serve cs RoundRobin idx' reqs) as [rs idx'']. cbn [fst]. rewrite picks_cons. cbn [fst].
    rewrite decide_True by done. intros [|i] r; cbn.
    + intros [= <-]. by rewrite N.add_0_r.
    + intros Hr. rewrite (IH ltac:(lia) i r Hr). f_equal. lia.
  - pose proof (rotated_other idx j rng k' n' RoundRobin Hkn Hrot) as Hrot'.
    destruct (select_candidate rng cs idx k' n' RoundRobin) as [r idx']. cbn in Hrot'. specialize (IH idx' j Hrot').
    destruct (serve cs RoundRobin idx' reqs) as [rs idx'']. cbn [fst]. rewrite picks_cons. cbn [fst].
    rewrite decide_False by done. intros i r'. cbn [app]. apply IH. lia.
Qed.
End RoundRobin.

(** The groups of a fresh index have their counters at zero. *)
Definition counters_zero (idx : GroupIndex) : Prop :=
  forall k n gs, groups_of idx k n = Some gs -> Forall (fun g => next g = 0) gs.

Lemma add_to_groups_zero gs i c num gs' :
  Forall (fun g => next g = 0) gs -> add_to_groups gs i c num = Ok gs' -> Forall (fun g => next g = 0) gs'.
Proof.
  intros Hz. unfold add_to_groups. cbv zeta.
  assert (forall g, append_weight (mkGroup num (admission_state c) [i] [] 0 0) i c = Ok g ->
          Forall (fun g => next g = 0) (gs ++ [g])) as Hnew.
  { intros g (_ & _ & _ & E & _)%append_weight_spec. apply Forall_app_2; [done|]. by constructor. }
  destruct (last gs) as [g|] eqn:Hl.
  - apply last_Some in Hl as [gs0 ->]. apply Forall_app in Hz as [Hz0 Hzg]. destruct (number g =? num).
    + destruct (negb _); [done|]. destruct (append_weight (push_index _ _) _ _) as [g'|] eqn:E; [|done]. intros [= <-].
      rewrite removelast_last. apply append_weight_spec in E as (_ & _ & _ & E & _).
      apply Forall_app_2; [done|]. constructor; [|constructor]. rewrite E. by inversion Hzg.
    + destruct (negb _); [done|]. destruct (append_weight _ _ _) as [g'|] eqn:E; [|done]. intros [= <-]. by apply Hnew.
  - destruct (negb _); [done|]. destruct (append_weight _ _ _) as [g'|] eqn:E; [|done]. intros [= <-]. by apply Hnew.
Qed.

Lemma build_counters_zero cs idx : build cs = Ok idx -> counters_zero idx.
Proof.
  unfold build. assert (counters_zero ∅) as H0 by done. revert H0. generalize (∅ : GroupIndex) as i0.
  generalize (∅ : gmap (CapabilityKind * string) bool). generalize 0%nat.
  induction cs as [|c cs IH]; intros i mode i0 H0; cbn; [by intros [= <-]|].
  destruct (build_step _ _ _ _) as [[i1 m1]|] eqn:Hs; [|done]. apply IH.
  unfold build_step in Hs. case_bool_decide; [done|]. destruct (selection_group c) as [num|]; [|by injection Hs as <- <-].
  destruct (add_to_groups _ _ _ _) as [gs'|] eqn:Ha; [|done]. injection Hs as <- <-.
  intros k n gs. rewrite groups_of_set. case_decide as E; [|apply H0]. destruct E as [-> ->]. intros [= <-].
  eapply add_to_groups_zero; [|exact Ha]. destruct (groups_of i0 (kind c) (name c)) as [gs|] eqn:E; [|constructor].
  by eapply H0.
Qed.

(** Round robin rotates: with requests for other capabilities interleaved in
    any way, the [i]-th request for a capability goes to the member [i] modulo the
    size of its first group that admits new sessions. *)
Theorem round_robin_rotates cs idx k n pre g post reqs i r :
  build cs = Ok idx -> groups_of idx k n = Some (pre ++ g :: post) ->
  Forall (fun h => g_admission_state h <> NewAndExisting) pre -> g_admission_state g = NewAndExisting ->
  nlength reqs <= u64_max ->
  picks k n reqs (serve cs RoundRobin idx reqs).1 !! i = Some r ->
  exists m c, candidate_indexes g !! (i mod length (candidate_indexes g))%nat = Some m /\ cs !! m = Some c /\
    r = Some (c, Some (number g)).
Proof.
  intros Hb Hgs Hpre Hg Hlen Hr. pose proof (build_counters_zero _ _ Hb _ _ _ Hgs) as Hz.
  apply build_index_ok in Hb. specialize (Hb k n). rewrite Hgs in Hb.
  destruct Hb as [[Hok _ _] _]. specialize (Hok (length pre) g). rewrite lookup_app_r, Nat.sub_diag in Hok by lia.
  specialize (Hok eq_refl). pose proof (ok_nonempty _ _ _ _ _ Hok) as Hne.
  assert (Forall (fun i => is_Some (cs !! i)) (candidate_indexes g)) as Hmem.
  { rewrite Forall_forall. intros m. rewrite (ok_indexes _ _ _ _ _ Hok). intros (c & -> & _)%members_elem. done. }
  apply (rotation cs k n pre post g Hpre Hg Hmem Hne reqs idx 0) in Hr; [| |lia].
  - unfold expected, nlength in Hr. rewrite N.add_0_l, <- Nat2N.inj_mod, Nat2N.id in Hr.
    destruct (lookup_lt_is_Some_2 (candidate_indexes g) (i mod length (candidate_indexes g))%nat) as [m Hm].
    { apply Nat.mod_upper_bound. by destruct (candidate_indexes g). }
    rewrite Hm in Hr. cbn in Hr. rewrite Forall_forall in Hmem.
    destruct (Hmem m) as [c Hc]; [by eapply list_elem_of_lookup_2|]. rewrite Hc in Hr. by exists m, c.
  - unfold rotated. rewrite Hgs. do 3 f_equal. apply Forall_app in Hz as [_ Hz]. apply Forall_cons in Hz as [Hz _].
    destruct g. cbn in *. by subst.
Qed.

(** * Concrete instances *)

Definition sample_candidate (cl : string) (g : N) (adm : AdmissionState) (w : option N) : RouteCandidate :=
  mkCandidate adm cl None None None None None None None None true InferenceModel "model" None (Some g) w None "site" cl.

Definition sample_candidates : list RouteCandidate :=
  [sample_candidate "draining" 0 ExistingOnly (Some 5); sample_candidate "a" 1 NewAndExisting (Some 2);
   sample_candidate "b" 1 NewAndExisting (Some 3)].

Definition sample_index : GroupIndex := match build sample_candidates with Ok i => i | Err _ => ∅ end.
Definition sample_groups : list SelectionGroup := default [] (groups_of sample_index InferenceModel "model").
Definition sample_group : SelectionGroup := default (mkGroup 0 Excluded [] [] 0 0) (sample_groups !! 1%nat).

Lemma selection_first_viable_witness :
  exists rs, (serve sample_candidates WeightedRandom sample_index [(InferenceModel, "model"%string, fun _ => 0)]).1 = rs /\
  Forall2 (fun (q : Request) r => first_viable sample_candidates q.1.1 q.1.2 r) [(InferenceModel, "model"%string, fun _ => 0)] rs.
Proof.
  eexists. split; [reflexivity|].
  apply (selection_first_viable sample_candidates sample_index WeightedRandom [(InferenceModel, "model"%string, fun _ => 0)]).
  - vm_compute. reflexivity.
  - intros _ c Hc. unfold sample_candidates in Hc. repeat (apply elem_of_cons in Hc as [->|Hc]; [split; eexists; reflexivity|]).
    by apply not_elem_of_nil in Hc.
  - constructor; [intros n Hn; exact Hn|constructor].
Defined.

Lemma weighted_draws_exact_witness :
  hits (weighted_index_for_draw sample_group) 2 (range 0 (total_weight sample_group)) = 3%nat.
Proof.
  refine (proj1 (weighted_draws_exact sample_candidates sample_index InferenceModel "model" sample_groups sample_group 2
            (sample_candidate "b" 1 NewAndExisting (Some 3)) 3 _ _ _ _ _ _)).
  - vm_compute. reflexivity.
  - vm_compute. reflexivity.
  - apply (list_elem_of_lookup_2 sample_groups 1). vm_compute. reflexivity.
  - apply (list_elem_of_lookup_2 _ 1). vm_compute. reflexivity.
  - reflexivity.
  - reflexivity.
Defined.

Lemma round_robin_rotates_witness :
  exists m c, candidate_indexes sample_group !! 0%nat = Some m /\ sample_candidates !! m = Some c /\
    Some (sample_candidate "a" 1 NewAndExisting (Some 2), Some 1) = Some (c, Some (number sample_group)).
Proof.
  apply (round_robin_rotates sample_candidates sample_index InferenceModel "model" (take 1 sample_groups) sample_group []
           (replicate 3 (InferenceModel, "model"%string, fun _ => 0)) 2).
  - vm_compute. reflexivity.
  - vm_compute. reflexivity.
  - vm_compute. repeat constructor; discriminate.
  - vm_compute. reflexivity.
  - vm_compute. discriminate.
  - vm_compute. reflexivity.
Defined.
