(* ===== verification/BudgetKeys.v ===== *)
(** Budget keys of the token rate limiter ([filters/src/token_rate_limit/keys.rs]):
    how the configured dimensions are compiled, and how a request is mapped to
    the opaque key its tokens are charged to.

    SHA-256, the Base64 encoder and the header types belong to other crates:
    they are class parameters.  A header value is its bytes, and [to_str] is the
    text of a value that has one. *)

From S2P Require Import Prelude Utf8 Sorting MetaCodec RustStr IpText Routing.
From Stdlib Require Import Strings.Ascii Strings.Byte.

Local Open Scope N_scope.
Local Open Scope rust_scope.

(** [HeaderValue::to_str], [HeaderValue::from_str] and [HeaderName::try_from]:
    a name is valid text in lower case, without a NUL byte. *)
Class HeaderTypes := {
  to_str : bytes -> option string;
  header_value : string -> option bytes;
  header_name : string -> result string string;
  to_str_spec : forall b s, to_str b = Some s -> string_bytes s = b;
  header_name_no_nul : forall s n, header_name s = Ok n -> x00 ∉ string_bytes n
}.

(** [URL_SAFE_NO_PAD.encode]: distinct inputs have distinct texts, in an alphabet
    without the separators of a key. *)
Class Base64Url := {
  b64url : bytes -> string;
  b64url_inj : Inj (=) (=) b64url;
  b64url_alphabet : forall b, lacks "|" (b64url b) = true
}.

(** [HeaderMap]: the fields in order, names in lower case. *)
Abbreviation HeaderMap := (list (string * bytes)).
Definition headers_get (h : HeaderMap) (name : string) : option bytes :=
  snd <$> List.find (fun e => bool_decide (e.1 = name)) h.
Definition headers_get_all (h : HeaderMap) (name : string) : list bytes :=
  snd <$> List.filter (fun e => bool_decide (e.1 = name)) h.

(** * Configuration *)

Inductive MissingKeyPolicy := PolicyReject | PolicyFallback.

Inductive KeyDimension :=
| KdGlobal
| KdAuthenticatedSubject
| KdIp (header : option string) (trusted_hops : N) (ipv6_prefix : option N)
| KdModel (header : option string)
| KdHeader (name : string) (missing : option MissingKeyPolicy).

Record KeySpec := mkKeySpec { spec_dimensions : list KeyDimension; spec_missing : MissingKeyPolicy }.

Inductive CompiledDimension :=
| Global
| AuthenticatedSubject
| Ip (header : option string) (trusted_hops : N) (ipv6_prefix : option N)
| Model (header : string)
| Header (name : string) (missing : MissingKeyPolicy).

Record CompiledKeySpec := mkCompiledKeySpec { dimensions : list CompiledDimension; missing : MissingKeyPolicy }.

#[export] Instance MissingKeyPolicy_eq_dec : EqDecision MissingKeyPolicy.
Proof. solve_decision. Defined.
#[export] Instance CompiledDimension_eq_dec : EqDecision CompiledDimension.
Proof. solve_decision. Defined.

Definition FALLBACK_KEY : string := "__fallback__".
Definition DEFAULT_MODEL_HEADER : string := "x-model".
Definition MAX_KEY_LENGTH : N := 256.

Definition key_error (msg : string) : string := "token_rate_limit: " +:+ msg.

Section Compile.
Context `{HeaderTypes}.

Definition parse_header_name (name dimension : string) : result string string :=
  match header_name (trim name) with
  | Ok n => Ok n
  | Err e => Err (key_error ("invalid " +:+ dimension +:+ " header name '" +:+ name +:+ "': " +:+ e))
  end.

Definition compile_ip_dimension (header : option string) (trusted_hops : N) (ipv6_prefix : option N)
    : result string CompiledDimension :=
  if match ipv6_prefix with Some p => negb ((1 <=? p) && (p <=? 128)) | None => false end
  then Err (key_error "ip.ipv6_prefix must be between 1 and 128")
  else
    match header with
    | Some name => let? n := parse_header_name name "ip" in Ok (Ip (Some n) trusted_hops ipv6_prefix)
    | None => Ok (Ip None trusted_hops ipv6_prefix)
    end.

Definition compile_dimension (d : KeyDimension) (spec_missing : MissingKeyPolicy) : result string CompiledDimension :=
  match d with
  | KdGlobal => Ok Global
  | KdAuthenticatedSubject => Ok AuthenticatedSubject
  | KdIp header trusted_hops ipv6_prefix => compile_ip_dimension header trusted_hops ipv6_prefix
  | KdModel (Some name) => let? n := parse_header_name name "model" in Ok (Model n)
  | KdModel None => Ok (Model DEFAULT_MODEL_HEADER)
  | KdHeader name m =>
      if bool_decide (trim name = ""%string) then Err (key_error "key header name must not be empty")
      else let? n := parse_header_name name "header" in Ok (Header n (default spec_missing m))
  end.

Definition insert_unique (seen : list string) (name : string) : result string (list string) :=
  if bool_decide (name ∈ seen) then Err (key_error ("duplicate key dimension '" +:+ name +:+ "'"))
  else Ok (name :: seen).

(** [record_dimension], with the two sets it fills. *)
Definition record_dimension (d : CompiledDimension) (seen_named seen_headers : list string)
    : result string (list string * list string) :=
  match d with
  | Global => let? s := insert_unique seen_named "global" in Ok (s, seen_headers)
  | AuthenticatedSubject => let? s := insert_unique seen_named "authenticated_subject" in Ok (s, seen_headers)
  | Ip _ _ _ => let? s := insert_unique seen_named "ip" in Ok (s, seen_headers)
  | Model _ => let? s := insert_unique seen_named "model" in Ok (s, seen_headers)
  | Header name _ =>
      if bool_decide (name ∈ seen_headers) then Err (key_error ("duplicate key header dimension '" +:+ name +:+ "'"))
      else Ok (seen_named, name :: seen_headers)
  end.

(** [dimension_ord] and the order of its pairs. *)
Definition dimension_ord (d : CompiledDimension) : N * string :=
  match d with
  | Global => (0, ""%string)
  | AuthenticatedSubject => (1, ""%string)
  | Ip _ _ _ => (2, ""%string)
  | Model _ => (3, ""%string)
  | Header name _ => (4, name)
  end.
Definition dimension_leb (a b : CompiledDimension) : bool :=
  let '(i, s) := dimension_ord a in
  let '(j, t) := dimension_ord b in
  (i <? j) || ((i =? j) && String.leb s t).

(** The loop of [compile_key_spec] over the configured dimensions. *)
Fixpoint compile_dimensions (ds : list KeyDimension) (m : MissingKeyPolicy) (seen_named seen_headers : list string)
    : result string (list CompiledDimension) :=
  match ds with
  | [] => Ok []
  | d :: ds =>
      let? c := compile_dimension d m in
      let? seen := record_dimension c seen_named seen_headers in
      let? cs := compile_dimensions ds m seen.1 seen.2 in
      Ok (c :: cs)
  end.

Definition is_global (d : KeyDimension) : bool := match d with KdGlobal => true | _ => false end.

Definition compile_key_spec (spec : KeySpec) : result string CompiledKeySpec :=
  if bool_decide (spec_dimensions spec = []) then Err (key_error "key.dimensions must not be empty")
  else if existsb is_global (spec_dimensions spec) && (1 <? length (spec_dimensions spec))%nat then
    Err (key_error "key dimension 'global' cannot be combined with other dimensions")
  else
    let? ds := compile_dimensions (spec_dimensions spec) (spec_missing spec) [] [] in
    Ok (mkCompiledKeySpec (sort_by dimension_leb ds) (spec_missing spec)).
End Compile.

#[export] Instance KeyDimension_eq_dec : EqDecision KeyDimension.
Proof. solve_decision. Defined.

(** * Resolution *)

(** The fields of the request body that estimation and keys look at. *)
Record BodyProbe := mkBodyProbe {
  max_tokens : option N;
  max_completion_tokens : option N;
  probe_model : option string
}.

Record KeyInputs := mkKeyInputs {
  subject : option string;
  client_addr : option IpAddr;
  headers : HeaderMap;
  body_probe : option BodyProbe
}.

Inductive KeyDecision := Admit (key : string) | RejectKey (status : N) (reason : string).

Inductive DimensionValue := Part (part : string) | Skip | RejectDimension (status : N) (reason : string).

Definition missing_value (policy : MissingKeyPolicy) (status : N) (reason : string) : DimensionValue :=
  match policy with PolicyReject => RejectDimension status reason | PolicyFallback => Skip end.

Definition nonempty (value : option string) : option string :=
  v ← value; let v := trim v in if bool_decide (v = ""%string) then None else Some v.

(** [slice::trim_ascii]. *)
Definition is_ascii_whitespace (b : byte) : bool := bool_decide (b ∈ [x20; x09; x0a; x0c; x0d]).
Definition trim_ascii (l : bytes) : bytes :=
  rev (drop_while is_ascii_whitespace (rev (drop_while is_ascii_whitespace l))).

Definition header_bytes (h : HeaderMap) (name : string) : option bytes :=
  value ← headers_get h name;
  let trimmed := trim_ascii value in
  if bool_decide (trimmed = []) then None else Some trimmed.

Section Resolve.
Context `{HeaderTypes} `{Sha256} `{Base64Url}.

(** [header_value]. *)
Definition header_text (h : HeaderMap) (name : string) : option string :=
  nonempty (headers_get h name ≫= to_str).

Definition resolve_model (header : string) (i : KeyInputs) : option string :=
  match header_text (headers i) header with
  | Some m => Some m
  | None => nonempty (body_probe i ≫= probe_model)
  end.

(** [forwarded_header_raw]: the loop over the field lines, and the test of its
    result. *)
Definition push_line (joined : string) (value : bytes) : string :=
  match to_str value with
  | None => joined
  | Some text =>
      let text := trim text in
      if bool_decide (text = ""%string) then joined
      else if bool_decide (joined = ""%string) then text else joined +:+ "," +:+ text
  end.
Definition forwarded_header_raw (h : HeaderMap) (name : string) : option string :=
  let joined := foldl push_line ""%string (headers_get_all h name) in
  if bool_decide (joined = ""%string) then None else Some joined.

Definition normalize_mapped_ipv4 (x : IpAddr) : IpAddr :=
  match x with
  | V6 l => match to_ipv4_mapped l with Some (a, b, c, d) => V4 a b c d | None => x end
  | V4 _ _ _ _ => x
  end.

(** [str::strip_suffix] of a character. *)
Definition strip_bracket (token : string) : option string :=
  rest ← read_given_char "["%char token;
  if ends_with rest "]" then Some (String.substring 0 (String.length rest - 1) rest) else None.

Definition parse_forwarded_hop (token : string) : option IpAddr :=
  match parse_socket_addr token with
  | Some ip => Some (normalize_mapped_ipv4 ip)
  | None => normalize_mapped_ipv4 <$> parse_ip (default token (strip_bracket token))
  end.

Definition forwarded_hops (raw : string) : list string :=
  List.filter (fun hop => negb (bool_decide (hop = ""%string))) (trim <$> split_on ","%char raw).

Definition forwarded_client_ip (raw : string) (trusted_hops : N) : option IpAddr :=
  let hops := forwarded_hops raw in
  let back := saturating_add trusted_hops 1 in
  if back <=? N.of_nat (length hops)
  then hops !! (length hops - N.to_nat back)%nat ≫= parse_forwarded_hop
  else None.

(** [mask_ipv6]: the loop over the segments; [!0_u16 << k] is [2^16 - 2^k]. *)
Fixpoint mask_segments (remaining : N) (l : list N) : list N :=
  match l with
  | [] => []
  | s :: l =>
      if 16 <=? remaining then s :: mask_segments (remaining - 16) l
      else if remaining =? 0 then 0 :: mask_segments 0 l
      else N.land s (65536 - N.shiftl 1 (16 - remaining)) :: mask_segments 0 l
  end.
Definition mask_ipv6 (l : list N) (prefix : N) : list N :=
  let prefix := N.min prefix 128 in
  if prefix =? 128 then l else mask_segments prefix l.

Definition canonicalize_ip (x : IpAddr) (ipv6_prefix : option N) : string :=
  match normalize_mapped_ipv4 x, ipv6_prefix with
  | V6 l, Some prefix => show_ip (V6 (mask_ipv6 l prefix)) +:+ "/" +:+ usize_to_string prefix
  | x, _ => show_ip x
  end.

Definition resolve_ip (header : option string) (trusted_hops : N) (ipv6_prefix : option N) (i : KeyInputs)
    : option string :=
  addr ← match header with
         | Some name =>
             match forwarded_header_raw (headers i) name with
             | Some raw => forwarded_client_ip raw trusted_hops
             | None => client_addr i
             end
         | None => client_addr i
         end;
  Some (canonicalize_ip addr ipv6_prefix).

Definition opaque_part (kind : string) (value : bytes) : string :=
  kind +:+ ":v1:" +:+ b64url (sha256 value).
Definition opaque_header_part (name : string) (value : bytes) : string :=
  "hdr:v1:" +:+ b64url (sha256 (string_bytes name ++ [x00] ++ value)).

Definition resolve_dimension (d : CompiledDimension) (spec_missing : MissingKeyPolicy) (i : KeyInputs) : DimensionValue :=
  match d with
  | Global => Part FALLBACK_KEY
  | AuthenticatedSubject =>
      match subject i with
      | Some s => if bool_decide (s = ""%string) then missing_value spec_missing 401 "missing_authenticated_subject"
                  else Part (opaque_part "subject" (string_bytes s))
      | None => missing_value spec_missing 401 "missing_authenticated_subject"
      end
  | Ip header trusted_hops ipv6_prefix =>
      match resolve_ip header trusted_hops ipv6_prefix i with
      | Some canonical => Part (opaque_part "ip" (string_bytes canonical))
      | None => missing_value spec_missing 400 "missing_ip"
      end
  | Model header =>
      match resolve_model header i with
      | Some model => Part (opaque_part "model" (string_bytes model))
      | None => missing_value spec_missing 400 "missing_model"
      end
  | Header name m =>
      match header_bytes (headers i) name with
      | Some value => Part (opaque_header_part name value)
      | None => missing_value m 400 "missing_header"
      end
  end.

Definition join_parts (parts : list string) : string :=
  match parts with
  | [] => FALLBACK_KEY
  | [part] => part
  | _ =>
      let joined := join "|"%char parts in
      if str_len joined <=? MAX_KEY_LENGTH then joined else opaque_part "comp" (string_bytes joined)
  end.

(** The loop of [resolve]. *)
Fixpoint resolve_dimensions (ds : list CompiledDimension) (m : MissingKeyPolicy) (i : KeyInputs) (parts : list string)
    : KeyDecision :=
  match ds with
  | [] => Admit (join_parts parts)
  | d :: ds =>
      match resolve_dimension d m i with
      | Part part => resolve_dimensions ds m i (parts ++ [part])
      | Skip => resolve_dimensions ds m i parts
      | RejectDimension status reason => RejectKey status reason
      end
  end.

(** [CompiledKeySpec::resolve]. *)
Definition resolve (spec : CompiledKeySpec) (i : KeyInputs) : KeyDecision :=
  match dimensions spec with
  | [Global] => Admit FALLBACK_KEY
  | ds => resolve_dimensions ds (missing spec) i []
  end.
End Resolve.

(** * The configuration fingerprint *)

Definition missing_policy_tag (p : MissingKeyPolicy) : byte := match p with PolicyReject => x00 | PolicyFallback => x01 end.

(** [to_be_bytes] of a number of [k] bytes. *)
Fixpoint be_bytes (k : nat) (n : N) : bytes :=
  match k with O => [] | S k => be_bytes k (n / 256) ++ [default x00 (Byte.of_N (n mod 256))] end.

Definition digest_string (s : string) : bytes := be_bytes 8 (N.min (str_len s) u64_max) ++ string_bytes s.
Definition digest_optional_string (s : option string) : bytes :=
  match s with Some s => x01 :: digest_string s | None => [x00] end.
Definition digest_dimension (d : CompiledDimension) : bytes :=
  match d with
  | Global => bstr "global"
  | AuthenticatedSubject => bstr "authenticated_subject"
  | Ip header trusted_hops ipv6_prefix =>
      bstr "ip" ++ digest_optional_string header ++ be_bytes 4 trusted_hops ++
      match ipv6_prefix with Some p => x01 :: be_bytes 1 p | None => [x00] end
  | Model header => bstr "model" ++ digest_string header
  | Header name m => bstr "header" ++ digest_string name ++ [missing_policy_tag m]
  end.

(** [config_fingerprint]: the bytes fed to the digest, and the digest in
    hexadecimal. *)
Definition fingerprint_input (spec : CompiledKeySpec) : bytes :=
  bstr "praxis:token_rate_limit:key_config" ++ [x00; missing_policy_tag (missing spec)] ++
  be_bytes 8 (N.min (N.of_nat (length (dimensions spec))) u64_max) ++ concat (digest_dimension <$> dimensions spec).
Definition config_fingerprint `{Sha256} (spec : CompiledKeySpec) : string := encode_hex (sha256 (fingerprint_input spec)).
