(* ===== verification/BudgetKeysProps.v ===== *)
(** Properties of the budget keys ([BudgetKeys]): the order of the configured
    dimensions does not matter, two requests share a budget exactly when they
    agree on every dimension, and the fingerprint tells key policies apart. *)

From S2P Require Import Prelude Utf8 Sorting MetaCodec RustStr IpText Routing BudgetKeys.
From Stdlib Require Import Strings.Ascii Strings.Byte.

Local Open Scope N_scope.
Local Open Scope rust_scope.

(** * The order of dimensions *)

Lemma string_compare_le_trans (s t u : string) :
  String.compare s t <> Gt -> String.compare t u <> Gt -> String.compare s u <> Gt.
Proof.
  revert t u. induction s as [|a s IH]; intros [|b t] [|c u]; cbn; try done.
  unfold Ascii.compare. destruct (N.compare_spec (N_of_ascii a) (N_of_ascii b)) as [E|E|E]; try done;
    destruct (N.compare_spec (N_of_ascii b) (N_of_ascii c)) as [F|F|F]; try done;
    destruct (N.compare_spec (N_of_ascii a) (N_of_ascii c)) as [G|G|G]; try done; try lia; eauto.
Qed.

Lemma string_leb_trans s t u : String.leb s t = true -> String.leb t u = true -> String.leb s u = true.
Proof.
  unfold String.leb. intros H1 H2. pose proof (string_compare_le_trans s t u).
  destruct (String.compare s t), (String.compare t u), (String.compare s u); naive_solver.
Qed.

Lemma dimension_leb_total x y : dimension_leb x y = true \/ dimension_leb y x = true.
Proof.
  unfold dimension_leb. destruct (dimension_ord x) as [i s], (dimension_ord y) as [j t].
  destruct (N.ltb_spec i j), (N.ltb_spec j i), (N.eqb_spec i j), (N.eqb_spec j i); cbn; auto; try lia.
  apply String.leb_total.
Qed.

Lemma dimension_leb_trans x y z : dimension_leb x y = true -> dimension_leb y z = true -> dimension_leb x z = true.
Proof.
  unfold dimension_leb. destruct (dimension_ord x) as [i s], (dimension_ord y) as [j t], (dimension_ord z) as [k u].
  rewrite !orb_true_iff, !andb_true_iff, !N.ltb_lt, !N.eqb_eq.
  intros [?|[-> ?]] [?|[-> ?]]; try (left; lia). right. split; [done|]. by eapply string_leb_trans.
Qed.

Lemma dimension_leb_antisym x y :
  dimension_leb x y = true -> dimension_leb y x = true -> dimension_ord x = dimension_ord y.
Proof.
  unfold dimension_leb. destruct (dimension_ord x) as [i s], (dimension_ord y) as [j t].
  rewrite !orb_true_iff, !andb_true_iff, !N.ltb_lt, !N.eqb_eq. intros [?|[E H1]] [?|[E2 H2]]; try lia. subst.
  f_equal. by apply String.leb_antisym.
Qed.

Definition name_of (d : CompiledDimension) : string :=
  match d with
  | Global => "global" | AuthenticatedSubject => "authenticated_subject" | Ip _ _ _ => "ip" | Model _ => "model"
  | Header name _ => name
  end.
Definition is_header (d : CompiledDimension) : bool := match d with Header _ _ => true | _ => false end.

(** [d] was not seen yet. *)
Definition fresh (sn sh : list string) (d : CompiledDimension) : Prop :=
  name_of d ∉ (if is_header d then sh else sn).

Lemma dimension_ord_eq c d : dimension_ord c = dimension_ord d <-> is_header c = is_header d /\ name_of c = name_of d.
Proof. destruct c, d; cbn; naive_solver. Qed.

Lemma record_dimension_spec c sn sh r :
  record_dimension c sn sh = Ok r <->
  fresh sn sh c /\ r = if is_header c then (sn, name_of c :: sh) else (name_of c :: sn, sh).
Proof.
  unfold fresh. destruct c; cbn; unfold insert_unique; case_bool_decide; cbn; naive_solver.
Qed.

Section Order.
Context `{HeaderTypes}.

Lemma compile_dimensions_spec ds m sn sh cs :
  compile_dimensions ds m sn sh = Ok cs <->
  Forall2 (fun d c => compile_dimension d m = Ok c) ds cs /\ NoDup (dimension_ord <$> cs) /\ Forall (fresh sn sh) cs.
Proof.
  revert sn sh cs. induction ds as [|d ds IH]; intros sn sh cs; cbn.
  { split; [intros [= <-]; by repeat constructor|]. intros (->%Forall2_nil_inv_l & _). done. }
  destruct (compile_dimension d m) as [c|e] eqn:Ec; cbn.
  2:{ split; [done|]. intros (Hf & _). inversion Hf; simplify_eq. congruence. }
  destruct (record_dimension c sn sh) as [[sn' sh']|e] eqn:Er; cbn.
  2:{ split; [done|]. intros (Hf & _ & Hfr). inversion Hf as [|? c' ? cs' Hc']; simplify_eq. rewrite Ec in Hc'. simplify_eq.
      apply Forall_cons in Hfr as [Hfr _]. exfalso.
      pose proof (proj2 (record_dimension_spec c' sn sh _) (conj Hfr eq_refl)). congruence. }
  apply record_dimension_spec in Er as [Hfr Er].
  assert (forall cs', Forall (fresh sn' sh') cs' <-> Forall (fresh sn sh) cs' /\ dimension_ord c ∉ dimension_ord <$> cs') as Hfresh.
  { intros cs'. rewrite list_elem_of_fmap. setoid_rewrite dimension_ord_eq. rewrite !Forall_forall. unfold fresh.
    destruct (is_header c) eqn:Eh; simplify_eq; split.
    - intros Hn. split; [intros x Hx; specialize (Hn x Hx); destruct (is_header x); set_solver|].
      intros (x & [Hi Hnm] & Hx). specialize (Hn x Hx). rewrite <- Hi in Hn. set_solver.
    - intros [Hn Hx] x Hin. specialize (Hn x Hin). destruct (is_header x) eqn:Ex; [|done].
      apply not_elem_of_cons. split; [|done]. intros E. apply Hx. exists x. rewrite Ex. auto.
    - intros Hn. split; [intros x Hx; specialize (Hn x Hx); destruct (is_header x); set_solver|].
      intros (x & [Hi Hnm] & Hx). specialize (Hn x Hx). rewrite <- Hi in Hn. set_solver.
    - intros [Hn Hx] x Hin. specialize (Hn x Hin). destruct (is_header x) eqn:Ex; [done|].
      apply not_elem_of_cons. split; [|done]. intros E. apply Hx. exists x. rewrite Ex. auto. }
  destruct (compile_dimensions ds m sn' sh') as [cs'|e] eqn:Ed; cbn.
  - apply IH in Ed as (Hf & Hnd & Hfr'). apply Hfresh in Hfr' as [Hfr' Hx]. split.
    + intros [= <-]. rewrite fmap_cons. split_and!; by constructor.
    + intros (Hf' & _). inversion Hf' as [|? c' ? cs'' Hc' Hf'']; simplify_eq. rewrite Ec in Hc'. simplify_eq. f_equal. f_equal.
      clear -Hf Hf''. revert cs'' Hf''. induction Hf as [|? ? ? ? H1 _ IH']; intros ? H2; inversion H2; simplify_eq; [done|].
      f_equal; [congruence|auto].
  - split; [done|]. intros (Hf & Hnd & Hfr'). inversion Hf as [|? c' ? cs' Hc' Hf'']; simplify_eq. rewrite Ec in Hc'. simplify_eq.
    rewrite fmap_cons, NoDup_cons in Hnd. destruct Hnd as [Hx Hnd]. apply Forall_cons in Hfr' as [_ Hfr'].
    assert (compile_dimensions ds m sn' sh' = Ok cs') as E; [|congruence].
    apply IH. split_and!; [done..|]. by apply Hfresh.
Qed.

Lemma Forall2_perm {A B} (P : A -> B -> Prop) l l' k :
  Forall2 P l k -> l ≡ₚ l' -> exists k', Forall2 P l' k' /\ k ≡ₚ k'.
Proof.
  intros Hf Hp. revert k Hf. induction Hp as [|x l l' _ IH|x y l|l1 l2 l3 _ IH1 _ IH2]; intros k Hf.
  - inversion Hf. by exists [].
  - inversion Hf as [|? b ? k' Hb Hf']; simplify_eq. destruct (IH _ Hf') as (k'' & ? & Hk).
    exists (b :: k''). split; [by constructor|]. by rewrite Hk.
  - inversion Hf as [|? b ? k' Hb Hf']; simplify_eq. inversion Hf' as [|? b' ? k'' Hb' Hf'']; simplify_eq.
    exists (b' :: b :: k''). split; [by repeat constructor|]. constructor.
  - destruct (IH1 _ Hf) as (k' & Hf' & Hk). destruct (IH2 _ Hf') as (k'' & Hf'' & Hk').
    exists k''. split; [done|]. by rewrite Hk.
Qed.

(** The order in which the dimensions are written does not change the compiled
    key, so reordering a configuration keeps every budget. *)
Theorem key_order_free ds ds' m c :
  ds ≡ₚ ds' -> compile_key_spec (mkKeySpec ds m) = Ok c -> compile_key_spec (mkKeySpec ds' m) = Ok c.
Proof.
  intros Hp. unfold compile_key_spec. cbn [spec_dimensions spec_missing].
  assert (bool_decide (ds = []) = bool_decide (ds' = [])) as ->.
  { apply bool_decide_ext. split; intros ->; [by apply symmetry, Permutation_nil_r in Hp|by apply Permutation_nil_r in Hp]. }
  assert (existsb is_global ds = existsb is_global ds') as ->.
  { apply eq_true_iff_eq. rewrite !existsb_exists. setoid_rewrite <- list_elem_of_In. by setoid_rewrite Hp. }
  rewrite (Permutation_length Hp). case_bool_decide; [done|]. destruct (_ && _); [done|].
  destruct (compile_dimensions ds m [] []) as [cs|] eqn:Ec; cbn; [|done]. intros [= <-].
  apply compile_dimensions_spec in Ec as (Hf & Hnd & Hfr). destruct (Forall2_perm _ _ _ _ Hf Hp) as (cs' & Hf' & Hk).
  assert (compile_dimensions ds' m [] [] = Ok cs') as ->.
  { apply compile_dimensions_spec. split_and!; [done|by rewrite <- Hk|by rewrite <- Hk]. }
  cbn. do 2 f_equal. symmetry. apply sort_by_unique; [apply dimension_leb_total|apply dimension_leb_trans|done|].
  intros x y Hx Hy Hxy Hyx. pose proof (dimension_leb_antisym x y Hxy Hyx) as E.
  apply list_elem_of_lookup_1 in Hx as [i Hi], Hy as [j Hj].
  assert (i = j) as <-; [|congruence]. eapply NoDup_lookup; [exact Hnd|by rewrite list_lookup_fmap, Hi|].
  by rewrite list_lookup_fmap, Hj, E.
Qed.
End Order.

(** * Joining parts *)

(** Two texts without the separator, split at their first one. *)
Lemma first_separator c (a b s t : string) :
  lacks c a = true -> lacks c b = true -> a +:+ String c s = b +:+ String c t -> a = b /\ s = t.
Proof.
  revert b. induction a as [|x a IH]; intros [|y b]; rewrite ?str_app_cons; cbn [lacks].
  - by intros _ _ [= ->].
  - intros _ [Hy _]%andb_true_iff [= <- _]. by rewrite bool_decide_eq_true_2 in Hy.
  - intros [Hx _]%andb_true_iff _ [= <- _]. by rewrite bool_decide_eq_true_2 in Hx.
  - intros [_ Ha]%andb_true_iff [_ Hb]%andb_true_iff [= -> E]. by destruct (IH b Ha Hb E) as [-> ->].
Qed.

Lemma lacks_separator c (a s : string) : lacks c (a +:+ String c s) = false.
Proof. rewrite lacks_app. cbn. rewrite bool_decide_eq_true_2 by done. cbn. by rewrite andb_false_r. Qed.

Lemma join_inj c l l' :
  l <> [] -> l' <> [] -> Forall (fun s => lacks c s = true) l -> Forall (fun s => lacks c s = true) l' ->
  join c l = join c l' -> l = l'.
Proof.
  intros Hne Hne' Hl. revert l' Hne Hne'. induction Hl as [|a l Ha Hl IH]; intros l' Hne Hne' Hl'; [done|].
  destruct l' as [|b l']; [done|]. apply Forall_cons in Hl' as [Hb Hl'].
  destruct l as [|a' l], l' as [|b' l'].
  - cbn. by intros ->.
  - rewrite (join_cons c b) by done. cbn. intros ->. by rewrite lacks_separator in Ha.
  - rewrite (join_cons c a) by done. cbn. intros <-. by rewrite lacks_separator in Hb.
  - rewrite !join_cons by done. intros [-> E]%first_separator; [|done..]. f_equal. by apply IH.
Qed.

(** * Values of the dimensions *)

Inductive KeyValue := ValueBytes (b : bytes) | ValueNetwork (x : IpAddr).

#[export] Instance KeyValue_eq_dec : EqDecision KeyValue.
Proof. solve_decision. Defined.

(** The network of a client: IPv4-mapped addresses are IPv4 addresses, and the
    host bits of an IPv6 address beyond the prefix do not count. *)
Definition network_of (x : IpAddr) (prefix : option N) : IpAddr :=
  match normalize_mapped_ipv4 x, prefix with
  | V6 l, Some p => V6 (mask_ipv6 l p)
  | x, _ => x
  end.

Definition network_text (x : IpAddr) (prefix : option N) : string :=
  match x, prefix with
  | V6 l, Some p => show_ip (V6 l) +:+ "/" +:+ usize_to_string p
  | x, _ => show_ip x
  end.

Lemma canonicalize_network x p : canonicalize_ip x p = network_text (network_of x p) p.
Proof. unfold canonicalize_ip, network_of. destruct (normalize_mapped_ipv4 x), p; done. Qed.

Lemma mask_segments_range n l : Forall (fun s => s < 65536) l -> Forall (fun s => s < 65536) (mask_segments n l).
Proof.
  intros Hl. revert n. induction Hl as [|s l Hs _ IH]; intros n; cbn [mask_segments]; [constructor|].
  destruct (16 <=? n); [by constructor|]. destruct (n =? 0); constructor; try done; try lia.
  eapply N.le_lt_trans; [apply N.land_le_l|done].
Qed.
Lemma mask_segments_length n l : length (mask_segments n l) = length l.
Proof. revert n. induction l as [|s l IH]; intros n; cbn [mask_segments]; [done|]. repeat case_match; cbn; by rewrite IH. Qed.

Lemma normalize_wf x : ip_wf x -> ip_wf (normalize_mapped_ipv4 x).
Proof.
  destruct x as [|l]; [done|]. intros [Hl Hg]. cbn [normalize_mapped_ipv4].
  destruct (to_ipv4_mapped l) as [[[[a b] c] d]|] eqn:E; [|done]. apply mapped_spec in E as (? & ? & ? & ? & _); done.
Qed.

Lemma network_wf x p : ip_wf x -> ip_wf (network_of x p).
Proof.
  intros Hx%normalize_wf. unfold network_of. destruct (normalize_mapped_ipv4 x) as [|l], p as [p|]; try done.
  destruct Hx as [Hl Hg]. unfold mask_ipv6. destruct (_ =? 128); [done|]. split; [by rewrite mask_segments_length|].
  by apply mask_segments_range.
Qed.

Lemma octet_lacks_slash n : n < 256 -> lacks "/" (usize_to_string n) = true.
Proof. intros Hn. apply (below_spec 256 0 (fun n => lacks "/" (usize_to_string n))); [vm_compute; reflexivity|lia]. Qed.

Lemma network_text_inj x y p : ip_wf x -> ip_wf y -> network_text x p = network_text y p -> x = y.
Proof.
  assert (forall a b c d s, ip_wf (V4 a b c d) -> show_ip (V4 a b c d) <> s +:+ String "/" (usize_to_string (default 0 p))) as Hv4.
  { intros a b c d s (Ha & Hb & Hc & Hd) E. apply (f_equal (lacks "/")) in E. rewrite lacks_separator in E.
    cbn [show_ip] in E. unfold show_ipv4 in E. cbn [fmap list_fmap join] in E. rewrite !lacks_app in E. cbn [lacks] in E.
    rewrite lacks_app in E. cbn [lacks] in E. rewrite lacks_app in E. cbn [lacks] in E. by rewrite !octet_lacks_slash in E. }
  intros Hx Hy. unfold network_text. destruct x as [a b c d|l], y as [a' b' c' d'|l'], p as [p|]; intros E;
    try by apply show_ip_inj.
  - by apply Hv4 in E.
  - symmetry in E. by apply Hv4 in E.
  - apply show_ip_inj; [done..|]. by apply str_app_inj_r in E.
Qed.

Section Values.
Context `{HeaderTypes}.

(** The address a request comes from, as the dimension selects it. *)
Definition selected_ip (header : option string) (trusted_hops : N) (i : KeyInputs) : option IpAddr :=
  match header with
  | Some name =>
      match forwarded_header_raw (headers i) name with
      | Some raw => forwarded_client_ip raw trusted_hops
      | None => client_addr i
      end
  | None => client_addr i
  end.

(** What a request says of a dimension; [None] when it says nothing. *)
Definition dimension_value (d : CompiledDimension) (i : KeyInputs) : option KeyValue :=
  match d with
  | Global => None
  | AuthenticatedSubject =>
      s ← subject i; if bool_decide (s = ""%string) then None else Some (ValueBytes (string_bytes s))
  | Ip header trusted_hops prefix => x ← selected_ip header trusted_hops i; Some (ValueNetwork (network_of x prefix))
  | Model header => m ← resolve_model header i; Some (ValueBytes (string_bytes m))
  | Header name _ => ValueBytes <$> header_bytes (headers i) name
  end.

Definition inputs_wf (i : KeyInputs) : Prop := forall x, client_addr i = Some x -> ip_wf x.

Lemma parse_hop_wf token x : parse_forwarded_hop token = Some x -> ip_wf x.
Proof.
  unfold parse_forwarded_hop. destruct (parse_socket_addr token) as [y|] eqn:E.
  - intros [= <-]. by apply normalize_wf, (parse_socket_addr_wf token).
  - intros (y & Hy & ->)%fmap_Some. by eapply normalize_wf, parse_ip_wf.
Qed.

Lemma selected_ip_wf header hops i x : inputs_wf i -> selected_ip header hops i = Some x -> ip_wf x.
Proof.
  intros Hi. unfold selected_ip. destruct header as [name|]; [|apply Hi].
  destruct (forwarded_header_raw (headers i) name) as [raw|]; [|apply Hi]. unfold forwarded_client_ip.
  case_match; [|done]. intros (hop & _ & Hh)%bind_Some. by eapply parse_hop_wf.
Qed.

(** A value the dimension can have. *)
Definition value_ok (d : CompiledDimension) (v : KeyValue) : Prop :=
  match d, v with
  | AuthenticatedSubject, ValueBytes _ | Model _, ValueBytes _ | Header _ _, ValueBytes _ => True
  | Ip _ _ _, ValueNetwork x => ip_wf x
  | _, _ => False
  end.

Lemma dimension_value_ok d i v : inputs_wf i -> dimension_value d i = Some v -> value_ok d v.
Proof.
  intros Hi. destruct d; cbn.
  - done.
  - intros (s & _ & Hs)%bind_Some. case_bool_decide; by simplify_eq.
  - intros (x & Hx & [= <-])%bind_Some. by eapply network_wf, selected_ip_wf.
  - intros (m & _ & [= <-])%bind_Some. done.
  - intros (b & _ & ->)%fmap_Some. done.
Qed.
End Values.

(** * Keys and values *)

Section Partition.
Context `{HeaderTypes} `{Sha256} `{Base64Url}.

(** Two inputs on which the digest agrees. *)
Definition collision : Prop := exists x y, x <> y /\ sha256 x = sha256 y.

Lemma sha256_or x y : sha256 x = sha256 y -> x = y \/ collision.
Proof. intros E. destruct (decide (x = y)); [by left|]. right. by exists x, y. Qed.

Definition part_of (d : CompiledDimension) (v : KeyValue) : string :=
  match d, v with
  | AuthenticatedSubject, ValueBytes b => opaque_part "subject" b
  | Ip _ _ p, ValueNetwork x => opaque_part "ip" (string_bytes (network_text x p))
  | Model _, ValueBytes b => opaque_part "model" b
  | Header name _, ValueBytes b => opaque_header_part name b
  | _, _ => FALLBACK_KEY
  end.

(** The values a request has, with their dimensions. *)
Definition values (ds : list CompiledDimension) (i : KeyInputs) : list (CompiledDimension * KeyValue) :=
  omap (fun d => (d,.) <$> dimension_value d i) ds.

Lemma elem_of_values ds i d v : (d, v) ∈ values ds i <-> d ∈ ds /\ dimension_value d i = Some v.
Proof.
  unfold values. rewrite list_elem_of_omap. split.
  - intros (d' & Hd & (v' & Hv & [= -> ->])%fmap_Some). done.
  - intros [Hd Hv]. exists d. split; [done|]. by rewrite Hv.
Qed.

Lemma values_agree ds i j :
  values ds i = values ds j <-> forall d, d ∈ ds -> dimension_value d i = dimension_value d j.
Proof.
  split.
  - intros E d Hd. destruct (dimension_value d i) as [v|] eqn:Ei.
    + symmetry. apply (elem_of_values ds j d v). rewrite <- E. by apply elem_of_values.
    + destruct (dimension_value d j) as [v|] eqn:Ej; [|done].
      assert ((d, v) ∈ values ds j) as Hv by (by apply elem_of_values). rewrite <- E in Hv.
      apply elem_of_values in Hv as [_ Hv]. congruence.
  - intros E. unfold values. induction ds as [|d ds IH]; [done|]. cbn. rewrite E by set_solver. by rewrite IH by set_solver.
Qed.

Lemma resolve_dimension_value d m i :
  d <> Global ->
  resolve_dimension d m i =
    match dimension_value d i with
    | Some v => Part (part_of d v)
    | None => resolve_dimension d m (mkKeyInputs None None [] None)
    end.
Proof.
  destruct d; cbn; intros Hd; try done.
  - destruct (subject i) as [s|]; [|done]. cbn. by case_bool_decide.
  - unfold resolve_ip at 1. fold (selected_ip header trusted_hops i).
    destruct (selected_ip header trusted_hops i) as [x|]; cbn [mbind option_bind]; [|by destruct header].
    by rewrite canonicalize_network.
  - by destruct (resolve_model header i).
  - by destruct (header_bytes (headers i) name).
Qed.

Lemma resolve_dimension_missing d m i part :
  d <> Global -> dimension_value d i = None -> resolve_dimension d m i <> Part part.
Proof.
  intros Hd Hv. rewrite resolve_dimension_value, Hv by done. 
  destruct d as [| |h ? ?|h|n pol]; cbn; [done|by destruct m|destruct h; cbn; by destruct m|by destruct m|by destruct pol].
Qed.

Lemma resolve_dimensions_values ds m i parts k :
  Global ∉ ds -> resolve_dimensions ds m i parts = Admit k -> k = join_parts (parts ++ (uncurry part_of <$> values ds i)).
Proof.
  revert parts. induction ds as [|d ds IH]; intros parts Hg; cbn.
  { rewrite app_nil_r. by intros [= <-]. }
  apply not_elem_of_cons in Hg as [Hd Hg]. destruct (dimension_value d i) as [v|] eqn:Ev.
  - rewrite resolve_dimension_value, Ev by done. intros Hk%IH; [|done]. by rewrite Hk, <- app_assoc.
  - pose proof (resolve_dimension_missing d m i) as Hm. destruct (resolve_dimension d m i) as [p| |] eqn:E; [|by apply IH|done].
    exfalso. by apply (Hm p).
Qed.

(** Parts never contain the separator and start with a letter of their kind. *)
Definition good_part (p : string) : Prop :=
  lacks "|" p = true /\ exists c r, p = String c r /\ c ∈ ["s"; "i"; "m"; "h"]%char.

Lemma part_of_good d v : value_ok d v -> good_part (part_of d v).
Proof.
  destruct d, v; cbn; try done; intros _; unfold opaque_part, opaque_header_part;
    (split; [rewrite lacks_app; cbn; apply b64url_alphabet|]); rewrite ?str_app_cons; eexists _, _; (split; [reflexivity|]); set_solver.
Qed.

Lemma string_bytes_inj s t : string_bytes s = string_bytes t -> s = t.
Proof.
  unfold string_bytes. intros E. rewrite <- (String.string_of_list_byte_of_string s), E.
  apply String.string_of_list_byte_of_string.
Qed.

Lemma nul_separated (a b s t : bytes) : x00 ∉ a -> x00 ∉ b -> a ++ [x00] ++ s = b ++ [x00] ++ t -> a = b /\ s = t.
Proof.
  revert b. induction a as [|x a IH]; intros [|y b]; cbn; rewrite ?not_elem_of_cons.
  - by intros _ _ [= ->].
  - intros _ [Hy _] [= E _]. done.
  - intros [Hx _] _ [= E _]. done.
  - intros [_ Ha] [_ Hb] [= -> E]. by destruct (IH b Ha Hb E) as [-> ->].
Qed.

Definition name_no_nul (d : CompiledDimension) : Prop := match d with Header n _ => x00 ∉ string_bytes n | _ => True end.

Lemma opaque_inj k x y : opaque_part k x = opaque_part k y -> x = y \/ collision.
Proof. unfold opaque_part. intros ?%str_app_inj_l%str_app_inj_l%b64url_inj. by apply sha256_or. Qed.

Lemma part_of_inj d d' v v' :
  name_no_nul d -> name_no_nul d' -> value_ok d v -> value_ok d' v' -> part_of d v = part_of d' v' ->
  dimension_ord d = dimension_ord d' /\ (d = d' -> v = v') \/ collision.
Proof.
  destruct d as [| |h t p|h|n pol], v as [b|x]; try done; destruct d' as [| |h' t' p'|h'|n' pol'], v' as [b'|x']; try done;
    cbn [part_of name_no_nul value_ok dimension_ord]; intros Hn Hn' Hv Hv' E; try discriminate.
  - apply opaque_inj in E as [->|]; auto.
  - apply opaque_inj in E as [E%string_bytes_inj|]; [|auto]. left. split; [done|]. intros [= -> -> ->].
    f_equal. by eapply network_text_inj.
  - apply opaque_inj in E as [->|]; auto.
  - unfold opaque_header_part in E. apply str_app_inj_l, b64url_inj, sha256_or in E as [E|]; [|auto].
    apply nul_separated in E as [E ->]; [|done..]. apply string_bytes_inj in E as ->. auto.
Qed.

Lemma opaque_lacks k x : lacks "|" k = true -> lacks "|" (opaque_part k x) = true.
Proof. intros Hk. unfold opaque_part. rewrite !lacks_app, Hk. cbn. apply b64url_alphabet. Qed.

(** Different lists of parts have different keys. *)
Lemma join_parts_inj ps qs :
  Forall good_part ps -> Forall good_part qs -> join_parts ps = join_parts qs -> ps = qs \/ collision.
Proof.
  assert (forall p l, Forall good_part (p :: l) -> exists c r, join "|"%char (p :: l) = String c r /\ c ∈ ["s"; "i"; "m"; "h"]%char) as Hhd.
  { intros p l [(_ & c & r & -> & Hc) _]%Forall_cons. destruct l; [by eauto|]. rewrite join_cons, str_app_cons by done. eauto. }
  assert (forall p p' l, lacks "|" (join "|"%char (p :: p' :: l)) = false) as Hbar.
  { intros p p' l. rewrite join_cons by done. apply lacks_separator. }
  assert (forall l, Forall good_part l -> Forall (fun s => lacks "|" s = true) l) as Hlk.
  { intros l Hl. eapply Forall_impl; [exact Hl|]. by intros ? [? _]. }
  destruct ps as [|p [|p' ps]], qs as [|q [|q' qs]]; intros Hp Hq; cbn [join_parts]; try (by left).
  - intros <-. apply Forall_cons in Hq as [(_ & c & r & [= <- <-] & Hc) _]. set_solver.
  - destruct (Hhd _ _ Hq) as (c & r & -> & Hc). case_match; intros E; injection E; intros; subst; set_solver.
  - intros ->. apply Forall_cons in Hp as [(_ & c & r & [= <- <-] & Hc) _]. set_solver.
  - intros ->. by left.
  - apply Forall_cons in Hp as [(Hl & c & r & -> & Hc) _]. case_match; intros E.
    + rewrite E, Hbar in Hl. done.
    + injection E; intros; subst; set_solver.
  - destruct (Hhd _ _ Hp) as (c & r & -> & Hc). case_match; intros E; injection E; intros; subst; set_solver.
  - apply Forall_cons in Hq as [(Hl & c & r & -> & Hc) _]. case_match; intros E.
    + rewrite <- E, Hbar in Hl. done.
    + injection E; intros; subst; set_solver.
  - case_match; case_match; intros E.
    + left. apply (join_inj "|"%char); auto.
    + apply (f_equal (lacks "|")) in E. by rewrite Hbar, opaque_lacks in E.
    + apply (f_equal (lacks "|")) in E. by rewrite Hbar, opaque_lacks in E.
    + apply opaque_inj in E as [E%string_bytes_inj|]; [|by right]. left. apply (join_inj "|"%char); auto.
Qed.

Lemma fmap_or {A B} (f : A -> B) (l l' : list A) (C : Prop) :
  (forall x y, x ∈ l -> y ∈ l' -> f x = f y -> x = y \/ C) -> f <$> l = f <$> l' -> l = l' \/ C.
Proof.
  revert l'. induction l as [|x l IH]; intros [|y l'] Hf E; try done; [by left|]. injection E as Exy E.
  destruct (Hf x y) as [->|]; [by left..|done| |by right]. destruct (IH l') as [->|]; [|done|by left|by right].
  intros x' y' Hx Hy. apply Hf; by right.
Qed.

(** What compilation ensures: the global dimension is alone, dimensions are
    distinct and header names are valid. *)
Lemma compiled_dimensions spec c :
  compile_key_spec spec = Ok c ->
  (dimensions c = [Global] \/ Global ∉ dimensions c) /\ NoDup (dimension_ord <$> dimensions c) /\
  Forall name_no_nul (dimensions c).
Proof.
  unfold compile_key_spec. case_bool_decide as Hne; [done|]. destruct (_ && _) eqn:Hg; [done|].
  destruct (compile_dimensions _ _ _ _) as [cs|] eqn:Ec; cbn; [|done]. intros [= <-]. cbn [dimensions].
  apply compile_dimensions_spec in Ec as (Hf & Hnd & _). split_and!.
  - destruct (decide (Global ∈ cs)) as [Hin|Hin]; [left|right; by rewrite sort_by_perm].
    apply list_elem_of_lookup_1 in Hin as [n Hn]. destruct (Forall2_lookup_r _ _ _ _ _ Hf Hn) as (d & Hd & Ed).
    assert (d = KdGlobal) as ->.
    { destruct d as [| |h t p|[h|]|h m]; cbn in Ed; try done; unfold compile_ip_dimension in Ed; repeat case_match; try done;
        destruct (parse_header_name _ _); by simplify_eq. }
    apply andb_false_iff in Hg as [Hg|Hg].
    + exfalso. assert (existsb is_global (spec_dimensions spec) = true); [|congruence].
      apply existsb_exists. exists KdGlobal. split; [|done]. by eapply list_elem_of_In, list_elem_of_lookup_2.
    + apply Nat.ltb_ge in Hg. destruct (spec_dimensions spec) as [|d0 [|]]; [done| |cbn in Hg; lia].
      inversion Hf as [|? c' ? cs' Hc' Hf']; simplify_eq. inversion Hf'; simplify_eq. apply list_lookup_singleton_Some in Hn as [_ <-]. done.
  - by rewrite sort_by_perm.
  - apply Forall_forall. intros x Hx. rewrite sort_by_perm in Hx. apply list_elem_of_lookup_1 in Hx as [n Hn].
    destruct (Forall2_lookup_r _ _ _ _ _ Hf Hn) as (d & Hd & Ed).
    destruct x as [| | | |name m]; try done. destruct d as [| |h t p|[h|]|h pol]; cbn in Ed; try done.
    + unfold compile_ip_dimension in Ed. repeat case_match; try done; destruct (parse_header_name _ _); by simplify_eq.
    + destruct (parse_header_name _ _); by simplify_eq.
    + case_bool_decide; [done|]. unfold parse_header_name in Ed. destruct (header_name (trim h)) as [nm|] eqn:Eh; cbn in Ed; [|done].
      simplify_eq. by apply header_name_no_nul in Eh.
Qed.

(** C9. Two requests are charged to the same budget exactly when they agree on
    every configured dimension: the authenticated subject, the client's network,
    the model, the value of each named header, or their absence; the only other
    way to share a key is a collision of SHA-256. *)
Theorem budget_key_partition spec c i j k k' :
  compile_key_spec spec = Ok c -> inputs_wf i -> inputs_wf j ->
  resolve c i = Admit k -> resolve c j = Admit k' ->
  ((forall d, d ∈ dimensions c -> dimension_value d i = dimension_value d j) -> k = k') /\
  (k = k' -> (forall d, d ∈ dimensions c -> dimension_value d i = dimension_value d j) \/ collision).
Proof.
  intros (Hg & Hnd & Hnul)%compiled_dimensions Hi Hj. rewrite <- (values_agree (dimensions c) i j). unfold resolve.
  destruct Hg as [->|Hg]; [intros [= <-] [= <-]; by auto|].
  assert (forall x, match dimensions c with [Global] => Admit FALLBACK_KEY | ds => resolve_dimensions ds (missing c) x [] end
    = resolve_dimensions (dimensions c) (missing c) x []) as Heq.
  { intros x. by destruct (dimensions c) as [|[] [|]]. }
  rewrite !Heq. intros ->%resolve_dimensions_values ->%resolve_dimensions_values; [|done..]. cbn [app].
  split; [by intros ->|]. rewrite Forall_forall in Hnul.
  assert (forall x, inputs_wf x -> Forall good_part (uncurry part_of <$> values (dimensions c) x)) as Hgood.
  { intros x Hx. apply Forall_fmap, Forall_forall. intros [d v] [_ Hv]%elem_of_values. cbn. by eapply part_of_good, dimension_value_ok. }
  intros [E|]%join_parts_inj; [|by right|by apply Hgood..].
  apply (fmap_or _ _ _ collision) in E; [exact E|]. intros [d v] [d' v'] [Hd Hv]%elem_of_values [Hd' Hv']%elem_of_values Ep.
  apply part_of_inj in Ep as [[Eo Ev]|]; [|by right|by apply Hnul|by apply Hnul|by apply (dimension_value_ok d i)|by apply (dimension_value_ok d' j)].
  left. assert (d = d') as ->; [|by rewrite Ev]. apply list_elem_of_lookup_1 in Hd as [n Hn], Hd' as [n' Hn'].
  assert (n = n') as <-; [|congruence]. eapply NoDup_lookup; [exact Hnd|by rewrite list_lookup_fmap, Hn|].
  by rewrite list_lookup_fmap, Hn', Eo.
Qed.
End Partition.

(** * The fingerprint of a key policy *)

Lemma be_bytes_length k n : length (be_bytes k n) = k.
Proof. revert n. induction k as [|k IH]; intros n; [done|]. cbn. rewrite length_app, IH. cbn. lia. Qed.

Lemma of_N_inj a b : a < 256 -> b < 256 -> default x00 (Byte.of_N a) = default x00 (Byte.of_N b) -> a = b.
Proof.
  intros Ha Hb E.
  destruct (Byte.of_N a) as [x|] eqn:Ex; [|apply Byte.of_N_None_iff in Ex; lia].
  destruct (Byte.of_N b) as [y|] eqn:Ey; [|apply Byte.of_N_None_iff in Ey; lia].
  cbn in E. subst. apply Byte.to_of_N in Ex, Ey. congruence.
Qed.

Lemma be_bytes_inj k n n' : n < 256 ^ N.of_nat k -> n' < 256 ^ N.of_nat k -> be_bytes k n = be_bytes k n' -> n = n'.
Proof.
  revert n n'. induction k as [|k IH]; intros n n' Hn Hn'; cbn [be_bytes]; [cbn in *; lia|].
  rewrite Nat2N.inj_succ, N.pow_succ_r' in Hn, Hn'. intros [Hq Hr]%app_inj_2; [|done]. injection Hr as Hr.
  apply of_N_inj in Hr; [|by apply N.mod_lt..]. apply IH in Hq; [|by apply N.Div0.div_lt_upper_bound..].
  rewrite (N.div_mod' n 256), (N.div_mod' n' 256). lia.
Qed.

Definition text_fits (s : string) : Prop := str_len s < 256 ^ 8.

(** The widths of the configured fields. *)
Definition dimension_wf (d : CompiledDimension) : Prop :=
  match d with
  | Global | AuthenticatedSubject => True
  | Ip h t p => (forall n, h = Some n -> text_fits n) /\ t < 256 ^ 4 /\ (forall q, p = Some q -> q < 256)
  | Model n | Header n _ => text_fits n
  end.

Lemma be_bytes_app_inj k n n' r r' :
  n < 256 ^ N.of_nat k -> n' < 256 ^ N.of_nat k -> be_bytes k n ++ r = be_bytes k n' ++ r' -> n = n' /\ r = r'.
Proof. intros Hn Hn' [E ->]%app_inj_1; [|by rewrite !be_bytes_length]. split; [by eapply be_bytes_inj|done]. Qed.

Lemma digest_string_inj s s' r r' :
  text_fits s -> text_fits s' -> digest_string s ++ r = digest_string s' ++ r' -> s = s' /\ r = r'.
Proof.
  unfold text_fits, digest_string. intros Hs Hs'. assert (256 ^ 8 = u64_max + 1) as E8 by reflexivity.
  rewrite (N.min_l (str_len s)), (N.min_l (str_len s')), <- !app_assoc by lia.
  intros [Hl E]%be_bytes_app_inj; [|done..]. apply app_inj_1 in E as [E ->]; [by apply string_bytes_inj in E as ->|].
  rewrite !string_bytes_length. unfold str_len in Hl. lia.
Qed.

Lemma digest_optional_inj s s' r r' :
  (forall n, s = Some n -> text_fits n) -> (forall n, s' = Some n -> text_fits n) ->
  digest_optional_string s ++ r = digest_optional_string s' ++ r' -> s = s' /\ r = r'.
Proof.
  intros Hs Hs'. destruct s as [s|], s' as [s'|]; cbn [digest_optional_string]; try discriminate.
  - intros E. change ([x01] ++ (digest_string s ++ r) = [x01] ++ (digest_string s' ++ r')) in E.
    apply app_inv_head, digest_string_inj in E as [-> ->]; auto.
  - by intros ->%(app_inv_head [x00]).
Qed.

Lemma digest_dimension_inj d d' r r' :
  dimension_wf d -> dimension_wf d' -> digest_dimension d ++ r = digest_dimension d' ++ r' -> d = d' /\ r = r'.
Proof.
  destruct d as [| |h t p|n|n m], d' as [| |h' t' p'|n'|n' m']; cbn [dimension_wf digest_dimension]; intros Hd Hd' E; try discriminate;
    rewrite <- ?app_assoc in E; try (by apply app_inv_head in E).
  - apply app_inv_head in E. destruct Hd as (Hh & Ht & Hp), Hd' as (Hh' & Ht' & Hp').
    apply digest_optional_inj in E as [-> E]; [|done..]. apply be_bytes_app_inj in E as [-> E]; [|done..].
    destruct p as [p|], p' as [p'|]; try discriminate.
    + change ([x01] ++ (be_bytes 1 p ++ r) = [x01] ++ (be_bytes 1 p' ++ r')) in E.
      apply app_inv_head, be_bytes_app_inj in E as [-> ->]; auto.
    + by apply (app_inv_head [x00]) in E as ->.
  - apply app_inv_head, digest_string_inj in E as [-> ->]; done.
  - apply app_inv_head, digest_string_inj in E as [-> E]; [|done..]. injection E as Em ->. by destruct m, m'.
Qed.

Lemma digests_inj ds ds' :
  Forall dimension_wf ds -> Forall dimension_wf ds' -> length ds = length ds' ->
  concat (digest_dimension <$> ds) = concat (digest_dimension <$> ds') -> ds = ds'.
Proof.
  intros Hd. revert ds'. induction Hd as [|d ds Hd Hds IH]; intros [|d' ds'] Hd' Hl E; try done.
  apply Forall_cons in Hd' as [Hd' Hds']. rewrite !fmap_cons in E. cbn [concat] in E.
  apply digest_dimension_inj in E as [-> E]; [|done..]. f_equal. apply IH; auto.
Qed.

Lemma encode_hex_inj a b : encode_hex a = encode_hex b -> a = b.
Proof. intros E. pose proof (decode_encode a) as Ha. rewrite E, decode_encode in Ha. congruence. Qed.

(** Two replicas with the same fingerprint resolve keys alike: the fingerprint
    determines the dimensions, their options and the policy, up to a collision. *)
Theorem fingerprint_separates `{Sha256} c c' :
  Forall dimension_wf (dimensions c) -> Forall dimension_wf (dimensions c') ->
  N.of_nat (length (dimensions c)) < 256 ^ 8 -> N.of_nat (length (dimensions c')) < 256 ^ 8 ->
  config_fingerprint c = config_fingerprint c' -> c = c' \/ collision.
Proof.
  intros Hd Hd' Hl Hl' [E|]%encode_hex_inj%sha256_or; [left|by right]. unfold fingerprint_input in E.
  apply app_inv_head in E. change ([?a; ?b] ++ ?r) with ([a] ++ ([b] ++ r)) in E. apply app_inv_head in E.
  apply app_inj_1 in E as [Em E]; [|done]. injection Em as Em. assert (256 ^ 8 = u64_max + 1) as E8 by reflexivity.
  rewrite !N.min_l in E by lia. apply be_bytes_app_inj in E as [Hn E]; [|done..].
  apply digests_inj in E; [|done..|lia]. destruct c as [ds m], c' as [ds' m']. cbn in *. subst. by destruct m, m'.
Qed.

Module KeySample.
(** Headers of visible text, and a digest and an encoding that keep everything. *)
#[local] Instance text_headers : HeaderTypes.
Proof.
  refine {| to_str b := Some (bytes_string b); header_value s := Some (string_bytes s);
            header_name s := if bool_decide (x00 ∈ string_bytes s) then Err "invalid"%string else Ok s |}.
  - intros b s [= <-]. apply String.list_byte_of_string_of_list_byte.
  - intros s n. case_bool_decide; [done|]. by intros [= <-].
Defined.
#[local] Instance plain : Sha256 := {| sha256 b := b |}.

Lemma hex_lacks_bar b : lacks "|" (encode_hex b) = true.
Proof. induction b as [|x b IH]; [done|]. cbn [encode_hex]. rewrite lacks_app, IH. by destruct x. Qed.

#[local] Instance hex64 : Base64Url.
Proof. refine {| b64url := encode_hex |}; [exact encode_hex_inj|exact hex_lacks_bar]. Defined.

Definition spec : KeySpec :=
  mkKeySpec [KdHeader "x-team" (Some PolicyFallback); KdIp (Some "x-forwarded-for"%string) 1 (Some 64); KdAuthenticatedSubject] PolicyReject.
Definition request (team : option string) (hops : string) : KeyInputs :=
  mkKeyInputs (Some "alice"%string) None
    (("x-forwarded-for"%string, bstr hops) :: match team with Some t => [("x-team"%string, bstr t)] | None => [] end) None.

Lemma key_order_free_witness :
  compile_key_spec (mkKeySpec (rev (spec_dimensions spec)) PolicyReject) = compile_key_spec spec.
Proof.
  destruct (compile_key_spec spec) as [c|] eqn:E; [|vm_compute in E; discriminate].
  apply (key_order_free (spec_dimensions spec)); [apply Permutation_rev|exact E].
Defined.

(** Addresses of one /64 share a budget; another team does not. *)
Lemma budget_key_partition_witness :
  exists c k k', compile_key_spec spec = Ok c /\
    resolve c (request (Some "a"%string) "9.9.9.9, 2001:db8::1, 10.0.0.1") = Admit k /\
    resolve c (request (Some "a"%string) "[2001:db8:0:0:ffff::2]:80, 10.0.0.1") = Admit k /\
    resolve c (request (Some "b"%string) "2001:db8::1, 10.0.0.1") = Admit k' /\ k <> k'.
Proof.
  destruct (compile_key_spec spec) as [c|] eqn:E; [|vm_compute in E; discriminate].
  destruct (resolve c (request (Some "a"%string) "9.9.9.9, 2001:db8::1, 10.0.0.1")) as [k|] eqn:Ek;
    [|vm_compute in E; injection E as <-; vm_compute in Ek; discriminate].
  destruct (resolve c (request (Some "b"%string) "2001:db8::1, 10.0.0.1")) as [k'|] eqn:Ek';
    [|vm_compute in E; injection E as <-; vm_compute in Ek'; discriminate].
  destruct (resolve c (request (Some "a"%string) "[2001:db8:0:0:ffff::2]:80, 10.0.0.1")) as [k2|] eqn:Ek2;
    [|vm_compute in E; injection E as <-; vm_compute in Ek2; discriminate].
  assert (forall t h, inputs_wf (request t h)) as Hw by (intros t h x; discriminate).
  exists c, k, k'. split_and!; try done.
  - rewrite Ek2. f_equal. symmetry. refine (proj1 (budget_key_partition spec c _ _ k k2 E (Hw _ _) (Hw _ _) Ek Ek2) _).
    intros d Hd. vm_compute in E. injection E as <-. cbn in Hd. set_unfold in Hd. destruct Hd as [->|[->|[->|[]]]]; vm_compute; reflexivity.
  - intros Hk. destruct (proj2 (budget_key_partition spec c _ _ k k' E (Hw _ _) (Hw _ _) Ek Ek') Hk) as [Hv|(x & y & Hne & He)].
    + vm_compute in E. injection E as <-. specialize (Hv (Header "x-team" PolicyFallback)). vm_compute in Hv.
      assert (Some (ValueBytes [x61]) = Some (ValueBytes [x62])) as [=]. apply Hv. set_solver.
    + done.
Defined.
End KeySample.
