(* ===== verification/RateLimitRules.v ===== *)
(** Rules of the token rate limiter ([filters/src/token_rate_limit/mod.rs], up to
    the filter itself, with the configuration types of [config.rs]): estimation
    of a request's cost, graduated tiers, soft over-quota annotation, and the
    compilation of the configuration.

    Maps of the configuration are lists in key order.  Header types and the
    reserved names belong to other crates.  The backend a Valkey rule gets is a
    parameter [R] with its constructors.  Where a message ends in the text of a
    library's error, that text is left out. *)

From S2P Require Import Prelude Utf8 MetaCodec RustStr Float64 Ledger TokenBucket Weights QuotaBackend.
From S2P Require Import IpText Routing BudgetKeys.
From Stdlib Require Import Strings.Ascii Floats.SpecFloat.

Local Open Scope N_scope.
Local Open Scope rust_scope.

(** * Configuration *)

Inductive RuleAlgorithm :=
| SlidingWindow (window : string) (capacity : N)
| TokenBucketAlgorithm (capacity : N) (refill_rate : f64).

Definition algorithm_capacity (a : RuleAlgorithm) : N :=
  match a with SlidingWindow _ c => c | TokenBucketAlgorithm c _ => c end.

Inductive EstimationStrategy := StrategyFixed | StrategyMaxTokens | StrategyInputPlusMaxTokens | StrategyModelScaled.

Record EstimationConfig := mkEstimationConfig {
  est_strategy : EstimationStrategy;
  est_multiplier : option f64;
  est_fallback : option N;
  est_model_multipliers : option (list (string * f64));
  est_default_multiplier : option f64;
  est_bytes_per_token : option f64
}.

Inductive ActionType := ActionInject | ActionDeny.
Record TierConfig := mkTierConfig { tc_capacity : N; tc_action : ActionType; tc_headers : list (string * string) }.

Inductive EnforcementMode := Hard | Soft.
Record OverQuotaConfig := mkOverQuotaConfig {
  oq_headers : list (string * string);
  oq_include_remaining : bool;
  oq_include_used : bool;
  oq_remaining_header : option string;
  oq_used_header : option string
}.

Record RuleConfig := mkRuleConfig {
  rule_name : string;
  rule_match : option (list (string * string));
  rule_algorithm : RuleAlgorithm;
  rule_reserved_tokens : option N;
  rule_estimation : option EstimationConfig;
  rule_reservation_timeout : option string;
  rule_weights : TokenTypeWeightsConfig;
  rule_tiers : option (list TierConfig);
  rule_enforcement : EnforcementMode;
  rule_over_quota : option OverQuotaConfig
}.

Inductive BackendKind := KindMemory | KindValkey.
Record BackendConfig := mkBackendConfig { backend_kind : BackendKind; backend_url : option string; backend_namespace : option string }.

Record TokenRateLimitConfig := mkRateLimitConfig {
  cfg_rules : list RuleConfig;
  cfg_key : KeySpec;
  cfg_max_keys : N;
  cfg_backend : BackendConfig;
  cfg_default_weights : TokenTypeWeightsConfig
}.

Definition DEFAULT_RESERVATION_TIMEOUT : string := "30s".
Definition MAX_ACTIVE_RESERVATIONS : N := 200000.
Definition MAX_ESTIMATION_BODY_BYTES : N := 2097152.
Definition DEFAULT_USED_QUOTA_HEADER : string := "X-Token-Quota-Used".
Definition HEADER_RATELIMIT_LIMIT_TOKENS : string := "X-RateLimit-Limit-Tokens".
Definition HEADER_RATELIMIT_REMAINING_TOKENS : string := "X-RateLimit-Remaining-Tokens".
Definition HEADER_RATELIMIT_RESET : string := "X-RateLimit-Reset-Tokens".

Inductive ConfigError := Message (text : string) | WeightError (e : weight_error).

Definition rule_error {A} (name text : string) : result ConfigError A :=
  Err (Message ("token_rate_limit: rule '" +:+ name +:+ "': " +:+ text)).
Definition config_error {A} (text : string) : result ConfigError A := Err (Message ("token_rate_limit: " +:+ text)).

(** * Durations *)

(** [str::strip_suffix]. *)
Definition strip_suffix (p s : string) : option string :=
  if ends_with s p then Some (String.substring 0 (String.length s - String.length p) s) else None.

Definition parse_duration_ms (value : string) : result ConfigError N :=
  let value := trim value in
  let parsed :=
    match strip_suffix "ms" value with
    | Some v => Some (v, 1)
    | None =>
        match strip_suffix "s" value with
        | Some v => Some (v, 1000)
        | None =>
            match strip_suffix "m" value with
            | Some v => Some (v, 60000)
            | None => match strip_suffix "h" value with Some v => Some (v, 3600000) | None => None end
            end
        end
    end in
  match parsed with
  | None => config_error ("invalid duration '" +:+ value +:+ "'")
  | Some (number, multiplier) =>
      match parse_u64 number with
      | None => config_error ("invalid duration '" +:+ value +:+ "'")
      | Some amount =>
          if u64_max <? amount * multiplier then config_error "duration overflow"
          else if amount * multiplier =? 0 then config_error "duration must be positive"
          else Ok (amount * multiplier)
      end
  end.

(** * Estimation *)

Inductive CompiledEstimation :=
| Fixed (estimate : N)
| MaxTokens (fallback_estimate : option N) (multiplier : f64)
| InputPlusMaxTokens (fallback_estimate : option N) (multiplier bytes_per_token : f64)
| ModelScaled (fallback_estimate : option N) (model_multipliers : list (string * f64)) (default_multiplier : f64).

Definition needs_body (e : CompiledEstimation) : bool := match e with Fixed _ => false | _ => true end.

Definition extract_max_tokens (probe : option BodyProbe) (fallback : option N) : option N :=
  match probe ≫= (fun p => match max_tokens p with Some n => Some n | None => max_completion_tokens p end) with
  | Some n => Some n
  | None => fallback
  end.

Definition apply_multiplier (raw : N) (multiplier : f64) : N :=
  f64_to_u64 (f64_ceil (f64_mul (f64_of_N raw) multiplier)).

Section Estimate.
Context `{HeaderTypes}.

Definition content_length_tokens (h : HeaderMap) (bytes_per_token : f64) : N :=
  let content_length := default 0 (v ← headers_get h "content-length"; s ← to_str v; parse_u64 s) in
  f64_to_u64 (f64_ceil (f64_div (f64_of_N content_length) bytes_per_token)).

Definition map_get {A} (m : list (string * A)) (k : string) : option A :=
  snd <$> List.find (fun e => bool_decide (e.1 = k)) m.

Definition resolve_model_multiplier (probe : option BodyProbe) (h : HeaderMap) (model_multipliers : list (string * f64))
    (default_multiplier : f64) : f64 :=
  let model_name := match probe ≫= probe_model with
                    | Some m => Some m
                    | None => headers_get h DEFAULT_MODEL_HEADER ≫= to_str
                    end in
  default default_multiplier (model_name ≫= map_get model_multipliers).

(** [CompiledEstimation::estimate]. *)
Definition estimate_request (e : CompiledEstimation) (h : HeaderMap) (probe : option BodyProbe) : option N :=
  match e with
  | Fixed n => Some n
  | MaxTokens fallback multiplier => raw ← extract_max_tokens probe fallback; Some (apply_multiplier raw multiplier)
  | InputPlusMaxTokens fallback multiplier bytes_per_token =>
      let input := content_length_tokens h bytes_per_token in
      output ← extract_max_tokens probe fallback;
      Some (apply_multiplier (saturating_add input output) multiplier)
  | ModelScaled fallback model_multipliers default_multiplier =>
      raw ← extract_max_tokens probe fallback;
      Some (apply_multiplier raw (resolve_model_multiplier probe h model_multipliers default_multiplier))
  end.
End Estimate.

Definition positive_finite (v : f64) : bool := is_finite v && negb (SFleb v (f64_of_N 0)).

Definition validate_positive_finite (name param : string) (v : f64) : result ConfigError unit :=
  if positive_finite v then Ok tt else rule_error name (param +:+ " must be finite and positive").

Definition validate_fallback_within_capacity (name : string) (fallback : option N) (cap : N) : result ConfigError unit :=
  match fallback with
  | Some fb => if cap <? fb then rule_error name "fallback_estimate must not exceed capacity" else Ok tt
  | None => Ok tt
  end.

Definition reject_unused_estimation_fields (name strategy : string) (unused : list (string * bool)) : result ConfigError unit :=
  match fst <$> List.filter snd unused with
  | [] => Ok tt
  | f :: fs => rule_error name (strategy +:+ " strategy does not accept " +:+ foldl (fun acc x => acc +:+ ", " +:+ x) f fs)
  end.

Definition present {A} (o : option A) : bool := match o with Some _ => true | None => false end.

Definition compile_fixed_estimation (name : string) (est : EstimationConfig) (multiplier : f64) (cap : N)
    : result ConfigError CompiledEstimation :=
  let? _ := reject_unused_estimation_fields name "fixed"
    [("model_multipliers"%string, present (est_model_multipliers est)); ("default_multiplier"%string, present (est_default_multiplier est));
     ("bytes_per_token"%string, present (est_bytes_per_token est))] in
  match est_fallback est with
  | None => rule_error name "fixed strategy requires fallback_estimate"
  | Some estimate =>
      let effective := f64_to_u64 (f64_ceil (f64_mul (f64_of_N estimate) multiplier)) in
      if effective =? 0 then rule_error name "effective fixed estimate must be greater than 0"
      else if cap <? effective then rule_error name "effective fixed estimate must not exceed capacity"
      else Ok (Fixed effective)
  end.

Definition compile_max_tokens_estimation (name : string) (est : EstimationConfig) (multiplier : f64) (cap : N)
    : result ConfigError CompiledEstimation :=
  let? _ := reject_unused_estimation_fields name "max_tokens"
    [("model_multipliers"%string, present (est_model_multipliers est)); ("default_multiplier"%string, present (est_default_multiplier est));
     ("bytes_per_token"%string, present (est_bytes_per_token est))] in
  let? _ := validate_fallback_within_capacity name (est_fallback est) cap in
  Ok (MaxTokens (est_fallback est) multiplier).

Definition compile_input_plus_estimation (name : string) (est : EstimationConfig) (multiplier : f64) (cap : N)
    : result ConfigError CompiledEstimation :=
  let? _ := reject_unused_estimation_fields name "input_plus_max_tokens"
    [("model_multipliers"%string, present (est_model_multipliers est)); ("default_multiplier"%string, present (est_default_multiplier est))] in
  let bytes_per_token := default (f64_of_N 4) (est_bytes_per_token est) in
  let? _ := validate_positive_finite name "estimation.bytes_per_token" bytes_per_token in
  let? _ := validate_fallback_within_capacity name (est_fallback est) cap in
  Ok (InputPlusMaxTokens (est_fallback est) multiplier bytes_per_token).

Fixpoint validate_model_multipliers (name : string) (ms : list (string * f64)) : result ConfigError unit :=
  match ms with
  | [] => Ok tt
  | (model, mult) :: ms =>
      if positive_finite mult then validate_model_multipliers name ms
      else rule_error name ("model_multipliers['" +:+ model +:+ "'] must be finite and positive")
  end.

Definition compile_model_scaled_estimation (name : string) (est : EstimationConfig) (multiplier : f64) (cap : N)
    : result ConfigError CompiledEstimation :=
  let? _ := reject_unused_estimation_fields name "model_scaled" [("bytes_per_token"%string, present (est_bytes_per_token est))] in
  let default_multiplier := f64_mul (default (f64_of_N 1) (est_default_multiplier est)) multiplier in
  let? _ := validate_positive_finite name "estimation.default_multiplier" default_multiplier in
  let model_multipliers := prod_map id (fun mult => f64_mul mult multiplier) <$> default [] (est_model_multipliers est) in
  let? _ := validate_model_multipliers name model_multipliers in
  let? _ := validate_fallback_within_capacity name (est_fallback est) cap in
  Ok (ModelScaled (est_fallback est) model_multipliers default_multiplier).

Definition compile_estimation_config (name : string) (est : EstimationConfig) (cap : N) : result ConfigError CompiledEstimation :=
  let multiplier := default (f64_of_N 1) (est_multiplier est) in
  let? _ := validate_positive_finite name "estimation.multiplier" multiplier in
  match est_strategy est with
  | StrategyFixed => compile_fixed_estimation name est multiplier cap
  | StrategyMaxTokens => compile_max_tokens_estimation name est multiplier cap
  | StrategyInputPlusMaxTokens => compile_input_plus_estimation name est multiplier cap
  | StrategyModelScaled => compile_model_scaled_estimation name est multiplier cap
  end.

Definition compile_estimation (name : string) (reserved_tokens : option N) (estimation : option EstimationConfig) (cap : N)
    : result ConfigError CompiledEstimation :=
  if present reserved_tokens && present estimation then rule_error name "cannot specify both reserved_tokens and estimation"
  else
    match estimation, reserved_tokens with
    | Some est, _ => compile_estimation_config name est cap
    | None, Some reserved => Ok (Fixed reserved)
    | None, None => rule_error name "must have either reserved_tokens or estimation"
    end.

(** * Tiers and annotations *)

(** [praxis_core::reserved_headers]. *)
Class ReservedHeaders := { HOP_BY_HOP_HEADERS : list string; is_reserved : string -> bool }.

Abbreviation RequestHeaders := (list (string * bytes)).

Inductive CompiledAction := Inject (headers : RequestHeaders) | Deny.
Record CompiledTier := mkTier { tier_capacity : N; tier_action : CompiledAction }.

Record CompiledOverQuota := mkOverQuota {
  over_headers : RequestHeaders;
  strip_names : list string;
  remaining_header : option string;
  used_header : option string
}.

Section Headers.
Context `{HeaderTypes} `{ReservedHeaders}.

Definition reject_reserved_request_header (name loc header : string) : result ConfigError unit :=
  if bool_decide (header = "host"%string) || bool_decide (header = "content-length"%string)
     || bool_decide (header = "transfer-encoding"%string) || bool_decide (header ∈ HOP_BY_HOP_HEADERS) || is_reserved header
  then rule_error name (loc +:+ " uses reserved/hop-by-hop header '" +:+ header +:+ "'")
  else Ok tt.

(** The closure of [compile_request_headers] on one entry. *)
Definition compile_request_header (name loc : string) (h v : string) : result ConfigError (string * bytes) :=
  match header_name h with
  | Err _ => rule_error name ("invalid " +:+ loc +:+ " header '" +:+ h +:+ "'")
  | Ok header =>
      let? _ := reject_reserved_request_header name loc header in
      match header_value v with
      | None => rule_error name ("invalid " +:+ loc +:+ " header value for '" +:+ h +:+ "'")
      | Some value => Ok (header, value)
      end
  end.

Fixpoint collect_results {A B} (f : A -> result ConfigError B) (l : list A) : result ConfigError (list B) :=
  match l with
  | [] => Ok []
  | x :: l => let? y := f x in let? ys := collect_results f l in Ok (y :: ys)
  end.

Fixpoint reject_duplicate_headers (name loc : string) (seen : list string) (l : RequestHeaders) : result ConfigError unit :=
  match l with
  | [] => Ok tt
  | (h, _) :: l =>
      if bool_decide (h ∈ seen) then rule_error name (loc +:+ " has duplicate header '" +:+ h +:+ "' (after case normalization)")
      else reject_duplicate_headers name loc (h :: seen) l
  end.

Definition compile_request_headers (name loc : string) (hs : list (string * string)) : result ConfigError RequestHeaders :=
  let? compiled := collect_results (fun '(h, v) => compile_request_header name loc h v) hs in
  let? _ := reject_duplicate_headers name loc [] compiled in
  Ok compiled.

Definition validate_tier_ordering (name : string) (index : nat) (cap prev : N) (saw_deny : bool) : result ConfigError unit :=
  let at_index := "tier at index " +:+ usize_to_string (N.of_nat index) in
  if saw_deny then rule_error name ("deny tier must be the last tier (found " +:+ at_index +:+ " after deny)")
  else if cap =? 0 then rule_error name (at_index +:+ " must have capacity > 0")
  else if (0 <? index)%nat && (cap <=? prev) then
    rule_error name ("tier capacities must be strictly ascending (" +:+ at_index +:+ " has capacity " +:+ usize_to_string cap +:+
      " <= previous " +:+ usize_to_string prev +:+ ")")
  else Ok tt.

Definition compile_inject_tier_action (name : string) (index : nat) (tier : TierConfig) (algorithm_cap : N)
    : result ConfigError CompiledAction :=
  let at_index := "inject tier at index " +:+ usize_to_string (N.of_nat index) in
  if algorithm_cap <? tc_capacity tier then
    rule_error name (at_index +:+ " has capacity (" +:+ usize_to_string (tc_capacity tier) +:+ ") above the algorithm's capacity (" +:+
      usize_to_string algorithm_cap +:+ "); it would never fire")
  else if bool_decide (tc_headers tier = []) then rule_error name (at_index +:+ " must have at least one header")
  else let? headers := compile_request_headers name "inject" (tc_headers tier) in Ok (Inject headers).

(** [compile_tier_action], with the flag it sets. *)
Definition compile_tier_action (name : string) (index : nat) (tier : TierConfig) (algorithm_cap : N) (saw_deny : bool)
    : result ConfigError (CompiledAction * bool) :=
  match tc_action tier with
  | ActionInject => let? a := compile_inject_tier_action name index tier algorithm_cap in Ok (a, saw_deny)
  | ActionDeny =>
      if negb (tc_capacity tier =? algorithm_cap) then
        rule_error name ("deny tier capacity (" +:+ usize_to_string (tc_capacity tier) +:+ ") must equal the algorithm's capacity (" +:+
          usize_to_string algorithm_cap +:+ ")")
      else Ok (Deny, true)
  end.

(** The loop of [compile_tiers]. *)
Fixpoint compile_tier_list (name : string) (algorithm_cap : N) (index : nat) (prev : N) (saw_deny : bool) (tiers : list TierConfig)
    : result ConfigError (list CompiledTier) :=
  match tiers with
  | [] => Ok []
  | tier :: tiers =>
      let? _ := validate_tier_ordering name index (tc_capacity tier) prev saw_deny in
      let? action := compile_tier_action name index tier algorithm_cap saw_deny in
      let? rest := compile_tier_list name algorithm_cap (S index) (tc_capacity tier) action.2 tiers in
      Ok (mkTier (tc_capacity tier) action.1 :: rest)
  end.

Definition compile_tiers (name : string) (tiers : option (list TierConfig)) (algorithm_cap : N) : result ConfigError (list CompiledTier) :=
  match tiers with
  | None => Ok []
  | Some [] => rule_error name "tiers must not be empty when specified"
  | Some tiers => compile_tier_list name algorithm_cap 0 0 false tiers
  end.

Definition push_new (names : list string) (n : string) : list string :=
  if bool_decide (n ∈ names) then names else names ++ [n].

Definition collect_inject_header_names (tiers : list CompiledTier) : list string :=
  foldl (fun names tier =>
    match tier_action tier with
    | Inject headers => foldl (fun names h => push_new names h.1) names headers
    | Deny => names
    end) [] tiers.

(** ** Over-quota annotation *)

Definition require_over_quota_surface (name : string) (cfg : OverQuotaConfig) : result ConfigError unit :=
  if bool_decide (oq_headers cfg = []) && negb (oq_include_remaining cfg) && negb (oq_include_used cfg)
  then rule_error name "over_quota must set at least one header or enable include_remaining / include_used"
  else Ok tt.

Definition reject_unused_quota_header_names (name : string) (cfg : OverQuotaConfig) : result ConfigError unit :=
  if negb (oq_include_remaining cfg) && present (oq_remaining_header cfg)
  then rule_error name "over_quota.remaining_header requires include_remaining: true"
  else if negb (oq_include_used cfg) && present (oq_used_header cfg)
  then rule_error name "over_quota.used_header requires include_used: true"
  else Ok tt.

Definition compile_single_header_name (name loc h : string) : result ConfigError string :=
  match header_name h with
  | Err _ => rule_error name ("invalid " +:+ loc +:+ " '" +:+ h +:+ "'")
  | Ok header => let? _ := reject_reserved_request_header name loc header in Ok header
  end.

Definition optional_quota_header (name loc : string) (enabled : bool) (configured : option string) (default_name : string)
    : result ConfigError (option string) :=
  if enabled then let? h := compile_single_header_name name loc (default default_name configured) in Ok (Some h) else Ok None.

Definition compile_quota_metadata_headers (name : string) (cfg : OverQuotaConfig) : result ConfigError (option string * option string) :=
  let? r := optional_quota_header name "over_quota remaining_header" (oq_include_remaining cfg) (oq_remaining_header cfg)
              HEADER_RATELIMIT_REMAINING_TOKENS in
  let? u := optional_quota_header name "over_quota used_header" (oq_include_used cfg) (oq_used_header cfg) DEFAULT_USED_QUOTA_HEADER in
  Ok (r, u).

Definition push_unique_over_quota_name (name : string) (seen : list string) (h : string) : result ConfigError (list string) :=
  if bool_decide (h ∈ seen) then rule_error name ("duplicate over_quota header '" +:+ h +:+ "'") else Ok (seen ++ [h]).

Fixpoint push_all_unique (name : string) (seen : list string) (hs : list string) : result ConfigError (list string) :=
  match hs with
  | [] => Ok seen
  | h :: hs => let? seen := push_unique_over_quota_name name seen h in push_all_unique name seen hs
  end.

Definition reject_over_quota_name_collisions (name : string) (headers : RequestHeaders) (r u : option string) (inject_names : list string)
    : result ConfigError unit :=
  let? seen := push_all_unique name [] headers.*1 in
  if present r && bool_decide (r = u) then rule_error name "remaining_header and used_header must differ"
  else
    let? seen := push_all_unique name seen (option_list r ++ option_list u) in
    match List.find (fun h => bool_decide (h ∈ inject_names)) seen with
    | Some h => rule_error name ("over_quota header '" +:+ h +:+ "' collides with an S1 inject-tier header")
    | None => Ok tt
    end.

Definition collect_over_quota_strip_names (headers : RequestHeaders) (r u : option string) : list string :=
  foldl push_new headers.*1 (option_list r ++ option_list u).

Definition compile_over_quota_config (name : string) (cfg : OverQuotaConfig) (inject_names : list string)
    : result ConfigError CompiledOverQuota :=
  let? _ := require_over_quota_surface name cfg in
  let? _ := reject_unused_quota_header_names name cfg in
  let? headers := if bool_decide (oq_headers cfg = []) then Ok [] else compile_request_headers name "over_quota" (oq_headers cfg) in
  let? ru := compile_quota_metadata_headers name cfg in
  let? _ := reject_over_quota_name_collisions name headers ru.1 ru.2 inject_names in
  Ok (mkOverQuota headers (collect_over_quota_strip_names headers ru.1 ru.2) ru.1 ru.2).

Definition compile_over_quota (name : string) (enforcement : EnforcementMode) (over_quota : option OverQuotaConfig)
    (inject_names : list string) : result ConfigError (option CompiledOverQuota) :=
  match enforcement with
  | Hard =>
      if present over_quota then rule_error name "over_quota is rejected when enforcement is hard (only valid for soft)" else Ok None
  | Soft =>
      match over_quota with
      | None => rule_error name "enforcement soft requires over_quota"
      | Some cfg => let? c := compile_over_quota_config name cfg inject_names in Ok (Some c)
      end
  end.

Definition reject_deny_tier_with_soft_enforcement (name : string) (enforcement : EnforcementMode) (tiers : list CompiledTier)
    : result ConfigError unit :=
  match enforcement with
  | Hard => Ok tt
  | Soft =>
      if existsb (fun t => match tier_action t with Deny => true | _ => false end) tiers
      then rule_error name "deny tiers are incompatible with enforcement soft (deny never runs on the over-quota forward path)"
      else Ok tt
  end.

(** * Rules *)

Definition compile_matcher (name : string) (m : option (list (string * string))) : result ConfigError (option (list (string * string))) :=
  match m with
  | None => Ok None
  | Some hs =>
      let? l := collect_results (fun '(h, v) =>
        match header_name h with
        | Ok n => Ok (n, v)
        | Err _ => rule_error name ("invalid match header '" +:+ h +:+ "'")
        end) hs in
      Ok (Some l)
  end.

Definition validate_capacity_safe_integer_bound (name : string) (cap : N) : result ConfigError unit :=
  if cap =? 0 then rule_error name "capacity must be greater than 0"
  else if MAX_F64_SAFE_INTEGER <? cap then
    rule_error name ("capacity must not exceed " +:+ usize_to_string MAX_F64_SAFE_INTEGER +:+ " (2^53)")
  else Ok tt.

Definition validate_rule_bounds (rule : RuleConfig) (cap : N) : result ConfigError N :=
  let? _ := validate_capacity_safe_integer_bound (rule_name rule) cap in
  let? _ := match rule_reserved_tokens rule with
            | Some reserved =>
                if reserved =? 0 then rule_error (rule_name rule) "reserved_tokens must be greater than 0"
                else if cap <? reserved then rule_error (rule_name rule) "reserved_tokens must not exceed capacity"
                else Ok tt
            | None => Ok tt
            end in
  parse_duration_ms (default DEFAULT_RESERVATION_TIMEOUT (rule_reservation_timeout rule)).
End Headers.

(** The stable inputs of a shared backend. *)
Record AccountingPolicy := mkAccounting { acc_estimation : CompiledEstimation; acc_weights : TokenWeights; acc_key_fingerprint : string }.

(** The open Valkey connection [V] and the backends [R] built on it. *)
Class ValkeyBackends (V R : Type) := {
  valkey_connect : string -> result ConfigError V;
  valkey_sliding : V -> string -> string -> list Budget -> N -> N -> AccountingPolicy -> R;
  valkey_bucket : V -> string -> string -> N -> f64 -> N -> N -> AccountingPolicy -> result ConfigError R
}.

Inductive BackendResource (V : Type) := Memory | Valkey (valkey : V) (namespace : string).
Arguments Memory {V}.
Arguments Valkey {V}.

(** [Arc<dyn TokenRateLimitStateBackend>]. *)
Abbreviation DynBackend R := ((InMemoryTokenRateLimitBackend + InMemoryTokenBucketBackend) + R)%type.

Record CompiledRule := mkRule {
  name : string;
  matcher : option (list (string * string));
  estimation : CompiledEstimation;
  weights : TokenWeights;
  tiers : list CompiledTier;
  inject_header_names : list string;
  enforcement : EnforcementMode;
  over_quota : option CompiledOverQuota
}.

(** The compiled rules carry their backends. *)
Record TokenRateLimitFilter (B : Type) := mkRateLimitFilter {
  rules : list (CompiledRule * B);
  filter_needs_body : bool;
  key_spec : CompiledKeySpec;
  valkey_clock : bool
}.
Arguments mkRateLimitFilter {B}.
Arguments rules {B}.
Arguments filter_needs_body {B}.
Arguments key_spec {B}.
Arguments valkey_clock {B}.

Section Build.
Context {V R : Type} `{!ValkeyBackends V R} `{HeaderTypes} `{ReservedHeaders}.

Definition is_env_byte (index : nat) (c : ascii) : bool :=
  let n := N_of_ascii c in
  (n =? 95) || ((65 <=? n) && (n <=? 90)) || ((0 <? index)%nat && (48 <=? n) && (n <=? 57)).

Definition contains_reference (s : string) : bool := present (String.index 0 "${" s).

(** [expand_backend_url_with]; [lookup] reads the environment. *)
Definition expand_backend_url (lookup : string -> option string) (url : string) : result ConfigError string :=
  match String.index 0 "${" url with
  | None => Ok url
  | Some start =>
      let one := "backend.url supports one complete ${ENV_VAR} reference" in
      let name := if starts_with url "${" then strip_suffix "}" (String.substring 2 (String.length url - 2) url) else None in
      match name with
      | None => config_error one
      | Some name =>
          if negb (start =? 0)%nat || contains_reference name then config_error one
          else if bool_decide (name = ""%string)
                  || negb (forallb (fun ic => is_env_byte ic.1 ic.2) (imap (fun i c => (i, c)) (String.list_ascii_of_string name)))
          then config_error "backend.url contains an invalid environment variable reference"
          else match lookup name with Some v => Ok v | None => config_error "backend.url environment variable is not set" end
      end
  end.

Definition build_backend_resource (lookup : string -> option string) (b : BackendConfig) : result ConfigError (BackendResource V) :=
  match backend_kind b with
  | KindMemory => Ok Memory
  | KindValkey =>
      match backend_url b with
      | None => config_error "backend.url is required for backend.kind: valkey"
      | Some url =>
          let? url := expand_backend_url lookup url in
          let namespace := default "praxis:token_rate_limit" (backend_namespace b) in
          let? valkey := valkey_connect url in
          Ok (Valkey valkey namespace)
      end
  end.

Definition build_sw_valkey_backend (name : string) (budgets : list Budget) (timeout max_keys : N) (valkey : V) (namespace : string)
    (accounting : AccountingPolicy) : result ConfigError R :=
  let min_window := default 0 (iter_min (window_ms <$> budgets)) in
  if min_window <? timeout then
    rule_error name ("reservation_timeout (" +:+ usize_to_string timeout +:+ " ms) must not exceed the shortest window (" +:+
      usize_to_string min_window +:+ " ms) for the Valkey sliding_window backend")
  else Ok (valkey_sliding valkey namespace name budgets timeout max_keys accounting).

Definition build_sliding_window_backend (b : BackendResource V) (name : string) (budgets : list Budget) (timeout max_keys : N)
    (accounting : AccountingPolicy) : result ConfigError (DynBackend R) :=
  match b with
  | Memory =>
      match Ledger.new (mkLedgerConfig budgets timeout max_keys MAX_KEY_LENGTH MAX_ACTIVE_RESERVATIONS) with
      | Ok ledger => Ok (inl (inl (window_backend_new ledger)))
      | Err e => rule_error name e
      end
  | Valkey valkey namespace =>
      let? r := build_sw_valkey_backend name budgets timeout max_keys valkey namespace accounting in Ok (inr r)
  end.

Definition build_token_bucket_backend (b : BackendResource V) (name : string) (cap : N) (rate : f64) (timeout max_keys : N)
    (accounting : AccountingPolicy) : result ConfigError (DynBackend R) :=
  match b with
  | Memory =>
      match TokenBucket.new (mkTokenBucketConfig cap rate timeout max_keys MAX_KEY_LENGTH MAX_ACTIVE_RESERVATIONS) with
      | Ok ledger => Ok (inl (inr (bucket_backend_new ledger)))
      | Err e => rule_error name e
      end
  | Valkey valkey namespace =>
      let? r := valkey_bucket valkey namespace name cap rate timeout max_keys accounting in Ok (inr r)
  end.

Definition build_rule_backend (a : RuleAlgorithm) (b : BackendResource V) (name : string) (timeout max_keys : N)
    (accounting : AccountingPolicy) : result ConfigError (DynBackend R) :=
  match a with
  | SlidingWindow window cap =>
      let? window_ms := parse_duration_ms window in
      build_sliding_window_backend b name [mkBudget window_ms cap] timeout max_keys accounting
  | TokenBucketAlgorithm cap rate => build_token_bucket_backend b name cap rate timeout max_keys accounting
  end.

Definition map_weights {A} (r : result weight_error A) : result ConfigError A :=
  match r with Ok x => Ok x | Err e => Err (WeightError e) end.

(** [compile_rule]: the rule, and its backend. *)
Definition compile_rule (rule : RuleConfig) (b : BackendResource V) (filter_defaults : TokenWeights) (max_keys : N)
    (key_fingerprint : string) : result ConfigError (CompiledRule * DynBackend R) :=
  let cap := algorithm_capacity (rule_algorithm rule) in
  let? timeout := validate_rule_bounds rule cap in
  let? est := compile_estimation (rule_name rule) (rule_reserved_tokens rule) (rule_estimation rule) cap in
  let? ws := map_weights (overlay filter_defaults (rule_weights rule) ("rule '" +:+ rule_name rule +:+ "'")) in
  let accounting := mkAccounting est ws key_fingerprint in
  let? backend := build_rule_backend (rule_algorithm rule) b (rule_name rule) timeout max_keys accounting in
  let? matcher := compile_matcher (rule_name rule) (rule_match rule) in
  let? ts := compile_tiers (rule_name rule) (rule_tiers rule) cap in
  let? _ := reject_deny_tier_with_soft_enforcement (rule_name rule) (rule_enforcement rule) ts in
  let inject_names := collect_inject_header_names ts in
  let? oq := compile_over_quota (rule_name rule) (rule_enforcement rule) (rule_over_quota rule) inject_names in
  let inject_names := match oq with Some o => foldl push_new inject_names (strip_names o) | None => inject_names end in
  Ok (mkRule (rule_name rule) matcher est ws ts inject_names (rule_enforcement rule) oq, backend).


Fixpoint reject_duplicate_names (seen : list string) (rs : list RuleConfig) : result ConfigError unit :=
  match rs with
  | [] => Ok tt
  | r :: rs =>
      if bool_decide (rule_name r ∈ seen) then config_error ("duplicate rule name '" +:+ rule_name r +:+ "'")
      else reject_duplicate_names (rule_name r :: seen) rs
  end.

(** [from_config] on the parsed configuration. *)
Definition from_config `{Sha256} (lookup : string -> option string) (cfg : TokenRateLimitConfig)
    : result ConfigError (TokenRateLimitFilter (DynBackend R)) :=
  if bool_decide (length (cfg_rules cfg) = 0%nat) then config_error "at least one rule is required"
  else
    let? _ := reject_duplicate_names [] (cfg_rules cfg) in
    let? backend := build_backend_resource lookup (cfg_backend cfg) in
    let? filter_defaults := map_weights (overlay UNITY (cfg_default_weights cfg) "default_weights") in
    if cfg_max_keys cfg =? 0 then config_error "max_keys must be greater than 0"
    else
      let? spec := match compile_key_spec (cfg_key cfg) with Ok c => Ok c | Err e => Err (Message e) end in
      let? compiled := collect_results
        (fun rule => compile_rule rule backend filter_defaults (cfg_max_keys cfg) (config_fingerprint spec)) (cfg_rules cfg) in
      Ok (mkRateLimitFilter compiled (existsb (fun r => needs_body (estimation r.1)) compiled) spec
            (match backend with Valkey _ _ => true | Memory => false end)).
End Build.
