(* ===== verification/RateLimitFilter.v ===== *)
(** The token rate limit filter ([filters/src/token_rate_limit/mod.rs]): admission
    in the request hooks, reconciliation when the response ends.

    The filter is a value whose rules carry the states of their backends; a hook
    gives the filter after it.  [Ctx] holds the fields of the request context the
    filter uses.  The clock is an argument; metrics, accounting records and spans
    are left out.  The JSON reader is a parameter. *)

From S2P Require Import Prelude Utf8 MetaCodec RustStr Json Serde Float64 Ledger Weights QuotaBackend.
From S2P Require Import IpText Routing BudgetKeys RateLimitRules.
From Stdlib Require Import Strings.Ascii.

Local Open Scope N_scope.
Local Open Scope rust_scope.

Definition META_RESERVATION_ID : string := "token_rate_limit.reservation_id".
Definition META_BUCKET_KEY : string := "token_rate_limit.bucket_key".
Definition META_RULE_INDEX : string := "token_rate_limit.rule_index".
Definition META_ESTIMATE : string := "token_rate_limit.estimate".
Definition CLEANUP_SCAN_LIMIT : nat := 32.

Inductive TrustedHeaderMutation := MutationSet (name : string) (value : bytes) | MutationRemove (name : string).

Inductive FilterAction := Continue | Reject (status : N) (headers : list (string * string)).

Record Ctx := mkCtx {
  request_headers : HeaderMap;
  identity : option string;
  peer : option IpAddr;
  filter_metadata : Metadata;
  headers_to_set : RequestHeaders;
  headers_to_remove : list string;
  pre_read_mutations : list TrustedHeaderMutation
}.

Definition with_metadata (x : Ctx) (m : Metadata) : Ctx :=
  mkCtx (request_headers x) (identity x) (peer x) m (headers_to_set x) (headers_to_remove x) (pre_read_mutations x).
Definition with_headers (x : Ctx) (set : RequestHeaders) (remove : list string) (muts : list TrustedHeaderMutation) : Ctx :=
  mkCtx (request_headers x) (identity x) (peer x) (filter_metadata x) set remove muts.

(** * Request headers *)

Definition strip_request_headers (x : Ctx) (names : list string) (ordered : bool) : Ctx :=
  with_headers x (headers_to_set x) (headers_to_remove x ++ names)
    (pre_read_mutations x ++ if ordered then MutationRemove <$> names else []).

Definition is_ordered (x : Ctx) : bool := match pre_read_mutations x with [] => false | _ => true end.

Definition strip_spoofable_headers (x : Ctx) (r : CompiledRule) : Ctx :=
  strip_request_headers x (inject_header_names r) (is_ordered x).

Definition queue_tier_headers (x : Ctx) (hs : RequestHeaders) (ordered : bool) : Ctx :=
  with_headers x (headers_to_set x ++ hs) (headers_to_remove x)
    (pre_read_mutations x ++ if ordered then (fun h => MutationSet h.1 h.2) <$> hs else []).

(** [HeaderValue::from] a number: its decimal text. *)
Definition queue_dynamic_header (x : Ctx) (name : string) (value : N) (ordered : bool) : Ctx :=
  queue_tier_headers x [(name, string_bytes (usize_to_string value))] ordered.

(** The loop of [evaluate_tiers]. *)
Fixpoint apply_tiers (x : Ctx) (ts : list CompiledTier) (usage_after : N) (ordered : bool) : Ctx :=
  match ts with
  | [] => x
  | t :: ts =>
      if usage_after <? tier_capacity t then x
      else
        match tier_action t with
        | Inject hs => apply_tiers (queue_tier_headers x hs ordered) ts usage_after ordered
        | Deny => apply_tiers x ts usage_after ordered
        end
  end.
Definition evaluate_tiers (x : Ctx) (r : CompiledRule) (usage_after : N) : Ctx :=
  apply_tiers x (tiers r) usage_after (is_ordered x).

(** * Admission *)

Section Filter.
Context {B : Type} `{!StateBackend B} `{HeaderTypes} `{Sha256} `{Base64Url} `{MetadataApi}.
Context (from_slice : bytes -> option Json).

(** [BodyProbe] as its derived deserializer reads it. *)
Definition de_body_probe : De BodyProbe := de_struct (
  mkBodyProbe <$$> optional "max_tokens" de_u64 <**> optional "max_completion_tokens" de_u64 <**> optional "model" de_string)%serde.
Definition parse_body_probe (body : option bytes) : option BodyProbe := raw ← body; v ← from_slice raw; de_body_probe v.

(** [CompiledRule::matches]. *)
Definition matches (r : CompiledRule) (h : HeaderMap) : bool :=
  match matcher r with
  | None => true
  | Some conditions => forallb (fun '(n, v) => bool_decide ((headers_get h n ≫= to_str) = Some v)) conditions
  end.

Definition matching_rule (f : TokenRateLimitFilter B) (h : HeaderMap) : option (nat * (CompiledRule * B)) :=
  list_find (fun rb => matches rb.1 h = true) (rules f).

Definition set_backend (f : TokenRateLimitFilter B) (i : nat) (r : CompiledRule) (b : B) : TokenRateLimitFilter B :=
  mkRateLimitFilter (<[i := (r, b)]> (rules f)) (filter_needs_body f) (key_spec f) (valkey_clock f).

Definition resolve_key (f : TokenRateLimitFilter B) (x : Ctx) (probe : option BodyProbe) : KeyDecision :=
  resolve (key_spec f) (mkKeyInputs (identity x) (peer x) (request_headers x) probe).

(** [cleanup_and_record_state], less the metrics. *)
Definition cleanup_and_record_state (b : B) (now : N) : B :=
  match backend_cleanup now CLEANUP_SCAN_LIMIT b with Some (_, b) => b | None => b end.

Definition record_admission (x : Ctx) (rule_index : nat) (key : string) (reservation_id : N) : Ctx :=
  let m := set_metadata (filter_metadata x) META_RESERVATION_ID (usize_to_string reservation_id) in
  let m := set_metadata m META_BUCKET_KEY key in
  let m := set_metadata m META_RULE_INDEX (usize_to_string (N.of_nat rule_index)) in
  with_metadata x m.

Definition finish_admission (x : Ctx) (rule_index : nat) (r : CompiledRule) (key : string) (request_estimate reservation_id usage_after : N)
    : Ctx * FilterAction :=
  let x := record_admission x rule_index key reservation_id in
  let x := with_metadata x (set_metadata (filter_metadata x) META_ESTIMATE (usize_to_string request_estimate)) in
  (evaluate_tiers x r usage_after, Continue).

Definition denied_action (b : B) (retry_after_ms : N) : FilterAction :=
  let retry_secs := saturating_add retry_after_ms 999 / 1000 in
  let retry_secs := N.max retry_secs 1 in
  Reject 429 [("Retry-After"%string, usize_to_string retry_secs); (HEADER_RATELIMIT_LIMIT_TOKENS, usize_to_string (backend_limit b));
              (HEADER_RATELIMIT_REMAINING_TOKENS, "0"%string); (HEADER_RATELIMIT_RESET, usize_to_string retry_secs)].

Definition annotate_over_quota (x : Ctx) (b : B) (o : CompiledOverQuota) (remaining : N) (ordered : bool) : Ctx :=
  let x := queue_tier_headers x (over_headers o) ordered in
  let used := saturating_sub (backend_limit b) remaining in
  let x := match remaining_header o with Some n => queue_dynamic_header x n remaining ordered | None => x end in
  match used_header o with Some n => queue_dynamic_header x n used ordered | None => x end.

Definition soft_over_quota_action (x : Ctx) (r : CompiledRule) (b : B) (remaining : N) : Ctx * FilterAction :=
  let ordered := is_ordered x in
  (match over_quota r with Some o => annotate_over_quota x b o remaining ordered | None => x end, Continue).

Definition handle_denied_reservation (x : Ctx) (r : CompiledRule) (b : B) (retry_after_ms : N) (reason : DenialReason) (remaining : N)
    : Ctx * FilterAction :=
  let soft_eligible := bool_decide (reason = WindowCapacity) in
  match enforcement r, soft_eligible with
  | Soft, true => soft_over_quota_action x r b remaining
  | _, _ => (x, denied_action b retry_after_ms)
  end.

Definition handle_reserve_outcome (x : Ctx) (rule_index : nat) (r : CompiledRule) (b : B) (key : string) (estimate : N)
    (outcome : result BackendError BackendReserve) : Ctx * FilterAction :=
  match outcome with
  | Ok (BackendAdmitted reservation_id _ usage_after _) => finish_admission x rule_index r key estimate reservation_id usage_after
  | Ok (BackendDenied retry_after_ms reason remaining) => handle_denied_reservation x r b retry_after_ms reason remaining
  | Err _ => (x, Reject 503 [])
  end.

(** [admit_estimated], with the key resolution it starts with. *)
Definition admit_estimated (f : TokenRateLimitFilter B) (x : Ctx) (rule_index : nat) (r : CompiledRule) (b : B) (estimate now : N)
    (probe : option BodyProbe) : B * Ctx * FilterAction :=
  match resolve_key f x probe with
  | RejectKey status _ => (b, x, Reject status [])
  | Admit key =>
      let '(outcome, b) := backend_reserve (mkReserveRequest key estimate now) b in
      let '(x, action) := handle_reserve_outcome x rule_index r b key estimate outcome in
      (b, x, action)
  end.

(** What both request hooks do once they run. *)
Definition admit_request (f : TokenRateLimitFilter B) (x : Ctx) (now : N) (probe : option BodyProbe)
    : TokenRateLimitFilter B * Ctx * FilterAction :=
  match matching_rule f (request_headers x) with
  | None => (f, x, Continue)
  | Some (rule_index, (r, b)) =>
      let x := strip_spoofable_headers x r in
      let b := cleanup_and_record_state b now in
      match estimate_request (estimation r) (request_headers x) probe with
      | None => (set_backend f rule_index r b, x, Continue)
      | Some estimate =>
          let '(b, x, action) := admit_estimated f x rule_index r b estimate now probe in
          (set_backend f rule_index r b, x, action)
      end
  end.

Definition on_request (f : TokenRateLimitFilter B) (x : Ctx) (now : N) : TokenRateLimitFilter B * Ctx * FilterAction :=
  if filter_needs_body f then (f, x, Continue) else admit_request f x now None.

Definition on_request_body (f : TokenRateLimitFilter B) (x : Ctx) (now : N) (body : option bytes) (end_of_stream : bool)
    : TokenRateLimitFilter B * Ctx * FilterAction :=
  if negb end_of_stream || negb (filter_needs_body f) then (f, x, Continue)
  else admit_request f x now (parse_body_probe body).

(** * Reconciliation *)

Definition reconciliation_context (f : TokenRateLimitFilter B) (x : Ctx) (now : N)
    : option (ReconcileRequest * nat * CompiledRule * B) :=
  reservation_id ← parse_u64_meta (filter_metadata x) META_RESERVATION_ID;
  key ← filter_metadata x !! META_BUCKET_KEY;
  index ← (v ← filter_metadata x !! META_RULE_INDEX; parse_usize v);
  '(r, b) ← rules f !! N.to_nat index;
  let actual := weighted_cost (from_context (filter_metadata x)) (weights r) in
  Some (mkReconcileRequest key reservation_id actual now, N.to_nat index, r, b).

(** [reconcile]: also the synchronous settlement, when there is one. *)
Definition reconcile (f : TokenRateLimitFilter B) (x : Ctx) (now : N) : TokenRateLimitFilter B * option BackendSettlement :=
  match reconciliation_context f x now with
  | None => (f, None)
  | Some (request, i, r, b) =>
      match reconcile_sync request b with
      | Some (settlement, b) => (set_backend f i r b, Some settlement)
      | None => let '(_, b) := enqueue_reconcile request b in (set_backend f i r b, None)
      end
  end.

Definition on_response_body (f : TokenRateLimitFilter B) (x : Ctx) (now : N) (end_of_stream : bool)
    : TokenRateLimitFilter B * Ctx * option BackendSettlement :=
  if end_of_stream then
    let '(f, settlement) := reconcile f x now in
    let m := filter_metadata x in
    let m := delete META_ESTIMATE (delete META_RULE_INDEX (delete META_BUCKET_KEY (delete META_RESERVATION_ID m))) in
    (f, with_metadata x m, settlement)
  else (f, x, None).
End Filter.
