(* ===== verification/RateLimitConfigProps.v ===== *)
(** What compiling a rule of the token rate limiter guarantees
    ([RateLimitRules]), and what the upstream sees of the headers a rule owns. *)

From S2P Require Import Prelude Utf8 MetaCodec RustStr Json Serde Float64 Ledger TokenBucket Weights QuotaBackend.
From S2P Require Import IpText Routing BudgetKeys BudgetKeysProps RateLimitRules RateLimitFilter.
From Stdlib Require Import Strings.Ascii.

Local Open Scope N_scope.
Local Open Scope rust_scope.

Definition tier_headers (t : CompiledTier) : RequestHeaders :=
  match tier_action t with Inject hs => hs | Deny => [] end.
Definition is_deny (t : CompiledTier) : bool := match tier_action t with Deny => true | _ => false end.

(** The headers an over-quota request may be annotated with. *)
Definition over_names (o : CompiledOverQuota) : list string :=
  (over_headers o).*1 ++ option_list (remaining_header o) ++ option_list (used_header o).

(** The guarantees of a compiled rule, for an algorithm of capacity [cap]. *)
Record rule_sound (cap : N) (r : CompiledRule) : Prop := mkRuleSound {
  sound_capacity : 0 < cap <= MAX_F64_SAFE_INTEGER;
  sound_fixed : forall n, estimation r = Fixed n -> 0 < n <= cap;
  sound_ascending : StronglySorted (fun a b => tier_capacity a < tier_capacity b) (tiers r);
  sound_tier_bounds : Forall (fun t => 0 < tier_capacity t <= cap) (tiers r);
  sound_deny : forall t, t ∈ tiers r -> is_deny t = true -> tier_capacity t = cap /\ last (tiers r) = Some t;
  sound_mode : (enforcement r = Soft <-> exists o, over_quota r = Some o) /\
    (enforcement r = Soft -> Forall (fun t => is_deny t = false) (tiers r));
  sound_tier_names : forall t n, t ∈ tiers r -> n ∈ (tier_headers t).*1 -> n ∈ inject_header_names r;
  sound_over_names : forall o n, over_quota r = Some o -> n ∈ over_names o ->
    n ∈ inject_header_names r /\ forall t, t ∈ tiers r -> n ∉ (tier_headers t).*1;
  sound_over_distinct : forall o, over_quota r = Some o -> NoDup (over_names o)
}.

(** The guarantees of a compiled estimate: what it falls back to can be
    admitted, and every factor is a finite positive number. *)
Definition estimation_sound (cap : N) (e : CompiledEstimation) : Prop :=
  match e with
  | Fixed n => 0 < n <= cap
  | MaxTokens fallback m => (forall n, fallback = Some n -> n <= cap) /\ positive_finite m = true
  | InputPlusMaxTokens fallback m bytes_per_token =>
      (forall n, fallback = Some n -> n <= cap) /\ positive_finite m = true /\ positive_finite bytes_per_token = true
  | ModelScaled fallback ms m =>
      (forall n, fallback = Some n -> n <= cap) /\ positive_finite m = true /\ Forall (fun e => positive_finite e.2 = true) ms
  end.

(** A request header a rule may write: neither framing, nor hop-by-hop, nor
    reserved for the proxy. *)
Definition writable `{ReservedHeaders} (n : string) : Prop :=
  n ∉ ["host"; "content-length"; "transfer-encoding"]%string /\ n ∉ HOP_BY_HOP_HEADERS /\ is_reserved n = false.

(** What [compile_request_headers] lets through. *)
Definition headers_sound `{ReservedHeaders} (hs : RequestHeaders) : Prop :=
  NoDup hs.*1 /\ forall n, n ∈ hs.*1 -> writable n.

Section Compile.
Context `{HeaderTypes} `{ReservedHeaders}.

(** * Headers *)

Lemma not_reserved name loc n : reject_reserved_request_header name loc n = Ok tt -> writable n.
Proof.
  unfold reject_reserved_request_header, writable. destruct (_ || _) eqn:E; [done|]. intros _.
  apply orb_false_iff in E as [[[[E1 E2]%orb_false_iff E3]%orb_false_iff E4]%orb_false_iff E5].
  apply bool_decide_eq_false in E1, E2, E3, E4. split_and!; [|done|done].
  rewrite !not_elem_of_cons. split_and!; try done. apply not_elem_of_nil.
Qed.

Lemma duplicate_headers_spec name loc seen hs :
  reject_duplicate_headers name loc seen hs = Ok tt -> NoDup hs.*1 /\ forall n, n ∈ hs.*1 -> n ∉ seen.
Proof.
  revert seen. induction hs as [|[h v] hs IH]; intros seen; cbn; [split; [constructor|set_solver]|].
  case_bool_decide as E; [done|]. intros [Hn Hs]%IH. split; [|set_solver]. constructor; [|done].
  intros Hin%Hs. set_solver.
Qed.

Lemma request_headers_sound name loc hs out : compile_request_headers name loc hs = Ok out -> headers_sound out.
Proof.
  unfold compile_request_headers. destruct (collect_results _ hs) as [c|] eqn:Ec; cbn; [|done].
  destruct (reject_duplicate_headers name loc [] c) as [[]|] eqn:Ed; cbn; [|done]. intros [= <-].
  apply duplicate_headers_spec in Ed as [Hn _]. split; [done|]. clear Hn. revert c Ec.
  induction hs as [|[h v] hs IH]; intros c; cbn; [intros [= <-]; set_solver|].
  unfold compile_request_header. destruct (header_name h) as [n|]; cbn; [|done].
  destruct (reject_reserved_request_header name loc n) as [[]|] eqn:Er; cbn; [|done].
  destruct (header_value v) as [val|]; cbn; [|done]. destruct (collect_results _ hs) as [rest|]; cbn; [|done].
  intros [= <-] m Hm. apply elem_of_cons in Hm as [->|Hm]; [by eapply not_reserved|by eapply IH].
Qed.

Lemma optional_header_sound name loc on configured d o :
  optional_quota_header name loc on configured d = Ok o -> forall n, o = Some n -> writable n.
Proof.
  unfold optional_quota_header, compile_single_header_name. destruct on; [|by intros [= <-]].
  destruct (header_name _) as [h|]; cbn; [|done]. destruct (reject_reserved_request_header _ _ h) as [[]|] eqn:Er; cbn; [|done].
  intros [= <-] n [= <-]. by eapply not_reserved.
Qed.

Lemma over_quota_sound name mode oq inj c :
  compile_over_quota name mode oq inj = Ok (Some c) -> forall n, n ∈ over_names c -> writable n.
Proof.
  unfold compile_over_quota. destruct mode; [by destruct (present oq)|]. destruct oq as [cfg|]; [|done].
  unfold compile_over_quota_config. destruct (require_over_quota_surface name cfg) as [[]|]; cbn; [|done].
  destruct (reject_unused_quota_header_names name cfg) as [[]|]; cbn; [|done].
  destruct (if bool_decide (oq_headers cfg = []) then _ else _) as [hs|] eqn:Eh; cbn; [|done].
  unfold compile_quota_metadata_headers. destruct (optional_quota_header _ _ (oq_include_remaining cfg) _ _) as [r|] eqn:Er; cbn; [|done].
  destruct (optional_quota_header _ _ (oq_include_used cfg) _ _) as [u|] eqn:Eu; cbn; [|done].
  destruct (reject_over_quota_name_collisions _ _ _ _ _) as [[]|]; cbn; [|done]. intros [= <-] n. unfold over_names. cbn.
  rewrite !elem_of_app. intros [Hn|[Hn|Hn]];
    [|destruct r; [apply list_elem_of_singleton in Hn as ->|inversion Hn]; exact (optional_header_sound _ _ _ _ _ _ Er _ eq_refl)
     |destruct u; [apply list_elem_of_singleton in Hn as ->|inversion Hn]; exact (optional_header_sound _ _ _ _ _ _ Eu _ eq_refl)].
  case_bool_decide; [injection Eh as <-; set_solver|]. by apply (request_headers_sound _ _ _ _ Eh).
Qed.

Lemma tier_list_sound name cap i prev d ts cs :
  compile_tier_list name cap i prev d ts = Ok cs -> Forall (fun t => headers_sound (tier_headers t)) cs.
Proof.
  revert i prev d cs. induction ts as [|t ts IH]; intros i prev d cs; cbn [compile_tier_list]; [by intros [= <-]|].
  destruct (validate_tier_ordering _ _ _ _ _); cbn; [|done].
  destruct (compile_tier_action name i t cap d) as [[act d']|] eqn:Ea; cbn; [|done].
  destruct (compile_tier_list name cap (S i) _ _ ts) as [rest|] eqn:Er; cbn; [|done]. intros [= <-].
  constructor; [|by eapply IH]. unfold tier_headers. cbn [tier_action]. unfold compile_tier_action in Ea. destruct (tc_action t).
  - unfold compile_inject_tier_action in Ea. destruct (cap <? tc_capacity t); cbn in Ea; [done|].
    destruct (bool_decide _); cbn in Ea; [done|].
    destruct (compile_request_headers _ _ (tc_headers t)) as [hs|] eqn:Eh; cbn in Ea; [|done].
    injection Ea as <- _. by eapply request_headers_sound.
  - destruct (negb _); [done|]. injection Ea as <- _. split; [constructor|set_solver].
Qed.

Lemma tiers_sound name ts cap cs : compile_tiers name ts cap = Ok cs -> Forall (fun t => headers_sound (tier_headers t)) cs.
Proof.
  unfold compile_tiers. destruct ts as [[|t ts]|]; [done|apply tier_list_sound|by intros [= <-]].
Qed.

(** * Tiers *)

Lemma compile_tier_action_spec name i t cap d a d' :
  compile_tier_action name i t cap d = Ok (a, d') ->
  match a with
  | Inject _ => d' = d /\ tc_capacity t <= cap
  | Deny => d' = true /\ tc_capacity t = cap
  end.
Proof.
  unfold compile_tier_action, compile_inject_tier_action. destruct (tc_action t).
  - destruct (N.ltb_spec cap (tc_capacity t)); cbn; [done|]. case_bool_decide; cbn; [done|].
    destruct (compile_request_headers _ _ _); cbn; [|done]. by intros [= <- <-].
  - destruct (N.eqb_spec (tc_capacity t) cap); cbn; [|done]. by intros [= <- <-].
Qed.

Lemma compile_tier_list_spec name cap i prev d ts cs :
  compile_tier_list name cap i prev d ts = Ok cs ->
  StronglySorted (fun a b => tier_capacity a < tier_capacity b) cs /\
  Forall (fun t => 0 < tier_capacity t <= cap) cs /\
  (d = true -> cs = []) /\
  (forall t, t ∈ cs -> is_deny t = true -> tier_capacity t = cap /\ last cs = Some t) /\
  (i <> O -> Forall (fun t => prev < tier_capacity t) cs).
Proof.
  revert i prev d cs. induction ts as [|t ts IH]; intros i prev d cs; cbn [compile_tier_list].
  { intros [= <-]. split_and!; try constructor; try done; set_solver. }
  destruct (validate_tier_ordering _ _ _ _ _) as [[]|] eqn:Ev; cbn; [|done].
  unfold validate_tier_ordering in Ev. destruct d; [done|]. destruct (N.eqb_spec (tc_capacity t) 0) as [|H0']; [done|].
  destruct ((0 <? i)%nat && (tc_capacity t <=? prev)) eqn:Eo; [done|].
  destruct (compile_tier_action name i t cap false) as [[a d']|] eqn:Ea; cbn; [|done].
  destruct (compile_tier_list name cap (S i) (tc_capacity t) d' ts) as [rest|] eqn:Er; cbn; [|done]. intros [= <-].
  apply IH in Er as (Hs & Hb & Hd & Hdeny & Hprev). specialize (Hprev ltac:(done)).
  apply compile_tier_action_spec in Ea. split_and!.
  - constructor; [done|]. exact Hprev.
  - constructor; [|done]. cbn. destruct a; destruct Ea; lia.
  - done.
  - intros c Hc Hdc. apply elem_of_cons in Hc as [->|Hc].
    + unfold is_deny in Hdc. cbn in *. destruct a; [done|]. destruct Ea as [-> ->]. by rewrite Hd.
    + destruct (Hdeny c Hc Hdc) as [? Hl]. split; [done|]. by destruct rest.
  - intros Hi. apply andb_false_iff in Eo as [Eo|Eo]; [apply Nat.ltb_ge in Eo; lia|]. apply N.leb_gt in Eo.
    constructor; [done|]. eapply Forall_impl; [exact Hprev|]. cbn. lia.
Qed.

Lemma compile_tiers_spec name ts cap cs :
  compile_tiers name ts cap = Ok cs ->
  StronglySorted (fun a b => tier_capacity a < tier_capacity b) cs /\
  Forall (fun t => 0 < tier_capacity t <= cap) cs /\
  (forall t, t ∈ cs -> is_deny t = true -> tier_capacity t = cap /\ last cs = Some t).
Proof.
  unfold compile_tiers. destruct ts as [[|t ts]|]; [done| |].
  - intros (? & ? & _ & ? & _)%compile_tier_list_spec. done.
  - intros [= <-]. split_and!; [constructor..|set_solver].
Qed.

(** * Names *)

Lemma elem_of_push_new names n m : m ∈ push_new names n <-> m ∈ names \/ m = n.
Proof. unfold push_new. case_bool_decide; set_solver. Qed.

Lemma foldl_push_new (l names : list string) m : m ∈ foldl push_new names l <-> m ∈ names \/ m ∈ l.
Proof.
  revert names. induction l as [|n l IH]; intros names; cbn; [set_solver|]. rewrite IH, elem_of_push_new. set_solver.
Qed.

Lemma foldl_push_fst {A} (l : list (string * A)) (names : list string) m :
  m ∈ foldl (fun names h => push_new names h.1) names l <-> m ∈ names \/ m ∈ l.*1.
Proof.
  revert names. induction l as [|[n v] l IH]; intros names; cbn; [set_solver|]. rewrite IH, elem_of_push_new. set_solver.
Qed.

Lemma collect_inject_names ts n : n ∈ collect_inject_header_names ts <-> exists t, t ∈ ts /\ n ∈ (tier_headers t).*1.
Proof.
  unfold collect_inject_header_names.
  assert (forall names, n ∈ foldl (fun names tier => match tier_action tier with
    | Inject headers => foldl (fun names h => push_new names h.1) names headers | Deny => names end) names ts
    <-> n ∈ names \/ exists t, t ∈ ts /\ n ∈ (tier_headers t).*1) as Hf.
  { induction ts as [|t ts IH]; intros names; cbn; [set_solver|]. rewrite IH. unfold tier_headers at 2.
    setoid_rewrite elem_of_cons. destruct (tier_action t) as [hs|] eqn:Et.
    - rewrite foldl_push_fst. split.
      + intros [[?|Hn]|(t' & ? & ?)]; [by left| |by eauto]. right. exists t. unfold tier_headers. rewrite Et. auto.
      + intros [?|(t' & [->|?] & Hn)]; [by auto| |by eauto]. unfold tier_headers in Hn. rewrite Et in Hn. auto.
    - split; [naive_solver|]. intros [?|(t' & [->|?] & Hn)]; [by auto| |by eauto].
      unfold tier_headers in Hn. rewrite Et in Hn. set_solver. }
  rewrite Hf. set_solver.
Qed.

(** * Over-quota annotation *)

Lemma push_all_unique_spec name seen hs s :
  push_all_unique name seen hs = Ok s -> NoDup seen -> s = seen ++ hs /\ NoDup s.
Proof.
  revert seen. induction hs as [|h hs IH]; intros seen; cbn; [intros [= <-] ?; by rewrite app_nil_r|].
  unfold push_unique_over_quota_name. case_bool_decide as Hin; cbn; [done|]. intros Hs Hnd.
  apply IH in Hs as [-> Hs]; [by rewrite <- app_assoc in *|]. apply NoDup_app. split_and!; [done|set_solver|apply NoDup_singleton].
Qed.

Lemma collisions_spec name hs r u inj :
  reject_over_quota_name_collisions name hs r u inj = Ok tt ->
  let names := hs.*1 ++ option_list r ++ option_list u in NoDup names /\ forall n, n ∈ names -> n ∉ inj.
Proof.
  unfold reject_over_quota_name_collisions. destruct (push_all_unique name [] hs.*1) as [s|] eqn:E1; cbn; [|done].
  destruct (_ && _); [done|]. destruct (push_all_unique name s _) as [s'|] eqn:E2; cbn; [|done].
  apply push_all_unique_spec in E1 as [-> H1]; [|constructor]. apply push_all_unique_spec in E2 as [-> H2']; [|done]. cbn.
  destruct (List.find _ _) as [h|] eqn:Ef; [done|]. intros _. split; [done|]. intros n Hn Hinj.
  apply list_elem_of_In in Hn. pose proof (List.find_none _ _ Ef n Hn) as Hx. by rewrite bool_decide_eq_false in Hx.
Qed.

Lemma over_quota_spec name mode oq inj o :
  compile_over_quota name mode oq inj = Ok o ->
  (mode = Soft <-> exists c, o = Some c) /\
  forall c, o = Some c -> (forall n, n ∈ strip_names c <-> n ∈ over_names c) /\ NoDup (over_names c) /\
    forall n, n ∈ over_names c -> n ∉ inj.
Proof.
  unfold compile_over_quota. destruct mode.
  - destruct (present oq); [done|]. intros [= <-]. split; [naive_solver|done].
  - destruct oq as [cfg|]; [|done]. destruct (compile_over_quota_config name cfg inj) as [c|] eqn:E; cbn; [|done].
    intros [= <-]. split; [by split; eauto|]. intros ? [= <-]. unfold compile_over_quota_config in E.
    destruct (require_over_quota_surface name cfg) as [[]|]; cbn in E; [|done].
    destruct (reject_unused_quota_header_names name cfg) as [[]|]; cbn in E; [|done].
    destruct (if bool_decide (oq_headers cfg = []) then _ else _) as [hs|]; cbn in E; [|done].
    destruct (compile_quota_metadata_headers name cfg) as [[r u]|]; cbn in E; [|done].
    destruct (reject_over_quota_name_collisions name hs r u inj) as [[]|] eqn:Ec; cbn in E; [|done].
    apply collisions_spec in Ec as [Hnd Hinj]. injection E as <-. unfold over_names, collect_over_quota_strip_names. cbn.
    split_and!; [|done|done]. intros n. rewrite foldl_push_new. set_solver.
Qed.
End Compile.

(** * Rules *)

Lemma fallback_within name fallback cap :
  validate_fallback_within_capacity name fallback cap = Ok tt -> forall n, fallback = Some n -> n <= cap.
Proof.
  unfold validate_fallback_within_capacity. intros E n ->. by destruct (N.ltb_spec cap n).
Qed.

Lemma model_multipliers_sound name ms :
  validate_model_multipliers name ms = Ok tt -> Forall (fun e => positive_finite e.2 = true) ms.
Proof.
  induction ms as [|[m v] ms IH]; cbn; [constructor|]. destruct (positive_finite v) eqn:E; [|done]. constructor; auto.
Qed.

Lemma positive_finite_spec name param v : validate_positive_finite name param v = Ok tt -> positive_finite v = true.
Proof. unfold validate_positive_finite. by destruct (positive_finite v). Qed.

Lemma compile_estimation_sound name res est cap e :
  (forall k, res = Some k -> 0 < k <= cap) -> compile_estimation name res est cap = Ok e -> estimation_sound cap e.
Proof.
  intros Hres. unfold compile_estimation. destruct (_ && _); [done|]. destruct est as [cfg|].
  2:{ destruct res as [k|]; [|done]. intros [= <-]. by apply Hres. }
  unfold compile_estimation_config. destruct (validate_positive_finite _ _ _) as [[]|] eqn:Em; cbn; [|done].
  apply positive_finite_spec in Em. destruct (est_strategy cfg).
  - unfold compile_fixed_estimation. destruct (reject_unused_estimation_fields _ _ _); cbn; [|done].
    destruct (est_fallback cfg) as [k|]; [|done]. set (eff := f64_to_u64 _).
    destruct (N.eqb_spec eff 0); [done|]. destruct (N.ltb_spec cap eff); [done|]. intros [= <-]. cbn. lia.
  - unfold compile_max_tokens_estimation. destruct (reject_unused_estimation_fields _ _ _); cbn; [|done].
    destruct (validate_fallback_within_capacity _ _ _) as [[]|] eqn:Ef; cbn; [|done]. intros [= <-].
    split; [by eapply fallback_within|done].
  - unfold compile_input_plus_estimation. destruct (reject_unused_estimation_fields _ _ _); cbn; [|done].
    destruct (validate_positive_finite _ _ _) as [[]|] eqn:Eb; cbn; [|done].
    destruct (validate_fallback_within_capacity _ _ _) as [[]|] eqn:Ef; cbn; [|done]. intros [= <-].
    split; [by eapply fallback_within|]. split; [done|by eapply positive_finite_spec].
  - unfold compile_model_scaled_estimation. destruct (reject_unused_estimation_fields _ _ _); cbn; [|done].
    destruct (validate_positive_finite _ _ _) as [[]|] eqn:Eb; cbn; [|done].
    destruct (validate_model_multipliers _ _) as [[]|] eqn:Ev; cbn; [|done].
    destruct (validate_fallback_within_capacity _ _ _) as [[]|] eqn:Ef; cbn; [|done]. intros [= <-].
    split; [by eapply fallback_within|]. split; [by eapply positive_finite_spec|by eapply model_multipliers_sound].
Qed.

(** The estimate and every header name of a compiled rule passed validation. *)
Lemma compile_rule_validated {V R} `{!ValkeyBackends V R} `{HeaderTypes} `{ReservedHeaders} rule (be : BackendResource V) defaults max_keys fp r b :
  compile_rule rule be defaults max_keys fp = Ok (r, b) ->
  estimation_sound (algorithm_capacity (rule_algorithm rule)) (estimation r) /\
  Forall (fun t => headers_sound (tier_headers t)) (tiers r) /\
  (forall o n, over_quota r = Some o -> n ∈ over_names o -> writable n) /\
  (forall n, n ∈ inject_header_names r -> writable n).
Proof.
  unfold compile_rule. set (cap := algorithm_capacity (rule_algorithm rule)).
  destruct (validate_rule_bounds rule cap) as [timeout|] eqn:Eb; cbn; [|done].
  destruct (compile_estimation _ _ _ cap) as [est|] eqn:Ee; cbn; [|done].
  destruct (map_weights _) as [ws|]; cbn; [|done]. destruct (build_rule_backend _ _ _ _ _ _) as [bk|]; cbn; [|done].
  destruct (compile_matcher _ _) as [mt|]; cbn; [|done]. destruct (compile_tiers _ _ _) as [ts|] eqn:Et; cbn; [|done].
  destruct (reject_deny_tier_with_soft_enforcement _ _ ts) as [[]|]; cbn; [|done].
  destruct (compile_over_quota _ _ _ _) as [oq|] eqn:Eo; cbn; [|done]. intros [= <- <-].
  cbn [estimation tiers over_quota inject_header_names]. apply tiers_sound in Et.
  assert (forall n, n ∈ collect_inject_header_names ts -> writable n) as Hinj.
  { intros n (t & Ht & Hn)%collect_inject_names. rewrite Forall_forall in Et. by apply (Et t Ht). }
  split_and!; [|done|by intros o n ->; eapply over_quota_sound|].
  - eapply compile_estimation_sound; [|exact Ee]. intros k Hk.
    unfold validate_rule_bounds in Eb. destruct (validate_capacity_safe_integer_bound _ _); cbn in Eb; [|done]. rewrite Hk in Eb.
    destruct (N.eqb_spec k 0); cbn in Eb; [done|]. destruct (N.ltb_spec cap k); cbn in Eb; [done|]. lia.
  - destruct oq as [o|]; [|done]. intros n [Hn|Hn]%foldl_push_new; [by apply Hinj|].
    pose proof Eo as Eo'. apply over_quota_spec in Eo' as [_ Hst]. destruct (Hst o eq_refl) as (Hstrip & _).
    eapply over_quota_sound; [exact Eo|]. by apply Hstrip.
Qed.

Lemma compile_rule_sound {V R} `{!ValkeyBackends V R} `{HeaderTypes} `{ReservedHeaders} rule (be : BackendResource V) defaults max_keys fp r b :
  compile_rule rule be defaults max_keys fp = Ok (r, b) ->
  rule_sound (algorithm_capacity (rule_algorithm rule)) r /\ name r = rule_name rule /\ enforcement r = rule_enforcement rule.
Proof.
  unfold compile_rule. set (cap := algorithm_capacity (rule_algorithm rule)).
  destruct (validate_rule_bounds rule cap) as [timeout|] eqn:Eb; cbn; [|done].
  destruct (compile_estimation _ _ _ cap) as [est|] eqn:Ee; cbn; [|done].
  destruct (map_weights _) as [ws|]; cbn; [|done]. destruct (build_rule_backend _ _ _ _ _ _) as [bk|]; cbn; [|done].
  destruct (compile_matcher _ _) as [mt|]; cbn; [|done]. destruct (compile_tiers _ _ _) as [ts|] eqn:Et; cbn; [|done].
  destruct (reject_deny_tier_with_soft_enforcement _ _ ts) as [[]|] eqn:Ed; cbn; [|done].
  destruct (compile_over_quota _ _ _ _) as [oq|] eqn:Eo; cbn; [|done]. intros [= <- <-]. split; [|done].
  apply compile_tiers_spec in Et as (Hs & Hb & Hdeny). apply over_quota_spec in Eo as [Hsoft Hoq].
  unfold validate_rule_bounds, validate_capacity_safe_integer_bound in Eb.
  destruct (N.eqb_spec cap 0) as [|Hc0]; cbn in Eb; [done|]. destruct (N.ltb_spec MAX_F64_SAFE_INTEGER cap) as [|Hc1]; cbn in Eb; [done|].
  split; cbn [estimation tiers enforcement over_quota inject_header_names]; try done.
  - lia.
  - intros n ->. eapply (compile_estimation_sound _ _ _ _ (Fixed n)); [|exact Ee]. intros k Hk. rewrite Hk in Eb.
    destruct (N.eqb_spec k 0); cbn in Eb; [done|]. destruct (N.ltb_spec cap k); cbn in Eb; [done|]. lia.
  - split; [done|]. intros Hm. rewrite Hm in Ed. cbn in Ed. destruct (existsb _ ts) eqn:Ex; [done|].
    apply Forall_forall. intros t Ht. rewrite <- not_true_iff_false in Ex |- *. intros Hd. apply Ex, existsb_exists.
    exists t. split; [by apply list_elem_of_In|done].
  - intros t n Ht Hn. assert (n ∈ collect_inject_header_names ts) as Hc by (apply collect_inject_names; eauto).
    destruct oq as [o|]; [|done]. apply foldl_push_new. auto.
  - intros o n -> Hn. destruct (Hoq o eq_refl) as (Hst & _ & Hinj). split.
    + apply foldl_push_new. right. by apply Hst.
    + intros t Ht Hin. apply (Hinj n Hn). apply collect_inject_names. eauto.
  - intros o ->. by destruct (Hoq o eq_refl) as (_ & ? & _).
Qed.

Lemma collect_results_spec {A B} (f : A -> result ConfigError B) l out :
  collect_results f l = Ok out -> Forall2 (fun x y => f x = Ok y) l out.
Proof.
  revert out. induction l as [|x l IH]; intros out; cbn; [intros [= <-]; constructor|].
  destruct (f x) as [y|] eqn:E; cbn; [|done]. destruct (collect_results f l); cbn; [|done]. intros [= <-]. constructor; auto.
Qed.

Lemma duplicate_names_spec seen rs : reject_duplicate_names seen rs = Ok tt -> NoDup (rule_name <$> rs) /\ Forall (.∉ seen) (rule_name <$> rs).
Proof.
  revert seen. induction rs as [|r rs IH]; intros seen; cbn; [by split; constructor|]. case_bool_decide as E; [done|].
  intros [Hn Hf]%IH. split; constructor; try done.
  - rewrite Forall_forall in Hf. intros Hin%Hf. set_solver.
  - eapply Forall_impl; [exact Hf|]. set_solver.
Qed.

(** The backend of a rule enforces the configured capacity. *)
Definition enforces {R} `{!HashOrder N, !HashOrder string} (cap : N) (b : DynBackend R) : Prop :=
  match b with inl m => backend_limit m = cap | inr _ => True end.

Lemma rule_backend_limit {V R} `{!ValkeyBackends V R, !HashOrder N, !HashOrder string} a (be : BackendResource V) name timeout max_keys acc (b : DynBackend R) :
  build_rule_backend a be name timeout max_keys acc = Ok b -> enforces (algorithm_capacity a) b.
Proof.
  unfold build_rule_backend. destruct a as [w cap|cap rate]; cbn.
  - destruct (parse_duration_ms w) as [ms|]; cbn; [|done]. unfold build_sliding_window_backend. destruct be as [|v ns].
    + destruct (Ledger.new _) as [L|] eqn:E; [|done]. intros [= <-]. unfold Ledger.new in E.
      destruct (Ledger.validate _) as [[]|]; cbn in E; [|done]. by injection E as <-.
    + destruct (build_sw_valkey_backend _ _ _ _ _ _ _); cbn; [|done]. by intros [= <-].
  - unfold build_token_bucket_backend. destruct be as [|v ns].
    + destruct (TokenBucket.new _) as [L|] eqn:E; [|done]. intros [= <-]. unfold TokenBucket.new in E.
      destruct (TokenBucket.validate _) as [[]|]; cbn in E; [|done]. by injection E as <-.
    + destruct (valkey_bucket _ _ _ _ _ _ _ _); cbn; [|done]. by intros [= <-].
Qed.

Lemma compile_rule_backend {V R} `{!ValkeyBackends V R} `{HeaderTypes} `{ReservedHeaders} rule (be : BackendResource V) defaults max_keys fp r (b : DynBackend R) :
  compile_rule rule be defaults max_keys fp = Ok (r, b) ->
  exists timeout acc, parse_duration_ms (default DEFAULT_RESERVATION_TIMEOUT (rule_reservation_timeout rule)) = Ok timeout /\
    build_rule_backend (rule_algorithm rule) be (rule_name rule) timeout max_keys acc = Ok b.
Proof.
  unfold compile_rule. destruct (validate_rule_bounds rule _) as [timeout|] eqn:Eb; cbn; [|done].
  destruct (compile_estimation _ _ _ _) as [est|]; cbn; [|done]. destruct (map_weights _) as [ws|]; cbn; [|done].
  destruct (build_rule_backend _ _ _ _ _ _) as [bk|] eqn:E; cbn; [|done]. destruct (compile_matcher _ _); cbn; [|done].
  destruct (compile_tiers _ _ _); cbn; [|done]. destruct (reject_deny_tier_with_soft_enforcement _ _ _); cbn; [|done].
  destruct (compile_over_quota _ _ _ _); cbn; [|done]. intros [= _ <-]. exists timeout, (mkAccounting est ws fp). split; [|done].
  unfold validate_rule_bounds in Eb. destruct (validate_capacity_safe_integer_bound _ _); cbn in Eb; [|done].
  by destruct (match rule_reserved_tokens rule with Some _ => _ | None => _ end).
Qed.

(** The stages of [from_config]. *)
Lemma from_config_rules {V R} `{!ValkeyBackends V R} `{HeaderTypes} `{ReservedHeaders} `{Sha256} lookup cfg (f : TokenRateLimitFilter (DynBackend R)) :
  from_config lookup cfg = Ok f ->
  exists (be : BackendResource V) defaults, build_backend_resource lookup (cfg_backend cfg) = Ok be /\
    compile_key_spec (cfg_key cfg) = Ok (key_spec f) /\ cfg_rules cfg <> [] /\ NoDup (rule_name <$> cfg_rules cfg) /\
    filter_needs_body f = existsb (fun rb => needs_body (estimation rb.1)) (rules f) /\ 0 < cfg_max_keys cfg /\
    Forall2 (fun rule rb => compile_rule rule be defaults (cfg_max_keys cfg) (config_fingerprint (key_spec f)) = Ok rb) (cfg_rules cfg) (rules f).
Proof.
  unfold from_config. case_bool_decide as Hne; [done|]. destruct (reject_duplicate_names [] _) as [[]|] eqn:Ed; cbn; [|done].
  destruct (build_backend_resource _ _) as [be|]; cbn; [|done]. destruct (map_weights _) as [ws|]; cbn; [|done].
  destruct (N.eqb_spec (cfg_max_keys cfg) 0); [done|]. destruct (compile_key_spec _) as [k|]; cbn; [|done].
  destruct (collect_results _ _) as [rs|] eqn:Er; cbn; [|done]. intros [= <-]. cbn. exists be, ws.
  apply duplicate_names_spec in Ed as [Hnd _]. apply collect_results_spec in Er.
  split_and!; try done; [|lia]. by destruct (cfg_rules cfg).
Qed.

(** C11. A configuration that is accepted yields one sound rule per entry, in
    order and under distinct names, over a backend that enforces its capacity:
    the capacity is a positive exact double; a fixed estimate and every
    fallback estimate are within the capacity and every multiplier is finite
    and positive; tiers ascend strictly within the capacity with at most one deny tier, last
    and at the capacity; soft enforcement comes with an annotation and without
    deny tiers; the names a rule strips cover every header it may set, tier
    and over-quota names being disjoint, and none of them is a framing,
    hop-by-hop or reserved header; and the body is buffered exactly when
    some rule estimates from it. *)
Theorem configured_rules_sound {V R} `{!ValkeyBackends V R, !HashOrder N, !HashOrder string} `{HeaderTypes} `{ReservedHeaders} `{Sha256}
    lookup cfg (f : TokenRateLimitFilter (DynBackend R)) :
  from_config lookup cfg = Ok f ->
  Forall2 (fun rule rb => rule_sound (algorithm_capacity (rule_algorithm rule)) rb.1 /\ enforces (algorithm_capacity (rule_algorithm rule)) rb.2 /\
    estimation_sound (algorithm_capacity (rule_algorithm rule)) (estimation rb.1) /\
    Forall (fun t => headers_sound (tier_headers t)) (tiers rb.1) /\
    (forall n, n ∈ inject_header_names rb.1 -> writable n) /\
    name rb.1 = rule_name rule /\ enforcement rb.1 = rule_enforcement rule) (cfg_rules cfg) (rules f) /\
  cfg_rules cfg <> [] /\ NoDup (name ∘ fst <$> rules f) /\
  (filter_needs_body f = true <-> exists rb, rb ∈ rules f /\ needs_body (estimation rb.1) = true).
Proof.
  intros (be & ws & _ & _ & Hne & Hnd & Hb & _ & Hrs)%from_config_rules.
  assert (name ∘ fst <$> rules f = rule_name <$> cfg_rules cfg) as Hnames.
  { clear -Hrs. induction Hrs as [|rule [r b] rs bs Hr _ IH]; [done|]. rewrite !fmap_cons, IH. f_equal.
    by apply compile_rule_sound in Hr as (_ & ? & _). }
  split_and!; [|done|by rewrite Hnames|].
  - eapply Forall2_impl; [exact Hrs|]. intros rule [r b] Hr. pose proof (compile_rule_sound _ _ _ _ _ _ _ Hr) as (? & ? & ?).
    pose proof (compile_rule_validated _ _ _ _ _ _ _ Hr) as (? & ? & _ & ?).
    apply compile_rule_backend in Hr as (t & acc & _ & Hr). split_and!; try done. by eapply rule_backend_limit.
  - rewrite Hb, existsb_exists. by setoid_rewrite list_elem_of_In.
Qed.

(** * The headers a rule owns *)

(** What reaches the upstream under a name: the last value set, nothing when the
    name is removed, and otherwise what the client sent. *)
Definition quota_upstream (x : Ctx) (n : string) : list bytes :=
  match last (List.filter (fun e => bool_decide (e.1 = n)) (headers_to_set x)) with
  | Some (_, v) => [v]
  | None => if bool_decide (n ∈ headers_to_remove x) then [] else headers_get_all (request_headers x) n
  end.

Definition last_value (hs : RequestHeaders) (n : string) : option bytes :=
  snd <$> last (List.filter (fun e => bool_decide (e.1 = n)) hs).

(** Every tier the usage has reached, in order. *)
Definition tier_grant (r : CompiledRule) (usage : N) : RequestHeaders :=
  concat (tier_headers <$> List.filter (fun t => tier_capacity t <=? usage) (tiers r)).

Definition number_header (v : N) (n : string) : string * bytes := (n, string_bytes (usize_to_string v)).
Definition over_grant (o : CompiledOverQuota) (limit remaining : N) : RequestHeaders :=
  over_headers o ++ (number_header remaining <$> option_list (remaining_header o)) ++
    (number_header (limit - remaining) <$> option_list (used_header o)).

Lemma filter_no_name (hs : RequestHeaders) n : n ∉ hs.*1 -> List.filter (fun e => bool_decide (e.1 = n)) hs = [].
Proof.
  induction hs as [|[m v] hs IH]; cbn; [done|]. rewrite not_elem_of_cons. intros [Hm Hn].
  rewrite bool_decide_eq_false_2 by congruence. auto.
Qed.

Lemma filter_name_nil (hs : RequestHeaders) n : List.filter (fun e => bool_decide (e.1 = n)) hs = [] -> n ∉ hs.*1.
Proof.
  induction hs as [|[m v] hs IH]; cbn; [set_solver|]. case_bool_decide as E; [done|]. intros Hf.
  apply not_elem_of_cons. split; [congruence|auto].
Qed.

(** The headers a request ends with when [hs] is queued after [names] was stripped. *)
Lemma queued_upstream x x' names hs n :
  headers_to_set x' = headers_to_set x ++ hs -> headers_to_remove x' = headers_to_remove x ++ names ->
  request_headers x' = request_headers x -> (forall m, m ∈ hs.*1 -> m ∈ names) ->
  (n ∈ names -> n ∉ (headers_to_set x).*1 -> quota_upstream x' n = option_list (last_value hs n)) /\
  (n ∉ names -> quota_upstream x' n = quota_upstream x n).
Proof.
  intros Hs Hr Hq Hsub. unfold quota_upstream, last_value. rewrite Hs, Hr, Hq, List.filter_app. split.
  - intros Hn Hx. rewrite (filter_no_name (headers_to_set x)) by done. cbn.
    destruct (last (List.filter _ hs)) as [[m v]|]; [done|]. rewrite bool_decide_eq_true_2; [done|]. set_solver.
  - intros Hn. rewrite (filter_no_name hs), app_nil_r by auto.
    rewrite (bool_decide_ext (n ∈ headers_to_remove x ++ names) (n ∈ headers_to_remove x)); [done|]. set_solver.
Qed.

Lemma reached_sorted (ts : list CompiledTier) u t :
  Forall (fun t' => tier_capacity t < tier_capacity t') ts -> u < tier_capacity t ->
  List.filter (fun t => tier_capacity t <=? u) ts = [].
Proof.
  induction 1 as [|t' ts Ht _ IH]; intros Hu; cbn; [done|]. destruct (N.leb_spec (tier_capacity t') u); [lia|]. auto.
Qed.

(** Stopping at the first tier that is not reached misses none, as tiers ascend. *)
Lemma apply_tiers_queue x ts u o :
  StronglySorted (fun a b => tier_capacity a < tier_capacity b) ts ->
  apply_tiers x ts u o = queue_tier_headers x (concat (tier_headers <$> List.filter (fun t => tier_capacity t <=? u) ts)) o.
Proof.
  intros Hs. revert x. induction Hs as [|t ts _ IH Hf]; intros x; cbn [apply_tiers].
  { destruct x, o; unfold queue_tier_headers, with_headers; cbn; by rewrite !app_nil_r. }
  cbn [List.filter]. destruct (N.ltb_spec u (tier_capacity t)) as [Hu|Hu].
  - destruct (N.leb_spec (tier_capacity t) u); [lia|]. rewrite (reached_sorted ts u t) by done.
    destruct x, o; unfold queue_tier_headers, with_headers; cbn; by rewrite !app_nil_r.
  - destruct (N.leb_spec (tier_capacity t) u); [|lia]. rewrite !fmap_cons. cbn [concat]. unfold tier_headers at 1.
    destruct (tier_action t) as [hs|]; rewrite IH; [|done].
    destruct o; unfold queue_tier_headers, with_headers; cbn; by rewrite <- ?fmap_app, <- !app_assoc, ?fmap_app, ?app_nil_r.
Qed.

Section Owned.
Context {B : Type} `{!StateBackend B} `{HeaderTypes} `{Sha256} `{Base64Url} `{MetadataApi}.

Lemma annotate_queue x (b : B) o remaining ord :
  annotate_over_quota x b o remaining ord = queue_tier_headers x (over_grant o (backend_limit b) remaining) ord.
Proof.
  unfold annotate_over_quota, over_grant, queue_dynamic_header, saturating_sub.
  destruct (remaining_header o), (used_header o), ord; unfold queue_tier_headers, with_headers, number_header;
    cbn; by rewrite ?app_nil_r, ?fmap_app, <- ?app_assoc.
Qed.

(** What the rule adds to a request it lets pass. *)
Definition granted (f : TokenRateLimitFilter B) (x : Ctx) (r : CompiledRule) (b : B) (now : N) (probe : option BodyProbe) : RequestHeaders :=
  match estimate_request (estimation r) (request_headers x) probe, resolve_key f x probe with
  | Some est, Admit key =>
      let '(o, b) := backend_reserve (mkReserveRequest key est now) (cleanup_and_record_state b now) in
      match o with
      | Ok (BackendAdmitted _ _ usage _) => tier_grant r usage
      | Ok (BackendDenied _ _ remaining) => default [] ((fun c => over_grant c (backend_limit b) remaining) <$> over_quota r)
      | Err _ => []
      end
  | _, _ => []
  end.

Lemma queue_nil x ord : queue_tier_headers x [] ord = x.
Proof. destruct x, ord; unfold queue_tier_headers, with_headers; cbn; by rewrite !app_nil_r. Qed.

Lemma admit_queues cap f x now probe f' x' i r b :
  rule_sound cap r -> matching_rule f (request_headers x) = Some (i, (r, b)) -> admit_request f x now probe = (f', x', Continue) ->
  exists m, x' = with_metadata (queue_tier_headers (strip_spoofable_headers x r) (granted f x r b now probe) (is_ordered x)) m.
Proof.
  intros Hr Hm. unfold admit_request, granted. rewrite Hm. set (b1 := cleanup_and_record_state b now).
  change (request_headers (strip_spoofable_headers x r)) with (request_headers x).
  assert (is_ordered (strip_spoofable_headers x r) = is_ordered x) as Hord.
  { unfold strip_spoofable_headers, strip_request_headers, is_ordered. cbn. by destruct (pre_read_mutations x). }
  destruct (estimate_request _ _ _) as [est|].
  2:{ intros [= <- <-]. rewrite queue_nil. by eexists. }
  unfold admit_estimated. change (resolve_key f (strip_spoofable_headers x r) probe) with (resolve_key f x probe).
  destruct (resolve_key f x probe) as [key|]; [|done]. destruct (backend_reserve _ b1) as [[[id e u rem|retry reason rem]|e] b2]; [| |done].
  - cbn [handle_reserve_outcome]. unfold finish_admission, evaluate_tiers, is_ordered, tier_grant. cbn [pre_read_mutations with_metadata record_admission].
    fold (is_ordered (strip_spoofable_headers x r)). rewrite Hord. intros [= <- <-].
    rewrite apply_tiers_queue by apply Hr. by eexists.
  - cbn [handle_reserve_outcome]. unfold handle_denied_reservation, soft_over_quota_action. rewrite Hord.
    destruct (enforcement r), (bool_decide (reason = WindowCapacity)); try done. intros [= <- <-].
    destruct (over_quota r) as [o|]; cbn; [rewrite annotate_queue|rewrite queue_nil]; by eexists.
Qed.

Lemma granted_names cap f x r b now probe n :
  rule_sound cap r -> n ∈ (granted f x r b now probe).*1 -> n ∈ inject_header_names r.
Proof.
  intros Hr. unfold granted. destruct (estimate_request _ _ _) as [est|]; [|set_solver]. destruct (resolve_key _ _ _); [|set_solver].
  destruct (backend_reserve _ _) as [[[id e u rem|retry reason rem]|e] b2]; [| |set_solver].
  - unfold tier_grant. rewrite list_elem_of_fmap. intros ([m v] & -> & Hin). apply list_elem_of_In, in_concat in Hin as (hs & Hhs & Hin).
    apply list_elem_of_In in Hhs, Hin. apply list_elem_of_fmap in Hhs as (t & -> & Ht). apply list_elem_of_In, filter_In in Ht as [Ht _].
    apply list_elem_of_In in Ht. eapply (sound_tier_names _ _ Hr); [exact Ht|]. apply list_elem_of_fmap. by exists (m, v).
  - destruct (over_quota r) as [o|] eqn:Eo; [|set_solver]. cbn. intros Hn. apply (sound_over_names _ _ Hr o n Eo).
    unfold over_grant in Hn. rewrite !fmap_app, <- !list_fmap_compose in Hn. unfold over_names.
    destruct (remaining_header o), (used_header o); exact Hn.
Qed.

(** C10. Clients cannot forge the headers a compiled rule owns: on every request
    the rule lets pass, the upstream sees under each of those names the value
    the rule granted last (all the tiers the usage reached, or the soft
    over-quota annotation) and nothing otherwise, while every other name is
    left alone; a journal of pre-read mutations records the same operations in
    the same order. *)
Theorem quota_headers_owned {V R} `{!ValkeyBackends V R} `{ReservedHeaders} rule (be : BackendResource V) defaults max_keys fp b0
    f x now probe f' x' i r b :
  compile_rule rule be defaults max_keys fp = Ok (r, b0) -> matching_rule f (request_headers x) = Some (i, (r, b)) ->
  admit_request f x now probe = (f', x', Continue) ->
  let hs := granted f x r b now probe in
  (forall n, n ∈ inject_header_names r -> n ∉ (headers_to_set x).*1 -> quota_upstream x' n = option_list (last_value hs n)) /\
  (forall n, n ∉ inject_header_names r -> quota_upstream x' n = quota_upstream x n) /\
  pre_read_mutations x' =
    match pre_read_mutations x with
    | [] => []
    | ms => ms ++ (MutationRemove <$> inject_header_names r) ++ ((fun h => MutationSet h.1 h.2) <$> hs)
    end.
Proof.
  intros Hc Hm Ha hs. destruct (compile_rule_sound rule be defaults max_keys fp r b0 Hc) as (Hr & _).
  destruct (admit_queues _ f x now probe f' x' i r b Hr Hm Ha) as [m ->]. fold hs.
  assert (forall n, n ∈ hs.*1 -> n ∈ inject_header_names r) as Hsub by (intros n; by eapply granted_names).
  split_and!.
  - intros n. apply (queued_upstream x _ (inject_header_names r) hs n); done.
  - intros n. apply (queued_upstream x _ (inject_header_names r) hs n); done.
  - unfold is_ordered. cbn. unfold is_ordered. destruct (pre_read_mutations x); [done|]. by rewrite <- app_assoc.
Qed.
End Owned.

(** * A configuration *)

Module QuotaSample.
(** No deployment of the sample reaches Valkey. *)
#[export] Instance no_valkey : ValkeyBackends Empty_set Empty_set := {|
  valkey_connect _ := config_error "no connection";
  valkey_sliding (v : Empty_set) := match v with end;
  valkey_bucket (v : Empty_set) := match v with end
|}.
#[export] Instance no_backend : StateBackend Empty_set.
Proof. split; intros; repeat match goal with e : Empty_set |- _ => destruct e end. Defined.
#[export] Instance hop_by_hop : ReservedHeaders := {|
  HOP_BY_HOP_HEADERS := ["connection"; "te"]%string; is_reserved h := starts_with h "x-praxis-" |}.
#[export] Existing Instance KeySample.text_headers.
#[export] Existing Instance KeySample.plain.
#[export] Existing Instance KeySample.hex64.
#[export] Existing Instance list_order.

#[export] Instance any_metadata : MetadataApi.
Proof. refine {| set_metadata m k v := <[k := v]> m |}. by left. Defined.

Definition no_weights : TokenTypeWeightsConfig := mkWeightsConfig None None None None None.

(** Requests declare their cost; from 50 tokens on the upstream is told to
    degrade, and requests over the quota pass with a remark. *)
Definition rule : RuleConfig :=
  mkRuleConfig "chat" None (SlidingWindow "60s" 100) None
    (Some (mkEstimationConfig StrategyMaxTokens None (Some 10) None None None)) None no_weights
    (Some [mkTierConfig 50 ActionInject [("x-tier", "slow")]; mkTierConfig 80 ActionInject [("x-tier", "slower")]]%string)
    Soft (Some (mkOverQuotaConfig [("x-over", "1")] true false None None))%string.
Definition config : TokenRateLimitConfig :=
  mkRateLimitConfig [rule] (mkKeySpec [KdAuthenticatedSubject] PolicyReject) 10 (mkBackendConfig KindMemory None None) no_weights.

Definition request (claimed : string) : Ctx :=
  mkCtx [("x-tier"%string, bstr claimed); ("x-over"%string, bstr "0"); ("accept"%string, bstr "a")] (Some "alice"%string) None ∅ [] [] [].
Definition asks (n : N) : option BodyProbe := Some (mkBodyProbe (Some n) None None).

Definition limiter0 : TokenRateLimitFilter (DynBackend Empty_set) :=
  match from_config (fun _ => None) config with Ok f => f | Err _ => mkRateLimitFilter [] false (mkCompiledKeySpec [] PolicyReject) false end.

Lemma configured_rules_sound_witness :
  exists f, from_config (fun _ => None) config = Ok f /\
    Forall2 (fun rule rb => rule_sound (algorithm_capacity (rule_algorithm rule)) rb.1 /\ enforces (algorithm_capacity (rule_algorithm rule)) rb.2 /\
      estimation_sound (algorithm_capacity (rule_algorithm rule)) (estimation rb.1) /\
      Forall (fun t => headers_sound (tier_headers t)) (tiers rb.1) /\
      (forall n, n ∈ inject_header_names rb.1 -> writable n) /\
      name rb.1 = rule_name rule /\ enforcement rb.1 = rule_enforcement rule) (cfg_rules config) (rules f) /\ filter_needs_body f = true.
Proof.
  destruct (from_config (fun _ => None) config) as [f|] eqn:E; [|vm_compute in E; discriminate].
  destruct (configured_rules_sound _ _ _ E) as (Hr & _). exists f. split; [done|]. split; [exact Hr|].
  vm_compute in E. injection E as <-. reflexivity.
Defined.

(** Sixty tokens reach the first tier, whatever the client claimed. *)
Lemma quota_headers_owned_witness :
  exists f' x', admit_request limiter0 (request "fast") 5 (asks 60) = (f', x', Continue) /\
    quota_upstream x' "x-tier" = [bstr "slow"] /\ quota_upstream x' "x-over" = [] /\ quota_upstream x' "accept" = [bstr "a"].
Proof.
  destruct (admit_request limiter0 (request "fast") 5 (asks 60)) as [[f' x'] a] eqn:E.
  assert (a = Continue) as -> by (vm_compute in E; injection E as _ _ <-; reflexivity).
  destruct (matching_rule limiter0 (request_headers (request "fast"))) as [[i [r b]]|] eqn:Em; [|vm_compute in Em; discriminate].
  assert (compile_rule rule (Memory : BackendResource Empty_set) UNITY 10 (config_fingerprint (key_spec limiter0)) = Ok (r, b)) as Hc
    by (vm_compute in Em; injection Em as <- <- <-; vm_compute; reflexivity).
  destruct (quota_headers_owned rule Memory UNITY 10 (config_fingerprint (key_spec limiter0)) b
    limiter0 (request "fast") 5 (asks 60) f' x' i r b Hc Em E) as (Hown & Hother & _).
  vm_compute in Em. injection Em as <- <- <-. exists f', x'. split; [done|]. split_and!.
  - rewrite Hown; [vm_compute; reflexivity|apply (bool_decide_eq_true_1 _); vm_compute; reflexivity|apply not_elem_of_nil].
  - rewrite Hown; [vm_compute; reflexivity|apply (bool_decide_eq_true_1 _); vm_compute; reflexivity|apply not_elem_of_nil].
  - rewrite Hother; [vm_compute; reflexivity|]. apply (bool_decide_eq_false_1 _). vm_compute. reflexivity.
Defined.
End QuotaSample.
