(* ===== verification/RateLimitProps.v ===== *)
(** Properties of the token rate limit filter ([RateLimitFilter]) over any backend
    that satisfies [QuotaLaws]: every exchange is charged for its own usage and
    once, whatever other exchanges do meanwhile; what is forwarded is accounted
    for; clients cannot forge the headers the filter owns. *)

From S2P Require Import Prelude Utf8 MetaCodec RustStr Json Serde Float64 Ledger LedgerInvariants Weights.
From S2P Require Import TokenBucket TokenBucketProps QuotaBackend QuotaBackendProps IpText Routing BudgetKeys RateLimitRules RateLimitFilter RateLimitConfigProps.
From Stdlib Require Import Strings.Ascii.

Local Open Scope N_scope.

(** * Exchanges *)

Section Exchanges.
Context {B : Type} `{!StateBackend B} `{!QuotaLaws B} `{HeaderTypes} `{Sha256} `{Base64Url} `{MetadataApi}.
Context (from_slice : bytes -> option Json).

(** The filter, and the exchanges between their request and their response. *)
Record World := mkWorld { limiter : TokenRateLimitFilter B; live : gmap N Ctx }.

(** The request hooks of an exchange, the second when the first lets it pass. *)
Definition arrive (w : World) (t : N) (x : Ctx) (now now' : N) (body : option bytes) : World * FilterAction :=
  match on_request (limiter w) x now with
  | (f, x, Reject status hs) => (mkWorld f (<[t := x]> (live w)), Reject status hs)
  | (f, x, Continue) =>
      let '(f, x, action) := on_request_body from_slice f x now' body true in
      (mkWorld f (<[t := x]> (live w)), action)
  end.

(** The end of the response of an exchange; [m] is its metadata by then. *)
Definition finish (w : World) (t : N) (m : Metadata) (now : N) : World * option BackendSettlement :=
  match live w !! t with
  | None => (w, None)
  | Some x =>
      let '(f, x, s) := on_response_body (limiter w) (with_metadata x m) now true in
      (mkWorld f (<[t := x]> (live w)), s)
  end.


Inductive event :=
| Arrive (t : N) (x : Ctx) (now now' : N) (body : option bytes)
| Finish (t : N) (m : Metadata) (now : N).


Definition perform (w : World) (e : event) : World :=
  match e with Arrive t x now now' body => (arrive w t x now now' body).1 | Finish t m now => (finish w t m now).1 end.


(** ** The reservation an exchange holds *)

Definition ticket (m : Metadata) : option (nat * N * string) :=
  id ← parse_u64_meta m META_RESERVATION_ID;
  key ← m !! META_BUCKET_KEY;
  i ← (v ← m !! META_RULE_INDEX; parse_usize v);
  Some (N.to_nat i, id, key).



(** ** The invariant *)

(** Room for [n] more reservations on every rule. *)
Definition roomy (f : TokenRateLimitFilter B) (n : nat) : Prop :=
  forall i r b, rules f !! i = Some (r, b) -> issued b + N.of_nat n <= u64_max.

Record world_ok (w : World) (n : nat) : Prop := mkWorldOk {
  ok_backends : forall i r b, rules (limiter w) !! i = Some (r, b) -> backend_ok b;
  ok_room : roomy (limiter w) n;
  ok_rules : N.of_nat (length (rules (limiter w))) <= u64_max;
  ok_tickets : forall t x i id key, live w !! t = Some x -> ticket (filter_metadata x) = Some (i, id, key) ->
    exists r b, rules (limiter w) !! i = Some (r, b) /\ id < issued b;
  ok_distinct : forall t t' x x' i id key key',
    live w !! t = Some x -> live w !! t' = Some x' ->
    ticket (filter_metadata x) = Some (i, id, key) -> ticket (filter_metadata x') = Some (i, id, key') -> t = t'
}.

(** ** One operation on a backend *)





(** ** Admission *)

















(** ** Completion *)







(** ** Runs *)






End Exchanges.

(** * Configured filters *)

(** Widths the fields of a configuration have by type. *)
Definition rule_in_range (rule : RuleConfig) : Prop :=
  match rule_algorithm rule with SlidingWindow _ _ => True | TokenBucketAlgorithm _ rate => valid rate = true end.
Definition quota_config_in_range (cfg : TokenRateLimitConfig) : Prop :=
  cfg_max_keys cfg <= u64_max /\ N.of_nat (length (cfg_rules cfg)) <= u64_max /\ Forall rule_in_range (cfg_rules cfg).

Section Configured.
Context {V R : Type} `{!ValkeyBackends V R, !StateBackend R, !QuotaLaws R, !HashOrder N, !HashOrder string}.
Context `{HeaderTypes} `{ReservedHeaders} `{Sha256}.

Lemma memory_backend_fresh a name timeout max_keys acc (b : DynBackend R) :
  max_keys <= u64_max -> match a with SlidingWindow _ _ => True | TokenBucketAlgorithm _ rate => valid rate = true end ->
  build_rule_backend a Memory name timeout max_keys acc = Ok b -> backend_ok b /\ issued b = 1 /\ lifetime b = timeout.
Proof.
  intros Hk Hr. unfold build_rule_backend. destruct a as [w cap|cap rate].
  - destruct (parse_duration_ms w) as [ms|]; cbn; [|done]. destruct (Ledger.new _) as [L|] eqn:E; [|done]. intros [= <-].
    pose proof E as E'. apply LedgerInvariants.new_wf in E; [|done..]. unfold Ledger.new in E'.
    destruct (Ledger.validate _) as [[]|]; cbn in E'; [|done]. by injection E' as <-.
  - cbn. destruct (TokenBucket.new _) as [L|] eqn:E; [|done]. intros [= <-].
    pose proof E as E'. apply new_inv in E; [|done]. unfold TokenBucket.new in E'.
    destruct (TokenBucket.validate _) as [[]|]; cbn in E'; [|done]. by injection E' as <-.
Qed.

(** A filter over in-process backends starts in a good state. *)
Lemma configured_world_ok lookup cfg (f : TokenRateLimitFilter (DynBackend R)) n :
  quota_config_in_range cfg -> backend_kind (cfg_backend cfg) = KindMemory -> from_config lookup cfg = Ok f ->
  N.of_nat n < u64_max -> world_ok (mkWorld f ∅) n.
Proof.
  intros (Hk & Hl & Hr) Hm Hf Hn. apply from_config_rules in Hf as (be & ws & Hbe & _ & _ & _ & _ & _ & Hrs).
  unfold build_backend_resource in Hbe. rewrite Hm in Hbe. injection Hbe as <-.
  assert (forall i r b, rules f !! i = Some (r, b) -> backend_ok b /\ issued b = 1) as Hfresh.
  { intros i r b Hi. destruct (Forall2_lookup_r _ _ _ _ _ Hrs Hi) as (rule & Hrule & Hc).
    apply compile_rule_backend in Hc as (timeout & acc & _ & Hb). rewrite Forall_lookup in Hr.
    apply memory_backend_fresh in Hb as (? & ? & _); [done|done|by eapply Hr]. }
  split; cbn; try (intros *; by rewrite lookup_empty).
  - intros i r b Hi. by apply (Hfresh i r b).
  - intros i r b Hi. destruct (Hfresh i r b Hi) as [_ ->]. lia.
  - by rewrite <- (Forall2_length _ _ _ Hrs).
Qed.
End Configured.

Module ExchangeSample.
Import QuotaSample.
#[local] Program Instance no_laws : QuotaLaws Empty_set := {|
  backend_ok _ := True; pending _ _ := None; issued _ := 0; lifetime _ := 0 |}.
Solve All Obligations with (cbn; intros; match goal with s : Empty_set |- _ => destruct s end).

(** A body is one byte, the tokens it asks for. *)
Definition read_body (b : bytes) : option Json :=
  match b with [n] => Some (JObject [("max_tokens"%string, JNumber (PosInt (Byte.to_N n)))]) | _ => None end.
Definition body (n : Byte.byte) : option bytes := Some [n].

(** The metadata an exchange has by now. *)
Definition metadata_of (w : World (B := DynBackend Empty_set)) (t : N) : Metadata := default ∅ (filter_metadata <$> live w !! t).
Definition start : World := mkWorld limiter0 ∅.
Definition first : World := (arrive read_body start 1 (request "fast") 5 6 (body Byte.x3c)).1.
Definition second : World := perform read_body first (Arrive 2 (request "fast") 7 8 (body Byte.x0a)).
Definition third : World := perform read_body second (Arrive 3 (request "fast") 8 8 (body Byte.x3c)).
Definition others : list event :=
  [Arrive 2 (request "fast") 7 8 (body Byte.x0a); Arrive 3 (request "fast") 8 8 (body Byte.x3c); Finish 2 (metadata_of third 2) 9].
Definition mid : World := perform read_body third (Finish 2 (metadata_of third 2) 9).
Definition usage : Metadata :=
  <[META_TOKEN_INPUT := "20"%string]> (<[META_TOKEN_OUTPUT := "5"%string]> (metadata_of mid 1)).

Lemma start_ok n : N.of_nat n < u64_max -> world_ok start n.
Proof.
  unfold start, limiter0. destruct (from_config (fun _ => None) config) as [f|] eqn:E; [|vm_compute in E; discriminate].
  apply (configured_world_ok (fun _ => None) config); [|reflexivity|exact E]. split_and!; [vm_compute; discriminate..|]. constructor; [exact I|constructor].
Qed.





End ExchangeSample.
