(* ===== verification/RouteOverlay.v ===== *)
(** Routing overlays: the document types, the validated snapshot and its hot
    reload ([filters/src/routing/overlay.rs]).

    The JSON reader, the RFC 8785 canonicalizer and the RFC 3339 parser are
    methods of [OverlayDeps].  The file is what reading it gave, [None] when it
    could not be opened or read. *)

From S2P Require Import Prelude Utf8 MetaCodec RustStr Json Serde Routing.
From Stdlib Require Import Strings.Ascii Strings.Byte.

Local Open Scope N_scope.
Local Open Scope rust_scope.

Class OverlayDeps := {
  read_json : bytes -> option Json;
  canonicalize : Json -> option bytes;
  rfc3339_ok : string -> bool
}.

(** * Documents *)

Record OverlaySecretRef := mkSecretRef { os_name : string; os_namespace : string; os_key : string }.
Record OverlayCredential := mkOverlayCredential { oc_strategy : string; oc_secret_ref : OverlaySecretRef }.

Record OverlayCandidate := mkOverlayCandidate {
  o_admission_state : option string;
  o_cluster : string;
  o_provider : option string;
  o_target_model : option string;
  o_paths : option (list string);
  o_catalog : option (list string);
  o_display_name : option string;
  o_owned_by : option string;
  o_created : option Z;
  o_credential : option OverlayCredential;
  o_fresh : bool;
  o_kind : string;
  o_name : string;
  o_rank : option N;
  o_selection_group : option N;
  o_traffic_weight : option N;
  o_selection_tier : option string;
  o_site : string;
  o_stable_id : option string
}.

Record OverlayDocument := mkOverlay {
  d_local_site : string;
  d_candidates : list OverlayCandidate;
  d_generated_at : option string;
  d_network : option string;
  d_selection_policy : option PickerPolicy
}.

Record RevisionField := mkRevision { rv_kind : string; rv_algorithm : string; rv_value : string }.
Record DigestField := mkDigest { dg_algorithm : string; dg_value : string }.
Record ScopeField := mkScope { sc_network : string; sc_gateway : string; sc_namespace : string; sc_local_site : string }.
Record ProvenanceField := mkProvenance {
  pv_producer : string;
  pv_producer_version : string;
  pv_source_name : string;
  pv_source_uid : string;
  pv_source_generation : N;
  pv_rendered_at : string
}.

Record EnvelopeDocument := mkEnvelope {
  e_schema_version : string;
  e_revision : RevisionField;
  e_content_digest : DigestField;
  e_scope : ScopeField;
  e_provenance : ProvenanceField;
  e_overlay : OverlayDocument
}.

Record ExpectedOverlayScope := mkExpected {
  x_network : option string;
  x_gateway : option string;
  x_namespace : option string;
  x_local_site : option string
}.

(** ** Reading them *)

Section Readers.
Local Open Scope serde_scope.

Definition de_secret_ref : De OverlaySecretRef :=
  de_strict (mkSecretRef <$$> required "name" de_string <**> required "namespace" de_string <**> required "key" de_string).

Definition de_credential : De OverlayCredential :=
  de_strict (mkOverlayCredential <$$> required "strategy" de_string
             <**> field ["secretRef"; "secret_ref"]%string None None de_secret_ref).

Definition opt {A} (k : string) (d : De A) : Fields (option A) := defaulted k None (de_option d).

Definition de_candidate : De OverlayCandidate :=
  de_struct (mkOverlayCandidate
    <$$> opt "admission_state" de_string <**> required "cluster" de_string <**> opt "provider" de_string
    <**> opt "target_model" de_string <**> opt "paths" (de_vec de_string) <**> opt "catalog" (de_vec de_string)
    <**> opt "display_name" de_string <**> opt "owned_by" de_string <**> opt "created" de_i64
    <**> opt "credential" de_credential <**> defaulted "fresh" true de_bool <**> required "kind" de_string
    <**> required "name" de_string <**> opt "rank" de_u32 <**> opt "selection_group" de_u32
    <**> opt "traffic_weight" de_u32 <**> opt "selection_tier" de_string <**> required "site" de_string
    <**> opt "stable_id" de_string).

Definition picker_variant (s : string) : option PickerPolicy :=
  if bool_decide (s = "deterministic"%string) then Some Deterministic
  else if bool_decide (s = "roundRobin"%string) then Some RoundRobin
  else if bool_decide (s = "random"%string) then Some Random
  else if bool_decide (s = "weightedRandom"%string) then Some WeightedRandom
  else None.

Definition de_selection_policy : De PickerPolicy :=
  de_struct ((fun m => m) <$$> required "mode" (de_unit_enum picker_variant)).

Definition de_overlay : De OverlayDocument :=
  de_struct (mkOverlay <$$> required "local_site" de_string <**> required "candidates" (de_vec de_candidate)
             <**> opt "generated_at" de_string <**> opt "network" de_string
             <**> opt "selection_policy" de_selection_policy).

Definition de_revision : De RevisionField :=
  de_struct (mkRevision <$$> required "kind" de_string <**> required "algorithm" de_string <**> required "value" de_string).
Definition de_digest : De DigestField :=
  de_struct (mkDigest <$$> required "algorithm" de_string <**> required "value" de_string).
Definition de_scope : De ScopeField :=
  de_struct (mkScope <$$> required "network" de_string <**> required "gateway" de_string
             <**> required "namespace" de_string <**> required "local_site" de_string).
Definition de_provenance : De ProvenanceField :=
  de_struct (mkProvenance <$$> required "producer" de_string <**> required "producer_version" de_string
             <**> required "source_name" de_string <**> required "source_uid" de_string
             <**> required "source_generation" de_u64 <**> required "rendered_at" de_string).

Definition de_envelope : De EnvelopeDocument :=
  de_struct (mkEnvelope <$$> required "schema_version" de_string <**> required "revision" de_revision
             <**> required "content_digest" de_digest <**> required "scope" de_scope
             <**> required "provenance" de_provenance <**> required "overlay" de_overlay).
End Readers.

(** * Validation *)

Definition MAX_OVERLAY_SIZE : N := 2097152.
Definition MAX_ENVELOPE_FIELD_LEN : N := 256.

Definition ENVELOPE_SIGNAL_FIELDS : list string :=
  ["schema_version"; "revision"; "content_digest"; "scope"; "provenance"]%string.

(** [has_envelope_signal]. *)
Definition has_envelope_signal (value : Json) : bool :=
  existsb (fun f => bool_decide (get value f <> None)) ENVELOPE_SIGNAL_FIELDS.

Definition is_lower_hex (c : ascii) : bool :=
  let b := N_of_ascii c in ((48 <=? b) && (b <=? 57)) || ((97 <=? b) && (b <=? 102)).

(** [validate_hex_value]. *)
Definition validate_hex_value (value : string) : result RouteError unit :=
  if negb (str_len value =? 64) then Err BadRevision
  else if negb (forallb is_lower_hex (String.list_ascii_of_string value)) then Err BadRevision
  else Ok tt.

(** [validate_revision_shape]. *)
Definition validate_revision_shape (f : RevisionField) : result RouteError unit :=
  if negb (bool_decide (rv_kind f = "content_addressed"%string)) then Err BadRevision
  else if negb (bool_decide (rv_algorithm f = "sha256"%string)) then Err BadRevision
  else validate_hex_value (rv_value f).

(** [validate_revision_shape_digest]. *)
Definition validate_revision_shape_digest (f : DigestField) : result RouteError unit :=
  if negb (bool_decide (dg_algorithm f = "sha256"%string)) then Err BadRevision
  else validate_hex_value (dg_value f).

(** [validate_bounded_nonblank]. *)
Definition validate_bounded_nonblank (value : string) (max_len : N) : result RouteError unit :=
  if is_blank value || (max_len <? str_len value) then Err BadEnvelopeField else Ok tt.

Fixpoint validate_all (values : list string) : result RouteError unit :=
  match values with
  | [] => Ok tt
  | v :: values => let? _ := validate_bounded_nonblank v MAX_ENVELOPE_FIELD_LEN in validate_all values
  end.

(** [validate_expected_scope]. *)
Definition scope_field_ok (expected : option string) (actual : string) : bool :=
  match expected with Some e => bool_decide (e = actual) | None => true end.

Definition validate_expected_scope (e : ExpectedOverlayScope) (s : ScopeField) : result RouteError unit :=
  if negb (scope_field_ok (x_network e) (sc_network s)) then Err ScopeMismatch
  else if negb (scope_field_ok (x_gateway e) (sc_gateway s)) then Err ScopeMismatch
  else if negb (scope_field_ok (x_namespace e) (sc_namespace s)) then Err ScopeMismatch
  else if negb (scope_field_ok (x_local_site e) (sc_local_site s)) then Err ScopeMismatch
  else Ok tt.

(** [validate_selection_mode]. *)
Definition validate_selection_mode (candidates : list RouteCandidate) (mode : PickerPolicy) : result RouteError unit :=
  if negb (bool_decide (mode = WeightedRandom)) then
    if existsb (fun c => bool_decide (is_Some (traffic_weight c))) candidates then Err WeightWithoutPolicy else Ok tt
  else if existsb (fun c => bool_decide (selection_group c = None) || bool_decide (traffic_weight c = None)) candidates
  then Err PolicyWithoutWeight
  else Ok tt.

(** [validate_unique_stable_ids]. *)
Fixpoint validate_unique_stable_ids (i : N) (seen : list string) (candidates : list RouteCandidate)
    : result RouteError unit :=
  match candidates with
  | [] => Ok tt
  | c :: candidates =>
      if bool_decide (stable_id c ∈ seen) then Err (DuplicateStableId i)
      else validate_unique_stable_ids (i + 1) (stable_id c :: seen) candidates
  end.

(** The [CandidateConfig] of an overlay entry. *)
Definition overlay_config (oc : OverlayCandidate) : result RouteError CandidateConfig :=
  let? k := kind_from_overlay_str (o_kind oc) in
  Ok (mkConfig (o_cluster oc) (o_provider oc) (o_target_model oc) (o_paths oc) (o_catalog oc) (o_display_name oc)
        (o_owned_by oc) (o_created oc)
        ((fun c => mkCredential (oc_strategy c)
                     (mkCredentialRef (os_key (oc_secret_ref c)) (os_name (oc_secret_ref c)) (os_namespace (oc_secret_ref c))))
         <$> o_credential oc)
        (o_fresh oc) k (o_name oc) (o_site oc) (o_traffic_weight oc)).

Fixpoint overlay_configs (ocs : list OverlayCandidate) : result RouteError (list CandidateConfig) :=
  match ocs with
  | [] => Ok []
  | oc :: ocs => let? c := overlay_config oc in let? cs := overlay_configs ocs in Ok (c :: cs)
  end.

Section Overlay.
Context `{HeaderSyntax, Sha256, OverlayDeps}.

(** The body of the loop of [enrich_from_overlay]. *)
Definition enrich_candidate (i : N) (c : RouteCandidate) (oc : OverlayCandidate) : result RouteError RouteCandidate :=
  let? adm :=
    match o_admission_state oc with
    | Some s => match admission_from_overlay_str s with Some a => Ok a | None => Err (UnknownAdmission i) end
    | None => Ok (admission_state c)
    end in
  let? tier :=
    match o_selection_tier oc with
    | Some t => if is_blank t || (128 <? str_len t) then Err (BadTier i) else Ok (Some t)
    | None => Ok (selection_tier c)
    end in
  let? id :=
    match o_stable_id oc with
    | Some s => if is_blank s || (256 <? str_len s) || negb (header_value_ok s) then Err (BadStableId i) else Ok s
    | None => Ok (stable_id c)
    end in
  Ok (mkCandidate adm (cluster c) (provider c) (target_model c) (paths c) (catalog c) (display_name c) (owned_by c)
        (created c) (credential c) (fresh c) (kind c) (name c) (o_rank oc) (o_selection_group oc) (traffic_weight c)
        tier (site c) id).

(** [enrich_from_overlay]: [zip] stops at the shorter list. *)
Fixpoint enrich_from_overlay (i : N) (cs : list RouteCandidate) (ocs : list OverlayCandidate)
    : result RouteError (list RouteCandidate) :=
  match cs, ocs with
  | c :: cs, oc :: ocs =>
      let? c := enrich_candidate i c oc in let? cs := enrich_from_overlay (i + 1) cs ocs in Ok (c :: cs)
  | cs, _ => Ok cs
  end.

(** [overlay_to_candidates]. *)
Definition overlay_to_candidates (doc : OverlayDocument) (allow_empty : bool) : result RouteError (list RouteCandidate) :=
  let? raw := overlay_configs (d_candidates doc) in
  let? cs := if allow_empty then validate_overlay_candidates raw else validate_candidates raw in
  let? cs := enrich_from_overlay 0 cs (d_candidates doc) in
  let? _ := validate_unique_stable_ids 0 [] cs in
  Ok cs.

(** [validate_envelope_metadata]. *)
Definition validate_envelope_metadata (e : EnvelopeDocument) : result RouteError unit :=
  let s := e_scope e in
  let p := e_provenance e in
  let? _ := validate_all [sc_network s; sc_gateway s; sc_namespace s; sc_local_site s; pv_producer p;
                          pv_producer_version p; pv_source_name p; pv_source_uid p; pv_rendered_at p] in
  if pv_source_generation p =? 0 then Err ZeroGeneration
  else if negb (rfc3339_ok (pv_rendered_at p)) then Err BadTimestamp
  else Ok tt.

(** [compute_semantic_digest]. *)
Definition semantic_fields : list string := ["candidates"; "local_site"; "network"; "selection_policy"]%string.

Definition semantic_value (overlay : Json) : Json :=
  JObject (omap (fun f => v ← get overlay f; Some (f, v)) semantic_fields).

Definition compute_semantic_digest (overlay : Json) : result RouteError string :=
  match canonicalize (semantic_value overlay) with
  | Some canonical => Ok (encode_hex (sha256 canonical))
  | None => Err CanonicalizationError
  end.

(** * Snapshots *)

Inductive ContractFormat := Envelope | Legacy.

Record RouteSnapshot := mkSnapshot {
  candidates : list RouteCandidate;
  group_index : GroupIndex;
  selection_mode : PickerPolicy;
  contract_format : ContractFormat;
  content_hash : bytes;
  generated_at : option string;
  local_site : string;
  schema_version : option string;
  semantic_revision : option string
}.

(** The part [from_envelope] and [from_legacy] share. *)
Definition snapshot_of_overlay (doc : OverlayDocument) (allow_empty : bool) (format : ContractFormat)
    (hash : bytes) (version revision : option string) : result RouteError RouteSnapshot :=
  let mode := default Deterministic (d_selection_policy doc) in
  let? _ := validate_name (d_local_site doc) in
  let? cs := overlay_to_candidates doc allow_empty in
  let? _ := validate_selection_mode cs mode in
  let? idx := build cs in
  Ok (mkSnapshot cs idx mode format hash (d_generated_at doc) (d_local_site doc) version revision).

(** [RouteSnapshot::from_envelope]; [tree] is the parsed content and [value] its
    [Value]. *)
Definition from_envelope (tree : Json) (hash : bytes) (value : Json) (expected : option ExpectedOverlayScope)
    : result RouteError RouteSnapshot :=
  match de_envelope tree with
  | None => Err EnvelopeParseError
  | Some e =>
      if negb (bool_decide (e_schema_version e = "1.0.0"%string)) then Err UnsupportedSchema
      else
        let? _ := validate_envelope_metadata e in
        let? _ := validate_revision_shape (e_revision e) in
        let? _ := validate_revision_shape_digest (e_content_digest e) in
        if negb (bool_decide (rv_value (e_revision e) = dg_value (e_content_digest e))) then Err RevisionMismatch
        else
          match get value "overlay" with
          | None => Err MissingOverlay
          | Some overlay_value =>
              let? recomputed := compute_semantic_digest overlay_value in
              if negb (bool_decide (recomputed = dg_value (e_content_digest e))) then Err DigestMismatch
              else
                match d_network (e_overlay e) with
                | None => Err MissingNetwork
                | Some network =>
                    if negb (bool_decide (network = sc_network (e_scope e))) then Err NetworkMismatch
                    else if negb (bool_decide (sc_local_site (e_scope e) = d_local_site (e_overlay e))) then Err SiteMismatch
                    else if negb (bool_decide (pv_source_name (e_provenance e) = sc_network (e_scope e))) then Err SourceMismatch
                    else
                      let? _ := match expected with Some x => validate_expected_scope x (e_scope e) | None => Ok tt end in
                      snapshot_of_overlay (e_overlay e) true Envelope hash
                        (Some (e_schema_version e)) (Some (rv_value (e_revision e)))
                end
          end
  end.

(** [RouteSnapshot::from_legacy]. *)
Definition from_legacy (tree : Json) (hash : bytes) : result RouteError RouteSnapshot :=
  match de_overlay tree with
  | None => Err ParseError
  | Some doc => snapshot_of_overlay doc false Legacy hash None None
  end.

(** [RouteSnapshot::from_overlay_with_scope]. *)
Definition from_overlay_with_scope (content : bytes) (expected : option ExpectedOverlayScope)
    : result RouteError RouteSnapshot :=
  let hash := sha256 content in
  match read_json content with
  | None => Err ParseError
  | Some tree =>
      let value := to_value tree in
      if has_envelope_signal value then from_envelope tree hash value expected
      else if bool_decide (is_Some expected) then Err LegacyRefused
      else from_legacy tree hash
  end.

(** [RouteSnapshot::from_static]. *)
Definition from_static (cs : list RouteCandidate) (local_site : string) : RouteSnapshot :=
  mkSnapshot cs ∅ Deterministic Legacy (replicate 32 x00) None local_site None None.

(** * Hot reload *)

(** [read_overlay_bounded]. *)
Definition read_overlay_bounded (file : option bytes) : option bytes :=
  match file with
  | Some content => if MAX_OVERLAY_SIZE <? nlength content then None else Some content
  | None => None
  end.

(** [is_semantically_unchanged]. *)
Definition is_semantically_unchanged (current candidate : RouteSnapshot) : bool :=
  bool_decide (is_Some (semantic_revision current)) &&
  bool_decide (semantic_revision candidate = semantic_revision current).

(** [handle_overlay_reload], with [apply_overlay]: the snapshot to serve. *)
Definition handle_overlay_reload (file : option bytes) (current : RouteSnapshot) (expected : option ExpectedOverlayScope)
    : RouteSnapshot :=
  match read_overlay_bounded file with
  | None => current
  | Some content =>
      if bool_decide (sha256 content = content_hash current) then current
      else
        match from_overlay_with_scope content expected with
        | Ok new_snap => if is_semantically_unchanged current new_snap then current else new_snap
        | Err _ => current
        end
  end.
End Overlay.
