(* ===== verification/RouteOverlayProps.v ===== *)
(** What an accepted overlay guarantees, and that a reload either serves a fully
    validated snapshot or keeps the one in use ([RouteOverlay]). *)

From S2P Require Import Prelude Utf8 MetaCodec RustStr Json Serde Routing RoutingProps RouteOverlay.

Local Open Scope N_scope.

(** Peels the validation steps off an accepted result. *)
Ltac peel H :=
  repeat match type of H with
  | (if ?b then _ else _) = Ok _ => let E := fresh "E" in destruct b eqn:E; [try discriminate H|try discriminate H]
  | match ?m with _ => _ end = Ok _ => let E := fresh "E" in destruct m eqn:E; try discriminate H
  end.

(** * Specification *)

Definition text_ok (s : string) : Prop := is_blank s = false /\ str_len s <= MAX_NAME_LEN.

(** The candidate an overlay entry describes. *)
Record entry_of (oc : OverlayCandidate) (c : RouteCandidate) : Prop := {
  en_kind : kind_as_str (kind c) = o_kind oc;
  en_name : name c = o_name oc;
  en_site : site c = o_site oc;
  en_cluster : cluster c = o_cluster oc;
  en_provider : provider c = o_provider oc;
  en_target : target_model c = o_target_model oc;
  en_rank : rank c = o_rank oc;
  en_group : selection_group c = o_selection_group oc;
  en_weight : traffic_weight c = o_traffic_weight oc;
  en_admission : match o_admission_state oc with
                 | Some s => admission_as_str (admission_state c) = s
                 | None => admission_state c = NewAndExisting
                 end;
  en_id : match o_stable_id oc with Some s => stable_id c = s | None => True end;
  en_text : text_ok (name c) /\ text_ok (site c) /\ text_ok (cluster c);
  en_strategy : match credential c with Some cr => is_supported_strategy (cred_strategy cr) = true | None => o_credential oc = None end
}.

Section Overlay.
Context `{HeaderSyntax, Sha256, OverlayDeps}.

(** The snapshot serves exactly the candidates of the document. *)
Record serves (doc : OverlayDocument) (s : RouteSnapshot) : Prop := {
  sv_entries : Forall2 entry_of (d_candidates doc) (candidates s);
  sv_mode : selection_mode s = default Deterministic (d_selection_policy doc);
  sv_site : local_site s = d_local_site doc;
  sv_ids : NoDup (stable_id <$> candidates s);
  sv_identities : NoDup ((fun c => (kind c, name c, site c, cluster c)) <$> candidates s);
  sv_count : nlength (candidates s) <= MAX_CANDIDATES;
  sv_index : index_ok (candidates s) (group_index s);
  sv_weights : weights_ready (candidates s) (selection_mode s)
}.

Definition in_scope (x : ExpectedOverlayScope) (s : ScopeField) : Prop :=
  (forall v, x_network x = Some v -> sc_network s = v) /\ (forall v, x_gateway x = Some v -> sc_gateway s = v) /\
  (forall v, x_namespace x = Some v -> sc_namespace s = v) /\ (forall v, x_local_site x = Some v -> sc_local_site s = v).

(** Where a snapshot comes from: a legacy document, only when no scope is
    expected, or an envelope in the expected scope whose revision is the digest
    recomputed over the overlay it serves. *)
Definition verified (expected : option ExpectedOverlayScope) (content : bytes) (s : RouteSnapshot) : Prop :=
  content_hash s = sha256 content /\
  exists tree, read_json content = Some tree /\
  match contract_format s with
  | Legacy => expected = None /\ semantic_revision s = None /\ exists doc, de_overlay tree = Some doc /\ serves doc s
  | Envelope =>
      exists env overlay canonical,
        de_envelope tree = Some env /\ get (to_value tree) "overlay" = Some overlay /\
        canonicalize (semantic_value overlay) = Some canonical /\
        semantic_revision s = Some (encode_hex (sha256 canonical)) /\ rv_value (e_revision env) = encode_hex (sha256 canonical) /\
        d_network (e_overlay env) = Some (sc_network (e_scope env)) /\
        d_local_site (e_overlay env) = sc_local_site (e_scope env) /\
        (forall x, expected = Some x -> in_scope x (e_scope env)) /\
        serves (e_overlay env) s
  end.

(** * Candidates *)

Lemma validate_name_ok v : validate_name v = Ok tt -> text_ok v.
Proof.
  unfold validate_name, text_ok. destruct (is_blank v); [done|]. cbn. destruct (N.ltb_spec MAX_NAME_LEN (str_len v)); [done|]. done.
Qed.

Lemma validate_candidate_ok cfg c :
  validate_candidate cfg = Ok c ->
  kind c = cc_kind cfg /\ name c = cc_name cfg /\ site c = cc_site cfg /\ cluster c = cc_cluster cfg /\
  provider c = cc_provider cfg /\ target_model c = cc_target_model cfg /\ traffic_weight c = cc_traffic_weight cfg /\
  admission_state c = NewAndExisting /\ selection_tier c = None /\ credential c = cc_credential cfg /\
  text_ok (name c) /\ text_ok (site c) /\ text_ok (cluster c) /\
  match cc_credential cfg with Some cr => is_supported_strategy (cred_strategy cr) = true | None => True end.
Proof.
  unfold validate_candidate. intros H'. peel H'. injection H' as <-. cbn.
  repeat match goal with u : unit |- _ => destruct u end.
  split_and!; auto using validate_name_ok.
  destruct (cc_credential cfg) as [cr|]; [|done]. unfold validate_credential in *.
  destruct (is_supported_strategy _); [done|discriminate].
Qed.

Lemma validate_loop_ok raw seen cs :
  validate_loop raw seen = Ok cs ->
  Forall2 (fun cfg c => validate_candidate cfg = Ok c) raw cs /\ NoDup (identity <$> raw) /\
  (forall i, i ∈ identity <$> raw -> i ∉ seen).
Proof.
  revert seen cs. induction raw as [|cfg raw IH]; intros seen cs; cbn.
  { intros [= <-]. split_and!; [constructor..|]. intros i Hi. by apply not_elem_of_nil in Hi. }
  destruct (validate_candidate cfg) as [c|] eqn:Hc; [|done]. case_bool_decide as Hs; [done|].
  destruct (validate_loop raw _) as [cs'|] eqn:Hl; [|done]. intros [= <-].
  apply IH in Hl as (HF & Hnd & Hnew). split_and!; [by constructor|..].
  - constructor; [|done]. intros Hin. specialize (Hnew _ Hin). apply Hnew. by left.
  - intros i [->|Hi]%elem_of_cons; [done|]. specialize (Hnew _ Hi). set_solver.
Qed.

Lemma overlay_configs_ok ocs raw :
  overlay_configs ocs = Ok raw -> Forall2 (fun oc cfg => overlay_config oc = Ok cfg) ocs raw.
Proof.
  revert raw. induction ocs as [|oc ocs IH]; intros raw; cbn; [intros [= <-]; constructor|].
  destruct (overlay_config oc) eqn:E; [|done]. destruct (overlay_configs ocs) eqn:E'; [|done].
  intros [= <-]. constructor; auto.
Qed.

Lemma enrich_ok i cs ocs cs' :
  length cs = length ocs -> enrich_from_overlay i cs ocs = Ok cs' ->
  Forall2 (fun co c' => exists j, enrich_candidate j co.1 co.2 = Ok c') (zip cs ocs) cs'.
Proof.
  revert i ocs cs'. induction cs as [|c cs IH]; intros i [|oc ocs] cs' Hlen; try done; cbn.
  { intros [= <-]. constructor. }
  destruct (enrich_candidate i c oc) eqn:E; [|done]. destruct (enrich_from_overlay _ cs ocs) eqn:E'; [|done].
  intros [= <-]. constructor; [by exists i|]. eapply IH; [|done]. by injection Hlen.
Qed.

Lemma kind_str_ok s k : kind_from_overlay_str s = Ok k -> kind_as_str k = s.
Proof. unfold kind_from_overlay_str. repeat case_bool_decide; subst; by intros [= <-]. Qed.

Lemma admission_str_ok s a : admission_from_overlay_str s = Some a -> admission_as_str a = s.
Proof. unfold admission_from_overlay_str. repeat case_bool_decide; subst; by intros [= <-]. Qed.

(** An entry that passes every stage. *)
Lemma entry_pipeline oc cfg c i c' :
  overlay_config oc = Ok cfg -> validate_candidate cfg = Ok c -> enrich_candidate i c oc = Ok c' ->
  entry_of oc c' /\ (kind c', name c', site c', cluster c') = identity cfg.
Proof.
  unfold overlay_config. destruct (kind_from_overlay_str (o_kind oc)) as [k|] eqn:Hk; [|done]. intros [= <-].
  intros (V1 & V2 & V3 & V4 & V5 & V6 & V7 & V8 & V9 & V10 & V11 & V12 & V13 & V14)%validate_candidate_ok.
  apply kind_str_ok in Hk. unfold enrich_candidate. intros He. peel He. injection He as <-. cbn in *.
  unfold identity. cbn. split; [|congruence]. constructor; cbn; try congruence; try done.
  - destruct (o_admission_state oc) as [s|]; [|by injection E as <-].
    destruct (admission_from_overlay_str s) eqn:Ea; [|done]. injection E as <-. by apply admission_str_ok.
  - destruct (o_stable_id oc); [|done]. destruct (_ || _) in E1; [done|]. by injection E1 as <-.
  - rewrite V10. by destruct (o_credential oc).
Qed.

Lemma unique_ids i seen cs :
  validate_unique_stable_ids i seen cs = Ok tt -> NoDup (stable_id <$> cs) /\ forall c, c ∈ cs -> stable_id c ∉ seen.
Proof.
  revert i seen. induction cs as [|c cs IH]; intros i seen; cbn.
  { intros _. split; [constructor|]. intros c Hc. by apply not_elem_of_nil in Hc. }
  case_bool_decide as Hs; [done|]. intros [Hnd Hnew]%IH. split.
  - constructor; [|done]. intros (d & Heq & Hd)%list_elem_of_fmap. specialize (Hnew d Hd). rewrite <- Heq in Hnew. set_solver.
  - intros d [->|Hd]%elem_of_cons; [done|]. specialize (Hnew d Hd). set_solver.
Qed.

Lemma selection_mode_ok cs mode : validate_selection_mode cs mode = Ok tt -> weights_ready cs mode.
Proof.
  unfold validate_selection_mode, weights_ready. intros Hv -> c Hc. rewrite bool_decide_eq_true_2 in Hv by done. cbn in Hv. destruct (existsb _ cs) eqn:E; [done|].
  assert (bool_decide (selection_group c = None) || bool_decide (traffic_weight c = None) = false) as Hn.
  { apply not_true_is_false. intros Ht. apply not_true_iff_false in E. apply E. apply existsb_exists.
    exists c. split; [by apply list_elem_of_In|done]. }
  apply orb_false_iff in Hn as [Hg%bool_decide_eq_false Hw%bool_decide_eq_false].
  split; by apply not_eq_None_Some.
Qed.

Lemma overlay_candidates_ok doc allow cs :
  overlay_to_candidates doc allow = Ok cs ->
  Forall2 entry_of (d_candidates doc) cs /\ NoDup (stable_id <$> cs) /\
  NoDup ((fun c => (kind c, name c, site c, cluster c)) <$> cs) /\ nlength cs <= MAX_CANDIDATES.
Proof.
  unfold overlay_to_candidates. destruct (overlay_configs _) as [raw|] eqn:Hraw; [|done].
  destruct (if allow then _ else _) as [vs|] eqn:Hv; [|done].
  destruct (enrich_from_overlay _ _ _) as [es|] eqn:He; [|done].
  destruct (validate_unique_stable_ids _ _ _) as [[]|] eqn:Hu; [|done]. intros [= <-].
  assert (nlength raw <= MAX_CANDIDATES /\ validate_loop raw [] = Ok vs) as [Hlen Hloop].
  { destruct allow; unfold validate_overlay_candidates, validate_candidates, validate_candidates_with_empty in Hv;
      destruct (_ && _) in Hv; try done; destruct (N.ltb_spec MAX_CANDIDATES (nlength raw)); try done. }
  apply overlay_configs_ok in Hraw. apply validate_loop_ok in Hloop as (HF & Hnd & _).
  pose proof (Forall2_length _ _ _ Hraw) as L1. pose proof (Forall2_length _ _ _ HF) as L2.
  apply enrich_ok in He; [|lia]. pose proof (Forall2_length _ _ _ He) as L3. rewrite length_zip_with in L3.
  assert (forall j oc e, d_candidates doc !! j = Some oc -> es !! j = Some e ->
          exists cfg, raw !! j = Some cfg /\ entry_of oc e /\ (kind e, name e, site e, cluster e) = identity cfg) as Hall.
  { intros j oc e Hoc He'. destruct (lookup_lt_is_Some_2 raw j) as [cfg Hcfg]; [apply lookup_lt_Some in Hoc; lia|].
    destruct (lookup_lt_is_Some_2 vs j) as [v Hv']; [apply lookup_lt_Some in Hoc; lia|].
    pose proof (Forall2_lookup_lr _ _ _ _ _ _ Hraw Hoc Hcfg) as P1.
    pose proof (Forall2_lookup_lr _ _ _ _ _ _ HF Hcfg Hv') as P2.
    assert (zip vs (d_candidates doc) !! j = Some (v, oc)) as Hz by (apply lookup_zip_with_Some; eauto).
    destruct (Forall2_lookup_lr _ _ _ _ _ _ He Hz He') as [m P3]. exists cfg. split; [done|]. exact (entry_pipeline _ _ _ _ _ P1 P2 P3). }
  apply unique_ids in Hu as [Hids _]. split_and!; [|done| |unfold nlength in *; lia].
  - apply Forall2_same_length_lookup. split; [lia|]. intros j oc e Hoc He'. by destruct (Hall j oc e Hoc He') as (? & _ & ? & _).
  - replace ((fun c => (kind c, name c, site c, cluster c)) <$> es) with (identity <$> raw); [done|].
    apply list_eq_same_length with (n := length es); [rewrite length_fmap; lia|rewrite length_fmap; lia|].
    intros j a b Hj Ha Hb. apply list_lookup_fmap_Some in Ha as (cfg & -> & Hcfg). apply list_lookup_fmap_Some in Hb as (e & -> & He').
    destruct (lookup_lt_is_Some_2 (d_candidates doc) j) as [oc Hoc]; [lia|].
    destruct (Hall j oc e Hoc He') as (cfg' & Hcfg' & _ & ->). congruence.
Qed.

Lemma snapshot_serves doc allow fmt hash version revision s :
  snapshot_of_overlay doc allow fmt hash version revision = Ok s ->
  serves doc s /\ content_hash s = hash /\ contract_format s = fmt /\ semantic_revision s = revision.
Proof.
  unfold snapshot_of_overlay. intros Hs. peel Hs. injection Hs as <-. cbn. split; [|done].
  match goal with Hc : overlay_to_candidates _ _ = Ok _ |- _ => apply overlay_candidates_ok in Hc as (? & ? & ? & ?) end.
  match goal with u : validate_selection_mode _ _ = Ok ?u |- _ => destruct u end.
  constructor; cbn; auto using build_index_ok, selection_mode_ok.
Qed.

(** * Acceptance *)

Lemma scope_ok x s : validate_expected_scope x s = Ok tt -> in_scope x s.
Proof.
  unfold validate_expected_scope, in_scope, scope_field_ok.
  destruct (x_network x), (x_gateway x), (x_namespace x), (x_local_site x); repeat case_bool_decide; cbn;
    try done; intros _; split_and!; intros ? [= <-]; congruence.
Qed.

Lemma envelope_verified tree hash expected s :
  from_envelope tree hash (to_value tree) expected = Ok s ->
  content_hash s = hash /\ contract_format s = Envelope /\
  exists env overlay canonical,
    de_envelope tree = Some env /\ get (to_value tree) "overlay" = Some overlay /\
    canonicalize (semantic_value overlay) = Some canonical /\
    semantic_revision s = Some (encode_hex (sha256 canonical)) /\ rv_value (e_revision env) = encode_hex (sha256 canonical) /\
    d_network (e_overlay env) = Some (sc_network (e_scope env)) /\
    d_local_site (e_overlay env) = sc_local_site (e_scope env) /\
    (forall x, expected = Some x -> in_scope x (e_scope env)) /\
    serves (e_overlay env) s.
Proof.
  unfold from_envelope. destruct (de_envelope tree) as [env|] eqn:He; [|done].
  destruct (negb _); [done|]. destruct (validate_envelope_metadata env); [|done].
  destruct (validate_revision_shape _); [|done]. destruct (validate_revision_shape_digest _); [|done].
  case_bool_decide as Hrev; cbn; [|done]. destruct (get (to_value tree) "overlay") as [ov|] eqn:Hov; [|done].
  unfold compute_semantic_digest. destruct (canonicalize _) as [can|] eqn:Hcan; [|done].
  case_bool_decide as Hd; cbn; [|done]. destruct (d_network (e_overlay env)) as [net|] eqn:Hnet; [|done].
  case_bool_decide as Hn; cbn; [|done]. case_bool_decide as Hsite; cbn; [|done]. case_bool_decide; cbn; [|done].
  destruct (match expected with Some x => _ | None => _ end) as [[]|] eqn:Hx; [|done].
  intros (Hs & P1 & P2 & P3)%snapshot_serves. split_and!; [done..|]. exists env, ov, can.
  split_and!; try congruence; try done. intros x ->. by apply scope_ok.
Qed.

Lemma overlay_verified content expected s :
  from_overlay_with_scope content expected = Ok s -> verified expected content s.
Proof.
  unfold from_overlay_with_scope, verified. destruct (read_json content) as [tree|]; [|done].
  destruct (has_envelope_signal _).
  - intros (-> & -> & ?)%envelope_verified. eauto.
  - case_bool_decide as Hx; [done|]. unfold from_legacy. destruct (de_overlay tree) as [doc|] eqn:Hdoc; [|done].
    intros (? & -> & -> & ->)%snapshot_serves. split; [done|]. exists tree. split; [done|]. split_and!; [|done|by exists doc].
    destruct expected; [|done]. by destruct Hx.
Qed.

(** Every accepted overlay is fully validated: it serves exactly the entries
    of the document, with unique identifiers, an exact group index and weights
    where the policy needs them; an expected scope admits only envelopes of that
    scope, and the revision of an envelope is the digest of the overlay served. *)
Theorem accepted_overlay_verified content expected s :
  from_overlay_with_scope content expected = Ok s -> verified expected content s.
Proof. apply overlay_verified. Qed.
End Overlay.
