(* ===== verification/RouteFilter.v ===== *)
(** The intelligent route filter at the edge ([filters/src/routing/intelligent_route.rs])
    and the provider-side filter that consumes its hop headers
    ([filters/src/routing/provider_route.rs]), with the metadata contract of
    [metadata.rs].

    [Ctx] holds the fields of the request context the filters use; its
    [set_metadata] belongs to the praxis-filter crate and may refuse an entry
    over its limits ([MetadataApi]).  Request headers are name and value pairs,
    a value being [None] when it is not text.  The clock, the random numbers and
    the generated hop identifier of a request are arguments; requests run one
    after the other. *)

From S2P Require Import Prelude Utf8 MetaCodec RustStr Json Serde Routing RouteOverlay.
From Stdlib Require Import Strings.Ascii Strings.Byte.

Local Open Scope N_scope.
Local Open Scope rust_scope.

(** [serde_json::to_vec]. *)
Class JsonWriter := { write_json : Json -> option bytes }.

Inductive FilterAction := Continue | Reject (status : N).

Record Ctx := mkCtx {
  ctx_cluster : option string;
  filter_metadata : Metadata;
  uri_path : string;
  rewritten_path : option string;
  request_headers : list (string * option string);
  headers_to_set : list (string * string);
  headers_to_remove : list string
}.

Definition with_cluster (x : Ctx) (c : option string) : Ctx :=
  mkCtx c (filter_metadata x) (uri_path x) (rewritten_path x) (request_headers x) (headers_to_set x) (headers_to_remove x).
Definition with_metadata (x : Ctx) (m : Metadata) : Ctx :=
  mkCtx (ctx_cluster x) m (uri_path x) (rewritten_path x) (request_headers x) (headers_to_set x) (headers_to_remove x).
Definition push_set (x : Ctx) (h v : string) : Ctx :=
  mkCtx (ctx_cluster x) (filter_metadata x) (uri_path x) (rewritten_path x) (request_headers x)
    (headers_to_set x ++ [(h, v)]) (headers_to_remove x).
Definition push_remove (x : Ctx) (hs : list string) : Ctx :=
  mkCtx (ctx_cluster x) (filter_metadata x) (uri_path x) (rewritten_path x) (request_headers x)
    (headers_to_set x) (headers_to_remove x ++ hs).

Definition get_metadata (x : Ctx) (k : string) : option string := filter_metadata x !! k.

(** [headers.get(name)] and [to_str]: outer [None] when absent. *)
Definition header (x : Ctx) (h : string) : option (option string) := assoc h (request_headers x).

(** * Names *)

Definition SELECTED_CANDIDATE_HEADER : string := "x-ai-routing-candidate".
Definition PROVIDER_HOP_REQUEST_ID_HEADER : string := "x-ai-routing-request-id".
Definition OVERLAY_REVISION_HEADER : string := "x-ai-routing-revision".
Definition PROVIDER_HEADER : string := "x-praxis-ai-provider".
Definition PROVIDER_ATTRIBUTION_HEADER : string := "x-ai-provider-attribution".
Definition PROVIDER_REQUEST_ID_HEADER : string := "x-ai-provider-request-id".
Definition PROVIDER_OVERLAY_REVISION_HEADER : string := "x-ai-provider-routing-revision".
Definition PROVIDER_INFERENCE_RESPONSE_HEADER : string := "x-ai-inference-provider".

Definition MAX_HEADER_VALUE_LEN : N := 256.
Definition MAX_BINDINGS : N := 10000.

(** * Session affinity *)

Record Binding := mkBinding { expires : N; b_stable_id : string }.

Record AffinityConfig := mkAffinity { aff_cookie : option string; aff_header : option string; aff_ttl : N }.

Inductive AffinityOutcome := Inactive | NoKey | New | Failover | Reused (c : RouteCandidate).

(** [str::strip_prefix]. *)
Fixpoint strip_prefix (p s : string) : option string :=
  match p, s with
  | EmptyString, _ => Some s
  | String a p, String b s => if bool_decide (a = b) then strip_prefix p s else None
  | _, _ => None
  end.

Definition short_value (s : string) : bool := negb (bool_decide (s = ""%string)) && (str_len s <=? MAX_HEADER_VALUE_LEN).

(** [extract_cookie_value]. *)
Definition extract_cookie_value (x : Ctx) (n : string) : option string :=
  match header x "cookie" with
  | Some (Some cookies) =>
      head (omap (fun part =>
        match strip_prefix (n +:+ "=") (trim part) with
        | Some value => if short_value value then Some value else None
        | None => None
        end) (split_on ";" cookies))
  | _ => None
  end.

(** [extract_session_key]. *)
Definition extract_session_key (a : AffinityConfig) (x : Ctx) : option string :=
  let from_header :=
    h ← aff_header a;
    match header x h with
    | Some (Some v) => let s := trim v in if short_value s then Some s else None
    | _ => None
    end in
  match from_header with
  | Some s => Some s
  | None => n ← aff_cookie a; extract_cookie_value x n
  end.

(** The loop of [lookup_binding]: the first candidate with the bound identity. *)
Definition bound_candidate (cs : list RouteCandidate) (k : CapabilityKind) (n id : string) : option RouteCandidate :=
  List.find (fun c => bool_decide (kind c = k) && bool_decide (name c = n) && bool_decide (stable_id c = id)) cs.

(** [lookup_binding]: also the bindings, an expired one being removed. *)
Definition lookup_binding (bs : gmap string Binding) (key : string) (now : N) (cs : list RouteCandidate)
    (k : CapabilityKind) (n : string) : AffinityOutcome * gmap string Binding :=
  match bs !! key with
  | None => (New, bs)
  | Some b =>
      if expires b <? now then (New, delete key bs)
      else
        match bound_candidate cs k n (b_stable_id b) with
        | Some c => (if bool_decide (admission_state c = Excluded) then Failover else Reused c, bs)
        | None => (Failover, bs)
        end
  end.

(** [resolve_affinity]. *)
Definition resolve_affinity (a : option AffinityConfig) (bs : gmap string Binding) (key : option string) (now : N)
    (cs : list RouteCandidate) (k : CapabilityKind) (n : string) : AffinityOutcome * gmap string Binding :=
  match a, key with
  | None, _ => (Inactive, bs)
  | Some _, None => (NoKey, bs)
  | Some _, Some key => lookup_binding bs key now cs k n
  end.

(** [evict_expired]. *)
Definition evict_expired (bs : gmap string Binding) (now : N) : gmap string Binding :=
  filter (fun kb => now < expires kb.2) bs.

(** [store_binding], as one step: the table is concurrent and the code checks its
    size before it inserts, so racing requests can overshoot the bound. *)
Definition store_binding (bs : gmap string Binding) (key : string) (id : string) (now ttl : N) : gmap string Binding :=
  let bs := if MAX_BINDINGS <=? N.of_nat (size bs) then evict_expired bs now else bs in
  if MAX_BINDINGS <=? N.of_nat (size bs) then bs else <[key := mkBinding (now + ttl) id]> bs.

(** * The filter *)

Record IntelligentRouteFilter := mkFilter {
  provider_hop_clusters : list string;
  model_header : string;
  body_authoritative : bool;
  skip_paths : list string;
  management_cluster : option string;
  session_affinity : option AffinityConfig
}.

Record FilterState := mkState { bindings : gmap string Binding; snapshot : RouteSnapshot }.

(** What one request brings besides its context. *)
Record Env := mkEnv { now : N; rng : N -> N; hop_id : string }.

(** [path_is_management]. *)
Definition path_is_management (path : string) (skip : list string) : bool :=
  existsb (fun prefix =>
    match strip_prefix prefix path with
    | Some rest => bool_decide (rest = ""%string) || starts_with rest "/"
    | None => false
    end) skip.

Inductive Lookup := Route (k : CapabilityKind) (n : string) | Skip | Invalid.

Definition name_lookup (k : CapabilityKind) (n : string) : Lookup :=
  if is_blank n || (MAX_HEADER_VALUE_LEN <? str_len n) then Invalid else Route k n.

(** [extract_mcp_lookup]. *)
Definition extract_mcp_lookup (x : Ctx) (method : string) : Lookup :=
  if negb (bool_decide (method = "tools/call"%string)) then Skip
  else match get_metadata x "mcp.name" with None => Invalid | Some n => name_lookup McpTool n end.

(** [extract_model_lookup]. *)
Definition extract_model_lookup (x : Ctx) (h : string) : Lookup :=
  match header x h with
  | None => Skip
  | Some None => Invalid
  | Some (Some model) => name_lookup InferenceModel model
  end.

(** [extract_lookup]. *)
Definition extract_lookup (x : Ctx) (h : string) : Lookup :=
  match get_metadata x "mcp.method" with
  | Some method => extract_mcp_lookup x method
  | None => extract_model_lookup x h
  end.

(** * Configuration *)

Definition MAX_SKIP_PATHS : N := 64.
Definition MAX_SKIP_PATH_LEN : N := 256.
Definition MAX_TTL_SECS : N := 86400.

(** [path.strip_suffix('/').unwrap_or(path)]. *)
Fixpoint strip_slash (s : string) : string :=
  match s with
  | EmptyString => ""
  | String c EmptyString => if bool_decide (c = "/"%char) then "" else s
  | String c s => String c (strip_slash s)
  end.

Definition bad_path_char (i : utf8_item) : bool :=
  is_whitespace i || is_control i || bool_decide (item_bytes i = [Byte.x3f]) || bool_decide (item_bytes i = [Byte.x23]).

(** [validate_skip_paths]; the vector doubles as the set of seen prefixes. *)
Fixpoint collect_skip_paths (raw out : list string) : result RouteError (list string) :=
  match raw with
  | [] => Ok out
  | path :: raw =>
      if bool_decide (path = ""%string) || (MAX_SKIP_PATH_LEN <? str_len path) then Err (BadConfig "skip_paths")
      else if negb (starts_with path "/") then Err (BadConfig "skip_paths")
      else if existsb bad_path_char (utf8_items (string_bytes path)) then Err (BadConfig "skip_paths")
      else
        let normalized := strip_slash path in
        collect_skip_paths raw (if bool_decide (normalized ∈ out) then out else out ++ [normalized])
  end.

Definition validate_skip_paths (raw : list string) : result RouteError (list string) :=
  if MAX_SKIP_PATHS <? nlength raw then Err (BadConfig "skip_paths") else collect_skip_paths raw [].

(** [validate_management_cluster]. *)
Definition validate_management_cluster (c : option string) (skip : list string) : result RouteError (option string) :=
  match c with
  | None => Ok None
  | Some c =>
      let? _ := validate_name c in
      if bool_decide (skip = []) then Err (BadConfig "management_cluster") else Ok (Some c)
  end.

(** [validate_provider_hop_clusters]. *)
Fixpoint validate_provider_hop_clusters (clusters validated : list string) : result RouteError (list string) :=
  match clusters with
  | [] => Ok validated
  | c :: clusters =>
      let? _ := validate_name c in
      if bool_decide (c ∈ validated) then Err (BadConfig "provider_hop_clusters")
      else validate_provider_hop_clusters clusters (validated ++ [c])
  end.

Record SessionAffinityConfig := mkSessionConfig {
  sa_cookie : option string; sa_enabled : bool; sa_header : option string; sa_ttl_secs : N
}.

Definition not_blank (s : option string) : option string :=
  match s with Some s => if is_blank s then None else Some s | None => None end.

(** [validate_session_affinity_config]. *)
Definition validate_session_affinity_config (c : SessionAffinityConfig) : result RouteError unit :=
  if bool_decide (not_blank (sa_header c) = None) && bool_decide (not_blank (sa_cookie c) = None)
  then Err (BadConfig "session_affinity")
  else if (sa_ttl_secs c =? 0) || (MAX_TTL_SECS <? sa_ttl_secs c) then Err (BadConfig "session_affinity.ttl_secs")
  else Ok tt.

(** [build_session_affinity]; durations are nanoseconds. *)
Definition build_session_affinity `{HeaderSyntax} (c : option SessionAffinityConfig) : result RouteError (option AffinityConfig) :=
  match c with
  | None => Ok None
  | Some c =>
      if negb (sa_enabled c) then Ok None
      else
        let? _ := validate_session_affinity_config c in
        let? h :=
          match not_blank (sa_header c) with
          | None => Ok None
          | Some h => match parse_header_name h with Some h => Ok (Some h) | None => Err (BadConfig "session_affinity.header") end
          end in
        Ok (Some (mkAffinity (not_blank (sa_cookie c)) h (sa_ttl_secs c * 1000000000)))
  end.

(** [build_static_snapshot]. *)
Definition build_static_snapshot `{HeaderSyntax, Sha256} (raw : list CandidateConfig) (local : option string)
    : result RouteError RouteSnapshot :=
  match local with
  | None => Err (BadConfig "local_site")
  | Some local =>
      let? _ := validate_name local in
      if existsb (fun c => bool_decide (is_Some (cc_traffic_weight c))) raw then Err (BadConfig "traffic_weight")
      else let? cs := validate_candidates raw in Ok (from_static cs local)
  end.

Section Filter.
Context `{HeaderSyntax, OverlayDeps, MetadataApi, JsonWriter}.
Context (f : IntelligentRouteFilter).

Definition set_meta (x : Ctx) (k v : string) : Ctx := with_metadata x (set_metadata (filter_metadata x) k v).
Definition set_meta_opt (x : Ctx) (k : string) (v : option string) : Ctx :=
  match v with Some v => set_meta x k v | None => x end.

(** [extract_body_model_lookup]. *)
Definition extract_body_model_lookup (body : option bytes) : Lookup :=
  match body ≫= read_json with
  | None => Skip
  | Some tree =>
      match get (to_value tree) "model" ≫= as_str with
      | None => Skip
      | Some model => name_lookup InferenceModel model
      end
  end.

(** [try_management_skip]. *)
Definition try_management_skip (x : Ctx) : option Ctx :=
  let path := default (uri_path x) (rewritten_path x) in
  if negb (path_is_management path (skip_paths f)) then None
  else
    match ctx_cluster x with
    | Some _ => Some x
    | None =>
        match management_cluster f with
        | Some c => Some (with_cluster x (Some c))
        | None => Some (set_meta x "intelligent_route.management_skip" "true")
        end
    end.

(** [clear_credential_metadata] and [set_credential_metadata]. *)
Definition credential_keys : list string :=
  ["intelligent_route.credential.strategy"; "intelligent_route.credential.name";
   "intelligent_route.credential.namespace"; "intelligent_route.credential.key"]%string.

Definition clear_credential_metadata (x : Ctx) : Ctx :=
  with_metadata x (foldl (fun m k => delete k m) (filter_metadata x) credential_keys).

Definition set_credential_metadata (x : Ctx) (c : option CandidateCredential) : Ctx :=
  let x := clear_credential_metadata x in
  match c with
  | None => x
  | Some c =>
      let x := set_meta x "intelligent_route.credential.strategy" (cred_strategy c) in
      let x := set_meta x "intelligent_route.credential.name" (cr_name (cred_ref c)) in
      let x := set_meta x "intelligent_route.credential.namespace" (cr_namespace (cred_ref c)) in
      set_meta x "intelligent_route.credential.key" (cr_key (cred_ref c))
  end.

(** [slice::join(",")]. *)
Fixpoint join (sep : string) (l : list string) : string :=
  match l with
  | [] => ""
  | [s] => s
  | s :: l => s +:+ sep +:+ join sep l
  end.

(** [record_route_decision]. *)
Definition record_route_decision (x : Ctx) (local : string) (c : RouteCandidate) : Ctx :=
  let x := set_meta x "intelligent_route.admission_state" (admission_as_str (admission_state c)) in
  let x := set_meta x "intelligent_route.cluster" (cluster c) in
  let x := set_meta x "intelligent_route.kind" (kind_as_str (kind c)) in
  let x := set_meta x "intelligent_route.local_site" local in
  let x := set_meta x "intelligent_route.name" (name c) in
  let x := set_meta x "intelligent_route.site" (site c) in
  let x := set_meta x "intelligent_route.stable_id" (stable_id c) in
  let x :=
    match target_model c with
    | Some target =>
        let x := set_meta x "intelligent_route.target_model" target in
        set_meta_opt x "intelligent_route.target_paths" (join "," <$> paths c)
    | None => x
    end in
  let x :=
    match kind c, provider c with
    | InferenceModel, Some p => if header_value_ok p then push_set x PROVIDER_HEADER p else x
    | _, _ => x
    end in
  let x := set_meta_opt x "intelligent_route.rank" (usize_to_string <$> rank c) in
  let x := set_meta_opt x "intelligent_route.selection_tier" (selection_tier c) in
  set_credential_metadata x (credential c).

(** [write_provider_context]. *)
Definition write_provider_context (x : Ctx) (c : RouteCandidate) (revision : option string) (hop_id : string)
    : Ctx * result RouteError unit :=
  if negb (bool_decide (cluster c ∈ provider_hop_clusters f)) then (x, Ok tt)
  else if is_blank (stable_id c) || (MAX_HEADER_VALUE_LEN <? str_len (stable_id c)) then (x, Err BadHopCandidateId)
  else if negb (header_value_ok (stable_id c)) then (x, Err BadHopCandidateId)
  else if negb (header_value_ok hop_id) then (x, Err BadHopRequestId)
  else
    let x := push_set x SELECTED_CANDIDATE_HEADER (stable_id c) in
    let x := push_set x PROVIDER_HOP_REQUEST_ID_HEADER hop_id in
    match revision with
    | Some rev =>
        if negb (header_value_ok rev) then (x, Err BadHopRevision)
        else (set_meta (push_set x OVERLAY_REVISION_HEADER rev) "intelligent_route.provider_hop_request_id" hop_id, Ok tt)
    | None => (set_meta x "intelligent_route.provider_hop_request_id" hop_id, Ok tt)
    end.

Definition policy_as_str (p : PickerPolicy) : string :=
  match p with
  | Deterministic => "deterministic"
  | RoundRobin => "round_robin"
  | Random => "random"
  | WeightedRandom => "weighted_random"
  end.

(** [record_selection_metadata]. *)
Definition record_selection_metadata (x : Ctx) (group : option N) (mode : PickerPolicy) : Ctx :=
  match group with
  | Some g =>
      let x := set_meta x "intelligent_route.selection_group" (usize_to_string g) in
      set_meta x "intelligent_route.selection_mode" (policy_as_str mode)
  | None => x
  end.

(** [apply_route]. *)
Definition apply_route (x : Ctx) (local : string) (c : RouteCandidate) (revision : option string)
    (group : option N) (mode : PickerPolicy) (hop_id : string) : Ctx * result RouteError unit :=
  let x := with_cluster x (Some (cluster c)) in
  let x := record_route_decision x local c in
  let '(x, r) := write_provider_context x c revision hop_id in
  match r with
  | Ok _ => (record_selection_metadata x group mode, Ok tt)
  | Err e => (x, Err e)
  end.

Definition session_metadata (x : Ctx) (bound reused failover : bool) : Ctx :=
  let x := set_meta x "intelligent_route.session.bound" (bool_str bound) in
  let x := set_meta x "intelligent_route.session.reused" (bool_str reused) in
  set_meta x "intelligent_route.session.failover" (bool_str failover).

(** [apply_reused]. *)
Definition apply_reused (x : Ctx) (local : string) (c : RouteCandidate) (revision : option string)
    (mode : PickerPolicy) (hop_id : string) : Ctx * result RouteError FilterAction :=
  let '(x, r) := apply_route x local c revision (selection_group c) mode hop_id in
  match r with
  | Ok _ => (session_metadata x true true false, Ok Continue)
  | Err e => (x, Err e)
  end.

(** [record_session]. *)
Definition record_session (a : AffinityConfig) (bs : gmap string Binding) (x : Ctx) (id : string)
    (key : option string) (failover : bool) (now : N) : gmap string Binding * Ctx :=
  let bs := match key with Some key => store_binding bs key id now (aff_ttl a) | None => bs end in
  (bs, session_metadata x (bool_decide (is_Some key)) false failover).

(** [select_and_route]. *)
Definition select_and_route (e : Env) (x : Ctx) (s : FilterState) (k : CapabilityKind) (n : string)
    : Ctx * FilterState * result RouteError FilterAction :=
  let snap := snapshot s in
  let key := session_affinity f ≫= fun a => extract_session_key a x in
  let '(outcome, bs) := resolve_affinity (session_affinity f) (bindings s) key (now e) (candidates snap) k n in
  match outcome with
  | Reused c =>
      let '(x, r) := apply_reused x (local_site snap) c (semantic_revision snap) (selection_mode snap) (hop_id e) in
      (x, mkState bs snap, r)
  | _ =>
      let failover := match outcome with Failover => true | _ => false end in
      let '(picked, idx) := select_candidate (rng e) (candidates snap) (group_index snap) k n (selection_mode snap) in
      let snap := mkSnapshot (candidates snap) idx (selection_mode snap) (contract_format snap) (content_hash snap)
                    (generated_at snap) (local_site snap) (schema_version snap) (semantic_revision snap) in
      match picked with
      | None => (x, mkState bs snap, Ok (Reject 404))
      | Some (c, group) =>
          let '(x, r) := apply_route x (local_site snap) c (semantic_revision snap) group (selection_mode snap) (hop_id e) in
          match r with
          | Err err => (x, mkState bs snap, Err err)
          | Ok _ =>
              match session_affinity f with
              | Some a =>
                  let '(bs, x) := record_session a bs x (stable_id c) key failover (now e) in
                  (x, mkState bs snap, Ok Continue)
              | None => (x, mkState bs snap, Ok Continue)
              end
          end
      end
  end.

(** [HttpFilter::on_request]. *)
Definition on_request (e : Env) (x : Ctx) (s : FilterState) : Ctx * FilterState * result RouteError FilterAction :=
  let x := push_remove x [SELECTED_CANDIDATE_HEADER; PROVIDER_HOP_REQUEST_ID_HEADER; OVERLAY_REVISION_HEADER; PROVIDER_HEADER] in
  match try_management_skip x with
  | Some x => (x, s, Ok Continue)
  | None =>
      match ctx_cluster x with
      | Some _ => (x, s, Ok Continue)
      | None =>
          if body_authoritative f && bool_decide (get_metadata x "mcp.method" = None) then (x, s, Ok Continue)
          else
            match extract_lookup x (model_header f) with
            | Route k n => select_and_route e x s k n
            | Skip => (x, s, Ok Continue)
            | Invalid => (x, s, Ok (Reject 400))
            end
      end
  end.

(** [rewrite_selected_model]: the context and the body. *)
Definition rewrite_selected_model (x : Ctx) (body : option bytes) : Ctx * option bytes * result RouteError unit :=
  match body, get_metadata x "intelligent_route.target_model" with
  | Some raw, Some target =>
      let applies :=
        match get_metadata x "intelligent_route.target_paths" with
        | Some ps => bool_decide (uri_path x ∈ split_on "," ps)
        | None => true
        end in
      if negb applies then (x, body, Ok tt)
      else
        match to_value <$> read_json raw with
        | Some (JObject l) =>
            match assoc "model" l ≫= as_str with
            | None => (x, body, Ok tt)
            | Some client_model =>
                let x := set_meta x "model_to_provider.client_model" client_model in
                if negb (bool_decide (client_model = target)) then
                  match write_json (JObject (assoc_insert "model" (JString target) l)) with
                  | Some out => (x, Some out, Ok tt)
                  | None => (x, body, Err BodySerialization)
                  end
                else (x, body, Ok tt)
            end
        | _ => (x, body, Ok tt)
        end
  | _, _ => (x, body, Ok tt)
  end.

(** [HttpFilter::on_request_body]. *)
Definition on_request_body (e : Env) (x : Ctx) (s : FilterState) (body : option bytes) (eos : bool)
    : Ctx * FilterState * option bytes * result RouteError FilterAction :=
  if negb eos then (x, s, body, Ok Continue)
  else
    match try_management_skip x with
    | Some x => (x, s, body, Ok Continue)
    | None =>
        if bool_decide (get_metadata x "intelligent_route.management_skip" = Some "true"%string)
        then (x, s, body, Ok Continue)
        else
          let finish (x : Ctx) (s : FilterState) (action : FilterAction) (k : option CapabilityKind) :=
            let inference :=
              bool_decide (k = Some InferenceModel)
              || bool_decide (get_metadata x "intelligent_route.kind" = Some (kind_as_str InferenceModel)) in
            match action with
            | Continue =>
                if inference then
                  let '(x, body, r) := rewrite_selected_model x body in
                  (x, s, body, match r with Ok _ => Ok Continue | Err err => Err err end)
                else (x, s, body, Ok Continue)
            | Reject st => (x, s, body, Ok (Reject st))
            end in
          match ctx_cluster x with
          | Some _ => finish x s Continue None
          | None =>
              let lookup :=
                if body_authoritative f && bool_decide (get_metadata x "mcp.method" = None)
                then extract_body_model_lookup body
                else match extract_lookup x (model_header f) with
                     | Skip => extract_body_model_lookup body
                     | other => other
                     end in
              match lookup with
              | Route k n =>
                  match select_and_route e x s k n with
                  | (x, s, Ok action) => finish x s action (Some k)
                  | (x, s, Err err) => (x, s, body, Err err)
                  end
              | _ => (x, s, body, Ok Continue)
              end
          end
    end.
End Filter.
