(* ===== verification/ProviderRoute.v ===== *)
(** The provider side of an edge-to-provider hop
    ([filters/src/routing/provider_route.rs]): the configured routes and the
    request handler that validates the edge's selection against them. *)

From S2P Require Import Prelude Utf8 MetaCodec RustStr Json Serde Routing RouteOverlay RouteFilter.
From Stdlib Require Import Strings.Ascii.

Local Open Scope N_scope.
Local Open Scope rust_scope.

Definition MAX_PROVIDER_ROUTES : N := 1024.
Definition MAX_PATHS_PER_ROUTE : N := 64.
Definition MAX_VALUE_LEN : N := 256.

Record ProviderRouteConfig := mkRouteConfig {
  pc_candidate_id : string;
  pc_cluster : string;
  pc_credential : option CandidateCredential;
  pc_model : string;
  pc_paths : list string
}.

Record ProviderRoute := mkRoute {
  pr_cluster : string;
  pr_credential : option CandidateCredential;
  pr_model : string;
  pr_paths : list string
}.

Record ProviderRouteFilter := mkProviderFilter {
  emit_demo_attribution : bool;
  p_model_header : string;
  provider_id : string;
  routes : gmap string ProviderRoute
}.

(** * Configuration *)

(** [validate_value]. *)
Definition validate_value (v : string) : result RouteError unit :=
  if is_blank v || (MAX_VALUE_LEN <? str_len v) then Err (BadConfig "value") else Ok tt.

Fixpoint validate_route_paths (seen paths : list string) : result RouteError unit :=
  match paths with
  | [] => Ok tt
  | p :: paths =>
      if negb (starts_with p "/") || (MAX_VALUE_LEN <? str_len p) then Err (BadConfig "paths")
      else if bool_decide (p ∈ seen) then Err (BadConfig "paths")
      else validate_route_paths (p :: seen) paths
  end.

(** [validate_route]. *)
Definition validate_route (r : ProviderRouteConfig) : result RouteError unit :=
  let? _ := validate_value (pc_candidate_id r) in
  let? _ := validate_value (pc_cluster r) in
  let? _ := validate_value (pc_model r) in
  if bool_decide (pc_paths r = []) || (MAX_PATHS_PER_ROUTE <? nlength (pc_paths r)) then Err (BadConfig "paths")
  else
    let? _ := validate_route_paths [] (pc_paths r) in
    match pc_credential r with
    | None => Ok tt
    | Some c =>
        let? _ := validate_value (cr_name (cred_ref c)) in
        let? _ := validate_value (cr_namespace (cred_ref c)) in
        let? _ := validate_value (cr_key (cred_ref c)) in
        if negb (is_supported_strategy (cred_strategy c)) then Err (BadConfig "credential") else Ok tt
    end.

Section Provider.
Context `{HeaderSyntax, MetadataApi}.

(** [build_routes]. *)
Fixpoint build_routes (configs : list ProviderRouteConfig) (attribution : bool) (acc : gmap string ProviderRoute)
    : result RouteError (gmap string ProviderRoute) :=
  match configs with
  | [] => Ok acc
  | r :: configs =>
      let? _ := validate_route r in
      if attribution && negb (header_value_ok (pc_cluster r)) then Err (BadConfig "cluster")
      else
        match acc !! pc_candidate_id r with
        | Some _ => Err (BadConfig "candidate_id")
        | None =>
            build_routes configs attribution
              (<[pc_candidate_id r := mkRoute (pc_cluster r) (pc_credential r) (pc_model r) (pc_paths r)]> acc)
        end
  end.

(** The checks of [from_config]. *)
Definition provider_from_config (id header : string) (configs : list ProviderRouteConfig) (attribution : bool)
    : result RouteError ProviderRouteFilter :=
  let? _ := validate_value id in
  if negb (header_value_ok id) then Err (BadConfig "provider_id")
  else if bool_decide (configs = []) || (MAX_PROVIDER_ROUTES <? nlength configs) then Err (BadConfig "routes")
  else
    let? h := validate_model_header header in
    let? rs := build_routes configs attribution ∅ in
    Ok (mkProviderFilter attribution h id rs).

(** * Requests *)

(** [request_header_by_name]. *)
Definition request_header (x : Ctx) (h : string) : option string :=
  match RouteFilter.header x h with
  | Some (Some v) => if negb (is_blank v) && (str_len v <=? MAX_VALUE_LEN) then Some v else None
  | _ => None
  end.

(** [peer_overlay_revision]: [None] is the error. *)
Definition peer_overlay_revision (x : Ctx) : option (option string) :=
  match RouteFilter.header x OVERLAY_REVISION_HEADER with
  | None => Some None
  | Some None => None
  | Some (Some v) =>
      if (str_len v =? 64) && forallb is_lower_hex (String.list_ascii_of_string v) then Some (Some v) else None
  end.

(** [strip_edge_headers]. *)
Definition edge_headers : list string :=
  [SELECTED_CANDIDATE_HEADER; PROVIDER_HOP_REQUEST_ID_HEADER; OVERLAY_REVISION_HEADER; PROVIDER_REQUEST_ID_HEADER;
   PROVIDER_OVERLAY_REVISION_HEADER; PROVIDER_ATTRIBUTION_HEADER; PROVIDER_INFERENCE_RESPONSE_HEADER;
   "authorization"%string; "x-api-key"%string].

Definition strip_edge_headers (x : Ctx) : Ctx := push_remove x edge_headers.

(** [set_provider_headers]. *)
Definition set_provider_headers (x : Ctx) (id request_id : string) (revision : option string)
    : Ctx * result RouteError unit :=
  if negb (header_value_ok request_id) then (x, Err BadHopRequestId)
  else
    let x := push_set (push_set x PROVIDER_REQUEST_ID_HEADER request_id) PROVIDER_ATTRIBUTION_HEADER id in
    match revision with
    | None => (x, Ok tt)
    | Some rev =>
        if negb (header_value_ok rev) then (x, Err BadHopRevision)
        else (push_set x PROVIDER_OVERLAY_REVISION_HEADER rev, Ok tt)
    end.

(** [HttpFilter::on_request]. *)
Definition provider_on_request (p : ProviderRouteFilter) (x : Ctx) : Ctx * result RouteError FilterAction :=
  let x := strip_edge_headers x in
  match request_header x SELECTED_CANDIDATE_HEADER with
  | None => (x, Ok (Reject 403))
  | Some candidate_id =>
      match request_header x PROVIDER_HOP_REQUEST_ID_HEADER with
      | None => (x, Ok (Reject 403))
      | Some request_id =>
          match peer_overlay_revision x with
          | None => (x, Ok (Reject 403))
          | Some revision =>
              match request_header x (p_model_header p) with
              | None => (x, Ok (Reject 400))
              | Some model =>
                  match routes p !! candidate_id with
                  | None => (x, Ok (Reject 403))
                  | Some route =>
                      if negb (bool_decide (pr_model route = model))
                         || negb (bool_decide (uri_path x ∈ pr_paths route))
                      then (x, Ok (Reject 404))
                      else
                        let x := with_cluster x (Some (pr_cluster route)) in
                        let x := set_meta x "provider_route.candidate_id" candidate_id in
                        let x := set_meta x "provider_route.cluster" (pr_cluster route) in
                        let x := set_meta x "provider_route.model" model in
                        let x := set_meta x "provider_route.provider_id" (provider_id p) in
                        let x := set_meta x "provider_route.request_id" request_id in
                        let x := set_meta_opt x "provider_route.overlay_revision" revision in
                        let x := set_credential_metadata x (pr_credential route) in
                        match set_provider_headers x (provider_id p) request_id revision with
                        | (x, Ok _) => (x, Ok Continue)
                        | (x, Err e) => (x, Err e)
                        end
                  end
              end
          end
      end
  end.

(** [HttpFilter::on_response]: the headers it inserts. *)
Definition provider_on_response (p : ProviderRouteFilter) (x : Ctx) (has_response : bool)
    : result RouteError (list (string * string)) :=
  if negb (emit_demo_attribution p) then Ok []
  else
    let? inference :=
      match get_metadata x "provider_route.cluster" with
      | None => Ok None
      | Some c => if header_value_ok c then Ok (Some c) else Err (BadConfig "cluster")
      end in
    if negb has_response then Ok []
    else Ok (("x-ai-demo-provider-gateway"%string, provider_id p)
             :: match inference with Some c => [(PROVIDER_INFERENCE_RESPONSE_HEADER, c)] | None => [] end).
End Provider.
