(* ===== verification/RouteFilterProps.v ===== *)
(** Properties of the intelligent route filter ([RouteFilter]): what it serves
    through any sequence of requests and reloads, which candidates requests are
    sent to, session affinity, and the headers of a provider hop. *)

From S2P Require Import Prelude Utf8 MetaCodec RustStr Json Serde Routing RoutingProps RouteOverlay RouteOverlayProps.
From S2P Require Import RouteFilter ProviderRoute.

Local Open Scope N_scope.

Section Filter.
Context `{HeaderSyntax, Sha256, OverlayDeps, MetadataApi, JsonWriter}.
Context (f : IntelligentRouteFilter).

(** * Contexts *)

Lemma set_meta_opt_cluster x k v : ctx_cluster (set_meta_opt x k v) = ctx_cluster x.
Proof. by destruct v. Qed.
Lemma set_meta_opt_set x k v : headers_to_set (set_meta_opt x k v) = headers_to_set x.
Proof. by destruct v. Qed.
Lemma credential_cluster x c : ctx_cluster (set_credential_metadata x c) = ctx_cluster x.
Proof. by destruct c. Qed.
Lemma credential_set x c : headers_to_set (set_credential_metadata x c) = headers_to_set x.
Proof. by destruct c. Qed.

(** The provider marker is the only header a route decision sets. *)
Definition marker (c : RouteCandidate) : list (string * string) :=
  match kind c, provider c with
  | InferenceModel, Some p => if header_value_ok p then [(PROVIDER_HEADER, p)] else []
  | _, _ => []
  end.

Lemma decision_cluster x l c : ctx_cluster (record_route_decision x l c) = ctx_cluster x.
Proof.
  unfold record_route_decision. rewrite credential_cluster, !set_meta_opt_cluster.
  destruct (kind c), (provider c) as [p|]; try destruct (header_value_ok p); cbn;
    destruct (target_model c); cbn; by rewrite ?set_meta_opt_cluster.
Qed.

Lemma decision_set x l c : headers_to_set (record_route_decision x l c) = headers_to_set x ++ marker c.
Proof.
  unfold record_route_decision, marker. rewrite credential_set, !set_meta_opt_set.
  destruct (kind c), (provider c) as [p|]; try destruct (header_value_ok p); cbn;
    destruct (target_model c); cbn; by rewrite ?set_meta_opt_set, ?app_nil_r.
Qed.

(** The headers of a provider hop. *)
Definition hop_headers (c : RouteCandidate) (revision : option string) (hop : string) : list (string * string) :=
  [(SELECTED_CANDIDATE_HEADER, stable_id c); (PROVIDER_HOP_REQUEST_ID_HEADER, hop)] ++
  match revision with Some r => [(OVERLAY_REVISION_HEADER, r)] | None => [] end.

Definition hop_ok (c : RouteCandidate) (revision : option string) (hop : string) : Prop :=
  text_ok (stable_id c) /\ header_value_ok (stable_id c) = true /\ header_value_ok hop = true /\
  forall r, revision = Some r -> header_value_ok r = true.

Lemma provider_context_ok x c revision hop x' :
  write_provider_context f x c revision hop = (x', Ok tt) ->
  ctx_cluster x' = ctx_cluster x /\
  headers_to_set x' = headers_to_set x ++
    (if bool_decide (cluster c ∈ provider_hop_clusters f) then hop_headers c revision hop else []) /\
  (cluster c ∈ provider_hop_clusters f -> hop_ok c revision hop).
Proof.
  unfold write_provider_context. case_bool_decide as Hin; cbn; [|intros [= <-]; by rewrite app_nil_r].
  destruct (is_blank _ || _) eqn:Hb; [done|]. destruct (header_value_ok (stable_id c)) eqn:V1; [|done].
  destruct (header_value_ok hop) eqn:V2; [|done]. cbn. apply orb_false_iff in Hb as [Hb1 Hb2%N.ltb_ge].
  destruct revision as [r|].
  - destruct (header_value_ok r) eqn:V3; [|done]. cbn. intros [= <-]. cbn. rewrite <- !app_assoc. cbn.
    split_and!; [done..|]. intros _. split_and!; try done. by intros ? [= <-].
  - intros [= <-]. cbn. rewrite <- !app_assoc. cbn. split_and!; [done..|]. intros _. by split_and!.
Qed.

Lemma apply_route_ok x l c revision g mode hop x' :
  apply_route f x l c revision g mode hop = (x', Ok tt) ->
  ctx_cluster x' = Some (cluster c) /\
  headers_to_set x' = headers_to_set x ++ marker c ++
    (if bool_decide (cluster c ∈ provider_hop_clusters f) then hop_headers c revision hop else []) /\
  (cluster c ∈ provider_hop_clusters f -> hop_ok c revision hop).
Proof.
  unfold apply_route. destruct (write_provider_context _ _ _ _ _) as [y [[]|]] eqn:Hw; [|done].
  apply provider_context_ok in Hw as (Hc & Hs & Hh). rewrite decision_cluster in Hc. rewrite decision_set in Hs.
  intros [= <-]. unfold record_selection_metadata. destruct g; cbn; rewrite Hc, Hs, <- app_assoc; by split_and!.
Qed.

(** * Selection *)

(** The binding a request presents, when it is in force. *)
Definition bound_to (e : Env) (x : Ctx) (s : FilterState) (c : RouteCandidate) : Prop :=
  exists a key b, session_affinity f = Some a /\ extract_session_key a x = Some key /\
    bindings s !! key = Some b /\ now e <= expires b /\ b_stable_id b = stable_id c.

(** The candidates a request for a capability may be sent to. *)
Definition admissible (e : Env) (x : Ctx) (s : FilterState) (k : CapabilityKind) (n : string) (c : RouteCandidate) : Prop :=
  c ∈ candidates (snapshot s) /\ kind c = k /\ name c = n /\
  (admission_state c = NewAndExisting \/ admission_state c = ExistingOnly /\ bound_to e x s c).

(** Everything of a snapshot but its round-robin counters. *)
Definition same_routes (a b : RouteSnapshot) : Prop :=
  candidates a = candidates b /\ selection_mode a = selection_mode b /\ contract_format a = contract_format b /\
  content_hash a = content_hash b /\ local_site a = local_site b /\ semantic_revision a = semantic_revision b /\
  schema_version a = schema_version b /\ generated_at a = generated_at b.

Lemma bound_candidate_ok cs k n id c :
  bound_candidate cs k n id = Some c -> c ∈ cs /\ kind c = k /\ name c = n /\ stable_id c = id.
Proof.
  unfold bound_candidate. intros [Hc%list_elem_of_In Hp]%find_some.
  apply andb_true_iff in Hp as [[?%bool_decide_eq_true ?%bool_decide_eq_true]%andb_true_iff ?%bool_decide_eq_true]. done.
Qed.

Definition key_of (x : Ctx) : option string := session_affinity f ≫= fun a => extract_session_key a x.

Lemma affinity_reused e x s k n c bs :
  resolve_affinity (session_affinity f) (bindings s) (key_of x) (now e) (candidates (snapshot s)) k n = (Reused c, bs) ->
  bs = bindings s /\ admission_state c <> Excluded /\ c ∈ candidates (snapshot s) /\ kind c = k /\ name c = n /\ bound_to e x s c.
Proof.
  unfold key_of, resolve_affinity, bound_to. destruct (session_affinity f) as [a|]; [|done]. cbn.
  destruct (extract_session_key a x) as [key|] eqn:Hk; [|done]. unfold lookup_binding.
  destruct (bindings s !! key) as [b|] eqn:Hb; [|done]. destruct (N.ltb_spec (expires b) (now e)); [done|].
  destruct (bound_candidate _ _ _ _) as [d|] eqn:Hd; [|done].
  apply bound_candidate_ok in Hd as (? & ? & ? & ?). case_bool_decide; [done|]. intros [= -> <-].
  split_and!; try done. exists a, key, b. by split_and!.
Qed.

Lemma store_binding_size bs key id t ttl :
  N.of_nat (size bs) <= MAX_BINDINGS -> N.of_nat (size (store_binding bs key id t ttl)) <= MAX_BINDINGS.
Proof.
  intros Hs. unfold store_binding. set (bs' := if _ <=? _ then evict_expired bs t else bs).
  assert (N.of_nat (size bs') <= MAX_BINDINGS) as Hs'.
  { subst bs'. destruct (MAX_BINDINGS <=? _); [|done]. unfold evict_expired.
    pose proof (map_size_filter (M := gmap string) (fun kb : string * Binding => t < expires kb.2) bs). lia. }
  destruct (N.leb_spec MAX_BINDINGS (N.of_nat (size bs'))); [done|].
  rewrite map_size_insert. destruct (bs' !! key); cbn; lia.
Qed.

Lemma resolve_size a bs key t cs k n :
  (size (resolve_affinity a bs key t cs k n).2 <= size bs)%nat.
Proof.
  unfold resolve_affinity, lookup_binding. destruct a, key as [key|]; cbn; try lia.
  destruct (bs !! key) as [b|] eqn:E; cbn; [|lia]. destruct (expires b <? t); cbn.
  - rewrite map_size_delete, E. cbn. lia.
  - destruct (bound_candidate _ _ _ _); cbn; lia.
Qed.

(** Everything about one selection. *)
Definition selection_post (e : Env) (x : Ctx) (s : FilterState) (k : CapabilityKind) (n : string)
    (x' : Ctx) (s' : FilterState) (r : result RouteError FilterAction) : Prop :=
  same_routes (snapshot s) (snapshot s') /\ index_ok (candidates (snapshot s')) (group_index (snapshot s')) /\
  N.of_nat (size (bindings s')) <= MAX_BINDINGS /\
  match r with
  | Ok Continue => exists c, ctx_cluster x' = Some (cluster c) /\ admissible e x s k n c /\
      headers_to_set x' = headers_to_set x ++ marker c ++
        (if bool_decide (cluster c ∈ provider_hop_clusters f) then hop_headers c (semantic_revision (snapshot s)) (hop_id e) else []) /\
      (cluster c ∈ provider_hop_clusters f -> hop_ok c (semantic_revision (snapshot s)) (hop_id e))
  | Ok (Reject st) => st = 404 /\ x' = x /\
      forall d, d ∈ candidates (snapshot s) -> in_capability k n d = true -> admission_state d <> NewAndExisting
  | Err _ => True
  end.

(** States whose snapshot is usable and whose table is within its bound. *)
Record ready (s : FilterState) : Prop := {
  rd_index : index_ok (candidates (snapshot s)) (group_index (snapshot s));
  rd_weights : weights_ready (candidates (snapshot s)) (selection_mode (snapshot s));
  rd_size : N.of_nat (size (bindings s)) <= MAX_BINDINGS
}.

Lemma reused_post e x s k n c bs x' r :
  ready s ->
  resolve_affinity (session_affinity f) (bindings s) (key_of x) (now e) (candidates (snapshot s)) k n = (Reused c, bs) ->
  apply_reused f x (local_site (snapshot s)) c (semantic_revision (snapshot s)) (selection_mode (snapshot s)) (hop_id e) = (x', r) ->
  selection_post e x s k n x' (mkState bs (snapshot s)) r.
Proof.
  intros [Hi Hw Hs] (-> & Hex & Hc & Hk & Hn & Hb)%affinity_reused. unfold apply_reused.
  destruct (apply_route _ _ _ _ _ _ _ _) as [y [[]|]] eqn:Ha; intros [= <- <-]; split_and!; try done.
  apply apply_route_ok in Ha as (? & ? & ?). exists c. split_and!; try done. split_and!; try done.
  destruct (admission_state c); [by left|by right|done].
Qed.

Lemma select_and_route_ok e x s k n x' s' r :
  ready s -> rng_ok (rng e) -> select_and_route f e x s k n = (x', s', r) -> selection_post e x s k n x' s' r.
Proof.
  intros Hrd Hr. unfold select_and_route. fold (key_of x).
  pose proof (resolve_size (session_affinity f) (bindings s) (key_of x) (now e) (candidates (snapshot s)) k n) as Hrs.
  pose proof (fun c bs => reused_post e x s k n c bs x' r Hrd) as Hreu.
  destruct Hrd as [Hidx Hw Hsz].
  destruct (resolve_affinity _ _ _ _ _ _ _) as [outcome bs] eqn:Hres. cbn in Hrs.
  destruct (select_candidate_ok (rng e) _ _ k n _ Hidx Hr Hw) as (picked & idx & Hsel & Hidx' & Hv).
  destruct outcome as [| | | |c0].
  5:{ destruct (apply_reused _ _ _ _ _ _ _) as [y r0] eqn:Ha. intros [= <- <- <-]. by apply (Hreu c0). }
  all: clear Hreu; rewrite Hsel; destruct picked as [[c g]|]; [|intros [= <- <- <-]; split_and!; try done; cbn; lia].
  all: destruct Hv as (Hc & Hk & Hn & Ha & Hg & _).
  all: destruct (apply_route _ _ _ _ _ _ _ _) as [y [[]|]] eqn:Hap; [|intros [= <- <- <-]; split_and!; try done; cbn; lia].
  all: apply apply_route_ok in Hap as (Hcl & Hset & Hhop).
  all: destruct (session_affinity f) as [a|]; intros [= <- <- <-]; cbn; split_and!; try done; cbn; try lia.
  all: try (exists c; split_and!; try done; split_and!; auto).
  all: destruct (key_of x); [apply store_binding_size|]; lia.
Qed.

(** The handler left the state and the outgoing headers alone. *)
Ltac keep := left; cbn; split_and!; [done|congruence|done].

(** * The handlers *)

Lemma rewrite_frame x body :
  ctx_cluster (rewrite_selected_model x body).1.1 = ctx_cluster x /\
  headers_to_set (rewrite_selected_model x body).1.1 = headers_to_set x.
Proof.
  unfold rewrite_selected_model. destruct body as [raw|]; [|done]. destruct (get_metadata x _) as [t|]; [|done].
  destruct (negb _); [done|]. destruct (to_value <$> read_json raw) as [[]|]; try done.
  destruct (assoc _ _ ≫= _) as [m|]; [|done]. case_bool_decide; cbn; [done|]. by destruct (write_json _).
Qed.

(** The capability the body phase looks up. *)
Definition body_lookup (x : Ctx) (body : option bytes) : Lookup :=
  if body_authoritative f && bool_decide (get_metadata x "mcp.method" = None) then extract_body_model_lookup body
  else match extract_lookup x (model_header f) with Skip => extract_body_model_lookup body | other => other end.

Definition edge_context_headers : list string :=
  [SELECTED_CANDIDATE_HEADER; PROVIDER_HOP_REQUEST_ID_HEADER; OVERLAY_REVISION_HEADER; PROVIDER_HEADER].

(** What a handler does with a request it did not route, or routed. *)
Lemma on_request_cases e x s :
  (on_request f e x s).1.2 = s /\
    (forall cl, ctx_cluster x = None -> ctx_cluster (on_request f e x s).1.1 = Some cl ->
       path_is_management (default (uri_path x) (rewritten_path x)) (skip_paths f) = true /\ management_cluster f = Some cl) /\
    headers_to_set (on_request f e x s).1.1 = headers_to_set x \/
  exists k n, extract_lookup x (model_header f) = Route k n /\ ctx_cluster x = None /\
    on_request f e x s = select_and_route f e (push_remove x edge_context_headers) s k n.
Proof.
  unfold on_request. fold edge_context_headers. unfold try_management_skip. cbn [rewritten_path uri_path push_remove ctx_cluster].
  destruct (path_is_management _ _) eqn:Hp; cbn [negb].
  { destruct (ctx_cluster x) as [c|] eqn:Hc; [keep|]. left.
    destruct (management_cluster f) as [m|]; cbn; split_and!; try done; intros cl _; rewrite ?Hc; by intros [= ->]. }
  cbn. destruct (ctx_cluster x) as [c|] eqn:Hc; [by left; cbn; rewrite Hc|].
  destruct (_ && _); [by left; cbn; rewrite Hc|].
  change (extract_lookup (push_remove x edge_context_headers) (model_header f)) with (extract_lookup x (model_header f)).
  destruct (extract_lookup x (model_header f)) as [k n| |] eqn:Hl; [|keep..].
  right. by exists k, n.
Qed.

Lemma on_request_body_cases e x s body eos :
  (on_request_body f e x s body eos).1.1.2 = s /\
    (forall cl, ctx_cluster x = None -> ctx_cluster (on_request_body f e x s body eos).1.1.1 = Some cl ->
       path_is_management (default (uri_path x) (rewritten_path x)) (skip_paths f) = true /\ management_cluster f = Some cl) /\
    headers_to_set (on_request_body f e x s body eos).1.1.1 = headers_to_set x \/
  exists k n, body_lookup x body = Route k n /\ ctx_cluster x = None /\
    (on_request_body f e x s body eos).1.1.2 = (select_and_route f e x s k n).1.2 /\
    ctx_cluster (on_request_body f e x s body eos).1.1.1 = ctx_cluster (select_and_route f e x s k n).1.1 /\
    headers_to_set (on_request_body f e x s body eos).1.1.1 = headers_to_set (select_and_route f e x s k n).1.1 /\
    ((on_request_body f e x s body eos).2 = Ok Continue -> (select_and_route f e x s k n).2 = Ok Continue).
Proof.
  unfold on_request_body, try_management_skip. destruct eos; cbn [negb]; [|keep].
  destruct (path_is_management _ _) eqn:Hp; cbn [negb].
  { destruct (ctx_cluster x) as [c|] eqn:Hc; [keep|]. left.
    destruct (management_cluster f) as [m|]; cbn; split_and!; try done; intros cl _; rewrite ?Hc; by intros [= ->]. }
  case_bool_decide; [left; cbn; split_and!; [done|congruence|done]|].
  destruct (ctx_cluster x) as [c|] eqn:Hc.
  { left. pose proof (rewrite_frame x body) as [F1 F2].
    destruct (_ || _); [|by cbn; rewrite Hc]. destruct (rewrite_selected_model x body) as [[y b] r].
    cbn in *. rewrite F1, F2, Hc. split_and!; [done|congruence|done]. }
  fold (body_lookup x body). destruct (body_lookup x body) as [k n| |] eqn:Hl; [|keep..].
  right. exists k, n. split_and!; [done..| | | |];
    destruct (select_and_route f e x s k n) as [[y t] [[|st]|err]]; try done;
    (destruct (_ || _); [|done]); pose proof (rewrite_frame y body) as [F1 F2];
    by destruct (rewrite_selected_model y body) as [[z b] r].
Qed.

(** * Sequences of requests and reloads *)

Inductive Op :=
| OpRequest (e : Env) (x : Ctx)
| OpBody (e : Env) (x : Ctx) (body : option bytes) (eos : bool)
| OpReload (file : option bytes).

Definition exec (expected : option ExpectedOverlayScope) (s : FilterState) (o : Op) : FilterState :=
  match o with
  | OpRequest e x => (on_request f e x s).1.2
  | OpBody e x body eos => (on_request_body f e x s body eos).1.1.2
  | OpReload file => mkState (bindings s) (handle_overlay_reload file (snapshot s) expected)
  end.

Definition op_ok (o : Op) : Prop :=
  match o with OpRequest e _ | OpBody e _ _ _ => rng_ok (rng e) | OpReload _ => True end.

(** The content a serving snapshot was verified against. *)
Definition serving (expected : option ExpectedOverlayScope) (contents : list bytes) (s : FilterState) : Prop :=
  (exists content, content ∈ contents /\ verified expected content (snapshot s)) /\ N.of_nat (size (bindings s)) <= MAX_BINDINGS.

Lemma serves_same doc a b : same_routes a b -> index_ok (candidates b) (group_index b) -> serves doc a -> serves doc b.
Proof.
  intros (E1 & E2 & _ & _ & E5 & _) Hi []. constructor; rewrite <- ?E1, <- ?E2, <- ?E5; rewrite ?E1; try done; by rewrite <- ?E1.
Qed.

Lemma verified_same expected content a b :
  same_routes a b -> index_ok (candidates b) (group_index b) -> verified expected content a -> verified expected content b.
Proof.
  intros Hs Hi (Hh & tree & Ht & Hv). pose proof Hs as (_ & _ & E3 & E4 & _ & E6 & _). unfold verified.
  rewrite <- E3, <- E4, <- E6. split; [done|]. exists tree. split; [done|]. destruct (contract_format a).
  - destruct Hv as (env & ov & can & ? & ? & ? & ? & ? & ? & ? & ? & ?). exists env, ov, can.
    split_and!; try done. by eapply serves_same.
  - destruct Hv as (? & ? & doc & ? & ?). split_and!; try done. exists doc. split; [done|]. by eapply serves_same.
Qed.

Lemma serving_ready expected contents s : serving expected contents s -> ready s.
Proof.
  intros [(content & _ & _ & tree & _ & Hv) Hs]. destruct (contract_format (snapshot s)).
  - destruct Hv as (env & ov & can & _ & _ & _ & _ & _ & _ & _ & _ & []). by constructor.
  - destruct Hv as (_ & _ & doc & _ & []). by constructor.
Qed.

Lemma selection_serving expected contents e x s k n x' s' r :
  serving expected contents s -> selection_post e x s k n x' s' r -> serving expected contents s'.
Proof.
  intros [(content & Hc & Hv) _] (Hs & Hi & Hz & _). split; [|done]. exists content. split; [done|]. by eapply verified_same.
Qed.

Lemma exec_serving expected contents s o :
  op_ok o -> serving expected contents s ->
  serving expected (contents ++ match o with OpReload (Some c) => [c] | _ => [] end) (exec expected s o).
Proof.
  intros Ho Hs. pose proof (serving_ready _ _ _ Hs) as Hrd. destruct o as [e x|e x body eos|file]; cbn; rewrite ?app_nil_r.
  - destruct (on_request_cases e x s) as [(-> & _)|(k & n & _ & _ & ->)]; [done|].
    destruct (select_and_route f e _ s k n) as [[y t] r] eqn:E. apply select_and_route_ok in E; [|done..].
    by eapply selection_serving.
  - destruct (on_request_body_cases e x s body eos) as [(-> & _)|(k & n & _ & _ & -> & _)]; [done|].
    destruct (select_and_route f e x s k n) as [[y t] r] eqn:E. apply select_and_route_ok in E; [|done..].
    by eapply selection_serving.
  - assert (forall l, serving expected (contents ++ l) s) as Hkeep.
    { intros l. destruct Hs as [(c & Hc & Hv) Hz]. split; [|done]. exists c. split; [set_solver|done]. }
    assert (forall l, serving expected (contents ++ l) (mkState (bindings s) (snapshot s))) as Hkeep' by (by destruct s).
    unfold handle_overlay_reload. destruct file as [c|]; cbn; [|apply Hkeep'].
    destruct (_ <? _); [apply Hkeep'|]. case_bool_decide; [apply Hkeep'|].
    destruct (from_overlay_with_scope c expected) as [snap|] eqn:E; [|apply Hkeep'].
    destruct (is_semantically_unchanged _ _); [apply Hkeep'|].
    split; [|apply Hs]. exists c. split; [set_solver|]. by apply overlay_verified.
Qed.

(** The overlay files seen by reloads. *)
Definition reloads (ops : list Op) : list bytes :=
  omap (fun o => match o with OpReload file => file | _ => None end) ops.

Lemma run_serving expected contents s ops :
  Forall op_ok ops -> serving expected contents s ->
  serving expected (contents ++ reloads ops) (foldl (exec expected) s ops).
Proof.
  intros Hops. revert contents s. induction Hops as [|o ops Ho _ IH]; intros contents s Hs; cbn; [by rewrite app_nil_r|].
  apply (exec_serving expected contents s o Ho) in Hs. apply IH in Hs. unfold reloads in *. cbn.
  destruct o as [| |[c|]]; cbn in *; by rewrite <- ?app_assoc, ?app_nil_r in Hs.
Qed.

Lemma initial_serving expected content snap :
  from_overlay_with_scope content expected = Ok snap -> serving expected [content] (mkState ∅ snap).
Proof.
  intros Hs%overlay_verified. split; [|done]. exists content. split; [by left|done].
Qed.

(** Requests and reloads keep any state usable, however it started. *)
Lemma exec_ready expected s o : op_ok o -> ready s -> ready (exec expected s o).
Proof.
  intros Ho Hrd.
  assert (forall e x k n, rng_ok (rng e) -> ready (select_and_route f e x s k n).1.2) as Hsel.
  { intros e x k n Hr. destruct (select_and_route f e x s k n) as [[y t] r] eqn:E.
    apply select_and_route_ok in E as ((E1 & E2 & _) & Hi & Hz & _); [|done..]. cbn. constructor; [done| |done].
    rewrite <- E1, <- E2. apply Hrd. }
  destruct o as [e x|e x body eos|file]; cbn.
  - destruct (on_request_cases e x s) as [(-> & _)|(k & n & _ & _ & ->)]; [done|by apply Hsel].
  - destruct (on_request_body_cases e x s body eos) as [(-> & _)|(k & n & _ & _ & -> & _)]; [done|by apply Hsel].
  - assert (ready (mkState (bindings s) (snapshot s))) as Hkeep by (by destruct s).
    unfold handle_overlay_reload. destruct file as [c|]; cbn; [|done].
    destruct (_ <? _); [done|]. case_bool_decide; [done|].
    destruct (from_overlay_with_scope c expected) as [snap|] eqn:E; [|done].
    destruct (is_semantically_unchanged _ _); [done|]. apply overlay_verified in E.
    eapply (serving_ready expected [c]). split; [exists c; split; [by left|done]|]. apply Hrd.
Qed.

Lemma run_ready expected s ops : Forall op_ok ops -> ready s -> ready (foldl (exec expected) s ops).
Proof.
  intros Hops. revert s. induction Hops as [|o ops Ho _ IH]; intros s Hs; cbn; [done|]. apply IH. by apply exec_ready.
Qed.

(** The snapshots the filter starts with: a verified overlay file, or the
    candidates written in the configuration. *)
Definition starts (expected : option ExpectedOverlayScope) (snap : RouteSnapshot) : Prop :=
  (exists content, from_overlay_with_scope content expected = Ok snap) \/
  (exists raw local, build_static_snapshot raw local = Ok snap).

Lemma static_ungrouped raw seen cs : validate_loop raw seen = Ok cs -> Forall (fun c => selection_group c = None) cs.
Proof.
  revert seen cs. induction raw as [|c raw IH]; intros seen cs; cbn; [by intros [= <-]|].
  destruct (validate_candidate c) as [v|] eqn:Ev; cbn; [|done]. case_bool_decide; [done|].
  destruct (validate_loop raw _) as [vs|] eqn:Er; cbn; [|done]. intros [= <-]. constructor; [|by eapply IH].
  unfold validate_candidate in Ev. repeat (case_match; cbn in Ev; [|done]). by injection Ev as <-.
Qed.

Lemma starts_ready expected snap : starts expected snap -> ready (mkState ∅ snap).
Proof.
  intros [[content Hs]|(raw & local & Hs)].
  { by eapply serving_ready, initial_serving. }
  unfold build_static_snapshot in Hs. destruct local as [l|]; [|done].
  destruct (validate_name l); cbn in Hs; [|done]. destruct (existsb _ raw); [done|].
  destruct (validate_candidates raw) as [cs|] eqn:Ec; cbn in Hs; [|done]. injection Hs as <-.
  unfold validate_candidates, validate_candidates_with_empty in Ec. destruct (_ && _); [done|]. destruct (_ <? _); [done|].
  apply static_ungrouped in Ec. rewrite Forall_forall in Ec. constructor; cbn; [|done|done].
  intros k n. unfold groups_of. rewrite lookup_empty. cbn. intros c Hc _. by apply Ec.
Qed.

(** * Session affinity *)












(** * Outgoing headers *)

Lemma decision_remove x l c : headers_to_remove (record_route_decision x l c) = headers_to_remove x.
Proof.
  assert (forall x k v, headers_to_remove (set_meta_opt x k v) = headers_to_remove x) as Ho by (by intros ? ? []).
  assert (forall x c, headers_to_remove (set_credential_metadata x c) = headers_to_remove x) as Hc by (by intros ? []).
  unfold record_route_decision. rewrite Hc, !Ho.
  destruct (kind c), (provider c) as [p|]; try destruct (header_value_ok p); cbn;
    destruct (target_model c); cbn; by rewrite ?Ho.
Qed.

Lemma apply_route_remove x l c revision g mode hop :
  headers_to_remove (apply_route f x l c revision g mode hop).1 = headers_to_remove x.
Proof.
  unfold apply_route. set (y := record_route_decision _ _ _).
  assert (headers_to_remove y = headers_to_remove x) as Hy by (subst y; by rewrite decision_remove).
  assert (headers_to_remove (write_provider_context f y c revision hop).1 = headers_to_remove y) as Hp.
  { unfold write_provider_context. destruct (negb _); [done|]. destruct (_ || _); [done|].
    destruct (negb (header_value_ok (stable_id c))); [done|]. destruct (negb (header_value_ok hop)); [done|].
    destruct revision as [r|]; [|done]. by destruct (negb (header_value_ok r)). }
  destruct (write_provider_context f y c revision hop) as [z [[]|]]; cbn in *; [|congruence].
  unfold record_selection_metadata. destruct g; cbn; congruence.
Qed.

Lemma select_remove e x s k n : headers_to_remove (select_and_route f e x s k n).1.1 = headers_to_remove x.
Proof.
  unfold select_and_route. destruct (resolve_affinity _ _ _ _ _ _ _) as [[| | | |c0] bs].
  5:{ unfold apply_reused. pose proof (apply_route_remove x (local_site (snapshot s)) c0 (semantic_revision (snapshot s))
        (selection_group c0) (selection_mode (snapshot s)) (hop_id e)) as Hr.
      by destruct (apply_route _ _ _ _ _ _ _ _) as [y [u|err]]. }
  all: destruct (select_candidate _ _ _ _ _ _) as [[[c g]|] idx]; [|done].
  all: pose proof (apply_route_remove x (local_site (snapshot s)) c (semantic_revision (snapshot s)) g
         (selection_mode (snapshot s)) (hop_id e)) as Hr.
  all: cbn; destruct (apply_route _ _ _ _ _ _ _ _) as [y [u|err]]; [|done].
  all: by destruct (session_affinity f).
Qed.

Lemma on_request_removes e x s h :
  h ∈ edge_context_headers -> h ∈ headers_to_remove (on_request f e x s).1.1.
Proof.
  intros Hh. assert (h ∈ headers_to_remove (push_remove x edge_context_headers)) as Hp by (cbn; set_solver).
  unfold on_request. fold edge_context_headers. revert Hp. generalize (push_remove x edge_context_headers). intros y Hp.
  unfold try_management_skip. destruct (path_is_management _ _); cbn [negb].
  { destruct (ctx_cluster y); [done|]. by destruct (management_cluster f). }
  destruct (ctx_cluster y); [done|]. destruct (_ && _); [done|].
  destruct (extract_lookup _ _); [by rewrite select_remove|done..].
Qed.

(** The body phase takes no removal back and leaves a cluster that is set. *)
Lemma rewrite_remove x body : headers_to_remove (rewrite_selected_model x body).1.1 = headers_to_remove x.
Proof.
  unfold rewrite_selected_model. destruct body as [raw|]; [|done]. destruct (get_metadata x _) as [t|]; [|done].
  destruct (negb _); [done|]. destruct (to_value <$> read_json raw) as [[]|]; try done.
  destruct (assoc _ _ ≫= _) as [m|]; [|done]. case_bool_decide; cbn; [done|]. by destruct (write_json _).
Qed.

Lemma on_request_body_remove e x s body eos :
  headers_to_remove (on_request_body f e x s body eos).1.1.1 = headers_to_remove x.
Proof.
  unfold on_request_body, try_management_skip. destruct eos; cbn [negb]; [|done].
  destruct (path_is_management _ _); cbn [negb].
  { destruct (ctx_cluster x); [done|]. by destruct (management_cluster f). }
  case_bool_decide; [done|]. destruct (ctx_cluster x) as [c|].
  { destruct (_ || _); [|done]. pose proof (rewrite_remove x body) as F.
    by destruct (rewrite_selected_model x body) as [[y b] r]. }
  fold (body_lookup x body). destruct (body_lookup x body) as [k n| |]; [|done..].
  pose proof (select_remove e x s k n) as Hr. destruct (select_and_route f e x s k n) as [[y t] [[|st]|err]]; try done.
  cbn in Hr. destruct (_ || _); [|done]. pose proof (rewrite_remove y body) as F.
  destruct (rewrite_selected_model y body) as [[z b] r]. cbn in *. congruence.
Qed.

Lemma on_request_body_routed e x s body eos c :
  ctx_cluster x = Some c ->
  ctx_cluster (on_request_body f e x s body eos).1.1.1 = Some c /\
  headers_to_set (on_request_body f e x s body eos).1.1.1 = headers_to_set x.
Proof.
  intros Hc. unfold on_request_body, try_management_skip. rewrite Hc. destruct eos; cbn [negb]; [|done].
  destruct (path_is_management _ _); cbn [negb]; [done|]. case_bool_decide; [done|].
  destruct (_ || _); [|done]. pose proof (rewrite_frame x body) as [F1 F2].
  destruct (rewrite_selected_model x body) as [[y b] r]. cbn in *. by rewrite F1, F2.
Qed.

(** A request through the two hooks of the edge, other requests and reloads
    running in between: the first answer that is not [Continue] ends it, and
    the body hook runs when the request has a body phase. *)
Definition edge_run (expected : option ExpectedOverlayScope) (e e' : Env) (x : Ctx) (s : FilterState) (between : list Op)
    (body : option (option bytes)) : Ctx * result RouteError FilterAction :=
  match on_request f e x s, body with
  | (x1, s1, Ok Continue), Some b =>
      let '(x2, _, _, r) := on_request_body f e' x1 (foldl (exec expected) s1 between) b true in (x2, r)
  | (x1, _, r), _ => (x1, r)
  end.

(** The candidate the edge chose, in the header phase or in the body phase. *)
Definition chosen (expected : option ExpectedOverlayScope) (e e' : Env) (x : Ctx) (s : FilterState) (between : list Op)
    (body : option (option bytes)) (c : RouteCandidate) : Prop :=
  (exists k n, extract_lookup x (model_header f) = Route k n /\ admissible e x s k n c) \/
  (exists b k n, body = Some b /\
     let x1 := (on_request f e x s).1.1 in
     body_lookup x1 b = Route k n /\ ctx_cluster x1 = None /\
     admissible e' x1 (foldl (exec expected) (on_request f e x s).1.2 between) k n c).
End Filter.

Section Properties.
Context `{HeaderSyntax, Sha256, OverlayDeps, MetadataApi, JsonWriter}.

(** C16. Whatever requests and overlay files arrive after a start-up, the snapshot
    in use was verified in full against one of the files seen, for the configured
    scope, and the session table stays within its bound; broken, oversized or
    foreign overlays never reach requests. *)
Theorem serving_snapshot_verified f expected content snap ops :
  from_overlay_with_scope content expected = Ok snap -> Forall op_ok ops ->
  let s := foldl (exec f expected) (mkState ∅ snap) ops in
  (exists c, c ∈ content :: reloads ops /\ verified expected c (snapshot s)) /\
  N.of_nat (size (bindings s)) <= MAX_BINDINGS.
Proof. intros Hs Hops. by apply (run_serving f expected [content]), initial_serving. Qed.

(** C17. In every state reached by requests and reloads, a request that gets a
    cluster gets the configured management cluster of a management path or the
    cluster of a candidate of the snapshot in use for the capability it asks for;
    the candidate is never excluded, and one that accepts only existing sessions
    is used only through an unexpired binding of the request's session to it. *)
Theorem routes_admitted f expected content snap ops e x cl :
  from_overlay_with_scope content expected = Ok snap -> Forall op_ok ops -> rng_ok (rng e) ->
  let s := foldl (exec f expected) (mkState ∅ snap) ops in
  ctx_cluster x = None ->
  let allowed (lookup : Lookup) :=
    (path_is_management (default (uri_path x) (rewritten_path x)) (skip_paths f) = true /\ management_cluster f = Some cl) \/
    (exists k n c, lookup = Route k n /\ cl = cluster c /\ admissible f e x s k n c) in
  ((on_request f e x s).2 = Ok Continue -> ctx_cluster (on_request f e x s).1.1 = Some cl ->
     allowed (extract_lookup x (model_header f))) /\
  (forall body eos, (on_request_body f e x s body eos).2 = Ok Continue ->
     ctx_cluster (on_request_body f e x s body eos).1.1.1 = Some cl -> allowed (body_lookup f x body)).
Proof.
  intros Hsnap Hops Hr s Hx allowed.
  assert (ready s) as Hrd.
  { eapply serving_ready. by apply (run_serving f expected [content]), initial_serving. }
  split.
  - intros Hok Hcl. destruct (on_request_cases f e x s) as [(_ & Hm & _)|(k & n & Hl & _ & Heq)]; [left; by apply Hm|].
    rewrite Heq in Hok, Hcl. right. destruct (select_and_route f e _ s k n) as [[y t] r] eqn:E.
    apply select_and_route_ok in E as (_ & _ & _ & Hp); [|done..]. cbn in Hok, Hcl. subst r.
    destruct Hp as (c & Hc & Ha & _). exists k, n, c. split_and!; [done|congruence|done].
  - intros body eos Hok Hcl.
    destruct (on_request_body_cases f e x s body eos) as [(_ & Hm & _)|(k & n & Hl & _ & _ & Hc & _ & Hr')]; [left; by apply Hm|].
    right. rewrite Hc in Hcl. apply Hr' in Hok. destruct (select_and_route f e x s k n) as [[y t] r] eqn:E.
    apply select_and_route_ok in E as (_ & _ & _ & Hp); [|done..]. cbn in Hok, Hcl. subst r.
    destruct Hp as (c & Hc' & Ha & _). exists k, n, c. split_and!; [done|congruence|done].
Qed.



(** The value a list of header assignments leaves, the last one winning. *)
Definition set_value (h : string) (l : list (string * string)) : option string :=
  snd <$> last (filter (fun e => e.1 = h) l).

Lemma set_value_app h a b :
  set_value h (a ++ b) = match set_value h b with Some v => Some v | None => set_value h a end.
Proof.
  unfold set_value. rewrite filter_app, last_app. by destruct (last (filter _ b)).
Qed.

Lemma marker_other c h : h <> PROVIDER_HEADER -> set_value h (marker c) = None.
Proof.
  intros Hh. unfold marker, set_value. destruct (kind c), (provider c) as [p|]; try done.
  destruct (header_value_ok p); [|done]. rewrite filter_cons_False; [done|]. cbn. congruence.
Qed.

(** Request headers as the proxy core forwards them: the listed ones removed,
    then the assignments made.  The core is not part of the sources; this order
    is what the edge filter relies on when it removes and sets one header. *)
Definition forwards (client : list (string * option string)) (out : Ctx) (sent : list (string * option string)) : Prop :=
  forall h, assoc h sent = match set_value h (headers_to_set out) with
                           | Some v => Some (Some v)
                           | None => if bool_decide (h ∈ headers_to_remove out) then None else assoc h client
                           end.

(** What a provider needs to accept a request. *)
Lemma provider_accepts p y y' :
  provider_on_request p y = (y', Ok Continue) ->
  exists id model route, RouteFilter.header y SELECTED_CANDIDATE_HEADER = Some (Some id) /\
    RouteFilter.header y (p_model_header p) = Some (Some model) /\
    routes p !! id = Some route /\ pr_model route = model /\ uri_path y ∈ pr_paths route /\ ctx_cluster y' = Some (pr_cluster route).
Proof.
  unfold provider_on_request, request_header.
  change (RouteFilter.header (strip_edge_headers y)) with (RouteFilter.header y).
  destruct (RouteFilter.header y SELECTED_CANDIDATE_HEADER) as [[id|]|]; try done. destruct (_ && _); [|done].
  destruct (RouteFilter.header y PROVIDER_HOP_REQUEST_ID_HEADER) as [[rid|]|]; try done. destruct (_ && _); [|done].
  destruct (peer_overlay_revision _) as [rev|]; [|done].
  destruct (RouteFilter.header y (p_model_header p)) as [[model|]|]; try done. destruct (_ && _); [|done].
  destruct (routes p !! id) as [route|] eqn:Hr; [|done]. case_bool_decide as Hm; cbn; [|done].
  case_bool_decide as Hp; cbn; [|done]. destruct (set_provider_headers _ _ _ _) as [z [u|err]] eqn:Hs; [|done].
  intros [= <-]. exists id, model, route. split_and!; try done. unfold set_provider_headers in Hs.
  destruct (negb _); [done|].
  assert (forall z, ctx_cluster (set_credential_metadata (set_meta_opt z "provider_route.overlay_revision" rev) (pr_credential route))
                    = ctx_cluster z) as Hcl by (intros; by rewrite credential_cluster, set_meta_opt_cluster).
  destruct rev as [rv|]; [destruct (negb (header_value_ok rv)); [done|]|]; injection Hs as <- _; cbn;
    rewrite credential_cluster; done.
Qed.

(** The edge wrote the candidate header only for a candidate it chose. *)
Lemma edge_run_header f expected e e' x s between body x' id :
  ready s -> rng_ok (rng e) -> rng_ok (rng e') -> Forall op_ok between -> ctx_cluster x = None ->
  set_value SELECTED_CANDIDATE_HEADER (headers_to_set x) = None ->
  edge_run f expected e e' x s between body = (x', Ok Continue) ->
  set_value SELECTED_CANDIDATE_HEADER (headers_to_set x') = Some id ->
  exists c, chosen f expected e e' x s between body c /\ id = stable_id c /\
    ctx_cluster x' = Some (cluster c) /\ cluster c ∈ provider_hop_clusters f.
Proof.
  intros Hrd Hr Hr' Hops Hx Hset Hedge Hsel.
  assert (forall e x s k n y t, ready s -> rng_ok (rng e) -> set_value SELECTED_CANDIDATE_HEADER (headers_to_set x) = None ->
    select_and_route f e x s k n = (y, t, Ok Continue) -> set_value SELECTED_CANDIDATE_HEADER (headers_to_set y) = Some id ->
    exists c, admissible f e x s k n c /\ id = stable_id c /\ ctx_cluster y = Some (cluster c) /\ cluster c ∈ provider_hop_clusters f)
    as Hroute.
  { clear. intros e x s k n y t Hrd Hr Hset Hs Hsel.
    apply select_and_route_ok in Hs as (_ & _ & _ & c & Hcc & Hadm & Hsets & _); [|done..].
    rewrite Hsets in Hsel. rewrite !set_value_app, marker_other, Hset in Hsel by done.
    case_bool_decide as Hallow; [|done]. exists c. split_and!; try done.
    destruct (semantic_revision (snapshot s)); cbn in Hsel; by injection Hsel as <-. }
  pose proof (exec_ready f expected s (OpRequest e x) Hr Hrd) as Hrd1. cbn in Hrd1.
  unfold edge_run in Hedge. unfold chosen.
  destruct (on_request f e x s) as [[x1 s1] r1] eqn:Hon. cbn [fst snd] in *.
  destruct (on_request_cases f e x s) as [(_ & _ & Hkeep)|(k & n & Hl & _ & Heq)].
  - rewrite Hon in Hkeep. cbn in Hkeep. destruct body as [b|].
    2:{ destruct r1 as [[]|]; simplify_eq; by rewrite Hkeep, Hset in Hsel. }
    destruct r1 as [[|st]|err]; [|done..].
    destruct (on_request_body f e' x1 (foldl (exec f expected) s1 between) b true) as [[[x2 s2] b2] r2] eqn:Hob. injection Hedge as -> ->.
    destruct (on_request_body_cases f e' x1 (foldl (exec f expected) s1 between) b true)
      as [(_ & _ & Hkeep2)|(k & n & Hl & Hx1 & _ & Hcl & Hhs & Hok)]; rewrite Hob in *; cbn in *.
    + by rewrite Hkeep2, Hkeep, Hset in Hsel.
    + specialize (Hok eq_refl). destruct (select_and_route f e' x1 _ k n) as [[y t] r] eqn:Es. cbn in *. subst r.
      rewrite Hhs in Hsel. apply Hroute in Es as (c & Hadm & Hid & Hc & Hin); [|by apply run_ready|done|by rewrite Hkeep|done].
      exists c. split_and!; try done; [|by rewrite Hcl]. right. exists b, k, n. by split_and!.
  - rewrite Hon in Heq. symmetry in Heq.
    assert (forall id', r1 = Ok Continue -> set_value SELECTED_CANDIDATE_HEADER (headers_to_set x1) = Some id' -> id' = id ->
      exists c, admissible f e x s k n c /\ id = stable_id c /\ ctx_cluster x1 = Some (cluster c) /\ cluster c ∈ provider_hop_clusters f) as Hfirst.
    { intros id' -> Hv ->. by apply Hroute in Heq. }
    destruct body as [b|].
    2:{ destruct r1 as [[]|]; simplify_eq.
        destruct (Hfirst id eq_refl Hsel eq_refl) as (c & ? & ? & ? & ?). exists c. split_and!; eauto. }
    destruct r1 as [[|st]|err]; [|done..].
    destruct (on_request_body f e' x1 (foldl (exec f expected) s1 between) b true) as [[[x2 s2] b2] r2] eqn:Hob. injection Hedge as -> ->.
    assert (exists c, ctx_cluster x1 = Some c) as [c0 Hc0].
    { apply select_and_route_ok in Heq as (_ & _ & _ & c & Hcc & _); [|done..]. eauto. }
    destruct (on_request_body_routed f e' x1 (foldl (exec f expected) s1 between) b true c0 Hc0) as [Hc2 Hs2].
    rewrite Hob in Hc2, Hs2. cbn in Hc2, Hs2. rewrite Hs2 in Hsel.
    destruct (Hfirst id eq_refl Hsel eq_refl) as (c & ? & ? & Hc1 & ?). exists c. split_and!; eauto. by rewrite Hc2, <- Hc1.
Qed.

Lemma edge_run_removes f expected e e' x s between body h :
  h ∈ edge_context_headers -> h ∈ headers_to_remove (edge_run f expected e e' x s between body).1.
Proof.
  intros Hh. unfold edge_run. pose proof (on_request_removes f e x s h Hh) as Hrm.
  destruct (on_request f e x s) as [[x1 s1] [[|st]|err]]; destruct body as [b|]; try done. cbn in Hrm.
  pose proof (on_request_body_remove f e' x1 (foldl (exec f expected) s1 between) b true) as Hb.
  destruct (on_request_body _ _ _ _ _ _) as [[[x2 s2] b2] r2]. cbn in *. by rewrite Hb.
Qed.

(** C19. A provider hop cannot be forged: whatever headers the client sends, if
    the provider accepts the request the edge forwarded, the edge chose an
    admissible candidate on an allow-listed cluster for it, from the model or
    tool in its headers or from the model in its body, and the provider uses the
    backend its own configuration has for exactly that candidate, for the model
    and path it received.  The edge may serve an overlay or the configured
    candidates, after any requests and reloads, some of them between the two
    hooks; no filter before it chose a cluster or queued an assignment of the
    hop headers. *)
Theorem provider_hop_authentic f expected snap ops e e' x between body x' p y y' :
  starts expected snap -> Forall op_ok ops -> Forall op_ok between -> rng_ok (rng e) -> rng_ok (rng e') ->
  let s := foldl (exec f expected) (mkState ∅ snap) ops in
  ctx_cluster x = None -> (forall h, h ∈ edge_context_headers -> set_value h (headers_to_set x) = None) ->
  edge_run f expected e e' x s between body = (x', Ok Continue) ->
  forwards (request_headers x) x' (request_headers y) ->
  provider_on_request p y = (y', Ok Continue) ->
  exists c route,
    chosen f expected e e' x s between body c /\
    ctx_cluster x' = Some (cluster c) /\ cluster c ∈ provider_hop_clusters f /\
    routes p !! stable_id c = Some route /\ ctx_cluster y' = Some (pr_cluster route) /\
    RouteFilter.header y (p_model_header p) = Some (Some (pr_model route)) /\ uri_path y ∈ pr_paths route.
Proof.
  intros Hsnap Hops Hbetween Hr Hr' s Hx Hset Hedge Hfw (id & model & route & Hid & Hm & Hroute & <- & Hp & Hcl)%provider_accepts.
  assert (ready s) as Hrd by (by eapply run_ready, starts_ready).
  assert (SELECTED_CANDIDATE_HEADER ∈ edge_context_headers) as Hin by (by left).
  pose proof (edge_run_removes f expected e e' x s between body _ Hin) as Hrm. rewrite Hedge in Hrm. cbn in Hrm.
  unfold RouteFilter.header in Hid. rewrite Hfw, bool_decide_eq_true_2 in Hid by done.
  destruct (set_value _ _) as [v|] eqn:Hsel; [|done]. injection Hid as ->.
  destruct (edge_run_header f expected e e' x s between body x' id) as (c & Hch & -> & Hcc & Hallow); try done; [by apply Hset|].
  exists c, route. by split_and!.
Qed.
End Properties.

(** * Concrete instances *)

Module Sample.
Local Open Scope string_scope.

#[local] Instance headers : HeaderSyntax := {| header_value_ok _ := true; parse_header_name s := Some s |}.
#[local] Instance sha : Sha256 := {| sha256 _ := replicate 32 Byte.x00 |}.
#[local] Instance writer : JsonWriter := {| write_json _ := None |}.
#[local] Instance metadata : MetadataApi :=
  {| set_metadata m k v := <[k := v]> m; set_metadata_spec m k v := or_introl eq_refl |}.

Definition digest : string := encode_hex (replicate 32 Byte.x00).
Definition entry (cl : string) (g : N) (adm : string) : Json :=
  JObject [("kind", JString "inference_model"); ("name", JString "m"); ("site", JString "s"); ("cluster", JString cl);
           ("admission_state", JString adm); ("selection_group", JNumber (PosInt g)); ("stable_id", JString ("id-" +:+ cl))].

Definition tree : Json :=
  JObject [("schema_version", JString "1.0.0");
    ("revision", JObject [("kind", JString "content_addressed"); ("algorithm", JString "sha256"); ("value", JString digest)]);
    ("content_digest", JObject [("algorithm", JString "sha256"); ("value", JString digest)]);
    ("scope", JObject [("network", JString "n"); ("gateway", JString "g"); ("namespace", JString "ns"); ("local_site", JString "l")]);
    ("provenance", JObject [("producer", JString "p"); ("producer_version", JString "1"); ("source_name", JString "n");
       ("source_uid", JString "u"); ("source_generation", JNumber (PosInt 1)); ("rendered_at", JString "now")]);
    ("overlay", JObject [("local_site", JString "l"); ("network", JString "n");
       ("candidates", JArray [entry "old" 0 "existing_only"; entry "east" 1 "new_and_existing"; entry "west" 1 "new_and_existing"]);
       ("selection_policy", JObject [("mode", JString "roundRobin")])])].

#[local] Instance deps : OverlayDeps :=
  {| read_json _ := Some tree; canonicalize _ := Some []; rfc3339_ok _ := true |}.

Definition scope : option ExpectedOverlayScope := Some (mkExpected (Some "n") (Some "g") None None).
Definition snap : RouteSnapshot :=
  match from_overlay_with_scope [] scope with Ok s => s | Err _ => from_static [] "" end.
Definition route_filter : IntelligentRouteFilter :=
  mkFilter ["east"] "x-model" false ["/v1/models"] None (Some (mkAffinity None (Some "x-session") 100)).
Definition request : Ctx :=
  mkCtx None ∅ "/v1/chat/completions" None
    [("x-model", Some "m"); ("x-session", Some "k"); ("x-ai-routing-candidate", Some "forged")] [] [].
Definition env (t : N) : Env := mkEnv t (fun _ => 0) "hop".
Definition start : FilterState := mkState ∅ snap.

Lemma accepted : from_overlay_with_scope [] scope = Ok snap.
Proof. vm_compute. reflexivity. Qed.

Lemma env_ok t : rng_ok (rng (env t)).
Proof. intros n Hn. exact Hn. Qed.

Lemma accepted_overlay_verified_witness : verified scope [] snap.
Proof. apply (accepted_overlay_verified [] scope snap). vm_compute. reflexivity. Defined.

Lemma serving_snapshot_verified_witness :
  exists c, c ∈ [] :: reloads [OpRequest (env 1) request; OpReload (Some [Byte.x01])] /\
    verified scope c (snapshot (foldl (exec route_filter scope) start [OpRequest (env 1) request; OpReload (Some [Byte.x01])])).
Proof.
  apply (serving_snapshot_verified route_filter scope [] snap [OpRequest (env 1) request; OpReload (Some [Byte.x01])]).
  - vm_compute. reflexivity.
  - constructor; [apply env_ok|]. constructor; [exact I|constructor].
Defined.

Lemma routes_admitted_witness :
  path_is_management "/v1/chat/completions" ["/v1/models"] = true /\ None = Some "east" \/
  exists k n c, Route InferenceModel "m" = Route k n /\ "east" = cluster c /\ admissible route_filter (env 1) request start k n c.
Proof.
  apply (proj1 (routes_admitted route_filter scope [] snap [] (env 1) request "east"
                  accepted (Forall_nil_2 _) (env_ok 1) eq_refl)); vm_compute; reflexivity.
Defined.



(** The request the edge sends on, and a provider that knows the candidate. *)
Definition sent : Ctx :=
  mkCtx None ∅ "/v1/chat/completions" None
    [("x-ai-routing-candidate", Some "id-east"); ("x-ai-routing-request-id", Some "hop");
     ("x-ai-routing-revision", Some digest); ("x-model", Some "m"); ("x-session", Some "k")] [] [].
Definition provider : ProviderRouteFilter :=
  mkProviderFilter false "x-model" "prov" {[ "id-east" := mkRoute "gpu" None "m" ["/v1/chat/completions"] ]}.

(** The same model arrives in the body: the header phase passes the request
    through and the body phase routes it. *)
Definition body_filter : IntelligentRouteFilter :=
  mkFilter ["east"] "x-model" true ["/v1/models"] None (Some (mkAffinity None (Some "x-session") 100)).
#[local] Instance body_deps : OverlayDeps :=
  {| read_json b := match b with [Byte.x6d] => Some (JObject [("model", JString "m")]) | _ => Some tree end;
     canonicalize _ := Some []; rfc3339_ok _ := true |}.
Definition edge : Ctx * result RouteError FilterAction :=
  edge_run body_filter scope (env 1) (env 2) request start [] (Some (Some [Byte.x6d])).

Lemma provider_hop_authentic_witness :
  exists c route, chosen body_filter scope (env 1) (env 2) request start [] (Some (Some [Byte.x6d])) c /\
    ctx_cluster edge.1 = Some (cluster c) /\
    cluster c ∈ provider_hop_clusters body_filter /\ routes provider !! stable_id c = Some route /\
    ctx_cluster (provider_on_request provider sent).1 = Some (pr_cluster route) /\
    RouteFilter.header sent (p_model_header provider) = Some (Some (pr_model route)) /\ uri_path sent ∈ pr_paths route.
Proof.
  apply (provider_hop_authentic body_filter scope snap [] (env 1) (env 2) request [] (Some (Some [Byte.x6d])) edge.1
           provider sent (provider_on_request provider sent).1).
  - left. exists []. vm_compute. reflexivity.
  - constructor.
  - constructor.
  - apply env_ok.
  - apply env_ok.
  - reflexivity.
  - intros h _. reflexivity.
  - vm_compute. reflexivity.
  - intros h.
    assert (headers_to_set edge.1 =
      [("x-ai-routing-candidate", "id-east"); ("x-ai-routing-request-id", "hop"); ("x-ai-routing-revision", digest)]) as ->
      by (vm_compute; reflexivity).
    assert (headers_to_remove edge.1 = edge_context_headers) as ->
      by (vm_compute; reflexivity).
    unfold set_value, request, sent, edge_context_headers, SELECTED_CANDIDATE_HEADER, PROVIDER_HOP_REQUEST_ID_HEADER,
      OVERLAY_REVISION_HEADER, PROVIDER_HEADER. cbn [request_headers assoc filter list_filter].
    repeat case_bool_decide; repeat case_decide; cbn in *; subst; try done; set_solver.
  - vm_compute. reflexivity.
Defined.
End Sample.

(** A model in the body that is blank or too long is not rejected in the body
    phase, unlike one in the header: the request continues without a cluster. *)
Theorem invalid_body_model_continues `{HeaderSyntax, OverlayDeps, MetadataApi, JsonWriter} f e x s body :
  ctx_cluster x = None -> body_lookup f x body = Invalid ->
  path_is_management (default (uri_path x) (rewritten_path x)) (skip_paths f) = false ->
  on_request_body f e x s body true = (x, s, body, Ok Continue).
Proof.
  intros Hc Hl Hp. unfold on_request_body, try_management_skip. rewrite Hp. cbn [negb].
  case_bool_decide; [done|]. rewrite Hc. fold (body_lookup f x body). by rewrite Hl.
Qed.
