(* ===== verification/CredentialInject.v ===== *)
(** Credential injection ([filters/src/routing/credential_inject.rs]): the filter
    that replaces the credentials of a routed request by those of the candidate.

    Secrets come from the configuration, from the environment or from files.  A
    file system at a moment is an argument ([Fs]), as are the environment and
    the outcome of registering watches.  Paths are Unix paths.  Requests that
    need a projected secret suspend in [cached_projected_credential]: a caller is
    a program counter, an action is the code between two suspension points or
    lock sections, and any interleaving is a list of actions.  Cache entries are
    shared ([Arc]), so they live in a heap and callers hold their identifiers;
    a strong count of 1 means that no caller holds the entry.

    Simplifications of the interleaving: the end of a refresh releases the lock
    and wakes the waiters in one action, where the code has two statements;
    a caller that is woken re-checks before it can be cancelled; and the
    blocking read that a cancelled caller leaves running on its thread is not
    modelled (its result is dropped, so it changes no entry).  Error texts are
    not modelled, nor is the overwriting of secrets in memory. *)

From S2P Require Import Prelude Utf8 MetaCodec RustStr HeaderPolicy Routing RouteFilter.
From Stdlib Require Import Strings.Byte Strings.Ascii.

Local Open Scope N_scope.
Local Open Scope rust_scope.

Definition MAX_CREDENTIALS : N := 1024.
Definition MAX_REFERENCE_LEN : N := 256.
Definition MAX_SOURCE_LEN : N := 4096.
Definition MAX_TOKEN_BYTES : N := 16 * 1024.
Definition MAX_TOKEN_READ_BYTES : N := 16 * 1024 + 1.
Definition DEFAULT_APIKEY_HEADER : string := "x-api-key".
Definition AUTHORIZATION : string := "authorization".
(** In milliseconds, as all times here. *)
Definition PROJECTED_CACHE_TTL : N := 250.
Definition STRATEGY_BEARER_TOKEN : string := "bearer_token".
Definition STRATEGY_APIKEY : string := "apikey".

(** * Data *)

Record CredentialEntryConfig := mkEntryConfig {
  e_name : string;
  e_namespace : string;
  e_key : string;
  e_strategy : string;
  e_header : option string;
  e_value : option string;
  e_env_var : option string;
  e_file : option string
}.
Record CredentialInjectConfig := mkInjectConfig {
  cfg_credentials : list CredentialEntryConfig;
  cfg_mount_base : option string
}.

#[export] Instance CredentialRef_eq_dec : EqDecision CredentialRef.
Proof. solve_decision. Defined.
#[export] Instance CredentialRef_countable : Countable CredentialRef.
Proof.
  refine (inj_countable' (fun r => (cr_key r, cr_name r, cr_namespace r)) (fun '(k, n, s) => mkCredentialRef k n s) _). by intros [].
Defined.

Record ResolvedCredential := mkResolved { rc_strategy : string; header_name : string; header_value : string }.

Inductive CredError :=
| TooManyCredentials
| NoCredentials
| BadMountBase
| BadStrategy (strategy : string)
| OutOfBounds (field : string) (maximum : N)
| HeaderWithBearer
| BadHeaderName
| ReservedHeader
| AuthorizationHeader
| TransportHeader
| NoSource
| ManySources
| EnvUnset
| FileUnreadable
| TokenTooLarge
| BadHeaderValue
| DuplicateEntry
| UnsafeComponent (field : string)
| RootUnavailable
| CredentialUnavailable
| OutsideRoot
| WatcherFailed
| AuthoritativeReadFailed (e : CredError).

(** The snapshot of each configured credential; [None] after a failed reload. *)
Abbreviation Snapshots := (gmap CredentialRef (option ResolvedCredential)).

(** What a request ends with. *)
Abbreviation Answer := (Ctx * result CredError FilterAction)%type.

Abbreviation Key := (CredentialRef * string)%type.

(** * Paths *)

Inductive PathComponent := RootDir | CurDir | ParentDir | NormalComponent (s : string).
#[export] Instance PathComponent_eq_dec : EqDecision PathComponent.
Proof. solve_decision. Defined.

Fixpoint path_pieces (first : bool) (pieces : list string) : list PathComponent :=
  match pieces with
  | [] => []
  | p :: ps =>
      (if bool_decide (p = ""%string) then []
       else if bool_decide (p = "."%string) then if first then [CurDir] else []
       else if bool_decide (p = ".."%string) then [ParentDir] else [NormalComponent p]) ++ path_pieces false ps
  end.

Definition is_absolute (p : string) : bool := starts_with p "/".
(** [Path::components]. *)
Definition components (p : string) : list PathComponent :=
  if is_absolute p then RootDir :: path_pieces false (split_on "/" p) else path_pieces true (split_on "/" p).
Definition path_eq (p q : string) : bool := bool_decide (components p = components q).
(** [Path::join]. *)
Definition path_join (p q : string) : string :=
  if is_absolute q then q
  else if bool_decide (p = ""%string) || ends_with p "/" then p +:+ q else p +:+ "/" +:+ q.
(** [Path::starts_with]. *)
Fixpoint component_prefix (p q : list PathComponent) : bool :=
  match p, q with
  | [], _ => true
  | a :: p, b :: q => bool_decide (a = b) && component_prefix p q
  | _ :: _, [] => false
  end.
Definition path_starts_with (p base : string) : bool := component_prefix (components base) (components p).
(** [Path::parent]. *)
Definition path_parent (p : string) : option (list PathComponent) :=
  match last (components p) with
  | None | Some RootDir => None
  | Some _ => Some (removelast (components p))
  end.

(** * Validation *)

Definition validate_bounded (field value : string) (maximum : N) : result CredError unit :=
  if is_blank value || (maximum <? str_len value) then Err (OutOfBounds field maximum) else Ok tt.
Definition validate_token (value : string) : result CredError unit := validate_bounded "credential token" value MAX_TOKEN_BYTES.
Definition validate_strategy (strategy : string) : result CredError unit :=
  if is_supported_strategy strategy then Ok tt else Err (BadStrategy strategy).
Definition strategy_label (strategy : string) : string :=
  if bool_decide (strategy = STRATEGY_BEARER_TOKEN) then STRATEGY_BEARER_TOKEN else STRATEGY_APIKEY.
Definition validate_credential_ref (e : CredentialEntryConfig) : result CredError unit :=
  let? _ := validate_bounded "name" (e_name e) MAX_REFERENCE_LEN in
  let? _ := validate_bounded "namespace" (e_namespace e) MAX_REFERENCE_LEN in
  validate_bounded "key" (e_key e) MAX_REFERENCE_LEN.

Definition validate_projected_mount_base (base : string) : result CredError unit :=
  if negb (is_absolute base) || path_eq base "/" ||
     existsb (fun c => bool_decide (c = ParentDir) || bool_decide (c = CurDir)) (components base)
  then Err BadMountBase else Ok tt.

Definition assemble_header_value (strategy token : string) : string :=
  if bool_decide (strategy = STRATEGY_BEARER_TOKEN) then "Bearer " +:+ token else token.

(** ** Secrets *)

(** The file system at a moment: [std::fs::canonicalize], and the contents of the
    files that can be opened. *)
Record Fs := mkFs { canonicalize : string -> option string; open_file : string -> option bytes }.

Definition read_projected_token (fs : Fs) (path : string) : result CredError string :=
  match open_file fs path with
  | None => Err FileUnreadable
  | Some data =>
      match from_utf8 (take (N.to_nat MAX_TOKEN_READ_BYTES) data) with
      | None => Err FileUnreadable
      | Some content =>
          if MAX_TOKEN_BYTES <? nlength content then Err TokenTooLarge
          else
            let token := trim (bytes_string content) in
            let? _ := validate_token token in
            Ok token
      end
  end.

Section Filter.
Context `{HeaderSyntax}.

Definition resolve_header_name (e : CredentialEntryConfig) : result CredError string :=
  if bool_decide (e_strategy e = STRATEGY_BEARER_TOKEN) then
    match e_header e with Some _ => Err HeaderWithBearer | None => Ok AUTHORIZATION end
  else
    match e_header e with
    | None => Ok DEFAULT_APIKEY_HEADER
    | Some h =>
        let? _ := validate_bounded "header" h MAX_SOURCE_LEN in
        match parse_header_name h with
        | None => Err BadHeaderName
        | Some n =>
            if existsb (starts_with n) RESERVED_HEADER_PREFIXES then Err ReservedHeader
            else if bool_decide (n = AUTHORIZATION) then Err AuthorizationHeader
            else if is_transport_controlled_header_lowercase n then Err TransportHeader
            else Ok n
        end
    end.

Definition resolve_file_credential (fs : Fs) (path strategy hname : string) : result CredError ResolvedCredential :=
  let? token := read_projected_token fs path in
  let? _ := validate_token token in
  let value := assemble_header_value strategy token in
  if header_value_ok value then Ok (mkResolved strategy hname value) else Err BadHeaderValue.

Definition resolve_token (env : string -> option string) (fs : Fs) (e : CredentialEntryConfig) : result CredError string :=
  match e_value e, e_env_var e, e_file e with
  | Some v, None, None => let? _ := validate_token v in Ok v
  | None, Some var, None =>
      let? _ := validate_bounded "env_var" var MAX_SOURCE_LEN in
      match env var with Some v => Ok v | None => Err EnvUnset end
  | None, None, Some path =>
      let? _ := validate_bounded "file" path MAX_SOURCE_LEN in
      read_projected_token fs path
  | None, None, None => Err NoSource
  | _, _, _ => Err ManySources
  end.

Definition resolve_credential (env : string -> option string) (fs : Fs) (e : CredentialEntryConfig) (strategy hname : string)
    : result CredError ResolvedCredential :=
  let? token := resolve_token env fs e in
  let? _ := validate_token token in
  let value := assemble_header_value strategy token in
  if header_value_ok value then Ok (mkResolved strategy hname value) else Err BadHeaderValue.

(** ** Projected secrets *)

Record SelectedCredential := mkSelected { sel_strategy : string; sel_ref : CredentialRef }.

Definition safe_component (c : string) : bool :=
  negb (bool_decide (c = "."%string)) && negb (bool_decide (c = ".."%string)) &&
  negb (existsb (fun a => bool_decide (a = "/"%char) || bool_decide (a = "\"%char) || bool_decide (a = "000"%char)) (String.list_ascii_of_string c)) &&
  (length (components c) =? 1)%nat.

Definition check_component (field c : string) : result CredError unit :=
  if safe_component c then Ok tt else Err (UnsafeComponent field).

Definition projected_credential_path (base : string) (r : CredentialRef) : result CredError string :=
  let? _ := validate_bounded "name" (cr_name r) MAX_REFERENCE_LEN in
  let? _ := validate_bounded "namespace" (cr_namespace r) MAX_REFERENCE_LEN in
  let? _ := validate_bounded "key" (cr_key r) MAX_REFERENCE_LEN in
  let? _ := check_component "namespace" (cr_namespace r) in
  let? _ := check_component "name" (cr_name r) in
  let? _ := check_component "key" (cr_key r) in
  Ok (path_join (path_join (path_join base (cr_namespace r)) (cr_name r)) (cr_key r)).

(** [resolve_projected_credential], on the file system its blocking task sees. *)
Definition resolve_projected_credential (fs : Fs) (base : string) (sel : SelectedCredential) : result CredError ResolvedCredential :=
  let? path := projected_credential_path base (sel_ref sel) in
  let hname := if bool_decide (sel_strategy sel = STRATEGY_BEARER_TOKEN) then AUTHORIZATION else DEFAULT_APIKEY_HEADER in
  match canonicalize fs base with
  | None => Err RootUnavailable
  | Some root =>
      match canonicalize fs path with
      | None => Err CredentialUnavailable
      | Some resolved =>
          if negb (path_starts_with resolved root) then Err OutsideRoot
          else resolve_file_credential fs resolved (sel_strategy sel) hname
      end
  end.

(** * Construction *)

Record WatchedCredential := mkWatched { w_path : string; w_ref : CredentialRef; w_strategy : string; w_header : string }.

Record Filter := mkFilter {
  credentials : Snapshots;
  credential_headers : list string;
  projected_credential_mount_base : option string;
  watched : list WatchedCredential
}.
Definition with_credentials (f : Filter) (c : Snapshots) : Filter :=
  mkFilter c (credential_headers f) (projected_credential_mount_base f) (watched f).

Definition entry_ref (e : CredentialEntryConfig) : CredentialRef := mkCredentialRef (e_key e) (e_name e) (e_namespace e).

(** One round of the loop of [from_config]. *)
Definition add_entry (env : string -> option string) (fs : Fs) (f : Filter) (e : CredentialEntryConfig) : result CredError Filter :=
  let? _ := validate_strategy (e_strategy e) in
  let? _ := validate_credential_ref e in
  let strategy := strategy_label (e_strategy e) in
  let? hname := resolve_header_name e in
  let headers := if bool_decide (hname ∈ credential_headers f) then credential_headers f else credential_headers f ++ [hname] in
  let? resolved :=
    match e_value e, e_env_var e, e_file e with
    | None, None, Some path =>
        let? _ := validate_bounded "file" path MAX_SOURCE_LEN in
        resolve_file_credential fs path strategy hname
    | _, _, _ => resolve_credential env fs e strategy hname
    end in
  match credentials f !! entry_ref e with
  | Some _ => Err DuplicateEntry
  | None =>
      Ok (mkFilter (<[entry_ref e := Some resolved]> (credentials f)) headers (projected_credential_mount_base f)
            (watched f ++ match e_file e with Some path => [mkWatched path (entry_ref e) strategy hname] | None => [] end))
  end.
Fixpoint add_entries (env : string -> option string) (fs : Fs) (es : list CredentialEntryConfig) (f : Filter) : result CredError Filter :=
  match es with
  | [] => Ok f
  | e :: es => let? f := add_entry env fs f e in add_entries env fs es f
  end.

(** The reads of the watcher thread before it reports that it is ready. *)
Fixpoint authoritative_reads (fs : Fs) (ws : list WatchedCredential) : result CredError (list (CredentialRef * ResolvedCredential)) :=
  match ws with
  | [] => Ok []
  | w :: ws =>
      match resolve_file_credential fs (w_path w) (w_strategy w) (w_header w) with
      | Err e => Err (AuthoritativeReadFailed e)
      | Ok c => let? rest := authoritative_reads fs ws in Ok ((w_ref w, c) :: rest)
      end
  end.

(** [spawn_credential_watcher]: [live] tells whether the thread, the watcher and
    all its watches came up in time. *)
Definition spawn_credential_watcher (live : bool) (fs : Fs) (f : Filter) : result CredError Filter :=
  if negb live then Err WatcherFailed
  else
    let? initial := authoritative_reads fs (watched f) in
    Ok (with_credentials f (foldl (fun m rc => <[rc.1 := Some rc.2]> m) (credentials f) initial)).

(** [from_config], after the YAML was read: [fs] is the file system during
    the loop, [fs'] the one the watcher thread sees. *)
Definition from_config (env : string -> option string) (fs fs' : Fs) (live : bool) (cfg : CredentialInjectConfig) : result CredError Filter :=
  if MAX_CREDENTIALS <? nlength (cfg_credentials cfg) then Err TooManyCredentials
  else if bool_decide (cfg_credentials cfg = []) && match cfg_mount_base cfg with None => true | Some _ => false end then Err NoCredentials
  else
    let? _ := match cfg_mount_base cfg with Some base => validate_projected_mount_base base | None => Ok tt end in
    let? f := add_entries env fs (cfg_credentials cfg) (mkFilter ∅ [AUTHORIZATION; "x-api-key"%string] (cfg_mount_base cfg) []) in
    if bool_decide (watched f = []) then Ok f else spawn_credential_watcher live fs' f.

(** ** Reloading *)

Definition reload_credential (fs : Fs) (m : Snapshots) (w : WatchedCredential) : Snapshots :=
  <[w_ref w := match resolve_file_credential fs (w_path w) (w_strategy w) (w_header w) with Ok c => Some c | Err _ => None end]> m.
Definition reload_all_credentials (fs : Fs) (ws : list WatchedCredential) (m : Snapshots) : Snapshots :=
  foldl (reload_credential fs) m ws.

(** [notify::Event], as far as it is read. *)
Inductive EventKind := KCreate | KModify | KRemove | KAccess | KAny | KOther.
Record FsEvent := mkFsEvent { need_rescan : bool; ev_kind : EventKind; ev_paths : list string }.

Definition affected (ev : FsEvent) (w : WatchedCredential) : bool :=
  existsb (fun p => path_eq p (w_path w) || bool_decide (path_parent p = path_parent (w_path w))) (ev_paths ev).
Definition process_watcher_event (fs : Fs) (ev : FsEvent) (ws : list WatchedCredential) (m : Snapshots) : Snapshots :=
  if need_rescan ev || match ev_kind ev with KOther => true | _ => false end then reload_all_credentials fs ws m
  else if negb (match ev_kind ev with KCreate | KModify | KRemove => true | _ => false end) then m
  else foldl (fun m w => if affected ev w then reload_credential fs m w else m) m ws.

(** * Requests *)

Definition selected_credential_ref (x : Ctx) : option (result unit SelectedCredential) :=
  match get_metadata x "intelligent_route.credential.strategy", get_metadata x "intelligent_route.credential.name",
        get_metadata x "intelligent_route.credential.namespace", get_metadata x "intelligent_route.credential.key" with
  | None, None, None, None => None
  | Some strategy, Some n, Some ns, Some k =>
      if is_supported_strategy strategy
      then Some (Ok (mkSelected (if bool_decide (strategy = STRATEGY_BEARER_TOKEN) then STRATEGY_BEARER_TOKEN else STRATEGY_APIKEY)
                       (mkCredentialRef k n ns)))
      else Some (Err tt)
  | _, _, _, _ => Some (Err tt)
  end.

Definition reject (x : Ctx) : Answer := (x, Ok (Reject 503)).

(** The end of [on_request], with the credential found. *)
Definition inject (f : Filter) (x : Ctx) (sel : SelectedCredential) (cred : ResolvedCredential) : Answer :=
  if negb (bool_decide (rc_strategy cred = sel_strategy sel)) then reject x
  else if negb (header_value_ok (header_value cred)) then (x, Err BadHeaderValue)
  else (push_set (push_remove x (credential_headers f)) (header_name cred) (header_value cred), Ok Continue).

(** ** The projected cache *)

Definition sel_key (sel : SelectedCredential) : Key := (sel_ref sel, sel_strategy sel).

Record CacheState := mkCacheState { loaded_at : option N; cached : option ResolvedCredential; refreshing : bool }.

(** Where a request stands that asked for a projected credential. *)
Inductive Pc :=
| Checking (id : N)
| Waiting (id : N)
| Refreshing (id : N)
| HasRead (id : N) (r : result CredError ResolvedCredential)
| Leaving (id : N) (r : result CredError ResolvedCredential)
| Trimming (r : result CredError ResolvedCredential).

Record Caller := mkCaller { c_ctx : Ctx; c_sel : SelectedCredential; c_pc : Pc }.

Record World := mkWorld {
  filter_of : Filter;
  entries : gmap Key (N * N);
  heap : gmap N CacheState;
  callers : gmap N Caller;
  clock : N
}.
Definition world_new (f : Filter) : World := mkWorld f ∅ ∅ ∅ 0.

(** The entry a caller holds. *)
Definition held (c : Caller) : option N :=
  match c_pc c with
  | Checking id | Waiting id | Refreshing id | HasRead id _ | Leaving id _ => Some id
  | Trimming _ => None
  end.
(** [Arc::strong_count(entry) == 1]. *)
Definition idle (w : World) (id : N) : bool := bool_decide (map_Forall (fun _ c => held c <> Some id) (callers w)).

Section Cache.
Context `{!HashOrder Key}.

(** [min_by_key]: the first of the least. *)
Fixpoint min_by_use (l : list (Key * (N * N))) : option (Key * (N * N)) :=
  match l with
  | [] => None
  | e :: l => match min_by_use l with Some e' => if e'.2.2 <? e.2.2 then Some e' else Some e | None => Some e end
  end.
Definition oldest_idle (w : World) : option Key :=
  fst <$> min_by_use (List.filter (fun e => idle w e.2.1) (hash_iter (entries w))).

Definition with_entries (w : World) (e : gmap Key (N * N)) : World := mkWorld (filter_of w) e (heap w) (callers w) (clock w).
Definition with_heap (w : World) (h : gmap N CacheState) : World := mkWorld (filter_of w) (entries w) h (callers w) (clock w).
Definition with_callers (w : World) (c : gmap N Caller) : World := mkWorld (filter_of w) (entries w) (heap w) c (clock w).
Definition with_filter (w : World) (f : Filter) : World := mkWorld f (entries w) (heap w) (callers w) (clock w).
Definition with_clock (w : World) (n : N) : World := mkWorld (filter_of w) (entries w) (heap w) (callers w) n.

(** The loop of [trim_projected_cache]; a round removes an entry. *)
Fixpoint trim_loop (fuel : nat) (target : N) (w : World) : World :=
  match fuel with
  | O => w
  | S fuel =>
      if target <? N.of_nat (size (entries w)) then
        match oldest_idle w with None => w | Some k => trim_loop fuel target (with_entries w (delete k (entries w))) end
      else w
  end.
Definition trim_projected_cache (target : N) (w : World) : World := trim_loop (size (entries w)) target w.

(** The lock section that finds or makes the entry. *)
Definition enter_cache (t : N) (x : Ctx) (sel : SelectedCredential) (w : World) : World :=
  match entries w !! sel_key sel with
  | Some (id, _) =>
      with_callers (with_entries w (<[sel_key sel := (id, clock w)]> (entries w))) (<[t := mkCaller x sel (Checking id)]> (callers w))
  | None =>
      let w := trim_projected_cache (saturating_sub MAX_CREDENTIALS 1) w in
      let id := base.fresh (dom (heap w) : gset N) in
      with_callers (with_heap (with_entries w (<[sel_key sel := (id, clock w)]> (entries w)))
          (<[id := mkCacheState None None false]> (heap w)))
        (<[t := mkCaller x sel (Checking id)]> (callers w))
  end.

Definition goto (t : N) (c : Caller) (pc : Pc) (w : World) : World := with_callers w (<[t := mkCaller (c_ctx c) (c_sel c) pc]> (callers w)).

(** [notify_waiters]. *)
Definition wake (id : N) (c : Caller) : Caller :=
  match c_pc c with
  | Waiting id' => if bool_decide (id' = id) then mkCaller (c_ctx c) (c_sel c) (Checking id) else c
  | _ => c
  end.
Definition notify_waiters (id : N) (w : World) : World := with_callers w (wake id <$> callers w).

(** The state lock of [cached_projected_credential]. *)
Definition look (t id : N) (c : Caller) (w : World) : World :=
  match heap w !! id with
  | None => w
  | Some s =>
      if match loaded_at s with Some l => clock w - l <? PROJECTED_CACHE_TTL | None => false end
      then goto t c (Leaving id (match cached s with Some cred => Ok cred | None => Err CredentialUnavailable end)) w
      else if refreshing s then goto t c (Waiting id) w
      else goto t c (Refreshing id) (with_heap w (<[id := mkCacheState (loaded_at s) (cached s) true]> (heap w)))
  end.

(** [ProjectedRefreshGuard::complete]. *)
Definition complete (id : N) (r : result CredError ResolvedCredential) (w : World) : World :=
  notify_waiters id
    (with_heap w (<[id := mkCacheState (Some (clock w)) (match r with Ok c => Some c | Err _ => None end) false]> (heap w))).
(** [ProjectedRefreshGuard::drop] before completion. *)
Definition drop_guard (id : N) (w : World) : World :=
  notify_waiters id
    (with_heap w (alter (fun s => mkCacheState (loaded_at s) (cached s) false) id (heap w))).

(** * Steps *)

Inductive Action :=
| Request (t : N) (x : Ctx)
| Look (t : N)
| ReadFile (t : N) (fs : Fs)
| Complete (t : N)
| Release (t : N)
| Trim (t : N)
| Cancel (t : N)
| FileEvent (fs : Fs) (ev : FsEvent)
| Tick (now : N).

Inductive Event :=
| Read (t : N) (sel : SelectedCredential) (fs : Fs) (now : N)
| Published (t : N) (sel : SelectedCredential) (r : result CredError ResolvedCredential) (now : N)
| Used (t : N) (sel : SelectedCredential) (r : result CredError ResolvedCredential) (now : N)
| Answered (t : N) (x : Ctx) (snapshots : Snapshots) (a : Answer).

(** [on_request] up to its first suspension. *)
Definition request (t : N) (x : Ctx) (w : World) : World * list Event :=
  let f := filter_of w in
  let answer a := (w, [Answered t x (credentials f) a]) in
  match selected_credential_ref x with
  | None => answer (x, Ok Continue)
  | Some (Err _) => answer (reject x)
  | Some (Ok sel) =>
      match credentials f !! sel_ref sel with
      | Some None => answer (reject x)
      | Some (Some cred) => answer (inject f x sel cred)
      | None => match projected_credential_mount_base f with None => answer (reject x) | Some _ => (enter_cache t x sel w, []) end
      end
  end.

Definition finish (t : N) (c : Caller) (r : result CredError ResolvedCredential) (w : World) : World * list Event :=
  let w := trim_projected_cache MAX_CREDENTIALS w in
  let f := filter_of w in
  (with_callers w (delete t (callers w)),
   [Answered t (c_ctx c) (credentials f) (match r with Ok cred => inject f (c_ctx c) (c_sel c) cred | Err _ => reject (c_ctx c) end)]).

(** [None] when the action is not enabled. *)
Definition step (a : Action) (w : World) : option (World * list Event) :=
  match a with
  | Request t x => match callers w !! t with None => Some (request t x w) | Some _ => None end
  | Look t =>
      match callers w !! t with
      | Some c =>
          match c_pc c with
          | Checking id =>
              let w' := look t id c w in
              Some (w', match callers w' !! t with Some (mkCaller _ _ (Leaving _ r)) => [Used t (c_sel c) r (clock w)] | _ => [] end)
          | _ => None
          end
      | None => None
      end
  | ReadFile t fs =>
      match callers w !! t, projected_credential_mount_base (filter_of w) with
      | Some c, Some base =>
          match c_pc c with
          | Refreshing id => Some (goto t c (HasRead id (resolve_projected_credential fs base (c_sel c))) w, [Read t (c_sel c) fs (clock w)])
          | _ => None
          end
      | _, _ => None
      end
  | Complete t =>
      match callers w !! t with
      | Some c =>
          match c_pc c with
          | HasRead id r => Some (goto t c (Leaving id r) (complete id r w), [Published t (c_sel c) r (clock w); Used t (c_sel c) r (clock w)])
          | _ => None
          end
      | None => None
      end
  | Release t =>
      match callers w !! t with
      | Some c => match c_pc c with Leaving _ r => Some (goto t c (Trimming r) w, []) | _ => None end
      | None => None
      end
  | Trim t =>
      match callers w !! t with
      | Some c => match c_pc c with Trimming r => Some (finish t c r w) | _ => None end
      | None => None
      end
  | Cancel t =>
      match callers w !! t with
      | Some c =>
          match c_pc c with
          | Waiting _ => Some (with_callers w (delete t (callers w)), [])
          | Refreshing id | HasRead id _ => let w := drop_guard id w in Some (with_callers w (delete t (callers w)), [])
          | _ => None
          end
      | None => None
      end
  | FileEvent fs ev =>
      let f := filter_of w in
      Some (with_filter w (with_credentials f (process_watcher_event fs ev (watched f) (credentials f))), [])
  | Tick now => if clock w <=? now then Some (with_clock w now, []) else None
  end.

(** A run, with what it showed. *)
Inductive run (f : Filter) : World -> list Event -> Prop :=
| run_start : run f (world_new f) []
| run_step w log a w' es : run f w log -> step a w = Some (w', es) -> run f w' (log ++ es).
End Cache.
End Filter.
