(* ===== verification/CredentialInjectProps.v ===== *)
(** Properties of credential injection ([CredentialInject]): paths of projected
    secrets, the invariants of the configuration and of the cache under every
    interleaving, and what reaches the provider. *)

From S2P Require Import Prelude Utf8 MetaCodec RustStr HeaderPolicy Routing RouteFilter CredentialInject.
From Stdlib Require Import Strings.Byte Strings.Ascii.

Local Open Scope N_scope.

(** * Paths *)

Lemma split_on_app c a b : split_on c (a +:+ String c b) = split_on c a ++ split_on c b.
Proof.
  induction a as [|x a IH].
  - change ("" +:+ String c b) with (String c b). cbn. by rewrite bool_decide_eq_true_2.
  - rewrite str_app_cons. cbn [split_on]. rewrite IH. case_bool_decide; [done|].
    destruct (split_on c a) as [|p ps] eqn:E; [by apply split_on_ne in E|]. done.
Qed.

Lemma path_pieces_app first l l' : l <> [] -> path_pieces first (l ++ l') = path_pieces first l ++ path_pieces false l'.
Proof.
  revert first. induction l as [|p l IH]; intros first Hne; [done|]. cbn [app path_pieces]. rewrite <- app_assoc. f_equal.
  destruct l as [|q l]; [done|]. by apply IH.
Qed.

Definition no_slash (c : string) : Prop := split_on "/" c = [c].

Lemma chars_no_slash c : forallb (fun a => negb (bool_decide (a = "/"%char))) (String.list_ascii_of_string c) = true -> no_slash c.
Proof.
  unfold no_slash. induction c as [|a c IH]; [done|]. cbn. intros [Ha Hc]%andb_prop. rewrite IH by done.
  destruct (bool_decide (a = "/"%char)); done.
Qed.

Lemma safe_component_inv c : safe_component c = true ->
  no_slash c /\ c <> ""%string /\ c <> "."%string /\ c <> ".."%string /\ is_absolute c = false.
Proof.
  unfold safe_component. intros [[[H1 H2]%andb_prop H3]%andb_prop H4]%andb_prop.
  apply negb_true_iff, bool_decide_eq_false in H1. apply negb_true_iff, bool_decide_eq_false in H2.
  assert (no_slash c) as Hs.
  { apply chars_no_slash, forallb_forall. intros a Ha. apply negb_true_iff, bool_decide_eq_false. intros ->. apply negb_true_iff in H3.
    assert (existsb (fun a => bool_decide (a = "/"%char) || bool_decide (a = "\"%char) || bool_decide (a = "000"%char))
      (String.list_ascii_of_string c) = true) as E; [|congruence].
    apply existsb_exists. exists "/"%char. split; [done|reflexivity]. }
  split_and!; try done.
  - intros ->. by vm_compute in H4.
  - unfold is_absolute, starts_with. destruct c as [|a c]; [done|]. cbn [String.prefix]. destruct (ascii_dec "/" a) as [<-|Hn]; [|done].
    unfold no_slash in Hs. cbn in Hs. injection Hs as _ Hs. by apply split_on_ne in Hs.
Qed.

Lemma absolute_app p q : is_absolute p = true -> is_absolute (p +:+ q) = true.
Proof. unfold is_absolute, starts_with. destruct p as [|a p]; [done|]. rewrite str_app_cons. cbn [String.prefix]. destruct (ascii_dec "/" a); [|done]. by destruct (p +:+ q). Qed.

(** A safe component adds one component. *)
Lemma join_components base c : is_absolute base = true -> safe_component c = true ->
  components (path_join base c) = components base ++ [NormalComponent c] /\ is_absolute (path_join base c) = true.
Proof.
  intros Hb (Hs & He & Hd & Hdd & Ha)%safe_component_inv. unfold path_join. rewrite Ha.
  assert (path_pieces false (split_on "/" c) = [NormalComponent c]) as Hc.
  { rewrite Hs. cbn. by rewrite !bool_decide_eq_false_2. }
  assert (bool_decide (base = ""%string) = false) as -> by (apply bool_decide_eq_false; by intros ->). cbn [orb].
  destruct (ends_with base "/") eqn:Ew; (split; [|by apply absolute_app]); unfold components; rewrite absolute_app, Hb by done; cbn [app]; f_equal.
  - apply ends_with_inv in Ew as [b' ->]. rewrite str_app_assoc. change ("/" +:+ c)%string with (String "/" c).
    rewrite !split_on_app, !path_pieces_app, Hc by apply split_on_ne. change (path_pieces false (split_on "/" "")) with (@nil PathComponent).
    by rewrite app_nil_r.
  - change ("/" +:+ c)%string with (String "/" c). by rewrite split_on_app, path_pieces_app, Hc by apply split_on_ne.
Qed.

(** The path of a secret is below the root, one component for each field. *)
Lemma projected_path_components base r p : is_absolute base = true -> projected_credential_path base r = Ok p ->
  components p = components base ++ [NormalComponent (cr_namespace r); NormalComponent (cr_name r); NormalComponent (cr_key r)].
Proof.
  intros Hb. unfold projected_credential_path, check_component.
  destruct (validate_bounded "name" _ _) as [[]|]; [|done]. destruct (validate_bounded "namespace" _ _) as [[]|]; [|done].
  destruct (validate_bounded "key" _ _) as [[]|]; [|done].
  destruct (safe_component (cr_namespace r)) eqn:E1; [|done]. destruct (safe_component (cr_name r)) eqn:E2; [|done].
  destruct (safe_component (cr_key r)) eqn:E3; [|done]. intros [= <-].
  destruct (join_components base _ Hb E1) as [C1 A1]. destruct (join_components _ _ A1 E2) as [C2 A2].
  destruct (join_components _ _ A2 E3) as [C3 _]. rewrite C3, C2, C1. by rewrite <- !app_assoc.
Qed.

Lemma component_prefix_app l l' : component_prefix l (l ++ l') = true.
Proof. induction l as [|c l IH]; [done|]. cbn. by rewrite bool_decide_eq_true_2. Qed.

(** * Configured credentials *)

Section Config.
Context `{HeaderSyntax}.

(** A credential that may be injected: its header is stripped from the client's
    request, and is the one its strategy uses. *)
Record injectable (headers : list string) (c : ResolvedCredential) : Prop := mkInjectable {
  in_stripped : header_name c ∈ headers;
  in_ok : header_value_ok (header_value c) = true;
  in_token : exists token, validate_token token = Ok tt /\ header_value c = assemble_header_value (rc_strategy c) token;
  in_header : (rc_strategy c = STRATEGY_BEARER_TOKEN /\ header_name c = AUTHORIZATION) \/
    (rc_strategy c = STRATEGY_APIKEY /\ header_name c <> AUTHORIZATION /\
     is_transport_controlled_header_lowercase (header_name c) = false)
}.

Definition snapshots_ok (headers : list string) (m : Snapshots) : Prop := forall r c, m !! r = Some (Some c) -> injectable headers c.
(** A watched file keeps the header and the strategy of its entry. *)
Definition watched_ok (headers : list string) (m : Snapshots) (w : WatchedCredential) : Prop :=
  w_header w ∈ headers /\ is_Some (m !! w_ref w) /\
  ((w_strategy w = STRATEGY_BEARER_TOKEN /\ w_header w = AUTHORIZATION) \/
   (w_strategy w = STRATEGY_APIKEY /\ w_header w <> AUTHORIZATION /\ is_transport_controlled_header_lowercase (w_header w) = false)).

Record filter_ok (f : Filter) : Prop := mkFilterOk {
  fo_base_headers : AUTHORIZATION ∈ credential_headers f /\ DEFAULT_APIKEY_HEADER ∈ credential_headers f;
  fo_snapshots : snapshots_ok (credential_headers f) (credentials f);
  fo_watched : forall w, w ∈ watched f -> watched_ok (credential_headers f) (credentials f) w;
  fo_base : forall base, projected_credential_mount_base f = Some base -> is_absolute base = true
}.

Lemma header_name_shape e h : is_supported_strategy (e_strategy e) = true -> resolve_header_name e = Ok h ->
  (strategy_label (e_strategy e) = STRATEGY_BEARER_TOKEN /\ h = AUTHORIZATION) \/
  (strategy_label (e_strategy e) = STRATEGY_APIKEY /\ h <> AUTHORIZATION /\ is_transport_controlled_header_lowercase h = false).
Proof.
  intros _. unfold resolve_header_name, strategy_label. case_bool_decide as Es.
  - destruct (e_header e); [done|]. intros [= <-]. by left.
  - destruct (e_header e) as [raw|].
    + destruct (validate_bounded "header" raw _) as [[]|]; [|done]. destruct (parse_header_name raw) as [n|]; [|done].
      destruct (existsb _ _); [done|]. case_bool_decide as En; [done|].
      destruct (is_transport_controlled_header_lowercase n) eqn:Et; [done|]. intros [= <-]. by right.
    + intros [= <-]. right. split_and!; try done.
Qed.

Lemma assembled_injectable headers strategy h token :
  h ∈ headers -> validate_token token = Ok tt -> header_value_ok (assemble_header_value strategy token) = true ->
  (strategy = STRATEGY_BEARER_TOKEN /\ h = AUTHORIZATION) \/
  (strategy = STRATEGY_APIKEY /\ h <> AUTHORIZATION /\ is_transport_controlled_header_lowercase h = false) ->
  injectable headers (mkResolved strategy h (assemble_header_value strategy token)).
Proof. intros Hh Ht Hv Hs. split; cbn; eauto. Qed.

Lemma file_credential_injectable headers fs path strategy h c :
  h ∈ headers -> (strategy = STRATEGY_BEARER_TOKEN /\ h = AUTHORIZATION) \/
  (strategy = STRATEGY_APIKEY /\ h <> AUTHORIZATION /\ is_transport_controlled_header_lowercase h = false) ->
  resolve_file_credential fs path strategy h = Ok c -> injectable headers c /\ rc_strategy c = strategy.
Proof.
  intros Hh Hs. unfold resolve_file_credential. destruct (read_projected_token fs path) as [token|]; [|done].
  destruct (validate_token token) as [[]|] eqn:Et; [|done]. destruct (header_value_ok _) eqn:Ev; [|done]. intros [= <-].
  split; [by apply assembled_injectable|done].
Qed.

Lemma injectable_mono headers headers' c : (forall h, h ∈ headers -> h ∈ headers') -> injectable headers c -> injectable headers' c.
Proof. intros Hs [H1 H2 H3 H4]. split; auto. Qed.

Lemma add_entry_ok env fs f e f' : filter_ok f -> add_entry env fs f e = Ok f' -> filter_ok f'.
Proof.
  intros [F1 F2 F3 F4]. unfold add_entry, validate_strategy. destruct (is_supported_strategy (e_strategy e)) eqn:Es; [|done].
  destruct (validate_credential_ref e) as [[]|]; [|done]. destruct (resolve_header_name e) as [h|] eqn:Eh; [|done].
  pose proof (header_name_shape e h Es Eh) as Hh. set (headers := if bool_decide (h ∈ credential_headers f) then _ else _).
  assert ((forall n, n ∈ credential_headers f -> n ∈ headers) /\ h ∈ headers) as [Hsub Hin].
  { subst headers. case_bool_decide; [done|]. split; [intros n Hn; apply elem_of_app; by left|]. apply elem_of_app. right. by left. }
  set (res := match e_value e with Some _ => _ | None => _ end).
  assert (forall c, res = Ok c -> injectable headers c) as Hres.
  { intros c. subst res. assert (resolve_credential env fs e (strategy_label (e_strategy e)) h = Ok c -> injectable headers c) as Hr.
    { unfold resolve_credential. destruct (resolve_token env fs e) as [token|]; [|done]. destruct (validate_token token) as [[]|] eqn:Et; [|done].
      destruct (header_value_ok _) eqn:Ev; [|done]. intros [= <-]. by apply assembled_injectable. }
    destruct (e_value e), (e_env_var e), (e_file e) as [path|]; try exact Hr.
    destruct (validate_bounded "file" path _) as [[]|]; [|done]. intros Hf. by eapply file_credential_injectable in Hf as [Hf _]. }
  destruct res as [c|]; [|done]. specialize (Hres c eq_refl). destruct (credentials f !! entry_ref e) eqn:Ed; [done|]. intros [= <-].
  split; cbn.
  - destruct F1. split; auto.
  - intros r c' [[<- [= ->]]|[_ Hr]]%lookup_insert_Some; [done|]. eapply injectable_mono; [exact Hsub|by eapply F2].
  - intros w [Hw|Hw]%elem_of_app.
    + destruct (F3 w Hw) as (W1 & W2 & W3). split_and!; [auto| |done]. rewrite lookup_insert_ne; [done|]. intros Ee. rewrite <- Ee, Ed in W2. by destruct W2.
    + destruct (e_file e) as [path|]; [|by apply elem_of_nil in Hw]. apply list_elem_of_singleton in Hw as ->. split_and!; cbn; [done| |done].
      rewrite lookup_insert_eq. eauto.
  - done.
Qed.

Lemma add_entries_ok env fs es f f' : filter_ok f -> add_entries env fs es f = Ok f' -> filter_ok f'.
Proof.
  revert f. induction es as [|e es IH]; intros f Hf; cbn [add_entries]; [by intros [= <-]|].
  destruct (add_entry env fs f e) as [f1|] eqn:E; [|done]. apply IH. by eapply add_entry_ok.
Qed.

(** Replacing the snapshot of a watched file keeps the filter right. *)
Lemma store_ok f w c : filter_ok f -> w ∈ watched f -> (forall c', c = Some c' -> injectable (credential_headers f) c') ->
  filter_ok (with_credentials f (<[w_ref w := c]> (credentials f))).
Proof.
  intros [F1 F2 F3 F4] Hw Hc. split; cbn; try done.
  - intros r c' [[<- ->]|[_ Hr]]%lookup_insert_Some; [by apply Hc|by eapply F2].
  - intros w' Hw'. destruct (F3 w' Hw') as (W1 & W2 & W3). split_and!; try done.
    destruct (decide (w_ref w = w_ref w')) as [->|]; [rewrite lookup_insert_eq; eauto|by rewrite lookup_insert_ne].
Qed.

Lemma reload_ok fs f w : filter_ok f -> w ∈ watched f -> filter_ok (with_credentials f (reload_credential fs (credentials f) w)).
Proof.
  intros Hf Hw. apply store_ok; [done|done|]. intros c'. destruct (fo_watched f Hf w Hw) as (W1 & _ & W3).
  destruct (resolve_file_credential _ _ _ _) as [c|] eqn:E; [|done]. intros [= ->]. by eapply file_credential_injectable in E as [E _].
Qed.

Lemma foldl_reload_ok (g : Snapshots -> WatchedCredential -> Snapshots) ws f :
  (forall f w, filter_ok f -> w ∈ watched f -> filter_ok (with_credentials f (g (credentials f) w))) ->
  filter_ok f -> (forall w, w ∈ ws -> w ∈ watched f) -> filter_ok (with_credentials f (foldl g (credentials f) ws)).
Proof.
  intros Hg. revert f. induction ws as [|w ws IH]; intros f Hf Hws; cbn; [by destruct f|].
  specialize (IH (with_credentials f (g (credentials f) w))). cbn in IH. apply IH; [apply Hg; [done|]|]; intros; apply Hws; by constructor.
Qed.

Lemma watcher_event_ok fs ev f : filter_ok f -> filter_ok (with_credentials f (process_watcher_event fs ev (watched f) (credentials f))).
Proof.
  intros Hf. unfold process_watcher_event, reload_all_credentials. destruct (need_rescan ev || _); [|destruct (negb _)].
  - apply foldl_reload_ok; [|done|done]. intros. by apply reload_ok.
  - by destruct f.
  - apply (foldl_reload_ok (fun m w => if affected ev w then reload_credential fs m w else m)); [|done|done].
    intros f' w Hf' Hw. destruct (affected ev w); [by apply reload_ok|by destruct f'].
Qed.

Lemma initial_reads_ok fs ws f l : filter_ok f -> (forall w, w ∈ ws -> w ∈ watched f) -> authoritative_reads fs ws = Ok l ->
  filter_ok (with_credentials f (foldl (fun m rc => <[rc.1 := Some rc.2]> m) (credentials f) l)).
Proof.
  revert f l. induction ws as [|w ws IH]; intros f l Hf Hws; cbn [authoritative_reads]; [intros [= <-]; by destruct f|].
  destruct (resolve_file_credential _ _ _ _) as [c|] eqn:E; [|done]. destruct (authoritative_reads fs ws) as [rest|] eqn:Er; [|done]. intros [= <-].
  assert (w ∈ watched f) as Hw by (apply Hws; by left). destruct (fo_watched f Hf w Hw) as (W1 & _ & W3).
  eapply file_credential_injectable in E as [Hc _]; [|done..]. cbn [foldl fst snd].
  specialize (IH (with_credentials f (<[w_ref w := Some c]> (credentials f))) rest). cbn in IH.
  apply IH; [apply store_ok; [done..|by intros c' [= <-]]| |done].
  intros w' Hw'. apply Hws. by right.
Qed.

Lemma from_config_ok env fs fs' live cfg f : from_config env fs fs' live cfg = Ok f -> filter_ok f.
Proof.
  unfold from_config. destruct (_ <? _); [done|]. destruct (_ && _); [done|].
  destruct (match cfg_mount_base cfg with Some _ => _ | None => _ end) as [[]|] eqn:Eb; [|done].
  set (f0 := mkFilter _ _ _ _). destruct (add_entries env fs (cfg_credentials cfg) f0) as [f1|] eqn:Ea; [|done].
  assert (filter_ok f0) as H0.
  { subst f0. split; cbn; [split; repeat constructor|done|by intros w Hw%elem_of_nil|]. intros base Hb. rewrite Hb in Eb.
    unfold validate_projected_mount_base in Eb. by destruct (is_absolute base). }
  pose proof (add_entries_ok _ _ _ _ _ H0 Ea) as H1. case_bool_decide; [by intros [= <-]|]. unfold spawn_credential_watcher.
  destruct live; [|done]. cbn [negb]. destruct (authoritative_reads fs' (watched f1)) as [l|] eqn:Er; [|done]. intros [= <-].
  by eapply initial_reads_ok.
Qed.
End Config.

(** * The projected cache *)

Section Cache.
Context `{HeaderSyntax} `{!HashOrder Key}.

(** ** Trimming *)

Lemma min_by_use_elem l e : min_by_use l = Some e -> e ∈ l.
Proof.
  revert e. induction l as [|a l IH]; intros e; cbn; [done|]. destruct (min_by_use l) as [e'|]; [|intros [= <-]; by left].
  destruct (_ <? _); intros [= <-]; [right; by apply IH|by left].
Qed.

Lemma oldest_idle_spec w k : oldest_idle w = Some k -> exists id u, entries w !! k = Some (id, u) /\ idle w id = true.
Proof.
  unfold oldest_idle. intros ([k' [id u]] & Hm & ->)%fmap_Some. apply min_by_use_elem in Hm. cbn.
  apply list_elem_of_In, filter_In in Hm as [Hin Hi]. apply list_elem_of_In in Hin. rewrite hash_iter_perm in Hin.
  apply elem_of_map_to_list in Hin. eauto.
Qed.

(** Only entries nobody holds are dropped. *)
Definition trimmed (w w' : World) : Prop :=
  w' = with_entries w (entries w') /\ entries w' ⊆ entries w /\
  forall k id u, entries w !! k = Some (id, u) -> idle w id = false -> entries w' !! k = Some (id, u).

Lemma trim_trimmed target w : trimmed w (trim_projected_cache target w).
Proof.
  unfold trim_projected_cache. generalize (size (entries w)) as fuel. intros fuel. revert w.
  induction fuel as [|fuel IH]; intros w; cbn; [by destruct w|]. destruct (_ <? _); [|by destruct w].
  destruct (oldest_idle w) as [k|] eqn:E; [|by destruct w]. apply oldest_idle_spec in E as (id & u & Hk & Hi).
  destruct (IH (with_entries w (delete k (entries w)))) as (E1 & E2 & E3). cbn in *. split_and!.
  - rewrite E1. done.
  - etrans; [exact E2|apply delete_subseteq].
  - intros k' id' u' Hk' Hi'. apply E3; [|done]. rewrite lookup_delete_ne; [done|]. intros ->. congruence.
Qed.

Lemma held_not_idle w t c id : callers w !! t = Some c -> held c = Some id -> idle w id = false.
Proof. intros Hc Hh. unfold idle. apply bool_decide_eq_false. intros Hf. by apply (Hf t c Hc). Qed.

(** ** Entries *)

(** Whoever holds an entry holds the one of its key. *)
Record entries_ok (w : World) : Prop := mkEntriesOk {
  eo_held : forall t c id, callers w !! t = Some c -> held c = Some id -> exists u, entries w !! sel_key (c_sel c) = Some (id, u);
  eo_ids : forall k k' id u u', entries w !! k = Some (id, u) -> entries w !! k' = Some (id, u') -> k = k';
  eo_heap : forall k id u, entries w !! k = Some (id, u) -> is_Some (heap w !! id)
}.

Lemma entries_ok_trim w w' : entries_ok w -> trimmed w w' -> entries_ok w'.
Proof.
  intros [E1 E2 E3] (Ew & Hs & Hk). assert (callers w' = callers w /\ heap w' = heap w) as [Ec Eh] by (rewrite Ew; done). split.
  - rewrite Ec. intros t c id Hc Hh. destruct (E1 t c id Hc Hh) as [u Hu]. exists u. eapply Hk; [done|]. by eapply held_not_idle.
  - intros k k' id u u' H1 H2. eapply E2; by eapply lookup_weaken.
  - rewrite Eh. intros k id u H1. eapply E3. by eapply lookup_weaken.
Qed.

(** A change of callers that leaves what they hold. *)
Lemma entries_ok_callers w cs : entries_ok w ->
  (forall t c id, cs !! t = Some c -> held c = Some id -> exists t' c', callers w !! t' = Some c' /\ held c' = Some id /\ c_sel c' = c_sel c) ->
  entries_ok (with_callers w cs).
Proof.
  intros [E1 E2 E3] Hcs. split; cbn; [|done..]. intros t c id Hc Hh. destruct (Hcs t c id Hc Hh) as (t' & c' & Hc' & Hh' & <-). by eapply E1.
Qed.

Lemma entries_ok_heap w h : entries_ok w -> (forall id, is_Some (heap w !! id) -> is_Some (h !! id)) -> entries_ok (with_heap w h).
Proof. intros [E1 E2 E3] Hh. split; cbn; [done..|]. intros k id u Hk. eauto. Qed.

Lemma held_wake id c : held (wake id c) = held c.
Proof. unfold held, wake. destruct (c_pc c) eqn:E; rewrite ?E; try done. case_bool_decide; cbn; [by subst|]. by rewrite E. Qed.
Lemma sel_wake id c : c_sel (wake id c) = c_sel c.
Proof. unfold wake. destruct (c_pc c); try done. by case_bool_decide. Qed.

Lemma entries_ok_notify id w : entries_ok w -> entries_ok (notify_waiters id w).
Proof.
  intros Hw. apply entries_ok_callers; [done|]. intros t c id' Hc Hh. rewrite lookup_fmap in Hc.
  destruct (callers w !! t) as [c0|] eqn:E; [|done]. injection Hc as <-. rewrite held_wake in Hh. exists t, c0. by rewrite sel_wake.
Qed.

Lemma entries_ok_goto t c pc w : entries_ok w -> callers w !! t = Some c -> (forall id, held (mkCaller (c_ctx c) (c_sel c) pc) = Some id -> held c = Some id) ->
  entries_ok (goto t c pc w).
Proof.
  intros Hw Hc Hpc. apply entries_ok_callers; [done|]. intros t' c' id [[<- <-]|[_ Hc']]%lookup_insert_Some Hh; [|by exists t', c'].
  exists t, c. split_and!; [done|by apply Hpc|done].
Qed.

Lemma entries_ok_delete t w : entries_ok w -> entries_ok (with_callers w (delete t (callers w))).
Proof. intros Hw. apply entries_ok_callers; [done|]. intros t' c id [_ Hc]%lookup_delete_Some Hh. by exists t', c. Qed.

Lemma fresh_id w : heap w !! base.fresh (dom (heap w) : gset N) = None.
Proof. apply not_elem_of_dom. apply is_fresh. Qed.

Lemma entries_ok_enter t x sel w : entries_ok w -> entries_ok (enter_cache t x sel w).
Proof.
  intros Hw. unfold enter_cache. destruct (entries w !! sel_key sel) as [[id u]|] eqn:E.
  - destruct Hw as [E1 E2 E3]. split; cbn.
    + intros t' c id' [[<- <-]|[_ Hc]]%lookup_insert_Some Hh; cbn.
      * injection Hh as <-. exists (clock w). by rewrite lookup_insert_eq.
      * destruct (E1 t' c id' Hc Hh) as [u' Hu']. destruct (decide (sel_key (c_sel c) = sel_key sel)) as [Ek|Hk].
        -- rewrite Ek in *. rewrite lookup_insert_eq. exists (clock w). congruence.
        -- exists u'. by rewrite lookup_insert_ne.
    + intros k k' id' u1 u2 [[<- [= <- <-]]|[Hk1 H1]]%lookup_insert_Some [[<- [= <-]]|[Hk2 H2]]%lookup_insert_Some; try done; by eapply E2.
    + intros k id' u' [[<- [= <- <-]]|[_ H1]]%lookup_insert_Some; by eapply E3.
  - set (w1 := trim_projected_cache _ w). pose proof (entries_ok_trim w w1 Hw (trim_trimmed _ w)) as [E1 E2 E3].
    destruct (trim_trimmed (saturating_sub MAX_CREDENTIALS 1) w) as (_ & Hs & _). fold w1 in Hs. set (id := base.fresh _).
    assert (heap w1 !! id = None) as Hid by apply fresh_id.
    assert (entries w1 !! sel_key sel = None) as Hn.
    { destruct (entries w1 !! sel_key sel) eqn:E'; [|done]. by rewrite (lookup_weaken _ _ _ _ E' Hs) in E. }
    assert (forall k u, entries w1 !! k = Some (id, u) -> False) as Hnew. { intros k u Hk. destruct (E3 k id u Hk) as [s Hs']. congruence. }
    split; cbn.
    + intros t' c id' [[<- <-]|[_ Hc]]%lookup_insert_Some Hh; cbn.
      * injection Hh as <-. exists (clock w1). by rewrite lookup_insert_eq.
      * destruct (E1 t' c id' Hc Hh) as [u' Hu']. exists u'. rewrite lookup_insert_ne; [done|]. intros Ek. rewrite <- Ek in Hu'. congruence.
    + intros k k' id' u1 u2 [[<- [= <- <-]]|[Hk1 H1]]%lookup_insert_Some [[<- Hx]|[Hk2 H2]]%lookup_insert_Some; try done.
      * by destruct (Hnew k' u2).
      * injection Hx as <- <-. by destruct (Hnew k u1).
      * by eapply E2.
    + intros k id' u' [[<- [= <- <-]]|[_ H1]]%lookup_insert_Some; [by rewrite lookup_insert_eq|].
      destruct (decide (id = id')) as [->|]; [rewrite lookup_insert_eq; eauto|]. rewrite lookup_insert_ne by done. by eapply E3.
Qed.

(** ** One refresh at a time *)

(** The entry whose file a caller reads. *)
Definition reading (c : Caller) : option N := match c_pc c with Refreshing id | HasRead id _ => Some id | _ => None end.
Definition waiting (c : Caller) : option N := match c_pc c with Waiting id => Some id | _ => None end.

Record flags_ok (w : World) : Prop := mkFlagsOk {
  fl_read : forall t c id, callers w !! t = Some c -> reading c = Some id -> exists s, heap w !! id = Some s /\ refreshing s = true;
  fl_flag : forall id s, heap w !! id = Some s -> refreshing s = true -> exists t c, callers w !! t = Some c /\ reading c = Some id;
  fl_one : forall t t' c c' id, callers w !! t = Some c -> callers w !! t' = Some c' -> reading c = Some id -> reading c' = Some id -> t = t';
  fl_wait : forall t c id, callers w !! t = Some c -> waiting c = Some id -> exists s, heap w !! id = Some s /\ refreshing s = true
}.

(** Callers move, but the same ones read. *)
Lemma flags_callers w cs : flags_ok w ->
  (forall t id, (exists c, cs !! t = Some c /\ reading c = Some id) <-> (exists c, callers w !! t = Some c /\ reading c = Some id)) ->
  (forall t c id, cs !! t = Some c -> waiting c = Some id ->
     (exists c0, callers w !! t = Some c0 /\ waiting c0 = Some id) \/ exists s, heap w !! id = Some s /\ refreshing s = true) ->
  flags_ok (with_callers w cs).
Proof.
  intros [F1 F2 F3 F4] Hr Hw. split; cbn.
  - intros t c id Hc Hi. destruct (proj1 (Hr t id)) as (c0 & Hc0 & Hi0); [by exists c|]. by eapply F1.
  - intros id s0 Hh Hs. destruct (F2 id s0 Hh Hs) as (t & c & Hc & Hi). exists t. apply Hr. by exists c.
  - intros t t' c c' id Hc Hc' Hi Hi'. destruct (proj1 (Hr t id)) as (c0 & Hc0 & Hi0); [by exists c|].
    destruct (proj1 (Hr t' id)) as (c1 & Hc1 & Hi1); [by exists c'|]. by eapply F3.
  - intros t c id Hc Hi. destruct (Hw t c id Hc Hi) as [(c0 & Hc0 & Hi0)|Hs]; [by eapply F4|done].
Qed.

Lemma flags_goto t c c' w : flags_ok w -> callers w !! t = Some c \/ (callers w !! t = None /\ reading c = None) -> reading c' = reading c ->
  (forall id, waiting c' = Some id -> exists s, heap w !! id = Some s /\ refreshing s = true) ->
  flags_ok (with_callers w (<[t := c']> (callers w))).
Proof.
  intros Hf Hc Hr Hw. apply flags_callers; [done|..].
  - intros t' id. destruct (decide (t = t')) as [->|Hne]; [|by rewrite lookup_insert_ne]. rewrite lookup_insert_eq. split.
    + intros (c1 & [= <-] & Hi). destruct Hc as [Hc|[Hc Hn]]; [|congruence]. exists c. by rewrite <- Hr.
    + intros (c1 & Hc1 & Hi). exists c'. split; [done|]. destruct Hc as [Hc|[Hc _]]; congruence.
  - intros t' c1 id [[<- <-]|[_ Hc1]]%lookup_insert_Some Hi; [right; by apply Hw|left; eauto].
Qed.

Lemma flags_delete t c w : flags_ok w -> callers w !! t = Some c -> reading c = None -> flags_ok (with_callers w (delete t (callers w))).
Proof.
  intros Hf Hc Hr. apply flags_callers; [done|..].
  - intros t' id. destruct (decide (t = t')) as [->|Hne]; [|by rewrite lookup_delete_ne]. rewrite lookup_delete_eq, Hc. split; [by intros (? & ? & _)|].
    intros (c1 & [= <-] & Hi). congruence.
  - intros t' c1 id [_ Hc1]%lookup_delete_Some Hi. left; eauto.
Qed.

Lemma reading_wake id c : reading (wake id c) = reading c.
Proof. unfold reading, wake. destruct (c_pc c) eqn:E; rewrite ?E; try done. case_bool_decide; cbn; [done|]. by rewrite E. Qed.
Lemma waiting_wake id id' c : waiting (wake id c) = Some id' -> waiting c = Some id' /\ id' <> id.
Proof. unfold waiting, wake. destruct (c_pc c) eqn:E; rewrite ?E; try done. case_bool_decide; cbn; [done|]. rewrite E. by intros [= <-]. Qed.

(** The reader of an entry is done with it. *)
Lemma flags_release t c id s cs w : flags_ok w -> callers w !! t = Some c -> reading c = Some id -> refreshing s = false ->
  (forall t' c', cs !! t' = Some c' -> (t' = t /\ reading c' = None /\ waiting c' = None) \/
     (t' <> t /\ exists c0, callers w !! t' = Some c0 /\ c' = wake id c0)) ->
  (forall t' c0, t' <> t -> callers w !! t' = Some c0 -> cs !! t' = Some (wake id c0)) ->
  flags_ok (with_callers (with_heap w (<[id := s]> (heap w))) cs).
Proof.
  intros [F1 F2 F3 F4] Hc Hr Hs H1 H2.
  assert (forall t' c' id', cs !! t' = Some c' -> reading c' = Some id' -> exists c0, t' <> t /\ callers w !! t' = Some c0 /\ reading c0 = Some id' /\ id' <> id) as Hread.
  { intros t' c' id' Hc' Hi'. destruct (H1 t' c' Hc') as [(_ & Hn & _)|(Hne & c0 & Hc0 & ->)]; [congruence|]. rewrite reading_wake in Hi'.
    exists c0. split_and!; try done. intros ->. by apply Hne, (F3 t' t c0 c id). }
  split; cbn.
  - intros t' c' id' Hc' Hi'. destruct (Hread t' c' id' Hc' Hi') as (c0 & _ & Hc0 & Hi0 & Hne). rewrite lookup_insert_ne by done. by eapply F1.
  - intros id' s' [[<- <-]|[Hne Hh]]%lookup_insert_Some Hs'; [congruence|]. destruct (F2 id' s' Hh Hs') as (t' & c0 & Hc0 & Hi0).
    destruct (decide (t' = t)) as [->|Hnt]; [congruence|]. exists t', (wake id c0). rewrite reading_wake. by rewrite (H2 t' c0).
  - intros t1 t2 c1 c2 id' Hc1 Hc2 Hi1 Hi2. destruct (Hread _ _ _ Hc1 Hi1) as (? & _ & ? & ? & _). destruct (Hread _ _ _ Hc2 Hi2) as (? & _ & ? & ? & _).
    by eapply F3.
  - intros t' c' id' Hc' Hi'. destruct (H1 t' c' Hc') as [(_ & _ & Hn)|(Hne & c0 & Hc0 & ->)]; [congruence|].
    apply waiting_wake in Hi' as [Hi' Hd]. rewrite lookup_insert_ne by done. by eapply F4.
Qed.

(** A caller starts to read. *)
Lemma flags_refresh t c id s w : flags_ok w -> callers w !! t = Some c -> reading c = None -> heap w !! id = Some s -> refreshing s = false ->
  flags_ok (goto t c (Refreshing id) (with_heap w (<[id := mkCacheState (loaded_at s) (cached s) true]> (heap w)))).
Proof.
  intros [F1 F2 F3 F4] Hc Hr Hh Hs.
  assert (forall t' c', callers w !! t' = Some c' -> reading c' = Some id -> False) as Hno.
  { intros t' c' Hc' Hi'. destruct (F1 t' c' id Hc' Hi') as (s' & Hh' & Hs'). congruence. }
  split; cbn.
  - intros t' c' id' [[<- <-]|[_ Hc']]%lookup_insert_Some Hi'; [injection Hi' as <-; rewrite lookup_insert_eq; eauto|].
    destruct (decide (id = id')) as [->|]; [by destruct (Hno t' c')|]. rewrite lookup_insert_ne by done. by eapply F1.
  - intros id' s' [[<- <-]|[Hne Hh']]%lookup_insert_Some Hs'; [exists t; eexists; by rewrite lookup_insert_eq|].
    destruct (F2 id' s' Hh' Hs') as (t' & c' & Hc' & Hi'). exists t', c'. split; [|done]. rewrite lookup_insert_ne; [done|]. intros ->. congruence.
  - intros t1 t2 c1 c2 id' [[<- <-]|[_ Hc1]]%lookup_insert_Some [[<- <-]|[_ Hc2]]%lookup_insert_Some Hi1 Hi2; try done.
    + injection Hi1 as <-. by destruct (Hno t2 c2).
    + injection Hi2 as <-. by destruct (Hno t1 c1).
    + by eapply F3.
  - intros t' c' id' [[<- <-]|[_ Hc']]%lookup_insert_Some Hi'; [done|]. destruct (decide (id = id')) as [->|]; [rewrite lookup_insert_eq; eauto|].
    rewrite lookup_insert_ne by done. by eapply F4.
Qed.

Lemma flags_same w w' : callers w' = callers w -> heap w' = heap w -> flags_ok w -> flags_ok w'.
Proof. intros Ec Eh [F1 F2 F3 F4]. split; rewrite ?Ec, ?Eh; done. Qed.
Lemma entries_same w w' : callers w' = callers w -> heap w' = heap w -> entries w' = entries w -> entries_ok w -> entries_ok w'.
Proof. intros Ec Eh Ee [E1 E2 E3]. split; rewrite ?Ec, ?Eh, ?Ee; done. Qed.

Lemma flags_new id s w : flags_ok w -> heap w !! id = None -> refreshing s = false -> flags_ok (with_heap w (<[id := s]> (heap w))).
Proof.
  intros [F1 F2 F3 F4] Hn Hs. split; cbn.
  - intros t c id' Hc Hi. destruct (F1 t c id' Hc Hi) as (s' & Hh & Hr). exists s'. rewrite lookup_insert_ne; [done|]. intros ->. congruence.
  - intros id' s' [[<- <-]|[_ Hh]]%lookup_insert_Some Hr; [congruence|by eapply F2].
  - done.
  - intros t c id' Hc Hi. destruct (F4 t c id' Hc Hi) as (s' & Hh & Hr). exists s'. rewrite lookup_insert_ne; [done|]. intros ->. congruence.
Qed.

Lemma alter_lookup {A} (g : A -> A) (i : N) (m : gmap N A) x : m !! i = Some x -> alter g i m = <[i := g x]> m.
Proof.
  intros Hi. apply map_eq. intros j. destruct (decide (i = j)) as [->|]; [by rewrite lookup_alter_eq, lookup_insert_eq, Hi|].
  by rewrite lookup_alter_ne, lookup_insert_ne.
Qed.

Definition shape_ok (w : World) : Prop := entries_ok w /\ flags_ok w.

Lemma enter_shape t x sel w : shape_ok w -> callers w !! t = None -> shape_ok (enter_cache t x sel w).
Proof.
  intros [He Hf] Ht. split; [by apply entries_ok_enter|]. unfold enter_cache. destruct (entries w !! sel_key sel) as [[id u]|].
  - apply (flags_same (with_callers w (<[t := mkCaller x sel (Checking id)]> (callers w)))); [done..|].
    apply (flags_goto t (mkCaller x sel (Checking id))); [done|by right|done|done].
  - set (w1 := trim_projected_cache _ w). destruct (trim_trimmed (saturating_sub MAX_CREDENTIALS 1) w) as (Ew & _ & _). fold w1 in Ew.
    set (id := base.fresh _). set (w2 := with_heap w1 (<[id := mkCacheState None None false]> (heap w1))).
    assert (flags_ok w2) as Hf2.
    { apply flags_new; [|apply fresh_id|done]. apply (flags_same w); [by rewrite Ew..|done]. }
    apply (flags_same (with_callers w2 (<[t := mkCaller x sel (Checking id)]> (callers w2)))); [done..|].
    apply (flags_goto t (mkCaller x sel (Checking id))); [done|right|done|done]. split; [|done]. change (callers w2) with (callers w1). by rewrite Ew.
Qed.

Lemma look_shape t id c w : shape_ok w -> callers w !! t = Some c -> c_pc c = Checking id -> shape_ok (look t id c w).
Proof.
  intros [He Hf] Hc Hp. unfold look. destruct (heap w !! id) as [s0|] eqn:Eh; [|done]. assert (reading c = None) as Hr by (unfold reading; by rewrite Hp).
  assert (held c = Some id) as Hh by (unfold held; by rewrite Hp).
  destruct (match loaded_at s0 with Some _ => _ | None => _ end); [|destruct (refreshing s0) eqn:Es].
  - split; [apply entries_ok_goto; [done|done|by intros id' [= <-]]|]. eapply flags_goto; [done|by left|by rewrite Hr|done].
  - split; [apply entries_ok_goto; [done|done|by intros id' [= <-]]|]. eapply flags_goto; [done|by left|by rewrite Hr|]. intros id' [= <-]. eauto.
  - split; [|by apply flags_refresh].
    apply entries_ok_goto; [|done|by intros id' [= <-]]. apply entries_ok_heap; [done|]. intros id' Hid.
    destruct (decide (id = id')) as [->|]; [rewrite lookup_insert_eq; eauto|by rewrite lookup_insert_ne].
Qed.

Lemma heap_insert_some (h : gmap N CacheState) id s0 id' : is_Some (h !! id') -> is_Some (<[id := s0]> h !! id').
Proof. intros Hi. destruct (decide (id = id')) as [->|]; [rewrite lookup_insert_eq; eauto|by rewrite lookup_insert_ne]. Qed.

Lemma complete_shape t id r c w : shape_ok w -> callers w !! t = Some c -> c_pc c = HasRead id r -> shape_ok (goto t c (Leaving id r) (complete id r w)).
Proof.
  intros [He Hf] Hc Hp. unfold complete. set (s' := mkCacheState _ _ _). split.
  - apply (entries_ok_callers (with_heap w (<[id := s']> (heap w)))); [apply entries_ok_heap; [done|]; intros id'; apply heap_insert_some|].
    intros t' c' id' [[<- <-]|[_ Hc']]%lookup_insert_Some Hh.
    + exists t, c. split_and!; [done| |done]. injection Hh as <-. unfold held. by rewrite Hp.
    + cbn in Hc'. rewrite lookup_fmap in Hc'. destruct (callers w !! t') as [c0|] eqn:E0; [|done]. injection Hc' as <-.
      rewrite held_wake in Hh. exists t', c0. by rewrite sel_wake.
  - apply (flags_release t c id s' (<[t := mkCaller (c_ctx c) (c_sel c) (Leaving id r)]> (wake id <$> callers w)) w Hf Hc);
      [unfold reading; by rewrite Hp|done|..].
    + intros t' c' [[<- <-]|[Hne Hc']]%lookup_insert_Some; [by left|right]. split; [done|]. rewrite lookup_fmap in Hc'.
      destruct (callers w !! t') as [c0|]; [|done]. injection Hc' as <-. eauto.
    + intros t' c0 Hne Hc0. by rewrite lookup_insert_ne, lookup_fmap, Hc0.
Qed.

Lemma cancel_shape t id c w : shape_ok w -> callers w !! t = Some c -> reading c = Some id ->
  shape_ok (with_callers (drop_guard id w) (delete t (callers (drop_guard id w)))).
Proof.
  intros [He Hf] Hc Hr. destruct (fl_read w Hf t c id Hc Hr) as (s0 & Hh & _). unfold drop_guard. rewrite (alter_lookup _ id _ s0 Hh).
  set (s' := mkCacheState _ _ _). split.
  - apply entries_ok_delete, entries_ok_notify, entries_ok_heap; [done|]. intros id'. apply heap_insert_some.
  - apply (flags_release t c id s' (delete t (wake id <$> callers w)) w Hf Hc Hr); [done|..].
    + intros t' c' [Hne Hc']%lookup_delete_Some. right. split; [done|]. rewrite lookup_fmap in Hc'.
      destruct (callers w !! t') as [c0|]; [|done]. injection Hc' as <-. eauto.
    + intros t' c0 Hne Hc0. by rewrite lookup_delete_ne, lookup_fmap, Hc0.
Qed.

Lemma trim_shape target w : shape_ok w -> shape_ok (trim_projected_cache target w).
Proof.
  intros [He Hf]. pose proof (trim_trimmed target w) as Ht. split; [by eapply entries_ok_trim|]. destruct Ht as (Ew & _ & _).
  apply (flags_same w); [by rewrite Ew..|done].
Qed.

Lemma step_shape a w w' es : shape_ok w -> step a w = Some (w', es) -> shape_ok w'.
Proof.
  intros Hw. destruct a as [t x|t|t fs|t|t|t|t|fs ev|now]; cbn [step].
  - destruct (callers w !! t) eqn:Et; [done|]. unfold request. intros [= E]. revert E.
    destruct (selected_credential_ref x) as [[sel|]|]; [|by intros [= <- _]..].
    destruct (credentials _ !! _) as [[cred|]|]; [by intros [= <- _]..|]. destruct (projected_credential_mount_base _); [|by intros [= <- _]].
    intros [= <- _]. by apply enter_shape.
  - destruct (callers w !! t) as [c|] eqn:Ec; [|done]. destruct (c_pc c) eqn:Ep; try done. intros [= <- _]. by eapply look_shape.
  - destruct (callers w !! t) as [c|] eqn:Ec; [|done]. destruct (projected_credential_mount_base _); [|done]. destruct (c_pc c) eqn:Ep; try done.
    intros [= <- _]. destruct Hw as [He Hf]. split; [apply entries_ok_goto; [done|done|unfold held; by rewrite Ep]|].
    eapply flags_goto; [done|by left|unfold reading; by rewrite Ep|done].
  - destruct (callers w !! t) as [c|] eqn:Ec; [|done]. destruct (c_pc c) eqn:Ep; try done. intros [= <- _]. by apply complete_shape.
  - destruct (callers w !! t) as [c|] eqn:Ec; [|done]. destruct (c_pc c) eqn:Ep; try done. intros [= <- _]. destruct Hw as [He Hf].
    split; [apply entries_ok_goto; [done|done|done]|]. eapply flags_goto; [done|by left|unfold reading; by rewrite Ep|done].
  - destruct (callers w !! t) as [c|] eqn:Ec; [|done]. destruct (c_pc c) eqn:Ep; try done. unfold finish. intros [= <- _].
    destruct (trim_shape MAX_CREDENTIALS w Hw) as [He Hf]. destruct (trim_trimmed MAX_CREDENTIALS w) as (Ew & _ & _).
    split; [by apply entries_ok_delete|]. apply (flags_delete t c); [done| |unfold reading; by rewrite Ep]. by rewrite Ew.
  - destruct (callers w !! t) as [c|] eqn:Ec; [|done]. destruct (c_pc c) eqn:Ep; try done; intros [= <- _].
    + destruct Hw as [He Hf]. split; [by apply entries_ok_delete|]. apply (flags_delete t c); [done..|unfold reading; by rewrite Ep].
    + apply (cancel_shape t _ c); [done..|unfold reading; by rewrite Ep].
    + apply (cancel_shape t _ c); [done..|unfold reading; by rewrite Ep].
  - intros [= <- _]. destruct Hw as [He Hf]. split; [by apply (entries_same w)|by apply (flags_same w)].
  - destruct (_ <=? _); [|done]. intros [= <- _]. destruct Hw as [He Hf]. split; [by apply (entries_same w)|by apply (flags_same w)].
Qed.

(** ** Where values come from *)

Definition sel_of (k : Key) : SelectedCredential := mkSelected k.2 k.1.

(** Some caller read the credential of this very reference, and published it at [l]. *)
Definition published (base : string) (log : list Event) (sel : SelectedCredential) (cred : ResolvedCredential) (l : N) : Prop :=
  exists t fs rd, Read t sel fs rd ∈ log /\ Published t sel (Ok cred) l ∈ log /\
    resolve_projected_credential fs base sel = Ok cred /\ rd <= l.

Lemma published_app base log es sel cred l : published base log sel cred l -> published base (log ++ es) sel cred l.
Proof. intros (t & fs & rd & H1 & H2 & H3). exists t, fs, rd. rewrite !elem_of_app. auto. Qed.

Definition cached_ok (base : string) (w : World) (log : list Event) : Prop :=
  forall k id u s l cred, entries w !! k = Some (id, u) -> heap w !! id = Some s -> loaded_at s = Some l -> cached s = Some cred ->
    published base log (sel_of k) cred l /\ l <= clock w.

(** What a caller carries. *)
Definition caller_ok (base : string) (now : N) (log : list Event) (t : N) (c : Caller) : Prop :=
  selected_credential_ref (c_ctx c) = Some (Ok (c_sel c)) /\
  match c_pc c with
  | HasRead _ r => exists fs rd, Read t (c_sel c) fs rd ∈ log /\ r = resolve_projected_credential fs base (c_sel c) /\ rd <= now
  | Leaving _ r | Trimming r => exists now', Used t (c_sel c) r now' ∈ log
  | _ => True
  end.
Definition callers_ok (base : string) (w : World) (log : list Event) : Prop :=
  forall t c, callers w !! t = Some c -> caller_ok base (clock w) log t c.

(** A value was fresh when it was used. *)
Definition log_ok (base : string) (log : list Event) : Prop :=
  forall t sel cred now, Used t sel (Ok cred) now ∈ log -> exists l, published base log sel cred l /\ l <= now /\ now < l + PROJECTED_CACHE_TTL.

Record values_ok (base : string) (w : World) (log : list Event) : Prop := mkValuesOk {
  vo_cached : cached_ok base w log;
  vo_callers : callers_ok base w log;
  vo_log : log_ok base log
}.

Lemma caller_ok_app base now now' log es t c : now <= now' -> caller_ok base now log t c -> caller_ok base now' (log ++ es) t c.
Proof.
  intros Hn [Hs Hc]. split; [done|]. destruct (c_pc c); try done.
  - destruct Hc as (fs & rd & H1 & H2 & H3). exists fs, rd. rewrite elem_of_app. split_and!; [by left|done|lia].
  - destruct Hc as [n Hn']. exists n. apply elem_of_app. by left.
  - destruct Hc as [n Hn']. exists n. apply elem_of_app. by left.
Qed.

Lemma log_ok_app base log es : log_ok base log ->
  (forall t sel cred now, Used t sel (Ok cred) now ∈ es -> exists l, published base (log ++ es) sel cred l /\ l <= now /\ now < l + PROJECTED_CACHE_TTL) ->
  log_ok base (log ++ es).
Proof.
  intros Hl He t sel cred now [Hin|Hin]%elem_of_app; [|by eapply He]. destruct (Hl t sel cred now Hin) as (l & Hp & Hn). exists l. split; [by apply published_app|done].
Qed.

(** Entries and their values stay, or are new and empty. *)
Lemma cached_keep base w w' log es : cached_ok base w log -> clock w <= clock w' ->
  (forall k id u s, entries w' !! k = Some (id, u) -> heap w' !! id = Some s -> loaded_at s <> None ->
     exists u0 s0, entries w !! k = Some (id, u0) /\ heap w !! id = Some s0 /\ loaded_at s0 = loaded_at s /\ cached s0 = cached s) ->
  cached_ok base w' (log ++ es).
Proof.
  intros Hc Hn Hk k id u s0 l cred He Hh Hl Hv. destruct (Hk k id u s0 He Hh) as (u0 & s1 & He0 & Hh0 & El & Ev); [congruence|].
  destruct (Hc k id u0 s1 l cred He0 Hh0) as [Hp Hle]; [congruence..|]. split; [by apply published_app|lia].
Qed.

Lemma cached_trim base w target log : cached_ok base w log -> cached_ok base (trim_projected_cache target w) log.
Proof.
  destruct (trim_trimmed target w) as (Ew & Hs & _). intros Hc. rewrite <- (app_nil_r log). eapply cached_keep; [exact Hc|by rewrite Ew|].
  intros k id u s0 He Hh _. rewrite Ew in Hh. exists u, s0. split_and!; try done. by eapply lookup_weaken.
Qed.

Lemma cached_enter base t x sel w log : entries_ok w -> cached_ok base w log -> cached_ok base (enter_cache t x sel w) log.
Proof.
  intros Ho Hc. unfold enter_cache. rewrite <- (app_nil_r log). destruct (entries w !! sel_key sel) as [[id u]|] eqn:E.
  - eapply cached_keep; [exact Hc|done|]. cbn. intros k id' u' s0 [[<- [= <- <-]]|[_ He]]%lookup_insert_Some Hh _; eauto 10.
  - set (w1 := trim_projected_cache _ w). pose proof (cached_trim base w (saturating_sub MAX_CREDENTIALS 1) log Hc) as Hc1. fold w1 in Hc1.
    pose proof (entries_ok_trim w w1 Ho (trim_trimmed _ w)) as Ho1. eapply cached_keep; [exact Hc1|done|]. cbn.
    intros k id' u' s0 [[<- [= <- <-]]|[_ He]]%lookup_insert_Some Hh Hl.
    + rewrite lookup_insert_eq in Hh. by injection Hh as <-.
    + rewrite lookup_insert_ne in Hh; [eauto 10|]. intros <-. destruct (eo_heap w1 Ho1 _ _ _ He) as [s1 Hs1]. by rewrite fresh_id in Hs1.
Qed.

Lemma enter_callers t x sel w : exists id, callers (enter_cache t x sel w) = <[t := mkCaller x sel (Checking id)]> (callers w) /\ clock (enter_cache t x sel w) = clock w.
Proof.
  unfold enter_cache. destruct (entries w !! sel_key sel) as [[id u]|]; [by exists id|].
  destruct (trim_trimmed (saturating_sub MAX_CREDENTIALS 1) w) as (Ew & _ & _). eexists. split; [|by rewrite Ew]. cbn. by rewrite Ew at 2.
Qed.

Lemma callers_insert base w w' log es t c cs : callers_ok base w log -> callers w' = <[t := c]> cs -> clock w <= clock w' ->
  (forall t' c', cs !! t' = Some c' -> exists c0, callers w !! t' = Some c0 /\ forall now l, caller_ok base now l t' c0 -> caller_ok base now l t' c') ->
  caller_ok base (clock w') (log ++ es) t c -> callers_ok base w' (log ++ es).
Proof.
  intros Hc Ec Hn Hcs Ht t' c'. rewrite Ec. intros [[<- <-]|[_ H']]%lookup_insert_Some; [done|].
  destruct (Hcs t' c' H') as (c0 & H0 & Hok). apply Hok. eapply caller_ok_app; [done|]. by apply Hc.
Qed.

Lemma callers_subset base w w' log es : callers_ok base w log -> clock w <= clock w' ->
  (forall t' c', callers w' !! t' = Some c' -> exists c0, callers w !! t' = Some c0 /\ forall now l, caller_ok base now l t' c0 -> caller_ok base now l t' c') ->
  callers_ok base w' (log ++ es).
Proof. intros Hc Hn Hcs t' c' H'. destruct (Hcs t' c' H') as (c0 & H0 & Hok). apply Hok. eapply caller_ok_app; [done|]. by apply Hc. Qed.

Lemma caller_ok_wake base now l t id c : caller_ok base now l t c -> caller_ok base now l t (wake id c).
Proof. unfold caller_ok, wake. destruct (c_pc c) eqn:E; rewrite ?E; try done. intros [Hs _]. case_bool_decide; cbn; [done|]. by rewrite E. Qed.

Lemma woken_ok base id w t' c' : (wake id <$> callers w) !! t' = Some c' ->
  exists c0, callers w !! t' = Some c0 /\ forall now l, caller_ok base now l t' c0 -> caller_ok base now l t' c'.
Proof. rewrite lookup_fmap. destruct (callers w !! t') as [c0|]; [|done]. intros [= <-]. exists c0. split; [done|]. intros now l. apply caller_ok_wake. Qed.

Lemma same_ok base w t' c' : callers w !! t' = Some c' ->
  exists c0, callers w !! t' = Some c0 /\ forall now l, caller_ok base now l t' c0 -> caller_ok base now l t' c'.
Proof. intros Hc. by exists c'. Qed.

Lemma look_values base t id c w log : shape_ok w -> values_ok base w log -> callers w !! t = Some c -> c_pc c = Checking id ->
  let w' := look t id c w in
  values_ok base w' (log ++ match callers w' !! t with Some (mkCaller _ _ (Leaving _ r)) => [Used t (c_sel c) r (clock w)] | _ => [] end).
Proof.
  intros [He Hf] [V1 V2 V3] Hc Hp w'. destruct (V2 t c Hc) as [Hsel _]. subst w'. unfold look.
  destruct (eo_held w He t c id Hc ltac:(unfold held; by rewrite Hp)) as [u Hu]. destruct (eo_heap w He _ _ _ Hu) as [s0 Hs0]. rewrite Hs0.
  destruct (match loaded_at s0 with Some _ => _ | None => _ end) eqn:Eh; [|destruct (refreshing s0)].
  - cbn. rewrite lookup_insert_eq. set (r := match cached s0 with Some _ => _ | None => _ end). destruct (loaded_at s0) as [l|] eqn:El; [|done].
    apply N.ltb_lt in Eh. split.
    + eapply cached_keep; [exact V1|done|]. cbn. eauto 10.
    + eapply callers_insert; [exact V2|done|done|intros; by eapply same_ok|]. split; [done|]. cbn. exists (clock w). apply elem_of_app. right. by left.
    + apply log_ok_app; [done|]. intros t' sel cred now [= -> -> Er ->]%list_elem_of_singleton. subst r. destruct (cached s0) as [cred'|] eqn:Ev; [|done].
      injection Er as <-. destruct (V1 _ _ _ _ l cred Hu Hs0 El Ev) as [Hpub Hle]. exists l. change (sel_of (sel_key (c_sel c))) with (mkSelected (sel_strategy (c_sel c)) (sel_ref (c_sel c))) in Hpub.
      destruct (c_sel c) as [st rf]. cbn in Hpub. split; [by apply published_app|lia].
  - cbn. rewrite lookup_insert_eq. split.
    + eapply cached_keep; [exact V1|done|]. cbn. eauto 10.
    + eapply callers_insert; [exact V2|done|done|intros; by eapply same_ok|done].
    + rewrite app_nil_r. done.
  - cbn. rewrite lookup_insert_eq. split.
    + eapply cached_keep; [exact V1|done|]. cbn. intros k id' u' s1 Hk [[<- <-]|[_ Hh]]%lookup_insert_Some _; eauto 10.
    + eapply callers_insert; [exact V2|done|done|intros; by eapply same_ok|done].
    + rewrite app_nil_r. done.
Qed.

Lemma complete_values base t id r c w log : shape_ok w -> values_ok base w log -> callers w !! t = Some c -> c_pc c = HasRead id r ->
  values_ok base (goto t c (Leaving id r) (complete id r w)) (log ++ [Published t (c_sel c) r (clock w); Used t (c_sel c) r (clock w)]).
Proof.
  intros [He Hf] [V1 V2 V3] Hc Hp. pose proof (V2 t c Hc) as [Hsel Hr]. rewrite Hp in Hr. destruct Hr as (fs & rd & Hread & Er & Hle).
  set (es := [_; _]). assert (forall cred, r = Ok cred -> published base (log ++ es) (c_sel c) cred (clock w)) as Hpub.
  { intros cred E. exists t, fs, rd. rewrite <- E. split_and!; [apply elem_of_app; by left|apply elem_of_app; right; by left|congruence|done]. }
  destruct (eo_held w He t c id Hc ltac:(unfold held; by rewrite Hp)) as [u Hu]. split.
  - intros k id' u' s0 l cred Hk. cbn. intros [[<- <-]|[Hne Hh]]%lookup_insert_Some Hl Hv.
    + cbn in Hl, Hv. injection Hl as <-. assert (k = sel_key (c_sel c)) as -> by (by eapply (eo_ids w He)).
      destruct r as [cred'|]; [|done]. injection Hv as ->. split; [|done]. replace (sel_of (sel_key (c_sel c))) with (c_sel c) by (by destruct (c_sel c)). by apply Hpub.
    + destruct (V1 k id' u' s0 l cred Hk Hh Hl Hv) as [Hp' Hl']. split; [by apply published_app|done].
  - eapply callers_insert; [exact V2|done|done|intros t' c' H'; exact (woken_ok base id w t' c' H')|]. split; [done|]. cbn. exists (clock w). apply elem_of_app. right. right. by left.
  - apply log_ok_app; [done|]. intros t' sel cred now Hin. subst es. apply elem_of_cons in Hin as [[=]|Hin]. apply list_elem_of_singleton in Hin as [= -> -> Ec ->].
    exists (clock w). split; [by apply Hpub|]. split; [done|]. unfold PROJECTED_CACHE_TTL. lia.
Qed.

Lemma cancel_values base t id c w log : shape_ok w -> values_ok base w log -> callers w !! t = Some c -> reading c = Some id ->
  values_ok base (with_callers (drop_guard id w) (delete t (callers (drop_guard id w)))) (log ++ []).
Proof.
  intros [He Hf] [V1 V2 V3] Hc Hr. destruct (fl_read w Hf t c id Hc Hr) as (s0 & Hh & _). unfold drop_guard. rewrite (alter_lookup _ id _ s0 Hh). split.
  - eapply cached_keep; [exact V1|done|]. cbn. intros k id' u' s1 Hk [[<- <-]|[_ Hh']]%lookup_insert_Some _; eauto 10.
  - eapply callers_subset; [exact V2|done|]. cbn. intros t' c' [_ H']%lookup_delete_Some. by eapply woken_ok.
  - by rewrite app_nil_r.
Qed.

Lemma values_idle base w w' log : values_ok base w log -> clock w <= clock w' -> entries w' ⊆ entries w -> heap w' = heap w ->
  (forall t' c', callers w' !! t' = Some c' -> callers w !! t' = Some c') -> forall es,
  (forall t sel cred now, Used t sel (Ok cred) now ∈ es -> False) -> values_ok base w' (log ++ es).
Proof.
  intros [V1 V2 V3] Hn He Hh Hc es Hes. split.
  - eapply cached_keep; [exact V1|done|]. rewrite Hh. intros k id u s0 Hk Hs _. exists u, s0. split_and!; try done. by eapply lookup_weaken.
  - eapply callers_subset; [exact V2|done|]. intros t' c' H'. eapply same_ok. auto.
  - apply log_ok_app; [done|]. intros t sel cred now Hin. by destruct (Hes t sel cred now).
Qed.

Lemma step_values base a w w' es log : shape_ok w -> values_ok base w log ->
  default ""%string (projected_credential_mount_base (filter_of w)) = base -> step a w = Some (w', es) -> values_ok base w' (log ++ es).
Proof.
  intros Hw Hv Hb. destruct a as [t x|t|t fs|t|t|t|t|fs ev|now]; cbn [step].
  - destruct (callers w !! t) eqn:Et; [done|]. unfold request. intros [= E]. revert E.
    assert (forall a, (w, [Answered t x (credentials (filter_of w)) a]) = (w', es) -> values_ok base w' (log ++ es)) as Hans.
    { intros a [= <- <-]. eapply values_idle; try done. by intros ???? [=]%list_elem_of_singleton. }
    destruct (selected_credential_ref x) as [[sel|]|] eqn:Es; [|apply Hans..].
    destruct (credentials _ !! _) as [[cred|]|]; [apply Hans..|]. destruct (projected_credential_mount_base _); [|apply Hans].
    intros [= <- <-]. destruct Hw as [He _], Hv as [V1 V2 V3]. destruct (enter_callers t x sel w) as (id & Ec & En). rewrite app_nil_r. split.
    + by apply cached_enter.
    + rewrite <- (app_nil_r log). eapply callers_insert; [exact V2|exact Ec|by rewrite En|intros; by eapply same_ok|done].
    + done.
  - destruct (callers w !! t) as [c|] eqn:Ec; [|done]. destruct (c_pc c) eqn:Ep; try done. intros [= <- <-]. by apply look_values.
  - destruct (callers w !! t) as [c|] eqn:Ec; [|done]. destruct (projected_credential_mount_base _) as [b|]; [|done]. destruct (c_pc c) eqn:Ep; try done.
    cbn in Hb. subst b. intros [= <- <-]. destruct Hv as [V1 V2 V3]. destruct (V2 t c Ec) as [Hsel _]. split.
    + eapply cached_keep; [exact V1|done|]. cbn. eauto 10.
    + eapply callers_insert; [exact V2|done|done|intros; by eapply same_ok|]. split; [done|]. cbn. exists fs, (clock w).
      split_and!; [apply elem_of_app; right; by left|done|done].
    + apply log_ok_app; [done|]. by intros ???? [=]%list_elem_of_singleton.
  - destruct (callers w !! t) as [c|] eqn:Ec; [|done]. destruct (c_pc c) eqn:Ep; try done. intros [= <- <-]. by apply complete_values.
  - destruct (callers w !! t) as [c|] eqn:Ec; [|done]. destruct (c_pc c) eqn:Ep; try done. intros [= <- <-]. destruct Hv as [V1 V2 V3].
    destruct (V2 t c Ec) as [Hsel Hr]. rewrite Ep in Hr. split.
    + eapply cached_keep; [exact V1|done|]. cbn. eauto 10.
    + eapply callers_insert; [exact V2|done|done|intros; by eapply same_ok|]. split; [done|]. cbn. by rewrite app_nil_r.
    + by rewrite app_nil_r.
  - destruct (callers w !! t) as [c|] eqn:Ec; [|done]. destruct (c_pc c) eqn:Ep; try done. unfold finish. intros [= <- <-].
    destruct (trim_trimmed MAX_CREDENTIALS w) as (Ew & Hs & _). eapply values_idle; [exact Hv|by rewrite Ew|done|by rewrite Ew|..].
    + cbn. intros t' c' [_ H']%lookup_delete_Some. by rewrite Ew in H'.
    + by intros ???? [=]%list_elem_of_singleton.
  - destruct (callers w !! t) as [c|] eqn:Ec; [|done]. destruct (c_pc c) eqn:Ep; try done; intros [= <- <-].
    + eapply values_idle; [exact Hv|done..| |by intros ???? ?%elem_of_nil]. cbn. by intros t' c' [_ H']%lookup_delete_Some.
    + apply (cancel_values base t _ c); [done..|unfold reading; by rewrite Ep].
    + apply (cancel_values base t _ c); [done..|unfold reading; by rewrite Ep].
  - intros [= <- <-]. eapply values_idle; [exact Hv|done..|]. by intros ???? ?%elem_of_nil.
  - destruct (N.leb_spec (clock w) now); [|done]. intros [= <- <-]. eapply values_idle; [exact Hv|done..|]. by intros ???? ?%elem_of_nil.
Qed.

(** ** The filter through a run *)

Record same_setup (f g : Filter) : Prop := mkSameSetup {
  ss_headers : credential_headers g = credential_headers f;
  ss_base : projected_credential_mount_base g = projected_credential_mount_base f;
  ss_watched : watched g = watched f
}.

Lemma filter_after_trim target w : filter_of (trim_projected_cache target w) = filter_of w.
Proof. destruct (trim_trimmed target w) as (-> & _ & _). done. Qed.
Lemma filter_after_enter t x sel w : filter_of (enter_cache t x sel w) = filter_of w.
Proof. unfold enter_cache. destruct (entries w !! _) as [[id u]|]; [done|]. cbn. apply filter_after_trim. Qed.
Lemma filter_after_look t id c w : filter_of (look t id c w) = filter_of w.
Proof. unfold look. by repeat case_match. Qed.

Lemma step_filter_cases a w w' es : step a w = Some (w', es) -> filter_of w' = filter_of w \/
  exists fs ev, filter_of w' = with_credentials (filter_of w) (process_watcher_event fs ev (watched (filter_of w)) (credentials (filter_of w))).
Proof.
  destruct a as [t x|t|t fs|t|t|t|t|fs ev|now]; cbn [step]; unfold request, finish; intros E; simplify_eq;
    repeat (case_match; simplify_eq); try (by left); try (right; by eexists _, _); left; cbn;
    auto using filter_after_trim, filter_after_enter, filter_after_look.
Qed.

Lemma step_filter f a w w' es : same_setup f (filter_of w) -> filter_ok (filter_of w) -> step a w = Some (w', es) ->
  same_setup f (filter_of w') /\ filter_ok (filter_of w').
Proof.
  intros Hs Ho [->|(fs & ev & ->)]%step_filter_cases; [done|]. split; [by destruct Hs; split|by apply watcher_event_ok].
Qed.

(** ** Answers *)

Lemma selected_strategy x sel : selected_credential_ref x = Some (Ok sel) -> sel_strategy sel = STRATEGY_BEARER_TOKEN \/ sel_strategy sel = STRATEGY_APIKEY.
Proof.
  unfold selected_credential_ref. repeat (case_match; try done); intros [= <-]; cbn; (case_bool_decide || idtac); auto.
Qed.

Lemma projected_injectable f x fs base sel cred : filter_ok f -> selected_credential_ref x = Some (Ok sel) ->
  resolve_projected_credential fs base sel = Ok cred -> injectable (credential_headers f) cred /\ rc_strategy cred = sel_strategy sel.
Proof.
  intros [[Ha Hk] _ _ _] Hs%selected_strategy. unfold resolve_projected_credential. destruct (projected_credential_path base _); [|done].
  destruct (canonicalize fs base); [|done]. destruct (canonicalize fs _); [|done]. destruct (negb _); [done|].
  destruct Hs as [-> | ->]; (eapply file_credential_injectable; [done|]); [by left|right; split_and!; try done].
Qed.

(** What a request is answered. *)
Definition answer_ok (f : Filter) (log : list Event) (t : N) (x : Ctx) (snapshots : Snapshots) (a : Answer) : Prop :=
  match selected_credential_ref x with
  | None => a = (x, Ok Continue)
  | Some (Err _) => a = reject x
  | Some (Ok sel) => a = reject x \/ exists cred,
      a = (push_set (push_remove x (credential_headers f)) (header_name cred) (header_value cred), Ok Continue) /\
      rc_strategy cred = sel_strategy sel /\ injectable (credential_headers f) cred /\
      (snapshots !! sel_ref sel = Some (Some cred) \/
       exists base l now, projected_credential_mount_base f = Some base /\ Used t sel (Ok cred) now ∈ log /\
         published base log sel cred l /\ l <= now /\ now < l + PROJECTED_CACHE_TTL)
  end.

Lemma answer_ok_app f log es t x m a : answer_ok f log t x m a -> answer_ok f (log ++ es) t x m a.
Proof.
  unfold answer_ok. destruct (selected_credential_ref x) as [[sel|]|]; try done. intros [->|(cred & E & H1 & H2 & H3)]; [by left|right].
  exists cred. split_and!; try done. destruct H3 as [H3|(base & l & now & H3 & H4 & H5 & H6)]; [by left|right].
  exists base, l, now. split_and!; try done; [apply elem_of_app; by left|by apply published_app|lia..].
Qed.

Lemma inject_cases f x sel cred : injectable (credential_headers f) cred ->
  inject f x sel cred = reject x \/
  (inject f x sel cred = (push_set (push_remove x (credential_headers f)) (header_name cred) (header_value cred), Ok Continue) /\
   rc_strategy cred = sel_strategy sel).
Proof. intros [_ Hok _ _]. unfold inject. rewrite Hok. case_bool_decide; cbn; auto. Qed.

Definition has_base (f : Filter) (w : World) : Prop := forall t c, callers w !! t = Some c -> is_Some (projected_credential_mount_base f).

Record run_ok (f : Filter) (w : World) (log : list Event) : Prop := mkRunOk {
  ro_shape : shape_ok w;
  ro_values : values_ok (default ""%string (projected_credential_mount_base f)) w log;
  ro_setup : same_setup f (filter_of w);
  ro_filter : filter_ok (filter_of w);
  ro_base : has_base f w;
  ro_answers : forall t x m a, Answered t x m a ∈ log -> answer_ok f log t x m a
}.

Lemma step_base f a w w' es : same_setup f (filter_of w) -> has_base f w -> step a w = Some (w', es) -> has_base f w'.
Proof.
  intros Hs Hb Hstep t c Hc.
  assert (forall t, is_Some (callers w !! t) -> is_Some (projected_credential_mount_base f)) as Hb' by (intros t' [c' Hc']; by eapply Hb).
  destruct a as [t0 x|t0|t0 fs|t0|t0|t0|t0|fs ev|now]; cbn [step] in Hstep.
  { destruct (callers w !! t0) eqn:Et; [done|]. unfold request in Hstep. injection Hstep as Hstep. revert Hstep.
    destruct (selected_credential_ref x) as [[sel|]|]; [|by intros [= <- _]; eapply Hb'; eexists..].
    destruct (credentials _ !! _) as [[cred|]|]; [by intros [= <- _]; eapply Hb'; eexists..|].
    destruct (projected_credential_mount_base (filter_of w)) as [b|] eqn:Eb; [|by intros [= <- _]; eapply Hb'; eexists].
    intros _. rewrite <- (ss_base _ _ Hs), Eb. eauto. }
  1-6: destruct (callers w !! t0) as [c0|] eqn:Ec; [eapply Hb'; by rewrite Ec|done].
  - injection Hstep as <- _. eapply (Hb' t). by exists c.
  - destruct (_ <=? _); [|done]. injection Hstep as <- _. eapply (Hb' t). by exists c.
Qed.

Lemma step_answers f a w w' es log t x m ans : run_ok f w log -> step a w = Some (w', es) -> Answered t x m ans ∈ es -> answer_ok f log t x m ans.
Proof.
  intros [Hsh Hv Hs Ho Hb _]. destruct a as [t0 x0|t0|t0 fs|t0|t0|t0|t0|fs ev|now]; cbn [step].
  - destruct (callers w !! t0); [done|]. unfold request. intros [= E]. revert E. unfold answer_ok.
    destruct (selected_credential_ref x0) as [[sel|]|] eqn:Es.
    + destruct (credentials _ !! _) as [[cred|]|] eqn:Ec.
      * intros [= _ <-] [= -> -> -> ->]%list_elem_of_singleton. rewrite Es. pose proof (fo_snapshots _ Ho _ _ Ec) as Hi.
        destruct (inject_cases (filter_of w) x0 sel cred Hi) as [->|[-> Hst]]; [by left|right]. rewrite (ss_headers _ _ Hs) in *.
        exists cred. split_and!; try done. by left.
      * intros [= _ <-] [= -> -> -> ->]%list_elem_of_singleton. rewrite Es. by left.
      * destruct (projected_credential_mount_base (filter_of w)); [by intros [= _ <-] ?%elem_of_nil|].
        intros [= _ <-] [= -> -> -> ->]%list_elem_of_singleton. rewrite Es. by left.
    + intros [= _ <-] [= -> -> -> ->]%list_elem_of_singleton. by rewrite Es.
    + intros [= _ <-] [= -> -> -> ->]%list_elem_of_singleton. by rewrite Es.
  - destruct (callers w !! t0) as [c|]; [|done]. destruct (c_pc c); try done. intros [= _ <-] Hin. exfalso. revert Hin.
    repeat case_match; intros Hin; try (by apply elem_of_nil in Hin). by apply list_elem_of_singleton in Hin.
  - repeat case_match; try done. intros [= _ <-] [=]%list_elem_of_singleton.
  - repeat case_match; try done. intros [= _ <-] [[=]|[=]%list_elem_of_singleton]%elem_of_cons.
  - repeat case_match; try done. by intros [= _ <-] ?%elem_of_nil.
  - destruct (callers w !! t0) as [c|] eqn:Ec; [|done]. destruct (c_pc c) as [| | | | |r] eqn:Ep; try done. unfold finish.
    intros [= _ <-] [= -> -> -> ->]%list_elem_of_singleton. rewrite filter_after_trim. destruct (vo_callers _ _ _ Hv t0 c Ec) as [Hsel Hr]. rewrite Ep in Hr.
    unfold answer_ok. rewrite Hsel. destruct r as [cred|]; [|by left]. destruct Hr as [now Hu]. destruct (vo_log _ _ _ Hv _ _ _ _ Hu) as (l & Hpub & Hn).
    destruct (Hb t0 c Ec) as [base Eb]. rewrite Eb in Hpub. cbn in Hpub. pose proof Hpub as (t1 & fs & rd & _ & _ & Hres & _).
    destruct (projected_injectable (filter_of w) _ fs base _ cred Ho Hsel Hres) as [Hi Hst].
    destruct (inject_cases (filter_of w) (c_ctx c) (c_sel c) cred Hi) as [->|[-> _]]; [by left|right]. rewrite (ss_headers _ _ Hs) in *.
    exists cred. split_and!; try done. right. exists base, l, now. split_and!; try done; lia.
  - repeat case_match; try done; by intros [= _ <-] ?%elem_of_nil.
  - by intros [= _ <-] ?%elem_of_nil.
  - case_match; try done. by intros [= _ <-] ?%elem_of_nil.
Qed.

Lemma world_start_ok f : filter_ok f -> run_ok f (world_new f) [].
Proof.
  intros Hf. split; [split; split|split| |done|..]; try done; try (by intros; cbn in *; rewrite lookup_empty in *).
  - by intros t sel cred now ?%elem_of_nil.
  - by intros t x m a ?%elem_of_nil.
Qed.

Lemma run_run_ok f w log : filter_ok f -> run f w log -> run_ok f w log.
Proof.
  intros Hf Hrun. induction Hrun as [|w log a w' es Hrun IH Hstep].
  - by apply world_start_ok.
  - pose proof IH as [Hsh Hv Hs Ho Hb Ha]. destruct (step_filter f a w w' es Hs Ho Hstep) as [Hs' Ho']. split; try done.
    + by eapply step_shape.
    + eapply step_values; [done|done| |done]. by rewrite (ss_base _ _ Hs).
    + exact (step_base f a w w' es Hs Hb Hstep).
    + intros t x m ans [Hin|Hin]%elem_of_app; apply answer_ok_app; [by apply Ha|by eapply step_answers].
Qed.
End Cache.

(** * What reaches the provider *)



Section Routed.
Context `{MetadataApi}.



End Routed.


(** C21. Requests for projected secrets in every interleaving: those for the same
    secret share one cache entry, at most one of them reads the file, and one
    that waits waits for a request that is reading, also when other entries are
    evicted and requests are cancelled. *)
Theorem projected_refresh_single_flight `{HeaderSyntax} `{!HashOrder Key} env fs fs' live cfg f w log :
  from_config env fs fs' live cfg = Ok f -> run f w log ->
  (forall t t' c c' id id', callers w !! t = Some c -> callers w !! t' = Some c' -> sel_key (c_sel c) = sel_key (c_sel c') ->
     held c = Some id -> held c' = Some id' -> id = id') /\
  (forall t t' c c', callers w !! t = Some c -> callers w !! t' = Some c' -> sel_key (c_sel c) = sel_key (c_sel c') ->
     is_Some (reading c) -> is_Some (reading c') -> t = t') /\
  (forall t c, callers w !! t = Some c -> is_Some (waiting c) ->
     exists t' c', callers w !! t' = Some c' /\ is_Some (reading c') /\ sel_key (c_sel c') = sel_key (c_sel c)).
Proof.
  intros Hcfg Hrun. apply from_config_ok in Hcfg as Hf. destruct (run_run_ok f w log Hf Hrun) as [[[E1 E2 E3] [F1 F2 F3 F4]] _ _ _ _ _].
  assert (forall t t' c c' id id', callers w !! t = Some c -> callers w !! t' = Some c' -> sel_key (c_sel c) = sel_key (c_sel c') ->
    held c = Some id -> held c' = Some id' -> id = id') as Hsame.
  { intros t t' c c' id id' Hc Hc' Hk Hh Hh'. destruct (E1 t c id Hc Hh) as [u Hu]. destruct (E1 t' c' id' Hc' Hh') as [u' Hu']. rewrite Hk in Hu. congruence. }
  assert (forall c id, reading c = Some id -> held c = Some id) as Hr by (intros c id; unfold reading, held; by destruct (c_pc c)).
  assert (forall c id, waiting c = Some id -> held c = Some id) as Hwt by (intros c id; unfold waiting, held; by destruct (c_pc c)).
  split_and!; [done|..].
  - intros t t' c c' Hc Hc' Hk [id Hi] [id' Hi']. assert (id = id') as -> by (eapply (Hsame t t' c c'); eauto). by eapply F3.
  - intros t c Hc [id Hi]. destruct (F4 t c id Hc Hi) as (s0 & Hh & Hs). destruct (F2 id s0 Hh Hs) as (t' & c' & Hc' & Hi').
    exists t', c'. split_and!; [done|by exists id|]. destruct (E1 t c id Hc (Hwt _ _ Hi)) as [u Hu]. destruct (E1 t' c' id Hc' (Hr _ _ Hi')) as [u' Hu'].
    by eapply E2.
Qed.

(** C22. The file of a projected secret is below the configured root, one component
    for each field, and different references have different files; a secret is
    taken only from a file that is below the root once links are resolved. *)
Theorem projected_paths_confined `{HeaderSyntax} env fs fs' live cfg f base r r' p p' :
  from_config env fs fs' live cfg = Ok f -> projected_credential_mount_base f = Some base ->
  projected_credential_path base r = Ok p -> projected_credential_path base r' = Ok p' ->
  path_starts_with p base = true /\ ParentDir ∉ drop (length (components base)) (components p) /\ (path_eq p p' = true -> r = r') /\
  forall now strategy cred, resolve_projected_credential now base (mkSelected strategy r) = Ok cred ->
    exists root file, canonicalize now base = Some root /\ canonicalize now p = Some file /\ path_starts_with file root = true /\
      resolve_file_credential now file strategy (header_name cred) = Ok cred.
Proof.
  intros Hcfg Hb Hp Hp'. apply from_config_ok in Hcfg as Hf. pose proof (fo_base f Hf base Hb) as Ha.
  unfold path_starts_with, path_eq. rewrite (projected_path_components base r p Ha Hp), (projected_path_components base r' p' Ha Hp').
  split_and!.
  - apply component_prefix_app.
  - rewrite drop_app_length. rewrite !not_elem_of_cons. split_and!; try done. apply not_elem_of_nil.
  - intros E%bool_decide_eq_true%app_inv_head. destruct r, r'. cbn in *. congruence.
  - intros now strategy cred. unfold resolve_projected_credential. cbn [sel_ref sel_strategy]. rewrite Hp.
    destruct (canonicalize now base) as [root|]; [|done]. destruct (canonicalize now p) as [file|]; [|done].
    destruct (path_starts_with file root) eqn:Es; [|done]. cbn [negb]. intros Hr. exists root, file. split_and!; try done.
    set (h := if bool_decide (strategy = STRATEGY_BEARER_TOKEN) then _ else _) in Hr. enough (header_name cred = h) as -> by done.
    clear -Hr. unfold resolve_file_credential in Hr. destruct (read_projected_token now file); [|done]. destruct (validate_token _); [|done].
    destruct (header_value_ok _); [|done]. by injection Hr as <-.
Qed.

(** * Samples *)

(** Some actions in a row. *)
Fixpoint exec `{HeaderSyntax} `{!HashOrder Key} (acts : list Action) (w : World) (log : list Event) : option (World * list Event) :=
  match acts with
  | [] => Some (w, log)
  | a :: acts => '(w, es) ← step a w; exec acts w (log ++ es)
  end.

Lemma exec_run `{HeaderSyntax} `{!HashOrder Key} f acts w log w' log' : run f w log -> exec acts w log = Some (w', log') -> run f w' log'.
Proof.
  revert w log. induction acts as [|a acts IH]; intros w log Hr; cbn; [by intros [= <- <-]|].
  destruct (step a w) as [[w1 es]|] eqn:E; [|done]. cbn. apply IH. by eapply run_step.
Qed.

Module CredentialSample.
Local Open Scope string_scope.

#[local] Instance headers : HeaderSyntax := {| header_value_ok _ := true; parse_header_name s := Some s |}.
#[local] Instance metadata : MetadataApi := {| set_metadata m k v := <[k := v]> m; set_metadata_spec m k v := or_introl eq_refl |}.
#[local] Instance order : HashOrder Key := list_order Key.

Definition files : Fs :=
  mkFs Some (fun p => if bool_decide (p = "/secrets/ns/name/key") then Some (string_bytes "token") else None).
Definition config : CredentialInjectConfig := mkInjectConfig [] (Some "/secrets").
Definition inject_filter : Filter := mkFilter ∅ [AUTHORIZATION; "x-api-key"] (Some "/secrets") [].
Definition reference : CredentialRef := mkCredentialRef "key" "name" "ns".
Definition candidate : CandidateCredential := mkCredential "bearer_token" reference.
Definition client : Ctx := mkCtx None ∅ "/v1/chat/completions" None [("authorization", Some "Bearer mine"); ("x-api-key", Some "mine")] [] [].
Definition routed : Ctx := set_credential_metadata client (Some candidate).

(** Two requests for one secret; the second waits for the first. *)
Definition actions : list Action :=
  [Request 1 routed; Request 2 routed; Look 1; Look 2; ReadFile 1 files; Tick 10; Complete 1; Tick 200; Look 2;
   Release 1; Trim 1; Release 2; Trim 2].
Definition prefix_actions : list Action := take 5 actions.

Definition outcome (acts : list Action) : World * list Event := default (world_new inject_filter, []) (exec acts (world_new inject_filter) []).

Lemma outcome_run acts : is_Some (exec acts (world_new inject_filter) []) -> run inject_filter (outcome acts).1 (outcome acts).2.
Proof. intros [[w log] E]. unfold outcome. rewrite E. cbn. eapply exec_run; [apply run_start|exact E]. Qed.

Lemma configured : from_config (fun _ => None) files files true config = Ok inject_filter.
Proof. reflexivity. Qed.



(** While the first reads, the second waits for it. *)
Lemma projected_refresh_single_flight_witness :
  let w := (outcome prefix_actions).1 in
  (forall t t' c c' id id', callers w !! t = Some c -> callers w !! t' = Some c' -> sel_key (c_sel c) = sel_key (c_sel c') ->
     held c = Some id -> held c' = Some id' -> id = id') /\
  (forall t t' c c', callers w !! t = Some c -> callers w !! t' = Some c' -> sel_key (c_sel c) = sel_key (c_sel c') ->
     is_Some (reading c) -> is_Some (reading c') -> t = t') /\
  (forall t c, callers w !! t = Some c -> is_Some (waiting c) ->
     exists t' c', callers w !! t' = Some c' /\ is_Some (reading c') /\ sel_key (c_sel c') = sel_key (c_sel c)).
Proof.
  apply (projected_refresh_single_flight (fun _ => None) files files true config inject_filter _ (outcome prefix_actions).2).
  - exact configured.
  - apply outcome_run. vm_compute. eauto.
Defined.

Lemma projected_paths_confined_witness :
  path_starts_with "/secrets/ns/name/key" "/secrets" = true /\
  (path_eq "/secrets/ns/name/key" "/secrets/name/ns/key" = true -> reference = mkCredentialRef "key" "ns" "name").
Proof.
  destruct (projected_paths_confined (fun _ => None) files files true config inject_filter "/secrets" reference (mkCredentialRef "key" "ns" "name")
    "/secrets/ns/name/key" "/secrets/name/ns/key" configured eq_refl eq_refl eq_refl) as (H1 & _ & H3 & _). done.
Defined.

(** A dot segment inside the root is accepted. *)
Example dot_segment_accepted : validate_projected_mount_base "/run/./secrets" = Ok tt.
Proof. reflexivity. Qed.
End CredentialSample.
