(* ===== verification/Operation.v ===== *)
(** Request-head operation matching: [apis/src/operation.rs].

    A registry is a list of operations; [match_operation] picks, among the
    templates that match the normalised path, one with the most literal
    segments.  The path segments a match borrows are slices, and
    [offsets_in] turns them into byte ranges of the request path, recomputed
    from addresses as the code does. *)

From S2P Require Import Prelude Utf8 RustStr.
From Stdlib Require Import Strings.Ascii Strings.Byte.

Local Open Scope N_scope.

(** * Identity of an operation *)

Inductive HttpMethod := Get | Post | Put | Delete | Patch | Head | Options | Trace.
Inductive Transport := Http | WebSocket.
Inductive HandlingMode := Passthrough | Inspect | Transform | Local.
Inductive RequestBody :=
| NoBody
| JsonBody (required : bool)
| MultipartBody (required : bool)
| BinaryBody (required : bool).

#[export] Instance Transport_eq_dec : EqDecision Transport.
Proof. solve_decision. Defined.

Definition method_str (m : HttpMethod) : string :=
  match m with
  | Get => "GET"
  | Post => "POST"
  | Put => "PUT"
  | Delete => "DELETE"
  | Patch => "PATCH"
  | Head => "HEAD"
  | Options => "OPTIONS"
  | Trace => "TRACE"
  end.

Definition is_present (b : RequestBody) : bool := match b with NoBody => false | _ => true end.

Definition is_required (b : RequestBody) : bool :=
  match b with NoBody => false | JsonBody r | MultipartBody r | BinaryBody r => r end.

(** [ApplicationProtocol] is its identifier. *)
Record OperationSpec := mkSpec {
  application_protocol : string;
  operation_id : string;
  method : HttpMethod;
  transport : Transport;
  runtime_path : string;
  mode : HandlingMode;
  request_body : RequestBody
}.

Class OperationEntry (T : Type) := spec : T -> OperationSpec.
#[export] Instance OperationSpec_entry : OperationEntry OperationSpec := fun s => s.

(** * Strings *)

Definition strip_prefix_char (c : ascii) (s : string) : option string :=
  match s with String d r => if bool_decide (d = c) then Some r else None | EmptyString => None end.

Fixpoint strip_suffix_char (c : ascii) (s : string) : option string :=
  match s with
  | EmptyString => None
  | String d EmptyString => if bool_decide (d = c) then Some EmptyString else None
  | String d r => String d <$> strip_suffix_char c r
  end.

(** [str::is_char_boundary] and [str::get] on a byte range. *)
Definition is_char_boundary (s : string) (i : N) : bool :=
  (i =? 0) || (i =? str_len s) ||
  match string_bytes s !! N.to_nat i with Some b => negb (is_cont b) | None => false end.

Definition str_get (s : string) (i j : N) : option string :=
  if (i <=? j) && is_char_boundary s i && is_char_boundary s j && (j <=? str_len s)
  then Some (String.substring (N.to_nat i) (N.to_nat (j - i)) s) else None.

(** A borrowed part of the request path: its text and where it starts. *)
Record Slice := mkSlice { sl_start : N; sl_text : string }.

(** The pieces of a split in order, one separator byte between them. *)
Fixpoint slices_from (o : N) (pieces : list string) : list Slice :=
  match pieces with
  | [] => []
  | s :: rest => mkSlice o s :: slices_from (o + str_len s + 1) rest
  end.

(** * Parameters *)

Definition MAX_PATH_PARAMS : nat := 4.

(** The occupied slots. *)
Abbreviation RouteParams := (list (string * Slice)).

Definition params_get (p : RouteParams) (name : string) : option Slice :=
  snd <$> List.find (fun e => bool_decide (e.1 = name)) p.

Definition params_insert (p : RouteParams) (name : string) (v : Slice) : option RouteParams :=
  match params_get p name with
  | Some _ => None
  | None => if (length p <? MAX_PATH_PARAMS)%nat then Some (p ++ [(name, v)]) else None
  end.

Abbreviation PathParameterOffsets := (list (string * (N * N))).

Definition offsets_insert (o : PathParameterOffsets) (name : string) (start stop : N) : option PathParameterOffsets :=
  if existsb (fun e => bool_decide (e.1 = name)) o then None
  else if (length o <? MAX_PATH_PARAMS)%nat then Some (o ++ [(name, (start, stop))]) else None.

Definition offsets_get (o : PathParameterOffsets) (path name : string) : option string :=
  e ← List.find (fun e => bool_decide (e.1 = name)) o;
  str_get path e.2.1 e.2.2.

Definition checked_add (a b : N) : option N := if a + b <=? u64_max then Some (a + b) else None.
Definition checked_sub (a b : N) : option N := if b <=? a then Some (a - b) else None.

(** [offsets_in]: [base] is the address of the request path, from which a slice
    of it starts at [base + sl_start]. *)
Fixpoint offsets_loop (base path_end : N) (path : string) (ps : RouteParams) (o : PathParameterOffsets)
    : option PathParameterOffsets :=
  match ps with
  | [] => Some o
  | (name, v) :: ps =>
      let start_address := base + sl_start v in
      end_address ← checked_add start_address (str_len (sl_text v));
      if (start_address <? base) || (path_end <? end_address) then None
      else
        start ← checked_sub start_address base;
        stop ← checked_add start (str_len (sl_text v));
        if bool_decide (str_get path start stop = Some (sl_text v)) then
          o ← offsets_insert o name start stop;
          offsets_loop base path_end path ps o
        else None
  end.

Definition offsets_in (base : N) (ps : RouteParams) (path : string) : option PathParameterOffsets :=
  path_end ← checked_add base (str_len path);
  offsets_loop base path_end path ps [].

(** * Matching *)

Definition is_parameter_segment (segment : string) : bool :=
  starts_with segment "{" && ends_with segment "}".

Definition static_segment_count (s : OperationSpec) : nat :=
  length (List.filter (fun seg => negb (is_parameter_segment seg)) (split_on "/"%char (runtime_path s))).

(** [normalize_path]: the result is a prefix of the path. *)
Definition normalize_path (path : string) : string :=
  let path := default path (head (split_on "?"%char path)) in
  match strip_suffix_char "/"%char path with
  | Some p => if bool_decide (p = EmptyString) then path else p
  | None => path
  end.

Definition parameter_name (segment : string) : option string :=
  r ← strip_prefix_char "{"%char segment; strip_suffix_char "}"%char r.

Fixpoint match_segments (ts : list string) (ps : list Slice) (params : RouteParams) : option RouteParams :=
  match ts, ps with
  | [], [] => Some params
  | t :: ts, p :: ps =>
      match parameter_name t with
      | Some name =>
          if bool_decide (sl_text p = EmptyString) then None
          else params ← params_insert params name p; match_segments ts ps params
      | None => if bool_decide (t = sl_text p) then match_segments ts ps params else None
      end
  | _, _ => None
  end.

(** [match_path_template]. *)
Definition match_path_template (template path : string) : option RouteParams :=
  match_segments (split_on "/"%char template) (slices_from 0 (split_on "/"%char path)) [].

(** [Iterator::max_by_key]: the last of the greatest elements. *)
Definition max_by_key {A} (key : A -> nat) (l : list A) : option A :=
  foldl (fun best x => match best with
                       | Some b => if (key x <? key b)%nat then best else Some x
                       | None => Some x
                       end) None l.

(** The entries whose method, transport and template match, with their
    parameters. *)
Definition candidates {T} `{OperationEntry T} (specs : list T) (m path : string) (tr : Transport) : list (T * RouteParams) :=
  omap (fun e => params ← match_path_template (runtime_path (spec e)) (normalize_path path); Some (e, params))
    (List.filter (fun e => bool_decide (method_str (method (spec e)) = m) && bool_decide (transport (spec e) = tr)) specs).

Definition match_operation {T} `{OperationEntry T} (specs : list T) (m path : string) (tr : Transport)
    : option (T * RouteParams) :=
  max_by_key (fun e => static_segment_count (spec e.1)) (candidates specs m path tr).
