(* ===== verification/OperationRoutes.v ===== *)
(** The operation registries and the classifier that consults them:
    [apis/src/openai/operation.rs], the [routes] module of each protocol and
    [apis/src/operation_classifier].

    Each protocol is a module with its operations in declaration order.
    [classify_and_publish] is the one step both request hooks run; [Ctx] holds
    the parts of the request context it writes.  The generated OpenAPI contracts
    of the registries are left out. *)

From S2P Require Import Prelude Utf8 RustStr MetaCodec HeaderPolicy Operation.
From Stdlib Require Import Strings.Ascii.

Local Open Scope N_scope.
Local Open Scope rust_scope.

(** * Registries *)

(** An entry of a registry: the protocol's operation and its metadata. *)
Record Entry (O D : Type) := mkEntry { operation : O; definition : D }.
Arguments mkEntry {O D} _ _.
Arguments operation {O D} _.
Arguments definition {O D} _.

Record OpenAiOperationSpec := mkOpenAi { runtime : OperationSpec; spec_path : string }.

#[export] Instance openai_entry : OperationEntry OpenAiOperationSpec := runtime.
#[export] Instance wrapped_entry {O D} `{OperationEntry D} : OperationEntry (Entry O D) := fun e => spec (definition e).

Definition owns_contract (s : OpenAiOperationSpec) : bool :=
  match mode (runtime s) with Transform | Local => true | _ => false end.

(** What the OpenAI registries' macros build from one declaration. *)
Definition openai_operation (protocol id : string) (m : HttpMethod) (t : Transport) (path : string) (mo : HandlingMode)
    (b : RequestBody) : OpenAiOperationSpec :=
  mkOpenAi (mkSpec protocol id m t ("/v1" +:+ path) mo b) path.

Module Conversations.

Inductive ConversationOperation :=
| CreateConversation | GetConversation | UpdateConversation | DeleteConversation
| CreateConversationItems | ListConversationItems | GetConversationItem | DeleteConversationItem.

#[export] Instance ConversationOperation_eq_dec : EqDecision ConversationOperation.
Proof. solve_decision. Defined.

Definition APPLICATION_PROTOCOL : string := "openai_conversations".

Definition OPERATION_SPECS : list (Entry ConversationOperation OpenAiOperationSpec) :=
  let op o id m t path mo b := mkEntry o (openai_operation APPLICATION_PROTOCOL id m t path mo b) in
  [op CreateConversation "createConversation" Post Http "/conversations" Local (JsonBody false);
   op GetConversation "getConversation" Get Http "/conversations/{conversation_id}" Local NoBody;
   op UpdateConversation "updateConversation" Post Http "/conversations/{conversation_id}" Local (JsonBody true);
   op DeleteConversation "deleteConversation" Delete Http "/conversations/{conversation_id}" Local NoBody;
   op CreateConversationItems "createConversationItems" Post Http "/conversations/{conversation_id}/items" Local (JsonBody true);
   op ListConversationItems "listConversationItems" Get Http "/conversations/{conversation_id}/items" Local NoBody;
   op GetConversationItem "getConversationItem" Get Http "/conversations/{conversation_id}/items/{item_id}" Local NoBody;
   op DeleteConversationItem "deleteConversationItem" Delete Http "/conversations/{conversation_id}/items/{item_id}" Local NoBody]%string.

(** Generated from the same declarations. *)
Definition from_operation_id (id : string) : option ConversationOperation :=
  match id with
  | "createConversation" => Some CreateConversation
  | "getConversation" => Some GetConversation
  | "updateConversation" => Some UpdateConversation
  | "deleteConversation" => Some DeleteConversation
  | "createConversationItems" => Some CreateConversationItems
  | "listConversationItems" => Some ListConversationItems
  | "getConversationItem" => Some GetConversationItem
  | "deleteConversationItem" => Some DeleteConversationItem
  | _ => None
  end%string.

Definition operation_id (o : ConversationOperation) : string :=
  match o with
  | CreateConversation => "createConversation"
  | GetConversation => "getConversation"
  | UpdateConversation => "updateConversation"
  | DeleteConversation => "deleteConversation"
  | CreateConversationItems => "createConversationItems"
  | ListConversationItems => "listConversationItems"
  | GetConversationItem => "getConversationItem"
  | DeleteConversationItem => "deleteConversationItem"
  end.

Definition request_body (o : ConversationOperation) : RequestBody :=
  match o with
  | CreateConversation => JsonBody false
  | GetConversation => NoBody
  | UpdateConversation => JsonBody true
  | DeleteConversation => NoBody
  | CreateConversationItems => JsonBody true
  | ListConversationItems => NoBody
  | GetConversationItem => NoBody
  | DeleteConversationItem => NoBody
  end.

Definition match_route (method path : string) := match_operation OPERATION_SPECS method path Http.

End Conversations.

Module ChatCompletions.

Inductive ChatCompletionsOperation :=
| ListChatCompletions | CreateChatCompletion | GetChatCompletion | UpdateChatCompletion
| DeleteChatCompletion | GetChatCompletionMessages.

#[export] Instance ChatCompletionsOperation_eq_dec : EqDecision ChatCompletionsOperation.
Proof. solve_decision. Defined.

Definition APPLICATION_PROTOCOL : string := "openai_chat_completions".

Definition OPERATION_SPECS : list (Entry ChatCompletionsOperation OpenAiOperationSpec) :=
  let op o id m t path mo b := mkEntry o (openai_operation APPLICATION_PROTOCOL id m t path mo b) in
  [op ListChatCompletions "listChatCompletions" Get Http "/chat/completions" Passthrough NoBody;
   op CreateChatCompletion "createChatCompletion" Post Http "/chat/completions" Passthrough (JsonBody true);
   op GetChatCompletion "getChatCompletion" Get Http "/chat/completions/{completion_id}" Passthrough NoBody;
   op UpdateChatCompletion "updateChatCompletion" Post Http "/chat/completions/{completion_id}" Passthrough (JsonBody true);
   op DeleteChatCompletion "deleteChatCompletion" Delete Http "/chat/completions/{completion_id}" Passthrough NoBody;
   op GetChatCompletionMessages "getChatCompletionMessages" Get Http "/chat/completions/{completion_id}/messages" Passthrough NoBody]%string.

Definition match_route (method path : string) := match_operation OPERATION_SPECS method path Http.

Definition is_create_chat_completion (protocol id : string) : bool :=
  bool_decide (protocol = APPLICATION_PROTOCOL) &&
  existsb (fun e => bool_decide (operation e = CreateChatCompletion) && bool_decide (operation_id (spec e) = id)) OPERATION_SPECS.

End ChatCompletions.

Module Files.

Inductive FilesOperation :=
| ListFiles | CreateFile | RetrieveFile | DeleteFile
| DownloadFile.

#[export] Instance FilesOperation_eq_dec : EqDecision FilesOperation.
Proof. solve_decision. Defined.

Definition APPLICATION_PROTOCOL : string := "openai_files".

Definition OPERATION_SPECS : list (Entry FilesOperation OpenAiOperationSpec) :=
  let op o id m t path mo b := mkEntry o (openai_operation APPLICATION_PROTOCOL id m t path mo b) in
  [op ListFiles "listFiles" Get Http "/files" Passthrough NoBody;
   op CreateFile "createFile" Post Http "/files" Passthrough (MultipartBody true);
   op RetrieveFile "retrieveFile" Get Http "/files/{file_id}" Passthrough NoBody;
   op DeleteFile "deleteFile" Delete Http "/files/{file_id}" Passthrough NoBody;
   op DownloadFile "downloadFile" Get Http "/files/{file_id}/content" Passthrough NoBody]%string.

Definition match_route (method path : string) := match_operation OPERATION_SPECS method path Http.

End Files.

Module VectorStores.

Inductive VectorStoresOperation :=
| ListVectorStores | CreateVectorStore | GetVectorStore | ModifyVectorStore
| DeleteVectorStore | SearchVectorStore | CreateVectorStoreFileBatch | GetVectorStoreFileBatch
| CancelVectorStoreFileBatch | ListFilesInVectorStoreBatch | ListVectorStoreFiles | CreateVectorStoreFile
| GetVectorStoreFile | UpdateVectorStoreFileAttributes | DeleteVectorStoreFile | RetrieveVectorStoreFileContent.

#[export] Instance VectorStoresOperation_eq_dec : EqDecision VectorStoresOperation.
Proof. solve_decision. Defined.

Definition APPLICATION_PROTOCOL : string := "openai_vector_stores".

Definition OPERATION_SPECS : list (Entry VectorStoresOperation OpenAiOperationSpec) :=
  let op o id m t path mo b := mkEntry o (openai_operation APPLICATION_PROTOCOL id m t path mo b) in
  [op ListVectorStores "listVectorStores" Get Http "/vector_stores" Passthrough NoBody;
   op CreateVectorStore "createVectorStore" Post Http "/vector_stores" Passthrough (JsonBody true);
   op GetVectorStore "getVectorStore" Get Http "/vector_stores/{vector_store_id}" Passthrough NoBody;
   op ModifyVectorStore "modifyVectorStore" Post Http "/vector_stores/{vector_store_id}" Passthrough (JsonBody true);
   op DeleteVectorStore "deleteVectorStore" Delete Http "/vector_stores/{vector_store_id}" Passthrough NoBody;
   op SearchVectorStore "searchVectorStore" Post Http "/vector_stores/{vector_store_id}/search" Passthrough (JsonBody true);
   op CreateVectorStoreFileBatch "createVectorStoreFileBatch" Post Http "/vector_stores/{vector_store_id}/file_batches" Passthrough (JsonBody true);
   op GetVectorStoreFileBatch "getVectorStoreFileBatch" Get Http "/vector_stores/{vector_store_id}/file_batches/{batch_id}" Passthrough NoBody;
   op CancelVectorStoreFileBatch "cancelVectorStoreFileBatch" Post Http "/vector_stores/{vector_store_id}/file_batches/{batch_id}/cancel" Passthrough NoBody;
   op ListFilesInVectorStoreBatch "listFilesInVectorStoreBatch" Get Http "/vector_stores/{vector_store_id}/file_batches/{batch_id}/files" Passthrough NoBody;
   op ListVectorStoreFiles "listVectorStoreFiles" Get Http "/vector_stores/{vector_store_id}/files" Passthrough NoBody;
   op CreateVectorStoreFile "createVectorStoreFile" Post Http "/vector_stores/{vector_store_id}/files" Passthrough (JsonBody true);
   op GetVectorStoreFile "getVectorStoreFile" Get Http "/vector_stores/{vector_store_id}/files/{file_id}" Passthrough NoBody;
   op UpdateVectorStoreFileAttributes "updateVectorStoreFileAttributes" Post Http "/vector_stores/{vector_store_id}/files/{file_id}" Passthrough (JsonBody true);
   op DeleteVectorStoreFile "deleteVectorStoreFile" Delete Http "/vector_stores/{vector_store_id}/files/{file_id}" Passthrough NoBody;
   op RetrieveVectorStoreFileContent "retrieveVectorStoreFileContent" Get Http "/vector_stores/{vector_store_id}/files/{file_id}/content" Passthrough NoBody]%string.

Definition match_route (method path : string) := match_operation OPERATION_SPECS method path Http.

End VectorStores.

Module ResponsesRoutes.

Inductive ResponsesOperation :=
| CreateResponse | CreateResponseWebSocket | GetResponse | DeleteResponse
| CancelResponse | ListInputItems | CountInputTokens | CompactConversation.

#[export] Instance ResponsesOperation_eq_dec : EqDecision ResponsesOperation.
Proof. solve_decision. Defined.

Definition APPLICATION_PROTOCOL : string := "openai_responses".

Definition OPERATION_SPECS : list (Entry ResponsesOperation OpenAiOperationSpec) :=
  let op o id m t path mo b := mkEntry o (openai_operation APPLICATION_PROTOCOL id m t path mo b) in
  [op CreateResponse "createResponse" Post Http "/responses" Transform (JsonBody true);
   op CreateResponseWebSocket "praxis_createResponseWebSocket" Get WebSocket "/responses" Passthrough NoBody;
   op GetResponse "getResponse" Get Http "/responses/{response_id}" Passthrough NoBody;
   op DeleteResponse "deleteResponse" Delete Http "/responses/{response_id}" Passthrough NoBody;
   op CancelResponse "cancelResponse" Post Http "/responses/{response_id}/cancel" Passthrough NoBody;
   op ListInputItems "listInputItems" Get Http "/responses/{response_id}/input_items" Passthrough NoBody;
   op CountInputTokens "Getinputtokencounts" Post Http "/responses/input_tokens" Passthrough (JsonBody false);
   op CompactConversation "Compactconversation" Post Http "/responses/compact" Passthrough (JsonBody false)]%string.

Definition match_route (method path : string) (tr : Transport) := match_operation OPERATION_SPECS method path tr.

Definition operation_for_id (id : string) : option ResponsesOperation :=
  operation <$> List.find (fun e => bool_decide (operation_id (spec e) = id)) OPERATION_SPECS.

End ResponsesRoutes.

Module AnthropicMessages.

Inductive AnthropicMessagesOperation :=
| CreateMessage | CountMessageTokens | CreateMessageBatch | ListMessageBatches
| GetMessageBatch | DeleteMessageBatch | CancelMessageBatch | GetMessageBatchResults.

#[export] Instance AnthropicMessagesOperation_eq_dec : EqDecision AnthropicMessagesOperation.
Proof. solve_decision. Defined.

Definition APPLICATION_PROTOCOL : string := "anthropic_messages".

Definition OPERATION_SPECS : list (Entry AnthropicMessagesOperation OperationSpec) :=
  let op o id m t path mo b := mkEntry o (mkSpec APPLICATION_PROTOCOL id m t path mo b) in
  [op CreateMessage "messages_post" Post Http "/v1/messages" Inspect (JsonBody true);
   op CountMessageTokens "messages_count_tokens_post" Post Http "/v1/messages/count_tokens" Passthrough (JsonBody true);
   op CreateMessageBatch "message_batches_post" Post Http "/v1/messages/batches" Passthrough (JsonBody true);
   op ListMessageBatches "message_batches_list" Get Http "/v1/messages/batches" Passthrough NoBody;
   op GetMessageBatch "message_batches_retrieve" Get Http "/v1/messages/batches/{message_batch_id}" Passthrough NoBody;
   op DeleteMessageBatch "message_batches_delete" Delete Http "/v1/messages/batches/{message_batch_id}" Passthrough NoBody;
   op CancelMessageBatch "message_batches_cancel" Post Http "/v1/messages/batches/{message_batch_id}/cancel" Passthrough NoBody;
   op GetMessageBatchResults "message_batches_results" Get Http "/v1/messages/batches/{message_batch_id}/results" Passthrough NoBody]%string.

Definition match_route (method path : string) := match_operation OPERATION_SPECS method path Http.

End AnthropicMessages.

(** * Classification *)

Record AiOperationMatch := mkMatch {
  m_application_protocol : string;
  m_operation_id : string;
  m_transport : Transport;
  m_request_body : RequestBody;
  m_path_parameters : PathParameterOffsets
}.

(** [classified]; [base] is the address of the request path. *)
Definition classified {T} `{OperationEntry T} (base : N) (path : string) (route : T * RouteParams) : option AiOperationMatch :=
  let s := spec route.1 in
  offsets ← offsets_in base route.2 path;
  Some (mkMatch (application_protocol s) (operation_id s) (transport s) (request_body s) offsets).

Section Classify.
Context (base : N).

Definition classify_conversation (method path : string) : option AiOperationMatch :=
  Conversations.match_route method path ≫= classified base path.
Definition classify_chat_completions (method path : string) : option AiOperationMatch :=
  ChatCompletions.match_route method path ≫= classified base path.
Definition classify_anthropic_messages (method path : string) : option AiOperationMatch :=
  AnthropicMessages.match_route method path ≫= classified base path.
Definition classify_files (method path : string) : option AiOperationMatch :=
  Files.match_route method path ≫= classified base path.
Definition classify_vector_stores (method path : string) : option AiOperationMatch :=
  VectorStores.match_route method path ≫= classified base path.
Definition classify_responses (method path : string) (tr : Transport) : option AiOperationMatch :=
  ResponsesRoutes.match_route method path tr ≫= classified base path.

(** [Option::or_else]. *)
Definition or_else {A} (a b : option A) : option A := match a with Some _ => a | None => b end.

Definition classify (method path : string) (tr : Transport) : option AiOperationMatch :=
  let http_match :=
    if bool_decide (tr = Http) then
      or_else (or_else (or_else (or_else
        (classify_conversation method path)
        (classify_chat_completions method path))
        (classify_files method path))
        (classify_vector_stores method path))
        (classify_anthropic_messages method path)
    else None in
  or_else http_match (classify_responses method path tr).
End Classify.

(** Header lines in order, a value being [None] when it is not text. *)
Abbreviation Headers := (list (string * option string)).

Definition get_all (h : Headers) (name : string) : list (option string) :=
  snd <$> List.filter (fun e => bool_decide (e.1 = name)) h.

Definition request_transport (method : string) (h : Headers) : Transport :=
  if negb (bool_decide (method = "GET"%string)) then Http
  else
    let connection_upgrades :=
      existsb (fun token => eq_ignore_ascii_case (trim token) "upgrade")
        (concat (split_on ","%char <$> omap id (get_all h "connection"))) in
    let upgrades_to_websocket :=
      match get_all h "upgrade" with
      | v :: rest =>
          match v with Some v => eq_ignore_ascii_case (trim v) "websocket" | None => false end
          && match rest with [] => true | _ => false end
      | [] => false
      end in
    if connection_upgrades && upgrades_to_websocket then WebSocket else Http.

(** * Configuration *)

Definition DEFAULT_APPLICATION_PROTOCOL_HEADER : string := "x-praxis-ai-application-protocol".
Definition DEFAULT_OPERATION_HEADER : string := "x-praxis-ai-operation".
Definition FOREIGN_INTERNAL_PREFIXES : list string := ["x-mcp-"; "x-a2a-"]%string.

Record ValidatedConfig := mkClassifierConfig {
  application_protocol_header : option string;
  operation_header : option string
}.

Section Config.
Context (parse_header_name : string -> result string string).

Definition parse_header (value : option string) (field dedicated : string) : result string (option string) :=
  match value with
  | None => Ok None
  | Some name =>
      let? header := parse_dedicated_promotion_header parse_header_name "ai_operation" field name [dedicated] in
      match List.find (fun prefix => starts_with header prefix) FOREIGN_INTERNAL_PREFIXES with
      | Some prefix =>
          Err ("ai_operation: '" +:+ field +:+ "' must not use the reserved '" +:+ prefix +:+
               "' namespace, which belongs to another filter")
      | None => Ok (Some header)
      end
  end.

(** [{:?}] of a [HeaderName]. *)
Definition debug_name (name : string) : string := String "034"%char name +:+ String "034"%char "".

(** [build_config]: the two configured names, [None] disabling a header. *)
Definition build_config (protocol operation : option string) : result string ValidatedConfig :=
  let? protocol_header := parse_header protocol "headers.application_protocol" DEFAULT_APPLICATION_PROTOCOL_HEADER in
  let? op_header := parse_header operation "headers.operation" DEFAULT_OPERATION_HEADER in
  match protocol_header, op_header with
  | Some p, Some o =>
      if bool_decide (p = o)
      then Err ("ai_operation: headers.application_protocol and headers.operation must differ, both are " +:+ debug_name p)
      else Ok (mkClassifierConfig protocol_header op_header)
  | _, _ => Ok (mkClassifierConfig protocol_header op_header)
  end.
End Config.

(** * The filter *)

Inductive ErrorFormatter := OpenAiErrorFormatter | AnthropicErrorFormatter (request_headers : Headers).

(** The head of the request and what the filter writes to its context. *)
Record Ctx := mkCtx {
  req_method : string;
  req_path : string;
  req_headers : Headers;
  classified_marker : bool;
  operation_match : option AiOperationMatch;
  error_formatter : option ErrorFormatter;
  filter_metadata : Metadata;
  filter_results : list (string * string);
  headers_to_set : list (string * string);
  headers_to_remove : list string
}.

Definition with_match (x : Ctx) (m : AiOperationMatch) (md : Metadata) (rs : list (string * string)) : Ctx :=
  mkCtx (req_method x) (req_path x) (req_headers x) (classified_marker x) (Some m) (error_formatter x) md rs
    (headers_to_set x) (headers_to_remove x).
Definition with_formatter (x : Ctx) (f : ErrorFormatter) : Ctx :=
  mkCtx (req_method x) (req_path x) (req_headers x) (classified_marker x) (operation_match x) (Some f)
    (filter_metadata x) (filter_results x) (headers_to_set x) (headers_to_remove x).
Definition with_header_changes (x : Ctx) (set : list (string * string)) (remove : list string) : Ctx :=
  mkCtx (req_method x) (req_path x) (req_headers x) (classified_marker x) (operation_match x) (error_formatter x)
    (filter_metadata x) (filter_results x) (headers_to_set x ++ set) (headers_to_remove x ++ remove).
Definition with_marker (x : Ctx) : Ctx :=
  mkCtx (req_method x) (req_path x) (req_headers x) true (operation_match x) (error_formatter x)
    (filter_metadata x) (filter_results x) (headers_to_set x) (headers_to_remove x).

Section Filter.
Context `{MetadataApi} (base : N) (header_value_ok : string -> bool).
(** [FilterResultSet::set], which may refuse a value. *)
Context (set_result : list (string * string) -> string -> string -> option (list (string * string))).
Context (config : ValidatedConfig).

Definition set_routing_headers (x : Ctx) (m : AiOperationMatch) : Ctx :=
  let header name value := match name with Some n => if header_value_ok value then [(n, value)] else [] | None => [] end in
  with_header_changes x
    (header (application_protocol_header config) (m_application_protocol m) ++
     header (operation_header config) (m_operation_id m)) [].

Definition remove_routing_headers (x : Ctx) : Ctx :=
  with_header_changes x [] (option_list (application_protocol_header config) ++ option_list (operation_header config)).

Definition install_error_formatter (x : Ctx) (protocol : string) : Ctx :=
  if starts_with protocol "openai_" then with_formatter x OpenAiErrorFormatter
  else if starts_with protocol "anthropic_" then with_formatter x (AnthropicErrorFormatter (req_headers x))
  else x.

(** [publish_match]: the flag tells whether it succeeded. *)
Definition publish_match (x : Ctx) (m : AiOperationMatch) : Ctx * bool :=
  let md := set_metadata (filter_metadata x) "ai_operation.application_protocol" (m_application_protocol m) in
  let md := set_metadata md "ai_operation.operation_id" (m_operation_id m) in
  match set_result (filter_results x) "application_protocol" (m_application_protocol m) with
  | None => (with_match x m md (filter_results x), false)
  | Some rs =>
      match set_result rs "operation_id" (m_operation_id m) with
      | None => (with_match x m md rs, false)
      | Some rs => (with_match x m md rs, true)
      end
  end.

Definition classify_and_publish (x : Ctx) : Ctx * bool :=
  if classified_marker x then (x, true)
  else
    let tr := request_transport (req_method x) (req_headers x) in
    match classify base (req_method x) (req_path x) tr with
    | Some m =>
        match publish_match x m with
        | (x, false) => (x, false)
        | (x, true) =>
            let x := install_error_formatter x (m_application_protocol m) in
            (with_marker (set_routing_headers x m), true)
        end
    | None => (with_marker (remove_routing_headers x), true)
    end.

(** [on_request] and [on_request_body]: the body is not looked at. *)
Definition on_request (x : Ctx) : Ctx * bool := classify_and_publish x.
Definition on_request_body (x : Ctx) (body : option bytes) (end_of_stream : bool) : Ctx * bool := classify_and_publish x.
End Filter.
