(* ===== verification/OperationProps.v ===== *)
(** Properties of operation matching and classification ([Operation],
    [OperationRoutes]): which entry of a registry a request head selects, that
    the order of declarations and of registries does not matter for the shipped
    registries, that every captured parameter can be read back from the request
    path, and that the classifier owns its routing headers. *)

From S2P Require Import Prelude Utf8 RustStr MetaCodec HeaderPolicy Operation OperationRoutes.
From Stdlib Require Import Strings.Ascii Strings.Byte.

Local Open Scope N_scope.

(** * The most specific candidate *)

Section MaxByKey.
Context {A : Type} (key : A -> nat).

Lemma max_by_key_fold l b :
  exists x, foldl (fun best x => match best with
                         | Some b => if (key x <? key b)%nat then best else Some x
                         | None => Some x
                         end) (Some b) l = Some x
            /\ x ∈ b :: l /\ (forall y, y ∈ b :: l -> (key y <= key x)%nat).
Proof.
  revert b. induction l as [|a l IH]; intros b.
  { exists b. split_and!; [done|by left|]. intros y [->|[]%not_elem_of_nil]%elem_of_cons. lia. }
  cbn [foldl]. destruct (Nat.ltb_spec (key a) (key b)) as [Hlt|Hge].
  - destruct (IH b) as (x & -> & Hin & Hmax). exists x.
    split_and!; [done|apply elem_of_cons in Hin as [->|]; [by left|by do 2 right]|].
    intros y [->|[->|Hy]%elem_of_cons]%elem_of_cons; [apply Hmax; by left| |apply Hmax; by right].
    specialize (Hmax b ltac:(by left)). lia.
  - destruct (IH a) as (x & -> & Hin & Hmax). exists x. split_and!; [done|by right|].
    intros y [->|Hy]%elem_of_cons; [|by apply Hmax]. specialize (Hmax a ltac:(by left)). lia.
Qed.

Lemma max_by_key_spec l x :
  max_by_key key l = Some x -> x ∈ l /\ (forall y, y ∈ l -> (key y <= key x)%nat).
Proof.
  destruct l as [|a l]; [done|]. unfold max_by_key. cbn [foldl].
  destruct (max_by_key_fold l a) as (x' & -> & Hin & Hmax). intros [= <-]. done.
Qed.

Lemma max_by_key_None l : max_by_key key l = None <-> l = [].
Proof.
  destruct l as [|a l]; [done|]. unfold max_by_key. cbn [foldl].
  destruct (max_by_key_fold l a) as (x & -> & _). done.
Qed.

(** With distinct keys the choice does not depend on the order. *)
Lemma max_by_key_perm l l' : NoDup (key <$> l) -> l ≡ₚ l' -> max_by_key key l = max_by_key key l'.
Proof.
  intros Hnd Hp. destruct (max_by_key key l) as [x|] eqn:E, (max_by_key key l') as [x'|] eqn:E'.
  - apply max_by_key_spec in E as [Hx Hmax], E' as [Hx' Hmax']. rewrite <- Hp in Hx'.
    assert (key x = key x') as Hk by (specialize (Hmax _ Hx'); rewrite Hp in Hx; specialize (Hmax' _ Hx); lia).
    apply list_elem_of_lookup in Hx as [i Hi], Hx' as [j Hj].
    assert (i = j) as ->; [|congruence]. eapply (NoDup_lookup _ i j (key x)); [done|..];
      rewrite list_lookup_fmap, ?Hi, ?Hj; cbn; congruence.
  - apply max_by_key_None in E'. subst l'. apply Permutation_nil_r in Hp. subst l. done.
  - apply max_by_key_None in E. subst l. apply Permutation_nil in Hp. subst l'. done.
  - done.
Qed.
End MaxByKey.

(** * Templates that can match one path *)

Fixpoint compatible (ts us : list string) : bool :=
  match ts, us with
  | [], [] => true
  | t :: ts, u :: us =>
      (bool_decide (is_Some (parameter_name t)) || bool_decide (is_Some (parameter_name u)) || bool_decide (t = u))
      && compatible ts us
  | _, _ => false
  end.

Definition overlap (a b : OperationSpec) : bool :=
  compatible (split_on "/"%char (runtime_path a)) (split_on "/"%char (runtime_path b)).

Lemma match_segments_cons t ts p ps r q :
  match_segments (t :: ts) (p :: ps) r = Some q ->
  (exists r1, match_segments ts ps r1 = Some q) /\ (parameter_name t = None -> t = sl_text p).
Proof.
  cbn. destruct (parameter_name t); case_bool_decide; try done; [|by eauto].
  intros (x & _ & Hx)%bind_Some. split; [by eauto|done].
Qed.

Lemma match_compatible ts us ps r r' q q' :
  match_segments ts ps r = Some q -> match_segments us ps r' = Some q' -> compatible ts us = true.
Proof.
  revert us ps r r'. induction ts as [|t ts IH]; intros [|u us] [|p ps] r r' H1 H2; try done.
  apply match_segments_cons in H1 as [[r1 H1] Ht], H2 as [[r2 H2] Hu]. cbn [compatible]. apply andb_true_iff.
  split; [|by eapply IH]. rewrite !orb_true_iff, !bool_decide_eq_true.
  destruct (parameter_name t); [by left; left|]. destruct (parameter_name u); [by left; right|].
  right. by rewrite Ht, <- Hu.
Qed.

Lemma match_overlap a b path r r' :
  match_path_template (runtime_path a) path = Some r -> match_path_template (runtime_path b) path = Some r' ->
  overlap a b = true.
Proof. apply match_compatible. Qed.

(** * Registries without ties *)

(** Two entries one request head could select with equal precedence. *)
Definition tie (a b : OperationSpec) : bool :=
  bool_decide (method_str (method a) = method_str (method b)) && bool_decide (transport a = transport b)
  && overlap a b && bool_decide (static_segment_count a = static_segment_count b).

Fixpoint pairwise {A} (r : A -> A -> bool) (l : list A) : bool :=
  match l with [] => true | a :: l => forallb (r a) l && pairwise r l end.

Definition unambiguous (specs : list OperationSpec) : bool := pairwise (fun a b => negb (tie a b)) specs.

Section Registry.
Context {T : Type} `{OperationEntry T}.

Lemma candidates_spec specs m path tr e ps :
  (e, ps) ∈ candidates specs m path tr <->
  e ∈ specs /\ method_str (method (spec e)) = m /\ transport (spec e) = tr
  /\ match_path_template (runtime_path (spec e)) (normalize_path path) = Some ps.
Proof.
  unfold candidates. rewrite list_elem_of_omap. setoid_rewrite list_elem_of_In. setoid_rewrite filter_In.
  setoid_rewrite andb_true_iff. setoid_rewrite bool_decide_eq_true. split.
  - intros (x & (Hx & Hm & Ht) & Hp). apply bind_Some in Hp as (q & Hq & [= -> ->]). done.
  - intros (He & Hm & Ht & Hp). exists e. split; [done|]. by rewrite Hp.
Qed.

(** The entry selected for a head: it matches, and no entry that matches has
    more literal segments. *)
Lemma match_operation_spec specs m path tr e ps :
  match_operation specs m path tr = Some (e, ps) ->
  (e, ps) ∈ candidates specs m path tr /\
  forall e' ps', (e', ps') ∈ candidates specs m path tr -> (static_segment_count (spec e') <= static_segment_count (spec e))%nat.
Proof.
  intros [Hin Hmax]%max_by_key_spec. split; [done|]. intros e' ps' H'. apply (Hmax _ H').
Qed.

Lemma candidates_nodup specs m path tr :
  unambiguous (spec <$> specs) = true ->
  NoDup ((fun e => static_segment_count (spec e.1)) <$> candidates specs m path tr).
Proof.
  unfold unambiguous. induction specs as [|a specs IH]; intros Hu; [constructor|].
  cbn in Hu. apply andb_true_iff in Hu as [Ha Hu]. specialize (IH Hu).
  unfold candidates in *. cbn [List.filter]. destruct (_ && _) eqn:Hsel; [|done]. cbn [omap list_omap].
  destruct (match_path_template _ _) as [ps|] eqn:Hps; cbn; [|done]. apply NoDup_cons. split; [|done].
  intros ([e q] & Hk & Hin)%list_elem_of_fmap. cbn in Hk.
  apply candidates_spec in Hin as (He & Hm & Ht & Hq).
  apply andb_true_iff in Hsel as [Hsm Hst]. rewrite bool_decide_eq_true in Hsm, Hst.
  rewrite forallb_forall in Ha. specialize (Ha (spec e)). rewrite <- list_elem_of_In in Ha.
  specialize (Ha (list_elem_of_fmap_2 spec _ _ He)). apply negb_true_iff in Ha. unfold tie in Ha.
  rewrite !bool_decide_eq_true_2 in Ha by congruence. by rewrite (match_overlap _ _ _ _ _ Hps Hq) in Ha.
Qed.

Lemma candidates_perm specs specs' m path tr :
  specs ≡ₚ specs' -> candidates specs m path tr ≡ₚ candidates specs' m path tr.
Proof.
  intros Hp. unfold candidates. apply omap_Permutation.
  induction Hp as [|x l l' _ IH|x y l|l l' l'' _ IH1 _ IH2]; cbn; try done.
  - case_match; [by constructor|done].
  - repeat case_match; [constructor|..]; done.
  - by rewrite IH1.
Qed.

Lemma match_operation_perm specs specs' m path tr :
  unambiguous (spec <$> specs) = true -> specs ≡ₚ specs' ->
  match_operation specs' m path tr = match_operation specs m path tr.
Proof.
  intros Hu Hp. symmetry. apply max_by_key_perm; [by apply candidates_nodup|by apply candidates_perm].
Qed.
End Registry.

(** * The shipped registries *)

Definition registries : list (list OperationSpec) :=
  [spec <$> Conversations.OPERATION_SPECS; spec <$> ChatCompletions.OPERATION_SPECS; spec <$> Files.OPERATION_SPECS;
   spec <$> VectorStores.OPERATION_SPECS; spec <$> AnthropicMessages.OPERATION_SPECS;
   spec <$> ResponsesRoutes.OPERATION_SPECS].

(** No template of one registry can match a path of the other. *)
Definition separate (r1 r2 : list OperationSpec) : bool :=
  forallb (fun a => forallb (fun b => negb (overlap a b)) r2) r1.

Lemma max_by_key_fmap {A B} (key : B -> nat) (f : A -> B) l :
  max_by_key key (f <$> l) = f <$> max_by_key (fun x => key (f x)) l.
Proof.
  unfold max_by_key. change (@None B) with (f <$> @None A). generalize (@None A).
  induction l as [|a l IH]; intros b; [done|]. cbn [fmap list_fmap foldl]. rewrite <- IH. f_equal.
  destruct b as [b|]; cbn; [|done]. by case_match.
Qed.

Lemma candidates_fmap {T} `{OperationEntry T} (l : list T) m path tr :
  candidates (spec <$> l) m path tr = (fun e => (spec e.1, e.2)) <$> candidates l m path tr.
Proof.
  unfold candidates. induction l as [|a l IH]; [done|]. cbn [fmap list_fmap List.filter].
  change (spec (spec a)) with (spec a). destruct (_ && _); cbn [omap list_omap]; [|exact IH].
  change (spec (spec a)) with (spec a). destruct (match_path_template _ _); cbn; [|exact IH]. f_equal. exact IH.
Qed.

Section Classify.
Context (base : N) (m path : string).

Lemma classified_fmap {T} `{OperationEntry T} (l : list T) tr :
  match_operation l m path tr ≫= classified base path = match_operation (spec <$> l) m path tr ≫= classified base path.
Proof.
  unfold match_operation. rewrite candidates_fmap, max_by_key_fmap. by destruct (max_by_key _ _) as [[]|].
Qed.

Definition classify_in (r : list OperationSpec) (tr : Transport) : option AiOperationMatch :=
  match_operation r m path tr ≫= classified base path.

Lemma other_transport r tr :
  forallb (fun s => negb (bool_decide (transport s = tr))) r = true -> classify_in r tr = None.
Proof.
  intros Hr. unfold classify_in. destruct (match_operation r m path tr) as [[e ps]|] eqn:E; [|done].
  apply match_operation_spec in E as [(He & _ & Ht & _)%candidates_spec _].
  rewrite forallb_forall in Hr. setoid_rewrite <- list_elem_of_In in Hr. specialize (Hr e He).
  rewrite bool_decide_eq_true_2 in Hr; done.
Qed.

Lemma classify_registries tr :
  classify base m path tr = foldr (fun r acc => or_else (classify_in r tr) acc) None registries.
Proof.
  unfold classify, classify_conversation, classify_chat_completions, classify_files, classify_vector_stores,
    classify_anthropic_messages, classify_responses, Conversations.match_route, ChatCompletions.match_route,
    Files.match_route, VectorStores.match_route, AnthropicMessages.match_route, ResponsesRoutes.match_route.
  rewrite (classified_fmap Conversations.OPERATION_SPECS), (classified_fmap ChatCompletions.OPERATION_SPECS),
    (classified_fmap Files.OPERATION_SPECS), (classified_fmap VectorStores.OPERATION_SPECS),
    (classified_fmap AnthropicMessages.OPERATION_SPECS), (classified_fmap ResponsesRoutes.OPERATION_SPECS).
  unfold registries. cbn [foldr]. repeat match goal with |- context [match_operation ?r m path ?t ≫= classified base path] =>
    change (match_operation r m path t ≫= classified base path) with (classify_in r t) end.
  destruct tr; [rewrite bool_decide_eq_true_2 by done|rewrite bool_decide_eq_false_2 by done].
  - repeat match goal with |- context [classify_in ?r Http] => generalize (classify_in r Http); intros [?|]; [done|] end.
    done.
  - rewrite (other_transport (spec <$> Conversations.OPERATION_SPECS) WebSocket), (other_transport (spec <$> ChatCompletions.OPERATION_SPECS) WebSocket),
      (other_transport (spec <$> Files.OPERATION_SPECS) WebSocket), (other_transport (spec <$> VectorStores.OPERATION_SPECS) WebSocket),
      (other_transport (spec <$> AnthropicMessages.OPERATION_SPECS) WebSocket) by (vm_compute; reflexivity).
    by destruct (classify_in _ WebSocket).
Qed.

Lemma candidates_app (r1 r2 : list OperationSpec) tr :
  candidates (r1 ++ r2) m path tr = candidates r1 m path tr ++ candidates r2 m path tr.
Proof. unfold candidates. by rewrite List.filter_app, omap_app. Qed.

Lemma separate_candidates r1 r2 tr :
  separate r1 r2 = true -> candidates r1 m path tr = [] \/ candidates r2 m path tr = [].
Proof.
  intros Hs. destruct (candidates r1 m path tr) as [|[a pa] l1] eqn:E1; [by left|].
  destruct (candidates r2 m path tr) as [|[b pb] l2] eqn:E2; [by right|].
  assert ((a, pa) ∈ candidates r1 m path tr) as (Ha & _ & _ & Hpa)%candidates_spec by (rewrite E1; by left).
  assert ((b, pb) ∈ candidates r2 m path tr) as (Hb & _ & _ & Hpb)%candidates_spec by (rewrite E2; by left).
  unfold separate in Hs. rewrite forallb_forall in Hs. setoid_rewrite forallb_forall in Hs.
  setoid_rewrite <- list_elem_of_In in Hs. specialize (Hs a Ha b Hb).
  pose proof (match_overlap _ _ _ _ _ Hpa Hpb) as Ho. change (overlap a b = true) in Ho. by rewrite Ho in Hs.
Qed.

Lemma classify_in_app r1 r2 tr :
  separate r1 r2 = true -> classify_in (r1 ++ r2) tr = or_else (classify_in r1 tr) (classify_in r2 tr).
Proof.
  intros [H1|H2]%(separate_candidates _ _ tr); unfold classify_in, match_operation; rewrite candidates_app.
  - by rewrite H1.
  - rewrite H2, app_nil_r. cbn. by destruct (_ ≫= _).
Qed.

Lemma separate_concat r rs : forallb (separate r) rs = true -> separate r (concat rs) = true.
Proof.
  unfold separate. rewrite !forallb_forall. intros Hs a Ha. apply forallb_forall. intros b Hb.
  apply in_concat in Hb as (r2 & Hr2 & Hb). specialize (Hs r2 Hr2). rewrite forallb_forall in Hs.
  specialize (Hs a Ha). rewrite forallb_forall in Hs. by apply Hs.
Qed.

Lemma classify_in_concat rs tr :
  pairwise separate rs = true -> classify_in (concat rs) tr = foldr (fun r acc => or_else (classify_in r tr) acc) None rs.
Proof.
  induction rs as [|r rs IH]; cbn [pairwise concat foldr]; intros Hs; [done|].
  apply andb_true_iff in Hs as [Hr Hs]. rewrite classify_in_app by (by apply separate_concat). by rewrite IH.
Qed.

(** C28. Neither the order in which operations are declared nor the order in
    which the registries are consulted decides a classification: for every head,
    [classify] gives what one registry listing all the shipped operations in any
    order gives. *)
Theorem classification_order_free all tr :
  all ≡ₚ concat registries ->
  classify base m path tr = match_operation all m path tr ≫= classified base path.
Proof.
  intros Hp. rewrite classify_registries. change (match_operation all m path tr ≫= _) with (classify_in all tr).
  assert (classify_in all tr = classify_in (concat registries) tr) as ->.
  { unfold classify_in. erewrite (match_operation_perm (concat registries) all); [done| |done].
    vm_compute. reflexivity. }
  symmetry. apply classify_in_concat. vm_compute. reflexivity.
Qed.
End Classify.

Lemma classification_order_free_witness :
  classify 0 "GET" "/v1/responses/r1?x=1" Http =
    match_operation (rev (concat registries)) "GET" "/v1/responses/r1?x=1" Http ≫= classified 0 "/v1/responses/r1?x=1"
  /\ is_Some (classify 0 "GET" "/v1/responses/r1?x=1" Http).
Proof.
  split; [|vm_compute; eauto].
  apply (classification_order_free 0 "GET" "/v1/responses/r1?x=1" (rev (concat registries)) Http).
  symmetry. apply Permutation_rev.
Defined.

(** * Captured parameters *)

(** ** Slices of a path *)

(** [v] is a whole segment of [s]: between separators or the ends. *)
Definition segment_of (s : string) (stops : list ascii) (v : Slice) : Prop :=
  exists pre post, s = pre +:+ sl_text v +:+ post /\ sl_start v = str_len pre
    /\ (pre = ""%string \/ exists p, pre = p +:+ "/")
    /\ (post = ""%string \/ exists c p, post = String c p /\ c ∈ stops).

Lemma slices_segment o pieces v :
  v ∈ slices_from o pieces ->
  exists pre post, join "/"%char pieces = pre +:+ sl_text v +:+ post /\ sl_start v = o + str_len pre
    /\ (pre = ""%string \/ exists p, pre = p +:+ "/") /\ (post = ""%string \/ exists p, post = String "/"%char p).
Proof.
  revert o. induction pieces as [|s rest IH]; intros o Hv; [by apply not_elem_of_nil in Hv|].
  cbn [slices_from] in Hv. apply elem_of_cons in Hv as [->|Hv].
  - exists ""%string. cbn [sl_text sl_start str_len]. destruct rest as [|x rest].
    + exists ""%string. cbn [join]. rewrite str_app_nil. split_and!; [done|unfold str_len; cbn; lia|by left|by left].
    + exists (String "/"%char (join "/"%char (x :: rest))).
      split_and!; [by rewrite join_cons|unfold str_len; cbn; lia|by left|by eauto].
  - destruct rest as [|x rest]; [by apply not_elem_of_nil in Hv|].
    destruct (IH _ Hv) as (pre & post & Hj & Hs & Hpre & Hpost).
    exists (s +:+ "/" +:+ pre), post. rewrite join_cons, Hj by done. split_and!; [|..|done].
    + by rewrite !str_app_assoc.
    + rewrite Hs, !str_len_app. change (str_len "/") with 1. lia.
    + right. destruct Hpre as [->|[p ->]]; [exists s; by rewrite str_app_nil|].
      exists (s +:+ "/" +:+ p). by rewrite !str_app_assoc.
Qed.

Lemma strip_suffix_spec c s r : strip_suffix_char c s = Some r -> s = r +:+ String c "".
Proof.
  revert r. induction s as [|d s IH]; intros r; [done|]. cbn. destruct s as [|e s].
  - case_bool_decide; [|done]. intros [= <-]. by subst d.
  - intros (q & Hq & ->)%fmap_Some. by rewrite (IH q Hq) at 1.
Qed.

Lemma normalize_prefix path :
  exists rest, path = normalize_path path +:+ rest /\
    (rest = ""%string \/ exists c p, rest = String c p /\ c ∈ ["/"%char; "?"%char]).
Proof.
  unfold normalize_path. destruct (split_on_head "?"%char path) as (h & l & Hs & r & Hp & Hr).
  rewrite Hs. change (default path (head (h :: l))) with h. destruct (strip_suffix_char "/"%char h) as [q|] eqn:E.
  - case_bool_decide.
    + exists r. split; [done|]. destruct Hr as [->|[? ->]]; [by left|right]. eexists _, _. split; [done|]. by right; left.
    + apply strip_suffix_spec in E. exists (String "/"%char r). split; [|right].
      * rewrite Hp at 1. rewrite E at 1. by rewrite str_app_assoc.
      * eexists _, _. split; [done|]. by left.
  - exists r. split; [done|]. destruct Hr as [->|[? ->]]; [by left|right]. eexists _, _. split; [done|]. by right; left.
Qed.

Lemma segment_in_path path v :
  v ∈ slices_from 0 (split_on "/"%char (normalize_path path)) -> segment_of path ["/"%char; "?"%char] v.
Proof.
  intros (pre & post & Hj & Hs & Hpre & Hpost)%slices_segment. rewrite join_split in Hj.
  destruct (normalize_prefix path) as (rest & Hp & Hrest). exists pre, (post +:+ rest).
  split_and!; [|by rewrite Hs|done|].
  - rewrite Hp at 1. rewrite Hj at 1. by rewrite !str_app_assoc.
  - destruct Hpost as [->|[p ->]]; [done|]. right. eexists _, _. split; [done|]. by left.
Qed.

(** ** Reading a segment back *)

Lemma boundary_at pre rest :
  (rest = ""%string \/ exists c r, rest = String c r /\ is_cont (byte_of_ascii c) = false) ->
  is_char_boundary (pre +:+ rest) (str_len pre) = true.
Proof.
  intros [->|(c & r & -> & Hc)]; unfold is_char_boundary; rewrite !orb_true_iff.
  - left; right. rewrite str_app_nil. apply N.eqb_refl.
  - right. unfold str_len. rewrite Nat2N.id, string_bytes_app, lookup_app_r by (rewrite string_bytes_length; lia).
    rewrite string_bytes_length, Nat.sub_diag. cbn. by rewrite Hc.
Qed.

Lemma segment_get path v :
  is_utf8 (string_bytes path) = true -> segment_of path ["/"%char; "?"%char] v ->
  sl_start v + str_len (sl_text v) <= str_len path /\
  str_get path (sl_start v) (sl_start v + str_len (sl_text v)) = Some (sl_text v).
Proof.
  intros Hu (pre & post & Hp & Hs & Hpre & Hpost).
  assert (str_len path = str_len pre + str_len (sl_text v) + str_len post) as Hlen
    by (rewrite Hp, !str_len_app; lia).
  split; [lia|]. unfold str_get. rewrite (proj2 (N.leb_le _ _)) by lia.
  assert (is_char_boundary path (sl_start v) = true) as ->.
  { rewrite Hp, Hs. destruct Hpre as [->|[p ->]]; [done|]. apply boundary_at.
    destruct (sl_text v +:+ post) as [|c r] eqn:E; [by left|right]. exists c, r. split; [done|].
    rewrite Hp, str_app_assoc, string_bytes_app in Hu. by apply utf8_after_ascii in Hu. }
  assert (is_char_boundary path (sl_start v + str_len (sl_text v)) = true) as ->.
  { rewrite Hp, Hs, <- str_app_assoc, <- str_len_app. apply boundary_at.
    destruct Hpost as [->|(c & q & -> & Hc)]; [by left|right]. exists c, q. split; [done|].
    by apply elem_of_cons in Hc as [->|[->|[]%not_elem_of_nil]%elem_of_cons]. }
  rewrite (proj2 (N.leb_le _ _)) by lia. cbn [andb]. f_equal.
  replace (sl_start v + str_len (sl_text v) - sl_start v) with (str_len (sl_text v)) by lia.
  rewrite Hp at 1. rewrite Hs. unfold str_len. rewrite !Nat2N.id. apply substring_middle.
Qed.

(** ** What a template match records *)

Definition params_ok (slices : list Slice) (ps : RouteParams) : Prop :=
  NoDup ps.*1 /\ (length ps <= MAX_PATH_PARAMS)%nat /\ Forall (fun e => e.2 ∈ slices) ps.

Lemma find_None_names {A} (l : list (string * A)) name :
  List.find (fun e => bool_decide (e.1 = name)) l = None <-> name ∉ l.*1.
Proof.
  induction l as [|[k v] l IH]; cbn; [by split; [intros _; apply not_elem_of_nil|]|]. case_bool_decide as E.
  - split; [done|]. intros Hn. destruct Hn. subst. by left.
  - rewrite IH, not_elem_of_cons. split; [|tauto]. intros Hl. split; [by intros ->|done].
Qed.

Lemma params_insert_ok slices ps name v ps' :
  params_ok slices ps -> v ∈ slices -> params_insert ps name v = Some ps' ->
  params_ok slices ps' /\ ps' = ps ++ [(name, v)] /\ params_get ps name = None.
Proof.
  intros (Hnd & Hlen & Hall) Hv. unfold params_insert, params_get.
  destruct (List.find _ ps) eqn:E; [done|]. cbn [fmap option_fmap option_map]. apply find_None_names in E.
  destruct (Nat.ltb_spec (length ps) MAX_PATH_PARAMS); [|done]. intros [= <-]. split; [|done].
  split_and!.
  - rewrite fmap_app. apply NoDup_app. split_and!; [done| |apply NoDup_singleton].
    intros x Hx ->%list_elem_of_singleton. done.
  - rewrite length_app. cbn. lia.
  - apply Forall_app. split; [done|]. by repeat constructor.
Qed.

Lemma params_get_app ps qs name v : params_get ps name = Some v -> params_get (ps ++ qs) name = Some v.
Proof.
  unfold params_get. induction ps as [|[k w] ps IH]; cbn; [done|]. by case_bool_decide.
Qed.

Lemma params_get_last ps name v : params_get ps name = None -> params_get (ps ++ [(name, v)]) name = Some v.
Proof.
  unfold params_get. induction ps as [|[k w] ps IH]; cbn; [by rewrite bool_decide_eq_true_2|]. by case_bool_decide.
Qed.

(** The text a template segment stands for. *)
Definition segment_text (ps : RouteParams) (t : string) : option string :=
  match parameter_name t with Some name => sl_text <$> params_get ps name | None => Some t end.

Lemma match_segments_ok slices ts ss r q :
  params_ok slices r -> Forall (fun s => s ∈ slices) ss -> match_segments ts ss r = Some q ->
  params_ok slices q /\ (exists l, q = r ++ l) /\ Forall2 (fun t s => segment_text q t = Some (sl_text s)) ts ss.
Proof.
  revert ss r. induction ts as [|t ts IH]; intros [|s ss] r Hr Hss Hm; try done.
  { injection Hm as <-. split_and!; [done|exists []; by rewrite app_nil_r|constructor]. }
  apply Forall_cons in Hss as [Hs Hss]. cbn in Hm. destruct (parameter_name t) as [name|] eqn:Et.
  - case_bool_decide; [done|]. apply bind_Some in Hm as (r1 & Hi & Hm).
    destruct (params_insert_ok _ _ _ _ _ Hr Hs Hi) as (Hr1 & -> & Hnone).
    destruct (IH _ _ Hr1 Hss Hm) as (Hq & [l ->] & Hf). split_and!; [done|by eexists; rewrite <- app_assoc|].
    constructor; [|done]. unfold segment_text. rewrite Et.
    by erewrite params_get_app; [|by apply params_get_last].
  - case_bool_decide; [|done]. destruct (IH _ _ Hr Hss Hm) as (Hq & Hl & Hf). split_and!; [done|done|].
    constructor; [|done]. unfold segment_text. rewrite Et. congruence.
Qed.

Lemma slices_text o pieces : sl_text <$> slices_from o pieces = pieces.
Proof. revert o. induction pieces as [|s l IH]; intros o; [done|]. cbn. by rewrite IH. Qed.

(** Filling the template with the captured parameters gives the path back. *)
Lemma template_rebuilds template path ps :
  match_path_template template path = Some ps ->
  params_ok (slices_from 0 (split_on "/"%char path)) ps /\
  join "/"%char <$> mapM (segment_text ps) (split_on "/"%char template) = Some path.
Proof.
  unfold match_path_template. intros Hm.
  assert (params_ok (slices_from 0 (split_on "/"%char path)) []) as Hnil by (split_and!; [constructor|cbn; lia|constructor]).
  apply match_segments_ok with (2 := proj2 (Forall_forall _ _) (fun _ Hx => Hx)) in Hm as (Hok & _ & Hf); [|done].
  split; [done|].
  assert (mapM (segment_text ps) (split_on "/"%char template) = Some (split_on "/"%char path)) as ->.
  { apply mapM_Some. rewrite <- (slices_text 0 (split_on "/"%char path)).
    clear -Hf. induction Hf; constructor; done. }
  cbn. by rewrite join_split.
Qed.

(** ** Offsets *)

Definition offset_of (e : string * Slice) : string * (N * N) :=
  (e.1, (sl_start e.2, sl_start e.2 + str_len (sl_text e.2))).

Section Offsets.
Context (base : N) (path : string).
Hypothesis path_utf8 : is_utf8 (string_bytes path) = true.
(** The path is an allocation of the address space. *)
Hypothesis path_fits : base + str_len path <= u64_max.

Lemma checked_add_fits a b : a + b <= u64_max -> checked_add a b = Some (a + b).
Proof. intros Hab. unfold checked_add. by rewrite (proj2 (N.leb_le _ _)). Qed.

Lemma offsets_loop_ok ps o :
  Forall (fun e => segment_of path ["/"%char; "?"%char] e.2) ps -> NoDup (o.*1 ++ ps.*1) ->
  (length o + length ps <= MAX_PATH_PARAMS)%nat ->
  offsets_loop base (base + str_len path) path ps o = Some (o ++ (offset_of <$> ps)).
Proof.
  revert o. induction ps as [|[name v] ps IH]; intros o Hall Hnd Hlen; [by rewrite app_nil_r|].
  apply Forall_cons in Hall as [Hv Hall]. destruct (segment_get _ _ path_utf8 Hv) as [Hle Hget].
  cbn [snd] in Hle, Hget. cbn [offsets_loop]. rewrite checked_add_fits by lia. cbn [mbind option_bind].
  rewrite (proj2 (N.ltb_ge (base + sl_start v) base)), (proj2 (N.ltb_ge (base + str_len path) _)) by lia. cbn [orb].
  unfold checked_sub. rewrite (proj2 (N.leb_le base _)) by lia. cbn [mbind option_bind].
  replace (base + sl_start v - base) with (sl_start v) by lia.
  rewrite checked_add_fits by lia. cbn [mbind option_bind]. rewrite bool_decide_eq_true_2 by done.
  unfold offsets_insert. destruct (existsb _ o) eqn:Ex.
  { apply existsb_exists in Ex as ([k w] & Hk & Heq%bool_decide_eq_true). cbn in Heq. subst k.
    apply list_elem_of_In in Hk. apply NoDup_app in Hnd as (_ & Hnd & _).
    destruct (Hnd name); [by apply (list_elem_of_fmap_2 fst) in Hk|by left]. }
  rewrite (proj2 (Nat.ltb_lt _ _)) by (cbn in Hlen; lia). cbn [mbind option_bind]. rewrite IH; [|done|..].
  - by rewrite <- app_assoc.
  - rewrite fmap_app, <- app_assoc. done.
  - rewrite length_app. cbn in *. lia.
Qed.

Lemma offsets_get_of ps name :
  Forall (fun e => segment_of path ["/"%char; "?"%char] e.2) ps ->
  offsets_get (offset_of <$> ps) path name = sl_text <$> params_get ps name.
Proof.
  intros Hall. unfold offsets_get, params_get. induction Hall as [|[k v] ps Hv _ IH]; [done|]. cbn.
  case_bool_decide; [|exact IH]. exact (proj2 (segment_get _ _ path_utf8 Hv)).
Qed.

Lemma offsets_in_ok ps :
  params_ok (slices_from 0 (split_on "/"%char (normalize_path path))) ps ->
  offsets_in base ps path = Some (offset_of <$> ps) /\
  forall name, offsets_get (offset_of <$> ps) path name = sl_text <$> params_get ps name.
Proof.
  intros (Hnd & Hlen & Hall).
  assert (Forall (fun e => segment_of path ["/"%char; "?"%char] e.2) ps) as Hseg.
  { eapply Forall_impl; [exact Hall|]. intros e. apply segment_in_path. }
  split; [|intros name; by apply offsets_get_of]. unfold offsets_in. rewrite checked_add_fits by done.
  cbn [mbind option_bind]. by rewrite offsets_loop_ok.
Qed.
End Offsets.

(** C29. A classification names the operation and its parameters exactly: when
    some shipped operation matches a head, [classify] reports one with the most
    literal segments among those that match, every parameter of its template can
    be read back from the request path at the published offsets, and the template
    filled with them is the normalised path. *)
Theorem classification_exact base path m tr :
  is_utf8 (string_bytes path) = true -> base + str_len path <= u64_max ->
  candidates (concat registries) m path tr <> [] ->
  exists e ps offsets,
    (e, ps) ∈ candidates (concat registries) m path tr /\
    (forall e' ps', (e', ps') ∈ candidates (concat registries) m path tr ->
      (static_segment_count e' <= static_segment_count e)%nat) /\
    classify base m path tr =
      Some (mkMatch (application_protocol e) (operation_id e) (transport e) (request_body e) offsets) /\
    (forall name, offsets_get offsets path name = sl_text <$> params_get ps name) /\
    join "/"%char <$> mapM (segment_text ps) (split_on "/"%char (runtime_path e)) = Some (normalize_path path).
Proof.
  intros Hu Hfits Hne. rewrite classify_registries, <- classify_in_concat by (vm_compute; reflexivity).
  unfold classify_in. destruct (match_operation (concat registries) m path tr) as [[e ps]|] eqn:E.
  2:{ by apply max_by_key_None in E. }
  apply match_operation_spec in E as [Hin Hmax]. pose proof Hin as (_ & _ & _ & Hp)%candidates_spec.
  destruct (template_rebuilds _ _ _ Hp) as [Hok Hjoin].
  destruct (offsets_in_ok base path Hu Hfits ps Hok) as [Ho Hget].
  exists e, ps, (offset_of <$> ps). split_and!; try done. cbn [mbind option_bind]. unfold classified. cbn [fst snd].
  by rewrite Ho.
Qed.

Lemma classification_exact_witness :
  exists offsets, classify 4096 "GET" "/v1/files/f-1/content" Http =
    Some (mkMatch "openai_files" "downloadFile" Http NoBody offsets).
Proof.
  destruct (classification_exact 4096 "/v1/files/f-1/content" "GET" Http) as (e & ps & o & Hin & _ & Hc & _ & _);
    [vm_compute; reflexivity|vm_compute; congruence|vm_compute; congruence|].
  exists o. rewrite Hc. vm_compute in Hin. apply list_elem_of_singleton in Hin. by injection Hin as -> _.
Defined.

(** * The routing headers *)

(** The hooks of a request, in the order the pipeline schedules them. *)
Inductive Hook := HeaderHook | BodyHook (body : option bytes) (end_of_stream : bool).

(** What reaches the upstream under a name: the last value set, nothing when the
    name is removed, and otherwise what the client sent.  The proxy core applies
    the two lists and is not part of the sources; that the last assignment wins
    is documented at [token_rate_limit/mod.rs] line 1990, that an assignment
    wins over a removal is taken as the core's behaviour. *)
Definition upstream (x : Ctx) (n : string) : list string :=
  match last (List.filter (fun e => bool_decide (e.1 = n)) (headers_to_set x)) with
  | Some (_, v) => [v]
  | None => if bool_decide (n ∈ headers_to_remove x) then [] else omap id (get_all (req_headers x) n)
  end.

Section Filter.
Context `{MetadataApi} (base : N) (header_value_ok : string -> bool)
  (set_result : list (string * string) -> string -> string -> option (list (string * string)))
  (parse_header_name : string -> result string string).
(** The labels of the registries are printable ASCII. *)
Hypothesis labels_ok :
  Forall (fun s => header_value_ok (application_protocol s) = true /\ header_value_ok (operation_id s) = true)
    (concat registries).

Definition run_hook (config : ValidatedConfig) (x : Ctx) (h : Hook) : Ctx :=
  match h with
  | HeaderHook => (on_request base header_value_ok set_result config x).1
  | BodyHook body eos => (on_request_body base header_value_ok set_result config x body eos).1
  end.

Lemma hooks_once config x hs :
  classified_marker x = true -> foldl (run_hook config) x hs = x.
Proof.
  intros Hx. induction hs as [|h hs IH]; [done|]. cbn [foldl].
  assert (run_hook config x h = x) as ->; [|done].
  destruct h; cbn; unfold on_request, on_request_body, classify_and_publish; by rewrite Hx.
Qed.

Lemma classify_labels m path tr r :
  classify base m path tr = Some r ->
  header_value_ok (m_application_protocol r) = true /\ header_value_ok (m_operation_id r) = true.
Proof.
  rewrite classify_registries, <- classify_in_concat by (vm_compute; reflexivity). unfold classify_in.
  intros ([e ps] & He & Hc)%bind_Some. apply match_operation_spec in He as [(He & _)%candidates_spec _].
  unfold classified in Hc. apply bind_Some in Hc as (o & _ & [= <-]). rewrite Forall_forall in labels_ok. by apply labels_ok.
Qed.

Lemma build_config_distinct p o config n :
  build_config parse_header_name p o = Ok config ->
  application_protocol_header config = Some n -> operation_header config <> Some n.
Proof.
  unfold build_config. destruct (parse_header _ p _ _) as [ph|]; cbn; [|done].
  destruct (parse_header _ o _ _) as [oh|]; cbn; [|done].
  destruct ph as [ph|], oh as [oh|]; try (intros [= <-]; cbn; congruence).
  case_bool_decide; [done|]. intros [= <-]. cbn. congruence.
Qed.

Lemma last_set (l : list (string * string)) n v : last (List.filter (fun e => bool_decide (e.1 = n)) (l ++ [(n, v)])) = Some (n, v).
Proof. rewrite List.filter_app. cbn. rewrite bool_decide_eq_true_2 by done. by rewrite last_snoc. Qed.

Lemma last_other (l : list (string * string)) n n' v :
  n' <> n -> last (List.filter (fun e => bool_decide (e.1 = n)) (l ++ [(n', v)])) = last (List.filter (fun e => bool_decide (e.1 = n)) l).
Proof. intros Hn. rewrite List.filter_app. cbn. rewrite bool_decide_eq_false_2 by done. by rewrite app_nil_r. Qed.

Lemma hooks_classify config x h hs :
  classified_marker x = false -> (classify_and_publish base header_value_ok set_result config x).2 = true ->
  foldl (run_hook config) x (h :: hs) = (classify_and_publish base header_value_ok set_result config x).1.
Proof.
  intros Hx Hok. cbn [foldl].
  assert (run_hook config x h = (classify_and_publish base header_value_ok set_result config x).1) as -> by (by destruct h).
  apply hooks_once. revert Hok. unfold classify_and_publish. rewrite Hx. destruct (classify _ _ _ _); [|done].
  by destruct (publish_match _ _ _) as [y []].
Qed.

(** C30. The routing headers belong to the classifier: whatever the client sent
    under the configured names, and however the pipeline schedules the two
    hooks, the upstream sees the classified protocol and operation under them,
    or nothing when no operation matched; classification happens once. *)
Theorem routing_headers_owned p o config x h hs :
  build_config parse_header_name p o = Ok config ->
  classified_marker x = false -> headers_to_set x = [] ->
  (classify_and_publish base header_value_ok set_result config x).2 = true ->
  let x' := foldl (run_hook config) x (h :: hs) in
  let c := classify base (req_method x) (req_path x) (request_transport (req_method x) (req_headers x)) in
  (forall n, application_protocol_header config = Some n -> upstream x' n = option_list (m_application_protocol <$> c)) /\
  (forall n, operation_header config = Some n -> upstream x' n = option_list (m_operation_id <$> c)) /\
  operation_match x' = or_else c (operation_match x).
Proof.
  intros Hcfg Hx Hset Hok x' c.
  subst x'. rewrite hooks_classify by done. revert Hok. unfold classify_and_publish. rewrite Hx. fold c. destruct c as [r|] eqn:Hc.
  - destruct (classify_labels _ _ _ _ Hc) as [Hp Ho]. unfold publish_match.
    destruct (set_result _ _ _) as [rs|]; [|done]. destruct (set_result rs _ _) as [rs'|]; [|done]. intros _.
    assert (forall y n, upstream (with_marker y) n = upstream y n) as Hmark by done. cbn [fst].
    unfold set_routing_headers. rewrite Hp, Ho. split_and!; [| |by unfold install_error_formatter; repeat case_match].
    + intros n Hn. rewrite Hmark. unfold upstream. rewrite Hn. cbn [headers_to_set with_header_changes].
      destruct (operation_header config) as [n'|] eqn:En'; rewrite app_assoc, ?app_nil_r.
      * rewrite last_other; [by rewrite last_set|]. intros ->. by apply (build_config_distinct p o config n Hcfg Hn).
      * by rewrite last_set.
    + intros n Hn. rewrite Hmark. unfold upstream. rewrite Hn. cbn [headers_to_set with_header_changes].
      by rewrite app_assoc, last_set.
  - intros _. cbn [fst]. assert (forall n, n ∈ option_list (application_protocol_header config) ++ option_list (operation_header config) ->
      upstream (with_marker (remove_routing_headers config x)) n = []) as Hrm.
    { intros n Hn. unfold upstream, remove_routing_headers. cbn. rewrite Hset. cbn.
      rewrite bool_decide_eq_true_2; [done|]. apply elem_of_app. by right. }
    split_and!; [| |done]; intros n Hn; apply Hrm, elem_of_app; rewrite Hn; [left|right]; by left.
Qed.
End Filter.

Module ClassifierSample.

#[local] Instance store : MetadataApi.
Proof. refine {| set_metadata m k v := <[k := v]> m |}. by left. Defined.

Definition any_value (_ : string) : bool := true.
Definition push (rs : list (string * string)) (k v : string) : option (list (string * string)) := Some (rs ++ [(k, v)]).
Definition lower (n : string) : result string string := Ok (to_ascii_lowercase n).

(** A client that tries to name the operation itself. *)
Definition request : Ctx :=
  mkCtx "POST" "/v1/responses/compact" [("x-praxis-ai-operation"%string, Some "createResponse"%string)]
    false None None ∅ [] [] [].

Lemma routing_headers_owned_witness :
  let config := mkClassifierConfig (Some DEFAULT_APPLICATION_PROTOCOL_HEADER) (Some DEFAULT_OPERATION_HEADER) in
  upstream (foldl (run_hook 0 any_value push config) request [BodyHook None false; HeaderHook]) DEFAULT_OPERATION_HEADER
  = ["Compactconversation"%string].
Proof.
  intros config.
  destruct (routing_headers_owned (H := store) 0 any_value push lower (proj2 (Forall_forall _ _) (fun _ _ => conj eq_refl eq_refl))
    (Some DEFAULT_APPLICATION_PROTOCOL_HEADER) (Some DEFAULT_OPERATION_HEADER) config request (BodyHook None false) [HeaderHook])
    as (_ & Ho & _); [vm_compute; reflexivity..|].
  rewrite (Ho DEFAULT_OPERATION_HEADER eq_refl). vm_compute. reflexivity.
Defined.
End ClassifierSample.
