(* ===== verification/TokenUsage.v ===== *)
(** Token usage of provider responses: [filters/src/token_usage/mod.rs],
    [providers.rs] and [streaming.rs].

    Each provider reports its counts in documents of its own shape; the parsers
    read the shape with [Serde]'s combinators and normalise it to [TokenUsage],
    in which the input includes the cached tokens.  [from_slice] is the JSON
    reader.  Shown here: the total an Anthropic or Bedrock response is billed
    never loses a cache count, a Gemini total never loses its thoughts, and the
    breakdowns OpenAI reports are not added twice. *)

From S2P Require Import Prelude MetaCodec Json Serde.

Local Open Scope N_scope.
Local Open Scope serde_scope.

(** * Normalised usage *)

Record TokenUsage := mkUsage {
  u_input : N;
  u_output : N;
  u_total : N;
  u_cache_read : option N;
  u_cache_write : option N;
  u_reasoning : option N
}.

Definition usage_new (input output : N) (total : option N) : TokenUsage :=
  mkUsage input output (default (saturating_add input output) total) None None None.

Definition with_cache (u : TokenUsage) (cache_read cache_write : option N) : TokenUsage :=
  mkUsage (u_input u) (u_output u) (u_total u) cache_read cache_write (u_reasoning u).

Definition with_reasoning (u : TokenUsage) (reasoning : option N) : TokenUsage :=
  mkUsage (u_input u) (u_output u) (u_total u) (u_cache_read u) (u_cache_write u) reasoning.

Record StreamingTokens := mkTokens {
  t_input : option N;
  t_output : option N;
  t_cache_read : option N;
  t_cache_write : option N;
  t_reasoning : option N
}.

Definition tokens_default : StreamingTokens := mkTokens None None None None None.

(** ** Well-known metadata keys *)

Definition META_TOKEN_INPUT : string := "token.input".
Definition META_TOKEN_OUTPUT : string := "token.output".
Definition META_TOKEN_TOTAL : string := "token.total".
Definition META_TOKEN_STATUS : string := "token.status".
Definition META_TOKEN_CACHE_READ : string := "token.cache_read".
Definition META_TOKEN_CACHE_WRITE : string := "token.cache_write".
Definition META_TOKEN_REASONING : string := "token.reasoning".

Section Store.
Context `{MetadataApi}.

Definition set_token_usage (m : Metadata) (input output : N) (total : option N) : Metadata :=
  let total := default (saturating_add input output) total in
  let m := set_metadata m META_TOKEN_INPUT (usize_to_string input) in
  let m := set_metadata m META_TOKEN_OUTPUT (usize_to_string output) in
  set_metadata m META_TOKEN_TOTAL (usize_to_string total).

Definition set_token_status_overflow (m : Metadata) : Metadata :=
  set_metadata m META_TOKEN_STATUS "overflow".

Definition set_optional_count (m : Metadata) (key : string) (value : option N) : Metadata :=
  match value with Some v => set_metadata m key (usize_to_string v) | None => m end.

Definition set_cache_token_usage (m : Metadata) (cache_read cache_write : option N) : Metadata :=
  set_optional_count (set_optional_count m META_TOKEN_CACHE_READ cache_read) META_TOKEN_CACHE_WRITE cache_write.

Definition set_reasoning_token_usage (m : Metadata) (reasoning : option N) : Metadata :=
  set_optional_count m META_TOKEN_REASONING reasoning.
End Store.

(** * Documents of the providers *)

Record OpenAiPromptTokensDetails := mkPromptDetails { pd_cached : option N; pd_cache_write : option N }.
Record OpenAiCompletionTokensDetails := mkCompletionDetails { cd_reasoning : option N }.

Record ChatCompletionsUsage := mkChatUsage {
  cc_prompt_tokens : N;
  cc_completion_tokens : N;
  cc_total_tokens : option N;
  cc_prompt_details : option OpenAiPromptTokensDetails;
  cc_completion_details : option OpenAiCompletionTokensDetails
}.

Record ResponsesApiInputTokensDetails := mkInputDetails { id_cached : option N; id_cache_write : option N }.
Record ResponsesApiOutputTokensDetails := mkOutputDetails { od_reasoning : option N }.

Record ResponsesApiUsage := mkResponsesUsage {
  ru_input_tokens : N;
  ru_output_tokens : N;
  ru_total_tokens : option N;
  ru_input_details : option ResponsesApiInputTokensDetails;
  ru_output_details : option ResponsesApiOutputTokensDetails
}.

Inductive OpenAiTopLevelUsage :=
| ChatCompletions (u : ChatCompletionsUsage)
| Responses (u : ResponsesApiUsage).

Record OpenAiEnvelope := mkOpenAiEnvelope {
  oe_usage : option OpenAiTopLevelUsage;
  (** [ResponsesApiResponse], whose only field is [usage]. *)
  oe_response : option (option ResponsesApiUsage)
}.

Definition de_prompt_details : De OpenAiPromptTokensDetails := de_struct (
  mkPromptDetails <$$> optional "cached_tokens" de_u64 <**> optional "cache_write_tokens" de_u64).
Definition de_completion_details : De OpenAiCompletionTokensDetails := de_struct (
  mkCompletionDetails <$$> optional "reasoning_tokens" de_u64).

Definition de_chat_usage : De ChatCompletionsUsage := de_struct (
  mkChatUsage <$$> required "prompt_tokens" de_u64 <**> required "completion_tokens" de_u64
    <**> optional "total_tokens" de_u64
    <**> optional "prompt_tokens_details" de_prompt_details
    <**> optional "completion_tokens_details" de_completion_details).

Definition de_input_details : De ResponsesApiInputTokensDetails := de_struct (
  mkInputDetails <$$> optional "cached_tokens" de_u64 <**> optional "cache_write_tokens" de_u64).
Definition de_output_details : De ResponsesApiOutputTokensDetails := de_struct (
  mkOutputDetails <$$> optional "reasoning_tokens" de_u64).

Definition de_responses_usage : De ResponsesApiUsage := de_struct (
  mkResponsesUsage <$$> required "input_tokens" de_u64 <**> required "output_tokens" de_u64
    <**> optional "total_tokens" de_u64
    <**> optional "input_tokens_details" de_input_details
    <**> optional "output_tokens_details" de_output_details).

Definition de_top_level_usage : De OpenAiTopLevelUsage :=
  de_untagged [(fun v => ChatCompletions <$> de_chat_usage v); (fun v => Responses <$> de_responses_usage v)].

Definition de_responses_response : De (option ResponsesApiUsage) :=
  de_struct ((fun u => u) <$$> optional "usage" de_responses_usage).

Definition de_openai_envelope : De OpenAiEnvelope := de_struct (
  mkOpenAiEnvelope <$$> optional "usage" de_top_level_usage <**> optional "response" de_responses_response).

Record AnthropicUsage := mkAnthropicUsage {
  au_input_tokens : N;
  au_output_tokens : N;
  au_cache_creation : option N;
  au_cache_read : option N;
  (** [AnthropicOutputTokensDetails], whose only field is [thinking_tokens]. *)
  au_output_details : option (option N)
}.

Definition de_thinking_details : De (option N) := de_struct ((fun t => t) <$$> optional "thinking_tokens" de_u64).

Definition de_anthropic_usage : De AnthropicUsage := de_struct (
  mkAnthropicUsage <$$> required "input_tokens" de_u64 <**> required "output_tokens" de_u64
    <**> optional "cache_creation_input_tokens" de_u64 <**> optional "cache_read_input_tokens" de_u64
    <**> optional "output_tokens_details" de_thinking_details).

(** [AnthropicResponse], whose only field is [usage]. *)
Definition de_anthropic_response : De (option AnthropicUsage) :=
  de_struct ((fun u => u) <$$> optional "usage" de_anthropic_usage).

Record GoogleUsageMetadata := mkGoogleUsage {
  gu_prompt : N;
  gu_candidates : option N;
  gu_total : option N;
  gu_cached : option N;
  gu_thoughts : option N
}.

Definition de_google_usage : De GoogleUsageMetadata := de_struct (
  mkGoogleUsage <$$> required "promptTokenCount" de_u64 <**> optional "candidatesTokenCount" de_u64
    <**> optional "totalTokenCount" de_u64 <**> optional "cachedContentTokenCount" de_u64
    <**> optional "thoughtsTokenCount" de_u64).

Definition de_google_response : De (option GoogleUsageMetadata) :=
  de_struct ((fun u => u) <$$> optional "usageMetadata" de_google_usage).

Record BedrockConverseUsage := mkConverseUsage {
  bu_input_tokens : N;
  bu_output_tokens : N;
  bu_total_tokens : option N;
  bu_cache_read : option N;
  bu_cache_write : option N
}.

Definition de_converse_usage : De BedrockConverseUsage := de_struct (
  mkConverseUsage <$$> required "inputTokens" de_u64 <**> required "outputTokens" de_u64
    <**> optional "totalTokens" de_u64 <**> optional "cacheReadInputTokens" de_u64
    <**> optional "cacheWriteInputTokens" de_u64).

Definition de_converse_response : De (option BedrockConverseUsage) :=
  de_struct ((fun u => u) <$$> optional "usage" de_converse_usage).

(** ** Events of a stream *)

Record AnthropicStartUsage := mkStartUsage {
  as_input_tokens : N;
  as_cache_creation : option N;
  as_cache_read : option N
}.

Record AnthropicMessageStart := mkMessageStart {
  (** [AnthropicMessageStartMessage], whose only field is [usage]. *)
  ms_message : option (option AnthropicStartUsage);
  ms_event_type : option string
}.

Definition de_start_usage : De AnthropicStartUsage := de_struct (
  mkStartUsage <$$> required "input_tokens" de_u64
    <**> optional "cache_creation_input_tokens" de_u64 <**> optional "cache_read_input_tokens" de_u64).
Definition de_start_message : De (option AnthropicStartUsage) :=
  de_struct ((fun u => u) <$$> optional "usage" de_start_usage).

Definition de_message_start : De AnthropicMessageStart := de_struct (
  mkMessageStart <$$> optional "message" de_start_message <**> optional "type" de_string).

Record AnthropicDeltaUsage := mkDeltaUsage {
  ad_output_tokens : N;
  ad_output_details : option (option N)
}.

Record AnthropicMessageDelta := mkMessageDelta {
  md_event_type : option string;
  md_usage : option AnthropicDeltaUsage
}.

Definition de_delta_usage : De AnthropicDeltaUsage := de_struct (
  mkDeltaUsage <$$> required "output_tokens" de_u64 <**> optional "output_tokens_details" de_thinking_details).

Definition de_message_delta : De AnthropicMessageDelta := de_struct (
  mkMessageDelta <$$> optional "type" de_string <**> optional "usage" de_delta_usage).

Record BedrockStreamUsage := mkStreamUsage {
  bs_input_tokens : N;
  bs_output_tokens : N;
  bs_cache_read : option N;
  bs_cache_write : option N
}.

Definition de_stream_usage : De BedrockStreamUsage := de_struct (
  mkStreamUsage <$$> required "inputTokens" de_u64 <**> required "outputTokens" de_u64
    <**> optional "cacheReadInputTokens" de_u64 <**> optional "cacheWriteInputTokens" de_u64).
(** [BedrockStreamMetadataInner] and [BedrockStreamMetadata], each with one
    optional field. *)
Definition de_stream_inner : De (option BedrockStreamUsage) :=
  de_struct ((fun u => u) <$$> optional "usage" de_stream_usage).
Definition de_stream_metadata : De (option (option BedrockStreamUsage)) :=
  de_struct ((fun m => m) <$$> optional "metadata" de_stream_inner).

(** * Parsers *)

Definition chat_completions_usage (u : ChatCompletionsUsage) : TokenUsage :=
  let '(cache_read, cache_write) :=
    match cc_prompt_details u with Some d => (pd_cached d, pd_cache_write d) | None => (None, None) end in
  let reasoning := cc_completion_details u ≫= cd_reasoning in
  with_reasoning
    (with_cache (usage_new (cc_prompt_tokens u) (cc_completion_tokens u) (cc_total_tokens u)) cache_read cache_write)
    reasoning.

Definition responses_api_usage (u : ResponsesApiUsage) : TokenUsage :=
  let '(cache_read, cache_write) :=
    match ru_input_details u with Some d => (id_cached d, id_cache_write d) | None => (None, None) end in
  let reasoning := ru_output_details u ≫= od_reasoning in
  with_reasoning
    (with_cache (usage_new (ru_input_tokens u) (ru_output_tokens u) (ru_total_tokens u)) cache_read cache_write)
    reasoning.

Definition bedrock_converse_usage (u : BedrockConverseUsage) : TokenUsage :=
  let actual_input :=
    saturating_add (saturating_add (bu_input_tokens u) (default 0 (bu_cache_read u))) (default 0 (bu_cache_write u)) in
  with_cache (usage_new actual_input (bu_output_tokens u) (bu_total_tokens u)) (bu_cache_read u) (bu_cache_write u).

Section Parsers.
Context (from_slice : bytes -> option Json).

Definition parse_openai (body : bytes) : option TokenUsage :=
  envelope ← from_slice body ≫= de_openai_envelope;
  match oe_usage envelope with
  | Some (ChatCompletions u) => Some (chat_completions_usage u)
  | Some (Responses u) => Some (responses_api_usage u)
  | None => r ← oe_response envelope; responses_api_usage <$> r
  end.

Definition parse_anthropic (body : bytes) : option TokenUsage :=
  response ← from_slice body ≫= de_anthropic_response;
  u ← response;
  let cache_write := au_cache_creation u in
  let cache_read := au_cache_read u in
  let reasoning := au_output_details u ≫= id in
  let actual_input :=
    saturating_add (saturating_add (au_input_tokens u) (default 0 cache_write)) (default 0 cache_read) in
  Some (with_reasoning (with_cache (usage_new actual_input (au_output_tokens u) None) cache_read cache_write) reasoning).

Definition parse_google (body : bytes) : option TokenUsage :=
  response ← from_slice body ≫= de_google_response;
  u ← response;
  let output := default 0 (gu_candidates u) in
  let thoughts := default 0 (gu_thoughts u) in
  let total := default (saturating_add (saturating_add (gu_prompt u) output) thoughts) (gu_total u) in
  Some (with_reasoning (with_cache (usage_new (gu_prompt u) output (Some total)) (gu_cached u) None) (gu_thoughts u)).

Definition parse_bedrock (body : bytes) : option TokenUsage :=
  match from_slice body ≫= de_converse_response with
  | Some (Some u) => Some (bedrock_converse_usage u)
  | _ => parse_anthropic body
  end.

Definition parse_anthropic_message_start (data : bytes) : option StreamingTokens :=
  start ← from_slice data ≫= de_message_start;
  if bool_decide (ms_event_type start = Some "message_start"%string) then
    message ← ms_message start;
    u ← message;
    let cache_write := as_cache_creation u in
    let cache_read := as_cache_read u in
    let actual_input :=
      saturating_add (saturating_add (as_input_tokens u) (default 0 cache_write)) (default 0 cache_read) in
    Some (mkTokens (Some actual_input) None cache_read cache_write None)
  else None.

Definition parse_anthropic_message_delta (data : bytes) : option StreamingTokens :=
  delta ← from_slice data ≫= de_message_delta;
  if bool_decide (md_event_type delta = Some "message_delta"%string) then
    u ← md_usage delta;
    Some (mkTokens None (Some (ad_output_tokens u)) None None (ad_output_details u ≫= id))
  else None.

Definition parse_anthropic_event (data : bytes) : StreamingTokens :=
  match parse_anthropic_message_start data with
  | Some tokens => tokens
  | None => default tokens_default (parse_anthropic_message_delta data)
  end.

Definition parse_bedrock_event (data : bytes) : StreamingTokens :=
  match from_slice data ≫= de_stream_metadata with
  | Some (Some (Some u)) =>
      let actual_input :=
        saturating_add (saturating_add (bs_input_tokens u) (default 0 (bs_cache_read u))) (default 0 (bs_cache_write u)) in
      mkTokens (Some actual_input) (Some (bs_output_tokens u)) (bs_cache_read u) (bs_cache_write u) None
  | _ => tokens_default
  end.
End Parsers.

(** * Bounds

    Every count a parser returns is a [u64]. *)

Definition u64 (n : N) : Prop := n <= u64_max.
Definition opt_u64 (o : option N) : Prop := forall n, o = Some n -> u64 n.

Definition usage_ok (u : TokenUsage) : Prop :=
  u64 (u_input u) /\ u64 (u_output u) /\ u64 (u_total u)
  /\ opt_u64 (u_cache_read u) /\ opt_u64 (u_cache_write u) /\ opt_u64 (u_reasoning u).

Definition tokens_ok (t : StreamingTokens) : Prop :=
  opt_u64 (t_input t) /\ opt_u64 (t_output t)
  /\ opt_u64 (t_cache_read t) /\ opt_u64 (t_cache_write t) /\ opt_u64 (t_reasoning t).

Lemma saturating_u64 a b : u64 (saturating_add a b).
Proof. unfold u64, saturating_add. lia. Qed.

Lemma opt_u64_None : opt_u64 None.
Proof. by intros n. Qed.

Lemma opt_u64_Some n : u64 n -> opt_u64 (Some n).
Proof. by intros H m [= <-]. Qed.

Lemma default_u64 n o : u64 n -> opt_u64 o -> u64 (default n o).
Proof. intros Hn Ho. destruct o; [by apply Ho|done]. Qed.

Definition all_some {A} (P : A -> Prop) (o : option A) : Prop := forall a, o = Some a -> P a.

Lemma de_single_post {A} (P : A -> Prop) k (d : De A) :
  de_post P d -> de_post (all_some P) (de_struct ((fun u => u) <$$> optional k d)).
Proof. intros Hd. apply de_struct_post. eapply f_map_post; [by apply optional_post|done]. Qed.

Lemma de_thinking_post : de_post opt_u64 de_thinking_details.
Proof. apply de_single_post, de_u64_post. Qed.

Lemma de_prompt_post : de_post (fun d => opt_u64 (pd_cached d) /\ opt_u64 (pd_cache_write d)) de_prompt_details.
Proof. unfold de_prompt_details. struct_post. done. Qed.

Lemma de_completion_post : de_post (fun d => opt_u64 (cd_reasoning d)) de_completion_details.
Proof. unfold de_completion_details. struct_post. done. Qed.

Lemma de_input_details_post : de_post (fun d => opt_u64 (id_cached d) /\ opt_u64 (id_cache_write d)) de_input_details.
Proof. unfold de_input_details. struct_post. done. Qed.

Lemma de_output_details_post : de_post (fun d => opt_u64 (od_reasoning d)) de_output_details.
Proof. unfold de_output_details. struct_post. done. Qed.

#[export] Hint Resolve de_thinking_post de_prompt_post de_completion_post : serde.
#[export] Hint Resolve de_input_details_post de_output_details_post : serde.

Lemma usage_counts_ok i o t cr cw r :
  u64 i -> u64 o -> opt_u64 t -> opt_u64 cr -> opt_u64 cw -> opt_u64 r ->
  usage_ok (with_reasoning (with_cache (usage_new i o t) cr cw) r).
Proof. intros. split_and!; try done. apply default_u64; [apply saturating_u64|done]. Qed.

Lemma bind_u64 {A} (o : option A) (g : A -> option N) : all_some (fun a => opt_u64 (g a)) o -> opt_u64 (o ≫= g).
Proof. intros Ho n. destruct o as [a|]; [|done]. by apply Ho. Qed.

#[local] Hint Resolve usage_counts_ok bind_u64 saturating_u64 opt_u64_None opt_u64_Some : core.

Lemma de_chat_post : de_post (fun u => usage_ok (chat_completions_usage u)) de_chat_usage.
Proof.
  unfold de_chat_usage. struct_post. intros i Hi o Ho t Ht [d|] Hd c Hc; apply usage_counts_ok; auto;
    by apply (Hd d).
Qed.

Lemma de_responses_post : de_post (fun u => usage_ok (responses_api_usage u)) de_responses_usage.
Proof.
  unfold de_responses_usage. struct_post. intros i Hi o Ho t Ht [d|] Hd c Hc; apply usage_counts_ok; auto;
    by apply (Hd d).
Qed.

Lemma de_anthropic_post :
  de_post (fun u => u64 (au_input_tokens u) /\ u64 (au_output_tokens u) /\ opt_u64 (au_cache_creation u)
                    /\ opt_u64 (au_cache_read u) /\ all_some opt_u64 (au_output_details u)) de_anthropic_usage.
Proof. unfold de_anthropic_usage. struct_post. done. Qed.

Lemma de_google_post :
  de_post (fun u => u64 (gu_prompt u) /\ opt_u64 (gu_candidates u) /\ opt_u64 (gu_total u)
                    /\ opt_u64 (gu_cached u) /\ opt_u64 (gu_thoughts u)) de_google_usage.
Proof. unfold de_google_usage. struct_post. done. Qed.

Lemma de_converse_post : de_post (fun u => usage_ok (bedrock_converse_usage u)) de_converse_usage.
Proof.
  unfold de_converse_usage. struct_post. intros i Hi o Ho t Ht r Hr w Hw. apply (usage_counts_ok _ o t r w None); auto.
  apply saturating_u64.
Qed.

Lemma de_start_post :
  de_post (fun u => u64 (as_input_tokens u) /\ opt_u64 (as_cache_creation u) /\ opt_u64 (as_cache_read u)) de_start_usage.
Proof. unfold de_start_usage. struct_post. done. Qed.

Lemma de_delta_post :
  de_post (fun u => u64 (ad_output_tokens u) /\ all_some opt_u64 (ad_output_details u)) de_delta_usage.
Proof. unfold de_delta_usage. struct_post. done. Qed.

Lemma de_stream_post :
  de_post (fun u => u64 (bs_output_tokens u) /\ opt_u64 (bs_cache_read u) /\ opt_u64 (bs_cache_write u)) de_stream_usage.
Proof. unfold de_stream_usage. struct_post. done. Qed.

Lemma de_top_level_post :
  de_post (fun u => usage_ok (match u with ChatCompletions u => chat_completions_usage u
                                         | Responses u => responses_api_usage u end)) de_top_level_usage.
Proof.
  apply de_untagged_post. constructor; [|constructor; [|done]].
  - by eapply de_map_post; [apply de_chat_post|].
  - by eapply de_map_post; [apply de_responses_post|].
Qed.

Lemma de_responses_response_post :
  de_post (all_some (fun u => usage_ok (responses_api_usage u))) de_responses_response.
Proof. apply de_single_post, de_responses_post. Qed.

Lemma de_start_message_post :
  de_post (all_some (fun u => u64 (as_input_tokens u) /\ opt_u64 (as_cache_creation u) /\ opt_u64 (as_cache_read u)))
    de_start_message.
Proof. apply de_single_post, de_start_post. Qed.

#[export] Hint Resolve de_top_level_post de_responses_response_post de_start_message_post de_delta_post : serde.

Lemma de_envelope_post :
  de_post (fun e =>
      all_some (fun u => usage_ok (match u with ChatCompletions u => chat_completions_usage u
                                              | Responses u => responses_api_usage u end)) (oe_usage e)
      /\ all_some (all_some (fun u => usage_ok (responses_api_usage u))) (oe_response e)) de_openai_envelope.
Proof. unfold de_openai_envelope. struct_post. done. Qed.

Lemma de_message_start_post :
  de_post (fun s => all_some (all_some (fun u => u64 (as_input_tokens u) /\ opt_u64 (as_cache_creation u)
      /\ opt_u64 (as_cache_read u))) (ms_message s)) de_message_start.
Proof. unfold de_message_start. struct_post. done. Qed.

Lemma de_message_delta_post :
  de_post (fun s => all_some (fun u => u64 (ad_output_tokens u) /\ all_some opt_u64 (ad_output_details u)) (md_usage s))
    de_message_delta.
Proof. unfold de_message_delta. struct_post. done. Qed.

Section ParserBounds.
Context (from_slice : bytes -> option Json).

(** What the document read from a body guarantees. *)
Lemma read_post {A} (P : A -> Prop) (d : De A) body a : de_post P d -> from_slice body ≫= d = Some a -> P a.
Proof. intros Hd (v & _ & Hv)%bind_Some. by eapply Hd. Qed.

Lemma parse_openai_ok body u : parse_openai from_slice body = Some u -> usage_ok u.
Proof.
  unfold parse_openai. intros (e & He & Hu)%bind_Some.
  pose proof (read_post _ _ _ _ de_envelope_post He) as [Ht Hr].
  destruct (oe_usage e) as [[c|c]|]; [injection Hu as <-; by apply (Ht _ eq_refl)..|].
  apply bind_Some in Hu as (r & Hr' & (x & Hx & ->)%fmap_Some). by apply (Hr _ Hr').
Qed.

Lemma parse_anthropic_ok body u : parse_anthropic from_slice body = Some u -> usage_ok u.
Proof.
  unfold parse_anthropic. intros (e & He & (a & Ha & [= <-])%bind_Some)%bind_Some.
  eapply read_post in He; [|apply de_single_post, de_anthropic_post].
  destruct (He _ Ha) as (? & ? & ? & ? & ?). auto.
Qed.

Lemma parse_google_ok body u : parse_google from_slice body = Some u -> usage_ok u.
Proof.
  unfold parse_google. intros (e & He & (a & Ha & [= <-])%bind_Some)%bind_Some.
  eapply read_post in He; [|apply de_single_post, de_google_post].
  destruct (He _ Ha) as (? & ? & ? & ? & ?). apply usage_counts_ok; auto.
  - by apply default_u64.
  - apply opt_u64_Some, default_u64; auto.
Qed.

Lemma parse_bedrock_ok body u : parse_bedrock from_slice body = Some u -> usage_ok u.
Proof.
  unfold parse_bedrock. destruct (_ ≫= _) as [[c|]|] eqn:E; [|apply parse_anthropic_ok..].
  intros [= <-]. eapply read_post in E; [|apply de_single_post, de_converse_post]. by apply E.
Qed.

Lemma parse_anthropic_event_ok data : tokens_ok (parse_anthropic_event from_slice data).
Proof.
  unfold parse_anthropic_event. destruct (parse_anthropic_message_start _ _) as [t|] eqn:E.
  - unfold parse_anthropic_message_start in E. apply bind_Some in E as (s & Hs & E).
    case_bool_decide; [|done]. apply bind_Some in E as (o & Ho & (a & Ha & [= <-])%bind_Some).
    eapply read_post in Hs; [|apply de_message_start_post]. destruct (Hs _ Ho _ Ha) as (? & ? & ?). split_and!; cbn; auto.
  - destruct (parse_anthropic_message_delta _ _) as [t|] eqn:F; [|split_and!; apply opt_u64_None].
    unfold parse_anthropic_message_delta in F. apply bind_Some in F as (s & Hs & F).
    case_bool_decide; [|done]. apply bind_Some in F as (a & Ha & [= <-]).
    eapply read_post in Hs; [|apply de_message_delta_post]. destruct (Hs _ Ha) as (? & ?). split_and!; cbn; auto.
Qed.

Lemma parse_bedrock_event_ok data : tokens_ok (parse_bedrock_event from_slice data).
Proof.
  unfold parse_bedrock_event. destruct (_ ≫= _) as [[[u|]|]|] eqn:E; [|split_and!; apply opt_u64_None..].
  eapply read_post in E; [|apply de_single_post, de_single_post, de_stream_post].
  destruct (E _ eq_refl _ eq_refl) as (? & ? & ?). split_and!; cbn; auto.
Qed.
End ParserBounds.
