(* ===== verification/AnthropicStream.v ===== *)
(** Streaming translation of Chat Completions into Anthropic Messages
    ([apis/src/anthropic/messages_to_chat_completions_stream/], with the wire
    types of [apis/src/anthropic/wire.rs]).

    All state between callbacks is kept as metadata strings.  The output buffer
    is the list of events written to it; [render] gives its bytes.  A callback
    is a function on the metadata and the output with a result: on an error the
    changes made so far stay.  The JSON reader and printer are parameters; the
    time a message is named after is an argument.  The process aborts when a [u32]
    block index overflows (overflow checks are on in release builds); here that
    is one more error. *)

From S2P Require Import Prelude Utf8 Sorting MetaCodec RustStr Json.
From Stdlib Require Import Strings.Byte Strings.Ascii.

Local Open Scope N_scope.
Local Open Scope rust_scope.

(** * Texts *)

Definition LF : ascii := "010".
Definition CR : ascii := "013".

(** [str::lines]: LF ends a line, with one CR before it. *)
Definition strip_cr (s : string) : string :=
  match String.get (String.length s - 1) s with
  | Some c => if bool_decide (c = CR) then String.substring 0 (String.length s - 1) s else s
  | None => s
  end.
Fixpoint str_lines_of (pieces : list string) : list string :=
  match pieces with
  | [] => []
  | [last] => if bool_decide (last = ""%string) then [] else [last]
  | p :: ps => strip_cr p :: str_lines_of ps
  end.
Definition str_lines (s : string) : list string := str_lines_of (split_on LF s).

(** [replace("\r\n", "\n")] and [replace('\r', "\n")]. *)
Fixpoint replace_crlf (s : string) : string :=
  match s with
  | String a r =>
      match r with
      | String b r' => if bool_decide (a = CR) && bool_decide (b = LF) then String LF (replace_crlf r') else String a (replace_crlf r)
      | EmptyString => String a EmptyString
      end
  | EmptyString => EmptyString
  end.
Fixpoint replace_cr (s : string) : string :=
  match s with
  | String a r => String (if bool_decide (a = CR) then LF else a) (replace_cr r)
  | EmptyString => EmptyString
  end.
Definition normalize_line_endings (s : string) : string := replace_cr (replace_crlf s).

(** [split_once("\n\n")]. *)
Fixpoint split_once_blank (s : string) : option (string * string) :=
  match s with
  | String a r =>
      match r with
      | String b r' =>
          if bool_decide (a = LF) && bool_decide (b = LF) then Some (""%string, r')
          else '(p, q) ← split_once_blank r; Some (String a p, q)
      | EmptyString => None
      end
  | EmptyString => None
  end.

(** [str::strip_prefix]. *)
Definition strip_prefix (p s : string) : option string :=
  if String.prefix p s then Some (String.substring (String.length p) (String.length s - String.length p) s) else None.

(** [{:016x}]. *)
Fixpoint hex_digits (n : nat) (v : N) : string :=
  match n with O => ""%string | S n => hex_digits n (v / 16) +:+ String (hex_char (v mod 16)) "" end.

(** [str::parse::<u32>]. *)
Definition u32_max : N := 4294967295.
Definition parse_u32 (s : string) : option N := n ← parse_usize s; if n <=? u32_max then Some n else None.

(** ** UTF-8 *)

(** [std::str::from_utf8]: valid, cut inside the last character, or malformed. *)
Inductive Utf8Check := Utf8Valid | Utf8Incomplete (valid_up_to : nat) | Utf8Malformed.

Definition truncated (l : bytes) : bool :=
  match l with b :: _ => (length l <? utf8_char_width b)%nat | [] => false end.
Fixpoint check_items (seen : nat) (items : list utf8_item) : Utf8Check :=
  match items with
  | [] => Utf8Valid
  | Scalar l :: items => check_items (seen + length l) items
  | [Invalid l] => if truncated l then Utf8Incomplete seen else Utf8Malformed
  | Invalid _ :: _ => Utf8Malformed
  end.
Definition utf8_check (s : bytes) : Utf8Check := check_items 0 (utf8_items s).

Definition encode_hex_bytes : bytes -> string := encode_hex.

(** [decode_hex_bytes]: pairs that are not hexadecimal are skipped. *)
Fixpoint decode_hex_bytes (hex : string) : bytes :=
  match hex with
  | String a (String b r) =>
      match (hi ← hex_digit a; lo ← hex_digit b; Byte.of_N (N.lor (N.shiftl hi 4) lo)) with
      | Some v => v :: decode_hex_bytes r
      | None => decode_hex_bytes r
      end
  | _ => []
  end.

(** * Configuration *)

Record StreamConfig := mkStreamConfig { max_partial_event_bytes : N; max_tool_blocks : N }.

Definition DEFAULT_MAX_TOOL_BLOCKS : N := 10000.
Definition validate_max_tool_blocks (value : N) : result string unit :=
  if value =? 0 then Err "anthropic_messages_to_chat_completions_stream: 'max_tool_blocks' must be greater than 0"%string else Ok tt.
Definition validate_max_partial_event_bytes (limit value : N) : result string unit :=
  if value =? 0 then Err "anthropic_messages_to_chat_completions_stream: 'max_partial_event_bytes' must be greater than 0"%string
  else if limit <? value then
    Err ("anthropic_messages_to_chat_completions_stream: max_partial_event_bytes (" +:+ usize_to_string value +:+
      ") exceeds maximum (" +:+ usize_to_string limit +:+ ")")
  else Ok tt.
(** [limit] is [MAX_JSON_BODY_BYTES] of the filter crate. *)
Definition build_config (limit : N) (cfg : StreamConfig) : result string StreamConfig :=
  let? _ := validate_max_partial_event_bytes limit (max_partial_event_bytes cfg) in
  let? _ := validate_max_tool_blocks (max_tool_blocks cfg) in
  Ok cfg.

(** * Wire types *)

Definition json_null : Json := JNull.
Definition json_str (s : string) : Json := JString s.
Definition json_num (n : N) : Json := JNumber (PosInt n).
Definition json_opt_num (n : option N) : Json := match n with Some n => json_num n | None => JNull end.

(** [ContentBlock], as it serializes. *)
Inductive ContentBlock := TextBlock (text : string) | ToolUseBlock (id name : string).
Definition content_block_json (b : ContentBlock) : Json :=
  match b with
  | TextBlock text => JObject [("type", json_str "text"); ("citations", JNull); ("text", json_str text)]%string
  | ToolUseBlock id name =>
      JObject [("type", json_str "tool_use"); ("caller", JObject [("type", json_str "direct")]); ("id", json_str id);
               ("input", JObject []); ("name", json_str name)]%string
  end.

Definition message_usage_json (input output : N) (cache_read : option N) : Json :=
  JObject [("cache_creation", JNull); ("cache_creation_input_tokens", JNull); ("cache_read_input_tokens", json_opt_num cache_read);
           ("inference_geo", JNull); ("input_tokens", json_num input); ("output_tokens", json_num output);
           ("output_tokens_details", JNull); ("server_tool_use", JNull); ("service_tier", JNull)]%string.

Record MessageDeltaUsage := mkDeltaUsage { du_output : N; du_input : option N; du_cache_read : option N }.
Definition delta_usage_json (u : MessageDeltaUsage) : Json :=
  JObject [("cache_creation_input_tokens", JNull); ("cache_read_input_tokens", json_opt_num (du_cache_read u));
           ("input_tokens", json_opt_num (du_input u)); ("output_tokens", json_num (du_output u));
           ("output_tokens_details", JNull); ("server_tool_use", JNull)]%string.

Definition error_json (error_type message : string) (request_id : option string) : Json :=
  JObject [("error", JObject [("message", json_str message); ("type", json_str error_type)]);
           ("request_id", match request_id with Some r => json_str r | None => JNull end); ("type", json_str "error")]%string.

Definition is_valid_tool_use_id (id : string) : bool :=
  negb (bool_decide (id = ""%string)) &&
  forallb (fun c => let n := N_of_ascii c in
    ((48 <=? n) && (n <=? 57)) || ((65 <=? n) && (n <=? 90)) || ((97 <=? n) && (n <=? 122)) || (n =? 95) || (n =? 45))
    (String.list_ascii_of_string id).

(** * Keys *)

Definition LINE_BUFFER_KEY : string := "anthropic_stream.line_buffer".
Definition STREAM_STATE_KEY : string := "anthropic_stream.state".
Definition STREAM_STATE_STARTED : string := "started".
Definition STREAM_STATE_FAILED : string := "failed".
Definition OPENAI_DONE_SENTINEL : string := "[DONE]".
Definition TEXT_BLOCK_OPEN_KEY : string := "anthropic_stream.text_block_open".
Definition TOOL_BLOCK_KEY_PREFIX : string := "anthropic_stream.tool_block.".
Definition TOOL_BLOCK_INDEX_SUFFIX : string := ".index".
Definition TOOL_BLOCK_OPEN_SUFFIX : string := ".open".
Definition TOOL_BLOCK_COUNT_KEY : string := "anthropic_stream.tool_block_count".
Definition FINISH_REASON_KEY : string := "anthropic_stream.finish_reason".
Definition STOP_SEQUENCE_KEY : string := "anthropic_stream.stop_sequence".
Definition OUTPUT_TOKENS_KEY : string := "anthropic_stream.output_tokens".
Definition INPUT_TOKENS_KEY : string := "anthropic_stream.input_tokens".
Definition CACHE_READ_TOKENS_KEY : string := "anthropic_stream.cache_read_tokens".
Definition BLOCK_INDEX_KEY : string := "anthropic_stream.block_index".
Definition UTF8_BUFFER_KEY : string := "anthropic_stream.utf8_buffer".
Definition ARMED_KEY : string := "anthropic_stream.armed".
Definition STOP_SEQUENCES_KEY : string := "anthropic_messages_to_chat_completions.stop_sequences".

Definition tool_block_index_key (k : string) : string := TOOL_BLOCK_KEY_PREFIX +:+ k +:+ TOOL_BLOCK_INDEX_SUFFIX.
Definition tool_block_open_key (k : string) : string := TOOL_BLOCK_KEY_PREFIX +:+ k +:+ TOOL_BLOCK_OPEN_SUFFIX.

(** * Output *)

(** One event written by [emit_event]. *)
Record OutEvent := mkOut { out_type : string; out_data : Json }.
Abbreviation Output := (list OutEvent).

Definition emit_event (out : Output) (event_type : string) (data : Json) : Output := out ++ [mkOut event_type data].

(** The bytes of an event; a document that does not serialize leaves [data] empty. *)
Definition render_event (to_writer : Json -> option bytes) (e : OutEvent) : bytes :=
  string_bytes "event: " ++ string_bytes (out_type e) ++ [x0a] ++ string_bytes "data: " ++
  default [] (to_writer (out_data e)) ++ [x0a; x0a].
Definition render (to_writer : Json -> option bytes) (out : Output) : bytes := concat (render_event to_writer <$> out).

Definition emit_upstream_transform_error (out : Output) : Output :=
  emit_event out "error" (error_json "api_error" "upstream response could not be transformed" None).

(** * State *)

(** The [?] operator, where the state after an error is kept. *)
Notation "'let!' ( x , s ) ':=' c 'in' k" :=
  (match c with (s, Ok x) => k | (s, Err e) => (s, Err e) end)
  (at level 10, x name, s name, c at level 100, k at level 200) : rust_scope.

Abbreviation St := (Metadata * Output)%type.
Abbreviation Step A := (St * result string A)%type.

Section State.
Context `{MetadataApi} `{!HashOrder string}.

Definition is_armed (m : Metadata) : bool := bool_decide (m !! ARMED_KEY = Some "true"%string).
Definition is_stream_failed (m : Metadata) : bool := bool_decide (m !! STREAM_STATE_KEY = Some STREAM_STATE_FAILED).
Definition is_stream_started (m : Metadata) : bool := bool_decide (m !! STREAM_STATE_KEY = Some STREAM_STATE_STARTED).
Definition is_text_block_open (m : Metadata) : bool := bool_decide (m !! TEXT_BLOCK_OPEN_KEY = Some "true"%string).
Definition get_block_index (m : Metadata) : N := default 0 (m !! BLOCK_INDEX_KEY ≫= parse_u32).
Definition increment_block_index (m : Metadata) : result string Metadata :=
  if u32_max <=? get_block_index m then Err "attempt to add with overflow"%string
  else Ok (set_metadata m BLOCK_INDEX_KEY (usize_to_string (get_block_index m + 1))).
Definition get_tool_block_count (m : Metadata) : N := default 0 (m !! TOOL_BLOCK_COUNT_KEY ≫= parse_usize).
Definition set_tool_block_index (m : Metadata) (k : string) (idx : N) : Metadata :=
  set_metadata m (tool_block_index_key k) (usize_to_string idx).
Definition get_tool_block_index (m : Metadata) (k : string) : option N := m !! tool_block_index_key k ≫= parse_u32.
Definition set_tool_block_open (m : Metadata) (k : string) (open : bool) : Metadata :=
  set_metadata m (tool_block_open_key k) (bool_str open).
Definition is_tool_block_open (m : Metadata) (k : string) : bool := bool_decide (m !! tool_block_open_key k = Some "true"%string).

(** [str::strip_suffix]. *)
Definition strip_suffix (p s : string) : option string :=
  if ends_with s p then Some (String.substring 0 (String.length s - String.length p) s) else None.

Definition open_tool_block (m : Metadata) (kv : string * string) : option (N * string) :=
  if negb (bool_decide (kv.2 = "true"%string)) then None
  else
    k ← strip_prefix TOOL_BLOCK_KEY_PREFIX kv.1;
    k ← strip_suffix TOOL_BLOCK_OPEN_SUFFIX k;
    idx ← get_tool_block_index m k; Some (idx, k).
Definition open_tool_blocks (m : Metadata) : list (N * string) :=
  sort_by (fun a b => a.1 <=? b.1) (omap (open_tool_block m) (hash_iter m)).

(** * Events to the client *)

Definition block_start_json (idx : N) (b : ContentBlock) : Json :=
  JObject [("type", json_str "content_block_start"); ("index", json_num idx); ("content_block", content_block_json b)]%string.
Definition text_delta_json (idx : N) (text : string) : Json :=
  JObject [("type", json_str "content_block_delta"); ("index", json_num idx);
           ("delta", JObject [("type", json_str "text_delta"); ("text", json_str text)])]%string.
Definition input_delta_json (idx : N) (args : string) : Json :=
  JObject [("type", json_str "content_block_delta"); ("index", json_num idx);
           ("delta", JObject [("type", json_str "input_json_delta"); ("partial_json", json_str args)])]%string.
Definition block_stop_json (idx : N) : Json :=
  JObject [("type", json_str "content_block_stop"); ("index", json_num idx)]%string.

Definition message_start_json (nanos : N) (model : string) : Json :=
  JObject [("type", json_str "message_start");
           ("message", JObject [("id", json_str ("msg_" +:+ hex_digits 16 (nanos mod 2 ^ 64)));
              ("type", json_str "message"); ("role", json_str "assistant"); ("model", json_str model); ("content", JArray []);
              ("stop_reason", JNull); ("stop_sequence", JNull); ("stop_details", JNull);
              ("usage", message_usage_json 0 0 None); ("container", JNull)])]%string.

Definition emit_message_start (nanos : N) (chunk : Json) (s : St) : St :=
  let model := default ""%string (get chunk "model" ≫= as_str) in
  (set_metadata s.1 STREAM_STATE_KEY STREAM_STATE_STARTED, emit_event s.2 "message_start" (message_start_json nanos model)).

Definition emit_text_delta (content : string) (s : St) : St :=
  let s :=
    if is_text_block_open s.1 then s
    else (set_metadata s.1 TEXT_BLOCK_OPEN_KEY "true",
          emit_event s.2 "content_block_start" (block_start_json (get_block_index s.1) (TextBlock ""))) in
  (s.1, emit_event s.2 "content_block_delta" (text_delta_json (get_block_index s.1) content)).

Definition close_text_block_if_open (s : St) : Step unit :=
  if is_text_block_open s.1 then
    let out := emit_event s.2 "content_block_stop" (block_stop_json (get_block_index s.1)) in
    match increment_block_index s.1 with
    | Ok m => ((set_metadata m TEXT_BLOCK_OPEN_KEY "false", out), Ok tt)
    | Err e => ((s.1, out), Err e)
    end
  else (s, Ok tt).

Definition tool_call_key (tc : Json) : string :=
  match get tc "index" ≫= as_u64 with Some idx => usize_to_string idx | None => "legacy" end.

Definition non_empty (s : string) : option string := if bool_decide (s = ""%string) then None else Some s.

(** [extract_tool_id_and_name]; the error is only logged. *)
Definition extract_tool_id_and_name (tc : Json) : option (string * string) :=
  id ← (get tc "id" ≫= as_str) ≫= non_empty;
  if negb (is_valid_tool_use_id id) then None
  else name ← (f ← get tc "function"; n ← get f "name"; as_str n) ≫= non_empty; Some (id, name).

Definition extract_or_fail_tool_call (tc : Json) (s : St) : St * option (string * string) :=
  match extract_tool_id_and_name tc with
  | Some fields => (s, Some fields)
  | None =>
      let m := delete UTF8_BUFFER_KEY (delete LINE_BUFFER_KEY s.1) in
      ((set_metadata m STREAM_STATE_KEY STREAM_STATE_FAILED, emit_upstream_transform_error s.2), None)
  end.

Definition emit_tool_block_start (k : string) (tc : Json) (max_tool_blocks : N) (s : St) : Step bool :=
  let opened := get_tool_block_count s.1 in
  if max_tool_blocks <=? opened then
    (s, Err ("anthropic_messages_to_chat_completions_stream: streaming tool-call content blocks exceed max_tool_blocks (" +:+
      usize_to_string max_tool_blocks +:+ ")"))
  else
    let idx := get_block_index s.1 in
    match extract_or_fail_tool_call tc s with
    | (s, None) => (s, Ok false)
    | (s, Some (id, name)) =>
        let out := emit_event s.2 "content_block_start" (block_start_json idx (ToolUseBlock id name)) in
        let m := set_tool_block_index s.1 k idx in
        let m := set_tool_block_open m k true in
        match increment_block_index m with
        | Ok m => ((set_metadata m TOOL_BLOCK_COUNT_KEY (usize_to_string (opened + 1)), out), Ok true)
        | Err e => ((m, out), Err e)
        end
    end.

Definition emit_tool_arguments_delta (k : string) (tc : Json) (s : St) : St :=
  match (f ← get tc "function"; a ← get f "arguments"; as_str a) with
  | None => s
  | Some args =>
      if bool_decide (args = ""%string) then s
      else
        let idx := match get_tool_block_index s.1 k with Some i => i | None => get_block_index s.1 end in
        (s.1, emit_event s.2 "content_block_delta" (input_delta_json idx args))
  end.

Definition transform_tool_delta (tc : Json) (max_tool_blocks : N) (s : St) : Step unit :=
  let k := tool_call_key tc in
  if is_tool_block_open s.1 k then (emit_tool_arguments_delta k tc s, Ok tt)
  else
    let! (started, s) := emit_tool_block_start k tc max_tool_blocks s in
    (if started then emit_tool_arguments_delta k tc s else s, Ok tt).

(** The loop over [tool_calls]. *)
Fixpoint transform_tool_deltas (tcs : list Json) (max_tool_blocks : N) (s : St) : Step unit :=
  match tcs with
  | [] => (s, Ok tt)
  | tc :: tcs =>
      let! (_, s) := transform_tool_delta tc max_tool_blocks s in
      if is_stream_failed s.1 then (s, Ok tt) else transform_tool_deltas tcs max_tool_blocks s
  end.

Definition transform_delta (delta : Json) (max_tool_blocks : N) (s : St) : Step unit :=
  let s := match get delta "content" ≫= as_str with Some content => emit_text_delta content s | None => s end in
  match get delta "tool_calls" ≫= as_array with
  | Some tcs => let! (_, s) := close_text_block_if_open s in transform_tool_deltas tcs max_tool_blocks s
  | None => (s, Ok tt)
  end.

Definition extract_first_choice (chunk : Json) : option Json := choices ← get chunk "choices"; l ← as_array choices; head l.

Definition set_count (m : Metadata) (key : string) (v : option N) : Metadata :=
  match v with Some n => set_metadata m key (usize_to_string n) | None => m end.
Definition extract_usage_tokens (chunk : Json) (m : Metadata) : Metadata :=
  match get chunk "usage" with
  | None => m
  | Some usage =>
      let m := set_count m OUTPUT_TOKENS_KEY (get usage "completion_tokens" ≫= as_u64) in
      let m := set_count m INPUT_TOKENS_KEY (get usage "prompt_tokens" ≫= as_u64) in
      set_count m CACHE_READ_TOKENS_KEY (d ← get usage "prompt_tokens_details"; c ← get d "cached_tokens"; as_u64 c)
  end.

(** * Completion *)

Definition close_tool_block (k : string) (s : St) : St :=
  if is_tool_block_open s.1 k then
    match get_tool_block_index s.1 k with
    | None => s
    | Some idx => (set_tool_block_open s.1 k false, emit_event s.2 "content_block_stop" (block_stop_json idx))
    end
  else s.

Definition emit_final_block_stop (s : St) : Step unit :=
  let! (_, s) := close_text_block_if_open s in
  (foldl (fun s b => close_tool_block b.2 s) s (open_tool_blocks s.1), Ok tt).

Definition collect_delta_usage (m : Metadata) : MessageDeltaUsage :=
  let output_tokens := default 0 (m !! OUTPUT_TOKENS_KEY ≫= parse_usize) in
  let prompt_tokens := m !! INPUT_TOKENS_KEY ≫= parse_usize in
  let cache_read := m !! CACHE_READ_TOKENS_KEY ≫= parse_usize in
  let input_tokens := (fun pt => match cache_read with Some cached => saturating_sub pt cached | None => pt end) <$> prompt_tokens in
  mkDeltaUsage output_tokens input_tokens cache_read.

Definition map_stop_reason (reason : string) : string :=
  if bool_decide (reason = "tool_calls"%string) then "tool_use"
  else if bool_decide (reason = "length"%string) then "max_tokens" else "end_turn".

Definition message_delta_json (stop_reason : string) (stop_sequence : option string) (usage : MessageDeltaUsage) : Json :=
  JObject [("type", json_str "message_delta");
           ("delta", JObject [("container", JNull); ("stop_details", JNull); ("stop_reason", json_str stop_reason);
                              ("stop_sequence", match stop_sequence with Some s => json_str s | None => JNull end)]);
           ("usage", delta_usage_json usage)]%string.

Definition emit_message_delta (s : St) : St :=
  let stop_sequence := s.1 !! STOP_SEQUENCE_KEY in
  let stop_reason :=
    match s.1 !! FINISH_REASON_KEY with
    | Some reason =>
        if bool_decide (reason = "stop"%string) && match stop_sequence with Some _ => true | None => false end
        then "stop_sequence"%string else map_stop_reason reason
    | None => "end_turn"%string
    end in
  (s.1, emit_event s.2 "message_delta" (message_delta_json stop_reason stop_sequence (collect_delta_usage s.1))).

Definition emit_done (nanos : N) (s : St) : Step unit :=
  if is_stream_failed s.1 then (s, Ok tt)
  else
    let s := if is_stream_started s.1 then s else emit_message_start nanos JNull s in
    let! (_, s) := emit_final_block_stop s in
    let s := emit_message_delta s in
    ((s.1, emit_event s.2 "message_stop" (JObject [("type", json_str "message_stop")]%string)), Ok tt).

(** * One upstream event *)

Section Events.
Context (from_str : string -> option Json) (cfg : StreamConfig) (nanos : N).

Fixpoint all_strings (l : list Json) : option (list string) :=
  match l with [] => Some [] | v :: l => s ← as_str v; r ← all_strings l; Some (s :: r) end.
Definition client_stop_sequences (m : Metadata) : list string :=
  default [] (v ← m !! STOP_SEQUENCES_KEY; j ← from_str v; l ← as_array j; all_strings l).

(** What [transform_chunk] records of a choice after its delta. *)
Definition record_finish (choice : Json) (m : Metadata) : Metadata :=
  let m := match get choice "finish_reason" ≫= as_str with Some r => set_metadata m FINISH_REASON_KEY r | None => m end in
  match get choice "stop_reason" ≫= as_str with
  | Some matched => if bool_decide (matched ∈ client_stop_sequences m) then set_metadata m STOP_SEQUENCE_KEY matched else m
  | None => m
  end.

Definition transform_chunk (chunk : Json) (s : St) : Step unit :=
  let s := if is_stream_started s.1 then s else emit_message_start nanos chunk s in
  match extract_first_choice chunk with
  | None => ((extract_usage_tokens chunk s.1, s.2), Ok tt)
  | Some choice =>
      let! (_, s) := match get choice "delta" with
                     | Some delta => transform_delta delta (max_tool_blocks cfg) s
                     | None => (s, Ok tt)
                     end in
      ((extract_usage_tokens chunk (record_finish choice s.1), s.2), Ok tt)
  end.

Definition is_object (v : Json) : bool := match v with JObject _ => true | _ => false end.

(** [transform_data_event]; the reader's own error text is left out. *)
Definition transform_data_event (data : string) (s : St) : Step unit :=
  match from_str data with
  | None => (s, Err "anthropic_messages_to_chat_completions_stream: upstream SSE data event is not valid JSON"%string)
  | Some chunk =>
      if negb (is_object chunk)
      then (s, Err "anthropic_messages_to_chat_completions_stream: upstream SSE data event is not a JSON object"%string)
      else transform_chunk chunk s
  end.

Definition line_data (line : string) : option string :=
  if bool_decide (line = "data"%string) then Some ""%string
  else d ← strip_prefix "data:" line; Some (default d (strip_prefix " " d)).

Definition push_data (acc : option string) (line : string) : option string :=
  match line_data line, acc with
  | Some d, Some a => Some (a +:+ String LF d)
  | Some d, None => Some d
  | None, _ => acc
  end.

(** The payload of an event block. *)
Definition block_data (block : string) : option string := foldl push_data None (str_lines block).

Definition process_data (data : string) (s : St) : Step unit :=
  if bool_decide (data = OPENAI_DONE_SENTINEL) then emit_done nanos s else transform_data_event data s.

Definition process_event_block (block : string) (s : St) : Step unit :=
  match block_data block with Some data => process_data data s | None => (s, Ok tt) end.

(** * Chunks *)

(** The loop of [process_complete_event_blocks]; a round consumes two bytes. *)
Fixpoint process_blocks (fuel : nat) (remaining : string) (s : St) : Step string :=
  match fuel with
  | O => (s, Ok remaining)
  | S fuel =>
      match split_once_blank remaining with
      | None => (s, Ok remaining)
      | Some (block, rest) =>
          let! (_, s) := process_event_block block s in
          if is_stream_failed s.1 then (s, Ok ""%string) else process_blocks fuel rest s
      end
  end.
Definition process_complete_event_blocks (remaining : string) (s : St) : Step string :=
  process_blocks (String.length remaining) remaining s.

Definition combine_chunk_with_leftover (leftover : option string) (chunk : string) : string :=
  match leftover with
  | Some prefix => if bool_decide (prefix = ""%string) then chunk else prefix +:+ chunk
  | None => chunk
  end.

Definition split_deferred_trailing_cr (combined : string) (end_of_stream : bool) : string * bool :=
  let defer := negb end_of_stream && ends_with combined (String CR "") && negb (ends_with combined (String CR (String CR ""))) in
  if negb defer then (combined, false)
  else match strip_suffix (String CR "") combined with Some without => (without, true) | None => (combined, false) end.

Definition store_line_buffer (buffer : string) (s : St) : Step unit :=
  if bool_decide (buffer = ""%string) then ((delete LINE_BUFFER_KEY s.1, s.2), Ok tt)
  else if max_partial_event_bytes cfg <? str_len buffer then
    ((delete LINE_BUFFER_KEY s.1, s.2),
     Err ("anthropic_messages_to_chat_completions_stream: incomplete SSE event exceeds " +:+
       usize_to_string (max_partial_event_bytes cfg) +:+ " bytes"))
  else ((<[LINE_BUFFER_KEY := buffer]> s.1, s.2), Ok tt).

(** [process_sse_chunk], on an empty output buffer. *)
Definition process_sse_chunk (m : Metadata) (chunk : string) (end_of_stream : bool) : Metadata * result string Output :=
  let combined := combine_chunk_with_leftover (m !! LINE_BUFFER_KEY) chunk in
  let '(to_normalize, pending_cr) := split_deferred_trailing_cr combined end_of_stream in
  let normalized := normalize_line_endings to_normalize in
  match process_complete_event_blocks normalized (m, []) with
  | (s, Err e) => (s.1, Err e)
  | (s, Ok remaining) =>
      let to_buffer := if pending_cr then remaining +:+ String CR "" else remaining in
      match store_line_buffer to_buffer s with
      | (s, Err e) => (s.1, Err e)
      | (s, Ok _) => (s.1, Ok s.2)
      end
  end.

Definition combine_pending_utf8 (m : Metadata) (b : bytes) : Metadata * bytes :=
  match m !! UTF8_BUFFER_KEY with
  | Some hex => (delete UTF8_BUFFER_KEY m, decode_hex_bytes hex ++ b)
  | None => (m, b)
  end.

Definition valid_utf8_prefix_len (m : Metadata) (combined : bytes) (end_of_stream : bool) : Metadata * option nat :=
  match utf8_check combined with
  | Utf8Valid => (m, Some (length combined))
  | Utf8Incomplete valid =>
      if end_of_stream then (m, None)
      else
        let tail := drop valid combined in
        if (3 <? length tail)%nat then (m, None)
        else (<[UTF8_BUFFER_KEY := encode_hex_bytes tail]> m, Some valid)
  | Utf8Malformed => (m, None)
  end.

Definition decode_and_process_chunk (m : Metadata) (b : bytes) (end_of_stream : bool) : Metadata * result string (option Output) :=
  let '(m, combined) := combine_pending_utf8 m b in
  match valid_utf8_prefix_len m combined end_of_stream with
  | (m, None) =>
      (delete LINE_BUFFER_KEY m, Err "anthropic_messages_to_chat_completions_stream: upstream SSE contains malformed UTF-8"%string)
  | (m, Some valid_up_to) =>
      match from_utf8 (take valid_up_to combined) with
      | None => (m, Ok None)
      | Some chunk =>
          if bool_decide (chunk = []) && negb end_of_stream then (m, Ok None)
          else match process_sse_chunk m (bytes_string chunk) end_of_stream with
               | (m, Ok out) => (m, Ok (Some out))
               | (m, Err e) => (m, Err e)
               end
      end
  end.

(** * Hooks *)

(** What becomes of the body: as it was, or these events. *)
Inductive BodyOut := Unchanged | Replaced (out : Output).

Definition on_response_body (m : Metadata) (body : option bytes) (end_of_stream : bool) : Metadata * result string BodyOut :=
  if negb (is_armed m) then (m, Ok Unchanged)
  else if is_stream_failed m then (m, Ok (match body with Some _ => Replaced [] | None => Unchanged end))
  else
    match body with
    | None =>
        if end_of_stream then
          match decode_and_process_chunk m [] true with
          | (m, Err e) => (m, Err e)
          | (m, Ok out) => (m, Ok (match default [] out with [] => Unchanged | o => Replaced o end))
          end
        else (m, Ok Unchanged)
    | Some b =>
        match decode_and_process_chunk m b end_of_stream with
        | (m, Err e) => (m, Err e)
        | (m, Ok None) => (m, Ok (Replaced []))
        | (m, Ok (Some out)) => (m, Ok (Replaced out))
        end
    end.

(** The response head: its status and its fields in order, a value [None] when it
    is not visible text, with the context's [response_headers_modified]. *)
Record ResponseHead := mkHead { status : N; head_fields : list (string * option string); response_headers_modified : bool }.

(** [is_event_stream_content_type]. *)
Definition is_event_stream_content_type (v : string) : bool :=
  eq_ignore_ascii_case (trim (default ""%string (head (split_on ";" v)))) "text/event-stream".

Definition is_streaming_request (m : Metadata) : bool :=
  is_true (m !! "anthropic_messages_request.stream"%string) ||
  is_true (m !! "anthropic_messages_to_chat_completions.streaming"%string).

Definition should_arm (m : Metadata) (r : option ResponseHead) : bool :=
  is_streaming_request m &&
  match (h ← r; v ← assoc "content-type" (head_fields h); v) with Some v => is_event_stream_content_type v | None => false end &&
  negb (match r with Some h => match assoc "content-encoding" (head_fields h) with Some _ => true | None => false end | None => false end) &&
  match r with Some h => (200 <=? status h) && (status h <=? 299) | None => true end.

(** [HeaderMap::remove] and [HeaderMap::insert], which replaces in place. *)
Definition fields_remove (n : string) (l : list (string * option string)) : list (string * option string) :=
  List.filter (fun e => negb (bool_decide (e.1 = n))) l.
Fixpoint fields_insert (n : string) (v : string) (l : list (string * option string)) : list (string * option string) :=
  match l with
  | [] => [(n, Some v)]
  | (n', v') :: l => if bool_decide (n' = n) then (n, Some v) :: fields_remove n l else (n', v') :: fields_insert n v l
  end.

Definition on_request (request_headers_to_remove : list string) : list string := request_headers_to_remove ++ ["accept-encoding"%string].

Definition on_response (m : Metadata) (r : option ResponseHead) : Metadata * option ResponseHead :=
  if should_arm m r then
    (set_metadata m ARMED_KEY "true",
     (fun h => mkHead (status h) (fields_insert "content-type" "text/event-stream" (fields_remove "content-length" (head_fields h))) true) <$> r)
  else (m, r).

(** The body callbacks of one response: what the client receives, up to the
    first error. *)
Fixpoint response_body (m : Metadata) (calls : list (option bytes * bool)) : Metadata * list BodyOut * result string unit :=
  match calls with
  | [] => (m, [], Ok tt)
  | (body, eos) :: calls =>
      match on_response_body m body eos with
      | (m, Err e) => (m, [], Err e)
      | (m, Ok o) => let '(m, os, r) := response_body m calls in (m, o :: os, r)
      end
  end.
End Events.
End State.
