(* ===== verification/AnthropicStreamProps.v ===== *)
(** Properties of the streaming translation ([AnthropicStream]): a client that
    reads the events by the rules of the Messages API never meets one out of
    place, and the message it assembles is the one the upstream sent, however
    the upstream bytes were cut into chunks. *)

From S2P Require Import Prelude Utf8 Sorting MetaCodec RustStr Json AnthropicStream.
From Stdlib Require Import Strings.Byte Strings.Ascii.

Local Open Scope N_scope.

(** * A client *)

(** A content block as the client assembles it. *)
Inductive CBlock := CText (text : string) | CTool (id name args : string).

Inductive ClientEvent :=
| EvMessageStart
| EvBlockStart (i : nat) (b : CBlock)
| EvText (i : nat) (text : string)
| EvInput (i : nat) (json : string)
| EvBlockStop (i : nat)
| EvMessageDelta (data : Json)
| EvMessageStop
| EvError.

Definition read_block (v : Json) : option CBlock :=
  t ← get v "type" ≫= as_str;
  if bool_decide (t = "text"%string) then CText <$> (get v "text" ≫= as_str)
  else if bool_decide (t = "tool_use"%string) then
    id ← get v "id" ≫= as_str; name ← get v "name" ≫= as_str; Some (CTool id name "")
  else None.

Definition read_delta (i : nat) (v : Json) : option ClientEvent :=
  t ← get v "type" ≫= as_str;
  if bool_decide (t = "text_delta"%string) then EvText i <$> (get v "text" ≫= as_str)
  else if bool_decide (t = "input_json_delta"%string) then EvInput i <$> (get v "partial_json" ≫= as_str)
  else None.

Definition read_index (v : Json) : option nat := N.to_nat <$> (get v "index" ≫= as_u64).

Definition read_event (e : OutEvent) : option ClientEvent :=
  let t := out_type e in
  let v := out_data e in
  if bool_decide (t = "message_start"%string) then Some EvMessageStart
  else if bool_decide (t = "content_block_start"%string) then i ← read_index v; b ← get v "content_block" ≫= read_block; Some (EvBlockStart i b)
  else if bool_decide (t = "content_block_delta"%string) then i ← read_index v; get v "delta" ≫= read_delta i
  else if bool_decide (t = "content_block_stop"%string) then i ← read_index v; Some (EvBlockStop i)
  else if bool_decide (t = "message_delta"%string) then Some (EvMessageDelta v)
  else if bool_decide (t = "message_stop"%string) then Some EvMessageStop
  else if bool_decide (t = "error"%string) then Some EvError
  else None.

(** Where the client stands: the blocks so far and those still open.  Nothing
    may follow [message_stop], nor an error. *)
Inductive Client :=
| Before
| Reading (blocks : list CBlock) (open : gset nat)
| Delivered (blocks : list CBlock) (delta : Json)
| Complete (blocks : list CBlock) (delta : Json)
| Broken.

Definition client_step (c : Client) (e : ClientEvent) : option Client :=
  match c, e with
  | Before, EvMessageStart => Some (Reading [] ∅)
  | Reading bs op, EvBlockStart i b => if bool_decide (i = length bs) then Some (Reading (bs ++ [b]) ({[i]} ∪ op)) else None
  | Reading bs op, EvText i t =>
      match bs !! i with
      | Some (CText t0) => if bool_decide (i ∈ op) then Some (Reading (<[i := CText (t0 +:+ t)]> bs) op) else None
      | _ => None
      end
  | Reading bs op, EvInput i a =>
      match bs !! i with
      | Some (CTool id n a0) => if bool_decide (i ∈ op) then Some (Reading (<[i := CTool id n (a0 +:+ a)]> bs) op) else None
      | _ => None
      end
  | Reading bs op, EvBlockStop i => if bool_decide (i ∈ op) then Some (Reading bs (op ∖ {[i]})) else None
  | Reading bs op, EvMessageDelta d => if bool_decide (op = ∅) then Some (Delivered bs d) else None
  | Reading _ _, EvError => Some Broken
  | Delivered bs d, EvMessageStop => Some (Complete bs d)
  | _, _ => None
  end.

Definition client_read (c : Client) (e : OutEvent) : option Client :=
  ev ← read_event e; client_step c ev.
Fixpoint client_run (c : Client) (es : Output) : option Client :=
  match es with [] => Some c | e :: es => c ← client_read c e; client_run c es end.

Lemma client_run_app c es es' : client_run c (es ++ es') = (c ← client_run c es; client_run c es').
Proof. revert c. induction es as [|e es IH]; intros c; cbn; [done|]. destruct (client_read c e); cbn; auto. Qed.

Lemma client_run_complete bs d es c : client_run (Complete bs d) es = Some c -> es = [] /\ c = Complete bs d.
Proof. destruct es as [|e es]; cbn; [by intros [= <-]|]. unfold client_read. by destruct (read_event e) as [[]|]. Qed.

(** The client is in step with [es], or was until its message was complete. *)
Definition tracks (c : Client) (es : Output) (c' : Client) : Prop :=
  exists es1 es2, es = es1 ++ es2 /\ client_run c es1 = Some c' /\ (es2 = [] \/ exists bs d, c' = Complete bs d).

Lemma tracks_run c es c' : client_run c es = Some c' -> tracks c es c'.
Proof. intros Hr. exists es, []. rewrite app_nil_r. auto. Qed.

Lemma tracks_trans c1 c2 c3 es es' : tracks c1 es c2 -> tracks c2 es' c3 -> tracks c1 (es ++ es') c3.
Proof.
  intros (a & b & -> & Ha & Hb) (a' & b' & -> & Ha' & Hb'). destruct Hb as [->|(bs & d & ->)].
  - exists (a ++ a'), b'. rewrite app_nil_r, app_assoc, client_run_app, Ha. done.
  - apply client_run_complete in Ha' as [-> ->]. exists a, (b ++ [] ++ b'). rewrite <- app_assoc. split_and!; eauto.
Qed.

(** The events the translation writes are read as what they are. *)
Lemma read_start i b : read_event (mkOut "content_block_start" (block_start_json i b)) =
  Some (EvBlockStart (N.to_nat i) (match b with TextBlock t => CText t | ToolUseBlock id n => CTool id n "" end)).
Proof. by destruct b. Qed.
Lemma read_text i t : read_event (mkOut "content_block_delta" (text_delta_json i t)) = Some (EvText (N.to_nat i) t).
Proof. done. Qed.
Lemma read_input i a : read_event (mkOut "content_block_delta" (input_delta_json i a)) = Some (EvInput (N.to_nat i) a).
Proof. done. Qed.
Lemma read_stop i : read_event (mkOut "content_block_stop" (block_stop_json i)) = Some (EvBlockStop (N.to_nat i)).
Proof. done. Qed.

(** ** The text of a message *)

Definition block_text (b : CBlock) : string := match b with CText t => t | CTool _ _ _ => "" end.
Fixpoint texts (bs : list CBlock) : string := match bs with [] => ""%string | b :: bs => block_text b +:+ texts bs end.

Lemma texts_app bs bs' : texts (bs ++ bs') = texts bs +:+ texts bs'.
Proof. induction bs as [|b bs IH]; cbn; [done|]. by rewrite IH, str_app_assoc. Qed.

Lemma texts_insert_tool bs i id n a id' n' a' :
  bs !! i = Some (CTool id n a) -> texts (<[i := CTool id' n' a']> bs) = texts bs.
Proof.
  revert i. induction bs as [|b bs IH]; intros [|i]; cbn; [done|done| |].
  - by intros [= ->].
  - intros Hi. by rewrite IH.
Qed.

(** * What the upstream sent *)

Record Upstream := mkUp {
  up_text : string;
  up_tools : gmap string (string * string * string);
  up_finish : option string;
  up_stop : option string;
  up_output : option N;
  up_input : option N;
  up_cached : option N
}.
Definition up_empty : Upstream := mkUp "" ∅ None None None None None.

Definition with_text (u : Upstream) (t : string) : Upstream :=
  mkUp (up_text u +:+ t) (up_tools u) (up_finish u) (up_stop u) (up_output u) (up_input u) (up_cached u).
Definition with_tools (u : Upstream) (ts : gmap string (string * string * string)) : Upstream :=
  mkUp (up_text u) ts (up_finish u) (up_stop u) (up_output u) (up_input u) (up_cached u).
Definition with_finish (u : Upstream) (f s : option string) : Upstream :=
  mkUp (up_text u) (up_tools u) f s (up_output u) (up_input u) (up_cached u).
Definition with_usage (u : Upstream) (o i c : option N) : Upstream :=
  mkUp (up_text u) (up_tools u) (up_finish u) (up_stop u) o i c.

(** A stream goes on, carries a tool call that cannot be represented, or is
    refused. *)
Inductive Outcome := Cont (u : Upstream) | BadCall | Refused.

Definition latest {A} (new old : option A) : option A := match new with Some x => Some x | None => old end.

Definition tool_arguments (tc : Json) : string := default ""%string (f ← get tc "function"; a ← get f "arguments"; as_str a).

(** The first delta of a call names it, the others append to its arguments. *)
Definition note_tool (max : N) (tc : Json) (u : Upstream) : Outcome :=
  let k := tool_call_key tc in
  match up_tools u !! k with
  | Some (id, n, a) => Cont (with_tools u (<[k := (id, n, a +:+ tool_arguments tc)]> (up_tools u)))
  | None =>
      if max <=? N.of_nat (size (up_tools u)) then Refused
      else match extract_tool_id_and_name tc with
           | None => BadCall
           | Some (id, n) => Cont (with_tools u (<[k := (id, n, tool_arguments tc)]> (up_tools u)))
           end
  end.
Fixpoint note_tools (max : N) (tcs : list Json) (u : Upstream) : Outcome :=
  match tcs with
  | [] => Cont u
  | tc :: tcs => match note_tool max tc u with Cont u => note_tools max tcs u | o => o end
  end.

Definition note_delta (max : N) (delta : Json) (u : Upstream) : Outcome :=
  let u := match get delta "content" ≫= as_str with Some t => with_text u t | None => u end in
  note_tools max (default [] (get delta "tool_calls" ≫= as_array)) u.

Definition note_finish (stops : list string) (choice : Json) (u : Upstream) : Upstream :=
  with_finish u (latest (get choice "finish_reason" ≫= as_str) (up_finish u))
    (latest (s ← get choice "stop_reason" ≫= as_str; if bool_decide (s ∈ stops) then Some s else None) (up_stop u)).

Definition note_usage (chunk : Json) (u : Upstream) : Upstream :=
  match get chunk "usage" with
  | None => u
  | Some v =>
      with_usage u (latest (get v "completion_tokens" ≫= as_u64) (up_output u))
        (latest (get v "prompt_tokens" ≫= as_u64) (up_input u))
        (latest (d ← get v "prompt_tokens_details"; c ← get d "cached_tokens"; as_u64 c) (up_cached u))
  end.

Definition note_chunk (max : N) (stops : list string) (chunk : Json) (u : Upstream) : Outcome :=
  match extract_first_choice chunk with
  | None => Cont (note_usage chunk u)
  | Some choice =>
      match (match get choice "delta" with Some d => note_delta max d u | None => Cont u end) with
      | Cont u => Cont (note_usage chunk (note_finish stops choice u))
      | o => o
      end
  end.

(** The last event of the message, from what was noted. *)
Definition final_delta (u : Upstream) : Json :=
  let reason :=
    match up_finish u with
    | Some r => if bool_decide (r = "stop"%string) && match up_stop u with Some _ => true | None => false end
                then "stop_sequence"%string else map_stop_reason r
    | None => "end_turn"%string
    end in
  message_delta_json reason (up_stop u)
    (mkDeltaUsage (default 0 (up_output u))
      ((fun pt => match up_cached u with Some c => pt - c | None => pt end) <$> up_input u) (up_cached u)).

(** * Keys *)

Lemma prefix_app p s : String.prefix p (p +:+ s) = true.
Proof. induction p as [|c p IH]; [by destruct s|]. rewrite str_app_cons. cbn. by destruct (ascii_dec c c). Qed.

Lemma prefix_split p s : String.prefix p s = true -> s = p +:+ String.substring (String.length p) (String.length s - String.length p) s.
Proof.
  revert s. induction p as [|c p IH]; intros s Hp.
  - cbn [String.length]. rewrite Nat.sub_0_r. change ("" +:+ ?x) with x. symmetry.
    pose proof (substring_prefix s "") as E. by rewrite str_app_nil in E.
  - destruct s as [|d s]; [done|]. cbn in Hp. destruct (ascii_dec c d) as [->|]; [|done].
    rewrite str_app_cons. f_equal. by apply IH.
Qed.

Lemma strip_prefix_app p s : strip_prefix p (p +:+ s) = Some s.
Proof.
  unfold strip_prefix. rewrite prefix_app, string_length_app, Nat.add_comm, Nat.add_sub. f_equal.
  pose proof (substring_middle p s "") as E. by rewrite str_app_nil in E.
Qed.

Lemma strip_prefix_Some p s t : strip_prefix p s = Some t -> s = p +:+ t.
Proof. unfold strip_prefix. destruct (String.prefix p s) eqn:E; [|done]. intros [= <-]. by apply prefix_split. Qed.

Lemma ends_with_app s p : ends_with (s +:+ p) p = true.
Proof.
  unfold ends_with. rewrite string_length_app, Nat.add_sub. apply andb_true_intro. split; [apply Nat.leb_le; lia|].
  apply bool_decide_eq_true. pose proof (substring_middle s p "") as E. by rewrite str_app_nil in E.
Qed.

Lemma strip_suffix_app p s : strip_suffix p (s +:+ p) = Some s.
Proof. unfold strip_suffix. rewrite ends_with_app, string_length_app, Nat.add_sub. f_equal. apply substring_prefix. Qed.

Lemma strip_suffix_Some p s t : strip_suffix p s = Some t -> s = t +:+ p.
Proof.
  unfold strip_suffix, ends_with. destruct (Nat.leb_spec (String.length p) (String.length s)) as [Hl|]; cbn; [|done].
  case_bool_decide as E; [|done]. intros [= <-].
  pose proof (substring_cut s (String.length s - String.length p) ltac:(lia)) as Hc.
  replace (String.length s - (String.length s - String.length p))%nat with (String.length p) in Hc by lia. by rewrite E in Hc.
Qed.

Lemma open_key_inj k k' : tool_block_open_key k = tool_block_open_key k' -> k = k'.
Proof. intros E%str_app_inj_l. by apply str_app_inj_r in E. Qed.
Lemma index_key_inj k k' : tool_block_index_key k = tool_block_index_key k' -> k = k'.
Proof. intros E%str_app_inj_l. by apply str_app_inj_r in E. Qed.

Lemma open_key_not_index k k' : tool_block_open_key k <> tool_block_index_key k'.
Proof.
  intros E%str_app_inj_l. apply (f_equal (strip_suffix "n")) in E.
  change TOOL_BLOCK_OPEN_SUFFIX with (".ope" +:+ "n")%string in E. change TOOL_BLOCK_INDEX_SUFFIX with (".inde" +:+ "x")%string in E.
  rewrite <- !str_app_assoc, strip_suffix_app in E. symmetry in E. apply strip_suffix_Some in E.
  apply (f_equal string_bytes) in E. rewrite !string_bytes_app in E. apply app_inj_tail in E as [_ [=]].
Qed.

Lemma index_key_not_open k k' : tool_block_index_key k <> tool_block_open_key k'.
Proof. intros E. by apply (open_key_not_index k' k). Qed.

(** Keys of different purposes differ. *)
Ltac key_ne :=
  first [discriminate | apply open_key_not_index | apply index_key_not_open
        | (intros ?E; apply open_key_inj in E; congruence) | (intros ?E; apply index_key_inj in E; congruence)].
Ltac lookups := repeat first [rewrite lookup_insert_eq | rewrite lookup_insert_ne by key_ne | rewrite lookup_delete_ne by key_ne].

Lemma parse_u32_to_string n : n <= u32_max -> parse_u32 (usize_to_string n) = Some n.
Proof.
  intros Hn. unfold parse_u32. rewrite parse_usize_to_string by (unfold u32_max, u64_max in *; lia). cbn.
  by destruct (N.leb_spec n u32_max); [|lia].
Qed.

(** ** Open tool blocks *)

Section Open.
Context `{!HashOrder string}.

Lemma open_tool_block_Some m kv i k :
  open_tool_block m kv = Some (i, k) <-> kv = (tool_block_open_key k, "true"%string) /\ get_tool_block_index m k = Some i.
Proof.
  destruct kv as [key v]. unfold open_tool_block. cbn. split.
  - case_bool_decide as Hv; cbn; [|done]. subst v.
    intros (k1 & H1%strip_prefix_Some & (k2 & H2%strip_suffix_Some & (i' & Hi & [= <- <-])%bind_Some)%bind_Some)%bind_Some.
    subst. done.
  - intros [[= -> ->] Hi]. cbn. unfold tool_block_open_key. rewrite strip_prefix_app. cbn. rewrite strip_suffix_app. cbn. by rewrite Hi.
Qed.

Lemma elem_of_open_tool_blocks m i k :
  (i, k) ∈ open_tool_blocks m <-> is_tool_block_open m k = true /\ get_tool_block_index m k = Some i.
Proof.
  unfold open_tool_blocks, is_tool_block_open. rewrite sort_by_perm, list_elem_of_omap, bool_decide_eq_true.
  setoid_rewrite open_tool_block_Some. split.
  - intros ([key v] & Hin & [= -> ->] & Hi). by rewrite elem_of_hash_iter in Hin.
  - intros [Hk Hi]. exists (tool_block_open_key k, "true"%string). by rewrite elem_of_hash_iter.
Qed.

Lemma open_tool_blocks_NoDup m : NoDup (open_tool_blocks m).*2.
Proof.
  unfold open_tool_blocks. rewrite sort_by_perm. pose proof (NoDup_hash_iter_fst m) as Hnd. revert Hnd.
  generalize (hash_iter m) as l. induction l as [|kv l IH]; cbn; [constructor|]. intros [Hn Hl]%NoDup_cons.
  destruct (open_tool_block m kv) as [[i k]|] eqn:E; [|auto]. cbn. constructor; [|auto].
  apply open_tool_block_Some in E as [-> _]. intros ([i' k'] & [= <-] & Hin)%list_elem_of_fmap. cbn in *.
  apply list_elem_of_omap in Hin as (kv' & Hin & [-> _]%open_tool_block_Some). apply Hn. apply list_elem_of_fmap. by exists (tool_block_open_key k, "true"%string).
Qed.
End Open.

(** * The invariant *)

Section Stream.
Context `{MetadataApi} `{!HashOrder string} (from_str : string -> option Json) (cfg : StreamConfig) (stops : list string).
(** The context keeps what this filter writes. *)
Hypothesis room : forall m k v, String.prefix "anthropic_stream." k = true -> set_metadata m k v = <[k := v]> m.
Hypothesis cfg_usize : max_tool_blocks cfg <= u64_max.

(** The metadata, the client and what the upstream sent agree. *)
Record reads (m : Metadata) (bs : list CBlock) (op : gset nat) (u : Upstream) : Prop := mkReads {
  rd_started : is_stream_started m = true;
  rd_next : N.of_nat (length bs) = get_block_index m + (if is_text_block_open m then 1 else 0);
  rd_last : is_text_block_open m = true -> exists bs0 t, bs = bs0 ++ [CText t];
  rd_open : forall i, i ∈ op <-> (is_text_block_open m = true /\ i = N.to_nat (get_block_index m)) \/
    exists k j, is_tool_block_open m k = true /\ get_tool_block_index m k = Some j /\ i = N.to_nat j;
  rd_tools : forall k, match up_tools u !! k with
    | Some (id, n, a) => is_tool_block_open m k = true /\
        exists j, get_tool_block_index m k = Some j /\ bs !! N.to_nat j = Some (CTool id n a)
    | None => is_tool_block_open m k = false
    end;
  rd_only : forall i id n a, bs !! i = Some (CTool id n a) ->
    exists k, is_tool_block_open m k = true /\ get_tool_block_index m k = Some (N.of_nat i);
  rd_inj : forall k k' j, is_tool_block_open m k = true -> is_tool_block_open m k' = true ->
    get_tool_block_index m k = Some j -> get_tool_block_index m k' = Some j -> k = k';
  rd_text : texts bs = up_text u;
  rd_count : get_tool_block_count m = N.of_nat (size (up_tools u));
  rd_finish : m !! FINISH_REASON_KEY = up_finish u;
  rd_stop : m !! STOP_SEQUENCE_KEY = up_stop u;
  rd_output : m !! OUTPUT_TOKENS_KEY = usize_to_string <$> up_output u;
  rd_input : m !! INPUT_TOKENS_KEY = usize_to_string <$> up_input u;
  rd_cached : m !! CACHE_READ_TOKENS_KEY = usize_to_string <$> up_cached u;
  rd_stops : client_stop_sequences from_str m = stops
}.

(** Nothing was written for this response yet, but for the buffers. *)
Definition buffer_key (k : string) : bool := bool_decide (k ∈ [ARMED_KEY; LINE_BUFFER_KEY; UTF8_BUFFER_KEY]).
Definition fresh (m : Metadata) : Prop :=
  (forall k, String.prefix "anthropic_stream." k = true -> buffer_key k = false -> m !! k = None) /\
  client_stop_sequences from_str m = stops.

Definition inv (m : Metadata) (c : Client) (u : Upstream) : Prop :=
  match c with
  | Before => fresh m /\ u = up_empty
  | Reading bs op => reads m bs op u
  | Delivered _ _ => False
  | Complete _ _ => True
  | Broken => is_stream_failed m = true
  end.

(** The events written between two states take the client from [c] to [c']. *)
Definition steps (s s' : St) (c c' : Client) : Prop := exists es, s'.2 = s.2 ++ es /\ client_run c es = Some c'.

Lemma steps_refl s s' c : s'.2 = s.2 -> steps s s' c c.
Proof. intros E. exists []. by rewrite app_nil_r. Qed.

Lemma steps_trans s1 s2 s3 c1 c2 c3 : steps s1 s2 c1 c2 -> steps s2 s3 c2 c3 -> steps s1 s3 c1 c3.
Proof.
  intros (es & E & Hr) (es' & E' & Hr'). exists (es ++ es'). rewrite E', E, app_assoc, client_run_app, Hr. done.
Qed.

Lemma steps_one s s' c c' t d ev :
  s'.2 = emit_event s.2 t d -> read_event (mkOut t d) = Some ev -> client_step c ev = Some c' -> steps s s' c c'.
Proof.
  intros E Hr Hs. exists [mkOut t d]. split; [done|]. cbn. unfold client_read. rewrite Hr. cbn. by rewrite Hs.
Qed.

(** Agreement outside the keys of blocks. *)
Definition same_blocks (m m' : Metadata) : Prop :=
  (forall k, k ∈ [STREAM_STATE_KEY; TEXT_BLOCK_OPEN_KEY; BLOCK_INDEX_KEY; TOOL_BLOCK_COUNT_KEY] -> m' !! k = m !! k) /\
  (forall k, m' !! tool_block_open_key k = m !! tool_block_open_key k) /\
  (forall k, m' !! tool_block_index_key k = m !! tool_block_index_key k).

Lemma reads_same m m' bs op u u' :
  same_blocks m m' -> up_text u' = up_text u -> up_tools u' = up_tools u ->
  m' !! FINISH_REASON_KEY = up_finish u' -> m' !! STOP_SEQUENCE_KEY = up_stop u' ->
  m' !! OUTPUT_TOKENS_KEY = usize_to_string <$> up_output u' -> m' !! INPUT_TOKENS_KEY = usize_to_string <$> up_input u' ->
  m' !! CACHE_READ_TOKENS_KEY = usize_to_string <$> up_cached u' -> client_stop_sequences from_str m' = stops ->
  reads m bs op u -> reads m' bs op u'.
Proof.
  intros (Hf & Ho & Hi) Et Eo F1 F2 F3 F4 F5 F6 [R1 R2 R3 R4 R5 RO R6 R7 R8 _ _ _ _ _ _].
  assert (is_stream_started m' = is_stream_started m) as E1 by (unfold is_stream_started; rewrite Hf by set_solver; done).
  assert (is_text_block_open m' = is_text_block_open m) as E2 by (unfold is_text_block_open; rewrite Hf by set_solver; done).
  assert (get_block_index m' = get_block_index m) as E3 by (unfold get_block_index; rewrite Hf by set_solver; done).
  assert (get_tool_block_count m' = get_tool_block_count m) as E4 by (unfold get_tool_block_count; rewrite Hf by set_solver; done).
  assert (forall k, is_tool_block_open m' k = is_tool_block_open m k) as E5 by (intros k; unfold is_tool_block_open; by rewrite Ho).
  assert (forall k, get_tool_block_index m' k = get_tool_block_index m k) as E6 by (intros k; unfold get_tool_block_index; by rewrite Hi).
  split; rewrite ?E1, ?E2, ?E3, ?E4, ?Eo, ?Et; try done.
  - intros i. rewrite R4. by setoid_rewrite E5; setoid_rewrite E6.
  - intros k. rewrite E5, E6. apply R5.
  - intros i id n a Hb. setoid_rewrite E5. setoid_rewrite E6. by eapply RO.
  - intros k k' j. rewrite !E5, !E6. apply R6.
Qed.

Lemma get_block_index_u32 m : get_block_index m <= u32_max.
Proof.
  unfold get_block_index, parse_u32. destruct (m !! BLOCK_INDEX_KEY) as [v|]; cbn; [|unfold u32_max; lia].
  destruct (parse_usize v) as [n|]; cbn; [|unfold u32_max; lia]. destruct (N.leb_spec n u32_max); cbn; [done|unfold u32_max; lia].
Qed.

(** ** Single operations *)

Ltac accessors := unfold is_stream_started, is_stream_failed, is_text_block_open, get_block_index, get_tool_block_count,
  is_tool_block_open, get_tool_block_index, client_stop_sequences in *.

Lemma message_start_reads nanos chunk m out :
  fresh m -> let s' := emit_message_start nanos chunk (m, out) in
  steps (m, out) s' Before (Reading [] ∅) /\ reads s'.1 [] ∅ up_empty /\ is_text_block_open s'.1 = false.
Proof.
  intros [Hf Hs] s'. subst s'. unfold emit_message_start. rewrite room by done. cbn [fst snd].
  assert (forall k, String.prefix "anthropic_stream." k = true -> buffer_key k = false ->
    k <> STREAM_STATE_KEY -> (<[STREAM_STATE_KEY := STREAM_STATE_STARTED]> m) !! k = None) as Hn
    by (intros k Hp Hk Hne; rewrite lookup_insert_ne by done; by apply Hf).
  assert (forall k, (<[STREAM_STATE_KEY := STREAM_STATE_STARTED]> m) !! tool_block_open_key k = None) as Ho.
  { intros k. apply Hn; [done| |done]. apply bool_decide_eq_false.
    rewrite !elem_of_cons, elem_of_nil. intros [E|[E|[E|[]]]]; revert E; key_ne. }
  split_and!.
  - by eapply steps_one.
  - split; accessors; rewrite ?lookup_insert_eq, ?Hn by (reflexivity || discriminate); try reflexivity.
    + done.
    + intros i. split; [set_solver|]. intros [[? ?]|(k & j & Hk & _)]; [done|]. by rewrite Ho in Hk.
    + intros k. cbn. by rewrite Ho.
    + intros i id n a. by rewrite lookup_nil.
    + intros k k' j Hk. by rewrite Ho in Hk.
    + by rewrite lookup_insert_ne.
  - accessors. rewrite Hn by (reflexivity || discriminate). done.
Qed.

Lemma lookup_last (bs : list CBlock) b : (bs ++ [b]) !! length bs = Some b.
Proof. by rewrite lookup_app_r, Nat.sub_diag by done. Qed.

Lemma text_delta_reads t m out bs op u :
  reads m bs op u -> let s' := emit_text_delta t (m, out) in
  exists bs' op', steps (m, out) s' (Reading bs op) (Reading bs' op') /\ reads s'.1 bs' op' (with_text u t) /\
    (length bs' <= S (length bs))%nat /\ is_text_block_open s'.1 = true.
Proof.
  intros [R1 R2 R3 R4 R5 RO R6 R7 R8 R9 R10 R11 R12 R13 R14]. unfold emit_text_delta. cbn [fst snd].
  destruct (is_text_block_open m) eqn:Et; cbn [fst snd].
  - destruct (R3 eq_refl) as (bs0 & t0 & ->). rewrite length_app in R2. cbn in R2.
    assert (N.to_nat (get_block_index m) = length bs0) as Hi by lia.
    assert (length bs0 ∈ op) as Hin by (apply R4; left; split; [done|lia]).
    exists (bs0 ++ [CText (t0 +:+ t)]), op. split_and!.
    + eapply steps_one; [done|apply read_text|]. cbn. rewrite Hi, lookup_last, bool_decide_eq_true_2 by done.
      by rewrite insert_app_r_alt, Nat.sub_diag by lia.
    + split; try done.
      * rewrite Et, length_app. cbn. lia.
      * eauto.
      * by rewrite Et.
      * intros k. specialize (R5 k). cbn. destruct (up_tools u !! k) as [[[id n] a]|]; [|done].
        destruct R5 as (Hk & j & Hj & Hb). split; [done|]. exists j. split; [done|]. 
        destruct (decide (N.to_nat j = length bs0)) as [E|Hne]; [by rewrite E, lookup_last in Hb|].
        apply lookup_app_Some in Hb as [Hb|[_ Hb]]; [by apply lookup_app_l_Some|]. by apply list_lookup_singleton_Some in Hb as [? [=]].
      * intros i id n a Hb. apply (RO i id n a). apply lookup_app_Some in Hb as [Hb|[_ Hb]]; [by apply lookup_app_l_Some|].
        by apply list_lookup_singleton_Some in Hb as [? [=]].
      * cbn. rewrite <- R7, !texts_app. cbn. by rewrite !str_app_nil, str_app_assoc.
    + rewrite !length_app. cbn. lia.
    + done.
  - rewrite room by done. set (m' := <[TEXT_BLOCK_OPEN_KEY := "true"%string]> m).
    assert (is_text_block_open m' = true) as Et' by (accessors; subst m'; by lookups).
    assert (get_block_index m' = get_block_index m) as Hi' by (accessors; subst m'; by lookups).
    assert (forall k, is_tool_block_open m' k = is_tool_block_open m k) as E5 by (intros k; accessors; subst m'; by lookups).
    assert (forall k, get_tool_block_index m' k = get_tool_block_index m k) as E6 by (intros k; accessors; subst m'; by lookups).
    assert (N.to_nat (get_block_index m) = length bs) as Hi by lia.
    exists (bs ++ [CText t]), ({[length bs]} ∪ op). rewrite Hi'. split_and!.
    + eapply steps_trans.
      * eapply (steps_one _ (m', emit_event out _ _)); [done|apply read_start|]. cbn. rewrite Hi. by rewrite bool_decide_eq_true_2 by done.
      * eapply steps_one; [done|apply read_text|]. cbn. rewrite Hi, lookup_last, bool_decide_eq_true_2 by set_solver.
        by rewrite insert_app_r_alt, Nat.sub_diag by lia.
    + split; rewrite ?Et', ?Hi'; try (accessors; subst m'; lookups; done).
      * rewrite length_app. cbn. lia.
      * eauto.
      * intros i. setoid_rewrite E5. setoid_rewrite E6. rewrite elem_of_union, elem_of_singleton, R4, Hi.
        split; [intros [->|[[[=] _]|Hk]]|intros [[_ ->]|Hk]]; auto.
      * intros k. rewrite E5, E6. specialize (R5 k). cbn. destruct (up_tools u !! k) as [[[id n] a]|]; [|done].
        destruct R5 as (Hk & j & Hj & Hb). split; [done|]. exists j. split; [done|]. by apply lookup_app_l_Some.
      * intros i id n a Hb. setoid_rewrite E5. setoid_rewrite E6. apply (RO i id n a).
        apply lookup_app_Some in Hb as [Hb|[_ Hb]]; [done|]. by apply list_lookup_singleton_Some in Hb as [? [=]].
      * intros k k' j. rewrite !E5, !E6. apply R6.
      * rewrite texts_app, R7. cbn. by rewrite str_app_nil.
    + rewrite length_app. cbn. lia.
    + done.
Qed.

Lemma close_text_reads m out bs op u :
  reads m bs op u -> let r := close_text_block_if_open (m, out) in
  exists op', steps (m, out) r.1 (Reading bs op) (Reading bs op') /\
    match r.2 with
    | Ok _ => reads r.1.1 bs op' u /\ is_text_block_open r.1.1 = false
    | Err _ => u32_max < N.of_nat (length bs)
    end.
Proof.
  intros R r. subst r. unfold close_text_block_if_open. cbn [fst snd]. destruct (is_text_block_open m) eqn:Et.
  2:{ exists op. split; [by apply steps_refl|done]. }
  destruct R as [R1 R2 R3 R4 R5 RO R6 R7 R8 R9 R10 R11 R12 R13 R14]. rewrite Et in R2, R4.
  assert (N.to_nat (get_block_index m) ∈ op) as Hin by (apply R4; auto).
  exists (op ∖ {[N.to_nat (get_block_index m)]}).
  unfold increment_block_index. destruct (N.leb_spec u32_max (get_block_index m)) as [Hmax|Hmax]; cbn [fst snd].
  { split; [|lia]. eapply steps_one; [done|apply read_stop|]. cbn. by rewrite bool_decide_eq_true_2. }
  split; [eapply steps_one; [done|apply read_stop|]; cbn; by rewrite bool_decide_eq_true_2|].
  rewrite !room by done.
  set (m' := <[TEXT_BLOCK_OPEN_KEY := "false"%string]> (<[BLOCK_INDEX_KEY := usize_to_string (get_block_index m + 1)]> m)).
  assert (is_text_block_open m' = false) as Et' by (accessors; subst m'; by lookups).
  assert (get_block_index m' = get_block_index m + 1) as Hi'.
  { unfold get_block_index at 1. subst m'. lookups. cbn. rewrite parse_u32_to_string by lia. done. }
  assert (forall k, is_tool_block_open m' k = is_tool_block_open m k) as E5 by (intros k; accessors; subst m'; by lookups).
  assert (forall k, get_tool_block_index m' k = get_tool_block_index m k) as E6 by (intros k; accessors; subst m'; by lookups).
  split; [|done]. split; rewrite ?Et', ?Hi'; try (accessors; subst m'; lookups; done).
  - lia.
  - intros i. setoid_rewrite E5. setoid_rewrite E6. rewrite elem_of_difference, elem_of_singleton, R4. split.
    + intros [[[_ ->]|Hk] Hne]; [done|by right].
    + intros [[[=] _]|(k & j & Hk & Hj & ->)]. split; [eauto 10|].
      (* a tool block does not stand where the text block does *)
      destruct (R3 Et) as (bs0 & t & ->). rewrite length_app in R2. cbn in R2.
      specialize (R5 k). destruct (up_tools u !! k) as [[[id n] a]|]; [|congruence].
      destruct R5 as (_ & j' & Hj' & Hb). rewrite Hj in Hj'. injection Hj' as <-.
      intros E. rewrite E in Hb. replace (N.to_nat (get_block_index m)) with (length bs0) in Hb by lia. by rewrite lookup_last in Hb.
  - intros k. rewrite E5, E6. apply R5.
  - intros i id n a Hb. setoid_rewrite E5. setoid_rewrite E6. by eapply RO.
  - intros k k' j. rewrite !E5, !E6. apply R6.
Qed.

(** Further arguments of an open call. *)
Lemma tool_arguments_reads tc m out bs op u id n a :
  reads m bs op u -> is_text_block_open m = false -> up_tools u !! tool_call_key tc = Some (id, n, a) ->
  let s' := emit_tool_arguments_delta (tool_call_key tc) tc (m, out) in
  exists bs', steps (m, out) s' (Reading bs op) (Reading bs' op) /\ length bs' = length bs /\ s'.1 = m /\
    reads m bs' op (with_tools u (<[tool_call_key tc := (id, n, a +:+ tool_arguments tc)]> (up_tools u))).
Proof.
  intros R Et Hu s'. subst s'. unfold emit_tool_arguments_delta, tool_arguments.
  set (k := tool_call_key tc) in *. pose proof R as [R1 R2 R3 R4 R5 RO R6 R7 R8 R9 R10 R11 R12 R13 R14].
  pose proof (R5 k) as Hk. rewrite Hu in Hk. destruct Hk as (Hop & j & Hj & Hb).
  assert (forall a', reads m (<[N.to_nat j := CTool id n (a +:+ a')]> bs) op
    (with_tools u (<[k := (id, n, a +:+ a')]> (up_tools u)))) as Hr.
  { intros a'. split; try done.
    - by rewrite length_insert.
    - by rewrite Et.
    - intros k'. cbn. rewrite lookup_insert. case_decide as E.
      + subst k'. split; [done|]. exists j. split; [done|]. rewrite list_lookup_insert_eq; [done|]. by eapply lookup_lt_Some.
      + specialize (R5 k'). destruct (up_tools u !! k') as [[[id' n'] a2]|]; [|done]. destruct R5 as (Hk' & j' & Hj' & Hb').
        split; [done|]. exists j'. split; [done|]. rewrite list_lookup_insert_ne; [done|].
        intros Ej. apply E. apply (R6 k k' j); try done. rewrite Hj'. f_equal. lia.
    - intros i id' n' a2 Hi. apply list_lookup_insert_Some in Hi as [(<- & _ & _)|[_ Hi]]; [|by eapply RO].
      exists k. by rewrite N2Nat.id.
    - cbn. by rewrite (texts_insert_tool _ _ _ _ _ _ _ _ Hb).
    - cbn. rewrite R8, map_size_insert, Hu. done. }
  destruct (f ← get tc "function"; _) as [args|]; cbn [default].
  2:{ exists bs. rewrite str_app_nil. split_and!; [by apply steps_refl|done|done|].
      specialize (Hr ""%string). rewrite str_app_nil in Hr. by rewrite list_insert_id in Hr. }
  case_bool_decide as Ea; [subst args|].
  { exists bs. cbn. rewrite str_app_nil. split_and!; [by apply steps_refl|done|done|].
    specialize (Hr ""%string). rewrite str_app_nil in Hr. by rewrite list_insert_id in Hr. }
  cbn [fst snd]. rewrite Hj. exists (<[N.to_nat j := CTool id n (a +:+ args)]> bs). split_and!.
  - eapply steps_one; [done|apply read_input|]. cbn. rewrite Hb, bool_decide_eq_true_2; [done|]. apply R4. right. eauto 10.
  - by rewrite length_insert.
  - done.
  - apply Hr.
Qed.

(** The first delta of a call. *)
Lemma tool_start_reads tc m out bs op u id n :
  reads m bs op u -> is_text_block_open m = false -> up_tools u !! tool_call_key tc = None ->
  N.of_nat (size (up_tools u)) < max_tool_blocks cfg -> extract_tool_id_and_name tc = Some (id, n) ->
  let r := emit_tool_block_start (tool_call_key tc) tc (max_tool_blocks cfg) (m, out) in
  exists op', steps (m, out) r.1 (Reading bs op) (Reading (bs ++ [CTool id n ""]) op') /\
  match r.2 with
  | Ok b => b = true /\ is_text_block_open r.1.1 = false /\
      reads r.1.1 (bs ++ [CTool id n ""]) op' (with_tools u (<[tool_call_key tc := (id, n, ""%string)]> (up_tools u)))
  | Err _ => u32_max <= N.of_nat (length bs)
  end.
Proof.
  intros [R1 R2 R3 R4 R5 RO R6 R7 R8 R9 R10 R11 R12 R13 R14] Et Hu Hmax Hx r. subst r. rewrite Et in R2.
  set (k := tool_call_key tc) in *. clearbody k.
  unfold emit_tool_block_start. cbn [fst snd]. rewrite R8. destruct (N.leb_spec (max_tool_blocks cfg) (N.of_nat (size (up_tools u)))); [lia|].
  unfold extract_or_fail_tool_call. rewrite Hx. cbn [fst snd].
  assert (N.to_nat (get_block_index m) = length bs) as Hi by lia. exists ({[length bs]} ∪ op).
  assert (forall s', s'.2 = emit_event out "content_block_start" (block_start_json (get_block_index m) (ToolUseBlock id n)) ->
    steps (m, out) s' (Reading bs op) (Reading (bs ++ [CTool id n ""]) ({[length bs]} ∪ op))) as Hst.
  { intros s' Es. eapply steps_one; [exact Es|apply read_start|]. cbn. by rewrite Hi, bool_decide_eq_true_2. }
  unfold increment_block_index, set_tool_block_index, set_tool_block_open. rewrite !room by done.
  set (m1 := <[tool_block_open_key k := bool_str true]> (<[tool_block_index_key k := usize_to_string (get_block_index m)]> m)).
  assert (get_block_index m1 = get_block_index m) as Hi1 by (accessors; subst m1; by lookups). rewrite Hi1.
  destruct (N.leb_spec u32_max (get_block_index m)) as [Ho|Ho]; cbn [fst snd]; [split; [by apply Hst|lia]|].
  split; [by apply Hst|]. rewrite !room by done.
  set (m' := <[TOOL_BLOCK_COUNT_KEY := _]> _).
  assert (is_text_block_open m' = false) as Et' by (accessors; subst m' m1; by lookups).
  assert (get_block_index m' = get_block_index m + 1) as Hi'.
  { unfold get_block_index at 1. subst m'. lookups. cbn. rewrite parse_u32_to_string by lia. done. }
  assert (forall k', is_tool_block_open m' k' = if decide (k' = k) then true else is_tool_block_open m k') as E5.
  { intros k'. unfold is_tool_block_open. subst m' m1. destruct (decide (k' = k)) as [->|]; by lookups. }
  assert (forall k', get_tool_block_index m' k' = if decide (k' = k) then Some (get_block_index m) else get_tool_block_index m k') as E6.
  { intros k'. unfold get_tool_block_index. subst m' m1. destruct (decide (k' = k)) as [->|]; lookups; [|done].
    cbn. by rewrite parse_u32_to_string by lia. }
  assert (forall k', is_tool_block_open m k' = true -> k' <> k) as Hne.
  { intros k' Hk' ->. specialize (R5 k). rewrite Hu in R5. congruence. }
  assert (forall k' j, is_tool_block_open m k' = true -> get_tool_block_index m k' = Some j -> (N.to_nat j < length bs)%nat) as Hlt.
  { intros k' j Hk' Hj. specialize (R5 k'). destruct (up_tools u !! k') as [[[? ?] ?]|]; [|congruence].
    destruct R5 as (_ & j' & Hj' & Hb). rewrite Hj in Hj'. injection Hj' as <-. by eapply lookup_lt_Some. }
  split; [done|]. split; [done|]. split; rewrite ?Et', ?Hi'; try (accessors; subst m' m1; lookups; done).
  - rewrite length_app. cbn. lia.
  - intros i. rewrite elem_of_union, elem_of_singleton, R4. split.
    + intros [->|[[E _]|(k' & j & Hk' & Hj & ->)]]; right; [|congruence|].
      * exists k, (get_block_index m). rewrite E5, E6, !decide_True by done. auto.
      * exists k', j. rewrite E5, E6, !decide_False by auto. auto.
    + intros [[[=] _]|(k' & j & Hk' & Hj & ->)]. rewrite E5 in Hk'. rewrite E6 in Hj. case_decide as E.
      * left. injection Hj as <-. lia.
      * right. right. eauto 10.
  - intros k'. rewrite E5, E6. cbn. rewrite lookup_insert. destruct (decide (k = k')) as [E|E].
    + subst k'. rewrite !decide_True by done. split; [done|]. exists (get_block_index m). split; [done|]. by rewrite Hi, lookup_last.
    + rewrite !decide_False by congruence. specialize (R5 k'). destruct (up_tools u !! k') as [[[id' n'] a']|]; [|done].
      destruct R5 as (Hk' & j & Hj & Hb). split; [done|]. exists j. split; [done|]. by apply lookup_app_l_Some.
  - intros i id' n' a' Hb. apply lookup_app_Some in Hb as [Hb|[Hl Hb]].
    + destruct (RO _ _ _ _ Hb) as (k' & Hk' & Hj). exists k'. rewrite E5, E6, !decide_False by auto. done.
    + apply list_lookup_singleton_Some in Hb as [Hb _]. exists k. rewrite E5, E6, !decide_True by done. split; [done|]. f_equal. lia.
  - intros k1 k2 j. rewrite !E5, !E6. repeat case_decide; subst; try done.
    + intros _ Hk2 [= <-] Hj. specialize (Hlt _ _ Hk2 Hj). lia.
    + intros Hk1 _ Hj [= <-]. specialize (Hlt _ _ Hk1 Hj). lia.
    + apply R6.
  - cbn. rewrite texts_app, R7. cbn. by rewrite !str_app_nil.
  - unfold get_tool_block_count. subst m'. lookups. cbn. rewrite parse_usize_to_string by lia. cbn.
    rewrite map_size_insert, Hu. cbn. lia.
Qed.

(** ** Deltas *)

Definition count (c : Client) : N := match c with Reading bs _ => N.of_nat (length bs) | _ => 0 end.

(** A step does what the reference says, opening at most [n] blocks. *)
Definition follows (n : N) (c : Client) (s : St) (r : Step unit) (o : Outcome) : Prop :=
  exists c', steps s r.1 c c' /\
  match r.2, o with
  | Err _, _ => o = Refused \/ u32_max <= count c + n
  | Ok _, Cont u => (exists bs op, c' = Reading bs op /\ reads r.1.1 bs op u) /\ count c' <= count c + n
  | Ok _, BadCall => c' = Broken /\ is_stream_failed r.1.1 = true
  | Ok _, Refused => False
  end.

Lemma follows_trans n1 n2 c s c1 s1 r o :
  steps s s1 c c1 -> count c1 <= count c + n1 -> follows n2 c1 s1 r o -> follows (n1 + n2) c s r o.
Proof.
  intros Hs Hc (c' & Hs' & Hr). exists c'. split; [by eapply steps_trans|].
  destruct r.2, o; try done; [|destruct Hr; [by left|right; lia]..]. destruct Hr as [Hr Hl]. split; [done|lia].
Qed.

Lemma tool_delta_follows tc m out bs op u :
  reads m bs op u -> is_text_block_open m = false ->
  let r := transform_tool_delta tc (max_tool_blocks cfg) (m, out) in
  follows 1 (Reading bs op) (m, out) r (note_tool (max_tool_blocks cfg) tc u) /\
  (r.2 = Ok tt -> is_stream_failed r.1.1 = false -> is_text_block_open r.1.1 = false).
Proof.
  intros R Et r. subst r. unfold transform_tool_delta, note_tool. cbn [fst snd].
  pose proof (rd_tools _ _ _ _ R (tool_call_key tc)) as Hk. destruct (up_tools u !! tool_call_key tc) as [[[id n] a]|] eqn:Hu.
  - destruct Hk as [-> _]. destruct (tool_arguments_reads tc m out bs op u id n a R Et Hu) as (bs' & Hs & Hl & E & R').
    cbn [fst snd]. rewrite E. split; [|done]. exists (Reading bs' op). split; [done|]. cbn [fst snd]. rewrite E. split; [eauto|]. cbn. lia.
  - rewrite Hk. destruct (N.leb_spec (max_tool_blocks cfg) (N.of_nat (size (up_tools u)))) as [Hm|Hm].
    { unfold emit_tool_block_start. cbn [fst snd]. rewrite (rd_count _ _ _ _ R).
      destruct (N.leb_spec (max_tool_blocks cfg) (N.of_nat (size (up_tools u)))); [|lia]. cbn. split; [|done].
      exists (Reading bs op). split; [by apply steps_refl|]. by left. }
    destruct (extract_tool_id_and_name tc) as [[id n]|] eqn:Hx.
    + destruct (tool_start_reads tc m out bs op u id n R Et Hu Hm Hx) as (op' & Hs & Hr).
      destruct (emit_tool_block_start (tool_call_key tc) tc (max_tool_blocks cfg) (m, out)) as [[m1 out1] [b|e]]; cbn [fst snd] in *.
      2:{ split; [|done]. exists (Reading (bs ++ [CTool id n ""]) op'). split; [done|]. cbn. right. lia. }
      destruct Hr as (-> & Et1 & R1).
      destruct (tool_arguments_reads tc m1 out1 _ _ _ id n "" R1 Et1 ltac:(cbn; apply lookup_insert_eq)) as (bs' & Hs' & Hl & E & R').
      cbn [fst snd]. rewrite E. split; [|done]. exists (Reading bs' op'). split; [by eapply steps_trans|]. cbn [fst snd]. rewrite E.
      cbn [up_tools with_tools] in R'. rewrite insert_insert_eq in R'. split; [eauto|]. cbn. rewrite Hl, length_app. cbn. lia.
    + unfold emit_tool_block_start, extract_or_fail_tool_call. cbn [fst snd]. rewrite (rd_count _ _ _ _ R).
      destruct (N.leb_spec (max_tool_blocks cfg) (N.of_nat (size (up_tools u)))); [lia|]. rewrite Hx. rewrite room by done. cbn [fst snd].
      assert (is_stream_failed (<[STREAM_STATE_KEY := STREAM_STATE_FAILED]> (delete UTF8_BUFFER_KEY (delete LINE_BUFFER_KEY m))) = true) as Hf
        by (accessors; by lookups).
      split; [|congruence]. exists Broken. split; [by eapply steps_one|]. done.
Qed.

Lemma started_not_failed m : is_stream_started m = true -> is_stream_failed m = false.
Proof. accessors. rewrite bool_decide_eq_true, bool_decide_eq_false. intros ->. done. Qed.

Lemma tool_deltas_follows tcs m out bs op u :
  reads m bs op u -> is_text_block_open m = false ->
  follows (N.of_nat (length tcs)) (Reading bs op) (m, out) (transform_tool_deltas tcs (max_tool_blocks cfg) (m, out))
    (note_tools (max_tool_blocks cfg) tcs u).
Proof.
  revert m out bs op u. induction tcs as [|tc tcs IH]; intros m out bs op u R Et.
  { exists (Reading bs op). split; [by apply steps_refl|]. cbn. split; [eauto|lia]. }
  cbn [transform_tool_deltas note_tools].
  destruct (tool_delta_follows tc m out bs op u R Et) as [(c1 & Hs & Hr) Hclosed].
  destruct (transform_tool_delta tc (max_tool_blocks cfg) (m, out)) as [[m1 out1] [[]|e]]; cbn [fst snd] in *.
  - destruct (note_tool (max_tool_blocks cfg) tc u) as [u1| |]; [| |done].
    + destruct Hr as [(bs1 & op1 & -> & R1) Hl]. pose proof (started_not_failed _ (rd_started _ _ _ _ R1)) as Hf. rewrite Hf.
      replace (N.of_nat (length (tc :: tcs))) with (1 + N.of_nat (length tcs)) by (cbn; lia).
      eapply follows_trans; [exact Hs|exact Hl|]. apply IH; auto.
    + destruct Hr as [-> Hf]. rewrite Hf. exists Broken. done.
  - exists c1. split; [done|]. cbn. destruct Hr as [Hr|Hr]; [left; by rewrite Hr|right; cbn in *; lia].
Qed.

Definition delta_cost (delta : Json) : N := 1 + N.of_nat (length (default [] (get delta "tool_calls" ≫= as_array))).

Lemma delta_follows delta m out bs op u :
  reads m bs op u ->
  follows (delta_cost delta) (Reading bs op) (m, out) (transform_delta delta (max_tool_blocks cfg) (m, out))
    (note_delta (max_tool_blocks cfg) delta u).
Proof.
  intros R. unfold transform_delta, note_delta, delta_cost.
  assert (exists m1 out1 bs1 op1 u1,
    match get delta "content" ≫= as_str with Some content => emit_text_delta content (m, out) | None => (m, out) end = (m1, out1) /\
    match get delta "content" ≫= as_str with Some t => with_text u t | None => u end = u1 /\
    steps (m, out) (m1, out1) (Reading bs op) (Reading bs1 op1) /\ reads m1 bs1 op1 u1 /\
    count (Reading bs1 op1) <= count (Reading bs op) + 1) as (m1 & out1 & bs1 & op1 & u1 & -> & -> & Hs & R1 & Hc).
  { destruct (get delta "content" ≫= as_str) as [t|].
    - destruct (text_delta_reads t m out bs op u R) as (bs1 & op1 & Hs & R1 & Hl & _).
      destruct (emit_text_delta t (m, out)) as [m1 out1]. exists m1, out1, bs1, op1, (with_text u t). split_and!; try done. cbn. lia.
    - exists m, out, bs, op, u. split_and!; try done; [by apply steps_refl|cbn; lia]. }
  destruct (get delta "tool_calls" ≫= as_array) as [tcs|]; cbn [default].
  2:{ exists (Reading bs1 op1). split; [done|]. cbn [fst snd]. split; [eauto|cbn in *; lia]. }
  eapply follows_trans; [exact Hs|exact Hc|]. destruct (close_text_reads m1 out1 bs1 op1 u1 R1) as (op2 & Hs2 & Hr).
  destruct (close_text_block_if_open (m1, out1)) as [[m2 out2] [[]|e]]; cbn [fst snd] in *.
  - change (id tcs) with tcs. destruct Hr as [R2 Et2]. replace (N.of_nat (length tcs)) with (0 + N.of_nat (length tcs)) by lia.
    eapply follows_trans; [exact Hs2|cbn; lia|]. by apply tool_deltas_follows.
  - exists (Reading bs1 op2). split; [done|]. right. cbn. lia.
Qed.

(** ** What is recorded beside the blocks *)

Definition block_key (k : string) : bool :=
  bool_decide (k ∈ [STREAM_STATE_KEY; TEXT_BLOCK_OPEN_KEY; BLOCK_INDEX_KEY; TOOL_BLOCK_COUNT_KEY]) || String.prefix TOOL_BLOCK_KEY_PREFIX k.

Lemma same_blocks_insert m k v : block_key k = false -> same_blocks m (<[k := v]> m).
Proof.
  unfold block_key. intros [Hk Hp]%orb_false_iff. apply bool_decide_eq_false in Hk. split_and!.
  - intros k' Hk'. apply lookup_insert_ne. congruence.
  - intros k'. apply lookup_insert_ne. intros ->. unfold tool_block_open_key in Hp. by rewrite prefix_app in Hp.
  - intros k'. apply lookup_insert_ne. intros ->. unfold tool_block_index_key in Hp. by rewrite prefix_app in Hp.
Qed.

Ltac aside R := destruct R; eapply reads_same; [by apply same_blocks_insert|..|by constructor]; try done;
  cbn; accessors; lookups; done.

Lemma reads_finish m bs op u r : reads m bs op u -> reads (<[FINISH_REASON_KEY := r]> m) bs op (with_finish u (Some r) (up_stop u)).
Proof. intros R. aside R. Qed.
Lemma reads_stop m bs op u r : reads m bs op u -> reads (<[STOP_SEQUENCE_KEY := r]> m) bs op (with_finish u (up_finish u) (Some r)).
Proof. intros R. aside R. Qed.
Lemma reads_output m bs op u n :
  reads m bs op u -> reads (<[OUTPUT_TOKENS_KEY := usize_to_string n]> m) bs op (with_usage u (Some n) (up_input u) (up_cached u)).
Proof. intros R. aside R. Qed.
Lemma reads_input m bs op u n :
  reads m bs op u -> reads (<[INPUT_TOKENS_KEY := usize_to_string n]> m) bs op (with_usage u (up_output u) (Some n) (up_cached u)).
Proof. intros R. aside R. Qed.
Lemma reads_cached m bs op u n :
  reads m bs op u -> reads (<[CACHE_READ_TOKENS_KEY := usize_to_string n]> m) bs op (with_usage u (up_output u) (up_input u) (Some n)).
Proof. intros R. aside R. Qed.

Lemma with_finish_id u : with_finish u (up_finish u) (up_stop u) = u.
Proof. by destruct u. Qed.
Lemma with_usage_id u : with_usage u (up_output u) (up_input u) (up_cached u) = u.
Proof. by destruct u. Qed.

Lemma record_finish_reads choice m bs op u :
  reads m bs op u -> reads (record_finish from_str choice m) bs op (note_finish stops choice u).
Proof.
  intros R. unfold record_finish, note_finish.
  set (f := latest (get choice "finish_reason" ≫= as_str) (up_finish u)).
  assert (exists m1, match get choice "finish_reason" ≫= as_str with Some r => <[FINISH_REASON_KEY := r]> m | None => m end = m1 /\
    reads m1 bs op (with_finish u f (up_stop u))) as (m1 & E & R1).
  { subst f. destruct (get choice "finish_reason" ≫= as_str) as [r|]; eexists; split; try done; [by apply reads_finish|].
    cbn. by rewrite with_finish_id. }
  replace (match get choice "finish_reason" ≫= as_str with Some r => set_metadata m FINISH_REASON_KEY r | None => m end) with m1
    by (rewrite <- E; destruct (get choice "finish_reason" ≫= as_str); by rewrite ?room).
  destruct (get choice "stop_reason" ≫= as_str) as [r|]; cbn; [|done]. rewrite (rd_stops _ _ _ _ R1).
  case_bool_decide; cbn; [|done]. rewrite room by done. exact (reads_stop _ _ _ _ _ R1).
Qed.

Lemma usage_reads chunk m bs op u : reads m bs op u -> reads (extract_usage_tokens chunk m) bs op (note_usage chunk u).
Proof.
  intros R. unfold extract_usage_tokens, note_usage. destruct (get chunk "usage") as [v|]; [|done].
  set (o := get v "completion_tokens" ≫= as_u64). set (i := get v "prompt_tokens" ≫= as_u64). set (c := d ← _; _).
  assert (reads (set_count m OUTPUT_TOKENS_KEY o) bs op (with_usage u (latest o (up_output u)) (up_input u) (up_cached u))) as R1.
  { destruct o; cbn; [rewrite room by done; by apply reads_output|by rewrite with_usage_id]. }
  assert (reads (set_count (set_count m OUTPUT_TOKENS_KEY o) INPUT_TOKENS_KEY i) bs op
    (with_usage u (latest o (up_output u)) (latest i (up_input u)) (up_cached u))) as R2.
  { destruct i; cbn; [rewrite room by done; exact (reads_input _ _ _ _ _ R1)|done]. }
  destruct c; cbn; [rewrite room by done; exact (reads_cached _ _ _ _ _ R2)|done].
Qed.

Definition keeps_failed (f : Metadata -> Metadata) : Prop := forall m, is_stream_failed m = true -> is_stream_failed (f m) = true.

Lemma record_finish_failed choice : keeps_failed (record_finish from_str choice).
Proof.
  intros m Hf. unfold record_finish, is_stream_failed. repeat case_match; rewrite ?room by done; lookups; done.
Qed.
Lemma usage_failed chunk : keeps_failed (extract_usage_tokens chunk).
Proof.
  intros m Hf. unfold extract_usage_tokens, set_count, is_stream_failed. repeat case_match; rewrite ?room by done; lookups; done.
Qed.

Definition chunk_cost (chunk : Json) : N := default 1 (c ← extract_first_choice chunk; d ← get c "delta"; Some (delta_cost d)).

(** The client has not been told the end. *)
Definition listening (c : Client) : Prop := match c with Before | Reading _ _ => True | _ => False end.

Lemma started_reads nanos chunk m out c u :
  inv m c u -> listening c -> exists m1 out1 bs op,
    (if is_stream_started m then (m, out) else emit_message_start nanos chunk (m, out)) = (m1, out1) /\
    steps (m, out) (m1, out1) c (Reading bs op) /\ reads m1 bs op u /\ count (Reading bs op) = count c.
Proof.
  intros Hi Hc. destruct c as [|bs op| | |]; try done; cbn in Hi.
  - destruct Hi as [Hf ->]. assert (is_stream_started m = false) as ->.
    { accessors. destruct Hf as [Hf _]. by rewrite Hf. }
    destruct (message_start_reads nanos chunk m out Hf) as (Hs & R & _).
    destruct (emit_message_start nanos chunk (m, out)) as [m1 out1]. exists m1, out1, [], ∅. done.
  - rewrite (rd_started _ _ _ _ Hi). exists m, out, bs, op. split_and!; try done. by apply steps_refl.
Qed.

Lemma chunk_follows nanos chunk m out c u :
  inv m c u -> listening c ->
  follows (chunk_cost chunk) c (m, out) (transform_chunk from_str cfg nanos chunk (m, out))
    (note_chunk (max_tool_blocks cfg) stops chunk u).
Proof.
  intros Hi Hc. unfold transform_chunk, note_chunk, chunk_cost. cbn [fst snd].
  destruct (started_reads nanos chunk m out c u Hi Hc) as (m1 & out1 & bs & op & -> & Hs & R & Hn). cbn [fst snd].
  destruct (extract_first_choice chunk) as [choice|]; cbn.
  2:{ exists (Reading bs op). split; [done|]. cbn [fst snd]. split; [|lia]. exists bs, op. split; [done|]. by apply usage_reads. }
  destruct (get choice "delta") as [d|]; cbn.
  2:{ exists (Reading bs op). split; [done|]. cbn [fst snd]. split; [|lia]. exists bs, op. split; [done|].
      by apply usage_reads, record_finish_reads. }
  destruct (delta_follows d m1 out1 bs op u R) as (c' & Hs' & Hr).
  destruct (transform_delta d (max_tool_blocks cfg) (m1, out1)) as [[m2 out2] [[]|e]]; cbn [fst snd] in *;
    (exists c'; split; [by eapply steps_trans|]); cbn [fst snd].
  - destruct (note_delta (max_tool_blocks cfg) d u) as [u'| |]; [| |done].
    + destruct Hr as [(bs' & op' & -> & R') Hl]. split; [|cbn in *; lia]. exists bs', op'. split; [done|].
      by apply usage_reads, record_finish_reads.
    + destruct Hr as [-> Hf]. split; [done|]. by apply usage_failed, record_finish_failed.
  - destruct Hr as [Hr|Hr]; [left; by rewrite Hr|right; cbn in *; lia].
Qed.

(** ** Completion *)

(** Only tool blocks are open. *)
Record closing (m : Metadata) (op : gset nat) : Prop := mkClosing {
  cl_open : forall i, i ∈ op <-> exists k j, is_tool_block_open m k = true /\ get_tool_block_index m k = Some j /\ i = N.to_nat j;
  cl_inj : forall k k' j, is_tool_block_open m k = true -> is_tool_block_open m k' = true ->
    get_tool_block_index m k = Some j -> get_tool_block_index m k' = Some j -> k = k'
}.

Lemma close_tool_blocks (l : list (N * string)) m out bs op :
  closing m op -> NoDup l.*2 ->
  (forall i k, (i, k) ∈ l <-> is_tool_block_open m k = true /\ get_tool_block_index m k = Some i) ->
  let s' := foldl (fun s b => close_tool_block b.2 s) (m, out) l in
  steps (m, out) s' (Reading bs op) (Reading bs ∅) /\
  forall key, String.prefix TOOL_BLOCK_KEY_PREFIX key = false -> s'.1 !! key = m !! key.
Proof.
  revert m out op. induction l as [|[i k] l IH]; intros m out op [C1 C2] Hnd Hl; cbn [foldl].
  { split; [|done]. replace op with (∅ : gset nat); [by apply steps_refl|]. symmetry. apply set_eq. intros i. split; [|set_solver].
    intros (k & j & Hk & Hj & _)%C1. exfalso. apply (not_elem_of_nil (j, k)). by apply Hl. }
  cbn [fmap list_fmap] in Hnd. apply NoDup_cons in Hnd as [Hni Hnd].
  destruct (proj1 (Hl i k) ltac:(by left)) as [Hk Hi]. set (m1 := <[tool_block_open_key k := bool_str false]> m).
  assert (close_tool_block k (m, out) = (m1, emit_event out "content_block_stop" (block_stop_json i))) as Ec.
  { unfold close_tool_block, set_tool_block_open. cbn [fst snd]. by rewrite Hk, Hi, room. }
  cbn [snd]. rewrite Ec.
  assert (forall k', is_tool_block_open m1 k' = if decide (k' = k) then false else is_tool_block_open m k') as E5.
  { intros k'. unfold is_tool_block_open. subst m1. destruct (decide (k' = k)) as [->|]; by lookups. }
  assert (forall k', get_tool_block_index m1 k' = get_tool_block_index m k') as E6 by (intros k'; accessors; subst m1; by lookups).
  destruct (IH m1 (emit_event out "content_block_stop" (block_stop_json i)) (op ∖ {[N.to_nat i]})) as [Hs Hkeep].
  - split.
    + intros i'. rewrite elem_of_difference, elem_of_singleton, C1. split.
      * intros [(k' & j & Hk' & Hj & ->) Hne]. exists k', j. rewrite E5, E6, decide_False; [done|]. intros ->. rewrite Hi in Hj. by simplify_eq.
      * intros (k' & j & Hk' & Hj & ->). rewrite E5 in Hk'. rewrite E6 in Hj. case_decide as Hd; [done|]. split; [eauto 10|].
        intros Ej. assert (j = i) as -> by lia. by apply Hd, (C2 k' k i).
    + intros k1 k2 j. rewrite !E5, !E6. repeat case_decide; try done. apply C2.
  - done.
  - intros i' k'. rewrite E5, E6. split.
    + intros Hin. rewrite decide_False; [apply Hl; by right|]. intros ->. apply Hni. apply list_elem_of_fmap. by exists (i', k).
    + case_decide; [by intros [? ?]|]. intros Hk'. apply Hl in Hk'. apply elem_of_cons in Hk' as [[= -> ->]|?]; done.
  - split.
    + eapply steps_trans; [|exact Hs]. eapply steps_one; [done|apply read_stop|]. cbn. rewrite bool_decide_eq_true_2; [done|].
      apply C1. eauto 10.
    + intros key Hp. rewrite Hkeep by done. subst m1. rewrite lookup_insert_ne; [done|]. intros <-.
      unfold tool_block_open_key in Hp. by rewrite prefix_app in Hp.
Qed.

(** Counts the metadata can hold. *)
Definition up_fits (u : Upstream) : Prop :=
  default 0 (up_output u) <= u64_max /\ default 0 (up_input u) <= u64_max /\ default 0 (up_cached u) <= u64_max.

Lemma parse_count (o : option N) : default 0 o <= u64_max -> (usize_to_string <$> o) ≫= parse_usize = o.
Proof. destruct o as [n|]; cbn; [|done]. apply parse_usize_to_string. Qed.

(** The blocks of a message carry what the upstream sent. *)
Definition assembled (bs : list CBlock) (u : Upstream) : Prop :=
  texts bs = up_text u /\
  exists place : string -> nat,
    (forall k id n a, up_tools u !! k = Some (id, n, a) -> bs !! place k = Some (CTool id n a)) /\
    (forall k k', is_Some (up_tools u !! k) -> is_Some (up_tools u !! k') -> place k = place k' -> k = k') /\
    (forall i id n a, bs !! i = Some (CTool id n a) -> exists k, is_Some (up_tools u !! k) /\ place k = i).

Lemma reads_assembled m bs op u : reads m bs op u -> assembled bs u.
Proof.
  intros [R1 R2 R3 R4 R5 RO R6 R7 _ _ _ _ _ _ _]. split; [done|]. exists (fun k => N.to_nat (default 0 (get_tool_block_index m k))).
  assert (forall k, is_tool_block_open m k = true <-> is_Some (up_tools u !! k)) as Ho.
  { intros k. specialize (R5 k). destruct (up_tools u !! k) as [[[? ?] ?]|]; [naive_solver|]. rewrite R5. split; [done|by intros []]. }
  assert (forall k, is_Some (up_tools u !! k) -> exists j, get_tool_block_index m k = Some j) as Hj.
  { intros k [[[id n] a] Hk]. specialize (R5 k). rewrite Hk in R5. destruct R5 as (_ & j & Hj & _). eauto. }
  split_and!.
  - intros k id n a Hk. specialize (R5 k). rewrite Hk in R5. destruct R5 as (_ & j & -> & Hb). done.
  - intros k k' Hk Hk'. destruct (Hj k Hk) as [j Ej], (Hj k' Hk') as [j' Ej']. rewrite Ej, Ej'. cbn. intros E.
    apply (R6 k k' j); [by apply Ho|by apply Ho|done|]. rewrite Ej'. f_equal. lia.
  - intros i id n a Hb. destruct (RO _ _ _ _ Hb) as (k & Hk & Hi). exists k. split; [by apply Ho|]. rewrite Hi. cbn. lia.
Qed.

Lemma done_completes nanos m out c u :
  inv m c u -> listening c -> let r := emit_done nanos (m, out) in
  exists c', steps (m, out) r.1 c c' /\
  match r.2 with
  | Ok _ => exists bs d, c' = Complete bs d /\ assembled bs u /\ (up_fits u -> d = final_delta u)
  | Err _ => u32_max < count c
  end.
Proof.
  intros Hi Hc r. subst r. unfold emit_done. cbn [fst snd].
  assert (is_stream_failed m = false) as ->.
  { destruct c; try done; cbn in Hi; [|by apply started_not_failed, Hi]. destruct Hi as [[Hf _] _]. accessors. by rewrite Hf. }
  destruct (started_reads nanos JNull m out c u Hi Hc) as (m1 & out1 & bs & op & -> & Hs & R & Hn).
  unfold emit_final_block_stop. destruct (close_text_reads m1 out1 bs op u R) as (op' & Hs1 & Hr).
  destruct (close_text_block_if_open (m1, out1)) as [[m2 out2] [[]|e]]; cbn [fst snd] in *.
  2:{ eexists. split; [by eapply steps_trans|]. cbn in Hn. lia. }
  destruct Hr as [R2 Et2].
  assert (closing m2 op') as Hcl.
  { destruct R2 as [_ _ _ R4 _ _ R6 _ _ _ _ _ _ _ _]. rewrite Et2 in R4. split; [|exact R6].
    intros i. rewrite R4. split; [intros [[[=] _]|Hk]; done|auto]. }
  destruct (close_tool_blocks (open_tool_blocks m2) m2 out2 bs op' Hcl (open_tool_blocks_NoDup m2) (elem_of_open_tool_blocks m2)) as [Hs2 Hkeep].
  destruct (foldl _ (m2, out2) (open_tool_blocks m2)) as [m3 out3]. unfold emit_message_delta. cbn [fst snd] in *.
  set (d := message_delta_json _ _ _). exists (Complete bs d). split.
  - eapply steps_trans; [exact Hs|]. eapply steps_trans; [exact Hs1|]. eapply steps_trans; [exact Hs2|].
    eapply (steps_trans _ (m3, emit_event out3 "message_delta" d) _ _ (Delivered bs d)).
    + eapply steps_one; [done|done|]. cbn. by rewrite bool_decide_eq_true_2.
    + by eapply steps_one.
  - exists bs, d. split; [done|]. split; [by eapply reads_assembled|]. intros (F1 & F2 & F3). subst d. unfold final_delta, collect_delta_usage.
    rewrite !Hkeep by done. destruct R2 as [_ _ _ _ _ _ _ _ _ -> -> -> -> -> _]. rewrite !parse_count by done. done.
Qed.

(** ** One upstream event *)

Definition note_data (data : string) (u : Upstream) : Outcome :=
  match from_str data with
  | Some v => if is_object v then note_chunk (max_tool_blocks cfg) stops v u else Refused
  | None => Refused
  end.
Definition data_cost (data : string) : N := match from_str data with Some v => chunk_cost v | None => 1 end.

Lemma data_follows nanos data m out c u :
  inv m c u -> listening c -> data <> OPENAI_DONE_SENTINEL ->
  follows (data_cost data) c (m, out) (process_data from_str cfg nanos data (m, out)) (note_data data u).
Proof.
  intros Hi Hc Hd. unfold process_data, transform_data_event, note_data, data_cost. rewrite bool_decide_eq_false_2 by done.
  destruct (from_str data) as [v|]; [|exists c; split; [by apply steps_refl|by left]].
  destruct (is_object v) eqn:Ev; cbn [negb]; [|exists c; split; [by apply steps_refl|by left]]. by apply chunk_follows.
Qed.

(** ** The output only grows *)

Definition grows (s s' : St) : Prop := exists es, s'.2 = s.2 ++ es.

Lemma grows_refl s m : grows s (m, s.2).
Proof. exists []. by rewrite app_nil_r. Qed.
Lemma grows_emit s m t d : grows s (m, emit_event s.2 t d).
Proof. by eexists. Qed.
Lemma grows_trans s1 s2 s3 : grows s1 s2 -> grows s2 s3 -> grows s1 s3.
Proof. intros [es E] [es' E']. exists (es ++ es'). by rewrite E', E, app_assoc. Qed.
Lemma grows_same s : grows s s.
Proof. exists []. by rewrite app_nil_r. Qed.

Lemma close_text_grows s : grows s (close_text_block_if_open s).1.
Proof. unfold close_text_block_if_open. destruct (is_text_block_open s.1); [|apply grows_same]. destruct (increment_block_index s.1); by eexists. Qed.

Lemma tool_start_grows k tc n s : grows s (emit_tool_block_start k tc n s).1.
Proof.
  unfold emit_tool_block_start, extract_or_fail_tool_call. repeat case_match; simplify_eq; cbn; try apply grows_same; by eexists.
Qed.

Lemma tool_args_grows k tc s : grows s (emit_tool_arguments_delta k tc s).
Proof. unfold emit_tool_arguments_delta. repeat case_match; try apply grows_same; by eexists. Qed.

Lemma tool_delta_grows tc n s : grows s (transform_tool_delta tc n s).1.
Proof.
  unfold transform_tool_delta. destruct (is_tool_block_open s.1 _); [apply tool_args_grows|].
  pose proof (tool_start_grows (tool_call_key tc) tc n s) as Hg.
  destruct (emit_tool_block_start _ tc n s) as [s1 [[]|e]]; cbn in *; [eapply grows_trans; [exact Hg|apply tool_args_grows]|done..].
Qed.

Lemma tool_deltas_grows tcs n s : grows s (transform_tool_deltas tcs n s).1.
Proof.
  revert s. induction tcs as [|tc tcs IH]; intros s; cbn; [apply grows_same|].
  pose proof (tool_delta_grows tc n s) as Hg. destruct (transform_tool_delta tc n s) as [s1 [[]|e]]; cbn in *; [|done].
  destruct (is_stream_failed s1.1); [done|]. by eapply grows_trans.
Qed.

Lemma text_delta_grows t s : grows s (emit_text_delta t s).
Proof. unfold emit_text_delta. destruct (is_text_block_open s.1); cbn; eexists; [done|]. unfold emit_event. by rewrite <- app_assoc. Qed.

Lemma delta_grows d n s : grows s (transform_delta d n s).1.
Proof.
  unfold transform_delta. set (s1 := match get d "content" ≫= as_str with Some _ => _ | None => _ end).
  assert (grows s s1) as H1 by (subst s1; destruct (get d "content" ≫= as_str); [apply text_delta_grows|apply grows_same]).
  destruct (get d "tool_calls" ≫= as_array) as [tcs|]; [|done]. eapply grows_trans; [exact H1|].
  pose proof (close_text_grows s1) as Hg. destruct (close_text_block_if_open s1) as [s2 [[]|e]]; cbn in *; [|done].
  eapply grows_trans; [exact Hg|apply tool_deltas_grows].
Qed.

Lemma chunk_grows nanos v s : grows s (transform_chunk from_str cfg nanos v s).1.
Proof.
  unfold transform_chunk. set (s1 := if is_stream_started s.1 then s else _).
  assert (grows s s1) as H1 by (subst s1; destruct (is_stream_started s.1); [apply grows_same|apply grows_emit]).
  destruct (extract_first_choice v) as [choice|]; [|done]. destruct (get choice "delta") as [d|]; [|done].
  pose proof (delta_grows d (max_tool_blocks cfg) s1) as Hg. destruct (transform_delta d _ s1) as [s2 [[]|e]]; cbn in *; by eapply grows_trans.
Qed.

Lemma close_blocks_grows (l : list (N * string)) s : grows s (foldl (fun s b => close_tool_block b.2 s) s l).
Proof.
  revert s. induction l as [|b l IH]; intros s; cbn; [apply grows_same|]. eapply grows_trans; [|apply IH].
  unfold close_tool_block. repeat case_match; try apply grows_same. by eexists.
Qed.

Lemma done_grows nanos s : grows s (emit_done nanos s).1.
Proof.
  unfold emit_done, emit_final_block_stop. destruct (is_stream_failed s.1); [apply grows_same|]. set (s1 := if is_stream_started s.1 then s else _).
  assert (grows s s1) as H1 by (subst s1; destruct (is_stream_started s.1); [apply grows_same|apply grows_emit]).
  pose proof (close_text_grows s1) as Hg. destruct (close_text_block_if_open s1) as [s2 [[]|e]]; cbn [fst snd] in *; [|by eapply grows_trans].
  eapply grows_trans; [exact H1|]. eapply grows_trans; [exact Hg|]. eapply grows_trans; [apply close_blocks_grows|].
  unfold emit_message_delta. eexists. cbn. unfold emit_event. by rewrite <- app_assoc.
Qed.

Lemma data_grows nanos data s : grows s (process_data from_str cfg nanos data s).1.
Proof.
  unfold process_data, transform_data_event. case_bool_decide; [apply done_grows|]. destruct (from_str data) as [v|]; [|apply grows_same].
  destruct (is_object v); [apply chunk_grows|apply grows_same].
Qed.

(** The events written between two states are those the client is in step with. *)
Definition advances (s s' : St) (c c' : Client) : Prop := exists es, s'.2 = s.2 ++ es /\ tracks c es c'.

Lemma steps_advances s s' c c' : steps s s' c c' -> advances s s' c c'.
Proof. intros (es & E & Hr). exists es. split; [done|]. by apply tracks_run. Qed.

Lemma advances_trans s1 s2 s3 c1 c2 c3 : advances s1 s2 c1 c2 -> advances s2 s3 c2 c3 -> advances s1 s3 c1 c3.
Proof.
  intros (es & E & Hr) (es' & E' & Hr'). exists (es ++ es'). rewrite E', E, app_assoc. split; [done|]. by eapply tracks_trans.
Qed.

(** Whatever the upstream sends, the client is in step. *)
Lemma data_in_step nanos data m out c u :
  inv m c u -> c <> Broken -> let r := process_data from_str cfg nanos data (m, out) in
  exists c' u', advances (m, out) r.1 c c' /\ (r.2 = Ok tt -> inv r.1.1 c' u').
Proof.
  intros Hi Hb r. subst r. destruct c as [| |bs d|bs d|]; [| |done| |done].
  1,2: destruct (decide (data = OPENAI_DONE_SENTINEL)) as [->|Hd];
    [unfold process_data; rewrite bool_decide_eq_true_2 by done; destruct (done_completes nanos m out _ u Hi I) as (c' & Hs & Hr);
     apply steps_advances in Hs; destruct (emit_done nanos (m, out)) as [s1 [[]|e]]; exists c', u; (split; [done|]); intros [=];
     destruct Hr as (bs' & d & -> & _); done
    |destruct (data_follows nanos data m out _ u Hi I Hd) as (c' & Hs & Hr);
     apply steps_advances in Hs; destruct (process_data from_str cfg nanos data (m, out)) as [s1 [[]|e]]; cbn [fst snd] in *; [|by exists c', u];
     destruct (note_data data u) as [u'| |]; [destruct Hr as [(bs' & op' & -> & R') _]; by eexists _, u'|destruct Hr as [-> Hf]; by exists Broken, u|done]].
  destruct (data_grows nanos data (m, out)) as [es E]. exists (Complete bs d), u. split; [|done].
  exists es. split; [done|]. exists [], es. split_and!; eauto.
Qed.

(** The buffers do not matter. *)
Lemma inv_ext m m' c u : (forall k, k <> LINE_BUFFER_KEY -> k <> UTF8_BUFFER_KEY -> m' !! k = m !! k) -> inv m c u -> inv m' c u.
Proof.
  intros E. assert (forall k, buffer_key k = false -> m' !! k = m !! k) as Eb.
  { intros k Hk. apply bool_decide_eq_false in Hk. apply E; intros ->; apply Hk; unfold ARMED_KEY; repeat constructor. }
  assert (client_stop_sequences from_str m' = client_stop_sequences from_str m) as Es by (unfold client_stop_sequences; by rewrite E).
  destruct c; cbn; try done.
  - intros [[Hf Hs] Hu]. split; [|done]. split; [|congruence]. intros k Hp Hk. rewrite Eb by done. auto.
  - intros R. pose proof R as [_ _ _ _ _ _ _ _ _ F1 F2 F3 F4 F5 F6].
    eapply reads_same; [|reflexivity|reflexivity|..|exact R]; try (rewrite Eb by reflexivity; done); [|congruence].
    split_and!.
    + intros k Hk. set_unfold in Hk. destruct Hk as [->|[->|[->|[->|[]]]]]; by apply Eb.
    + intros k. apply E; key_ne.
    + intros k. apply E; key_ne.
  - unfold is_stream_failed. by rewrite Eb.
Qed.
End Stream.
