(* ===== verification/AnthropicStreamRun.v ===== *)
(** Whole responses through the streaming translation ([AnthropicStream]): the
    reference reading of the upstream text, independence from the way it was cut
    into chunks, and the theorems on what the client reads. *)

From S2P Require Import Prelude Utf8 Sorting MetaCodec RustStr IpText Json AnthropicStream AnthropicStreamProps.
From Stdlib Require Import Strings.Byte Strings.Ascii.

Local Open Scope N_scope.

(** * UTF-8 across chunks *)



(** * Line endings *)











(** * The reference reading *)



(** ** Scanning *)






(** ** Blocks *)














(** ** All the blocks of a text *)

Fixpoint blocks (fuel : nat) (t : string) : list string * string :=
  match fuel with
  | O => ([], t)
  | S fuel => match split_once_blank t with None => ([], t) | Some (b, r) => let '(bl, rest) := blocks fuel r in (b :: bl, rest) end
  end.



(** * One chunk of text *)

Abbreviation cr := (String CR "").
Abbreviation lf := (String LF "").



(** The events completed by a chunk, and what is kept for the next one. *)
Definition cut (buffered chunk : string) (eos : bool) : list string * string :=
  let '(w, pending) := split_deferred_trailing_cr (buffered +:+ chunk) eos in
  let n := normalize_line_endings w in
  let '(bl, rest) := blocks (String.length n) n in
  (omap block_data bl, if pending then rest +:+ cr else rest).




(** ** The size of what is kept *)













(** * Feeding events *)

Section Run.
Context `{MetadataApi} `{!HashOrder string} (from_str : string -> option Json) (cfg : StreamConfig) (stops : list string) (nanos : N).
Hypothesis room : forall m k v, String.prefix "anthropic_stream." k = true -> set_metadata m k v = <[k := v]> m.
Hypothesis cfg_usize : max_tool_blocks cfg <= u64_max.

Local Open Scope rust_scope.

(** The events of a text, one by one, until one fails the stream. *)
Fixpoint feed (ds : list string) (s : St) : Step unit :=
  match ds with
  | [] => (s, Ok tt)
  | d :: ds => let! (_, s) := process_data from_str cfg nanos d s in if is_stream_failed s.1 then (s, Ok tt) else feed ds s
  end.

Lemma process_blocks_feed fuel t s : is_stream_failed s.1 = false ->
  process_blocks from_str cfg nanos fuel t s =
    match feed (omap block_data (blocks fuel t).1) s with
    | (s', Err e) => (s', Err e)
    | (s', Ok _) => (s', Ok (if is_stream_failed s'.1 then ""%string else (blocks fuel t).2))
    end.
Proof.
  revert t s. induction fuel as [|fuel IH]; intros t s Hf; cbn [process_blocks blocks]; [cbn; by rewrite Hf|].
  destruct (split_once_blank t) as [[b r]|]; [|cbn; by rewrite Hf]. destruct (blocks fuel r) as [bl rest] eqn:Eb. cbn [fst snd].
  change (omap block_data (b :: bl)) with (match block_data b with Some d => d :: omap block_data bl | None => omap block_data bl end).
  unfold process_event_block. destruct (block_data b) as [d|]; cbn [feed].
  - destruct (process_data from_str cfg nanos d s) as [s1 [[]|e]]; [|done]. destruct (is_stream_failed s1.1) eqn:E1; [by rewrite E1|].
    rewrite IH by done. by rewrite Eb.
  - rewrite Hf, IH by done. by rewrite Eb.
Qed.

Lemma combine_leftover (m : Metadata) chunk : combine_chunk_with_leftover (m !! LINE_BUFFER_KEY) chunk = default ""%string (m !! LINE_BUFFER_KEY) +:+ chunk.
Proof. destruct (m !! LINE_BUFFER_KEY) as [b|]; [|done]. cbn. by case_bool_decide; subst. Qed.

Lemma sse_chunk_feed m chunk eos : is_stream_failed m = false ->
  exists b, let c := cut (default ""%string (m !! LINE_BUFFER_KEY)) chunk eos in
  process_sse_chunk from_str cfg nanos m chunk eos =
    match feed c.1 (m, []) with
    | (s, Err e) => (s.1, Err e)
    | (s, Ok _) => match store_line_buffer cfg (if is_stream_failed s.1 then b else c.2) s with
                   | (s, Err e) => (s.1, Err e)
                   | (s, Ok _) => (s.1, Ok s.2)
                   end
    end.
Proof.
  intros Hf. unfold process_sse_chunk, cut, process_complete_event_blocks. rewrite combine_leftover.
  destruct (split_deferred_trailing_cr _ eos) as [w pending]. exists (if pending then cr else ""%string).
  rewrite process_blocks_feed by done. destruct (blocks _ (normalize_line_endings w)) as [bl rest]. cbn [fst snd].
  destruct (feed (omap block_data bl) (m, [])) as [s [[]|e]]; [|done]. destruct (is_stream_failed s.1); by destruct pending.
Qed.

(** ** What an event leaves alone *)

Definition same (m m' : Metadata) : Prop := m' !! ARMED_KEY = m !! ARMED_KEY /\ m' !! UTF8_BUFFER_KEY = m !! UTF8_BUFFER_KEY.
Definition kept (m m' : Metadata) : Prop :=
  m' !! ARMED_KEY = m !! ARMED_KEY /\ (m' !! UTF8_BUFFER_KEY = m !! UTF8_BUFFER_KEY \/ is_stream_failed m' = true).

Lemma same_refl m : same m m.
Proof. done. Qed.
Lemma same_trans m1 m2 m3 : same m1 m2 -> same m2 m3 -> same m1 m3.
Proof. unfold same. intros [? ?] [? ?]. split; congruence. Qed.
Lemma same_kept m m' : same m m' -> kept m m'.
Proof. intros [? ?]. split; auto. Qed.
Lemma same_kept_trans m1 m2 m3 : same m1 m2 -> kept m2 m3 -> kept m1 m3.
Proof. intros [E1 E2] [E3 [E4|Hf]]; (split; [congruence|]); [left; congruence|by right]. Qed.
Lemma kept_same m m' : kept m m' -> is_stream_failed m' = false -> same m m'.
Proof. intros [E [E'|Hf]] Hn; [done|congruence]. Qed.
Lemma same_set m k v : k <> ARMED_KEY -> k <> UTF8_BUFFER_KEY -> same m (set_metadata m k v).
Proof. intros H1 H2. destruct (set_metadata_spec m k v) as [->| ->]; [|done]. split; by rewrite lookup_insert_ne. Qed.
Ltac same_keys := repeat first [apply same_refl | (eapply same_trans; [|apply same_set; key_ne])].

Lemma message_start_same chunk s : same s.1 (emit_message_start nanos chunk s).1.
Proof. cbn. same_keys. Qed.
Lemma started_same chunk s : same s.1 (if is_stream_started s.1 then s else emit_message_start nanos chunk s).1.
Proof. destruct (is_stream_started s.1); [done|apply message_start_same]. Qed.
Lemma text_delta_same t s : same s.1 (emit_text_delta t s).1.
Proof. unfold emit_text_delta. destruct (is_text_block_open s.1); cbn; same_keys. Qed.
Lemma close_text_same s : same s.1 (close_text_block_if_open s).1.1.
Proof. unfold close_text_block_if_open, increment_block_index. repeat case_match; simplify_eq; cbn; same_keys. Qed.
Lemma tool_args_same k tc s : (emit_tool_arguments_delta k tc s).1 = s.1.
Proof. unfold emit_tool_arguments_delta. by repeat case_match. Qed.

Lemma tool_start_kept k tc n s : kept s.1 (emit_tool_block_start k tc n s).1.1.
Proof.
  unfold emit_tool_block_start, extract_or_fail_tool_call, set_tool_block_open, set_tool_block_index, increment_block_index.
  repeat case_match; simplify_eq; cbn; try (apply same_kept; by same_keys). split.
  - rewrite room by done. by rewrite lookup_insert_ne, !lookup_delete_ne.
  - right. unfold is_stream_failed. rewrite room by done. by rewrite lookup_insert_eq.
Qed.

Lemma tool_delta_kept tc n s : kept s.1 (transform_tool_delta tc n s).1.1.
Proof.
  unfold transform_tool_delta. destruct (is_tool_block_open s.1 _); [cbn; rewrite tool_args_same; by apply same_kept|].
  pose proof (tool_start_kept (tool_call_key tc) tc n s) as Hk.
  destruct (emit_tool_block_start _ tc n s) as [s1 [[]|e]]; cbn in *; by rewrite ?tool_args_same.
Qed.

Lemma tool_deltas_kept tcs n s : kept s.1 (transform_tool_deltas tcs n s).1.1.
Proof.
  revert s. induction tcs as [|tc tcs IH]; intros s; cbn [transform_tool_deltas]; [by apply same_kept|].
  pose proof (tool_delta_kept tc n s) as Hk. destruct (transform_tool_delta tc n s) as [s1 [[]|e]]; [|done].
  destruct (is_stream_failed s1.1) eqn:E; [done|]. eapply same_kept_trans; [by apply kept_same|apply IH].
Qed.

Lemma delta_kept d n s : kept s.1 (transform_delta d n s).1.1.
Proof.
  unfold transform_delta. set (s1 := match get d "content" ≫= as_str with Some _ => _ | None => _ end).
  assert (same s.1 s1.1) as H1 by (subst s1; destruct (get d "content" ≫= as_str); [apply text_delta_same|apply same_refl]).
  destruct (get d "tool_calls" ≫= as_array) as [tcs|]; [|by apply same_kept]. eapply same_kept_trans; [exact H1|].
  pose proof (close_text_same s1) as Hs. destruct (close_text_block_if_open s1) as [s2 [[]|e]]; [|by apply same_kept].
  eapply same_kept_trans; [exact Hs|apply tool_deltas_kept].
Qed.

Lemma record_kept choice chunk m m' : kept m m' -> kept m (extract_usage_tokens chunk (record_finish from_str choice m')).
Proof.
  intros [E [E'|Hf]]; [apply same_kept; eapply same_trans; [by split|]|split].
  - unfold extract_usage_tokens, set_count, record_finish. repeat case_match; same_keys.
  - rewrite <- E. unfold extract_usage_tokens, set_count, record_finish. repeat case_match; rewrite ?room by done; lookups; done.
  - right. by apply usage_failed, record_finish_failed.
Qed.

Lemma chunk_kept v s : kept s.1 (transform_chunk from_str cfg nanos v s).1.1.
Proof.
  unfold transform_chunk. pose proof (started_same v s) as H1. set (s1 := if is_stream_started s.1 then s else _) in *.
  destruct (extract_first_choice v) as [choice|].
  - assert (kept s1.1 (match get choice "delta" with Some delta => transform_delta delta (max_tool_blocks cfg) s1 | None => (s1, Ok tt) end).1.1) as H2.
    { destruct (get choice "delta"); [apply delta_kept|by apply same_kept]. }
    destruct (match get choice "delta" with Some _ => _ | None => _ end) as [s2 [[]|e]]; (eapply same_kept_trans; [exact H1|]); [|done].
    by apply record_kept.
  - apply same_kept. eapply same_trans; [exact H1|]. cbn. unfold extract_usage_tokens, set_count. repeat case_match; same_keys.
Qed.

Lemma close_blocks_same (l : list (N * string)) s : same s.1 (foldl (fun s b => close_tool_block b.2 s) s l).1.
Proof.
  revert s. induction l as [|b l IH]; intros s; cbn; [apply same_refl|]. eapply same_trans; [|apply IH].
  unfold close_tool_block, set_tool_block_open. repeat case_match; cbn; same_keys.
Qed.

Lemma done_same s : same s.1 (emit_done nanos s).1.1.
Proof.
  unfold emit_done, emit_final_block_stop. destruct (is_stream_failed s.1); [done|]. pose proof (started_same JNull s) as H1.
  set (s1 := if is_stream_started s.1 then s else _) in *. pose proof (close_text_same s1) as H2.
  destruct (close_text_block_if_open s1) as [s2 [[]|e]]; cbn [fst snd] in *; [|by eapply same_trans].
  eapply same_trans; [exact H1|]. eapply same_trans; [exact H2|apply close_blocks_same].
Qed.

Lemma data_kept data s : kept s.1 (process_data from_str cfg nanos data s).1.1.
Proof.
  unfold process_data, transform_data_event. case_bool_decide; [apply same_kept, done_same|].
  destruct (from_str data) as [v|]; [|by apply same_kept]. destruct (is_object v); [apply chunk_kept|by apply same_kept].
Qed.

Lemma feed_kept ds s : kept s.1 (feed ds s).1.1.
Proof.
  revert s. induction ds as [|d ds IH]; intros s; cbn [feed]; [by apply same_kept|]. pose proof (data_kept d s) as Hk.
  destruct (process_data from_str cfg nanos d s) as [s1 [[]|e]]; [|done]. destruct (is_stream_failed s1.1) eqn:E; [done|].
  eapply same_kept_trans; [by apply kept_same|apply IH].
Qed.

(** ** Any upstream *)

Lemma feed_in_step ds m out c u : inv from_str stops m c u -> c <> Broken ->
  exists c' u', advances (m, out) (feed ds (m, out)).1 c c' /\ ((feed ds (m, out)).2 = Ok tt -> inv from_str stops (feed ds (m, out)).1.1 c' u').
Proof.
  revert m out c u. induction ds as [|d ds IH]; intros m out c u Hi Hc; cbn [feed]; [exists c, u; split; [by apply steps_advances, steps_refl|done]|].
  destruct (data_in_step from_str cfg stops room cfg_usize nanos d m out c u Hi Hc) as (c1 & u1 & Hs & Hr).
  destruct (process_data from_str cfg nanos d (m, out)) as [[m1 out1] [[]|e]]; cbn [fst snd] in *; [|by exists c1, u1].
  specialize (Hr eq_refl). destruct (is_stream_failed m1) eqn:Ef; [by exists c1, u1|].
  assert (c1 <> Broken) as Hb by (intros ->; cbn in Hr; congruence).
  destruct (IH m1 out1 c1 u1 Hr Hb) as (c2 & u2 & Hs2 & Hr2). exists c2, u2. split; [by eapply advances_trans|done].
Qed.

Definition off_buffers (m m' : Metadata) : Prop := forall k, k <> LINE_BUFFER_KEY -> k <> UTF8_BUFFER_KEY -> m' !! k = m !! k.

Lemma off_buffers_armed m m' : off_buffers m m' -> is_armed m' = is_armed m.
Proof. intros E. unfold is_armed. by rewrite E. Qed.
Lemma off_buffers_failed m m' : off_buffers m m' -> is_stream_failed m' = is_stream_failed m.
Proof. intros E. unfold is_stream_failed. by rewrite E. Qed.

Lemma combine_off_buffers m b : off_buffers m (combine_pending_utf8 m b).1.
Proof. intros k _ Hk. unfold combine_pending_utf8. destruct (m !! UTF8_BUFFER_KEY); [|done]. by apply lookup_delete_ne. Qed.
Lemma prefix_off_buffers m b eos : off_buffers m (valid_utf8_prefix_len m b eos).1.
Proof. intros k _ Hk. unfold valid_utf8_prefix_len. repeat case_match; try done. by apply lookup_insert_ne. Qed.
Lemma store_off_buffers b s : off_buffers s.1 (store_line_buffer cfg b s).1.1 /\ (store_line_buffer cfg b s).1.2 = s.2.
Proof.
  unfold store_line_buffer. repeat case_match; (split; [|done]); intros k Hk _; cbn; first [by apply lookup_delete_ne|by apply lookup_insert_ne].
Qed.

(** The events of one callback. *)
Definition frames (o : BodyOut) : Output := match o with Unchanged => [] | Replaced out => out end.

Lemma sse_chunk_in_step m c u chunk eos m' out :
  inv from_str stops m c u -> is_stream_failed m = false -> process_sse_chunk from_str cfg nanos m chunk eos = (m', Ok out) ->
  exists c' u', tracks c out c' /\ inv from_str stops m' c' u' /\ is_armed m' = is_armed m.
Proof.
  intros Hi Hf. destruct (sse_chunk_feed m chunk eos Hf) as [b ->]. set (ds := (cut _ _ _).1).
  assert (c <> Broken) as Hb by (intros ->; cbn in Hi; congruence).
  destruct (feed_in_step ds m [] c u Hi Hb) as (c' & u' & (es & Hes & Hrun) & Hr). pose proof (feed_kept ds (m, [])) as [Ha _].
  destruct (feed ds (m, [])) as [s1 [[]|e]]; [|done]. cbn [fst snd] in *. specialize (Hr eq_refl).
  set (buf := if is_stream_failed s1.1 then b else _). destruct (store_off_buffers buf s1) as [Ho Eo].
  destruct (store_line_buffer cfg buf s1) as [s2 [[]|e]]; [|done]. cbn [fst snd] in *. intros [= <- <-]. exists c', u'.
  rewrite Eo, Hes. split; [done|]. split; [by eapply inv_ext|]. rewrite (off_buffers_armed _ _ Ho). unfold is_armed. by rewrite Ha.
Qed.

Lemma decode_in_step m c u b eos m' o :
  inv from_str stops m c u -> is_stream_failed m = false -> decode_and_process_chunk from_str cfg nanos m b eos = (m', Ok o) ->
  exists c' u', tracks c (default [] o) c' /\ inv from_str stops m' c' u' /\ is_armed m' = is_armed m.
Proof.
  intros Hi Hf. unfold decode_and_process_chunk. pose proof (combine_off_buffers m b) as H1. destruct (combine_pending_utf8 m b) as [m1 t].
  pose proof (prefix_off_buffers m1 t eos) as H2. destruct (valid_utf8_prefix_len m1 t eos) as [m2 [n|]]; [|done]. cbn [fst] in *.
  assert (off_buffers m m2) as H3 by (intros k Hk Hk'; by rewrite H2, H1).
  assert (inv from_str stops m2 c u) as Hi2 by (by eapply inv_ext).
  destruct (from_utf8 (take n t)) as [chunk|]; [destruct (bool_decide (chunk = []) && negb eos)|].
  1,3: intros [= <- <-]; exists c, u; split_and!; try done; [by apply tracks_run|by apply off_buffers_armed].
  destruct (process_sse_chunk from_str cfg nanos m2 (bytes_string chunk) eos) as [m3 [out|e]] eqn:E; [|done]. intros [= <- <-].
  apply (sse_chunk_in_step m2 c u) in E as (c' & u' & Hr & Hi' & Ha); [|done|by rewrite (off_buffers_failed m)].
  exists c', u'. split_and!; try done. by rewrite Ha, (off_buffers_armed m).
Qed.

Lemma body_in_step m c u body eos m' o :
  inv from_str stops m c u -> is_armed m = true -> on_response_body from_str cfg nanos m body eos = (m', Ok o) ->
  (o = Unchanged -> body = None) /\
  exists c' u', tracks c (frames o) c' /\ inv from_str stops m' c' u' /\ is_armed m' = true.
Proof.
  intros Hi Ha. unfold on_response_body. rewrite Ha. cbn [negb]. destruct (is_stream_failed m) eqn:Hf.
  { intros [= <- <-]. destruct body; (split; [done|]); exists c, u; split_and!; try done; by apply tracks_run. }
  destruct body as [b|]; [|destruct eos].
  - destruct (decode_and_process_chunk from_str cfg nanos m b eos) as [m1 [o1|e]] eqn:E; [|done].
    apply (decode_in_step m c u) in E as (c' & u' & Hr & Hi' & Ha'); [|done..]. rewrite Ha in Ha'.
    destruct o1; intros [= <- <-]; (split; [done|]); by exists c', u'.
  - destruct (decode_and_process_chunk from_str cfg nanos m [] true) as [m1 [o1|e]] eqn:E; [|done].
    apply (decode_in_step m c u) in E as (c' & u' & Hr & Hi' & Ha'); [|done..]. rewrite Ha in Ha'.
    intros [= <- <-]. split; [done|]. exists c', u'. by destruct (default [] o1).
  - intros [= <- <-]. split; [done|]. exists c, u. split_and!; try done. by apply tracks_run.
Qed.

Lemma response_in_step calls m c u m' outs r :
  inv from_str stops m c u -> is_armed m = true -> response_body from_str cfg nanos m calls = (m', outs, r) ->
  (forall i, outs !! i = Some Unchanged -> exists eos, calls !! i = Some (None, eos)) /\
  exists c' u', tracks c (concat (frames <$> outs)) c' /\ (r = Ok tt -> inv from_str stops m' c' u') /\
    (forall bs d, c' <> Delivered bs d).
Proof.
  revert m c u m' outs r. induction calls as [|[body eos] calls IH]; intros m c u m' outs r Hi Ha; cbn [response_body].
  { intros [= <- <- <-]. split; [done|]. exists c, u. split_and!; try done; [by apply tracks_run|by intros bs d ->]. }
  destruct (on_response_body from_str cfg nanos m body eos) as [m1 [o|e]] eqn:E.
  2:{ intros [= <- <- <-]. split; [done|]. exists c, u. split_and!; try done; [by apply tracks_run|by intros bs d ->]. }
  destruct (body_in_step m c u body eos m1 o Hi Ha E) as (Hb & c1 & u1 & Hr & Hi1 & Ha1).
  destruct (response_body from_str cfg nanos m1 calls) as [[m2 os] r2] eqn:E2. intros [= <- <- <-].
  destruct (IH m1 c1 u1 m2 os r2 Hi1 Ha1 E2) as (Hu & c2 & u2 & Hr2 & Hi2 & Hd). split.
  - intros [|i]; cbn; [|apply Hu]. intros [= ->]. exists eos. by rewrite Hb.
  - exists c2, u2. split_and!; try done. cbn [fmap list_fmap concat]. by eapply tracks_trans.
Qed.

(** ** An upstream that sends a message *)







(** *** Chunks of bytes *)

Definition pending (m : Metadata) : bytes := match m !! UTF8_BUFFER_KEY with Some hex => decode_hex_bytes hex | None => [] end.
Definition buffered (m : Metadata) : string := default ""%string (m !! LINE_BUFFER_KEY).












(** ** Whole responses *)

(** Nothing of this filter is in the context yet. *)
Definition untouched (m : Metadata) : Prop := forall k, String.prefix "anthropic_stream." k = true -> m !! k = None.

Lemma arming m r : should_arm m r = true -> (on_response m r).1 = <[ARMED_KEY := "true"%string]> m.
Proof. intros Hs. unfold on_response. rewrite Hs. cbn. by apply room. Qed.

Lemma armed_start m : untouched m -> stops = client_stop_sequences from_str m ->
  let m' := <[ARMED_KEY := "true"%string]> m in
  inv from_str stops m' Before up_empty /\ is_armed m' = true /\ is_stream_failed m' = false /\ pending m' = [] /\ buffered m' = ""%string.
Proof.
  intros Hu Es m'. assert (forall k, String.prefix "anthropic_stream." k = true -> k <> ARMED_KEY -> m' !! k = None) as Hk.
  { intros k Hp Hne. subst m'. rewrite lookup_insert_ne by congruence. auto. }
  unfold is_armed, is_stream_failed, pending, buffered. rewrite (Hk STREAM_STATE_KEY), (Hk UTF8_BUFFER_KEY), (Hk LINE_BUFFER_KEY) by done.
  split_and!; try done; [|subst m'; by rewrite lookup_insert_eq].
  - split; [|done]. split.
    + intros k Hp Hb. apply Hk; [done|]. intros ->. discriminate Hb.
    + subst m'. rewrite Es. unfold client_stop_sequences. by rewrite lookup_insert_ne.
Qed.

Lemma unarmed_body calls m : is_armed m = false ->
  response_body from_str cfg nanos m calls = (m, repeat Unchanged (length calls), Ok tt).
Proof.
  intros Ha. induction calls as [|[body eos] calls IH]; [done|]. cbn [response_body]. unfold on_response_body. rewrite Ha. cbn [negb]. by rewrite IH.
Qed.
End Run.

Lemma keeps_all_room m k v : String.prefix "anthropic_stream." k = true -> @set_metadata keeps_all m k v = <[k := v]> m.
Proof. done. Qed.

(** The two hooks on a response. *)
Definition whole_response `{MetadataApi} `{!HashOrder string} (from_str : string -> option Json) (cfg : StreamConfig) (nanos : N)
    (m : Metadata) (r : option ResponseHead) (calls : list (option bytes * bool)) : Metadata * list BodyOut * result string unit :=
  response_body from_str cfg nanos (on_response m r).1 calls.

(** The context refused none of the entries the filter wrote for the response:
    it went as in a context that keeps every entry. *)
Definition unrefused `{MetadataApi} `{!HashOrder string} (from_str : string -> option Json) (cfg : StreamConfig) (nanos : N)
    (m : Metadata) (r : option ResponseHead) (calls : list (option bytes * bool)) : Prop :=
  whole_response from_str cfg nanos m r calls = @whole_response keeps_all _ from_str cfg nanos m r calls.

(** C24. The events of a translated stream are in order, whatever the upstream sends
    and however it is cut, as long as the context refuses none of the filter's
    entries: the client reads [message_start] first, content blocks numbered
    from 0 that are opened before they are written to or closed, an error only
    in the middle and nothing after it, and [message_delta] with all blocks
    closed and [message_stop] after it, never one without the other.  Events the
    client cannot place come at most after the end of its complete message, from
    an upstream that goes on after its [[DONE]].  No byte of the upstream reaches
    the client.  A response that is not translated passes untouched. *)
Theorem stream_well_formed `{MetadataApi} `{!HashOrder string} from_str cfg nanos m r calls m' outs res :
  unrefused from_str cfg nanos m r calls ->
  max_tool_blocks cfg <= u64_max -> untouched m ->
  whole_response from_str cfg nanos m r calls = (m', outs, res) ->
  if should_arm m r then
    (forall i, outs !! i = Some Unchanged -> exists eos, calls !! i = Some (None, eos)) /\
    exists es after c, concat (frames <$> outs) = es ++ after /\ client_run Before es = Some c /\ (forall bs d, c <> Delivered bs d) /\
      (after = [] \/ exists bs d, c = Complete bs d)
  else outs = repeat Unchanged (length calls) /\ res = Ok tt.
Proof.
  intros -> Hcfg Hu Hr. unfold whole_response in Hr. destruct (should_arm m r) eqn:Hs.
  - rewrite (arming keeps_all_room) in Hr by done.
    destruct (armed_start from_str (client_stop_sequences from_str m) m Hu eq_refl) as (Hi & Ha & _).
    destruct (response_in_step from_str cfg _ nanos keeps_all_room Hcfg calls _ _ _ _ _ _ Hi Ha Hr)
      as (Hb & c & u & (es & after & E & Hrun & Hafter) & _ & Hd).
    split; [done|]. by exists es, after, c.
  - unfold on_response in Hr. rewrite Hs in Hr. cbn [fst] in Hr. rewrite unarmed_body in Hr by (unfold is_armed; by rewrite Hu).
    by simplify_eq.
Qed.


(** * Samples *)

Module StreamSample.

(** A context that refuses values of more than forty bytes. *)
#[local] Instance store : MetadataApi.
Proof.
  refine {| set_metadata m k v := if (String.length v <=? 40)%nat then <[k := v]> m else m |}.
  intros m k v. destruct (_ <=? _)%nat; [by left|by right].
Defined.
#[local] Instance order : HashOrder string := list_order string.

Definition call (fields : list (string * Json)) (function : list (string * Json)) : Json :=
  JObject (("index", json_num 0)%string :: fields ++ [("function"%string, JObject function)]).
Definition chunk (delta : list (string * Json)) (finish : Json) : list (string * Json) :=
  [("choices", JArray [JObject [("delta", JObject delta); ("finish_reason", finish)]])]%string.

(** A reader for the payloads of the sample. *)
Definition reader (s : string) : option Json :=
  if bool_decide (s = "hello"%string) then
    Some (JObject (("model", json_str "m")%string :: chunk [("content", json_str "Hi")]%string JNull))
  else if bool_decide (s = "open"%string) then
    Some (JObject (chunk [("tool_calls", JArray [call [("id", json_str "t_1")] [("name", json_str "f"); ("arguments", json_str "{")]])]%string JNull))
  else if bool_decide (s = "close"%string) then
    Some (JObject (chunk [("tool_calls", JArray [call [] [("arguments", json_str "}")]])]%string (json_str "tool_calls") ++
                   [("usage", JObject [("completion_tokens", json_num 7); ("prompt_tokens", json_num 5)])]%string))
  else None.

Definition cfg : StreamConfig := mkStreamConfig 1000 10.
Definition request : Metadata := {["anthropic_messages_request.stream"%string := "true"%string]}.
Definition head : option ResponseHead := Some (mkHead 200 [("content-type"%string, Some "text/event-stream; charset=utf-8"%string)] false).

(** Cut inside a character, between CR and LF, and inside a payload. *)
Definition bodies : list (option bytes * bool) :=
  [(Some (string_bytes ": " ++ [xc3]), false); (Some ([xa9; x0a] ++ string_bytes "data: hello" ++ [x0d]), false);
   (Some ([x0a; x0d; x0a] ++ string_bytes "data:open" ++ [x0d; x0d]), false); (None, false); (Some (string_bytes "data: cl"), false);
   (Some (string_bytes "ose" ++ [x0a; x0a]), false)].
Definition end_body : option bytes := Some (string_bytes "data: [DONE]" ++ [x0a; x0a]).

Lemma request_untouched : untouched request.
Proof.
  intros k Hk. unfold request. rewrite lookup_singleton_None. intros <-. discriminate Hk.
Qed.

(** The sample's context refuses entries of more than forty bytes; the response
    stays below that. *)
Lemma stream_well_formed_witness :
  exists es after c, concat (frames <$> (whole_response reader cfg 0 request head (bodies ++ [(end_body, true)])).1.2) = es ++ after /\
    client_run Before es = Some c /\ (forall bs d, c <> Delivered bs d) /\ (after = [] \/ exists bs d, c = Complete bs d).
Proof.
  destruct (whole_response reader cfg 0 request head (bodies ++ [(end_body, true)])) as [[m' outs] res] eqn:E.
  refine (proj2 (stream_well_formed reader cfg 0 request head (bodies ++ [(end_body, true)]) m' outs res
    _ ltac:(by vm_compute) request_untouched E)).
  vm_compute. reflexivity.
Defined.



(** A second [[DONE]] is answered with a second end of the message. *)
Example second_done_repeats_end :
  out_type <$> concat (frames <$> (response_body reader cfg 0 (on_response request head).1 [(end_body, false); (end_body, true)]).1.2) =
    ["message_start"; "message_delta"; "message_stop"; "message_delta"; "message_stop"]%string.
Proof. vm_compute. reflexivity. Qed.
End StreamSample.
