(* ===== verification/TokenPolicies.v ===== *)
(** The request and response policies around token counting: the ceiling filter
    ([filters/src/token_usage/ceiling.rs]), the opt-in to streamed usage
    ([stream_usage.rs]) and the usage headers ([headers.rs]).

    Shown here: a request the ceiling lets through respects both limits, a
    streamed chat completion reaches the provider asking for its usage with the
    rest of the request unchanged, and the usage headers show exactly what the
    counter published.  The tokenizer, serde_json and the header syntax are
    parameters. *)

From S2P Require Import Prelude MetaCodec RustStr SseFrame Json Serde Operation TokenUsage.
From Stdlib Require Import Strings.Ascii.

Local Open Scope N_scope.

(** * Token ceilings *)

Inductive Tokenizer := Cl100kBase | O200kBase.

Record TokenCeilingFilter := mkCeiling {
  max_input_tokens : option N;
  max_output_tokens : option N;
  tokenizer : Tokenizer;
  ceiling_max_body_bytes : N
}.

(** [from_config] after the YAML is read. *)
Definition ceiling_from_config (max_input max_output : option N) (t : Tokenizer) (max_body : N)
    : option TokenCeilingFilter :=
  if bool_decide (max_input = None) && bool_decide (max_output = None) then None
  else if bool_decide (max_input = Some 0) || bool_decide (max_output = Some 0) then None
  else if max_body =? 0 then None
  else Some (mkCeiling max_input max_output t max_body).

(** [Self::rejection]: the code and the message of the error body. *)
Inductive CeilingAction :=
| CeilingContinue
| CeilingReject (code message : string) (status : N)
| CeilingError.

Section Ceiling.
Context (from_slice : bytes -> option Json) (utf8 : bytes -> option string).
(** [Tokenizer::count] in a blocking task, [None] when the task fails. *)
Context (count_task : Tokenizer -> string -> option N).
Context (f : TokenCeilingFilter).

Definition present_limits (value : Json) : list (string * Json) :=
  omap (fun name => v ← get value name; Some (name, v))
    ["max_output_tokens"; "max_completion_tokens"; "max_tokens"]%string.

Definition comma_join (names : list string) : string :=
  match names with [] => "" | n :: rest => foldl (fun acc x => acc +:+ ", " +:+ x) n rest end.

(** The output limit of the request; [None] lets it through. *)
Definition check_output (value : Json) (limit : N) : option CeilingAction :=
  match present_limits value with
  | [] => Some (CeilingReject "missing_output_limit"
            ("request must specify an output token limit no greater than " +:+ usize_to_string limit) 400)
  | [(field, requested)] =>
      match as_u64 requested with
      | None => Some (CeilingReject "invalid_output_limit"
                  (field +:+ " must be a non-negative integer no greater than " +:+ usize_to_string limit) 400)
      | Some requested =>
          if limit <? requested then
            Some (CeilingReject "max_output_tokens_exceeded"
              ("requested output tokens (" +:+ usize_to_string requested +:+ ") exceed maximum allowed (" +:+
               usize_to_string limit +:+ ")") 400)
          else None
      end
  | present =>
      Some (CeilingReject "multiple_output_limits"
        ("request must specify only one output token limit; found " +:+ comma_join (fst <$> present)) 400)
  end.

Definition check_input (raw : bytes) (limit : N) : CeilingAction :=
  let len := nlen raw in
  let estimated :=
    if len <=? limit then Some len
    else match utf8 raw with None => Some u64_max | Some text => count_task (tokenizer f) text end in
  match estimated with
  | None => CeilingError
  | Some estimated =>
      if limit <? estimated then
        CeilingReject "max_input_tokens_exceeded"
          ("estimated input tokens (" +:+ usize_to_string estimated +:+ ") exceed maximum allowed (" +:+
           usize_to_string limit +:+ ")") 400
      else CeilingContinue
  end.

Definition ceiling_on_request_body (body : option bytes) (end_of_stream : bool) : CeilingAction :=
  if negb end_of_stream then CeilingContinue
  else
    match body with
    | None | Some [] => CeilingContinue
    | Some raw =>
        match from_slice raw with
        | None => CeilingReject "invalid_json" "token ceiling requires a valid JSON request body" 400
        | Some tree =>
            match (limit ← max_output_tokens f; check_output (to_value tree) limit) with
            | Some reject => reject
            | None => match max_input_tokens f with Some limit => check_input raw limit | None => CeilingContinue end
            end
        end
    end.
End Ceiling.

(** * Opt-in to streamed usage *)

Definition is_chat_completions (path : string) : bool := ends_with (normalize_path path) "/chat/completions".

Definition is_json_true (v : option Json) : bool := match v with Some (JBool true) => true | _ => false end.

Definition needs_injection (value : Json) : bool :=
  is_json_true (get value "stream")
  && negb (is_json_true (get value "stream_options" ≫= fun so => get so "include_usage")).

(** [inject_include_usage]: the value, and whether it was modified. *)
Definition inject_include_usage (value : Json) : Json * bool :=
  match value with
  | JObject obj =>
      match assoc "stream_options" obj with
      | Some (JObject options) =>
          (JObject (assoc_insert "stream_options"%string
             (JObject (assoc_insert "include_usage"%string (JBool true) options)) obj), true)
      | Some JNull | None =>
          (JObject (assoc_insert "stream_options"%string (JObject [("include_usage"%string, JBool true)]) obj), true)
      | Some _ => (value, false)
      end
  | _ => (value, false)
  end.

Section StreamUsage.
Context (from_slice : bytes -> option Json) (to_vec : Json -> option bytes).

(** [on_request_body]: the body that is forwarded, [None] for an error. *)
Definition stream_usage_on_request_body (path : string) (body : option bytes) (end_of_stream : bool)
    : option (option bytes) :=
  if negb end_of_stream then Some body
  else if negb (is_chat_completions path) then Some body
  else
    match body with
    | None => Some body
    | Some raw =>
        match from_slice raw with
        | None => Some body
        | Some tree =>
            let value := to_value tree in
            if needs_injection value then
              let '(value, modified) := inject_include_usage value in
              if modified then b ← to_vec value; Some (Some b) else Some body
            else Some body
        end
    end.
End StreamUsage.

(** * Usage headers *)

Abbreviation HeaderMap := (gmap string string).

Section UsageHeaders.
Context (header_value_ok : string -> bool) (get_metadata : Metadata -> string -> option string).

Definition insert_token_header (h : HeaderMap) (name value : string) : HeaderMap :=
  if header_value_ok value then <[name := value]> h else h.

(** [inject_usage_headers]: the response headers and the modified flag. *)
Definition inject_usage_headers (m : Metadata) (response_header : option HeaderMap) (modified : bool)
    : option HeaderMap * bool :=
  let status := get_metadata m META_TOKEN_STATUS in
  let counts :=
    match get_metadata m META_TOKEN_INPUT, get_metadata m META_TOKEN_OUTPUT, get_metadata m META_TOKEN_TOTAL with
    | Some input, Some output, Some total => Some (input, output, total)
    | _, _, _ => None
    end in
  match status, counts with
  | None, None => (response_header, modified)
  | _, _ =>
      match response_header with
      | None => (response_header, modified)
      | Some h =>
          let h := match status with Some s => insert_token_header h "praxis-token-status" s | None => h end in
          let h :=
            match counts with
            | Some (input, output, total) =>
                let h := insert_token_header h "praxis-token-input" input in
                let h := insert_token_header h "praxis-token-output" output in
                insert_token_header h "praxis-token-total" total
            | None => h
            end in
          (Some h, true)
      end
  end.
End UsageHeaders.

(** * Properties *)

(** C40. A request the ceiling lets through is within both limits: with an
    output limit configured it names exactly one of the three output fields, an
    integer no greater than the limit; with an input limit its body has no more
    tokens than the limit, even when the tokenizer was not run.  The tokenizer
    produces at most one token per byte. *)
Theorem ceiling_enforced from_slice utf8 count_task f raw text n :
  raw <> [] -> utf8 raw = Some text -> count_task (tokenizer f) text = Some n -> n <= nlen raw ->
  ceiling_on_request_body from_slice utf8 count_task f (Some raw) true = CeilingContinue ->
  (forall limit, max_output_tokens f = Some limit ->
    exists tree field v requested, from_slice raw = Some tree /\ present_limits (to_value tree) = [(field, v)]
      /\ as_u64 v = Some requested /\ requested <= limit) /\
  (forall limit, max_input_tokens f = Some limit -> n <= limit).
Proof.
  intros Hne Hu Hn Hle. unfold ceiling_on_request_body. cbn [negb]. destruct raw as [|b raw]; [done|].
  destruct (from_slice (b :: raw)) as [tree|] eqn:Et; [|done]. intros H. split.
  - intros limit Hl. rewrite Hl in H. cbn [mbind option_bind] in H. unfold check_output in H.
    destruct (present_limits (to_value tree)) as [|[field v] [|]] eqn:Ep; [done| |done].
    destruct (as_u64 v) as [requested|] eqn:Ev; [|done]. exists tree, field, v, requested. split_and!; try done.
    destruct (N.ltb_spec limit requested); [done|lia].
  - intros limit Hl. rewrite Hl in H.
    destruct (max_output_tokens f ≫= _) as [a|] eqn:Eo.
    { exfalso. subst a. apply bind_Some in Eo as (l & _ & Eo). unfold check_output in Eo. repeat case_match; done. }
    unfold check_input in H. destruct (N.leb_spec (nlen (b :: raw)) limit); [lia|].
    rewrite Hu, Hn in H. destruct (N.ltb_spec limit n); [done|lia].
Qed.

Lemma is_json_true_shape o o' : option_Forall2 same_shape o o' -> is_json_true o = is_json_true o'.
Proof. destruct 1 as [v v' Hv|]; [by destruct Hv|done]. Qed.

Lemma inject_sets_usage value value' :
  inject_include_usage value = (value', true) ->
  is_json_true (get value' "stream_options" ≫= fun so => get so "include_usage") = true /\
  forall k, k <> "stream_options"%string -> get value' k = get value k.
Proof.
  destruct value as [| | | | |obj]; cbn; try done. intros Hi.
  assert (exists options, value' = JObject (assoc_insert "stream_options"%string (JObject options) obj)
            /\ assoc "include_usage" options = Some (JBool true)) as (options & -> & Ho).
  { destruct (assoc "stream_options" obj) as [[| | | | |options]|]; simplify_eq; eexists; (split; [done|]);
      [done|by rewrite assoc_insert_lookup, decide_True|done]. }
  cbn. setoid_rewrite assoc_insert_lookup. rewrite decide_True by done. cbn [mbind option_bind get]. rewrite Ho.
  split; [done|]. intros k Hk. by rewrite decide_False.
Qed.

(** A streamed chat completion always asks the provider for its usage: when
    the body is a JSON object with [stream] true and [stream_options] absent,
    null or an object, the body forwarded reads back with
    [stream_options.include_usage] true and every other member as the client
    sent it. *)
Theorem stream_opt_in from_slice to_vec path raw tree obj b :
  (forall v b, to_vec v = Some b -> exists t, from_slice b = Some t /\ same_shape v (to_value t)) ->
  is_chat_completions path = true -> from_slice raw = Some tree -> to_value tree = JObject obj ->
  is_json_true (assoc "stream" obj) = true ->
  match assoc "stream_options" obj with None | Some JNull | Some (JObject _) => True | _ => False end ->
  stream_usage_on_request_body from_slice to_vec path (Some raw) true = Some (Some b) ->
  exists t, from_slice b = Some t /\
    is_json_true (get (to_value t) "stream_options" ≫= fun so => get so "include_usage") = true /\
    forall k, k <> "stream_options"%string -> option_Forall2 same_shape (assoc k obj) (get (to_value t) k).
Proof.
  intros Hrt Hc Hr Ht Hs Ho. unfold stream_usage_on_request_body. rewrite Hc, Hr, Ht. cbn [negb].
  unfold needs_injection. cbn [get]. rewrite Hs. cbn [andb].
  destruct (is_json_true (assoc "stream_options" obj ≫= _)) eqn:Eu; cbn [negb].
  - intros [= <-]. exists tree. rewrite Ht. split_and!; [done|exact Eu|]. intros k _. cbn.
    apply option_Forall2_refl; intros ?; apply same_shape_refl.
  - destruct (inject_include_usage (JObject obj)) as [value' modified] eqn:Ei.
    assert (modified = true) as ->.
    { cbn in Ei. destruct (assoc "stream_options" obj) as [[]|]; by simplify_eq. }
    destruct (inject_sets_usage _ _ Ei) as [Hu Hk]. intros (b' & Hb & [= <-])%bind_Some.
    destruct (Hrt _ _ Hb) as (t & Hf & Hsh). exists t. split_and!; [done|..].
    + destruct (get_shape _ _ "stream_options" Hsh) as [x y Hxy|]; [|done].
      cbn [mbind option_bind] in *. erewrite <- is_json_true_shape; [exact Hu|by apply get_shape].
    + intros k Hk'. change (assoc k obj) with (get (JObject obj) k). rewrite <- Hk by done. by apply get_shape.
Qed.

(** ** Usage headers show what was published *)

Lemma usage_headers_counts header_value_ok get_metadata m h input output total modified :
  (forall k, get_metadata m k = m !! k) -> header_value_ok input = true -> header_value_ok output = true ->
  header_value_ok total = true ->
  m !! META_TOKEN_INPUT = Some input -> m !! META_TOKEN_OUTPUT = Some output -> m !! META_TOKEN_TOTAL = Some total ->
  exists h', inject_usage_headers header_value_ok get_metadata m (Some h) modified = (Some h', true) /\
    h' !! "praxis-token-input"%string = Some input /\ h' !! "praxis-token-output"%string = Some output /\
    h' !! "praxis-token-total"%string = Some total.
Proof.
  intros Hg Hi Ho Ht Hmi Hmo Hmt. unfold inject_usage_headers. rewrite !Hg, Hmi, Hmo, Hmt.
  unfold insert_token_header. rewrite Hi, Ho, Ht.
  destruct (m !! META_TOKEN_STATUS); eexists; (split; [done|]); split_and!; by meta.
Qed.

Module PolicySample.

Definition n (k : N) : Json := JNumber (PosInt k).

(** A reader and writer of two documents. *)
Definition request : Json := JObject [("stream", JBool true); ("max_tokens", n 8)]%string.
Definition opted_in : Json :=
  JObject [("stream", JBool true); ("max_tokens", n 8); ("stream_options", JObject [("include_usage", JBool true)])]%string.

Definition read (b : bytes) : option Json :=
  if bool_decide (b = bstr "A") then Some request else if bool_decide (b = bstr "B") then Some opted_in else None.
Definition write (v : Json) : option bytes :=
  match v with
  | JObject [(k1, JBool true); (k2, JNumber _); (k3, JObject [(k4, JBool true)])] =>
      if bool_decide (k1 = "stream" /\ k2 = "max_tokens" /\ k3 = "stream_options" /\ k4 = "include_usage")%string
      then Some (bstr "B") else None
  | _ => None
  end.

Lemma read_write v b : write v = Some b -> exists t, read b = Some t /\ same_shape v (to_value t).
Proof.
  intros Hw. exists opted_in. unfold write in Hw. repeat case_match; try done.
  case_bool_decide as E; [|done]. destruct E as (-> & -> & -> & ->). injection Hw as <-. split; [done|].
  repeat constructor.
Qed.

Definition text (b : bytes) : option string := Some (bytes_string b).
Definition count (t : Tokenizer) (s : string) : option N := Some (str_len s).

Lemma ceiling_enforced_witness :
  exists tree field v requested, read (bstr "A") = Some tree /\ present_limits (to_value tree) = [(field, v)]
    /\ as_u64 v = Some requested /\ requested <= 10.
Proof.
  apply (proj1 (ceiling_enforced read text count (mkCeiling (Some 4) (Some 10) Cl100kBase 100) (bstr "A") "A" 1
    ltac:(discriminate) eq_refl eq_refl ltac:(vm_compute; congruence) eq_refl) 10 eq_refl).
Defined.

Lemma stream_opt_in_witness :
  exists t, read (bstr "B") = Some t /\
    is_json_true (get (to_value t) "stream_options" ≫= fun so => get so "include_usage") = true.
Proof.
  destruct (stream_opt_in read write "/v1/chat/completions/?x" (bstr "A") request
    [("stream", JBool true); ("max_tokens", n 8)]%string (bstr "B") read_write) as (t & Ht & Hu & _);
    first [exact I|vm_compute; reflexivity|idtac]. by exists t.
Defined.
End PolicySample.
