(* ===== verification/TokenCount.v ===== *)
(** The token counter: [filters/src/token_usage/count.rs].

    [on_response] picks the provider and the extraction mode, [on_response_body]
    consumes the chunks of the response, and the counts appear under the
    well-known [token.*] keys at its end.  Between callbacks everything is text
    in the request's [filter_metadata]: decimal accumulators, the buffered body
    in hexadecimal, the state of the SSE scanner.  Metrics and the per-stream
    timing handles are left out; they are written and never read back into the
    metadata. *)

From S2P Require Import Prelude MetaCodec RustStr SseFrame A2aSse Json Serde TokenUsage.
From Stdlib Require Import Strings.Byte Strings.Ascii.

Local Open Scope N_scope.

(** * Providers *)

Inductive ProviderKind := OpenAi | Anthropic | Google | Bedrock | BedrockInvokeModel | Azure | Auto.

#[export] Instance ProviderKind_eq_dec : EqDecision ProviderKind.
Proof. solve_decision. Defined.

Definition for_path (path : string) : option ProviderKind :=
  if ends_with path "/responses" || ends_with path "/chat/completions" || ends_with path "/completions"
  then Some OpenAi
  else if ends_with path "/messages" then Some Anthropic
  else if ends_with path ":generateContent" || ends_with path ":streamGenerateContent" then Some Google
  else if ends_with path "/converse" || ends_with path "/converse-stream" then Some Bedrock
  else if ends_with path "/invoke" || ends_with path "/invoke-with-response-stream" then Some BedrockInvokeModel
  else None.

Definition kind_as_str (p : ProviderKind) : string :=
  match p with
  | OpenAi => "openai"
  | Anthropic => "anthropic"
  | Google => "google"
  | Bedrock => "bedrock"
  | BedrockInvokeModel => "bedrock_invoke_model"
  | Azure => "azure"
  | Auto => "auto"
  end.

Definition from_meta (value : string) : option ProviderKind :=
  match value with
  | "openai" => Some OpenAi
  | "anthropic" => Some Anthropic
  | "google" => Some Google
  | "bedrock" => Some Bedrock
  | "bedrock_invoke_model" => Some BedrockInvokeModel
  | "azure" => Some Azure
  | _ => None
  end%string.

(** * Configuration *)

(** [MAX_JSON_BODY_BYTES], the 64 MiB ceiling of the capture limits. *)
Definition MAX_JSON_BODY_BYTES : N := 67108864.

Record TokenCountFilter := mkCounter { provider : ProviderKind; max_body_bytes : N; max_scratch_bytes : N }.

(** [validate_max_body_bytes] belongs to the filter crate: [body_ok]. *)
Definition validate_max_scratch_bytes (value : N) : bool := negb (value =? 0) && (value <=? MAX_JSON_BODY_BYTES).

Definition from_config (body_ok : N -> bool) (p : ProviderKind) (max_body max_scratch : N) : option TokenCountFilter :=
  if body_ok max_body && validate_max_scratch_bytes max_scratch then Some (mkCounter p max_body max_scratch) else None.

(** * Working state *)

Definition META_MODE : string := "token_count.mode".
Definition META_PROVIDER : string := "token_count.provider".
Definition META_INPUT : string := "token_count.input".
Definition META_OUTPUT : string := "token_count.output".
Definition META_TOTAL : string := "token_count.total".
Definition META_CACHE_READ : string := "token_count.cache_read".
Definition META_CACHE_WRITE : string := "token_count.cache_write".
Definition META_REASONING : string := "token_count.reasoning".
Definition META_BUF_HEX : string := "token_count.buf_hex".
Definition META_BUF_BYTES : string := "token_count.buf_bytes".
Definition META_SSE_LINE_BUF : string := "token_count.sse_line_buf_hex".
Definition META_SSE_DATA_HEX : string := "token_count.sse_data_hex".
Definition META_SSE_HAS_DATA : string := "token_count.sse_has_data".
Definition META_SSE_PREV_CR : string := "token_count.sse_prev_cr".
Definition META_SSE_SCRATCH : string := "token_count.sse_scratch_bytes".
Definition META_SSE_SKIP : string := "token_count.sse_skip".
Definition META_SSE_DROPPED_TAIL : string := "token_count.sse_dropped_tail".
Definition META_FINISH_RECORDED : string := "token_count.finish_reason_recorded".

Definition working (k : string) : bool := starts_with k "token_count.".

(** [HashMap::retain] on the keys outside the prefix. *)
Definition clear_all_metadata (m : Metadata) : Metadata := filter (fun e => working e.1 = false) m.

Definition load_sse_scan_state (m : Metadata) : SseScanState :=
  mkScan
    (default [] (m !! META_SSE_LINE_BUF ≫= decode_hex))
    (default [] (m !! META_SSE_DATA_HEX ≫= decode_hex))
    (is_true (m !! META_SSE_HAS_DATA))
    (is_true (m !! META_SSE_PREV_CR))
    (default 0 (m !! META_SSE_SCRATCH ≫= parse_usize))
    (skip_from_metadata_str (m !! META_SSE_SKIP))
    (tail_from_metadata_str (m !! META_SSE_DROPPED_TAIL)).

Definition save_sse_scan_state (m : Metadata) (s : SseScanState) : Metadata :=
  let m := set_hex_metadata m META_SSE_LINE_BUF (s_line_buf s) in
  let m := set_hex_metadata m META_SSE_DATA_HEX (s_data_buf s) in
  let m := <[META_SSE_HAS_DATA := bool_str (s_has_data s)]> m in
  let m := <[META_SSE_PREV_CR := bool_str (s_prev_cr s)]> m in
  let m := <[META_SSE_SCRATCH := usize_to_string (s_scratch_bytes s)]> m in
  let m := <[META_SSE_SKIP := skip_as_str (skip s)]> m in
  <[META_SSE_DROPPED_TAIL := tail_as_str (tail s)]> m.

(** [accumulate_response_hex]: [None] when the limit would be exceeded. *)
Definition accumulate_response_hex (m : Metadata) (chunk : bytes) (max_bytes : N) : option Metadata :=
  let existing := default 0 (m !! META_BUF_BYTES ≫= parse_usize) in
  if max_bytes <? saturating_add existing (nlen chunk) then None
  else
    let hex := default ""%string (m !! META_BUF_HEX) in
    let m := <[META_BUF_HEX := hex +:+ encode_hex chunk]> m in
    Some (<[META_BUF_BYTES := usize_to_string (existing + nlen chunk)]> m).

(** ** Accumulated counts *)

Definition store_optional_count (m : Metadata) (key : string) (value : option N) : Metadata :=
  match value with Some v => <[key := usize_to_string v]> m | None => m end.

Definition read_accumulated (m : Metadata) (key : string) : option N := m !! key ≫= parse_usize.

Definition merge_accumulated_count (m : Metadata) (key : string) (value : N) : Metadata :=
  let existing := default 0 (m !! key ≫= parse_usize) in
  <[key := usize_to_string (N.max existing value)]> m.

Definition merge_reported_count (m : Metadata) (key : string) (value : option N) : Metadata :=
  match value with Some v => merge_accumulated_count m key v | None => m end.

(** * Finish reasons *)

(** [payload.windows(needle.len()).any(|w| w == needle)]. *)
Fixpoint contains_window (needle payload : bytes) : bool :=
  bool_decide (needle `prefix_of` payload) ||
  match payload with [] => false | _ :: rest => contains_window needle rest end.

(** The member name in double quotes. *)
Definition quoted (k : string) : bytes := x22 :: bytes_of_string k ++ [x22].

Definition finish_needle (p : ProviderKind) : option bytes :=
  match p with
  | OpenAi | Azure => Some (quoted "finish_reason")
  | Anthropic => Some (quoted "stop_reason")
  | Google => Some (quoted "finishReason")
  | Bedrock => Some (quoted "stopReason")
  | BedrockInvokeModel | Auto => None
  end.

Definition normalize_finish_reason (reason : string) : string :=
  let any := existsb (eq_ignore_ascii_case reason) in
  (if any ["stop"; "end_turn"] then "stop"
   else if any ["length"; "max_tokens"; "MAX_TOKENS"] then "length"
   else if any ["tool_calls"; "function_call"; "tool_use"] then "tool_calls"
   else if any ["content_filter"; "content_filtered"; "SAFETY"; "BLOCKLIST"; "PROHIBITED_CONTENT"; "SPII";
                "guardrail_intervened"] then "content_filter"
   else if any ["stop_sequence"] then "stop_sequence"
   else if any ["refusal"] then "refusal"
   else "other")%string.

(** * Content types *)

Definition media_type_is (t : string) (ct : string) : bool :=
  match split_on ";"%char ct with media :: _ => eq_ignore_ascii_case (trim media) t | [] => false end.

Definition is_event_stream_content_type : string -> bool := media_type_is "text/event-stream".
Definition is_json_content_type : string -> bool := media_type_is "application/json".

(** * Handlers *)

(** The response as the hooks see it: a header value is [None] when it is not
    visible ASCII, and the first value of a name is the one read. *)
Record ResponseHead := mkHead { status : N; headers : list (string * option string) }.

Definition header_str (r : option ResponseHead) (name : string) : option string :=
  h ← r; v ← assoc name (headers h); v.

Definition is_success (r : option ResponseHead) : bool :=
  match r with Some h => (200 <=? status h) && (status h <? 300) | None => false end.

Section Handlers.
Context `{MetadataApi} (from_slice : bytes -> option Json).
Context (get_metadata : Metadata -> string -> option string).

Definition extract_token_usage (p : ProviderKind) (body : bytes) : option TokenUsage :=
  match p with
  | OpenAi | Azure => parse_openai from_slice body
  | Anthropic => parse_anthropic from_slice body
  | Google => parse_google from_slice body
  | Bedrock => parse_bedrock from_slice body
  | BedrockInvokeModel | Auto => None
  end.

Definition extract_streaming_tokens (p : ProviderKind) (event_data : bytes) : StreamingTokens :=
  match p with
  | Anthropic => parse_anthropic_event from_slice event_data
  | Bedrock => parse_bedrock_event from_slice event_data
  | OpenAi | Azure | Google | BedrockInvokeModel | Auto => tokens_default
  end.

(** [extract_finish_reason]: a [Value] is read, so [to_value]. *)
Definition extract_finish_reason (payload : bytes) (p : ProviderKind) : option string :=
  needle ← finish_needle p;
  if negb (contains_window needle payload) then None else
  tree ← from_slice payload;
  let value := to_value tree in
  let first k := (get value k ≫= as_array) ≫= head in
  reason ← match p with
           | OpenAi | Azure => (first "choices"%string ≫= fun c => get c "finish_reason") ≫= as_str
           | Anthropic => (get value "delta" ≫= fun d => get d "stop_reason") ≫= as_str
           | Google => (first "candidates"%string ≫= fun c => get c "finishReason") ≫= as_str
           | Bedrock =>
               match get value "messageStop" ≫= fun s => get s "stopReason" with
               | Some r => as_str r
               | None => get value "stopReason" ≫= as_str
               end
           | BedrockInvokeModel | Auto => None
           end;
  if bool_decide (reason = ""%string) then None else Some reason.

Definition record_finish_reason_once (m : Metadata) (payload : bytes) (p : ProviderKind) : Metadata :=
  match m !! META_FINISH_RECORDED, extract_finish_reason payload p with
  | None, Some reason => <[META_FINISH_RECORDED := normalize_finish_reason reason]> m
  | _, _ => m
  end.

Definition publish_token_usage (m : Metadata) (u : TokenUsage) : Metadata :=
  let m := set_token_usage m (u_input u) (u_output u) (Some (u_total u)) in
  let m := set_cache_token_usage m (u_cache_read u) (u_cache_write u) in
  set_reasoning_token_usage m (u_reasoning u).

(** ** JSON responses *)

Definition record_json_usage (m : Metadata) (p : ProviderKind) (data : bytes) : Metadata :=
  let m := record_finish_reason_once m data p in
  match extract_token_usage p data with
  | Some u => publish_token_usage m u
  | None => m
  end.

(** [buffered]: the chain runs in [BodyMode::StreamBuffer]. *)
Definition handle_json_body (m : Metadata) (body : option bytes) (end_of_stream buffered : bool)
    (p : ProviderKind) (max_body_bytes : N) : Metadata :=
  let buffered_eos_body := if end_of_stream && buffered then body else None in
  let accumulated :=
    match body, buffered_eos_body with
    | Some chunk, None => accumulate_response_hex m chunk max_body_bytes
    | _, _ => Some m
    end in
  match accumulated with
  | None => clear_all_metadata (set_token_status_overflow m)
  | Some m =>
      if end_of_stream then
        let data :=
          match buffered_eos_body with
          | Some data => Some data
          | None => m !! META_BUF_HEX ≫= decode_hex
          end in
        clear_all_metadata (match data with Some data => record_json_usage m p data | None => m end)
      else m
  end.

(** ** Streamed responses *)

Definition try_complete_usage (m : Metadata) (payload : bytes) (p : ProviderKind) : option Metadata :=
  u ← extract_token_usage p payload;
  let m := <[META_INPUT := usize_to_string (u_input u)]> m in
  let m := <[META_OUTPUT := usize_to_string (u_output u)]> m in
  let m := <[META_TOTAL := usize_to_string (u_total u)]> m in
  let m := store_optional_count m META_CACHE_READ (u_cache_read u) in
  let m := store_optional_count m META_CACHE_WRITE (u_cache_write u) in
  Some (store_optional_count m META_REASONING (u_reasoning u)).

Definition try_partial_usage (m : Metadata) (payload : bytes) (p : ProviderKind) : Metadata :=
  let tokens := extract_streaming_tokens p payload in
  let m := merge_reported_count m META_INPUT (t_input tokens) in
  let m := merge_reported_count m META_OUTPUT (t_output tokens) in
  let m := merge_reported_count m META_CACHE_READ (t_cache_read tokens) in
  let m := merge_reported_count m META_CACHE_WRITE (t_cache_write tokens) in
  merge_reported_count m META_REASONING (t_reasoning tokens).

Definition process_sse_payload (m : Metadata) (payload : bytes) (p : ProviderKind) : Metadata :=
  if bool_decide (payload = bstr "[DONE]") then m
  else
    let m := record_finish_reason_once m payload p in
    match try_complete_usage m payload p with
    | Some m => m
    | None => try_partial_usage m payload p
    end.

Definition publish_accumulated_streaming_usage (m : Metadata) : Metadata :=
  let input := default 0 (read_accumulated m META_INPUT) in
  let output := default 0 (read_accumulated m META_OUTPUT) in
  publish_token_usage m
    (with_reasoning
       (with_cache (usage_new input output (read_accumulated m META_TOTAL))
          (read_accumulated m META_CACHE_READ) (read_accumulated m META_CACHE_WRITE))
       (read_accumulated m META_REASONING)).

Definition finalize_streaming_counts (m : Metadata) (dropped_tail : bool) : Metadata :=
  let has_accumulated := bool_decide (is_Some (m !! META_INPUT)) || bool_decide (is_Some (m !! META_OUTPUT)) in
  let m := if dropped_tail then set_token_status_overflow m else m in
  if has_accumulated then publish_accumulated_streaming_usage m else m.

Definition process_payloads (p : ProviderKind) (ps : list bytes) (m : Metadata) : Metadata :=
  foldl (fun m payload => process_sse_payload m payload p) m ps.

Definition handle_sse_body (m : Metadata) (body : option bytes) (end_of_stream : bool)
    (p : ProviderKind) (max_scratch_bytes : N) : Metadata :=
  let m :=
    match body with
    | Some chunk =>
        let '(state, result) := scan_sse_chunk (load_sse_scan_state m) chunk max_scratch_bytes in
        save_sse_scan_state (process_payloads p (payloads result) m) state
    | None => m
    end in
  if end_of_stream then
    let '(state, pending) := flush_sse_state (load_sse_scan_state m) [] in
    let m := process_payloads p pending m in
    clear_all_metadata (finalize_streaming_counts m (bool_decide (tail state = Dropped)))
  else m.

(** ** Hooks *)

Definition extract_bedrock_headers (m : Metadata) (r : option ResponseHead) : Metadata :=
  match header_str r "x-amzn-bedrock-input-token-count" ≫= parse_usize,
        header_str r "x-amzn-bedrock-output-token-count" ≫= parse_usize with
  | Some input, Some output => set_token_usage m input output None
  | _, _ => m
  end.

Section Filter.
Context (f : TokenCountFilter).

Definition on_response (m : Metadata) (path : string) (r : option ResponseHead) : Metadata :=
  let m := clear_all_metadata m in
  if negb (is_success r) then m else
  match (match provider f with Auto => for_path path | other => Some other end) with
  | None => m
  | Some p =>
      if bool_decide (p = BedrockInvokeModel) then extract_bedrock_headers m r
      else
        match header_str r "content-type" with
        | None => m
        | Some ct =>
            let resolved m :=
              if bool_decide (provider f = Auto) then <[META_PROVIDER := kind_as_str p]> m else m in
            if is_event_stream_content_type ct then resolved (<[META_MODE := "sse"%string]> m)
            else if is_json_content_type ct then resolved (<[META_MODE := "json"%string]> m)
            else m
        end
  end.

Definition on_response_body (m : Metadata) (body : option bytes) (end_of_stream buffered : bool) : Metadata :=
  match (match provider f with Auto => get_metadata m META_PROVIDER ≫= from_meta | other => Some other end) with
  | None => m
  | Some p =>
      if bool_decide (p = BedrockInvokeModel) then m
      else
        let mode := get_metadata m META_MODE in
        if bool_decide (mode = Some "sse"%string) then
          handle_sse_body m body end_of_stream p (max_scratch_bytes f)
        else if bool_decide (mode = Some "json"%string) then
          handle_json_body m body end_of_stream buffered p (max_body_bytes f)
        else m
  end.

(** The body callbacks of a response, in order. *)
Definition response_body (buffered : bool) (m : Metadata) (calls : list (option bytes * bool)) : Metadata :=
  foldl (fun m c => on_response_body m c.1 c.2 buffered) m calls.
End Filter.
End Handlers.
