(* ===== verification/TokenCountProps.v ===== *)
(** Properties of the token counter ([TokenCount]).

    [Counts] is what a streamed response has reported so far, as numbers;
    [count_payload] is one event.  The filter's decimal strings in the metadata
    represent it ([represents]), and the two body theorems say what a response
    publishes, whatever the chunks it arrived in and whatever working state an
    aborted attempt left behind. *)

From S2P Require Import Prelude MetaCodec RustStr SseFrame A2aSse A2aSseProps Json Serde TokenUsage TokenCount.
From Stdlib Require Import Strings.Byte Strings.Ascii.

Local Open Scope N_scope.

(** * Abstract counts *)

Record Counts := mkCounts {
  c_input : option N;
  c_output : option N;
  c_total : option N;
  c_cache_read : option N;
  c_cache_write : option N;
  c_reasoning : option N
}.

Definition no_counts : Counts := mkCounts None None None None None None.

Definition merge (old new : option N) : option N :=
  match new with Some v => Some (N.max (default 0 old) v) | None => old end.

Lemma merge_None o : merge None o = o.
Proof. destruct o as [n|]; [|done]. unfold merge. f_equal. cbn [default]. lia. Qed.

Definition replace (old new : option N) : option N :=
  match new with Some v => Some v | None => old end.

Definition count_complete (c : Counts) (u : TokenUsage) : Counts :=
  mkCounts (Some (u_input u)) (Some (u_output u)) (Some (u_total u))
    (replace (c_cache_read c) (u_cache_read u)) (replace (c_cache_write c) (u_cache_write u))
    (replace (c_reasoning c) (u_reasoning u)).

Definition count_partial (c : Counts) (t : StreamingTokens) : Counts :=
  mkCounts (merge (c_input c) (t_input t)) (merge (c_output c) (t_output t)) (c_total c)
    (merge (c_cache_read c) (t_cache_read t)) (merge (c_cache_write c) (t_cache_write t))
    (merge (c_reasoning c) (t_reasoning t)).

Definition count_payload (from_slice : bytes -> option Json) (p : ProviderKind) (c : Counts) (payload : bytes) : Counts :=
  if bool_decide (payload = bstr "[DONE]") then c
  else match extract_token_usage from_slice p payload with
       | Some u => count_complete c u
       | None => count_partial c (extract_streaming_tokens from_slice p payload)
       end.

Definition usage_of (c : Counts) : TokenUsage :=
  with_reasoning
    (with_cache (usage_new (default 0 (c_input c)) (default 0 (c_output c)) (c_total c)) (c_cache_read c) (c_cache_write c))
    (c_reasoning c).

Definition reported (c : Counts) : bool := bool_decide (is_Some (c_input c)) || bool_decide (is_Some (c_output c)).

(** * Working state *)

Definition count_keys : list string :=
  [META_INPUT; META_OUTPUT; META_TOTAL; META_CACHE_READ; META_CACHE_WRITE; META_REASONING; META_FINISH_RECORDED].

Definition scan_keys : list string :=
  [META_SSE_LINE_BUF; META_SSE_DATA_HEX; META_SSE_HAS_DATA; META_SSE_PREV_CR; META_SSE_SCRATCH; META_SSE_SKIP;
   META_SSE_DROPPED_TAIL].

Lemma clear_lookup m k : clear_all_metadata m !! k = if working k then None else m !! k.
Proof.
  unfold clear_all_metadata. destruct (working k) eqn:E.
  - apply map_lookup_filter_None. right. intros x _ Hw. change (working k = false) in Hw. congruence.
  - destruct (m !! k) as [x|] eqn:Ek; [by apply map_lookup_filter_Some|].
    apply map_lookup_filter_None. by left.
Qed.

Lemma clear_agree m m' : (forall k, working k = false -> m !! k = m' !! k) -> clear_all_metadata m = clear_all_metadata m'.
Proof. intros H. apply map_eq. intros k. rewrite !clear_lookup. destruct (working k) eqn:E; auto. Qed.

Lemma clear_idem m : clear_all_metadata (clear_all_metadata m) = clear_all_metadata m.
Proof. apply clear_agree. intros k Hk. by rewrite clear_lookup, Hk. Qed.

Lemma clear_insert m k v :
  working k = false -> clear_all_metadata (<[k := v]> m) = <[k := v]> (clear_all_metadata m).
Proof.
  intros Hk. apply map_eq. intros k'. rewrite clear_lookup. destruct (decide (k' = k)) as [->|Hne].
  - by rewrite Hk, !lookup_insert_eq.
  - rewrite !lookup_insert_ne by done. by rewrite clear_lookup.
Qed.

Lemma count_load_save_scan m s :
  s_scratch_bytes s <= u64_max -> load_sse_scan_state (save_sse_scan_state m s) = s.
Proof.
  intros Hn. unfold load_sse_scan_state, save_sse_scan_state. meta.
  rewrite (set_hex_ne _ META_SSE_DATA_HEX META_SSE_LINE_BUF), !set_hex_eq by discriminate.
  rewrite !hex_slot, !is_true_bool, skip_roundtrip, tail_roundtrip. cbn [mbind option_bind].
  rewrite parse_usize_to_string by done. by destruct s.
Qed.

(** Keys outside a list of literals. *)
Ltac not_in H := unfold count_keys, scan_keys in H; rewrite !not_elem_of_cons in H; destruct_and! H.

Lemma save_scan_frame m s k : k ∉ scan_keys -> save_sse_scan_state m s !! k = m !! k.
Proof.
  intros Hk. not_in Hk. unfold save_sse_scan_state.
  rewrite !lookup_insert_ne by congruence. by rewrite !set_hex_ne by congruence.
Qed.

Lemma load_scan_agree m m' : (forall k, k ∈ scan_keys -> m !! k = m' !! k) -> load_sse_scan_state m = load_sse_scan_state m'.
Proof.
  intros H. unfold load_sse_scan_state. by rewrite !H by (unfold scan_keys; set_solver).
Qed.

(** * Counters as decimal strings *)

(** The string under [k] is the count [o]. *)
Definition slot (m : Metadata) (k : string) (o : option N) : Prop := m !! k = usize_to_string <$> o /\ opt_u64 o.

Lemma slot_read m k o : slot m k o -> m !! k ≫= parse_usize = o.
Proof. intros [-> Ho]. destruct o as [n|]; [|done]. cbn. by apply parse_usize_to_string, Ho. Qed.

Lemma slot_is_Some m k o : slot m k o -> bool_decide (is_Some (m !! k)) = bool_decide (is_Some o).
Proof. intros [-> _]. by destruct o. Qed.

Lemma slot_frame m m' k o : m' !! k = m !! k -> slot m k o -> slot m' k o.
Proof. unfold slot. by intros ->. Qed.

Lemma slot_insert m k n : u64 n -> slot (<[k := usize_to_string n]> m) k (Some n).
Proof. intros Hn. split; [apply lookup_insert_eq|by apply opt_u64_Some]. Qed.

Lemma store_slot m k o v : slot m k o -> opt_u64 v -> slot (store_optional_count m k v) k (replace o v).
Proof. intros Ho Hv. destruct v as [n|]; [|done]. by apply slot_insert, Hv. Qed.

Lemma store_frame m k v k' : k <> k' -> store_optional_count m k v !! k' = m !! k'.
Proof. intros Hk. destruct v; [by apply lookup_insert_ne|done]. Qed.

Lemma merge_slot m k o v : slot m k o -> opt_u64 v -> slot (merge_reported_count m k v) k (merge o v).
Proof.
  intros Ho Hv. destruct v as [n|]; [|done]. cbn. unfold merge_accumulated_count. rewrite (slot_read _ _ _ Ho).
  apply slot_insert. destruct Ho as [_ Ho]. pose proof (Hv n eq_refl). unfold u64 in *.
  apply N.max_lub; [|done]. apply default_u64; [unfold u64; lia|done].
Qed.

Lemma merge_frame m k v k' : k <> k' -> merge_reported_count m k v !! k' = m !! k'.
Proof. intros Hk. destruct v; [by apply lookup_insert_ne|done]. Qed.

Definition represents (m : Metadata) (c : Counts) : Prop :=
  slot m META_INPUT (c_input c) /\ slot m META_OUTPUT (c_output c) /\ slot m META_TOTAL (c_total c)
  /\ slot m META_CACHE_READ (c_cache_read c) /\ slot m META_CACHE_WRITE (c_cache_write c)
  /\ slot m META_REASONING (c_reasoning c).

Lemma represents_frame m m' c :
  (forall k, k ∈ count_keys -> k <> META_FINISH_RECORDED -> m' !! k = m !! k) -> represents m c -> represents m' c.
Proof.
  intros Hf (?&?&?&?&?&?). unfold count_keys in Hf.
  split_and!; (eapply slot_frame; [|eassumption]); (apply Hf; [set_solver|discriminate]).
Qed.

Section Counting.
Context `{MetadataApi} (from_slice : bytes -> option Json).

Lemma extract_ok p data u : extract_token_usage from_slice p data = Some u -> usage_ok u.
Proof.
  destruct p; cbn; try done; eauto using parse_openai_ok, parse_anthropic_ok, parse_google_ok, parse_bedrock_ok.
Qed.

Lemma streaming_ok p data : tokens_ok (extract_streaming_tokens from_slice p data).
Proof.
  destruct p; cbn; auto using parse_anthropic_event_ok, parse_bedrock_event_ok; split_and!; apply opt_u64_None.
Qed.

Lemma finish_frame m payload p k :
  k <> META_FINISH_RECORDED -> record_finish_reason_once from_slice m payload p !! k = m !! k.
Proof.
  intros Hk. unfold record_finish_reason_once. destruct (m !! META_FINISH_RECORDED); [done|].
  destruct (extract_finish_reason from_slice payload p); [|done]. by apply lookup_insert_ne.
Qed.

(** Solves the six slots: each count is written once and framed by the rest. *)
Ltac slots :=
  split_and!; cbn;
  repeat first
    [ apply store_slot; [|assumption] | apply merge_slot; [|assumption]
    | apply slot_insert; assumption
    | eapply slot_frame; [first [apply store_frame; discriminate | apply merge_frame; discriminate
                                |apply lookup_insert_ne; discriminate]|]
    | assumption ].

Lemma complete_represents m payload p c m' :
  represents m c -> try_complete_usage from_slice m payload p = Some m' ->
  exists u, extract_token_usage from_slice p payload = Some u /\ represents m' (count_complete c u).
Proof.
  intros (Hi&Ho&Ht&Hr&Hw&Hg). unfold try_complete_usage.
  intros (u & Hu & [= <-])%bind_Some. exists u. split; [done|].
  destruct (extract_ok _ _ _ Hu) as (?&?&?&?&?&?). slots.
Qed.

Lemma partial_represents m payload p c :
  represents m c ->
  represents (try_partial_usage from_slice m payload p) (count_partial c (extract_streaming_tokens from_slice p payload)).
Proof.
  intros (Hi&Ho&Ht&Hr&Hw&Hg). unfold try_partial_usage. destruct (streaming_ok p payload) as (?&?&?&?&?). slots.
Qed.

Lemma payload_represents m payload p c :
  represents m c -> represents (process_sse_payload from_slice m payload p) (count_payload from_slice p c payload).
Proof.
  intros Hm. unfold process_sse_payload, count_payload. case_bool_decide; [done|].
  assert (represents (record_finish_reason_once from_slice m payload p) c) as Hf.
  { eapply represents_frame; [|done]. intros k _ Hk. by apply finish_frame. }
  destruct (try_complete_usage _ _ _ _) as [m'|] eqn:E.
  - destruct (complete_represents _ _ _ _ _ Hf E) as (u & -> & Hu). done.
  - unfold try_complete_usage in E. destruct (extract_token_usage _ _ _); [done|]. by apply partial_represents.
Qed.

Lemma payload_frame m payload p k : k ∉ count_keys -> process_sse_payload from_slice m payload p !! k = m !! k.
Proof.
  intros Hk. not_in Hk. unfold process_sse_payload. case_bool_decide; [done|].
  unfold try_complete_usage. destruct (extract_token_usage _ _ _); cbn.
  - rewrite !store_frame, !lookup_insert_ne by congruence. by apply finish_frame.
  - unfold try_partial_usage. rewrite !merge_frame by congruence. by apply finish_frame.
Qed.

Lemma payloads_represent p ps m c :
  represents m c -> represents (process_payloads from_slice p ps m) (foldl (count_payload from_slice p) c ps).
Proof. revert m c. induction ps as [|x ps IH]; intros m c Hm; [done|]. by apply IH, payload_represents. Qed.

Lemma payloads_frame p ps m k : k ∉ count_keys -> process_payloads from_slice p ps m !! k = m !! k.
Proof.
  intros Hk. revert m. induction ps as [|x ps IH]; intros m; [done|]. cbn.
  fold (process_payloads from_slice p ps). rewrite <- (payload_frame m x p k Hk). apply IH.
Qed.
End Counting.

(** * Publishing *)

Definition token_keys : list string :=
  [META_TOKEN_INPUT; META_TOKEN_OUTPUT; META_TOKEN_TOTAL; META_TOKEN_STATUS; META_TOKEN_CACHE_READ;
   META_TOKEN_CACHE_WRITE; META_TOKEN_REASONING].

(** The end of a stream: the status of a capture cut short, then the counts if
    any event reported input or output. *)
Definition finish_counts `{MetadataApi} (m : Metadata) (c : Counts) (dropped : bool) : Metadata :=
  let m := if dropped then set_token_status_overflow m else m in
  if reported c then publish_token_usage m (usage_of c) else m.

(** What a complete body publishes. *)
Definition finish_json `{MetadataApi} (from_slice : bytes -> option Json) (p : ProviderKind) (max : N) (m : Metadata)
    (data : bytes) : Metadata :=
  if max <? nlen data then set_token_status_overflow m
  else match extract_token_usage from_slice p data with Some u => publish_token_usage m u | None => m end.

Section Responses.
Context `{MetadataApi} (from_slice : bytes -> option Json) (get_metadata : Metadata -> string -> option string).
Hypothesis get_metadata_spec : forall m k, get_metadata m k = m !! k.
(** The seven counts fit the metadata store. *)
Hypothesis room : forall m k v, k ∈ token_keys -> set_metadata m k v = <[k := v]> m.

Lemma clear_set m k v : k ∈ token_keys -> clear_all_metadata (set_metadata m k v) = set_metadata (clear_all_metadata m) k v.
Proof.
  intros Hk. rewrite !room by done. apply clear_insert.
  unfold token_keys in Hk. rewrite !elem_of_cons, elem_of_nil in Hk. by destruct Hk as [->|[->|[->|[->|[->|[->|[->|[]]]]]]]].
Qed.

Ltac token_key := compute_done.

Lemma clear_status m : clear_all_metadata (set_token_status_overflow m) = set_token_status_overflow (clear_all_metadata m).
Proof. apply clear_set. token_key. Qed.

Lemma clear_publish m u : clear_all_metadata (publish_token_usage m u) = publish_token_usage (clear_all_metadata m) u.
Proof.
  unfold publish_token_usage, set_token_usage, set_cache_token_usage, set_reasoning_token_usage, set_optional_count.
  destruct (u_cache_read u), (u_cache_write u), (u_reasoning u); by rewrite !clear_set by token_key.
Qed.

Lemma read_represents m c :
  represents m c ->
  publish_accumulated_streaming_usage m = publish_token_usage m (usage_of c).
Proof.
  intros (Hi&Ho&Ht&Hr&Hw&Hg). unfold publish_accumulated_streaming_usage, read_accumulated.
  by rewrite (slot_read _ _ _ Hi), (slot_read _ _ _ Ho), (slot_read _ _ _ Ht), (slot_read _ _ _ Hr),
    (slot_read _ _ _ Hw), (slot_read _ _ _ Hg).
Qed.

Lemma finalize_represents m c dropped :
  represents m c -> clear_all_metadata (finalize_streaming_counts m dropped) = finish_counts (clear_all_metadata m) c dropped.
Proof.
  intros Hm. unfold finalize_streaming_counts, finish_counts, reported.
  assert (represents (set_token_status_overflow m) c) as Hs.
  { eapply represents_frame; [|done]. intros k Hk _. unfold set_token_status_overflow. rewrite room by token_key.
    apply lookup_insert_ne. intros <-. unfold count_keys in Hk. rewrite !elem_of_cons, elem_of_nil in Hk. by destruct_or! Hk. }
  pose proof Hm as (Hi&Ho&_). rewrite (slot_is_Some _ _ _ Hi), (slot_is_Some _ _ _ Ho).
  destruct dropped, (_ || _); rewrite ?(read_represents _ _ Hs), ?(read_represents m c) by done;
    by rewrite ?clear_publish, ?clear_status.
Qed.

(** ** Streams *)

Section Stream.
Context (p : ProviderKind) (max : N) (max_u64 : max <= u64_max).

Definition sse_chunks (m : Metadata) (cs : list bytes) : Metadata :=
  foldl (fun m c => handle_sse_body from_slice m (Some c) false p max) m cs.

Lemma scan_key_not_count k : k ∈ scan_keys -> k ∉ count_keys.
Proof.
  unfold scan_keys, count_keys. rewrite !elem_of_cons, !elem_of_nil. intros Hk Hc.
  destruct_or! Hk; subst k; by destruct_or! Hc.
Qed.

Lemma count_key_not_scan k : k ∈ count_keys -> k ∉ scan_keys.
Proof. intros Hc Hs. by apply (scan_key_not_count k). Qed.

Lemma count_key_working k : working k = false -> k ∉ count_keys.
Proof.
  intros Hk Hc. unfold count_keys in Hc. rewrite !elem_of_cons, elem_of_nil in Hc. by destruct_or! Hc; subst k.
Qed.

Lemma scan_key_working k : working k = false -> k ∉ scan_keys.
Proof.
  intros Hk Hc. unfold scan_keys in Hc. rewrite !elem_of_cons, elem_of_nil in Hc. by destruct_or! Hc; subst k.
Qed.

Lemma sse_chunk_step m c chunk :
  scan_inv max (load_sse_scan_state m) -> represents m c ->
  let '(s, r) := scan_sse_chunk (load_sse_scan_state m) chunk max in
  let m' := handle_sse_body from_slice m (Some chunk) false p max in
  load_sse_scan_state m' = s /\ scan_inv max s /\
  represents m' (foldl (count_payload from_slice p) c (payloads r)) /\
  (forall k, k ∉ count_keys -> k ∉ scan_keys -> m' !! k = m !! k).
Proof.
  intros Hi Hm. destruct (inv_reads _ _ Hi) as (mo & acc & Hr).
  destruct (scan_chunk_read max chunk _ _ _ Hi Hr) as [_ Hi1]. unfold handle_sse_body.
  destruct (scan_sse_chunk _ _ _) as [s r]. cbn [fst] in Hi1. split_and!; [|done|..].
  - apply count_load_save_scan. destruct Hi1 as (Hk & -> & _). lia.
  - eapply represents_frame; [|by apply payloads_represent].
    intros k Hk _. by apply save_scan_frame, count_key_not_scan.
  - intros k Hc Hs. rewrite save_scan_frame by done. by apply payloads_frame.
Qed.

Lemma sse_chunks_scan cs m c :
  scan_inv max (load_sse_scan_state m) -> represents m c ->
  let '(s, r) := scan_chunks (load_sse_scan_state m) cs max in
  load_sse_scan_state (sse_chunks m cs) = s /\
  represents (sse_chunks m cs) (foldl (count_payload from_slice p) c (payloads r)) /\
  (forall k, k ∉ count_keys -> k ∉ scan_keys -> sse_chunks m cs !! k = m !! k).
Proof.
  revert m c. induction cs as [|x cs IH]; intros m c Hi Hm; [done|]. cbn [scan_chunks].
  pose proof (sse_chunk_step m c x Hi Hm) as Hx. destruct (scan_sse_chunk _ _ _) as [s r].
  destruct Hx as (Hs & Hi1 & Hr & Hf). unfold sse_chunks. cbn [foldl].
  fold (sse_chunks (handle_sse_body from_slice m (Some x) false p max) cs).
  specialize (IH _ _ (eq_ind_r _ Hi1 Hs) Hr). rewrite Hs in IH.
  destruct (scan_chunks s cs max) as [s2 r2]. destruct IH as (H1 & H2 & H3). cbn [payloads].
  rewrite foldl_app. split_and!; [done|done|]. intros k Hc Hk. by rewrite H3, Hf.
Qed.

Lemma sse_end m c :
  represents m c ->
  handle_sse_body from_slice m None true p max =
  (let '(s, pending) := flush_sse_state (load_sse_scan_state m) [] in
   finish_counts (clear_all_metadata m) (foldl (count_payload from_slice p) c pending) (bool_decide (tail s = Dropped))).
Proof.
  intros Hm. unfold handle_sse_body. destruct (flush_sse_state _ _) as [s pending].
  rewrite (finalize_represents _ (foldl (count_payload from_slice p) c pending)) by (by apply payloads_represent).
  f_equal. apply clear_agree. intros k Hk. by apply payloads_frame, count_key_working.
Qed.
End Stream.

(** ** Hooks *)

Section Hooks.
Context (f : TokenCountFilter).

(** The provider of a response. *)
Definition resolve (path : string) : option ProviderKind :=
  match provider f with Auto => for_path path | other => Some other end.

(** The calls of the body hook: the last one ends the stream. *)
Definition body_calls (cs : list bytes) (last : option bytes) : list (option bytes * bool) :=
  ((fun c => (Some c, false)) <$> cs) ++ [(last, true)].

Definition ready (p : ProviderKind) (mode : string) (m : Metadata) : Prop :=
  m !! META_MODE = Some mode /\ p <> BedrockInvokeModel /\
  (match provider f with Auto => m !! META_PROVIDER ≫= from_meta | other => Some other end) = Some p.

Lemma ready_frame p mode m m' :
  m' !! META_MODE = m !! META_MODE -> m' !! META_PROVIDER = m !! META_PROVIDER -> ready p mode m -> ready p mode m'.
Proof. unfold ready. by intros -> ->. Qed.

Lemma for_path_meta path p : for_path path = Some p -> from_meta (kind_as_str p) = Some p.
Proof. unfold for_path. intros Hp. repeat case_match; by simplify_eq. Qed.

Lemma response_ready m path r ct p mode :
  is_success r = true -> resolve path = Some p -> p <> BedrockInvokeModel -> header_str r "content-type" = Some ct ->
  (if is_event_stream_content_type ct then mode = "sse"%string
   else is_json_content_type ct = true /\ mode = "json"%string) ->
  ready p mode (on_response f m path r) /\
  (forall k, k ∉ [META_MODE; META_PROVIDER] -> on_response f m path r !! k = clear_all_metadata m !! k).
Proof.
  intros Hs Hp Hb Hct Hmode. unfold on_response. rewrite Hs, Hct. cbn [negb]. unfold resolve in Hp. rewrite Hp.
  rewrite bool_decide_eq_false_2 by done.
  assert (forall mo, ready p mo (if bool_decide (provider f = Auto) then <[META_PROVIDER := kind_as_str p]>
            (<[META_MODE := mo]> (clear_all_metadata m)) else <[META_MODE := mo]> (clear_all_metadata m)) /\
          (forall k, k ∉ [META_MODE; META_PROVIDER] ->
            (if bool_decide (provider f = Auto) then <[META_PROVIDER := kind_as_str p]>
              (<[META_MODE := mo]> (clear_all_metadata m)) else <[META_MODE := mo]> (clear_all_metadata m)) !! k
            = clear_all_metadata m !! k)) as Hready.
  { intros mo. split.
    - split_and!; [by case_bool_decide; meta|done|]. destruct (provider f) eqn:E; try done.
      rewrite bool_decide_eq_true_2 by done. rewrite lookup_insert_eq. by apply (for_path_meta path).
    - intros k Hk. rewrite !not_elem_of_cons in Hk. destruct Hk as (? & ? & _).
      case_bool_decide; by rewrite !lookup_insert_ne by congruence. }
  destruct (is_event_stream_content_type ct); [subst mode; apply Hready|].
  destruct Hmode as [-> ->]. apply Hready.
Qed.

Lemma body_sse p m b eos buffered :
  ready p "sse" m ->
  on_response_body from_slice get_metadata f m b eos buffered = handle_sse_body from_slice m b eos p (max_scratch_bytes f).
Proof.
  intros (Hm & Hb & Hp). unfold on_response_body. rewrite !get_metadata_spec, Hp, Hm.
  by rewrite bool_decide_eq_false_2.
Qed.

Lemma body_json p m b eos buffered :
  ready p "json" m ->
  on_response_body from_slice get_metadata f m b eos buffered = handle_json_body from_slice m b eos buffered p (max_body_bytes f).
Proof.
  intros (Hm & Hb & Hp). unfold on_response_body. rewrite !get_metadata_spec, Hp, Hm.
  by rewrite bool_decide_eq_false_2.
Qed.

Lemma response_body_app buffered m a c :
  response_body from_slice get_metadata f buffered m (a ++ c) =
  response_body from_slice get_metadata f buffered (response_body from_slice get_metadata f buffered m a) c.
Proof. apply foldl_app. Qed.

(** After the end of a capture the remaining calls do nothing. *)
Lemma body_idle m b eos buffered : m !! META_MODE = None -> on_response_body from_slice get_metadata f m b eos buffered = m.
Proof. intros Hm. unfold on_response_body. rewrite !get_metadata_spec, Hm. repeat case_match; done. Qed.

Lemma bodies_idle m calls buffered : m !! META_MODE = None -> response_body from_slice get_metadata f buffered m calls = m.
Proof. intros Hm. induction calls as [|c calls IH]; [done|]. cbn. by rewrite body_idle. Qed.

Lemma count_sse_calls p buffered cs m :
  ready p "sse" m -> max_scratch_bytes f <= u64_max ->
  scan_inv (max_scratch_bytes f) (load_sse_scan_state m) -> represents m no_counts ->
  response_body from_slice get_metadata f buffered m ((fun c => (Some c, false)) <$> cs) =
    sse_chunks p (max_scratch_bytes f) m cs /\
  ready p "sse" (sse_chunks p (max_scratch_bytes f) m cs).
Proof.
  intros Hm Hmax Hi Hr. revert Hi Hr. generalize no_counts. revert m Hm.
  induction cs as [|x cs IH]; intros m Hm c Hi Hr; [done|].
  pose proof (sse_chunk_step p _ Hmax m c x Hi Hr) as Hx. destruct (scan_sse_chunk _ _ _) as [s r].
  destruct Hx as (Hs & Hi1 & Hr1 & Hf). unfold sse_chunks, response_body. cbn [foldl fmap list_fmap fst snd].
  rewrite (body_sse p) by done. eapply IH; [|by rewrite Hs|exact Hr1].
  by eapply ready_frame; [apply Hf; compute_done..|].
Qed.

(** The state a response starts from, when no working key is left. *)
Lemma fresh_state m m0 :
  (forall k, k ∉ [META_MODE; META_PROVIDER] -> m !! k = clear_all_metadata m0 !! k) ->
  load_sse_scan_state m = scan_default /\ represents m no_counts /\ m !! META_BUF_HEX = None /\ m !! META_BUF_BYTES = None.
Proof.
  intros Hm. assert (forall k, working k = true -> k ∉ [META_MODE; META_PROVIDER] -> m !! k = None) as Hnone.
  { intros k Hw Hk. by rewrite Hm, clear_lookup, Hw. }
  split_and!; try (apply Hnone; compute_done).
  - unfold load_sse_scan_state. by rewrite !Hnone by compute_done.
  - split_and!; split; try (apply Hnone; compute_done); apply opt_u64_None.
Qed.

Lemma clear_response m m0 :
  (forall k, k ∉ [META_MODE; META_PROVIDER] -> m !! k = clear_all_metadata m0 !! k) ->
  clear_all_metadata m = clear_all_metadata m0.
Proof.
  intros Hm. rewrite <- (clear_idem m0). apply clear_agree. intros k Hk. apply Hm.
  rewrite !not_elem_of_cons. split_and!; [by intros ->..|apply not_elem_of_nil].
Qed.

Lemma sse_end_last p m b : 
  handle_sse_body from_slice m b true p (max_scratch_bytes f) =
  handle_sse_body from_slice (sse_chunks p (max_scratch_bytes f) m (option_list b)) None true p (max_scratch_bytes f).
Proof. by destruct b. Qed.

(** The metadata at the end of a streamed response. *)
Lemma streamed_counts m path r ct p buffered cs last :
  max_scratch_bytes f <= u64_max ->
  is_success r = true -> resolve path = Some p -> p <> BedrockInvokeModel ->
  header_str r "content-type" = Some ct -> is_event_stream_content_type ct = true ->
  response_body from_slice get_metadata f buffered (on_response f m path r) (body_calls cs last) =
  (let '(s, res) := scan_chunks scan_default (cs ++ option_list last) (max_scratch_bytes f) in
   let '(s', pending) := flush_sse_state s [] in
   finish_counts (clear_all_metadata m) (foldl (count_payload from_slice p) no_counts (payloads res ++ pending))
     (bool_decide (tail s' = Dropped))).
Proof.
  intros Hmax Hs Hp Hb Hct Hsse.
  destruct (response_ready m path r ct p "sse" Hs Hp Hb Hct) as [Hready Hk]; [by rewrite Hsse|].
  destruct (fresh_state _ _ Hk) as (Hload & Hrep & _). rewrite <- (clear_response _ _ Hk).
  revert Hready Hload Hrep. generalize (on_response f m path r). clear dependent m. intros m Hready Hload Hrep.
  assert (scan_inv (max_scratch_bytes f) (load_sse_scan_state m)) as Hi by (rewrite Hload; apply scan_default_inv).
  destruct (count_sse_calls p buffered cs m Hready Hmax Hi Hrep) as [Hcalls Hready'].
  unfold body_calls. rewrite response_body_app, Hcalls. unfold response_body. cbn [foldl fst snd]. rewrite (body_sse p), sse_end_last by done.
  unfold sse_chunks. rewrite <- foldl_app. fold (sse_chunks p (max_scratch_bytes f) m (cs ++ option_list last)).
  pose proof (sse_chunks_scan p _ Hmax (cs ++ option_list last) m no_counts Hi Hrep) as Hscan. rewrite Hload in Hscan.
  destruct (scan_chunks scan_default _ _) as [s res]. destruct Hscan as (Hs' & Hr' & Hf).
  rewrite (sse_end p _ _ _ Hr'), Hs'. destruct (flush_sse_state s []) as [s' pending]. rewrite foldl_app. f_equal.
  apply clear_agree. intros k Hw. apply Hf; [apply count_key_working|apply scan_key_working]; done.
Qed.

(** ** Buffered documents *)

(** The bytes captured so far. *)
Definition buffer (m : Metadata) (data : bytes) : Prop :=
  (m !! META_BUF_HEX = Some (encode_hex data) \/ (m !! META_BUF_HEX = None /\ data = [])) /\
  default 0 (m !! META_BUF_BYTES ≫= parse_usize) = nlen data.

Section Json.
Context (max_small : max_body_bytes f < u64_max).

Lemma accumulate_spec m data chunk :
  buffer m data -> nlen data <= max_body_bytes f ->
  if max_body_bytes f <? nlen (data ++ chunk) then accumulate_response_hex m chunk (max_body_bytes f) = None
  else exists m', accumulate_response_hex m chunk (max_body_bytes f) = Some m' /\ buffer m' (data ++ chunk) /\
       (forall k, k <> META_BUF_HEX -> k <> META_BUF_BYTES -> m' !! k = m !! k).
Proof.
  intros [Hhex Hlen] Hle. unfold accumulate_response_hex. rewrite Hlen, nlen_app. unfold saturating_add.
  assert ((max_body_bytes f <? N.min (nlen data + nlen chunk) u64_max) = (max_body_bytes f <? nlen data + nlen chunk)) as ->.
  { apply eq_bool_prop_intro. rewrite !Is_true_true, !N.ltb_lt. lia. }
  destruct (N.ltb_spec (max_body_bytes f) (nlen data + nlen chunk)); [done|]. eexists. split; [done|]. split.
  - split; meta.
    + left. rewrite encode_hex_app. by destruct Hhex as [->|[-> ->]].
    + cbn [mbind option_bind]. rewrite parse_usize_to_string by lia. by rewrite nlen_app.
  - intros k ? ?. by rewrite !lookup_insert_ne.
Qed.

Definition overflowed (m : Metadata) : Metadata := set_token_status_overflow (clear_all_metadata m).

Lemma overflowed_mode m : overflowed m !! META_MODE = None.
Proof.
  unfold overflowed, set_token_status_overflow. rewrite room by token_key.
  rewrite lookup_insert_ne by discriminate. apply clear_lookup.
Qed.

Lemma json_overflow p m b eos buffered :
  ready p "json" m -> (if eos && buffered then b else None) = None ->
  (exists c, b = Some c /\ accumulate_response_hex m c (max_body_bytes f) = None) ->
  on_response_body from_slice get_metadata f m b eos buffered = overflowed m.
Proof.
  intros Hm Hb (c & -> & Hc). rewrite (body_json p) by done. unfold handle_json_body. rewrite Hb, Hc.
  apply clear_status.
Qed.

Lemma json_step p m c buffered m' :
  ready p "json" m -> accumulate_response_hex m c (max_body_bytes f) = Some m' ->
  on_response_body from_slice get_metadata f m (Some c) false buffered = m'.
Proof. intros Hm Hc. rewrite (body_json p) by done. unfold handle_json_body. cbn [andb]. by rewrite Hc. Qed.

Lemma capture_clear m m' :
  (forall k, k <> META_BUF_HEX -> k <> META_BUF_BYTES -> m' !! k = m !! k) -> clear_all_metadata m' = clear_all_metadata m.
Proof. intros Hf. apply clear_agree. intros k Hk. apply Hf; by intros ->. Qed.

Lemma json_chunks p buffered cs m data :
  ready p "json" m -> buffer m data -> nlen data <= max_body_bytes f ->
  let m' := response_body from_slice get_metadata f buffered m ((fun c => (Some c, false)) <$> cs) in
  if max_body_bytes f <? nlen (data ++ concat cs) then m' = overflowed m
  else ready p "json" m' /\ buffer m' (data ++ concat cs) /\ clear_all_metadata m' = clear_all_metadata m.
Proof.
  revert m data. induction cs as [|c cs IH]; intros m data Hm Hd Hle.
  { cbn. rewrite app_nil_r. by destruct (N.ltb_spec (max_body_bytes f) (nlen data)); [lia|]. }
  cbn [fmap list_fmap concat]. unfold response_body. cbn [foldl fst snd]. fold (response_body from_slice get_metadata f buffered).
  pose proof (accumulate_spec m data c Hd Hle) as Hacc. rewrite app_assoc.
  destruct (N.ltb_spec (max_body_bytes f) (nlen (data ++ c))) as [Hlt|Hge].
  - rewrite (json_overflow p) by eauto. rewrite (proj2 (N.ltb_lt _ _)) by (rewrite nlen_app; lia).
    apply bodies_idle, overflowed_mode.
  - destruct Hacc as (m1 & Hacc & Hd1 & Hf). rewrite (json_step p _ _ _ _ Hm Hacc).
    rewrite <- (capture_clear _ _ Hf). replace (overflowed m) with (overflowed m1).
    2:{ unfold overflowed. by rewrite (capture_clear _ _ Hf). }
    apply IH; [|done|done]. by eapply ready_frame; [apply Hf; discriminate..|].
Qed.

Hypothesis parse_empty : from_slice [] = None.

Lemma record_json_clear m p data :
  clear_all_metadata (record_json_usage from_slice m p data) =
  match extract_token_usage from_slice p data with
  | Some u => publish_token_usage (clear_all_metadata m) u
  | None => clear_all_metadata m
  end.
Proof.
  assert (clear_all_metadata (record_finish_reason_once from_slice m data p) = clear_all_metadata m) as Hf.
  { apply clear_agree. intros k Hk. apply finish_frame. by intros ->. }
  unfold record_json_usage. destruct (extract_token_usage _ _ _); by rewrite ?clear_publish, Hf.
Qed.

Lemma extract_empty p : extract_token_usage from_slice p [] = None.
Proof.
  destruct p; unfold extract_token_usage, parse_openai, parse_google, parse_bedrock, parse_anthropic; by rewrite ?parse_empty.
Qed.

Lemma json_end p m data :
  ready p "json" m -> buffer m data -> nlen data <= max_body_bytes f ->
  on_response_body from_slice get_metadata f m None true false =
  finish_json from_slice p (max_body_bytes f) (clear_all_metadata m) data.
Proof.
  intros Hm [Hd _] Hle. rewrite (body_json p) by done. unfold handle_json_body, finish_json. cbn [andb].
  rewrite (proj2 (N.ltb_ge _ _)) by done. destruct Hd as [->|[-> ->]].
  - cbn [mbind option_bind]. rewrite decode_encode. apply record_json_clear.
  - by rewrite extract_empty.
Qed.

(** A last chunk that ends the stream is a chunk and then the end. *)
Lemma json_end_last p m c :
  ready p "json" m ->
  on_response_body from_slice get_metadata f m (Some c) true false =
  response_body from_slice get_metadata f false m [(Some c, false); (None, true)].
Proof.
  intros Hm. unfold response_body. cbn [foldl fst snd]. destruct (accumulate_response_hex m c (max_body_bytes f)) as [m'|] eqn:E.
  - assert (ready p "json" m') as Hm'.
    { unfold accumulate_response_hex in E. case_match; [done|]. injection E as <-.
      by eapply ready_frame; [by rewrite !lookup_insert_ne by discriminate..|]. }
    rewrite (json_step p _ _ _ _ Hm E), !(body_json p) by done. unfold handle_json_body. cbn [andb]. by rewrite E.
  - rewrite !(json_overflow p m) by eauto. symmetry. apply body_idle, overflowed_mode.
Qed.

Lemma json_last_split p m cs last :
  ready p "json" m -> buffer m [] ->
  response_body from_slice get_metadata f false m (body_calls cs last) =
  response_body from_slice get_metadata f false m (((fun c => (Some c, false)) <$> cs ++ option_list last) ++ [(None, true)]).
Proof.
  intros Hm Hd. unfold body_calls. destruct last as [c|]; [|change (option_list (@None bytes)) with (@nil bytes); by rewrite app_nil_r].
  rewrite fmap_app, <- app_assoc, !response_body_app.
  pose proof (json_chunks p false cs m [] Hm Hd (N.le_0_l _)) as Hchunks. cbn zeta in Hchunks.
  destruct (N.ltb_spec (max_body_bytes f) (nlen ([] ++ concat cs))).
  - rewrite Hchunks. by rewrite !(bodies_idle (overflowed m)) by apply overflowed_mode.
  - destruct Hchunks as (Hr & _). cbn [option_list from_option fmap list_fmap].
    unfold response_body at 1. cbn [foldl fst snd]. by apply (json_end_last p).
Qed.

Lemma json_not_sse ct : is_json_content_type ct = true -> is_event_stream_content_type ct = false.
Proof.
  unfold is_json_content_type, is_event_stream_content_type, media_type_is, eq_ignore_ascii_case.
  destruct (split_on _ ct) as [|media]; [done|]. intros ->%bool_decide_eq_true. done.
Qed.

(** Token counts of a JSON response: in any chunks, with or without a last
    chunk at the end of the stream, a successful response publishes the usage of
    its whole body, or nothing when the body reports none, or the overflow
    status and no counts when it is longer than the capture limit; a chain that
    redelivers the buffered body at the end publishes the same. *)
Theorem json_usage_published m path r ct p cs last :
  is_success r = true -> resolve path = Some p -> p <> BedrockInvokeModel ->
  header_str r "content-type" = Some ct -> is_json_content_type ct = true ->
  response_body from_slice get_metadata f false (on_response f m path r) (body_calls cs last) =
    finish_json from_slice p (max_body_bytes f) (clear_all_metadata m) (concat (cs ++ option_list last)) /\
  response_body from_slice get_metadata f true (on_response f m path r) (body_calls cs (Some (concat cs))) =
    finish_json from_slice p (max_body_bytes f) (clear_all_metadata m) (concat cs).
Proof.
  intros Hs Hp Hb Hct Hjson.
  destruct (response_ready m path r ct p "json" Hs Hp Hb Hct) as [Hready Hk]; [by rewrite json_not_sse|].
  destruct (fresh_state _ _ Hk) as (_ & _ & Hhex & Hbytes). rewrite <- (clear_response _ _ Hk).
  revert Hready Hhex Hbytes. generalize (on_response f m path r). clear dependent m. intros m Hm Hhex Hbytes.
  assert (buffer m []) as Hd by (split; [by right|by rewrite Hbytes]).
  assert (forall buffered cs, _) as Hchunks by (intros buffered cs'; exact (json_chunks p buffered cs' m [] Hm Hd (N.le_0_l _))).
  cbn zeta in Hchunks. unfold finish_json. split.
  - rewrite (json_last_split p) by done.
    rewrite response_body_app. specialize (Hchunks false (cs ++ option_list last)). cbn [app] in Hchunks.
    destruct (N.ltb_spec (max_body_bytes f) (nlen (concat (cs ++ option_list last)))).
    + rewrite Hchunks. apply bodies_idle, overflowed_mode.
    + destruct Hchunks as (Hr & Hbuf & <-). unfold response_body at 1. cbn [foldl fst snd].
      rewrite (json_end p _ _ Hr Hbuf) by done. unfold finish_json. by rewrite (proj2 (N.ltb_ge _ _)).
  - unfold body_calls. rewrite response_body_app. specialize (Hchunks true cs). cbn [app] in Hchunks.
    destruct (N.ltb_spec (max_body_bytes f) (nlen (concat cs))).
    + rewrite Hchunks. apply bodies_idle, overflowed_mode.
    + destruct Hchunks as (Hr & Hbuf & <-). unfold response_body at 1. cbn [foldl fst snd].
      rewrite (body_json p) by done. apply record_json_clear.
Qed.
End Json.
End Hooks.
End Responses.

(** * Streamed responses *)

(** What a count that was reported, or not, leaves under its key. *)
Definition written (v : option N) (old : option string) : option string :=
  match v with Some n => Some (usize_to_string n) | None => old end.

(** The keys after the end of a stream, in a context that keeps every entry. *)
Lemma finish_counts_keys m c dropped :
  let u := usage_of c in
  let m' := @finish_counts keeps_all (clear_all_metadata m) c dropped in
  (forall k, working k = true -> m' !! k = None) /\
  (forall k, working k = false -> k ∉ token_keys -> m' !! k = m !! k) /\
  m' !! META_TOKEN_STATUS = (if dropped then Some "overflow"%string else m !! META_TOKEN_STATUS) /\
  if reported c then
    m' !! META_TOKEN_INPUT = Some (usize_to_string (u_input u)) /\
    m' !! META_TOKEN_OUTPUT = Some (usize_to_string (u_output u)) /\
    m' !! META_TOKEN_TOTAL = Some (usize_to_string (u_total u)) /\
    m' !! META_TOKEN_CACHE_READ = written (u_cache_read u) (m !! META_TOKEN_CACHE_READ) /\
    m' !! META_TOKEN_CACHE_WRITE = written (u_cache_write u) (m !! META_TOKEN_CACHE_WRITE) /\
    m' !! META_TOKEN_REASONING = written (u_reasoning u) (m !! META_TOKEN_REASONING)
  else forall k, k ∈ token_keys -> k <> META_TOKEN_STATUS -> m' !! k = m !! k.
Proof.
  intros u m'. subst m'. unfold finish_counts. fold u.
  assert (forall k, k ∈ token_keys -> working k = false) as Htok.
  { intros k Hk. unfold token_keys in Hk. rewrite !elem_of_cons, elem_of_nil in Hk. by destruct_or! Hk; subst k. }
  assert (forall m k, k ∉ token_keys ->
    (let m1 := if dropped then @set_token_status_overflow keeps_all m else m in
     if reported c then @publish_token_usage keeps_all m1 u else m1) !! k = m !! k) as Hframe.
  { clear. intros m k Hk. unfold token_keys in Hk. rewrite !not_elem_of_cons in Hk. destruct Hk as (?&?&?&?&?&?&?&_).
    unfold publish_token_usage, set_token_usage, set_cache_token_usage, set_reasoning_token_usage, set_optional_count,
      set_token_status_overflow. cbn [set_metadata keeps_all].
    destruct dropped, (reported c), (u_cache_read u), (u_cache_write u), (u_reasoning u);
      rewrite ?lookup_insert_ne by congruence; done. }
  assert (forall k, k ∈ token_keys -> clear_all_metadata m !! k = m !! k) as Hclear
    by (intros k Hk; by rewrite clear_lookup, Htok).
  split_and!.
  - intros k Hk. rewrite Hframe; [by rewrite clear_lookup, Hk|]. intros ?%Htok. congruence.
  - intros k Hk Hnot. rewrite Hframe by done. by rewrite clear_lookup, Hk.
  - rewrite <- (Hclear META_TOKEN_STATUS) by compute_done.
    unfold publish_token_usage, set_token_usage, set_cache_token_usage, set_reasoning_token_usage, set_optional_count,
      set_token_status_overflow. cbn [set_metadata keeps_all].
    destruct dropped, (reported c), (u_cache_read u), (u_cache_write u), (u_reasoning u);
      rewrite ?lookup_insert_ne by discriminate; rewrite ?lookup_insert_eq; done.
  - destruct (reported c).
    + rewrite <- (Hclear META_TOKEN_CACHE_READ), <- (Hclear META_TOKEN_CACHE_WRITE), <- (Hclear META_TOKEN_REASONING) by compute_done.
      unfold publish_token_usage, set_token_usage, set_cache_token_usage, set_reasoning_token_usage, set_optional_count,
        set_token_status_overflow, written. cbn [set_metadata keeps_all default from_option id].
      destruct dropped, (u_cache_read u), (u_cache_write u), (u_reasoning u); split_and!;
        repeat first [rewrite lookup_insert_eq; done | rewrite lookup_insert_ne by discriminate]; done.
    + intros k Hk Hs. rewrite <- Hclear by done. destruct dropped; [|done].
      unfold set_token_status_overflow. cbn [set_metadata keeps_all]. by rewrite lookup_insert_ne by congruence.
Qed.

(** C31. Token counts of a streamed response: for every successful event stream
    of a provider read from its body, after any earlier attempt and in whatever
    chunks it arrives, when the context refuses none of the published entries:
    no working state is left, the entries of others stand, and the counts are
    those of the events an uninterrupted scan of the chunks and its final flush
    deliver, when any of them reported input or output (cache and reasoning
    counts no event reported keep the entry they had).  The status is the
    overflow one when the scan ended by discarding an event, and otherwise the
    entry the request had, absent unless an earlier attempt set it. *)
Theorem streamed_usage_published `{MetadataApi} from_slice get_metadata f m path r ct p buffered cs last :
  (forall m k, get_metadata m k = m !! k) ->
  response_body from_slice get_metadata f buffered (on_response f m path r) (body_calls cs last) =
    @response_body keeps_all from_slice get_metadata f buffered (@on_response keeps_all f m path r) (body_calls cs last) ->
  max_scratch_bytes f <= u64_max ->
  is_success r = true -> resolve f path = Some p -> p <> BedrockInvokeModel ->
  header_str r "content-type" = Some ct -> is_event_stream_content_type ct = true ->
  let '(s, res) := scan_chunks scan_default (cs ++ option_list last) (max_scratch_bytes f) in
  let '(s', pending) := flush_sse_state s [] in
  let c := foldl (count_payload from_slice p) no_counts (payloads res ++ pending) in
  let u := usage_of c in
  let m' := response_body from_slice get_metadata f buffered (on_response f m path r) (body_calls cs last) in
  (forall k, working k = true -> m' !! k = None) /\
  (forall k, working k = false -> k ∉ token_keys -> m' !! k = m !! k) /\
  m' !! META_TOKEN_STATUS = (if bool_decide (tail s' = Dropped) then Some "overflow"%string else m !! META_TOKEN_STATUS) /\
  if reported c then
    m' !! META_TOKEN_INPUT = Some (usize_to_string (u_input u)) /\
    m' !! META_TOKEN_OUTPUT = Some (usize_to_string (u_output u)) /\
    m' !! META_TOKEN_TOTAL = Some (usize_to_string (u_total u)) /\
    m' !! META_TOKEN_CACHE_READ = written (u_cache_read u) (m !! META_TOKEN_CACHE_READ) /\
    m' !! META_TOKEN_CACHE_WRITE = written (u_cache_write u) (m !! META_TOKEN_CACHE_WRITE) /\
    m' !! META_TOKEN_REASONING = written (u_reasoning u) (m !! META_TOKEN_REASONING)
  else forall k, k ∈ token_keys -> k <> META_TOKEN_STATUS -> m' !! k = m !! k.
Proof.
  intros Hget Hstore Hmax Hs Hp Hb Hct Hsse. rewrite Hstore.
  rewrite (@streamed_counts keeps_all from_slice get_metadata Hget (fun _ _ _ _ => eq_refl) f m path r ct p buffered cs last Hmax Hs Hp Hb Hct Hsse).
  destruct (scan_chunks scan_default _ _) as [s res]. destruct (flush_sse_state s []) as [s' pending]. apply finish_counts_keys.
Qed.

(** * Streaming and buffered accounting *)

(** An Anthropic message is billed alike streamed and buffered: when its
    [message_start] and [message_delta] events carry the usage of the complete
    document, the counts accumulated from the two events are the usage parsed
    from the document. *)
Theorem anthropic_stream_agrees (from_slice : bytes -> option Json) body s d a :
  from_slice (bstr "[DONE]") = None ->
  from_slice body ≫= de_anthropic_response = Some (Some a) ->
  from_slice s ≫= de_message_start =
    Some (mkMessageStart (Some (Some (mkStartUsage (au_input_tokens a) (au_cache_creation a) (au_cache_read a))))
            (Some "message_start"%string)) ->
  from_slice d ≫= de_message_delta =
    Some (mkMessageDelta (Some "message_delta"%string) (Some (mkDeltaUsage (au_output_tokens a) (au_output_details a)))) ->
  parse_anthropic from_slice s = None -> parse_anthropic from_slice d = None ->
  parse_anthropic_message_start from_slice d = None ->
  parse_anthropic from_slice body =
    Some (usage_of (foldl (count_payload from_slice Anthropic) no_counts [s; d])).
Proof.
  intros Hdone Hbody Hs Hd Hs0 Hd0 Hd1.
  assert (s <> bstr "[DONE]" /\ d <> bstr "[DONE]") as [Hsn Hdn] by (split; intros ->; by rewrite Hdone in *).
  cbn [foldl]. unfold count_payload. rewrite !bool_decide_eq_false_2 by done. cbn [extract_token_usage].
  rewrite Hs0, Hd0. cbn [extract_streaming_tokens]. unfold parse_anthropic_event at 2. rewrite Hd1.
  assert (parse_anthropic_event from_slice s =
    mkTokens (Some (saturating_add (saturating_add (au_input_tokens a) (default 0 (au_cache_creation a)))
                      (default 0 (au_cache_read a)))) None (au_cache_read a) (au_cache_creation a) None) as ->
    by (unfold parse_anthropic_event, parse_anthropic_message_start; by rewrite Hs).
  unfold parse_anthropic_message_delta. rewrite Hd. unfold parse_anthropic. rewrite Hbody.
  unfold count_partial, usage_of. cbn [mbind option_bind default no_counts c_input c_output c_total c_cache_read c_cache_write c_reasoning].
  cbn [md_event_type md_usage t_input t_output t_cache_read t_cache_write t_reasoning ad_output_tokens ad_output_details].
  by rewrite !merge_None.
Qed.

(** * A concrete message *)

Module CountSample.

Definition num (n : N) : Json := JNumber (PosInt n).

(** A reader of a few documents, each written as one letter. *)
Definition read (b : bytes) : option Json :=
  match b with
  | [x53] => Some (JObject [("type", JString "message_start");
                            ("message", JObject [("usage", JObject [("input_tokens", num 7);
                                                                    ("cache_read_input_tokens", num 3)])])])%string
  | [x44] => Some (JObject [("type", JString "message_delta"); ("usage", JObject [("output_tokens", num 5)])])%string
  | [x42] => Some (JObject [("usage", JObject [("input_tokens", num 7); ("cache_read_input_tokens", num 3);
                                               ("output_tokens", num 5)])])%string
  | [x43] => Some (JObject [("usage", JObject [("input_tokens", num 5); ("output_tokens", num 1)])])%string
  | _ => None
  end.

#[local] Instance store : MetadataApi.
Proof. refine {| set_metadata m k v := <[k := v]> m |}. by left. Defined.

Definition lookup_meta (m : Metadata) (k : string) : option string := m !! k.

Definition counter : TokenCountFilter := mkCounter Auto 16 64.
Definition head_of (ct : string) : option ResponseHead := Some (mkHead 200 [("content-type"%string, Some ct)]).
(** What an aborted attempt left. *)
Definition stale : Metadata := <[META_INPUT := "99"%string]> (<["route"%string := "a"%string]> ∅).

(** A context that refuses values of more than eight bytes. *)
Definition small_store : MetadataApi.
Proof.
  refine {| set_metadata m k v := if (String.length v <=? 8)%nat then <[k := v]> m else m |}.
  intros m k v. destruct (_ <=? _)%nat; [by left|by right].
Defined.

Lemma streamed_usage_published_witness :
  let m' := @response_body small_store read lookup_meta counter false
    (@on_response small_store counter stale "/v1/messages" (head_of "text/event-stream; charset=utf-8"))
    (body_calls [bstr "data: S"; [LF; LF]; bstr "data: D"] None) in
  m' !! META_TOKEN_STATUS = None /\ m' !! META_TOKEN_INPUT = Some "10"%string /\ m' !! META_TOKEN_OUTPUT = Some "5"%string /\
  m' !! META_TOKEN_TOTAL = Some "15"%string /\ m' !! META_TOKEN_CACHE_READ = Some "3"%string.
Proof.
  intros m'.
  pose proof (@streamed_usage_published small_store read lookup_meta counter
    stale "/v1/messages" (head_of "text/event-stream; charset=utf-8") "text/event-stream; charset=utf-8" Anthropic false
    [bstr "data: S"; [LF; LF]; bstr "data: D"] None (fun m k => eq_refl) ltac:(vm_compute; reflexivity)
    ltac:(vm_compute; congruence) ltac:(vm_compute; reflexivity) ltac:(vm_compute; reflexivity) ltac:(discriminate)
    ltac:(vm_compute; reflexivity) ltac:(vm_compute; reflexivity)) as Hall.
  destruct (scan_chunks scan_default _ _) as [s res] eqn:Es. destruct (flush_sse_state s []) as [s' pending] eqn:Ef.
  vm_compute in Es. injection Es as <- <-. vm_compute in Ef. injection Ef as <- <-.
  destruct Hall as (_ & _ & Hst & Hi & Ho & Ht & Hc & _).
  split; [exact Hst|]. split; [exact Hi|]. split; [exact Ho|]. split; [exact Ht|exact Hc].
Defined.

Lemma json_usage_published_witness :
  response_body read lookup_meta counter false
    (on_response counter stale "/v1/messages" (head_of "application/json")) (body_calls [] (Some [x42])) =
  <[META_TOKEN_CACHE_READ := "3"]> (<[META_TOKEN_TOTAL := "15"]> (<[META_TOKEN_OUTPUT := "5"]>
    (<[META_TOKEN_INPUT := "10"]> (<["route" := "a"]> ∅))))%string.
Proof.
  rewrite (proj1 (json_usage_published (H := store) read lookup_meta (fun m k => eq_refl) (fun m k v _ => eq_refl) counter
    ltac:(vm_compute; reflexivity) eq_refl stale "/v1/messages" (head_of "application/json") "application/json" Anthropic
    [] (Some [x42]) ltac:(vm_compute; reflexivity) ltac:(vm_compute; reflexivity) ltac:(discriminate)
    ltac:(vm_compute; reflexivity) ltac:(vm_compute; reflexivity))).
  vm_compute. reflexivity.
Defined.

Lemma anthropic_stream_agrees_witness :
  parse_anthropic read [x42] = Some (usage_of (foldl (count_payload read Anthropic) no_counts [[x53]; [x44]])).
Proof.
  apply (anthropic_stream_agrees read [x42] [x53] [x44] (mkAnthropicUsage 7 5 None (Some 3) None)); reflexivity.
Defined.

(** The total a complete event reported is not updated by later partial ones:
    the published total is then less than input plus output. *)
Lemma stale_total :
  let u := usage_of (foldl (count_payload read Anthropic) no_counts [[x43]; [x44]]) in
  (u_input u, u_output u, u_total u) = (5, 5, 6).
Proof. reflexivity. Qed.
End CountSample.
