(* ===== verification/EventStream.v ===== *)
(** AWS EventStream frame decoder: [apis/src/bedrock/eventstream.rs].

    The code reads fields by indexing and slicing, which panic out of range.
    Here such reads return an [option] and [None] stands for the panic, so that
    its absence is a theorem and not an assumption; a loop that would not
    terminate also yields [None].  [crc] is [crc32fast::hash]. *)

From S2P Require Import Prelude Utf8 SseFrame.
From Stdlib Require Import Strings.Byte.

Local Open Scope N_scope.

(** * Constants and data *)

Definition PRELUDE_LEN : N := 12.
Definition MESSAGE_CRC_LEN : N := 4.
Definition MIN_FRAME_LEN : N := PRELUDE_LEN + MESSAGE_CRC_LEN.

Definition HEADER_TYPE_STRING : N := 7.
Definition HEADER_TYPE_BYTES : N := 6.
Definition HEADER_TYPE_BOOL_TRUE : N := 0.
Definition HEADER_TYPE_BOOL_FALSE : N := 1.
Definition HEADER_TYPE_BYTE : N := 2.
Definition HEADER_TYPE_SHORT : N := 3.
Definition HEADER_TYPE_INT : N := 4.
Definition HEADER_TYPE_LONG : N := 5.
Definition HEADER_TYPE_TIMESTAMP : N := 8.
Definition HEADER_TYPE_UUID : N := 9.

Inductive HeaderValue := HString (s : bytes) | HOther.
Record EventStreamHeader := mkHeader { name : bytes; value : HeaderValue }.
Record EventStreamMessage := mkMessage { headers : list EventStreamHeader; payload : bytes }.

Inductive DecodeError :=
| FrameTooShort (total_len : N)
| FrameTooLarge (total_len max_frame_len : N)
| PreludeCrcMismatch (stored computed : N)
| MessageCrcMismatch (stored computed : N)
| HeadersExceedFrame (headers_len total_len : N)
| TruncatedHeader
| InvalidUtf8InHeader
| UnknownHeaderType (t : N).

Record EventStreamDecoder := mkDecoder { buf : bytes; max_frame_len : N }.

#[export] Instance HeaderValue_eq_dec : EqDecision HeaderValue.
Proof. solve_decision. Defined.

(** * Messages *)

(** [EventStreamMessage::header_str]: the first string value of that name. *)
Fixpoint find_header (n : bytes) (hs : list EventStreamHeader) : option bytes :=
  match hs with
  | [] => None
  | h :: hs =>
      match (if bool_decide (name h = n)
             then match value h with HString s => Some s | HOther => None end
             else None) with
      | Some s => Some s
      | None => find_header n hs
      end
  end.

Definition header_str (m : EventStreamMessage) (n : bytes) : option bytes := find_header n (headers m).
Definition event_type (m : EventStreamMessage) : option bytes := header_str m (bstr ":event-type").
Definition message_type (m : EventStreamMessage) : option bytes := header_str m (bstr ":message-type").
Definition is_exception (m : EventStreamMessage) : bool :=
  bool_decide (message_type m = Some (bstr "exception")).

(** * Checked reads *)

(** [l[i]]. *)
Definition index (l : bytes) (i : N) : option N :=
  match l !! N.to_nat i with Some b => Some (b2N b) | None => None end.

(** [l[a..b]]. *)
Definition slice (l : bytes) (a b : N) : option bytes :=
  if (a <=? b) && (b <=? nlen l) then Some (take (N.to_nat (b - a)) (drop (N.to_nat a) l)) else None.

(** [l[a..]]. *)
Definition slice_from (l : bytes) (a : N) : option bytes := slice l a (nlen l).

(** [u32::from_be_bytes] and [u16::from_be_bytes] at an offset. *)
Definition be32 (l : bytes) (i : N) : option N :=
  a ← index l i; b ← index l (i + 1); c ← index l (i + 2); d ← index l (i + 3);
  Some (a * 2 ^ 24 + b * 2 ^ 16 + c * 2 ^ 8 + d).

Definition be16 (l : bytes) (i : N) : option N :=
  a ← index l i; b ← index l (i + 1); Some (a * 2 ^ 8 + b).

(** Checked [usize] subtraction. *)
Definition sub (a b : N) : option N := if b <=? a then Some (a - b) else None.

(** * Header block *)

(** [Result] inside a computation that may panic: stop at an error. *)
Definition try {A B} (x : option (result DecodeError A)) (k : A -> option (result DecodeError B))
    : option (result DecodeError B) :=
  match x with
  | Some (Ok a) => k a
  | Some (Err e) => Some (Err e)
  | None => None
  end.

(** [data.first().ok_or(TruncatedHeader)?]. *)
Definition first_byte (data : bytes) : option (result DecodeError N) :=
  match data with b :: _ => Some (Ok (b2N b)) | [] => Some (Err TruncatedHeader) end.

(** [data.get(a..).ok_or(TruncatedHeader)?]. *)
Definition get_from (data : bytes) (a : N) : option (result DecodeError bytes) :=
  match slice_from data a with Some d => Some (Ok d) | None => Some (Err TruncatedHeader) end.

(** [str::from_utf8(&data[..len]).map_err(InvalidUtf8InHeader)]. *)
Definition utf8_prefix (data : bytes) (len : N) : option (result DecodeError bytes) :=
  raw ← slice data 0 len;
  match from_utf8 raw with Some s => Some (Ok s) | None => Some (Err InvalidUtf8InHeader) end.

Definition read_u16_prefix_len (data : bytes) : option (result DecodeError (N * bytes)) :=
  if nlen data <? 2 then Some (Err TruncatedHeader)
  else len ← be16 data 0; rest ← slice_from data 2; Some (Ok (len, rest)).

Definition read_length_prefixed_string (data : bytes) : option (result DecodeError (bytes * bytes)) :=
  try (read_u16_prefix_len data) (fun '(len, rest) =>
    if nlen rest <? len then Some (Err TruncatedHeader)
    else try (utf8_prefix rest len) (fun s =>
      rest' ← slice_from rest len; Some (Ok (s, rest')))).

(** [skip]. *)
Definition skip_bytes (data : bytes) (n : N) : option (result DecodeError bytes) :=
  if nlen data <? n then Some (Err TruncatedHeader)
  else rest ← slice_from data n; Some (Ok rest).

(** The [match value_type]: the value and the data after it. *)
Definition decode_value (value_type : N) (data : bytes)
    : option (result DecodeError (HeaderValue * bytes)) :=
  let skipped n := try (skip_bytes data n) (fun d => Some (Ok (HOther, d))) in
  if value_type =? HEADER_TYPE_STRING then
    try (read_length_prefixed_string data) (fun '(s, rest) => Some (Ok (HString s, rest)))
  else if value_type =? HEADER_TYPE_BYTES then
    try (read_u16_prefix_len data) (fun '(len, rest) =>
      if nlen rest <? len then Some (Err TruncatedHeader)
      else try (get_from rest len) (fun d => Some (Ok (HOther, d))))
  else if (value_type =? HEADER_TYPE_BOOL_TRUE) || (value_type =? HEADER_TYPE_BOOL_FALSE) then
    Some (Ok (HOther, data))
  else if value_type =? HEADER_TYPE_BYTE then skipped 1
  else if value_type =? HEADER_TYPE_SHORT then skipped 2
  else if value_type =? HEADER_TYPE_INT then skipped 4
  else if (value_type =? HEADER_TYPE_LONG) || (value_type =? HEADER_TYPE_TIMESTAMP) then skipped 8
  else if value_type =? HEADER_TYPE_UUID then skipped 16
  else Some (Err (UnknownHeaderType value_type)).

(** One iteration of the header loop. *)
Definition decode_header (data : bytes) : option (result DecodeError (EventStreamHeader * bytes)) :=
  try (first_byte data) (fun name_len =>
  try (get_from data 1) (fun data =>
  if nlen data <? name_len then Some (Err TruncatedHeader)
  else
    try (utf8_prefix data name_len) (fun nm =>
    data ← slice_from data name_len;
    try (first_byte data) (fun value_type =>
    try (get_from data 1) (fun data =>
    try (decode_value value_type data) (fun '(v, data) =>
    Some (Ok (mkHeader nm v, data)))))))).

(** The loop of [decode_headers]. *)
Fixpoint header_loop (fuel : nat) (data : bytes) (acc : list EventStreamHeader)
    : option (result DecodeError (list EventStreamHeader)) :=
  match data with
  | [] => Some (Ok acc)
  | _ =>
      match fuel with
      | O => None
      | S fuel => try (decode_header data) (fun '(h, data) => header_loop fuel data (acc ++ [h]))
      end
  end.

(** [decode_headers]; every iteration consumes at least two bytes. *)
Definition decode_headers (data : bytes) : option (result DecodeError (list EventStreamHeader)) :=
  header_loop (length data) data [].

(** * Decoder *)

(** [EventStreamDecoder::with_max_frame_len]. *)
Definition with_max_frame_len (max : N) : EventStreamDecoder := mkDecoder [] max.

Definition is_empty (d : EventStreamDecoder) : bool := bool_decide (buf d = []).

Definition push (d : EventStreamDecoder) (data : bytes) : EventStreamDecoder :=
  mkDecoder (buf d ++ data) (max_frame_len d).

Section Decode.
Context (crc : bytes -> N).

(** The part of [decode] after [split_to]: validation and parsing of a frame. *)
Definition decode_frame (frame : bytes) (total_len headers_len : N)
    : option (result DecodeError EventStreamMessage) :=
  prelude_crc_stored ← be32 frame 8;
  covered ← slice frame 0 8;
  if negb (crc covered =? prelude_crc_stored)
  then Some (Err (PreludeCrcMismatch prelude_crc_stored (crc covered)))
  else
    at4 ← sub total_len 4;
    msg_crc_stored ← be32 frame at4;
    msg_end ← sub total_len MESSAGE_CRC_LEN;
    covered ← slice frame 0 msg_end;
    if negb (crc covered =? msg_crc_stored)
    then Some (Err (MessageCrcMismatch msg_crc_stored (crc covered)))
    else
      let headers_start := PRELUDE_LEN in
      let headers_end := headers_start + headers_len in
      if msg_end <? headers_end then Some (Err (HeadersExceedFrame headers_len total_len))
      else
        block ← slice frame headers_start headers_end;
        try (decode_headers block) (fun hs =>
        body ← slice frame headers_end msg_end;
        Some (Ok (mkMessage hs body))).

(** [decode]. *)
Definition decode (d : EventStreamDecoder)
    : option (EventStreamDecoder * result DecodeError (option EventStreamMessage)) :=
  if nlen (buf d) <? PRELUDE_LEN then Some (d, Ok None)
  else
    total_len ← be32 (buf d) 0;
    headers_len ← be32 (buf d) 4;
    if total_len <? MIN_FRAME_LEN then
      rest ← slice_from (buf d) PRELUDE_LEN;
      Some (mkDecoder rest (max_frame_len d), Err (FrameTooShort total_len))
    else if max_frame_len d <? total_len then
      Some (mkDecoder [] (max_frame_len d), Err (FrameTooLarge total_len (max_frame_len d)))
    else if nlen (buf d) <? total_len then Some (d, Ok None)
    else
      frame ← slice (buf d) 0 total_len;
      rest ← slice_from (buf d) total_len;
      r ← decode_frame frame total_len headers_len;
      Some (mkDecoder rest (max_frame_len d),
            match r with Ok m => Ok (Some m) | Err e => Err e end).

(** The loop of [decode_all]. *)
Fixpoint decode_loop (fuel : nat) (d : EventStreamDecoder) (messages : list EventStreamMessage)
    : option (EventStreamDecoder * result DecodeError (list EventStreamMessage)) :=
  match fuel with
  | O => None
  | S fuel =>
      '(d, r) ← decode d;
      match r with
      | Err e => Some (d, Err e)
      | Ok None => Some (d, Ok messages)
      | Ok (Some m) => decode_loop fuel d (messages ++ [m])
      end
  end.

(** [decode_all]; every decoded frame consumes at least sixteen bytes. *)
Definition decode_all (d : EventStreamDecoder)
    : option (EventStreamDecoder * result DecodeError (list EventStreamMessage)) :=
  decode_loop (S (length (buf d))) d [].
End Decode.
