(* ===== verification/EventStreamProps.v ===== *)
(** Properties of the EventStream decoder ([EventStream]): no panic and bounded
    buffering, integrity of what is returned, independence of chunk boundaries
    and the encode/decode round trip. *)

From S2P Require Import Prelude Utf8 SseFrame EventStream.
From Stdlib Require Import Strings.Byte.

Local Open Scope N_scope.

(** * Checked reads *)

Lemma b2N_lt b : b2N b < 256.
Proof. unfold b2N. pose proof (Byte.to_N_bounded b). lia. Qed.

Lemma index_total l i : i < nlen l -> exists v, index l i = Some v /\ v < 256.
Proof.
  intros Hi. unfold index. destruct (l !! N.to_nat i) as [b|] eqn:E; [eauto using b2N_lt|].
  apply lookup_ge_None in E. unfold nlen in Hi. lia.
Qed.

Lemma index_app l m i : i < nlen l -> index (l ++ m) i = index l i.
Proof. intros Hi. unfold index. rewrite lookup_app_l; [done|]. unfold nlen in Hi. lia. Qed.

Lemma be32_total l i : i + 4 <= nlen l -> exists v, be32 l i = Some v /\ v < 2 ^ 32.
Proof.
  intros Hi. unfold be32.
  destruct (index_total l i) as (a & -> & ?); [lia|]. destruct (index_total l (i + 1)) as (b & -> & ?); [lia|].
  destruct (index_total l (i + 2)) as (c & -> & ?); [lia|]. destruct (index_total l (i + 3)) as (d & -> & ?); [lia|].
  cbn. eexists. split; [done|]. lia.
Qed.

Lemma be16_total l i : i + 2 <= nlen l -> exists v, be16 l i = Some v.
Proof.
  intros Hi. unfold be16.
  destruct (index_total l i) as (a & -> & ?); [lia|]. destruct (index_total l (i + 1)) as (b & -> & ?); [lia|].
  cbn. eauto.
Qed.

Lemma be32_app l m i : i + 4 <= nlen l -> be32 (l ++ m) i = be32 l i.
Proof. intros Hi. unfold be32. by rewrite !index_app by lia. Qed.

Lemma slice_total l a b :
  a <= b -> b <= nlen l -> exists s, slice l a b = Some s /\ nlen s = b - a.
Proof.
  intros Ha Hb. unfold slice. rewrite (proj2 (N.leb_le a b)), (proj2 (N.leb_le b _)) by done. cbn.
  eexists. split; [done|]. unfold nlen in *. rewrite length_take, length_drop. lia.
Qed.

Lemma slice_from_total l a : a <= nlen l -> exists s, slice_from l a = Some s /\ nlen s = nlen l - a.
Proof. intros Ha. apply slice_total; lia. Qed.

Lemma slice_app l m a b : b <= nlen l -> slice (l ++ m) a b = slice l a b.
Proof.
  intros Hb. unfold slice. rewrite nlen_app, (proj2 (N.leb_le b (nlen l + _))), (proj2 (N.leb_le b (nlen l))) by lia.
  destruct (N.leb_spec a b); [|done]. cbn. f_equal. unfold nlen in *.
  rewrite drop_app_le, take_app_le; [done| |lia]. rewrite length_drop. lia.
Qed.

Lemma slice_from_app l m a s : slice_from l a = Some s -> slice_from (l ++ m) a = Some (s ++ m).
Proof.
  unfold slice_from, slice. rewrite nlen_app. destruct (N.leb_spec a (nlen l)) as [Ha|]; [|done].
  rewrite (proj2 (N.leb_le a _)), !N.leb_refl by lia. cbn. intros [= <-]. f_equal. unfold nlen in *.
  rewrite drop_app_le by lia. rewrite !take_ge; [done|..]; rewrite ?length_app, length_drop; lia.
Qed.

Lemma slice_split l n f r : slice l 0 n = Some f -> slice_from l n = Some r -> l = f ++ r.
Proof.
  unfold slice_from, slice. destruct (_ && _); [|done]. intros [= <-]. destruct (_ && _) eqn:E; [|done].
  intros [= <-]. rewrite N.sub_0_r, drop_0. rewrite (take_ge (drop _ _)).
  - by rewrite take_drop.
  - rewrite length_drop. unfold nlen. lia.
Qed.

(** * No panic *)

(** A computation that does not panic and, if it succeeds, establishes [P]. *)
Definition safe {A} (P : A -> Prop) (x : option (result DecodeError A)) : Prop :=
  match x with Some (Ok a) => P a | Some (Err _) => True | None => False end.

Lemma safe_try {A B} (P : A -> Prop) (Q : B -> Prop) x k :
  safe P x -> (forall a, P a -> safe Q (k a)) -> safe Q (try x k).
Proof. destruct x as [[a|e]|]; simpl; auto. Qed.

Lemma first_byte_safe data : safe (fun _ => data <> []) (first_byte data).
Proof. by destruct data. Qed.

Lemma get_from_safe data a : safe (fun d => nlen d + a = nlen data) (get_from data a).
Proof.
  unfold get_from. destruct (slice_from data a) as [d|] eqn:E; [|done]. simpl.
  unfold slice_from, slice in E. destruct (N.leb_spec a (nlen data)); [|done].
  destruct (slice_from_total data a) as (s & Hs & Hl); [done|].
  unfold slice_from, slice in Hs. rewrite (proj2 (N.leb_le _ _)) in Hs by done.
  rewrite E in Hs. injection Hs as <-. lia.
Qed.

Lemma utf8_prefix_safe data len : len <= nlen data -> safe (fun _ => True) (utf8_prefix data len).
Proof.
  intros H. unfold utf8_prefix. destruct (slice_total data 0 len) as (s & -> & _); [lia|done|].
  cbn. by destruct (from_utf8 s).
Qed.

Lemma read_u16_safe data : safe (fun r => nlen r.2 + 2 = nlen data) (read_u16_prefix_len data).
Proof.
  unfold read_u16_prefix_len. destruct (N.ltb_spec (nlen data) 2); [done|].
  destruct (be16_total data 0) as (v & ->); [lia|].
  destruct (slice_from_total data 2) as (s & -> & Hs); [done|]. cbn. lia.
Qed.

Lemma read_string_safe data :
  safe (fun r => nlen r.2 <= nlen data) (read_length_prefixed_string data).
Proof.
  unfold read_length_prefixed_string. eapply safe_try; [apply read_u16_safe|]. intros [len rest]. cbn [snd].
  intros Hr. destruct (N.ltb_spec (nlen rest) len); [done|].
  eapply safe_try; [by apply utf8_prefix_safe|]. intros s _.
  destruct (slice_from_total rest len) as (r & -> & Hl); [done|]. cbn. lia.
Qed.

Lemma skip_safe data n : safe (fun d => nlen d <= nlen data) (skip_bytes data n).
Proof.
  unfold skip_bytes. destruct (N.ltb_spec (nlen data) n); [done|].
  destruct (slice_from_total data n) as (r & -> & Hl); [done|]. cbn. lia.
Qed.

Lemma decode_value_safe t data : safe (fun r => nlen r.2 <= nlen data) (decode_value t data).
Proof.
  unfold decode_value.
  assert (forall n, safe (fun r : HeaderValue * bytes => nlen r.2 <= nlen data)
    (try (skip_bytes data n) (fun d => Some (Ok (HOther, d))))) as Hskip.
  { intros n. eapply safe_try; [apply skip_safe|]. by intros d Hd. }
  repeat case_match; try apply Hskip; try done; try (cbn [safe snd]; lia).
  - eapply safe_try; [apply read_string_safe|]. by intros [s rest].
  - eapply safe_try; [apply read_u16_safe|]. intros [len rest] Hr. cbn [snd] in Hr.
    destruct (nlen rest <? len); [done|]. eapply safe_try; [apply get_from_safe|].
    intros d Hd. cbn [safe snd] in *. cbn beta in Hd. lia.
Qed.

Lemma decode_header_safe data : safe (fun r => nlen r.2 + 2 <= nlen data) (decode_header data).
Proof.
  unfold decode_header. eapply safe_try; [apply first_byte_safe|]. intros n _.
  eapply safe_try; [apply get_from_safe|]. intros d1 H1.
  destruct (N.ltb_spec (nlen d1) n); [done|].
  eapply safe_try; [by apply utf8_prefix_safe|]. intros nm _.
  destruct (slice_from_total d1 n) as (d2 & -> & H2); [done|]. cbn [mbind option_bind].
  eapply safe_try; [apply first_byte_safe|]. intros t _.
  eapply safe_try; [apply get_from_safe|]. intros d3 H3.
  eapply safe_try; [apply decode_value_safe|]. intros [v d4] H4. cbn [safe snd] in *. lia.
Qed.

Lemma header_loop_safe fuel data acc :
  (length data <= fuel)%nat -> safe (fun _ => True) (header_loop fuel data acc).
Proof.
  revert data acc. induction fuel as [|fuel IH]; intros [|b data] acc Hf; try done; [simpl in Hf; lia|].
  cbn [header_loop]. eapply safe_try; [apply decode_header_safe|]. intros [h d] Hd. apply IH.
  unfold nlen in Hd. simpl in *. lia.
Qed.

Lemma decode_headers_safe data : safe (fun _ => True) (decode_headers data).
Proof. by apply header_loop_safe. Qed.

Section DecoderFacts.
Context (crc : bytes -> N).

Lemma decode_frame_safe frame total h :
  nlen frame = total -> MIN_FRAME_LEN <= total -> safe (fun _ => True) (decode_frame crc frame total h).
Proof.
  intros Hl Hm. unfold MIN_FRAME_LEN, PRELUDE_LEN, MESSAGE_CRC_LEN in Hm. unfold decode_frame.
  destruct (be32_total frame 8) as (pc & -> & _); [lia|].
  destruct (slice_total frame 0 8) as (c8 & -> & _); [lia|lia|]. cbn [mbind option_bind].
  destruct (negb _); [done|]. unfold sub, MESSAGE_CRC_LEN. rewrite (proj2 (N.leb_le 4 total)) by lia.
  cbn [mbind option_bind].
  destruct (be32_total frame (total - 4)) as (mc & -> & _); [lia|].
  destruct (slice_total frame 0 (total - 4)) as (cm & -> & _); [lia|lia|]. cbn [mbind option_bind].
  destruct (negb _); [done|]. destruct (N.ltb_spec (total - 4) (PRELUDE_LEN + h)); [done|].
  destruct (slice_total frame PRELUDE_LEN (PRELUDE_LEN + h)) as (hb & -> & _); [lia|lia|]. cbn [mbind option_bind].
  eapply safe_try; [apply decode_headers_safe|]. intros hs _.
  destruct (slice_total frame (PRELUDE_LEN + h) (total - 4)) as (pl & -> & _); [lia|lia|]. done.
Qed.

(** A frame that passed both checks, and the message read from it. *)
Definition valid_frame (frame : bytes) (m : EventStreamMessage) : Prop :=
  exists h pc mc block,
    MIN_FRAME_LEN <= nlen frame /\
    be32 frame 0 = Some (nlen frame) /\ be32 frame 4 = Some h /\
    be32 frame 8 = Some pc /\ pc = crc (take 8 frame) /\
    be32 frame (nlen frame - 4) = Some mc /\ mc = crc (take (length frame - 4) frame) /\
    PRELUDE_LEN + h <= nlen frame - MESSAGE_CRC_LEN /\
    slice frame PRELUDE_LEN (PRELUDE_LEN + h) = Some block /\ decode_headers block = Some (Ok (headers m)) /\
    slice frame (PRELUDE_LEN + h) (nlen frame - MESSAGE_CRC_LEN) = Some (payload m).

Lemma slice_prefix l n : n <= nlen l -> slice l 0 n = Some (take (N.to_nat n) l).
Proof.
  intros H. unfold slice. rewrite (proj2 (N.leb_le 0 n)), (proj2 (N.leb_le n _)) by lia.
  cbn. by rewrite drop_0, N.sub_0_r.
Qed.

Lemma decode_frame_valid frame h m :
  MIN_FRAME_LEN <= nlen frame -> be32 frame 0 = Some (nlen frame) -> be32 frame 4 = Some h ->
  decode_frame crc frame (nlen frame) h = Some (Ok m) <-> valid_frame frame m.
Proof.
  intros Hm H0 H4. pose proof Hm as Hm'. unfold MIN_FRAME_LEN, PRELUDE_LEN, MESSAGE_CRC_LEN in Hm'.
  unfold decode_frame, valid_frame, sub, MESSAGE_CRC_LEN.
  rewrite (proj2 (N.leb_le 4 (nlen frame))) by lia.
  destruct (be32_total frame 8) as (pc & Hpc & _); [lia|].
  destruct (be32_total frame (nlen frame - 4)) as (mc & Hmc & _); [lia|].
  rewrite Hpc. cbn [mbind option_bind]. rewrite (slice_prefix frame 8) by lia. cbn [mbind option_bind].
  rewrite Hmc. cbn [mbind option_bind]. rewrite (slice_prefix frame (nlen frame - 4)) by lia.
  cbn [mbind option_bind].
  replace (N.to_nat (nlen frame - 4)) with (length frame - 4)%nat by (unfold nlen; lia).
  change (N.to_nat 8) with 8%nat.
  destruct (N.eqb_spec (crc (take 8 frame)) pc) as [E1|E1]; cbn [negb].
  2:{ split; [done|]. intros (h' & pc' & mc' & bl & ?). naive_solver. }
  destruct (N.eqb_spec (crc (take (length frame - 4) frame)) mc) as [E2|E2]; cbn [negb].
  2:{ split; [done|]. intros (h' & pc' & mc' & bl & ?). naive_solver. }
  destruct (N.ltb_spec (nlen frame - 4) (PRELUDE_LEN + h)) as [E3|E3].
  { split; [done|]. intros (h' & pc' & mc' & bl & ? & ? & Hh' & ? & ? & ? & ? & Hle & _).
    rewrite H4 in Hh'. injection Hh' as <-. lia. }
  destruct (slice_total frame PRELUDE_LEN (PRELUDE_LEN + h)) as (hb & Hhb & _); [lia|lia|].
  destruct (slice_total frame (PRELUDE_LEN + h) (nlen frame - 4)) as (pl & Hpl & _); [lia|lia|].
  rewrite Hhb. cbn [mbind option_bind]. split.
  - destruct (decode_headers hb) as [[hs|e]|] eqn:Eh; cbn [try]; [|done..]. rewrite Hpl. cbn.
    intros [= <-]. exists h, pc, mc, hb. cbn [headers payload]. by split_and!.
  - intros (h' & pc' & mc' & bl & ? & ? & Hh' & ? & ? & ? & ? & Hle & Hbl & Hhs & Hpay).
    rewrite H4 in Hh'. injection Hh' as <-. rewrite Hhb in Hbl. injection Hbl as <-.
    rewrite Hhs. cbn [try]. rewrite Hpay. cbn. by destruct m.
Qed.

(** The outcomes of [decode]. *)
Lemma decode_outcome d :
  exists d' r, decode crc d = Some (d', r) /\ max_frame_len d' = max_frame_len d /\
  match r with
  | Ok None => d' = d /\ nlen (buf d) < N.max PRELUDE_LEN (max_frame_len d)
  | Ok (Some m) => exists frame, buf d = frame ++ buf d' /\ nlen frame <= max_frame_len d /\ valid_frame frame m
  | Err _ => exists skipped, buf d = skipped ++ buf d' /\ PRELUDE_LEN <= nlen skipped
  end.
Proof.
  unfold decode. destruct (N.ltb_spec (nlen (buf d)) PRELUDE_LEN) as [Hs|Hs].
  { exists d, (Ok None). split_and!; try done. lia. }
  pose proof Hs as Hs'. unfold PRELUDE_LEN in Hs'.
  destruct (be32_total (buf d) 0) as (t & Ht & _); [lia|].
  destruct (be32_total (buf d) 4) as (h & Hh & _); [lia|].
  rewrite Ht, Hh. cbn [mbind option_bind].
  destruct (N.ltb_spec t MIN_FRAME_LEN) as [H1|H1].
  { destruct (slice_from_total (buf d) PRELUDE_LEN) as (r & Hr & _); [done|].
    destruct (slice_total (buf d) 0 PRELUDE_LEN) as (f & Hf & Hfl); [lia|done|].
    rewrite Hr. eexists _, _. split; [done|]. split; [done|]. exists f. cbn.
    split; [by eapply slice_split|lia]. }
  destruct (N.ltb_spec (max_frame_len d) t) as [H2|H2].
  { eexists _, _. split; [done|]. split; [done|]. exists (buf d). by rewrite app_nil_r. }
  destruct (N.ltb_spec (nlen (buf d)) t) as [H3|H3].
  { exists d, (Ok None). split_and!; try done. lia. }
  destruct (slice_total (buf d) 0 t) as (f & Hf & Hfl); [lia|done|].
  destruct (slice_from_total (buf d) t) as (r & Hr & _); [done|].
  rewrite Hf, Hr. cbn [mbind option_bind]. rewrite N.sub_0_r in Hfl.
  pose proof (slice_split _ _ _ _ Hf Hr) as Hb.
  pose proof (decode_frame_safe f t h Hfl H1) as Hsafe.
  destruct (decode_frame crc f t h) as [[m|e]|] eqn:E; [| |done]; cbn [mbind option_bind].
  - eexists _, _. split; [done|]. split; [done|]. exists f. split_and!; [done|by rewrite Hfl|].
    unfold MIN_FRAME_LEN, PRELUDE_LEN, MESSAGE_CRC_LEN in *.
    rewrite Hb, be32_app in Ht, Hh by lia. subst t. by eapply decode_frame_valid.
  - eexists _, _. split; [done|]. split; [done|].
    exists f. split; [done|]. unfold MIN_FRAME_LEN in H1. lia.
Qed.
(** ** More data behind a decided frame *)

Lemma decode_push d more d' r :
  decode crc d = Some (d', r) -> r <> Ok None ->
  exists d'', decode crc (push d more) = Some (d'', r) /\
    ((forall t mx, r <> Err (FrameTooLarge t mx)) -> d'' = push d' more).
Proof.
  unfold decode. cbn [push buf max_frame_len].
  destruct (N.ltb_spec (nlen (buf d)) PRELUDE_LEN) as [Hs|Hs]; [by intros [= <- <-]|].
  pose proof Hs as Hs'. unfold PRELUDE_LEN in Hs'.
  rewrite nlen_app, (proj2 (N.ltb_ge (nlen (buf d) + _) PRELUDE_LEN)), !be32_app by lia.
  destruct (be32_total (buf d) 0) as (t & Ht & _); [lia|].
  destruct (be32_total (buf d) 4) as (h & Hh & _); [lia|].
  rewrite Ht, Hh. cbn [mbind option_bind].
  destruct (N.ltb_spec t MIN_FRAME_LEN) as [H1|H1].
  { destruct (slice_from_total (buf d) PRELUDE_LEN) as (rest & Hr & _); [done|].
    rewrite (slice_from_app _ more _ _ Hr), Hr. cbn. intros [= <- <-] _. eexists. split; [done|]. done. }
  destruct (N.ltb_spec (max_frame_len d) t) as [H2|H2].
  { intros [= <- <-] _. eexists. split; [done|]. intros H. by destruct (H t (max_frame_len d)). }
  destruct (N.ltb_spec (nlen (buf d)) t) as [H3|H3]; [by intros [= <- <-]|].
  rewrite (proj2 (N.ltb_ge (nlen (buf d) + _) t)), (slice_app _ _ 0 t) by lia.
  destruct (slice_total (buf d) 0 t) as (f & Hf & _); [lia|done|].
  destruct (slice_from_total (buf d) t) as (rest & Hr & _); [done|].
  rewrite (slice_from_app _ more _ _ Hr), Hf, Hr. cbn [mbind option_bind].
  destruct (decode_frame crc f t h) as [x|]; [|done]. cbn [mbind option_bind].
  intros [= <- <-] _. eexists. split; [done|]. done.
Qed.

(** ** The draining loop *)

Lemma decode_loop_mono f k d acc r :
  decode_loop crc f d acc = Some r -> decode_loop crc (f + k) d acc = Some r.
Proof.
  revert d acc. induction f as [|f IH]; intros d acc; [done|]. cbn [decode_loop Nat.add].
  destruct (decode crc d) as [[d1 [[m|]|e]]|]; cbn; auto.
Qed.

Lemma decode_loop_det f g d acc r s :
  decode_loop crc f d acc = Some r -> decode_loop crc g d acc = Some s -> r = s.
Proof.
  intros Hf Hg. apply (decode_loop_mono _ g) in Hf. apply (decode_loop_mono _ f) in Hg.
  rewrite Nat.add_comm in Hg. congruence.
Qed.

Lemma valid_frame_length frame m : valid_frame frame m -> MIN_FRAME_LEN <= nlen frame.
Proof. by intros (? & ? & ? & ? & ? & _). Qed.

Lemma decode_loop_total f d acc :
  (length (buf d) < f)%nat -> exists r, decode_loop crc f d acc = Some r.
Proof.
  revert d acc. induction f as [|f IH]; intros d acc Hf; [lia|]. cbn [decode_loop].
  destruct (decode_outcome d) as (d' & r & -> & _ & Hr). cbn.
  destruct r as [[m|]|e]; [|eauto..]. apply IH. destruct Hr as (frame & Hb & _ & Hv%valid_frame_length).
  rewrite Hb, length_app in Hf. unfold MIN_FRAME_LEN, PRELUDE_LEN, MESSAGE_CRC_LEN, nlen in Hv. lia.
Qed.

Lemma decode_all_total d : exists r, decode_all crc d = Some r.
Proof. apply decode_loop_total. lia. Qed.

Lemma decode_all_of_loop f d r : decode_loop crc f d [] = Some r -> decode_all crc d = Some r.
Proof.
  intros H. destruct (decode_all_total d) as [s Hs]. rewrite Hs. f_equal.
  by eapply decode_loop_det.
Qed.

Lemma decode_loop_acc f d acc :
  decode_loop crc f d acc =
  match decode_loop crc f d [] with
  | Some (d', Ok ms) => Some (d', Ok (acc ++ ms))
  | x => x
  end.
Proof.
  revert d acc. induction f as [|f IH]; intros d acc; [done|]. cbn [decode_loop].
  destruct (decode crc d) as [[d1 [[m|]|e]]|]; cbn; [|by rewrite app_nil_r|done..].
  rewrite IH, (IH d1 [m]). destruct (decode_loop crc f d1 []) as [[d2 [ms|e]]|]; [|done..].
  by rewrite <- app_assoc.
Qed.

Lemma decode_loop_push f d acc more d1 ms g r :
  decode_loop crc f d acc = Some (d1, Ok ms) ->
  decode_loop crc g (push d1 more) ms = Some r ->
  exists k, decode_loop crc k (push d more) acc = Some r.
Proof.
  revert d acc. induction f as [|f IH]; intros d acc; [done|]. cbn [decode_loop].
  destruct (decode_outcome d) as (d' & r' & Hd & _ & Hr). rewrite Hd. cbn.
  destruct r' as [[m|]|e]; [| |done].
  - intros Hf Hg. destruct (decode_push d more d' (Ok (Some m)) Hd) as (d'' & Hd'' & Heq); [done|].
    rewrite (Heq ltac:(done)) in Hd''. destruct (IH _ _ Hf Hg) as [k Hk].
    exists (S k). cbn [decode_loop]. rewrite Hd''. exact Hk.
  - destruct Hr as [-> _]. intros [= <- <-] Hg. by exists g.
Qed.

Lemma decode_loop_push_err f d acc more d1 e :
  decode_loop crc f d acc = Some (d1, Err e) ->
  exists k d2, decode_loop crc k (push d more) acc = Some (d2, Err e).
Proof.
  revert d acc. induction f as [|f IH]; intros d acc; [done|]. cbn [decode_loop].
  destruct (decode_outcome d) as (d' & r' & Hd & _ & Hr). rewrite Hd. cbn.
  destruct r' as [[m|]|e']; [|done|].
  - intros Hf. destruct (decode_push d more d' (Ok (Some m)) Hd) as (d'' & Hd'' & Heq); [done|].
    rewrite (Heq ltac:(done)) in Hd''. destruct (IH _ _ Hf) as (k & d2 & Hk).
    exists (S k), d2. cbn [decode_loop]. rewrite Hd''. exact Hk.
  - intros [= <- <-]. destruct (decode_push d more d' (Err e') Hd) as (d'' & Hd'' & _); [done|].
    exists 1%nat, d''. cbn [decode_loop]. by rewrite Hd''.
Qed.

(** ** A stream in chunks *)

(** Push and drain chunk by chunk, stopping at the first error. *)
Fixpoint feed (d : EventStreamDecoder) (cs : list bytes)
    : option (EventStreamDecoder * list EventStreamMessage * option DecodeError) :=
  match cs with
  | [] => Some (d, [], None)
  | c :: cs =>
      '(d, r) ← decode_all crc (push d c);
      match r with
      | Err e => Some (d, [], Some e)
      | Ok ms =>
          '(d, ms', e) ← feed d cs;
          Some (d, ms ++ ms', e)
      end
  end.

Lemma push_push d a b : push (push d a) b = push d (a ++ b).
Proof. unfold push. cbn. by rewrite app_assoc. Qed.

Lemma feed_whole cs c d :
  exists d1 ms e, feed d (c :: cs) = Some (d1, ms, e) /\
  match e with
  | None => decode_all crc (push d (concat (c :: cs))) = Some (d1, Ok ms)
  | Some e => exists d2, decode_all crc (push d (concat (c :: cs))) = Some (d2, Err e)
  end.
Proof.
  revert c d. induction cs as [|c' cs IH]; intros c d.
  { cbn [feed concat]. rewrite app_nil_r. destruct (decode_all_total (push d c)) as [[d1 [ms|e]] Hd].
    - rewrite Hd. cbn. exists d1, (ms ++ []), None. by rewrite app_nil_r.
    - rewrite Hd. cbn. eexists _, _, (Some e). split; [done|]. eauto. }
  destruct (decode_all_total (push d c)) as [[d1 [ms|e]] Hd].
  - destruct (IH c' d1) as (d2 & ms2 & e2 & Hf & He).
    exists d2, (ms ++ ms2), e2. split.
    { change (feed d (c :: c' :: cs)) with
        ('(d, r) ← decode_all crc (push d c);
         match r with
         | Err e => Some (d, [], Some e)
         | Ok ms => '(d, ms', e) ← feed d (c' :: cs); Some (d, ms ++ ms', e)
         end). rewrite Hd. cbn [mbind option_bind]. by rewrite Hf. }
    change (concat (c :: c' :: cs)) with (c ++ concat (c' :: cs)). rewrite <- push_push.
    destruct e2 as [e2|].
    + destruct He as [d3 He]. exists d3.
      assert (exists g, decode_loop crc g (push d1 (concat (c' :: cs))) ms = Some (d3, Err e2)) as [g Hg].
      { eexists. rewrite decode_loop_acc. unfold decode_all in He. by rewrite He. }
      destruct (decode_loop_push _ _ _ _ _ _ _ _ Hd Hg) as [k Hk]. by eapply decode_all_of_loop.
    + assert (exists g, decode_loop crc g (push d1 (concat (c' :: cs))) ms = Some (d2, Ok (ms ++ ms2))) as [g Hg].
      { eexists. rewrite decode_loop_acc. unfold decode_all in He. by rewrite He. }
      destruct (decode_loop_push _ _ _ _ _ _ _ _ Hd Hg) as [k Hk]. by eapply decode_all_of_loop.
  - exists d1, [], (Some e). cbn [feed]. rewrite Hd. split; [done|].
    change (concat (c :: c' :: cs)) with (c ++ concat (c' :: cs)). rewrite <- push_push.
    destruct (decode_loop_push_err _ _ _ (concat (c' :: cs)) _ _ Hd) as (k & d2 & Hk).
    exists d2. by eapply decode_all_of_loop.
Qed.
End DecoderFacts.

(** * Encoder *)

Definition byte_of (n : N) : byte := match Byte.of_N (n mod 256) with Some b => b | None => x00 end.
Definition put16 (n : N) : bytes := [byte_of (n / 2 ^ 8); byte_of n].
Definition put32 (n : N) : bytes :=
  [byte_of (n / 2 ^ 24); byte_of (n / 2 ^ 16); byte_of (n / 2 ^ 8); byte_of n].

(** Header values as they appear on the wire. *)
Inductive WireValue :=
| WString (s : bytes)
| WBytes (b : bytes)
| WBool (b : bool)
| WFixed (t : N) (b : bytes).

Record WireHeader := mkWire { w_name : bytes; w_value : WireValue }.

(** Width of the fixed-size value types. *)
Definition fixed_width (t : N) : option N :=
  if t =? HEADER_TYPE_BYTE then Some 1
  else if t =? HEADER_TYPE_SHORT then Some 2
  else if t =? HEADER_TYPE_INT then Some 4
  else if (t =? HEADER_TYPE_LONG) || (t =? HEADER_TYPE_TIMESTAMP) then Some 8
  else if t =? HEADER_TYPE_UUID then Some 16
  else None.

Definition value_ok (v : WireValue) : Prop :=
  match v with
  | WString s => is_utf8 s = true /\ nlen s < 2 ^ 16
  | WBytes b => nlen b < 2 ^ 16
  | WBool _ => True
  | WFixed t b => fixed_width t = Some (nlen b)
  end.

Definition header_ok (h : WireHeader) : Prop :=
  is_utf8 (w_name h) = true /\ nlen (w_name h) < 2 ^ 8 /\ value_ok (w_value h).

Definition value_type (v : WireValue) : N :=
  match v with
  | WString _ => HEADER_TYPE_STRING
  | WBytes _ => HEADER_TYPE_BYTES
  | WBool b => if b then HEADER_TYPE_BOOL_TRUE else HEADER_TYPE_BOOL_FALSE
  | WFixed t _ => t
  end.

Definition value_bytes (v : WireValue) : bytes :=
  match v with
  | WString s | WBytes s => put16 (nlen s) ++ s
  | WBool _ => []
  | WFixed _ b => b
  end.

Definition decoded (h : WireHeader) : EventStreamHeader :=
  mkHeader (w_name h) (match w_value h with WString s => HString s | _ => HOther end).

Definition encode_header (h : WireHeader) : bytes :=
  byte_of (nlen (w_name h)) :: w_name h ++ byte_of (value_type (w_value h)) :: value_bytes (w_value h).

Definition encode_frame (crc : bytes -> N) (hs : list WireHeader) (payload : bytes) : bytes :=
  let block := concat (encode_header <$> hs) in
  let lengths := put32 (MIN_FRAME_LEN + nlen block + nlen payload) ++ put32 (nlen block) in
  let body := (lengths ++ put32 (crc lengths)) ++ block ++ payload in
  body ++ put32 (crc body).

(** ** Reads of encoded fields *)

Lemma b2N_byte_of n : b2N (byte_of n) = n mod 256.
Proof.
  unfold byte_of, b2N. pose proof (N.mod_lt n 256 ltac:(done)) as H.
  destruct (Byte.of_N (n mod 256)) as [b|] eqn:E; [by apply Byte.to_of_N|].
  apply Byte.of_N_None_iff in E. lia.
Qed.

Lemma index_shift l m i : index (l ++ m) (nlen l + i) = index m i.
Proof.
  unfold index. rewrite lookup_app_r by (unfold nlen; lia).
  by replace (N.to_nat (nlen l + i) - length l)%nat with (N.to_nat i) by (unfold nlen; lia).
Qed.

Lemma be32_shift l m i : be32 (l ++ m) (nlen l + i) = be32 m i.
Proof. unfold be32. by rewrite <- !N.add_assoc, !index_shift. Qed.

Lemma be32_put n r : n < 2 ^ 32 -> be32 (put32 n ++ r) 0 = Some n.
Proof.
  intros Hn. unfold be32.
  change (index (put32 n ++ r) 0) with (Some (b2N (byte_of (n / 2 ^ 24)))).
  change (index (put32 n ++ r) (0 + 1)) with (Some (b2N (byte_of (n / 2 ^ 16)))).
  change (index (put32 n ++ r) (0 + 2)) with (Some (b2N (byte_of (n / 2 ^ 8)))).
  change (index (put32 n ++ r) (0 + 3)) with (Some (b2N (byte_of n))).
  cbn [mbind option_bind]. rewrite !b2N_byte_of. f_equal.
  change (2 ^ 24) with (2 ^ 8 * 2 ^ 8 * 2 ^ 8) in *. change (2 ^ 16) with (2 ^ 8 * 2 ^ 8) in *.
  change 256 with (2 ^ 8). rewrite <- !N.Div0.div_div.
  assert (n / 2 ^ 8 / 2 ^ 8 / 2 ^ 8 < 2 ^ 8) as Hs.
  { rewrite !N.Div0.div_div. apply N.Div0.div_lt_upper_bound. cbn in *. lia. }
  rewrite (N.mod_small (n / 2 ^ 8 / 2 ^ 8 / 2 ^ 8)) by done.
  pose proof (N.div_mod n (2 ^ 8) ltac:(done)). pose proof (N.div_mod (n / 2 ^ 8) (2 ^ 8) ltac:(done)).
  pose proof (N.div_mod (n / 2 ^ 8 / 2 ^ 8) (2 ^ 8) ltac:(done)). lia.
Qed.

Lemma be16_put n r : n < 2 ^ 16 -> be16 (put16 n ++ r) 0 = Some n.
Proof.
  intros Hn. unfold be16.
  change (index (put16 n ++ r) 0) with (Some (b2N (byte_of (n / 2 ^ 8)))).
  change (index (put16 n ++ r) (0 + 1)) with (Some (b2N (byte_of n))).
  cbn [mbind option_bind]. rewrite !b2N_byte_of. f_equal. change 256 with (2 ^ 8).
  assert (n / 2 ^ 8 < 2 ^ 8) as Hs by (apply N.Div0.div_lt_upper_bound; cbn in *; lia).
  rewrite (N.mod_small (n / 2 ^ 8)) by done.
  pose proof (N.div_mod n (2 ^ 8) ltac:(done)). lia.
Qed.

Lemma slice_mid a b c : slice (a ++ b ++ c) (nlen a) (nlen a + nlen b) = Some b.
Proof.
  unfold slice. rewrite !nlen_app, (proj2 (N.leb_le (nlen a) _)), (proj2 (N.leb_le (nlen a + nlen b) _)) by lia.
  cbn. f_equal. unfold nlen. rewrite drop_app_ge by lia.
  replace (N.to_nat (N.of_nat (length a)) - length a)%nat with 0%nat by lia.
  rewrite drop_0, take_app_le by lia. apply take_ge. lia.
Qed.

Lemma slice_head a c : slice (a ++ c) 0 (nlen a) = Some a.
Proof. apply (slice_mid [] a c). Qed.

Lemma slice_tail a c : slice_from (a ++ c) (nlen a) = Some c.
Proof.
  unfold slice_from. rewrite nlen_app. rewrite <- (app_nil_r c) at 1. apply slice_mid.
Qed.

Lemma from_utf8_valid s : is_utf8 s = true -> from_utf8 s = Some s.
Proof. intros H. unfold from_utf8. by rewrite H. Qed.

(** ** Round trip of headers *)

Lemma get_from_tail a c : get_from (a ++ c) (nlen a) = Some (Ok c).
Proof. unfold get_from. by rewrite slice_tail. Qed.

Lemma get_from_one b c : get_from (b :: c) 1 = Some (Ok c).
Proof. apply (get_from_tail [b] c). Qed.

Lemma utf8_prefix_head a c : is_utf8 a = true -> utf8_prefix (a ++ c) (nlen a) = Some (Ok a).
Proof. intros H. unfold utf8_prefix. rewrite slice_head. cbn. by rewrite from_utf8_valid. Qed.

Lemma read_u16_put n r : n < 2 ^ 16 -> read_u16_prefix_len (put16 n ++ r) = Some (Ok (n, r)).
Proof.
  intros Hn. unfold read_u16_prefix_len. rewrite nlen_app. change (nlen (put16 n)) with 2.
  rewrite (proj2 (N.ltb_ge _ _)) by lia. rewrite be16_put by done.
  change 2 with (nlen (put16 n)) at 1. by rewrite slice_tail.
Qed.

Lemma skip_tail a c : skip_bytes (a ++ c) (nlen a) = Some (Ok c).
Proof.
  unfold skip_bytes. rewrite nlen_app, (proj2 (N.ltb_ge _ _)) by lia. by rewrite slice_tail.
Qed.

Lemma decode_value_encode v rest :
  value_ok v ->
  decode_value (value_type v) (value_bytes v ++ rest) =
  Some (Ok (match v with WString s => HString s | _ => HOther end, rest)).
Proof.
  destruct v as [s|s|b|t b]; cbn [value_ok value_type value_bytes]; unfold decode_value.
  - intros [Hu Hl]. rewrite N.eqb_refl. unfold read_length_prefixed_string.
    rewrite <- app_assoc, read_u16_put by done. cbn [try].
    rewrite nlen_app, (proj2 (N.ltb_ge _ _)) by lia. rewrite utf8_prefix_head by done. cbn [try].
    by rewrite slice_tail.
  - intros Hl. change (HEADER_TYPE_BYTES =? HEADER_TYPE_STRING) with false. rewrite N.eqb_refl.
    rewrite <- app_assoc, read_u16_put by done. cbn [try].
    rewrite nlen_app, (proj2 (N.ltb_ge _ _)) by lia. by rewrite get_from_tail.
  - by destruct b.
  - unfold fixed_width. intros Hw.
    assert ((t =? HEADER_TYPE_STRING) = false /\ (t =? HEADER_TYPE_BYTES) = false /\
      (t =? HEADER_TYPE_BOOL_TRUE) = false /\ (t =? HEADER_TYPE_BOOL_FALSE) = false) as (-> & -> & -> & ->).
    { split_and!; apply N.eqb_neq; intros ->; vm_compute in Hw; discriminate. }
    cbn [orb]. repeat (case_match; [injection Hw as ->; by rewrite skip_tail|]). done.
Qed.

Lemma value_type_byte v : value_ok v -> b2N (byte_of (value_type v)) = value_type v.
Proof.
  intros Hv. rewrite b2N_byte_of. apply N.mod_small. destruct v as [s|s|[]|t b]; try done.
  cbn in *. unfold fixed_width in Hv.
  repeat match type of Hv with (if ?c then _ else _) = _ => destruct c eqn:? end; try done;
  repeat match goal with H : _ || _ = true |- _ => apply orb_true_iff in H as [H|H] end;
  repeat match goal with H : (_ =? _) = true |- _ => apply N.eqb_eq in H; subst end; done.
Qed.

Lemma decode_header_encode h rest :
  header_ok h -> decode_header (encode_header h ++ rest) = Some (Ok (decoded h, rest)).
Proof.
  intros (Hu & Hl & Hv). unfold decode_header, encode_header. cbn [app first_byte try].
  rewrite get_from_one. cbn [try]. rewrite b2N_byte_of, N.mod_small by done.
  rewrite <- app_assoc, nlen_app, (proj2 (N.ltb_ge _ _)) by lia.
  rewrite utf8_prefix_head by done. cbn [try]. rewrite slice_tail. cbn [mbind option_bind app first_byte try].
  rewrite get_from_one. cbn [try]. rewrite value_type_byte, decode_value_encode by done. done.
Qed.

Lemma encode_header_nonempty h : exists b l, encode_header h = b :: l.
Proof. unfold encode_header. eauto. Qed.

Lemma header_loop_encode hs fuel acc :
  Forall header_ok hs -> (length (concat (encode_header <$> hs)) <= fuel)%nat ->
  header_loop fuel (concat (encode_header <$> hs)) acc = Some (Ok (acc ++ (decoded <$> hs))).
Proof.
  intros Hhs. revert fuel acc. induction Hhs as [|h hs Hh _ IH]; intros fuel acc Hf.
  { destruct fuel; cbn; by rewrite app_nil_r. }
  cbn [fmap list_fmap concat] in *. destruct (encode_header_nonempty h) as (b & l & Heq).
  pose proof (decode_header_encode h (concat (encode_header <$> hs)) Hh) as Hd.
  rewrite Heq in *. destruct fuel as [|fuel]; [simpl in Hf; lia|].
  cbn [app header_loop] in *. rewrite Hd. cbn [try]. rewrite IH.
  - by rewrite <- app_assoc.
  - simpl in Hf. rewrite length_app in Hf. lia.
Qed.

Lemma decode_headers_encode hs :
  Forall header_ok hs ->
  decode_headers (concat (encode_header <$> hs)) = Some (Ok (decoded <$> hs)).
Proof. intros H. unfold decode_headers. by rewrite header_loop_encode. Qed.

(** ** Round trip of frames *)

Section RoundTrip.
Context (crc : bytes -> N).
Hypothesis crc_u32 : forall b, crc b < 2 ^ 32.

Definition frame_len (hs : list WireHeader) (p : bytes) : N :=
  MIN_FRAME_LEN + nlen (concat (encode_header <$> hs)) + nlen p.

Lemma put32_len n : nlen (put32 n) = 4.
Proof. done. Qed.

Lemma encode_frame_length hs p : nlen (encode_frame crc hs p) = frame_len hs p.
Proof.
  unfold encode_frame, frame_len. rewrite !nlen_app, !put32_len.
  unfold MIN_FRAME_LEN, PRELUDE_LEN, MESSAGE_CRC_LEN. lia.
Qed.

Lemma encode_frame_valid hs p :
  Forall header_ok hs -> frame_len hs p < 2 ^ 32 ->
  valid_frame crc (encode_frame crc hs p) (mkMessage (decoded <$> hs) p).
Proof.
  intros Hhs Hlen. pose proof (encode_frame_length hs p) as HL. unfold valid_frame.
  set (block := concat (encode_header <$> hs)).
  set (lengths := put32 (MIN_FRAME_LEN + nlen block + nlen p) ++ put32 (nlen block)).
  set (body := (lengths ++ put32 (crc lengths)) ++ block ++ p).
  assert (encode_frame crc hs p = body ++ put32 (crc body)) as HE by done.
  assert (nlen lengths = 8) as Hl8 by done.
  assert (nlen (lengths ++ put32 (crc lengths)) = PRELUDE_LEN) as Hl12 by done.
  assert (nlen (encode_frame crc hs p) - 4 = nlen body) as Hbody.
  { rewrite HE, nlen_app, put32_len. lia. }
  assert (nlen body = PRELUDE_LEN + nlen block + nlen p) as HBL.
  { unfold body. rewrite nlen_app, Hl12, nlen_app. lia. }
  fold (frame_len hs p) in lengths. unfold frame_len in HL, Hlen. fold block in HL, Hlen.
  exists (nlen block), (crc lengths), (crc body), block.
  unfold MESSAGE_CRC_LEN in *. rewrite Hbody. split_and!.
  - rewrite HL. lia.
  - rewrite HL, HE. unfold body. unfold lengths at 1. rewrite <- !app_assoc. by apply be32_put.
  - rewrite HE. unfold body. unfold lengths at 1. rewrite <- !app_assoc.
    change 4 with (nlen (put32 (MIN_FRAME_LEN + nlen block + nlen p)) + 0).
    rewrite be32_shift. apply be32_put. lia.
  - rewrite HE. unfold body. rewrite <- !app_assoc. replace 8 with (nlen lengths + 0) by (rewrite Hl8; lia).
    rewrite be32_shift. by apply be32_put.
  - done.
  - rewrite HE. rewrite <- (N.add_0_r (nlen body)), be32_shift. rewrite <- (app_nil_r (put32 (crc body))).
    by apply be32_put.
  - f_equal. rewrite HE, length_app. symmetry. apply take_app_length'.
    change (length (put32 (crc body))) with 4%nat. lia.
  - lia.
  - rewrite HE. unfold body. rewrite <- (app_assoc _ (block ++ p)), <- (app_assoc block p). rewrite <- Hl12. apply slice_mid.
  - by apply decode_headers_encode.
  - rewrite HBL. cbn [payload]. rewrite HE. unfold body.
    rewrite <- (app_assoc _ (block ++ p)), <- (app_assoc block p).
    rewrite app_assoc, <- Hl12, <- nlen_app. apply slice_mid.
Qed.

Lemma decode_encoded_frame hs p rest max :
  Forall header_ok hs -> frame_len hs p < 2 ^ 32 -> frame_len hs p <= max ->
  decode crc (mkDecoder (encode_frame crc hs p ++ rest) max) =
  Some (mkDecoder rest max, Ok (Some (mkMessage (decoded <$> hs) p))).
Proof.
  intros Hhs Hlen Hmax. pose proof (encode_frame_valid hs p Hhs Hlen) as Hv.
  pose proof (encode_frame_length hs p) as HL. pose proof Hv as (h & _ & _ & _ & Hmin & H0 & H4 & _).
  assert (decode_frame crc (encode_frame crc hs p) (nlen (encode_frame crc hs p)) h =
    Some (Ok (mkMessage (decoded <$> hs) p))) as Hd by (by apply decode_frame_valid).
  unfold decode. cbn [buf max_frame_len].
  unfold MIN_FRAME_LEN, PRELUDE_LEN, MESSAGE_CRC_LEN in *.
  rewrite nlen_app, (proj2 (N.ltb_ge (_ + _) 12)), !be32_app, H0, H4 by lia. cbn [mbind option_bind].
  rewrite (proj2 (N.ltb_ge _ 16)), (proj2 (N.ltb_ge max _)), (proj2 (N.ltb_ge (_ + _) _)) by lia.
  rewrite slice_head, slice_tail. cbn [mbind option_bind]. by rewrite Hd.
Qed.

Lemma decode_all_encoded fs max :
  Forall (fun f => Forall header_ok f.1 /\ frame_len f.1 f.2 < 2 ^ 32 /\ frame_len f.1 f.2 <= max) fs ->
  decode_all crc (mkDecoder (concat ((fun f => encode_frame crc f.1 f.2) <$> fs)) max) =
  Some (mkDecoder [] max, Ok ((fun f => mkMessage (decoded <$> f.1) f.2) <$> fs)).
Proof.
  intros Hfs. enough (exists k, forall acc, decode_loop crc k
      (mkDecoder (concat ((fun f => encode_frame crc f.1 f.2) <$> fs)) max) acc =
      Some (mkDecoder [] max, Ok (acc ++ ((fun f => mkMessage (decoded <$> f.1) f.2) <$> fs)))) as [k Hk].
  { by eapply decode_all_of_loop, (Hk []). }
  induction Hfs as [|[hs p] fs (H1 & H2 & H3) _ [k IH]].
  { exists 1%nat. intros acc. cbn. by rewrite app_nil_r. }
  exists (S k). intros acc. cbn [fmap list_fmap concat fst snd decode_loop] in *. rewrite decode_encoded_frame by done.
  cbn [mbind option_bind]. rewrite IH. by rewrite <- app_assoc.
Qed.
End RoundTrip.

(** * The properties *)

(** C35. Decoding is total: on every buffer [decode] returns without a panic
    from indexing, slicing or length arithmetic; when it asks for more data the
    buffer is unchanged and shorter than the larger of the prelude and the
    frame limit; otherwise it consumes at least a prelude, so [decode_all]
    terminates. *)
Theorem event_stream_decode_total crc d :
  (exists d' r, decode crc d = Some (d', r) /\
     match r with
     | Ok None => d' = d /\ nlen (buf d) < N.max PRELUDE_LEN (max_frame_len d)
     | _ => nlen (buf d') + PRELUDE_LEN <= nlen (buf d)
     end) /\
  exists r, decode_all crc d = Some r.
Proof.
  split; [|apply decode_all_total]. destruct (decode_outcome crc d) as (d' & r & Hd & _ & Hr).
  exists d', r. split; [done|]. destruct r as [[m|]|e].
  - destruct Hr as (frame & -> & _ & Hv%valid_frame_length). rewrite nlen_app.
    unfold MIN_FRAME_LEN in Hv. lia.
  - done.
  - destruct Hr as (sk & -> & Hsk). rewrite nlen_app. lia.
Qed.

(** Integrity: a message is only returned for a frame at the front of the
    buffer whose declared length is its length and within the limit, whose two
    stored checksums are those of the bytes they cover, and whose header block
    and payload are the message's; exactly that frame is consumed. *)
Theorem event_stream_integrity crc d d' m :
  decode crc d = Some (d', Ok (Some m)) ->
  exists frame, buf d = frame ++ buf d' /\ nlen frame <= max_frame_len d /\ valid_frame crc frame m.
Proof.
  intros H. destruct (decode_outcome crc d) as (d1 & r & Hd & _ & Hr).
  rewrite H in Hd. by injection Hd as <- <-.
Qed.

Lemma event_stream_integrity_witness :
  exists frame, encode_frame (fun _ => 7) [] (bstr "hi") ++ bstr "x" = frame ++ bstr "x" /\
    nlen frame <= 64 /\ valid_frame (fun _ => 7) frame (mkMessage [] (bstr "hi")).
Proof.
  apply (event_stream_integrity (fun _ => 7)
    (mkDecoder (encode_frame (fun _ => 7) [] (bstr "hi") ++ bstr "x") 64) (mkDecoder (bstr "x") 64)).
  vm_compute. reflexivity.
Defined.

(** Chunk independence: pushing and draining chunk by chunk delivers the
    messages, the final buffer and the first error that draining the whole
    stream at once gives. *)
Theorem event_stream_chunk_independence crc c cs d :
  exists d1 ms e, feed crc d (c :: cs) = Some (d1, ms, e) /\
  match e with
  | None => decode_all crc (push d (concat (c :: cs))) = Some (d1, Ok ms)
  | Some e => exists d2, decode_all crc (push d (concat (c :: cs))) = Some (d2, Err e)
  end.
Proof. apply feed_whole. Qed.

(** C34. Round trip: well-formed frames, with headers of every wire type,
    encoded one after the other and delivered in any chunks, decode to exactly
    their messages, non-string header values collapsed, and leave the buffer
    empty. *)
Theorem event_stream_roundtrip crc max fs c cs :
  (forall b, crc b < 2 ^ 32) ->
  Forall (fun f => Forall header_ok f.1 /\ frame_len f.1 f.2 < 2 ^ 32 /\ frame_len f.1 f.2 <= max) fs ->
  concat (c :: cs) = concat ((fun f => encode_frame crc f.1 f.2) <$> fs) ->
  feed crc (with_max_frame_len max) (c :: cs) =
  Some (with_max_frame_len max, (fun f => mkMessage (decoded <$> f.1) f.2) <$> fs, None).
Proof.
  intros Hcrc Hfs Hcs. pose proof (decode_all_encoded crc Hcrc fs max Hfs) as Hall.
  destruct (feed_whole crc cs c (with_max_frame_len max)) as (d1 & ms & e & Hf & He).
  unfold push in He. cbn [with_max_frame_len buf max_frame_len app] in He. rewrite Hcs, Hall in He.
  destruct e as [e|]; [by destruct He|]. injection He as <- <-. exact Hf.
Qed.

Definition sample_frames : list (list WireHeader * bytes) :=
  [([mkWire (bstr ":event-type") (WString (bstr "messageStart")); mkWire (bstr "n") (WFixed 4 [x00; x00; x00; x01])],
    bstr "{}");
   ([mkWire (bstr "flag") (WBool true)], [])].

Lemma event_stream_roundtrip_witness :
  let stream := concat ((fun f => encode_frame (fun b => nlen b) f.1 f.2) <$> sample_frames) in
  feed (fun b => N.min (nlen b) 1000) (with_max_frame_len 4096) [take 20 stream; drop 20 stream] =
  Some (with_max_frame_len 4096,
        [mkMessage [mkHeader (bstr ":event-type") (HString (bstr "messageStart")); mkHeader (bstr "n") HOther] (bstr "{}");
         mkMessage [mkHeader (bstr "flag") HOther] [] ], None).
Proof.
  intros stream. apply (event_stream_roundtrip (fun b => N.min (nlen b) 1000) 4096 sample_frames).
  - intros b. lia.
  - repeat (apply Forall_cons; split); try apply Forall_nil_2;
      (split; [|split; [vm_compute; reflexivity|vm_compute; discriminate]]);
      repeat (apply Forall_cons; split); try apply Forall_nil_2; split_and!; try reflexivity;
      try (vm_compute; reflexivity); split; vm_compute; reflexivity.
  - vm_compute. reflexivity.
Defined.

(** ** Losses on errors *)

(** [decode_all] loses the messages decoded before an error in the same call:
    here one complete frame precedes a malformed prelude. *)
Example decode_all_loses_earlier_messages :
  exists d e, decode_all (fun _ => 0)
    (mkDecoder (encode_frame (fun _ => 0) [] (bstr "a") ++ repeat x00 12) 64) = Some (d, Err e) /\ buf d = [].
Proof. eexists _, _. split; [vm_compute; reflexivity|reflexivity]. Qed.

(** A frame above the limit empties the whole buffer, complete frames behind it
    included. *)
Example oversized_frame_discards_following :
  exists d e, decode (fun _ => 0)
    (mkDecoder (encode_frame (fun _ => 0) [] (bstr "0123456789") ++ encode_frame (fun _ => 0) [] []) 20)
  = Some (d, Err e) /\ buf d = [].
Proof. eexists _, _. split; [vm_compute; reflexivity|reflexivity]. Qed.
