(* ===== verification/StoreTypes.v ===== *)
(** Data types of the persistence layer: [store/src/owner.rs] and
    [store/src/types.rs].  Reference-counted strings are strings; [i64] values
    are integers in their range. *)

From S2P Require Import Prelude Utf8 Json.

Local Open Scope N_scope.

(** * Owners *)

Definition MAX_COMPONENT_BYTES : N := 1024.

Record StateOwner := mkOwner { tenant_id : string; issuer : string; subject : string }.

#[export] Instance StateOwner_eq_dec : EqDecision StateOwner.
Proof. solve_decision. Defined.
#[export] Instance StateOwner_countable : Countable StateOwner.
Proof.
  apply (inj_countable' (fun o => (tenant_id o, issuer o, subject o))
           (fun '(t, i, s) => mkOwner t i s)).
  by intros [].
Defined.

Record StateOwnerError := mkOwnerError { component : string }.

(** [validate_component]. *)
Definition validate_component (component value : string) : result StateOwnerError unit :=
  if bool_decide (value = ""%string)
     || (MAX_COMPONENT_BYTES <? N.of_nat (String.length value))
     || existsb is_control (utf8_items (String.list_byte_of_string value))
  then Err (mkOwnerError component)
  else Ok tt.

(** [StateOwner::from_trusted_parts]. *)
Definition from_trusted_parts (tenant iss sub : string) : result StateOwnerError StateOwner :=
  let owner := mkOwner tenant iss sub in
  match validate_component "tenant" (tenant_id owner) with
  | Err e => Err e
  | Ok _ =>
      match validate_component "issuer" (issuer owner) with
      | Err e => Err e
      | Ok _ =>
          match validate_component "subject" (subject owner) with
          | Err e => Err e
          | Ok _ => Ok owner
          end
      end
  end.

(** * Records *)

Record ResponseRecord := mkResponse {
  r_id : string;
  r_owner : StateOwner;
  r_created_at : Z;
  r_model : string;
  r_object : Json;
  r_input : Json;
  r_messages : Json
}.

Record ConversationRecord := mkConversation {
  c_id : string;
  c_owner : StateOwner;
  c_created_at : Z;
  c_metadata : Json;
  c_messages : Json
}.

Record ConversationItemRecord := mkItem {
  i_id : string;
  i_owner : StateOwner;
  i_conversation : string;
  i_data : Json;
  i_created_at : Z;
  i_position : Z
}.

Record PendingApprovalRecord := mkApproval {
  approval_id : string;
  server_label : string;
  tool_name : string;
  arguments : string;
  target_fingerprint : string
}.

Record ResponseEventRecord := mkEventRecord {
  e_response : string;
  e_owner : StateOwner;
  sequence_number : N;
  e_type : string;
  e_payload : bytes;
  e_terminal : bool;
  e_created_at : Z
}.

Inductive EventLogStatus :=
| Absent
| Incomplete (max_sequence : N)
| Replayable (max_sequence : N).

Inductive StoreError :=
| NotFound
| Database (msg : string)
| InvalidInput (msg : string)
| Serialization (msg : string)
| Unavailable (msg : string).

(** [Display for StoreError]. *)
Definition display_store_error (e : StoreError) : string :=
  match e with
  | NotFound => "resource not found"
  | Database msg => "database error: " +:+ msg
  | InvalidInput msg => "invalid input: " +:+ msg
  | Serialization msg => "serialization error: " +:+ msg
  | Unavailable msg => "store unavailable: " +:+ msg
  end.
