(* ===== verification/StoreApi.v ===== *)
(** The persistence interface of [store/src/traits.rs]: the traits
    [ResponseStore] and [ConversationItemStore] as type classes over the state
    [S] of a backend, the combined [PersistedStateBackend], and the promise that
    request-driven callers rely on, [OwnerConfined].

    A trait method is a [Call]: from the backend's state to the new state and
    the result, or [None] when the call does not return (a panic aborts the
    process). *)

From S2P Require Import Prelude Json StoreTypes.

Local Open Scope Z_scope.

Definition Call (S A : Type) : Type := S -> option (S * result StoreError A).

(** [x.await?; k]. *)
Definition and_then {S A B} (c : Call S A) (k : A -> Call S B) : Call S B := fun s =>
  match c s with
  | None => None
  | Some (s', Ok a) => k a s'
  | Some (s', Err e) => Some (s', Err e)
  end.

Definition ret_ok {S A} (a : A) : Call S A := fun s => Some (s, Ok a).
Definition ret_err {S A} (e : StoreError) : Call S A := fun s => Some (s, Err e).

(** * The traits *)

Class ResponseStore (S : Type) := {
  upsert_response : ResponseRecord -> Call S unit;
  get_response : StateOwner -> string -> Call S (option ResponseRecord);
  delete_response : StateOwner -> string -> Call S bool;
  response_get_conversation : StateOwner -> string -> Call S (option ConversationRecord);
  record_pending_approvals : StateOwner -> string -> list PendingApprovalRecord -> Z -> Call S unit;
  persist_response_with_pending_approvals : ResponseRecord -> list PendingApprovalRecord -> Call S unit;
  get_pending_approvals : StateOwner -> string -> list string -> Call S (list PendingApprovalRecord);
  consume_approvals : StateOwner -> string -> list string -> Z -> Call S (option nat);
  append_events : StateOwner -> string -> list ResponseEventRecord -> Call S unit;
  list_events_after : StateOwner -> string -> option N -> N -> Call S (list ResponseEventRecord);
  event_log_status : StateOwner -> string -> Call S EventLogStatus
}.

(** The provided body of [persist_response_with_pending_approvals]. *)
Definition persist_sequentially {S}
    (upsert : ResponseRecord -> Call S unit)
    (record : StateOwner -> string -> list PendingApprovalRecord -> Z -> Call S unit)
    (r : ResponseRecord) (pending : list PendingApprovalRecord) : Call S unit :=
  and_then (upsert r) (fun _ =>
    match pending with
    | [] => ret_ok tt
    | _ => and_then (record (r_owner r) (r_id r) pending (r_created_at r)) (fun _ => ret_ok tt)
    end).

Class ConversationItemStore (S : Type) := {
  upsert_conversation : ConversationRecord -> Call S unit;
  update_conversation_messages : StateOwner -> string -> Json -> Call S bool;
  update_conversation_metadata : StateOwner -> string -> Json -> Call S bool;
  compare_and_swap_conversation_messages : StateOwner -> string -> Json -> Json -> Call S bool;
  get_conversation : StateOwner -> string -> Call S (option ConversationRecord);
  delete_conversation : StateOwner -> string -> Call S bool;
  create_conversation_items : list ConversationItemRecord -> Call S unit;
  list_conversation_items : StateOwner -> string -> option string -> N -> bool -> Call S (list ConversationItemRecord);
  get_existing_conversation_item_ids : StateOwner -> string -> list string -> Call S (list string);
  get_conversation_item : StateOwner -> string -> string -> Call S (option ConversationItemRecord);
  delete_conversation_item : StateOwner -> string -> string -> Call S bool;
  conversation_item_position : StateOwner -> string -> string -> Call S (option Z);
  max_item_position : StateOwner -> string -> Call S Z;
  conversation_history : StateOwner -> string -> Call S (option (list Json));
  create_items_and_sync_messages : StateOwner -> string -> list ConversationItemRecord -> Call S unit;
  delete_item_and_sync_messages : StateOwner -> string -> string -> Call S bool
}.

Class PersistedStateBackend (S : Type) := {
  backend_responses :: ResponseStore S;
  backend_items :: ConversationItemStore S
}.

(** * Operations as data *)

(** The state-changing methods. *)
Inductive store_op :=
| UpsertResponse (r : ResponseRecord)
| DeleteResponse (o : StateOwner) (id : string)
| RecordApprovals (o : StateOwner) (rid : string) (recs : list PendingApprovalRecord) (created_at : Z)
| PersistResponse (r : ResponseRecord) (recs : list PendingApprovalRecord)
| ConsumeApprovals (o : StateOwner) (rid : string) (ids : list string) (at_ : Z)
| AppendEvents (o : StateOwner) (rid : string) (evs : list ResponseEventRecord)
| UpsertConversation (r : ConversationRecord)
| UpdateMessages (o : StateOwner) (cid : string) (m : Json)
| UpdateMetadata (o : StateOwner) (cid : string) (m : Json)
| SwapMessages (o : StateOwner) (cid : string) (expected m : Json)
| DeleteConversation (o : StateOwner) (cid : string)
| CreateItems (l : list ConversationItemRecord)
| CreateItemsSync (o : StateOwner) (cid : string) (l : list ConversationItemRecord)
| DeleteItem (o : StateOwner) (cid iid : string)
| DeleteItemSync (o : StateOwner) (cid iid : string).

(** The owner an operation acts for. *)
Definition acts_for (o : StateOwner) (op : store_op) : bool :=
  match op with
  | UpsertResponse r | PersistResponse r _ => bool_decide (r_owner r = o)
  | UpsertConversation r => bool_decide (c_owner r = o)
  | CreateItems l => existsb (fun i => bool_decide (i_owner i = o)) l
  | DeleteResponse o' _ | RecordApprovals o' _ _ _ | ConsumeApprovals o' _ _ _ | AppendEvents o' _ _
  | UpdateMessages o' _ _ | UpdateMetadata o' _ _ | SwapMessages o' _ _ _ | DeleteConversation o' _
  | CreateItemsSync o' _ _ | DeleteItem o' _ _ | DeleteItemSync o' _ _ => bool_decide (o' = o)
  end.

(** The methods that only read. *)
Inductive store_query :=
| QResponse (id : string)
| QResponseConversation (cid : string)
| QApprovals (rid : string) (ids : list string)
| QEvents (rid : string) (after : option N) (limit : N)
| QEventStatus (rid : string)
| QConversation (cid : string)
| QItems (cid : string) (after : option string) (limit : N) (ascending : bool)
| QExistingIds (cid : string) (ids : list string)
| QItem (cid iid : string)
| QItemPosition (cid iid : string)
| QMaxPosition (cid : string)
| QHistory (cid : string).

Inductive store_reply :=
| RResponse (r : result StoreError (option ResponseRecord))
| RConversation (r : result StoreError (option ConversationRecord))
| RApprovals (r : result StoreError (list PendingApprovalRecord))
| REvents (r : result StoreError (list ResponseEventRecord))
| REventStatus (r : result StoreError EventLogStatus)
| RItems (r : result StoreError (list ConversationItemRecord))
| RIds (r : result StoreError (list string))
| RItem (r : result StoreError (option ConversationItemRecord))
| RPosition (r : result StoreError (option Z))
| RMaxPosition (r : result StoreError Z)
| RHistory (r : result StoreError (option (list Json))).

Section Operations.
Context {S : Type} `{!ResponseStore S, !ConversationItemStore S}.

Definition state_after {A} (x : option (S * result StoreError A)) : option S := fst <$> x.

(** The state after an operation. *)
Definition exec_op (op : store_op) (s : S) : option S :=
  match op with
  | UpsertResponse r => state_after (upsert_response r s)
  | DeleteResponse o id => state_after (delete_response o id s)
  | RecordApprovals o rid recs t => state_after (record_pending_approvals o rid recs t s)
  | PersistResponse r recs => state_after (persist_response_with_pending_approvals r recs s)
  | ConsumeApprovals o rid ids t => state_after (consume_approvals o rid ids t s)
  | AppendEvents o rid evs => state_after (append_events o rid evs s)
  | UpsertConversation r => state_after (upsert_conversation r s)
  | UpdateMessages o cid m => state_after (update_conversation_messages o cid m s)
  | UpdateMetadata o cid m => state_after (update_conversation_metadata o cid m s)
  | SwapMessages o cid e m => state_after (compare_and_swap_conversation_messages o cid e m s)
  | DeleteConversation o cid => state_after (delete_conversation o cid s)
  | CreateItems l => state_after (create_conversation_items l s)
  | CreateItemsSync o cid l => state_after (create_items_and_sync_messages o cid l s)
  | DeleteItem o cid iid => state_after (delete_conversation_item o cid iid s)
  | DeleteItemSync o cid iid => state_after (delete_item_and_sync_messages o cid iid s)
  end.

Definition ask {A} (c : Call S A) (k : result StoreError A -> store_reply) : Call S store_reply := fun s =>
  match c s with None => None | Some (s', r) => Some (s', Ok (k r)) end.

(** A reading method called for owner [o]. *)
Definition run_query (o : StateOwner) (q : store_query) : Call S store_reply :=
  match q with
  | QResponse id => ask (get_response o id) RResponse
  | QResponseConversation cid => ask (response_get_conversation o cid) RConversation
  | QApprovals rid ids => ask (get_pending_approvals o rid ids) RApprovals
  | QEvents rid after limit => ask (list_events_after o rid after limit) REvents
  | QEventStatus rid => ask (event_log_status o rid) REventStatus
  | QConversation cid => ask (get_conversation o cid) RConversation
  | QItems cid after limit asc => ask (list_conversation_items o cid after limit asc) RItems
  | QExistingIds cid ids => ask (get_existing_conversation_item_ids o cid ids) RIds
  | QItem cid iid => ask (get_conversation_item o cid iid) RItem
  | QItemPosition cid iid => ask (conversation_item_position o cid iid) RPosition
  | QMaxPosition cid => ask (max_item_position o cid) RMaxPosition
  | QHistory cid => ask (conversation_history o cid) RHistory
  end.
End Operations.

(** * What a backend promises *)

(** Owners are confined: there is a notion of two states looking the same to an
    owner that operations for other owners preserve and that determines every
    answer given to the owner; answering does not change the state. *)
Class OwnerConfined (S : Type) `{!ResponseStore S, !ConversationItemStore S} := {
  looks_same : StateOwner -> S -> S -> Prop;
  looks_same_preorder o :: PreOrder (looks_same o);
  confined_op o op s s' : acts_for o op = false -> exec_op op s = Some s' -> looks_same o s s';
  confined_query o q s s' :
    looks_same o s s' -> snd <$> run_query o q s' = snd <$> run_query o q s;
  query_pure o q s s' r : run_query o q s = Some (s', r) -> s' = s
}.
