(* ===== verification/StoreRegistry.v ===== *)
(** Named backends and owner-bound handles: [store/src/registry.rs].

    Backends are shared objects: a [World] holds their states at locations, and
    an [Arc<dyn PersistedStateBackend>] is a location.  [OwnerScopedStore] is a
    location and the owner every call through the handle is bound to.  A
    [StoreRegistry] value is itself a pair of shared cells, the name map and the
    ready flag, so that clones of it see each other's changes. *)

From S2P Require Import Prelude Json StoreTypes StoreApi.

Local Open Scope Z_scope.

Abbreviation loc := N.

Section Facade.
Context {S : Type} `{!PersistedStateBackend S}.

(** The states of the backends. *)
Abbreviation World := (gmap N S).

(** A trait method called through an [Arc]. *)
Definition on_backend {A} (l : loc) (c : Call S A) : Call World A := fun w =>
  match w !! l with
  | None => None
  | Some s => match c s with None => None | Some (s', r) => Some (<[l := s']> w, r) end
  end.

Record OwnerScopedStore := mkScoped { store : loc; owner : StateOwner }.

(** [require_matching_owner]. *)
Definition require_matching_owner (h : OwnerScopedStore) (o : StateOwner) : Call World unit :=
  if bool_decide (o = owner h) then ret_ok tt
  else ret_err (InvalidInput "record owner does not match owner-scoped store").

(** [for record in records { require_matching_owner(..)? }]. *)
Fixpoint require_all (h : OwnerScopedStore) (os : list StateOwner) : Call World unit :=
  match os with
  | [] => ret_ok tt
  | o :: os => and_then (require_matching_owner h o) (fun _ => require_all h os)
  end.

(** ** Responses *)

Definition scoped_get_response (h : OwnerScopedStore) (id : string) : Call World (option ResponseRecord) :=
  on_backend (store h) (get_response (owner h) id).

Definition scoped_delete_response (h : OwnerScopedStore) (id : string) : Call World bool :=
  on_backend (store h) (delete_response (owner h) id).

Definition scoped_get_conversation (h : OwnerScopedStore) (id : string) : Call World (option ConversationRecord) :=
  on_backend (store h) (response_get_conversation (owner h) id).

Definition scoped_upsert_response (h : OwnerScopedStore) (record : ResponseRecord) : Call World unit :=
  and_then (require_matching_owner h (r_owner record)) (fun _ =>
  on_backend (store h) (upsert_response record)).

Definition scoped_persist_response_with_pending_approvals (h : OwnerScopedStore) (record : ResponseRecord)
    (pending : list PendingApprovalRecord) : Call World unit :=
  and_then (require_matching_owner h (r_owner record)) (fun _ =>
  on_backend (store h) (persist_response_with_pending_approvals record pending)).

Definition scoped_get_pending_approvals (h : OwnerScopedStore) (rid : string) (ids : list string)
    : Call World (list PendingApprovalRecord) :=
  on_backend (store h) (get_pending_approvals (owner h) rid ids).

Definition scoped_consume_approvals (h : OwnerScopedStore) (rid : string) (ids : list string) (consumed_at : Z)
    : Call World (option nat) :=
  on_backend (store h) (consume_approvals (owner h) rid ids consumed_at).

Definition scoped_append_events (h : OwnerScopedStore) (rid : string) (evs : list ResponseEventRecord)
    : Call World unit :=
  and_then (require_all h (e_owner <$> evs)) (fun _ =>
  on_backend (store h) (append_events (owner h) rid evs)).

Definition scoped_list_events_after (h : OwnerScopedStore) (rid : string) (after : option N) (limit : N)
    : Call World (list ResponseEventRecord) :=
  on_backend (store h) (list_events_after (owner h) rid after limit).

Definition scoped_event_log_status (h : OwnerScopedStore) (rid : string) : Call World EventLogStatus :=
  on_backend (store h) (event_log_status (owner h) rid).

(** ** Conversations *)

Definition scoped_upsert_conversation (h : OwnerScopedStore) (record : ConversationRecord) : Call World unit :=
  and_then (require_matching_owner h (c_owner record)) (fun _ =>
  on_backend (store h) (upsert_conversation record)).

Definition scoped_update_conversation_messages (h : OwnerScopedStore) (cid : string) (m : Json) : Call World bool :=
  on_backend (store h) (update_conversation_messages (owner h) cid m).

Definition scoped_update_conversation_metadata (h : OwnerScopedStore) (cid : string) (m : Json) : Call World bool :=
  on_backend (store h) (update_conversation_metadata (owner h) cid m).

Definition scoped_compare_and_swap_conversation_messages (h : OwnerScopedStore) (cid : string) (expected m : Json)
    : Call World bool :=
  on_backend (store h) (compare_and_swap_conversation_messages (owner h) cid expected m).

Definition scoped_delete_conversation (h : OwnerScopedStore) (cid : string) : Call World bool :=
  on_backend (store h) (delete_conversation (owner h) cid).

(** ** Items *)

Definition scoped_create_conversation_items (h : OwnerScopedStore) (l : list ConversationItemRecord)
    : Call World unit :=
  and_then (require_all h (i_owner <$> l)) (fun _ => on_backend (store h) (create_conversation_items l)).

Definition scoped_list_conversation_items (h : OwnerScopedStore) (cid : string) (after : option string)
    (limit : N) (ascending : bool) : Call World (list ConversationItemRecord) :=
  on_backend (store h) (list_conversation_items (owner h) cid after limit ascending).

Definition scoped_conversation_history (h : OwnerScopedStore) (cid : string) : Call World (option (list Json)) :=
  on_backend (store h) (conversation_history (owner h) cid).

Definition scoped_get_existing_conversation_item_ids (h : OwnerScopedStore) (cid : string) (ids : list string)
    : Call World (list string) :=
  on_backend (store h) (get_existing_conversation_item_ids (owner h) cid ids).

Definition scoped_get_conversation_item (h : OwnerScopedStore) (cid iid : string)
    : Call World (option ConversationItemRecord) :=
  on_backend (store h) (get_conversation_item (owner h) cid iid).

Definition scoped_delete_conversation_item (h : OwnerScopedStore) (cid iid : string) : Call World bool :=
  on_backend (store h) (delete_conversation_item (owner h) cid iid).

Definition scoped_conversation_item_position (h : OwnerScopedStore) (cid iid : string) : Call World (option Z) :=
  on_backend (store h) (conversation_item_position (owner h) cid iid).

Definition scoped_max_item_position (h : OwnerScopedStore) (cid : string) : Call World Z :=
  on_backend (store h) (max_item_position (owner h) cid).

Definition scoped_create_items_and_sync_messages (h : OwnerScopedStore) (cid : string)
    (l : list ConversationItemRecord) : Call World unit :=
  and_then (require_all h (i_owner <$> l)) (fun _ =>
  on_backend (store h) (create_items_and_sync_messages (owner h) cid l)).

Definition scoped_delete_item_and_sync_messages (h : OwnerScopedStore) (cid iid : string) : Call World bool :=
  on_backend (store h) (delete_item_and_sync_messages (owner h) cid iid).
End Facade.

(** * The registry *)

Record StoreRegistry := mkRegistry { stores_cell : loc; ready_cell : loc }.

(** The cells registries point to. *)
Record RegistryHeap := mkHeap { store_maps : gmap N (gmap string loc); ready_flags : gmap N bool }.

Definition registry_stores (H : RegistryHeap) (r : StoreRegistry) : gmap string loc :=
  default ∅ (store_maps H !! stores_cell r).
Definition registry_ready (H : RegistryHeap) (r : StoreRegistry) : bool :=
  default false (ready_flags H !! ready_cell r).

Definition set_stores (m : gmap string loc) (r : StoreRegistry) (H : RegistryHeap) : RegistryHeap :=
  mkHeap (<[stores_cell r := m]> (store_maps H)) (ready_flags H).

(** [StoreRegistry::new]: two fresh cells. *)
Definition registry_new (H : RegistryHeap) : RegistryHeap * StoreRegistry :=
  let r := mkRegistry (fresh (dom (store_maps H))) (fresh (dom (ready_flags H))) in
  (mkHeap (<[stores_cell r := ∅]> (store_maps H)) (<[ready_cell r := false]> (ready_flags H)), r).

(** [register]. *)
Definition register (H : RegistryHeap) (r : StoreRegistry) (name : string) (l : loc)
    : RegistryHeap * result StoreError unit :=
  match registry_stores H r !! name with
  | None => (set_stores (<[name := l]> (registry_stores H r)) r H, Ok tt)
  | Some _ => (H, Err (Unavailable ("persisted-state store '" +:+ name +:+ "' is already registered")))
  end.

(** [deregister]. *)
Definition deregister (H : RegistryHeap) (r : StoreRegistry) (name : string) : RegistryHeap :=
  set_stores (delete name (registry_stores H r)) r H.

(** [get_backend] and [get_scoped]. *)
Definition get_backend (H : RegistryHeap) (r : StoreRegistry) (name : string) : option loc :=
  registry_stores H r !! name.

Definition get_scoped (H : RegistryHeap) (r : StoreRegistry) (name : string) (o : StateOwner)
    : option OwnerScopedStore := (fun l => mkScoped l o) <$> get_backend H r name.

(** [contains], [mark_ready], [is_ready] and [shares_storage_with]. *)
Definition contains (H : RegistryHeap) (r : StoreRegistry) (name : string) : bool :=
  bool_decide (is_Some (registry_stores H r !! name)).

Definition mark_ready (H : RegistryHeap) (r : StoreRegistry) : RegistryHeap :=
  mkHeap (store_maps H) (<[ready_cell r := true]> (ready_flags H)).

Definition is_ready (H : RegistryHeap) (r : StoreRegistry) : bool := registry_ready H r.

Definition shares_storage_with (r r' : StoreRegistry) : bool :=
  bool_decide (stores_cell r = stores_cell r') && bool_decide (ready_cell r = ready_cell r').
