(* ===== verification/StoreRegistryProps.v ===== *)
(** Properties of the registry and the owner-bound handles ([StoreRegistry]),
    proved against the interface of [StoreApi]: whatever the backend, as long as
    it confines owners, calls through one owner's handles are invisible to every
    other owner; registrations never replace a backend. *)

From S2P Require Import Prelude Json StoreTypes StoreApi StoreRegistry.

(** * Calls through handles *)

(** The state-changing methods of a handle. *)
Inductive scoped_call :=
| SUpsertResponse (r : ResponseRecord)
| SDeleteResponse (id : string)
| SPersistResponse (r : ResponseRecord) (recs : list PendingApprovalRecord)
| SConsumeApprovals (rid : string) (ids : list string) (at_ : Z)
| SAppendEvents (rid : string) (evs : list ResponseEventRecord)
| SUpsertConversation (r : ConversationRecord)
| SUpdateMessages (cid : string) (m : Json)
| SUpdateMetadata (cid : string) (m : Json)
| SSwapMessages (cid : string) (expected m : Json)
| SDeleteConversation (cid : string)
| SCreateItems (l : list ConversationItemRecord)
| SCreateItemsSync (cid : string) (l : list ConversationItemRecord)
| SDeleteItem (cid iid : string)
| SDeleteItemSync (cid iid : string).

Section Facade.
Context {S : Type} `{!PersistedStateBackend S}.
Abbreviation World := (gmap N S).

Definition after_call {A} (x : option (World * result StoreError A)) : option World := fst <$> x.

Definition run_scoped (h : OwnerScopedStore) (c : scoped_call) (w : World) : option World :=
  match c with
  | SUpsertResponse r => after_call (scoped_upsert_response h r w)
  | SDeleteResponse id => after_call (scoped_delete_response h id w)
  | SPersistResponse r recs => after_call (scoped_persist_response_with_pending_approvals h r recs w)
  | SConsumeApprovals rid ids t => after_call (scoped_consume_approvals h rid ids t w)
  | SAppendEvents rid evs => after_call (scoped_append_events h rid evs w)
  | SUpsertConversation r => after_call (scoped_upsert_conversation h r w)
  | SUpdateMessages cid m => after_call (scoped_update_conversation_messages h cid m w)
  | SUpdateMetadata cid m => after_call (scoped_update_conversation_metadata h cid m w)
  | SSwapMessages cid e m => after_call (scoped_compare_and_swap_conversation_messages h cid e m w)
  | SDeleteConversation cid => after_call (scoped_delete_conversation h cid w)
  | SCreateItems l => after_call (scoped_create_conversation_items h l w)
  | SCreateItemsSync cid l => after_call (scoped_create_items_and_sync_messages h cid l w)
  | SDeleteItem cid iid => after_call (scoped_delete_conversation_item h cid iid w)
  | SDeleteItemSync cid iid => after_call (scoped_delete_item_and_sync_messages h cid iid w)
  end.

Fixpoint run_calls (cs : list (OwnerScopedStore * scoped_call)) (w : World) : option World :=
  match cs with
  | [] => Some w
  | (h, c) :: cs => w ← run_scoped h c w; run_calls cs w
  end.

(** The reading methods of a handle; both conversation queries use its
    read-only view. *)
Definition scoped_read (h : OwnerScopedStore) (q : store_query) : Call World store_reply :=
  match q with
  | QResponse id => ask (scoped_get_response h id) RResponse
  | QResponseConversation cid | QConversation cid => ask (scoped_get_conversation h cid) RConversation
  | QApprovals rid ids => ask (scoped_get_pending_approvals h rid ids) RApprovals
  | QEvents rid after limit => ask (scoped_list_events_after h rid after limit) REvents
  | QEventStatus rid => ask (scoped_event_log_status h rid) REventStatus
  | QItems cid after limit asc => ask (scoped_list_conversation_items h cid after limit asc) RItems
  | QExistingIds cid ids => ask (scoped_get_existing_conversation_item_ids h cid ids) RIds
  | QItem cid iid => ask (scoped_get_conversation_item h cid iid) RItem
  | QItemPosition cid iid => ask (scoped_conversation_item_position h cid iid) RPosition
  | QMaxPosition cid => ask (scoped_max_item_position h cid) RMaxPosition
  | QHistory cid => ask (scoped_conversation_history h cid) RHistory
  end.

(** ** What a call does *)

(** A call changes nothing, or performs one operation on the handle's backend
    that acts for the handle's owner only. *)
Definition one_op (h : OwnerScopedStore) (w w' : World) : Prop :=
  w' = w \/
  exists op s s', w !! store h = Some s /\ exec_op op s = Some s' /\ w' = <[store h := s']> w /\
    forall o, o <> owner h -> acts_for o op = false.

Lemma on_backend_op {A} (h : OwnerScopedStore) (c : Call S A) op w w' :
  (forall s, exec_op op s = state_after (c s)) -> (forall o, o <> owner h -> acts_for o op = false) ->
  after_call (on_backend (store h) c w) = Some w' -> one_op h w w'.
Proof.
  intros Hop Ho. unfold on_backend. destruct (w !! store h) as [s|] eqn:Hs; [|done].
  destruct (c s) as [[s' r]|] eqn:Hc; [|done]. intros [= <-]. right. exists op, s, s'.
  rewrite Hop, Hc. done.
Qed.

Lemma require_all_spec h os w :
  (exists e, require_all h os w = Some (w, Err e)) \/
  (require_all (S := S) h os w = Some (w, Ok tt) /\ Forall (fun o => o = owner h) os).
Proof.
  induction os as [|o os IH]; [right; split; [done|constructor]|]. cbn [require_all].
  unfold and_then, require_matching_owner. case_bool_decide as Ho; cbn.
  - destruct IH as [IH|[IH Hos]]; [by left|]. right. split; [done|by constructor].
  - left. eauto.
Qed.

Lemma guarded_call {A} h os (c : Call World A) w w' :
  after_call (and_then (require_all h os) (fun _ => c) w) = Some w' ->
  w' = w \/ (Forall (fun o => o = owner h) os /\ after_call (c w) = Some w').
Proof.
  unfold and_then. destruct (require_all_spec h os w) as [[e ->]|[-> Hos]]; [intros [= <-]; by left|].
  intros H. right. done.
Qed.

Lemma guard_one h o : require_matching_owner (S := S) h o = fun w => require_all h [o] w.
Proof. unfold require_all, and_then, require_matching_owner. by case_bool_decide. Qed.
End Facade.

Ltac one_call op :=
  eapply (on_backend_op _ _ op); [intros ?; reflexivity|cbn [acts_for]; intros ? ?; apply bool_decide_eq_false; by auto|eassumption].
Ltac one_guarded H op :=
  rewrite guard_one in H; apply (guarded_call _ [_]) in H as [->|[Ho H]]; [by left|];
  rewrite Forall_singleton in Ho;
  eapply (on_backend_op _ _ op);
    [intros ?; reflexivity|cbn [acts_for]; intros ? ?; apply bool_decide_eq_false; intros ?; congruence|eassumption].

Section Confinement.
Context {S : Type} `{!PersistedStateBackend S}.
Abbreviation World := (gmap N S).

Lemma run_scoped_one_op h c (w w' : World) : run_scoped h c w = Some w' -> one_op h w w'.
Proof.
  intros H. destruct c; cbn [run_scoped] in H.
  - unfold scoped_upsert_response in H. one_guarded H (UpsertResponse r).
  - one_call (DeleteResponse (owner h) id).
  - unfold scoped_persist_response_with_pending_approvals in H. one_guarded H (PersistResponse r recs).
  - one_call (ConsumeApprovals (owner h) rid ids at_).
  - unfold scoped_append_events in H. apply guarded_call in H as [->|[_ H]]; [by left|].
    one_call (AppendEvents (owner h) rid evs).
  - unfold scoped_upsert_conversation in H. one_guarded H (UpsertConversation r).
  - one_call (UpdateMessages (owner h) cid m).
  - one_call (UpdateMetadata (owner h) cid m).
  - one_call (SwapMessages (owner h) cid expected m).
  - one_call (DeleteConversation (owner h) cid).
  - unfold scoped_create_conversation_items in H. apply guarded_call in H as [->|[Ho H]]; [by left|].
    eapply (on_backend_op _ _ (CreateItems l)); [intros ?; reflexivity| |eassumption].
    cbn. intros o Hne. apply not_true_iff_false. rewrite existsb_exists. intros (i & Hi & Hio).
    apply bool_decide_eq_true in Hio. rewrite Forall_fmap, Forall_forall in Ho.
    apply list_elem_of_In in Hi. specialize (Ho i Hi). cbn in Ho. congruence.
  - unfold scoped_create_items_and_sync_messages in H. apply guarded_call in H as [->|[_ H]]; [by left|].
    one_call (CreateItemsSync (owner h) cid l).
  - one_call (DeleteItem (owner h) cid iid).
  - one_call (DeleteItemSync (owner h) cid iid).
Qed.

Context `{!OwnerConfined S}.

(** Two worlds look the same to an owner when each backend does. *)
Definition same_world (o : StateOwner) (w w' : World) : Prop :=
  forall l, option_Forall2 (looks_same o) (w !! l) (w' !! l).

#[export] Instance same_world_preorder o : PreOrder (same_world o).
Proof.
  split.
  - intros w l. destruct (w !! l); constructor. reflexivity.
  - intros w1 w2 w3 H1 H2 l. specialize (H1 l). specialize (H2 l).
    destruct H1; inversion H2; subst; constructor. by etrans.
Qed.

Lemma one_op_same o h w w' : owner h <> o -> one_op h w w' -> same_world o w w'.
Proof.
  intros Ho [->|(op & s & s' & Hs & He & -> & Ha)]; [reflexivity|]. intros l.
  destruct (decide (store h = l)) as [<-|Hne].
  - rewrite Hs, lookup_insert_eq. constructor. eapply confined_op; [|exact He]. by apply Ha.
  - rewrite lookup_insert_ne by done. destruct (w !! l); constructor. reflexivity.
Qed.

Lemma run_calls_same o cs w w' :
  Forall (fun c => owner c.1 <> o) cs -> run_calls cs w = Some w' -> same_world o w w'.
Proof.
  intros Hcs. revert w. induction Hcs as [|[h c] cs Ho _ IH]; intros w; cbn [run_calls]; [by intros [= <-]|].
  destruct (run_scoped h c w) as [w1|] eqn:E; [|done]. cbn. intros H. etrans; [|by apply IH].
  by eapply one_op_same, run_scoped_one_op.
Qed.

(** Reading through a handle is reading the backend for the owner. *)
Lemma scoped_read_backend (h : OwnerScopedStore) q : exists q',
  forall w : World, snd <$> scoped_read h q w =
    (s ← w !! store h; snd <$> run_query (owner h) q' s).
Proof.
  assert (forall A (c : Call S A) (k : result StoreError A -> store_reply) (w : World),
    snd <$> ask (on_backend (store h) c) k w = (s ← w !! store h; snd <$> ask c k s)) as Hask.
  { intros A c k w. unfold ask, on_backend. destruct (w !! store h) as [s|]; [|done]. cbn.
    by destruct (c s) as [[s' r]|]. }
  exists (match q with QConversation cid => QResponseConversation cid | q => q end).
  intros w. destruct q; apply Hask.
Qed.

Lemma scoped_read_same o l q w w' :
  same_world o w w' -> snd <$> scoped_read (mkScoped l o) q w' = snd <$> scoped_read (mkScoped l o) q w.
Proof.
  intros Hw. destruct (scoped_read_backend (mkScoped l o) q) as [q' Hq]. rewrite !Hq. cbn [store owner].
  specialize (Hw l). destruct Hw as [s s' Hs|]; [|done]. cbn. by apply confined_query.
Qed.

(** C15. Owner-bound access, for every backend that confines owners: whatever
    sequence of calls other owners make through the handles a registry gives
    them, with whatever records, every read through a handle the registry gives
    to owner [o] answers as before. *)
Theorem scoped_confinement (H : RegistryHeap) (r : StoreRegistry) o (cs : list (OwnerScopedStore * scoped_call)) w w' :
  Forall (fun c => exists name o', o' <> o /\ get_scoped H r name o' = Some c.1) cs ->
  run_calls cs w = Some w' ->
  forall name h q, get_scoped H r name o = Some h ->
  snd <$> scoped_read h q w' = snd <$> scoped_read h q w.
Proof.
  intros Hcs Hrun name h q. unfold get_scoped. destruct (get_backend H r name) as [l|]; [|done]. intros [= <-].
  apply scoped_read_same, (run_calls_same o cs); [|done]. eapply Forall_impl; [exact Hcs|].
  intros c (n & o' & Ho & Hg). unfold get_scoped in Hg.
  destruct (get_backend H r n); [|done]. by injection Hg as <-.
Qed.
End Confinement.

(** * The registry *)

(** Registered names keep their backend until they are deregistered. *)
Inductive registry_step (r : StoreRegistry) : RegistryHeap -> RegistryHeap -> Prop :=
| rs_register H name l : registry_step r H (register H r name l).1
| rs_ready H : registry_step r H (mark_ready H r).

Lemma registered_stays r H H' name l :
  rtc (registry_step r) H H' -> get_backend H r name = Some l -> get_backend H' r name = Some l.
Proof.
  intros Hs Hg. induction Hs as [|H H1 H2 Hstep _ IH]; [done|]. apply IH.
  destruct Hstep as [H n l'|H]; [|done]. unfold register. destruct (registry_stores H r !! n) eqn:En; [done|].
  unfold get_backend, registry_stores in *. cbn. rewrite lookup_insert_eq. cbn.
  destruct (decide (n = name)) as [->|]; [|by rewrite lookup_insert_ne].
  unfold id in *. congruence.
Qed.
