(* ===== verification/MemoryStore.v ===== *)
(** In-memory response and conversation store: [store/src/memory.rs].

    The whole state is one value behind a mutex; each trait method is one
    critical section, modelled as a function of that state.  The release profile
    aborts on panic, so the mutex is never poisoned and [lock] succeeds. *)

From S2P Require Import Prelude Utf8 Json Sorting StoreTypes.
From stdpp Require Import pretty.

Local Open Scope Z_scope.

Abbreviation OwnerKey := (StateOwner * string)%type.
Abbreviation ApprovalKey := (StateOwner * string * string)%type.

Record StoredApproval := mkStored { a_record : PendingApprovalRecord; consumed_at : option Z }.

Record Inner := mkInner {
  responses : gmap string ResponseRecord;
  conversations : gmap OwnerKey ConversationRecord;
  conversation_ids : gmap string StateOwner;
  items : gmap OwnerKey (list ConversationItemRecord);
  item_ids : gset OwnerKey;
  approvals : gmap ApprovalKey StoredApproval;
  events : gmap OwnerKey (list ResponseEventRecord)
}.

(** [InMemoryStore::new]. *)
Definition inner_new : Inner := mkInner ∅ ∅ ∅ ∅ ∅ ∅ ∅.

Definition with_responses (v : gmap string ResponseRecord) (s : Inner) : Inner :=
  mkInner v (conversations s) (conversation_ids s) (items s) (item_ids s) (approvals s) (events s).
Definition with_conversations (v : gmap OwnerKey ConversationRecord) (s : Inner) : Inner :=
  mkInner (responses s) v (conversation_ids s) (items s) (item_ids s) (approvals s) (events s).
Definition with_conversation_ids (v : gmap string StateOwner) (s : Inner) : Inner :=
  mkInner (responses s) (conversations s) v (items s) (item_ids s) (approvals s) (events s).
Definition with_items (v : gmap OwnerKey (list ConversationItemRecord)) (s : Inner) : Inner :=
  mkInner (responses s) (conversations s) (conversation_ids s) v (item_ids s) (approvals s) (events s).
Definition with_item_ids (v : gset OwnerKey) (s : Inner) : Inner :=
  mkInner (responses s) (conversations s) (conversation_ids s) (items s) v (approvals s) (events s).
Definition with_approvals (v : gmap ApprovalKey StoredApproval) (s : Inner) : Inner :=
  mkInner (responses s) (conversations s) (conversation_ids s) (items s) (item_ids s) v (events s).
Definition with_events (v : gmap OwnerKey (list ResponseEventRecord)) (s : Inner) : Inner :=
  mkInner (responses s) (conversations s) (conversation_ids s) (items s) (item_ids s) (approvals s) v.

Definition set_messages (v : Json) (r : ConversationRecord) : ConversationRecord :=
  mkConversation (c_id r) (c_owner r) (c_created_at r) (c_metadata r) v.
Definition set_metadata (v : Json) (r : ConversationRecord) : ConversationRecord :=
  mkConversation (c_id r) (c_owner r) (c_created_at r) v (c_messages r).
Definition set_created_at (v : Z) (r : ConversationRecord) : ConversationRecord :=
  mkConversation (c_id r) (c_owner r) v (c_metadata r) (c_messages r).
Definition set_position (v : Z) (i : ConversationItemRecord) : ConversationItemRecord :=
  mkItem (i_id i) (i_owner i) (i_conversation i) (i_data i) (i_created_at i) v.

(** By position, then by item id in byte order. *)
Definition item_leb (a b : ConversationItemRecord) : bool :=
  (i_position a <? i_position b) || ((i_position a =? i_position b) && String.leb (i_id a) (i_id b)).

Definition event_leb (a b : ResponseEventRecord) : bool := (sequence_number a <=? sequence_number b)%N.

(** [Iterator::max] on [i64]. *)
Definition max_position (l : list ConversationItemRecord) : option Z :=
  match l with
  | [] => None
  | i :: l => Some (foldl (fun m x => Z.max m (i_position x)) (i_position i) l)
  end.

(** * Helpers *)

(** [ordered_messages]. *)
Definition ordered_messages (l : list ConversationItemRecord) : list Json :=
  i_data <$> sort_by item_leb l.

Definition has_legacy (messages : Json) : bool :=
  match get messages "legacy_messages" with Some v => is_array v | None => false end.

(** [preserve_legacy_history]. *)
Definition preserve_legacy_history (s : Inner) (key : OwnerKey) : Inner * result StoreError unit :=
  let has_items := match items s !! key with Some l => negb (bool_decide (length l = 0%nat)) | None => false end in
  match conversations s !! key with
  | None => (s, Ok tt)
  | Some record =>
      let m := c_messages record in
      if has_legacy m then (s, Ok tt)
      else if negb has_items && negb (is_null m) && negb (is_array m) then
        (s, Err (Serialization "invalid legacy conversation history"))
      else
        let m' :=
          if negb has_items && match as_array m with Some l => negb (bool_decide (length l = 0%nat)) | None => false end
          then JObject [("legacy_messages"%string, m)]
          else JArray [] in
        (with_conversations (<[key := set_messages m' record]> (conversations s)) s, Ok tt)
  end.

(** [replaces_legacy_history]. *)
Definition replaces_legacy_history (current replacement : Json) : bool :=
  has_legacy current && negb (json_eqb current replacement).

(** [upsert_response_into]. *)
Definition upsert_response_into (s : Inner) (record : ResponseRecord) : Inner * result StoreError unit :=
  let collision :=
    match responses s !! r_id record with
    | Some existing => negb (bool_decide (r_owner existing = r_owner record))
    | None => false
    end in
  if collision then (s, Err (Database "response id collision"))
  else (with_responses (<[r_id record := record]> (responses s)) s, Ok tt).

(** [reject_duplicate_item_ids]; [seen] holds the keys of the batch so far. *)
Fixpoint reject_duplicate_item_ids (s : Inner) (seen : gset OwnerKey) (l : list ConversationItemRecord)
    : result StoreError unit :=
  match l with
  | [] => Ok tt
  | item :: l =>
      let key := (i_owner item, i_id item) in
      if bool_decide (key ∈ seen) || bool_decide (key ∈ item_ids s) then
        Err (InvalidInput ("conversation item '" +:+ i_id item +:+ "' already exists"))
      else reject_duplicate_item_ids s ({[key]} ∪ seen) l
  end.

(** The decimal rendering of an [i64]. *)
Definition i64_to_string (z : Z) : string := pretty z.

(** [reject_duplicate_item_positions]. *)
Fixpoint reject_duplicate_item_positions (s : Inner) (seen : gset (StateOwner * string * Z))
    (l : list ConversationItemRecord) : result StoreError unit :=
  match l with
  | [] => Ok tt
  | item :: l =>
      let key := (i_owner item, i_conversation item, i_position item) in
      let stored_collision :=
        match items s !! (i_owner item, i_conversation item) with
        | Some stored => existsb (fun e => i_position e =? i_position item) stored
        | None => false
        end in
      if bool_decide (key ∈ seen) || stored_collision then
        Err (InvalidInput ("conversation position '" +:+ i64_to_string (i_position item) +:+ "' already exists"))
      else reject_duplicate_item_positions s ({[key]} ∪ seen) l
  end.

(** [require_conversation_scope]. *)
Definition require_conversation_scope (s : Inner) (owner : StateOwner) (conversation_id : string)
    (l : list ConversationItemRecord) : result StoreError unit :=
  if negb (forallb (fun i => bool_decide (i_owner i = owner) && bool_decide (i_conversation i = conversation_id)) l)
  then Err (InvalidInput "conversation item scope does not match its parent")
  else if negb (bool_decide (is_Some (conversations s !! (owner, conversation_id))))
  then Err (Database ("conversation disappeared during message sync: " +:+ conversation_id))
  else Ok tt.

(** Whether the response exists under this owner. *)
Definition owns_response (s : Inner) (owner : StateOwner) (response_id : string) : bool :=
  match responses s !! response_id with
  | Some r => bool_decide (r_owner r = owner)
  | None => false
  end.

(** [approvals.entry(key).or_insert_with(..)]. *)
Definition record_approval (owner : StateOwner) (response_id : string)
    (m : gmap ApprovalKey StoredApproval) (rec : PendingApprovalRecord) : gmap ApprovalKey StoredApproval :=
  let key := (owner, response_id, approval_id rec) in
  match m !! key with
  | Some _ => m
  | None => <[key := mkStored rec None]> m
  end.

(** [record_approvals_into]. *)
Definition record_approvals_into (s : Inner) (owner : StateOwner) (response_id : string)
    (records : list PendingApprovalRecord) : Inner :=
  if negb (owns_response s owner response_id) then s
  else
    with_approvals
      (foldl (record_approval owner response_id) (approvals s) records) s.

(** The loop body of [append_events_into]. *)
Definition push_event (log : list ResponseEventRecord) (event : ResponseEventRecord)
    : list ResponseEventRecord :=
  if existsb (fun stored => (sequence_number stored =? sequence_number event)%N) log
  then log else log ++ [event].

(** [append_events_into]. *)
Definition append_events_into (s : Inner) (owner : StateOwner) (response_id : string)
    (evs : list ResponseEventRecord) : Inner :=
  if negb (owns_response s owner response_id) then s
  else
    let key := (owner, response_id) in
    let log := default [] (events s !! key) in
    with_events (<[key := foldl push_event log evs]> (events s)) s.

(** * Responses, approvals and events *)

Definition upsert_response (s : Inner) (record : ResponseRecord) : Inner * result StoreError unit :=
  upsert_response_into s record.

Definition get_response (s : Inner) (owner : StateOwner) (id : string)
    : result StoreError (option ResponseRecord) :=
  Ok (match responses s !! id with
      | Some r => if bool_decide (r_owner r = owner) then Some r else None
      | None => None
      end).

Definition delete_response (s : Inner) (owner : StateOwner) (id : string)
    : Inner * result StoreError bool :=
  let removed := owns_response s owner id in
  let s := if removed then with_responses (delete id (responses s)) s else s in
  let s := with_approvals
    (filter (fun e => negb (bool_decide (e.1.1.1 = owner) && bool_decide (e.1.1.2 = id)) = true) (approvals s)) s in
  let s := with_events (delete (owner, id) (events s)) s in
  (s, Ok removed).

Definition record_pending_approvals (s : Inner) (owner : StateOwner) (response_id : string)
    (records : list PendingApprovalRecord) (_created_at : Z) : Inner * result StoreError unit :=
  (record_approvals_into s owner response_id records, Ok tt).

Definition persist_response_with_pending_approvals (s : Inner) (record : ResponseRecord)
    (pending : list PendingApprovalRecord) : Inner * result StoreError unit :=
  match upsert_response_into s record with
  | (s, Err e) => (s, Err e)
  | (s, Ok _) => (record_approvals_into s (r_owner record) (r_id record) pending, Ok tt)
  end.

Definition get_pending_approvals (s : Inner) (owner : StateOwner) (response_id : string)
    (ids : list string) : result StoreError (list PendingApprovalRecord) :=
  Ok (omap (fun a => a_record <$> (approvals s !! (owner, response_id, a))) ids).

(** The validation loop of [consume_approvals]: the first id that cannot be
    claimed. *)
Fixpoint first_unclaimable (s : Inner) (owner : StateOwner) (response_id : string)
    (seen : gset string) (index : nat) (ids : list string) : option nat :=
  match ids with
  | [] => None
  | a :: ids =>
      if bool_decide (a ∈ seen) then Some index
      else
        match approvals s !! (owner, response_id, a) with
        | Some (mkStored _ None) =>
            first_unclaimable s owner response_id ({[a]} ∪ seen) (S index) ids
        | _ => Some index
        end
  end.

Definition mark_one (owner : StateOwner) (response_id : string) (at_ : Z)
    (m : gmap ApprovalKey StoredApproval) (a : string) : gmap ApprovalKey StoredApproval :=
  let key := (owner, response_id, a) in
  match m !! key with
  | Some stored => <[key := mkStored (a_record stored) (Some at_)]> m
  | None => m
  end.

(** The marking loop. *)
Definition mark_consumed (owner : StateOwner) (response_id : string) (at_ : Z)
    (m : gmap ApprovalKey StoredApproval) (ids : list string) : gmap ApprovalKey StoredApproval :=
  foldl (mark_one owner response_id at_) m ids.

Definition consume_approvals (s : Inner) (owner : StateOwner) (response_id : string)
    (ids : list string) (at_ : Z) : Inner * result StoreError (option nat) :=
  match first_unclaimable s owner response_id ∅ 0 ids with
  | Some index => (s, Ok (Some index))
  | None => (with_approvals (mark_consumed owner response_id at_ (approvals s) ids) s, Ok None)
  end.

Definition append_events (s : Inner) (owner : StateOwner) (response_id : string)
    (evs : list ResponseEventRecord) : Inner * result StoreError unit :=
  (append_events_into s owner response_id evs, Ok tt).

(** [after.is_none_or(|cursor| event.sequence_number > cursor)]. *)
Definition after_cursor (after : option N) (e : ResponseEventRecord) : bool :=
  match after with None => true | Some cursor => (cursor <? sequence_number e)%N end.

Definition list_events_after (s : Inner) (owner : StateOwner) (response_id : string)
    (after : option N) (limit : N) : result StoreError (list ResponseEventRecord) :=
  match events s !! (owner, response_id) with
  | None => Ok []
  | Some log =>
      let ordered := filter (fun e => after_cursor after e = true) log in
      Ok (take (N.to_nat limit) (sort_by event_leb ordered))
  end.

Definition event_log_status (s : Inner) (owner : StateOwner) (response_id : string)
    : result StoreError EventLogStatus :=
  match events s !! (owner, response_id) with
  | None => Ok Absent
  | Some log =>
      match iter_max (sequence_number <$> log) with
      | None => Ok Absent
      | Some max_sequence =>
          if existsb e_terminal log then Ok (Replayable max_sequence) else Ok (Incomplete max_sequence)
      end
  end.

(** * Conversations *)

Definition upsert_conversation (s : Inner) (record : ConversationRecord) : Inner * result StoreError unit :=
  let collision :=
    match conversation_ids s !! c_id record with
    | Some o => negb (bool_decide (o = c_owner record))
    | None => false
    end in
  if collision then (s, Err (Database "conversation id collision"))
  else
    let key := (c_owner record, c_id record) in
    if match conversations s !! key with
       | Some existing => replaces_legacy_history (c_messages existing) (c_messages record)
       | None => false
       end
    then (s, Err (Database "conversation upsert would replace legacy history"))
    else
      let created_at :=
        match conversations s !! key with
        | Some existing => c_created_at existing
        | None => c_created_at record
        end in
      let stored := set_created_at created_at record in
      let s := with_conversation_ids (<[c_id record := c_owner record]> (conversation_ids s)) s in
      (with_conversations (<[key := stored]> (conversations s)) s, Ok tt).

Definition update_conversation_messages (s : Inner) (owner : StateOwner) (conversation_id : string)
    (messages : Json) : Inner * result StoreError bool :=
  match conversations s !! (owner, conversation_id) with
  | Some record =>
      if negb (replaces_legacy_history (c_messages record) messages)
      then (with_conversations (<[(owner, conversation_id) := set_messages messages record]> (conversations s)) s, Ok true)
      else (s, Ok false)
  | None => (s, Ok false)
  end.

Definition update_conversation_metadata (s : Inner) (owner : StateOwner) (conversation_id : string)
    (metadata : Json) : Inner * result StoreError bool :=
  match conversations s !! (owner, conversation_id) with
  | Some record =>
      (with_conversations (<[(owner, conversation_id) := set_metadata metadata record]> (conversations s)) s, Ok true)
  | None => (s, Ok false)
  end.

Definition compare_and_swap_conversation_messages (s : Inner) (owner : StateOwner)
    (conversation_id : string) (expected messages : Json) : Inner * result StoreError bool :=
  match conversations s !! (owner, conversation_id) with
  | Some record =>
      if json_eqb (c_messages record) expected && negb (replaces_legacy_history (c_messages record) messages)
      then (with_conversations (<[(owner, conversation_id) := set_messages messages record]> (conversations s)) s, Ok true)
      else (s, Ok false)
  | None => (s, Ok false)
  end.

Definition get_conversation (s : Inner) (owner : StateOwner) (conversation_id : string)
    : result StoreError (option ConversationRecord) := Ok (conversations s !! (owner, conversation_id)).

Definition delete_conversation (s : Inner) (owner : StateOwner) (conversation_id : string)
    : Inner * result StoreError bool :=
  let removed := bool_decide (is_Some (conversations s !! (owner, conversation_id))) in
  let s := with_conversations (delete (owner, conversation_id) (conversations s)) s in
  let s := if removed then with_conversation_ids (delete conversation_id (conversation_ids s)) s else s in
  (s, Ok removed).

(** * Conversation items *)

(** [item_ids.insert(..)] and [items.entry(..).or_default().push(item)]. *)
Definition push_item (key : OwnerKey) (s : Inner) (item : ConversationItemRecord) : Inner :=
  let s := with_item_ids ({[(i_owner item, i_id item)]} ∪ item_ids s) s in
  with_items (<[key := default [] (items s !! key) ++ [item]]> (items s)) s.

Definition create_conversation_items (s : Inner) (l : list ConversationItemRecord)
    : Inner * result StoreError unit :=
  if negb (forallb (fun i => bool_decide (is_Some (conversations s !! (i_owner i, i_conversation i)))) l)
  then (s, Err (InvalidInput "conversation item scope does not match its parent"))
  else
    match reject_duplicate_item_ids s ∅ l with
    | Err e => (s, Err e)
    | Ok _ =>
        match reject_duplicate_item_positions s ∅ l with
        | Err e => (s, Err e)
        | Ok _ => (foldl (fun s i => push_item (i_owner i, i_conversation i) s i) s l, Ok tt)
        end
    end.

Definition list_conversation_items (s : Inner) (owner : StateOwner) (conversation_id : string)
    (after_item_id : option string) (limit : N) (ascending : bool)
    : result StoreError (list ConversationItemRecord) :=
  let ordered := sort_by item_leb (default [] (items s !! (owner, conversation_id))) in
  let ordered := if ascending then ordered else reverse ordered in
  match after_item_id with
  | Some cursor =>
      match position (fun i => bool_decide (i_id i = cursor)) ordered with
      | Some index => Ok (take (N.to_nat limit) (drop (index + 1) ordered))
      | None => Ok []
      end
  | None => Ok (take (N.to_nat limit) (drop 0 ordered))
  end.

Definition get_existing_conversation_item_ids (s : Inner) (owner : StateOwner) (conversation_id : string)
    (ids : list string) : result StoreError (list string) :=
  match items s !! (owner, conversation_id) with
  | None => Ok []
  | Some l => Ok (filter (fun id => id ∈ (i_id <$> l)) ids)
  end.

Definition find_item (id : string) (l : list ConversationItemRecord) : option ConversationItemRecord :=
  List.find (fun i => bool_decide (i_id i = id)) l.

Definition get_conversation_item (s : Inner) (owner : StateOwner) (conversation_id item_id : string)
    : result StoreError (option ConversationItemRecord) :=
  Ok (items s !! (owner, conversation_id) ≫= find_item item_id).

(** [Vec::remove]. *)
Definition remove_at {A} (n : nat) (l : list A) : list A := take n l ++ drop (S n) l.

Definition delete_conversation_item (s : Inner) (owner : StateOwner) (conversation_id item_id : string)
    : Inner * result StoreError bool :=
  match items s !! (owner, conversation_id) with
  | None => (s, Ok false)
  | Some l =>
      match position (fun i => bool_decide (i_id i = item_id)) l with
      | None => (s, Ok false)
      | Some index =>
          let s := with_items (<[(owner, conversation_id) := remove_at index l]> (items s)) s in
          (with_item_ids (item_ids s ∖ {[(owner, item_id)]}) s, Ok true)
      end
  end.

Definition conversation_item_position (s : Inner) (owner : StateOwner) (conversation_id item_id : string)
    : result StoreError (option Z) :=
  Ok (i_position <$> (items s !! (owner, conversation_id) ≫= find_item item_id)).

Definition max_item_position (s : Inner) (owner : StateOwner) (conversation_id : string)
    : result StoreError Z :=
  Ok (default 0 (items s !! (owner, conversation_id) ≫= max_position)).

Definition conversation_history (s : Inner) (owner : StateOwner) (conversation_id : string)
    : result StoreError (option (list Json)) :=
  let key := (owner, conversation_id) in
  match conversations s !! key with
  | None => Ok None
  | Some record =>
      let l := default [] (items s !! key) in
      let history := default [] (get (c_messages record) "legacy_messages" ≫= as_array) in
      let history :=
        if bool_decide (length l = 0%nat) && bool_decide (length history = 0%nat)
        then default [] (as_array (c_messages record)) else history in
      Ok (Some (history ++ ordered_messages l))
  end.

Definition i64_max : Z := 9223372036854775807.

(** The loop of [create_items_and_sync_messages]; [next += 1] is checked, and
    [None] is its overflow panic. *)
Fixpoint push_numbered (key : OwnerKey) (next : Z) (s : Inner) (l : list ConversationItemRecord)
    : option Inner :=
  match l with
  | [] => Some s
  | item :: l =>
      if next =? i64_max then None
      else push_numbered key (next + 1) (push_item key s (set_position (next + 1) item)) l
  end.

Definition create_items_and_sync_messages (s : Inner) (owner : StateOwner) (conversation_id : string)
    (l : list ConversationItemRecord) : option (Inner * result StoreError unit) :=
  if bool_decide (length l = 0%nat) then Some (s, Ok tt)
  else
    let key := (owner, conversation_id) in
    match require_conversation_scope s owner conversation_id l with
    | Err e => Some (s, Err e)
    | Ok _ =>
        match reject_duplicate_item_ids s ∅ l with
        | Err e => Some (s, Err e)
        | Ok _ =>
            match preserve_legacy_history s key with
            | (s, Err e) => Some (s, Err e)
            | (s, Ok _) =>
                let next := default 0 (items s !! key ≫= max_position) in
                s ← push_numbered key next s l;
                Some (s, Ok tt)
            end
        end
    end.

Definition delete_item_and_sync_messages (s : Inner) (owner : StateOwner) (conversation_id item_id : string)
    : Inner * result StoreError bool :=
  let key := (owner, conversation_id) in
  match items s !! key ≫= position (fun i => bool_decide (i_id i = item_id)) with
  | None => (s, Ok false)
  | Some index =>
      if negb (bool_decide (is_Some (conversations s !! key))) then
        (s, Err (Database ("conversation disappeared during message sync: " +:+ conversation_id)))
      else
        match preserve_legacy_history s key with
        | (s, Err e) => (s, Err e)
        | (s, Ok _) =>
            match items s !! key with
            | None => (s, Err (Database "conversation items disappeared during message sync"))
            | Some l =>
                let s := with_items (<[key := remove_at index l]> (items s)) s in
                (with_item_ids (item_ids s ∖ {[(owner, item_id)]}) s, Ok true)
            end
        end
  end.
