(* ===== verification/MemoryStoreInv.v ===== *)
(** Invariant of the in-memory store ([MemoryStore]): keys agree with the
    records they hold, every conversation id has one owner, item ids are unique
    per owner and positions per conversation, event sequence numbers are
    distinct, and no approval or event outlives its response. *)

From S2P Require Import Prelude Utf8 Json StoreTypes StoreApi MemoryStore.

Local Open Scope Z_scope.

(** * Operations *)

(** The state after an operation; [None] when it panics. *)
Definition store_exec (s : Inner) (op : store_op) : option Inner :=
  match op with
  | UpsertResponse r => Some (upsert_response s r).1
  | DeleteResponse o id => Some (delete_response s o id).1
  | RecordApprovals o rid recs t => Some (record_pending_approvals s o rid recs t).1
  | PersistResponse r recs => Some (persist_response_with_pending_approvals s r recs).1
  | ConsumeApprovals o rid ids t => Some (consume_approvals s o rid ids t).1
  | AppendEvents o rid evs => Some (append_events s o rid evs).1
  | UpsertConversation r => Some (upsert_conversation s r).1
  | UpdateMessages o cid m => Some (update_conversation_messages s o cid m).1
  | UpdateMetadata o cid m => Some (update_conversation_metadata s o cid m).1
  | SwapMessages o cid e m => Some (compare_and_swap_conversation_messages s o cid e m).1
  | DeleteConversation o cid => Some (delete_conversation s o cid).1
  | CreateItems l => Some (create_conversation_items s l).1
  | CreateItemsSync o cid l => fst <$> create_items_and_sync_messages s o cid l
  | DeleteItem o cid iid => Some (delete_conversation_item s o cid iid).1
  | DeleteItemSync o cid iid => Some (delete_item_and_sync_messages s o cid iid).1
  end.

Inductive store_steps (s : Inner) : list store_op -> Inner -> Prop :=
| ss_nil : store_steps s [] s
| ss_snoc ops op s1 s2 :
    store_steps s ops s1 -> store_exec s1 op = Some s2 -> store_steps s (ops ++ [op]) s2.

(** * Invariant *)

Record responses_ok (s : Inner) : Prop := {
  ok_response_id id r : responses s !! id = Some r -> r_id r = id;
  ok_events o rid log : events s !! (o, rid) = Some log ->
    owns_response s o rid = true /\ NoDup (sequence_number <$> log);
  ok_approvals o rid a st : approvals s !! (o, rid, a) = Some st ->
    owns_response s o rid = true /\ approval_id (a_record st) = a
}.

Record conversations_ok (s : Inner) : Prop := {
  ok_conversation o cid r : conversations s !! (o, cid) = Some r ->
    c_owner r = o /\ c_id r = cid /\ conversation_ids s !! cid = Some o;
  ok_conversation_id o cid : conversation_ids s !! cid = Some o ->
    is_Some (conversations s !! (o, cid))
}.

(** [i] is stored for owner [o] in conversation [cid]. *)
Definition stored_item (s : Inner) (o : StateOwner) (cid : string) (i : ConversationItemRecord) : Prop :=
  exists l, items s !! (o, cid) = Some l /\ i ∈ l.

Record items_ok (s : Inner) : Prop := {
  ok_item_scope o cid i : stored_item s o cid i -> i_owner i = o /\ i_conversation i = cid;
  ok_item_positions o cid l : items s !! (o, cid) = Some l -> NoDup (i_position <$> l);
  ok_item_ids o cid l : items s !! (o, cid) = Some l -> NoDup (i_id <$> l);
  ok_item_set o iid : (o, iid) ∈ item_ids s <-> exists cid i, stored_item s o cid i /\ i_id i = iid;
  ok_item_unique o c1 c2 i j : stored_item s o c1 i -> stored_item s o c2 j -> i_id i = i_id j -> c1 = c2
}.

Definition store_inv (s : Inner) : Prop := responses_ok s /\ conversations_ok s /\ items_ok s.

Lemma inner_new_inv : store_inv inner_new.
Proof.
  split_and!; split; unfold inner_new, stored_item; cbn; try (intros; by simplify_map_eq).
  - intros o cid i (l & H & _). by simplify_map_eq.
  - intros o iid. split; [set_solver|]. intros (cid & i & (l & H & _) & _). by simplify_map_eq.
  - intros o c1 c2 i j (l & H & _). by simplify_map_eq.
Qed.

(** Each operation changes one of the three groups of fields. *)
Lemma responses_ok_frame s s' :
  responses s' = responses s -> events s' = events s -> approvals s' = approvals s ->
  responses_ok s -> responses_ok s'.
Proof. intros H1 H2 H3 [A B C]. split; unfold owns_response in *; rewrite H1, ?H2, ?H3; eauto. Qed.

Lemma conversations_ok_frame s s' :
  conversations s' = conversations s -> conversation_ids s' = conversation_ids s ->
  conversations_ok s -> conversations_ok s'.
Proof. intros H1 H2 [A B]. split; rewrite H1, H2; eauto. Qed.

Lemma items_ok_frame s s' :
  items s' = items s -> item_ids s' = item_ids s -> items_ok s -> items_ok s'.
Proof. intros H1 H2 [A B C D E]. split; unfold stored_item in *; rewrite ?H1, ?H2; eauto. Qed.

(** ** Responses *)

Lemma upsert_response_into_ok s r :
  responses_ok s -> responses_ok (upsert_response_into s r).1 /\
  ((upsert_response_into s r).2 = Ok tt -> owns_response (upsert_response_into s r).1 (r_owner r) (r_id r) = true).
Proof.
  intros [A B C]. unfold upsert_response_into. case_match eqn:Hcol; [split; [by split|done]|].
  assert (forall o rid, owns_response s o rid = true ->
    owns_response (with_responses (<[r_id r:=r]> (responses s)) s) o rid = true) as Hown.
  { intros o rid. unfold owns_response. cbn. destruct (decide (r_id r = rid)) as [<-|Hne].
    - rewrite lookup_insert_eq. destruct (responses s !! r_id r) as [x|]; [|done].
      apply negb_false_iff, bool_decide_eq_true in Hcol. by rewrite Hcol.
    - by rewrite lookup_insert_ne. }
  split; [|intros _; unfold owns_response; cbn; rewrite lookup_insert_eq; by apply bool_decide_eq_true].
  split; cbn.
  - intros id x Hx. apply lookup_insert_Some in Hx as [[<- <-]|[_ Hx]]; [done|by apply A].
  - intros o rid log Hl. destruct (B _ _ _ Hl). auto.
  - intros o rid a st Hst. destruct (C _ _ _ _ Hst). auto.
Qed.

Lemma delete_response_ok s o id : responses_ok s -> responses_ok (delete_response s o id).1.
Proof.
  intros [A B C]. unfold delete_response.
  set (s1 := if owns_response s o id then _ else s).
  assert (events s1 = events s /\ approvals s1 = approvals s) as [He Ha]
    by (unfold s1; by destruct (owns_response s o id)).
  assert (forall id' r, responses s1 !! id' = Some r -> responses s !! id' = Some r) as Hsub.
  { unfold s1. destruct (owns_response s o id); [|done]. cbn. intros id' r H.
    by apply lookup_delete_Some in H as [_ ?]. }
  assert (forall o' rid, (o', rid) <> (o, id) -> owns_response s o' rid = true ->
    owns_response s1 o' rid = true) as Hown.
  { intros o' rid Hne H. unfold s1. destruct (owns_response s o id) eqn:E; [|exact H].
    unfold owns_response. cbn. rewrite lookup_delete_ne; [exact H|]. intros <-.
    unfold owns_response in *. destruct (responses s !! id); [|done].
    apply bool_decide_eq_true in H, E. congruence. }
  clearbody s1. split; cbn.
  - eauto.
  - intros o' rid log Hl. rewrite He in Hl. apply lookup_delete_Some in Hl as [Hne Hl].
    destruct (B _ _ _ Hl). split; [|done]. by apply Hown.
  - intros o' rid a st Hst. rewrite Ha in Hst. apply map_lookup_filter_Some in Hst as [Hst Hk].
    cbn in Hk. destruct (C _ _ _ _ Hst). split; [|done]. apply Hown; [|done].
    intros [= -> ->]. rewrite !bool_decide_eq_true_2 in Hk by done. done.
Qed.

Lemma record_approvals_ok s o rid recs :
  responses_ok s -> responses_ok (record_approvals_into s o rid recs).
Proof.
  intros [A B C]. unfold record_approvals_into. destruct (owns_response s o rid) eqn:Ho; [|by split].
  cbn [negb]. split; cbn; [exact A|exact B|]. intros o' rid' a st.
  assert (forall m, (forall o' rid' a st, m !! (o', rid', a) = Some st ->
      owns_response s o' rid' = true /\ approval_id (a_record st) = a) ->
    forall o' rid' a st, foldl (record_approval o rid) m recs !! (o', rid', a) = Some st ->
      owns_response s o' rid' = true /\ approval_id (a_record st) = a) as Hf.
  { induction recs as [|rec recs IH]; intros m Hm; [exact Hm|]. cbn [foldl]. apply IH.
    unfold record_approval. destruct (m !! (o, rid, approval_id rec)); [exact Hm|].
    intros o1 r1 a1 st1 H1. apply lookup_insert_Some in H1 as [[[= <- <- <-] <-]|[_ H1]]; [done|].
    by apply Hm. }
  apply Hf. exact C.
Qed.

Lemma mark_consumed_record o rid t m ids k st :
  mark_consumed o rid t m ids !! k = Some st ->
  exists st0, m !! k = Some st0 /\ a_record st = a_record st0.
Proof.
  unfold mark_consumed. revert m. induction ids as [|a ids IH]; intros m Hm; [eauto|]. cbn [foldl] in Hm.
  apply IH in Hm as (st0 & Hm & ->). unfold mark_one in Hm. destruct (m !! (o, rid, a)) as [x|] eqn:E; [|eauto].
  apply lookup_insert_Some in Hm as [[<- <-]|[_ Hm]]; eauto.
Qed.

Lemma consume_approvals_ok s o rid ids t : responses_ok s -> responses_ok (consume_approvals s o rid ids t).1.
Proof.
  intros [A B C]. unfold consume_approvals. case_match; [by split|]. split; cbn; [exact A|exact B|].
  intros o' rid' a st (st0 & Hst & ->)%mark_consumed_record. exact (C _ _ _ _ Hst).
Qed.

Lemma push_event_nodup log e :
  NoDup (sequence_number <$> log) -> NoDup (sequence_number <$> push_event log e).
Proof.
  intros H. unfold push_event. destruct (existsb _ log) eqn:E; [done|].
  rewrite fmap_app. apply NoDup_app. split_and!; [done| |apply NoDup_singleton].
  intros x Hx ->%list_elem_of_singleton. apply list_elem_of_fmap in Hx as (y & Hy & Hin).
  assert (existsb (fun stored => (sequence_number stored =? sequence_number e)%N) log = true) as Hc; [|congruence].
  apply existsb_exists. exists y. split; [by apply list_elem_of_In|]. by apply N.eqb_eq.
Qed.

Lemma push_events_nodup log evs :
  NoDup (sequence_number <$> log) -> NoDup (sequence_number <$> foldl push_event log evs).
Proof.
  revert log. induction evs as [|e evs IH]; intros log H; [done|]. cbn [foldl].
  apply IH, push_event_nodup, H.
Qed.

Lemma append_events_ok s o rid evs : responses_ok s -> responses_ok (append_events_into s o rid evs).
Proof.
  intros [A B C]. unfold append_events_into. destruct (owns_response s o rid) eqn:Ho; [|by split].
  cbn [negb]. split; cbn; [exact A| |exact C]. intros o' rid' log Hl.
  apply lookup_insert_Some in Hl as [[[= <- <-] <-]|[_ Hl]]; [|exact (B _ _ _ Hl)].
  split; [done|]. apply push_events_nodup. destruct (events s !! (o, rid)) as [l|] eqn:E; [|constructor].
  exact (proj2 (B _ _ _ E)).
Qed.

(** ** Conversations *)

(** Replacing a stored record by one with the same key. *)
Lemma update_record_ok s o cid r r' :
  conversations s !! (o, cid) = Some r -> c_owner r' = c_owner r -> c_id r' = c_id r ->
  conversations_ok s -> conversations_ok (with_conversations (<[(o, cid) := r']> (conversations s)) s).
Proof.
  intros Hr Ho Hi [A B]. destruct (A _ _ _ Hr) as (H1 & H2 & H3). split; cbn.
  - intros o' cid' x Hx. apply lookup_insert_Some in Hx as [[[= <- <-] <-]|[_ Hx]]; [|by apply A].
    by rewrite Ho, Hi.
  - intros o' cid' Hx. apply B in Hx as [x Hx]. destruct (decide ((o, cid) = (o', cid'))) as [<-|Hne].
    + rewrite lookup_insert_eq. eauto.
    + rewrite lookup_insert_ne by done. eauto.
Qed.

Lemma upsert_conversation_ok s r : conversations_ok s -> conversations_ok (upsert_conversation s r).1.
Proof.
  intros [A B]. unfold upsert_conversation. case_match eqn:Hcol; [by split|].
  match goal with |- context [if ?c then (s, Err _) else _] => destruct c; [by split|] end.
  split; cbn.
  - intros o cid x Hx. apply lookup_insert_Some in Hx as [[[= <- <-] <-]|[Hne Hx]].
    { cbn. by rewrite lookup_insert_eq. }
    destruct (A _ _ _ Hx) as (H1 & H2 & H3). split_and!; [done..|].
    destruct (decide (c_id r = cid)) as [<-|]; [|by rewrite lookup_insert_ne].
    rewrite lookup_insert_eq. f_equal. rewrite H3 in Hcol.
    apply negb_false_iff, bool_decide_eq_true in Hcol. done.
  - intros o cid Hx. apply lookup_insert_Some in Hx as [[<- <-]|[Hne Hx]]; [rewrite lookup_insert_eq; eauto|].
    apply B in Hx. rewrite lookup_insert_ne by congruence. done.
Qed.

Lemma delete_conversation_ok s o cid : conversations_ok s -> conversations_ok (delete_conversation s o cid).1.
Proof.
  intros [A B]. unfold delete_conversation. case_bool_decide as Hin; cbn.
  - destruct Hin as [r Hr]. destruct (A _ _ _ Hr) as (_ & _ & Hid). split; cbn.
    + intros o' cid' x Hx. apply lookup_delete_Some in Hx as [Hne Hx].
      destruct (A _ _ _ Hx) as (H1 & H2 & H3). split_and!; [done..|].
      rewrite lookup_delete_ne; [done|]. intros <-. congruence.
    + intros o' cid' Hx. apply lookup_delete_Some in Hx as [Hne Hx]. apply B in Hx.
      rewrite lookup_delete_ne by congruence. done.
  - rewrite delete_id by (by apply eq_None_not_Some). split; cbn; [exact A|exact B].
Qed.

Lemma preserve_legacy_ok s key : conversations_ok s -> conversations_ok (preserve_legacy_history s key).1.
Proof.
  intros H. destruct key as [o cid]. unfold preserve_legacy_history.
  destruct (conversations s !! (o, cid)) as [r|] eqn:E; [|done].
  destruct (has_legacy (c_messages r)); [done|]. case_match; [done|]. cbn [fst].
  by eapply update_record_ok.
Qed.

Lemma preserve_legacy_frame s key :
  items (preserve_legacy_history s key).1 = items s /\
  item_ids (preserve_legacy_history s key).1 = item_ids s /\
  responses (preserve_legacy_history s key).1 = responses s /\
  events (preserve_legacy_history s key).1 = events s /\
  approvals (preserve_legacy_history s key).1 = approvals s.
Proof.
  unfold preserve_legacy_history. destruct (conversations s !! key); [|done].
  destruct (has_legacy _); [done|]. by case_match.
Qed.

(** ** Items *)

Lemma push_item_lookup key s i o cid :
  items (push_item key s i) !! (o, cid) =
  if decide (key = (o, cid)) then Some (default [] (items s !! key) ++ [i]) else items s !! (o, cid).
Proof.
  unfold push_item. cbn. case_decide as H; [subst; by rewrite lookup_insert_eq|by rewrite lookup_insert_ne].
Qed.

Lemma stored_push key s i o cid j :
  stored_item (push_item key s i) o cid j <-> stored_item s o cid j \/ (key = (o, cid) /\ j = i).
Proof.
  unfold stored_item. rewrite push_item_lookup. case_decide as H; [subst key|naive_solver]. split.
  - intros (l & [= <-] & Hj). apply elem_of_app in Hj as [Hj| ->%list_elem_of_singleton]; [|by right].
    left. destruct (items s !! (o, cid)); [eauto|by apply not_elem_of_nil in Hj].
  - intros [(l & Hl & Hj)|[_ ->]]; eexists; (split; [done|]); apply elem_of_app.
    + left. by rewrite Hl.
    + right. by apply list_elem_of_singleton.
Qed.

Lemma push_item_ok s i :
  items_ok s -> (i_owner i, i_id i) ∉ item_ids s ->
  (forall j, stored_item s (i_owner i) (i_conversation i) j -> i_position j <> i_position i) ->
  items_ok (push_item (i_owner i, i_conversation i) s i).
Proof.
  intros [A B C D E] Hid Hpos.
  assert (forall cid j, stored_item s (i_owner i) cid j -> i_id j <> i_id i) as Hnew.
  { intros cid j Hj Heq. apply Hid, D. eauto. }
  split.
  - intros o cid j [Hj|[[= <- <-] ->]]%stored_push; eauto.
  - intros o cid l. rewrite push_item_lookup. case_decide as Hk; [|apply B]. injection Hk as <- <-.
    intros [= <-]. rewrite fmap_app. apply NoDup_app. split_and!; [| |apply NoDup_singleton].
    + destruct (items s !! (i_owner i, i_conversation i)) eqn:El; [by eapply B|constructor].
    + intros x Hx ->%list_elem_of_singleton. apply list_elem_of_fmap in Hx as (j & Hj & Hin).
      destruct (items s !! (i_owner i, i_conversation i)) eqn:El; [|by apply not_elem_of_nil in Hin].
      apply (Hpos j); [by eexists|done].
  - intros o cid l. rewrite push_item_lookup. case_decide as Hk; [|apply C]. injection Hk as <- <-.
    intros [= <-]. rewrite fmap_app. apply NoDup_app. split_and!; [| |apply NoDup_singleton].
    + destruct (items s !! (i_owner i, i_conversation i)) eqn:El; [by eapply C|constructor].
    + intros x Hx ->%list_elem_of_singleton. apply list_elem_of_fmap in Hx as (j & Hj & Hin).
      destruct (items s !! (i_owner i, i_conversation i)) eqn:El; [|by apply not_elem_of_nil in Hin].
      apply (Hnew (i_conversation i) j); [by eexists|done].
  - intros o iid. unfold push_item at 1. cbn. rewrite elem_of_union, elem_of_singleton, D. split.
    + intros [[= -> ->]|(cid & j & Hj & <-)].
      * exists (i_conversation i), i. split; [|done]. apply stored_push. by right.
      * exists cid, j. split; [|done]. apply stored_push. by left.
    + intros (cid & j & [Hj|[[= <- <-] ->]]%stored_push & <-); [right; eauto|by left].
  - intros o c1 c2 j k Hj Hk Heq. apply stored_push in Hj as [Hj|[E1 ->]];
      apply stored_push in Hk as [Hk|[E2 ->]]; simplify_eq; [by eapply E| | |done].
    + by destruct (Hnew c1 j).
    + by destruct (Hnew c2 k).
Qed.

(** ** Batches *)

Definition item_key (i : ConversationItemRecord) : OwnerKey := (i_owner i, i_id i).
Definition position_key (i : ConversationItemRecord) : StateOwner * string * Z :=
  (i_owner i, i_conversation i, i_position i).

Lemma reject_ids_ok s seen l :
  reject_duplicate_item_ids s seen l = Ok tt ->
  NoDup (item_key <$> l) /\ forall k, k ∈ (item_key <$> l) -> k ∉ seen /\ k ∉ item_ids s.
Proof.
  revert seen. induction l as [|i l IH]; intros seen H.
  { split; [constructor|]. intros k Hk. by apply not_elem_of_nil in Hk. }
  cbn in H. case_match eqn:E; [done|]. apply orb_false_iff in E as [E1 E2].
  apply bool_decide_eq_false in E1, E2. apply IH in H as [Hnd Hk]. csimpl. split.
  - apply NoDup_cons. split; [|done]. intros Hin. apply Hk in Hin. set_solver.
  - intros k [->|Hin]%elem_of_cons; [done|]. apply Hk in Hin. set_solver.
Qed.

Lemma reject_positions_ok s seen l :
  reject_duplicate_item_positions s seen l = Ok tt ->
  NoDup (position_key <$> l) /\
  (forall i, i ∈ l -> position_key i ∉ seen /\
     forall j, stored_item s (i_owner i) (i_conversation i) j -> i_position j <> i_position i).
Proof.
  revert seen. induction l as [|i l IH]; intros seen H.
  { split; [constructor|]. intros k Hk. by apply not_elem_of_nil in Hk. }
  cbn in H. case_match eqn:E; [done|]. apply orb_false_iff in E as [E1 E2].
  apply bool_decide_eq_false in E1. apply IH in H as [Hnd Hk]. csimpl. split.
  - apply NoDup_cons. split; [|done]. intros (j & Hj & Hin)%list_elem_of_fmap.
    destruct (Hk j Hin) as [Hs _]. apply Hs. rewrite <- Hj. set_solver.
  - intros k [->|Hin]%elem_of_cons; [|destruct (Hk k Hin); split; [set_solver|done]]. split; [done|].
    intros j (l0 & Hl & Hj) Heq. rewrite Hl in E2.
    assert (existsb (fun e => i_position e =? i_position i) l0 = true) as Hc; [|congruence].
    apply existsb_exists. exists j. split; [by apply list_elem_of_In|by apply Z.eqb_eq].
Qed.

Lemma push_batch_ok s l :
  items_ok s -> NoDup (item_key <$> l) -> (forall k, k ∈ (item_key <$> l) -> k ∉ item_ids s) ->
  NoDup (position_key <$> l) ->
  (forall i, i ∈ l -> forall j, stored_item s (i_owner i) (i_conversation i) j -> i_position j <> i_position i) ->
  items_ok (foldl (fun s i => push_item (i_owner i, i_conversation i) s i) s l).
Proof.
  revert s. induction l as [|i l IH]; intros s Hok Hk Hids Hp Hpos; [done|]. cbn [foldl].
  csimpl in *. apply NoDup_cons in Hk as [Hki Hk]. apply NoDup_cons in Hp as [Hpi Hp]. apply IH; [|done| |done|].
  - apply push_item_ok; [done|apply Hids; set_solver|]. apply Hpos. set_solver.
  - intros k Hin. unfold push_item. cbn. rewrite not_elem_of_union, not_elem_of_singleton.
    split; [|apply Hids; set_solver]. intros ->. done.
  - intros j Hj k Hst. apply stored_push in Hst as [Hst|[[= Ho Hc] ->]]; [by apply Hpos; [set_solver|]|].
    intros Heq. apply Hpi. apply list_elem_of_fmap. exists j. split; [|done]. unfold position_key. congruence.
Qed.

Lemma create_items_ok s l : items_ok s -> items_ok (create_conversation_items s l).1.
Proof.
  intros Hok. unfold create_conversation_items. case_match; [done|].
  destruct (reject_duplicate_item_ids s ∅ l) as [[]|] eqn:E1; [|done].
  destruct (reject_duplicate_item_positions s ∅ l) as [[]|] eqn:E2; [|done]. cbn [fst].
  apply reject_ids_ok in E1 as [H1 H2]. apply reject_positions_ok in E2 as [H3 H4].
  apply push_batch_ok; [done|done| |done|]; intros k Hk; [by apply H2|by apply H4].
Qed.

(** ** Numbered items *)

Definition bounded_by (s : Inner) (key : OwnerKey) (next : Z) : Prop :=
  forall j, stored_item s key.1 key.2 j -> i_position j <= next.

Lemma max_position_ge l m i : max_position l = Some m -> i ∈ l -> i_position i <= m.
Proof.
  destruct l as [|x l]; [done|]. cbn. intros [= <-] Hi.
  assert (forall l a, a <= foldl (fun m x => Z.max m (i_position x)) a l) as Hmono.
  { clear. induction l as [|y l IH]; intros a; cbn; [lia|]. specialize (IH (Z.max a (i_position y))). lia. }
  apply elem_of_cons in Hi as [->|Hi]; [apply Hmono|].
  revert x. induction l as [|y l IH]; intros x; [by apply not_elem_of_nil in Hi|]. cbn.
  apply elem_of_cons in Hi as [->|Hi].
  - specialize (Hmono l (Z.max (i_position x) (i_position y))). lia.
  - specialize (IH Hi (set_position (Z.max (i_position x) (i_position y)) x)). exact IH.
Qed.

Lemma max_position_bounds s key : bounded_by s key (default 0 (items s !! key ≫= max_position)).
Proof.
  intros j (l & Hl & Hj). destruct key as [o cid]. cbn [fst snd] in Hl. rewrite Hl. cbn.
  destruct (max_position l) as [m|] eqn:E; [by eapply max_position_ge|].
  destruct l; [by apply not_elem_of_nil in Hj|done].
Qed.

Lemma push_numbered_ok l key next s s' :
  items_ok s -> Forall (fun i => (i_owner i, i_conversation i) = key) l ->
  NoDup (item_key <$> l) -> (forall k, k ∈ (item_key <$> l) -> k ∉ item_ids s) ->
  bounded_by s key next -> push_numbered key next s l = Some s' -> items_ok s'.
Proof.
  revert next s. induction l as [|i l IH]; intros next s Hok Hsc Hk Hids Hb; [by intros [= <-]|].
  cbn [push_numbered]. destruct (Z.eqb_spec next i64_max); [done|]. csimpl in *.
  apply Forall_cons in Hsc as [Hi Hsc]. apply NoDup_cons in Hk as [Hki Hk]. subst key.
  apply IH; [| |done| |]; [|done|..].
  - apply (push_item_ok s (set_position (next + 1) i)); [done|apply Hids; set_solver|].
    intros j Hj. cbn. specialize (Hb j Hj). lia.
  - intros k Hin. unfold push_item. cbn. rewrite not_elem_of_union, not_elem_of_singleton.
    split; [|apply Hids; set_solver]. intros ->. done.
  - intros j Hst. apply stored_push in Hst as [Hst|[_ ->]]; [specialize (Hb j Hst); lia|cbn; lia].
Qed.

Lemma push_numbered_frame l key next s s' :
  push_numbered key next s l = Some s' ->
  responses s' = responses s /\ events s' = events s /\ approvals s' = approvals s /\
  conversations s' = conversations s /\ conversation_ids s' = conversation_ids s.
Proof.
  revert next s. induction l as [|i l IH]; intros next s; cbn; [by intros [= <-]|].
  case_match; [done|]. intros Hp. by apply IH in Hp.
Qed.

Lemma scope_spec s o cid l :
  require_conversation_scope s o cid l = Ok tt ->
  Forall (fun i => (i_owner i, i_conversation i) = (o, cid)) l /\ is_Some (conversations s !! (o, cid)).
Proof.
  unfold require_conversation_scope. case_match eqn:E1; [done|]. case_match eqn:E2; [done|]. intros _.
  apply negb_false_iff in E1, E2. apply bool_decide_eq_true in E2. split; [|done].
  apply Forall_forall. intros i Hi. rewrite forallb_forall in E1.
  specialize (E1 i ltac:(by apply list_elem_of_In)). apply andb_true_iff in E1 as [H1 H2].
  apply bool_decide_eq_true in H1, H2. by rewrite H1, H2.
Qed.

(** The success path of [create_items_and_sync_messages]. *)
Lemma create_sync_cases s o cid l s' r :
  create_items_and_sync_messages s o cid l = Some (s', r) ->
  (s' = s /\ (r = Ok tt -> l = [])) \/
  (r = Ok tt /\ l <> [] /\ require_conversation_scope s o cid l = Ok tt /\
   reject_duplicate_item_ids s ∅ l = Ok tt /\ (preserve_legacy_history s (o, cid)).2 = Ok tt /\
   push_numbered (o, cid) (default 0 (items s !! (o, cid) ≫= max_position))
     (preserve_legacy_history s (o, cid)).1 l = Some s').
Proof.
  unfold create_items_and_sync_messages. case_bool_decide as Hl; [intros [= <- _]; left; by apply nil_length_inv in Hl|].
  destruct (require_conversation_scope s o cid l) as [[]|e] eqn:E1; [|intros [= <- <-]; by left].
  destruct (reject_duplicate_item_ids s ∅ l) as [[]|e] eqn:E2; [|intros [= <- <-]; by left].
  pose proof (preserve_legacy_frame s (o, cid)) as (Hf & _).
  assert ((preserve_legacy_history s (o, cid)).2 <> Ok tt -> (preserve_legacy_history s (o, cid)).1 = s) as Herr.
  { unfold preserve_legacy_history. destruct (conversations s !! (o, cid)); [|done].
    destruct (has_legacy _); [done|]. case_match; done. }
  destruct (preserve_legacy_history s (o, cid)) as [s1 [[]|e]]; cbn [fst snd] in *.
  - rewrite Hf. destruct (push_numbered _ _ s1 l) as [s2|] eqn:E3; [|done]. cbn.
    intros [= <- <-]. right. split_and!; try done. intros ->. done.
  - intros [= <- <-]. left. split; [by apply Herr|done].
Qed.

Lemma create_sync_items_ok s o cid l s' r :
  items_ok s -> create_items_and_sync_messages s o cid l = Some (s', r) -> items_ok s'.
Proof.
  intros Hok [[-> _]|(_ & _ & Hs & Hr & _ & Hp)]%create_sync_cases; [done|].
  destruct (preserve_legacy_frame s (o, cid)) as (Hi & Hids & _).
  apply scope_spec in Hs as [Hs _]. apply reject_ids_ok in Hr as [H1 H2].
  eapply push_numbered_ok; [|done|done| | |done].
  - by eapply items_ok_frame.
  - intros k Hk. rewrite Hids. by apply H2.
  - intros j Hj. unfold stored_item in Hj. rewrite Hi in Hj. by apply max_position_bounds.
Qed.

(** ** Deleting an item *)

Lemma remove_at_sublist {A} n (l : list A) : remove_at n l `sublist_of` l.
Proof.
  unfold remove_at. rewrite <- (take_drop n l) at 3. apply sublist_app; [done|].
  rewrite <- Nat.add_1_r, <- drop_drop. apply sublist_drop.
Qed.

Lemma remove_at_elem {A} n (l : list A) x y :
  l !! n = Some x -> y ∈ l <-> y = x \/ y ∈ remove_at n l.
Proof.
  intros Hx. unfold remove_at. rewrite <- (take_drop_middle l n x Hx) at 1.
  rewrite !elem_of_app, elem_of_cons. naive_solver.
Qed.

Lemma remove_item_ok s o cid iid l index :
  items_ok s -> items s !! (o, cid) = Some l ->
  position (fun i => bool_decide (i_id i = iid)) l = Some index ->
  items_ok (with_item_ids (item_ids s ∖ {[(o, iid)]})
              (with_items (<[(o, cid) := remove_at index l]> (items s)) s)).
Proof.
  intros [A B C D E] Hl Hpos. apply position_Some in Hpos as [(x & Hx & Hid) _].
  apply bool_decide_eq_true in Hid.
  set (s' := with_item_ids _ _).
  assert (forall o' cid' j, stored_item s' o' cid' j -> stored_item s o' cid' j /\ item_key j <> (o, iid)) as Hsub.
  { intros o' cid' j (l' & Hl' & Hj). cbn in Hl'.
    apply lookup_insert_Some in Hl' as [[[= <- <-] <-]|[Hne Hl']].
    - assert (j ∈ l) as Hin by (apply (remove_at_elem index l x); [done|by right]).
      split; [by exists l|]. intros [= Ho Hj']. 
      pose proof (C _ _ _ Hl) as Hnd. unfold remove_at in Hj.
      rewrite <- (take_drop_middle l index x Hx), fmap_app, fmap_cons in Hnd.
      apply NoDup_app in Hnd as (_ & Hdis & Hnd). apply NoDup_cons in Hnd as [Hnx _].
      apply elem_of_app in Hj as [Hj|Hj].
      + apply (Hdis (i_id j)); [by apply list_elem_of_fmap_2|]. rewrite Hj', <- Hid. set_solver.
      + apply Hnx. rewrite Hid, <- Hj'. by apply list_elem_of_fmap_2.
    - split; [by exists l'|]. intros [= Ho Hj'].
      destruct (A o' cid' j) as [Ho' _]; [by exists l'|].
      apply Hne. f_equal; [congruence|]. apply (E o cid cid' x j); [exists l; split; [done|by eapply list_elem_of_lookup_2]| |congruence].
      exists l'. split; [congruence|done]. }
  assert (forall o' cid' l', items s' !! (o', cid') = Some l' ->
    exists l0, items s !! (o', cid') = Some l0 /\ l' `sublist_of` l0) as Hsl.
  { intros o' cid' l' Hl'. cbn in Hl'. apply lookup_insert_Some in Hl' as [[[= <- <-] <-]|[_ Hl']]; [|eauto].
    exists l. split; [done|apply remove_at_sublist]. }
  split.
  - intros o' cid' j [Hj _]%Hsub. by apply A.
  - intros o' cid' l' (l0 & Hl0 & Hs)%Hsl. eapply sublist_NoDup; [by eapply B|]. by apply fmap_sublist.
  - intros o' cid' l' (l0 & Hl0 & Hs)%Hsl. eapply sublist_NoDup; [by eapply C|]. by apply fmap_sublist.
  - intros o' iid'. cbn. rewrite elem_of_difference, elem_of_singleton, D. split.
    + intros [(cid' & j & (l' & Hl' & Hj) & <-) Hne]. exists cid', j. split; [|done].
      unfold stored_item. cbn. destruct (decide ((o, cid) = (o', cid'))) as [[= <- <-]|Hk].
      * rewrite lookup_insert_eq. eexists. split; [done|]. rewrite Hl in Hl'. injection Hl' as <-.
        apply (remove_at_elem index l x) in Hj as [->|]; [congruence|done|done].
      * rewrite lookup_insert_ne by done. eauto.
    + intros (cid' & j & [Hj Hne]%Hsub & <-). split; [eauto|]. destruct (A _ _ _ Hj) as [<- _]. done.
  - intros o' c1 c2 i j [Hi _]%Hsub [Hj _]%Hsub. by apply (E o').
Qed.

Lemma delete_item_ok s o cid iid : items_ok s -> items_ok (delete_conversation_item s o cid iid).1.
Proof.
  intros Hok. unfold delete_conversation_item. destruct (items s !! (o, cid)) as [l|] eqn:El; [|done].
  destruct (position _ l) as [index|] eqn:Ep; [|done]. exact (remove_item_ok s o cid iid l index Hok El Ep).
Qed.

(** The two outcomes of [delete_item_and_sync_messages]. *)
Lemma delete_sync_cases s o cid iid s' r :
  delete_item_and_sync_messages s o cid iid = (s', r) ->
  (s' = s /\ r <> Ok true) \/
  (r = Ok true /\ is_Some (conversations s !! (o, cid)) /\
   exists l index, items s !! (o, cid) = Some l /\
     position (fun i => bool_decide (i_id i = iid)) l = Some index /\
     let s1 := (preserve_legacy_history s (o, cid)).1 in
     (preserve_legacy_history s (o, cid)).2 = Ok tt /\
     s' = with_item_ids (item_ids s1 ∖ {[(o, iid)]}) (with_items (<[(o, cid) := remove_at index l]> (items s1)) s1)).
Proof.
  unfold delete_item_and_sync_messages. destruct (items s !! (o, cid)) as [l|] eqn:El; cbn [mbind option_bind].
  2:{ intros [= <- <-]. by left. }
  destruct (position _ l) as [index|] eqn:Ep; [|intros [= <- <-]; by left].
  destruct (bool_decide (is_Some (conversations s !! (o, cid)))) eqn:Ec; cbn [negb];
    [|intros [= <- <-]; by left].
  apply bool_decide_eq_true in Ec.
  pose proof (preserve_legacy_frame s (o, cid)) as (Hf & _).
  assert ((preserve_legacy_history s (o, cid)).2 <> Ok tt -> (preserve_legacy_history s (o, cid)).1 = s) as Herr.
  { unfold preserve_legacy_history. destruct (conversations s !! (o, cid)); [|done].
    destruct (has_legacy _); [done|]. case_match; done. }
  destruct (preserve_legacy_history s (o, cid)) as [s1 [[]|e]]; cbn [fst snd] in *.
  - rewrite Hf, El. intros [= <- <-]. right. split_and!; [done..|]. exists l, index. by split_and!.
  - intros [= <- <-]. left. split; [by apply Herr|done].
Qed.

Lemma delete_sync_items_ok s o cid iid :
  items_ok s -> items_ok (delete_item_and_sync_messages s o cid iid).1.
Proof.
  intros Hok. destruct (delete_item_and_sync_messages s o cid iid) as [s' r] eqn:E.
  apply delete_sync_cases in E as [[-> _]|(_ & _ & l & index & Hl & Hp & _ & ->)]; [done|]. cbn [fst].
  destruct (preserve_legacy_frame s (o, cid)) as (Hi & Hids & _).
  apply remove_item_ok; [by eapply items_ok_frame|by rewrite Hi|done].
Qed.

(** * Preservation *)

Lemma push_batch_frame l s :
  let s' := foldl (fun s i => push_item (i_owner i, i_conversation i) s i) s l in
  responses s' = responses s /\ events s' = events s /\ approvals s' = approvals s /\
  conversations s' = conversations s /\ conversation_ids s' = conversation_ids s.
Proof. revert s. induction l as [|i l IH]; intros s; cbn; [done|]. apply (IH (push_item _ s i)). Qed.

Lemma create_items_frame l s :
  responses (create_conversation_items s l).1 = responses s /\
  events (create_conversation_items s l).1 = events s /\
  approvals (create_conversation_items s l).1 = approvals s /\
  conversations (create_conversation_items s l).1 = conversations s /\
  conversation_ids (create_conversation_items s l).1 = conversation_ids s.
Proof.
  unfold create_conversation_items. case_match; [done|].
  destruct (reject_duplicate_item_ids s ∅ l); [|done].
  destruct (reject_duplicate_item_positions s ∅ l); [|done]. apply push_batch_frame.
Qed.

Ltac frame_ok :=
  repeat match goal with
  | H : responses_ok _ |- responses_ok _ => eapply responses_ok_frame; [..|exact H]; done
  | H : conversations_ok _ |- conversations_ok _ => eapply conversations_ok_frame; [..|exact H]; done
  | H : items_ok _ |- items_ok _ => eapply items_ok_frame; [..|exact H]; done
  end.

Lemma responses_exec_ok s op s' :
  store_inv s -> store_exec s op = Some s' -> responses_ok s'.
Proof.
  intros (Hr & _ & _) H. destruct op; cbn [store_exec] in H; try (injection H as <-).
  - by apply upsert_response_into_ok.
  - by apply delete_response_ok.
  - by apply record_approvals_ok.
  - unfold persist_response_with_pending_approvals. destruct (upsert_response_into_ok s r Hr) as [H1 _].
    destruct (upsert_response_into s r) as [s1 [[]|e]]; cbn [fst] in *; [by apply record_approvals_ok|done].
  - by apply consume_approvals_ok.
  - by apply append_events_ok.
  - unfold upsert_conversation. repeat case_match; try done; frame_ok.
  - unfold update_conversation_messages. repeat case_match; try done; frame_ok.
  - unfold update_conversation_metadata. repeat case_match; try done; frame_ok.
  - unfold compare_and_swap_conversation_messages. repeat case_match; try done; frame_ok.
  - unfold delete_conversation. case_bool_decide; frame_ok.
  - destruct (create_items_frame l s) as (? & ? & ? & _). by eapply responses_ok_frame.
  - destruct (create_items_and_sync_messages s o cid l) as [[s1 r]|] eqn:E; [|done]. injection H as <-.
    apply create_sync_cases in E as [[-> _]|(_ & _ & _ & _ & _ & (H1 & H2 & H3 & _)%push_numbered_frame)]; [done|].
    destruct (preserve_legacy_frame s (o, cid)) as (_ & _ & ? & ? & ?).
    eapply responses_ok_frame; [| | |exact Hr]; cbn; congruence.
  - unfold delete_conversation_item. repeat case_match; try done; frame_ok.
  - destruct (delete_item_and_sync_messages s o cid iid) as [s1 r] eqn:E.
    apply delete_sync_cases in E as [[-> _]|(_ & _ & l & index & _ & _ & _ & ->)]; [done|].
    destruct (preserve_legacy_frame s (o, cid)) as (_ & _ & ? & ? & ?). by eapply responses_ok_frame.
Qed.

Lemma conversations_exec_ok s op s' :
  store_inv s -> store_exec s op = Some s' -> conversations_ok s'.
Proof.
  intros (_ & Hc & _) H. destruct op; cbn [store_exec] in H; try (injection H as <-).
  - unfold upsert_response, upsert_response_into. case_match; frame_ok.
  - unfold delete_response. case_match; frame_ok.
  - unfold record_pending_approvals, record_approvals_into. case_match; frame_ok.
  - unfold persist_response_with_pending_approvals, upsert_response_into, record_approvals_into.
    repeat case_match; simplify_eq/=; frame_ok.
  - unfold consume_approvals. case_match; frame_ok.
  - unfold append_events, append_events_into. case_match; frame_ok.
  - by apply upsert_conversation_ok.
  - unfold update_conversation_messages. repeat case_match; try done. by eapply update_record_ok.
  - unfold update_conversation_metadata. case_match; [|done]. by eapply update_record_ok.
  - unfold compare_and_swap_conversation_messages. repeat case_match; try done. by eapply update_record_ok.
  - by apply delete_conversation_ok.
  - destruct (create_items_frame l s) as (_ & _ & _ & ? & ?). by eapply conversations_ok_frame.
  - destruct (create_items_and_sync_messages s o cid l) as [[s1 r]|] eqn:E; [|done]. injection H as <-.
    apply create_sync_cases in E as [[-> _]|(_ & _ & _ & _ & _ & (_ & _ & _ & H4 & H5)%push_numbered_frame)]; [done|].
    eapply conversations_ok_frame; [exact H4|exact H5|]. by apply preserve_legacy_ok.
  - unfold delete_conversation_item. repeat case_match; try done; frame_ok.
  - destruct (delete_item_and_sync_messages s o cid iid) as [s1 r] eqn:E.
    apply delete_sync_cases in E as [[-> _]|(_ & _ & l & index & _ & _ & _ & ->)]; [done|].
    eapply conversations_ok_frame; [..|by apply (preserve_legacy_ok s (o, cid))]; done.
Qed.

Lemma items_exec_ok s op s' :
  store_inv s -> store_exec s op = Some s' -> items_ok s'.
Proof.
  intros (_ & _ & Hi) H. destruct op; cbn [store_exec] in H; try (injection H as <-).
  - unfold upsert_response, upsert_response_into. case_match; frame_ok.
  - unfold delete_response. case_match; frame_ok.
  - unfold record_pending_approvals, record_approvals_into. case_match; frame_ok.
  - unfold persist_response_with_pending_approvals, upsert_response_into, record_approvals_into.
    repeat case_match; simplify_eq/=; frame_ok.
  - unfold consume_approvals. case_match; frame_ok.
  - unfold append_events, append_events_into. case_match; frame_ok.
  - unfold upsert_conversation. repeat case_match; try done; frame_ok.
  - unfold update_conversation_messages. repeat case_match; try done; frame_ok.
  - unfold update_conversation_metadata. repeat case_match; try done; frame_ok.
  - unfold compare_and_swap_conversation_messages. repeat case_match; try done; frame_ok.
  - unfold delete_conversation. case_bool_decide; frame_ok.
  - by apply create_items_ok.
  - destruct (create_items_and_sync_messages s o cid l) as [[s1 r]|] eqn:E; [|done]. injection H as <-.
    by eapply create_sync_items_ok.
  - by apply delete_item_ok.
  - by apply delete_sync_items_ok.
Qed.

Lemma store_exec_inv s op s' : store_inv s -> store_exec s op = Some s' -> store_inv s'.
Proof.
  intros Hs H. split_and!; [by eapply responses_exec_ok|by eapply conversations_exec_ok|by eapply items_exec_ok].
Qed.

Lemma store_steps_inv s ops s' : store_steps s ops s' -> store_inv s -> store_inv s'.
Proof. induction 1; intros Hs; [done|]. eapply store_exec_inv; [|done]. auto. Qed.
