(* ===== verification/MemoryStoreProps.v ===== *)
(** Properties of the in-memory store ([MemoryStore]): reachable states satisfy
    the invariant, owners do not affect each other, approvals are claimed all or
    nothing and once, event replay and item listing page through everything in
    order, and appending items extends the conversation's history. *)

From S2P Require Import Prelude Utf8 Json Sorting StoreTypes StoreApi MemoryStore MemoryStoreInv.

Local Open Scope Z_scope.

(** * Paging *)

(** A client that asks for page after page, each time with the key of the last
    element it received, and stops at an empty page. *)
Section Paging.
Context {A K : Type} (key : A -> K) (page : option K -> list A).

Fixpoint collect (fuel : nat) (cursor : option K) : list A :=
  match fuel with
  | O => []
  | S fuel =>
      match last (page cursor) with
      | None => []
      | Some x => page cursor ++ collect fuel (Some (key x))
      end
  end.

Lemma last_take_drop (L : list A) n i x :
  last (take n (drop i L)) = Some x ->
  exists m, (0 < m)%nat /\ take n (drop i L) = take m (drop i L) /\
    (i + m <= length L)%nat /\ L !! (i + m - 1)%nat = Some x.
Proof.
  intros H. rewrite last_lookup in H. apply lookup_take_Some in H as [H Hn].
  rewrite length_take in *. set (m := (n `min` length (drop i L))%nat) in *.
  pose proof (lookup_lt_Some _ _ _ H) as Hlt. rewrite lookup_drop in H. exists m.
  rewrite length_drop in Hlt. assert (0 < m)%nat as Hm.
  { destruct (decide (m = 0%nat)) as [E|]; [|lia]. rewrite E in Hn, Hlt.
    unfold m in E. rewrite length_drop in E. simpl in *. lia. }
  split_and!; [done| |unfold m; rewrite length_drop; lia|by replace (i + m - 1)%nat with (i + Nat.pred m)%nat by lia].
  unfold m. destruct (le_lt_dec n (length (drop i L))).
  - by rewrite Nat.min_l.
  - rewrite Nat.min_r, !take_ge by lia. done.
Qed.

Lemma collect_all (L : list A) n :
  (0 < n)%nat -> page None = take n L ->
  (forall i x, L !! i = Some x -> page (Some (key x)) = take n (drop (S i) L)) ->
  collect (S (length L)) None = L.
Proof.
  intros Hn Hfirst Hnext.
  assert (forall fuel i cursor, page cursor = take n (drop i L) -> (length L - i < fuel)%nat ->
    collect fuel cursor = drop i L) as Hgen.
  { induction fuel as [|fuel IH]; intros i cursor Hp Hf; [lia|]. cbn [collect]. rewrite Hp.
    destruct (last (take n (drop i L))) as [x|] eqn:El.
    - apply last_take_drop in El as (m & Hm & Ht & Hle & Hx). rewrite Ht.
      rewrite (IH (i + m)%nat); [|rewrite (Hnext _ _ Hx); do 2 f_equal; lia|lia].
      rewrite <- drop_drop. apply take_drop.
    - apply last_None in El. destruct (drop i L); [done|]. destruct n; [lia|done]. }
  rewrite <- (drop_0 L) at 2. apply Hgen; [by rewrite drop_0|lia].
Qed.
End Paging.

(** ** Event replay *)

Lemma event_leb_total x y : event_leb x y = true \/ event_leb y x = true.
Proof. unfold event_leb. rewrite !N.leb_le. lia. Qed.
Lemma event_leb_trans x y z : event_leb x y = true -> event_leb y z = true -> event_leb x z = true.
Proof. unfold event_leb. rewrite !N.leb_le. lia. Qed.

Lemma filter_all {A} (P : A -> Prop) `{!forall x, Decision (P x)} l : Forall P l -> filter P l = l.
Proof. induction 1 as [|x l Hx _ IH]; [done|]. rewrite filter_cons, decide_True by done. by rewrite IH. Qed.

(** After the [i]-th event of a strictly sorted log come the later ones. *)
Lemma filter_after L i x :
  StronglySorted (fun x y => event_leb x y = true) L -> NoDup (sequence_number <$> L) ->
  L !! i = Some x -> filter (fun e => after_cursor (Some (sequence_number x)) e = true) L = drop (S i) L.
Proof.
  intros Hs. revert i. induction Hs as [|y L Hs IH Hy]; intros i Hnd Hi; [done|].
  csimpl in *. apply NoDup_cons in Hnd as [Hny Hnd]. rewrite filter_cons. destruct i as [|i].
  - injection Hi as ->. rewrite decide_False by (cbn; rewrite N.ltb_irrefl; done). cbn [drop].
    apply filter_all. rewrite Forall_forall in Hy |- *. intros z Hz. cbn. apply N.ltb_lt. specialize (Hy z Hz).
    unfold event_leb in Hy. apply N.leb_le in Hy.
    assert (sequence_number x <> sequence_number z); [|lia].
    intros Heq. apply Hny. rewrite Heq. by apply list_elem_of_fmap_2.
  - cbn in Hi. rewrite decide_False; [cbn [drop]; by apply IH|]. cbn. rewrite N.ltb_lt.
    rewrite Forall_forall in Hy. specialize (Hy x (list_elem_of_lookup_2 _ _ _ Hi)).
    unfold event_leb in Hy. apply N.leb_le in Hy. lia.
Qed.

(** * Reachable states *)

(** C13. Every state reached by any sequence of operations satisfies the store
    invariant: keys match the records they hold, a conversation id has exactly
    one owner, item ids are unique per owner and positions per conversation,
    event sequence numbers are distinct, and no approval or event outlives the
    response that issued it. *)
Theorem store_reachable_inv ops s : store_steps inner_new ops s -> store_inv s.
Proof. intros H. eapply store_steps_inv; [exact H|apply inner_new_inv]. Qed.

Definition alice : StateOwner := mkOwner "acme" "idp" "alice".
Definition bob : StateOwner := mkOwner "acme" "idp" "bob".
Definition sample_response (o : StateOwner) : ResponseRecord :=
  mkResponse "resp_1" o 10 "m" JNull JNull (JArray []).
Definition sample_approval (a : string) : PendingApprovalRecord := mkApproval a "srv" "tool" "{}" "fp".

Lemma store_reachable_inv_witness :
  store_inv (upsert_response inner_new (sample_response alice)).1.
Proof.
  apply (store_reachable_inv [UpsertResponse (sample_response alice)]).
  eapply (ss_snoc _ []); [constructor|reflexivity].
Defined.

(** * Isolation of owners *)

(** What one owner can see. *)
Record same_view (o : StateOwner) (s s' : Inner) : Prop := {
  sv_response id : get_response s' o id = get_response s o id;
  sv_conversation cid : conversations s' !! (o, cid) = conversations s !! (o, cid);
  sv_items cid : items s' !! (o, cid) = items s !! (o, cid);
  sv_item_ids iid : (o, iid) ∈ item_ids s' <-> (o, iid) ∈ item_ids s;
  sv_approvals rid a : approvals s' !! (o, rid, a) = approvals s !! (o, rid, a);
  sv_events rid : events s' !! (o, rid) = events s !! (o, rid)
}.

Lemma same_view_refl o s : same_view o s s.
Proof. by split. Qed.

Lemma same_view_trans o s1 s2 s3 : same_view o s1 s2 -> same_view o s2 s3 -> same_view o s1 s3.
Proof.
  intros [A1 A2 A3 A4 A5 A6] [B1 B2 B3 B4 B5 B6]. split; intros.
  - by rewrite B1.
  - by rewrite B2.
  - by rewrite B3.
  - by rewrite B4.
  - by rewrite B5.
  - by rewrite B6.
Qed.

Lemma upsert_response_view o s r :
  r_owner r <> o -> same_view o s (upsert_response_into s r).1.
Proof.
  intros Ho. unfold upsert_response_into. case_match eqn:Hc; [apply same_view_refl|].
  split; try done. intros id. unfold get_response. cbn. f_equal.
  destruct (decide (r_id r = id)) as [<-|Hne]; [|by rewrite lookup_insert_ne].
  rewrite lookup_insert_eq, bool_decide_eq_false_2 by done.
  destruct (responses s !! r_id r) as [x|]; [|done].
  apply negb_false_iff, bool_decide_eq_true in Hc. by rewrite bool_decide_eq_false_2 by congruence.
Qed.

Lemma record_approvals_view o s o' rid recs :
  o' <> o -> same_view o s (record_approvals_into s o' rid recs).
Proof.
  intros Ho. unfold record_approvals_into. case_match; [apply same_view_refl|]. split; try done.
  intros rid' a. cbn. generalize (approvals s). induction recs as [|rec recs IH]; intros m; [done|]. cbn [foldl].
  rewrite IH. unfold record_approval. case_match; [done|]. rewrite lookup_insert_ne; [done|]. congruence.
Qed.

Lemma consume_view o s o' rid ids t : o' <> o -> same_view o s (consume_approvals s o' rid ids t).1.
Proof.
  intros Ho. unfold consume_approvals.
  destruct (first_unclaimable _ _ _ _ _ _); [apply same_view_refl|]. split; try done.
  intros rid' a. cbn. unfold mark_consumed. generalize (approvals s).
  induction ids as [|x ids IH]; intros m; [done|]. cbn [foldl].
  rewrite IH. unfold mark_one. case_match; [|done]. rewrite lookup_insert_ne; [done|]. congruence.
Qed.

Lemma delete_response_view o s o' id : o' <> o -> same_view o s (delete_response s o' id).1.
Proof.
  intros Ho. unfold delete_response. set (s1 := if owns_response s o' id then _ else s).
  assert (same_view o s s1) as H1.
  { unfold s1. destruct (owns_response s o' id) eqn:E; [|apply same_view_refl]. split; try done.
    intros id'. unfold get_response. cbn. f_equal.
    destruct (decide (id = id')) as [<-|Hne]; [|by rewrite lookup_delete_ne].
    rewrite lookup_delete_eq. unfold owns_response in E. destruct (responses s !! id); [|done].
    apply bool_decide_eq_true in E. by rewrite bool_decide_eq_false_2 by congruence. }
  eapply same_view_trans; [exact H1|]. clear H1. clearbody s1. split; try done.
  - intros rid a. cbn. destruct (approvals s1 !! (o, rid, a)) as [st|] eqn:E.
    + apply map_lookup_filter_Some. split; [done|]. cbn. rewrite bool_decide_eq_false_2 by congruence. done.
    + apply map_lookup_filter_None. by left.
  - intros rid. cbn. rewrite lookup_delete_ne by congruence. done.
Qed.

Lemma set_conversation_view o s o' cid r :
  o' <> o -> same_view o s (with_conversations (<[(o', cid) := r]> (conversations s)) s).
Proof. intros Ho. split; try done. intros cid'. cbn. by rewrite lookup_insert_ne by congruence. Qed.

Lemma preserve_legacy_view o s o' cid : o' <> o -> same_view o s (preserve_legacy_history s (o', cid)).1.
Proof.
  intros Ho. unfold preserve_legacy_history. destruct (conversations s !! (o', cid)); [|apply same_view_refl].
  destruct (has_legacy _); [apply same_view_refl|]. case_match; [apply same_view_refl|].
  by apply set_conversation_view.
Qed.

Lemma push_item_view o s o' cid i : o' <> o -> i_owner i = o' -> same_view o s (push_item (o', cid) s i).
Proof.
  intros Ho Hi. split; try done.
  - intros cid'. rewrite push_item_lookup. by rewrite decide_False by congruence.
  - intros iid. unfold push_item. cbn. rewrite elem_of_union, elem_of_singleton. split; [|by right].
    intros [[= ? ?]|]; [congruence|done].
Qed.

Lemma remove_item_view o s o' cid iid l :
  o' <> o -> same_view o s (with_item_ids (item_ids s ∖ {[(o', iid)]}) (with_items (<[(o', cid) := l]> (items s)) s)).
Proof.
  intros Ho. split; try done.
  - intros cid'. cbn. by rewrite lookup_insert_ne by congruence.
  - intros iid'. cbn. rewrite elem_of_difference, elem_of_singleton. split; [by intros [? _]|].
    intros H. split; [done|]. congruence.
Qed.

Lemma push_numbered_view o o' cid l next s s' :
  o' <> o -> Forall (fun i => (i_owner i, i_conversation i) = (o', cid)) l ->
  push_numbered (o', cid) next s l = Some s' -> same_view o s s'.
Proof.
  intros Ho Hl. revert next s. induction Hl as [|i l Hi Hl IH]; intros next s; cbn.
  { intros [= <-]. apply same_view_refl. }
  case_match; [done|]. intros Hp. eapply same_view_trans; [|by eapply IH].
  apply push_item_view; [done|]. cbn. congruence.
Qed.

Lemma store_exec_view o s op s' :
  acts_for o op = false -> store_exec s op = Some s' -> same_view o s s'.
Proof.
  intros Hn H. destruct op; cbn [store_exec acts_for] in *; try (injection H as <-);
    try (apply bool_decide_eq_false in Hn).
  - by apply upsert_response_view.
  - by apply delete_response_view.
  - by apply record_approvals_view.
  - unfold persist_response_with_pending_approvals. pose proof (upsert_response_view o s r Hn) as Hv.
    destruct (upsert_response_into s r) as [s1 [[]|e]]; [|done]. cbn [fst] in *.
    eapply same_view_trans; [done|]. by apply record_approvals_view.
  - by apply consume_view.
  - unfold append_events, append_events_into. case_match; [apply same_view_refl|]. split; try done.
    intros rid'. cbn. by rewrite lookup_insert_ne by congruence.
  - unfold upsert_conversation. repeat case_match; simplify_eq; try apply same_view_refl; cbn [fst];
      (split; try done; intros cid; cbn; by rewrite lookup_insert_ne by congruence).
  - unfold update_conversation_messages. repeat case_match; try apply same_view_refl. by apply set_conversation_view.
  - unfold update_conversation_metadata. repeat case_match; try apply same_view_refl. by apply set_conversation_view.
  - unfold compare_and_swap_conversation_messages. repeat case_match; try apply same_view_refl.
    by apply set_conversation_view.
  - unfold delete_conversation. case_bool_decide; (split; try done; intros cid'; cbn;
      by rewrite lookup_delete_ne by congruence).
  - unfold create_conversation_items. case_match; [apply same_view_refl|].
    destruct (reject_duplicate_item_ids s ∅ l) as [[]|]; [|apply same_view_refl].
    destruct (reject_duplicate_item_positions s ∅ l) as [[]|]; [|apply same_view_refl]. cbn [fst].
    clear H. revert s. induction l as [|i l IH]; intros s; [apply same_view_refl|]. cbn [foldl existsb] in *.
    apply orb_false_iff in Hn as [Hi Hn]. apply bool_decide_eq_false in Hi.
    eapply same_view_trans; [|by apply IH]. by apply push_item_view.
  - destruct (create_items_and_sync_messages s o0 cid l) as [[s1 r]|] eqn:E; [|done]. injection H as <-.
    apply create_sync_cases in E as [[-> _]|(_ & _ & [Hs _]%scope_spec & _ & _ & Hp)]; [apply same_view_refl|].
    eapply same_view_trans; [by apply (preserve_legacy_view o s o0 cid)|]. by eapply push_numbered_view.
  - unfold delete_conversation_item. destruct (items s !! (o0, cid)) as [l|]; [|apply same_view_refl].
    destruct (position _ l) as [n|]; [|apply same_view_refl]. exact (remove_item_view o s o0 cid iid (remove_at n l) Hn).
  - destruct (delete_item_and_sync_messages s o0 cid iid) as [s1 r] eqn:E.
    apply delete_sync_cases in E as [[-> _]|(_ & _ & l & index & _ & _ & _ & ->)]; [apply same_view_refl|].
    eapply same_view_trans; [by apply (preserve_legacy_view o s o0 cid)|]. by apply remove_item_view.
Qed.

Lemma store_steps_view o s ops s' :
  Forall (fun op => acts_for o op = false) ops -> store_steps s ops s' -> same_view o s s'.
Proof.
  intros Ha H. induction H as [|ops op s1 s2 _ IH He]; [apply same_view_refl|].
  apply Forall_app in Ha as [Ha Hop]. apply Forall_cons in Hop as [Hop _].
  eapply same_view_trans; [by apply IH|exact (store_exec_view _ _ _ _ Hop He)].
Qed.

(** C12. Isolation: no sequence of operations that other owners perform changes
    anything an owner can read: responses, approvals, event logs, conversations,
    items and histories answer exactly as before. *)
Theorem owner_isolation o s ops s' :
  Forall (fun op => acts_for o op = false) ops -> store_steps s ops s' ->
  (forall id, get_response s' o id = get_response s o id) /\
  (forall rid ids, get_pending_approvals s' o rid ids = get_pending_approvals s o rid ids) /\
  (forall rid ids t, (consume_approvals s' o rid ids t).2 = (consume_approvals s o rid ids t).2) /\
  (forall rid c n, list_events_after s' o rid c n = list_events_after s o rid c n) /\
  (forall rid, event_log_status s' o rid = event_log_status s o rid) /\
  (forall cid, get_conversation s' o cid = get_conversation s o cid) /\
  (forall cid, conversation_history s' o cid = conversation_history s o cid) /\
  (forall cid c n asc, list_conversation_items s' o cid c n asc = list_conversation_items s o cid c n asc) /\
  (forall cid iid, get_conversation_item s' o cid iid = get_conversation_item s o cid iid) /\
  (forall cid, max_item_position s' o cid = max_item_position s o cid).
Proof.
  intros Ha H. destruct (store_steps_view o s ops s' Ha H) as [A1 A2 A3 A4 A5 A6].
  assert (forall rid ids seen n, first_unclaimable s' o rid seen n ids = first_unclaimable s o rid seen n ids) as Hf.
  { intros rid ids. induction ids as [|a ids IH]; intros seen n; [done|]. cbn. rewrite A5.
    repeat case_match; auto. }
  split_and!; intros.
  - apply A1.
  - unfold get_pending_approvals. f_equal. induction ids as [|a ids IH]; [done|]. cbn. by rewrite A5, IH.
  - unfold consume_approvals. rewrite Hf. by case_match.
  - unfold list_events_after. by rewrite A6.
  - unfold event_log_status. by rewrite A6.
  - unfold get_conversation. by rewrite A2.
  - unfold conversation_history. by rewrite A2, A3.
  - unfold list_conversation_items. by rewrite A3.
  - unfold get_conversation_item. by rewrite A3.
  - unfold max_item_position. by rewrite A3.
Qed.

Definition approval_state : Inner :=
  (persist_response_with_pending_approvals inner_new (sample_response alice)
     [sample_approval "a1"; sample_approval "a2"]).1.

Lemma owner_isolation_witness :
  get_response (delete_response approval_state bob "resp_1").1 alice "resp_1" = Ok (Some (sample_response alice)).
Proof.
  destruct (owner_isolation alice approval_state [DeleteResponse bob "resp_1"]
    (delete_response approval_state bob "resp_1").1) as [H _].
  - apply Forall_singleton. reflexivity.
  - eapply (ss_snoc _ []); [constructor|reflexivity].
  - rewrite H. reflexivity.
Defined.

(** * Approvals *)

Definition outstanding (s : Inner) (o : StateOwner) (rid a : string) : Prop :=
  exists rec, approvals s !! (o, rid, a) = Some (mkStored rec None).

Definition consumed (s : Inner) (o : StateOwner) (rid a : string) : Prop :=
  exists rec t, approvals s !! (o, rid, a) = Some (mkStored rec (Some t)).

Lemma first_unclaimable_None s o rid seen n ids :
  first_unclaimable s o rid seen n ids = None <->
  NoDup ids /\ (forall a, a ∈ ids -> a ∉ seen /\ outstanding s o rid a).
Proof.
  revert seen n. induction ids as [|a ids IH]; intros seen n; cbn [first_unclaimable].
  { split; [|done]. intros _. split; [constructor|]. intros a Ha. by apply not_elem_of_nil in Ha. }
  case_bool_decide as Hs.
  { split; [done|]. intros [_ H]. destruct (H a); [set_solver|done]. }
  rewrite NoDup_cons. destruct (approvals s !! (o, rid, a)) as [[rec [t|]]|] eqn:E.
  - split; [done|]. intros [_ H]. destruct (H a) as [_ [rec' H']]; [set_solver|congruence].
  - rewrite IH. split.
    + intros [Hnd H]. split; [split; [|done]|].
      * intros Hin. destruct (H a Hin). set_solver.
      * intros b [->|Hb]%elem_of_cons; [split; [done|by exists rec]|]. destruct (H b Hb). set_solver.
    + intros [[Hna Hnd] H]. split; [done|]. intros b Hb. destruct (H b) as [Hbs Ho]; [set_solver|].
      split; [|done]. set_solver.
  - split; [done|]. intros [_ H]. destruct (H a) as [_ [rec' H']]; [set_solver|congruence].
Qed.

Lemma first_unclaimable_Some s o rid seen n ids i :
  first_unclaimable s o rid seen n ids = Some i ->
  exists a, (n <= i)%nat /\ ids !! (i - n)%nat = Some a /\
    (a ∈ seen \/ a ∈ take (i - n) ids \/ ~ outstanding s o rid a) /\
    forall b, b ∈ take (i - n) ids -> outstanding s o rid b.
Proof.
  revert seen n. induction ids as [|a ids IH]; intros seen n; cbn [first_unclaimable]; [done|].
  case_bool_decide as Hs.
  { intros [= <-]. exists a. rewrite Nat.sub_diag. split_and!; [lia|done|by left|].
    intros b Hb. by apply not_elem_of_nil in Hb. }
  destruct (approvals s !! (o, rid, a)) as [[rec [t|]]|] eqn:E.
  2:{ intros H. apply IH in H as (b & Hle & Hb & Hw & Hout). exists b.
      replace (i - n)%nat with (S (i - S n)) by lia. cbn. split_and!; [lia|done| |].
      - set_solver.
      - intros c [->|Hc]%elem_of_cons; [by exists rec|auto]. }
  all: intros [= <-]; exists a; rewrite Nat.sub_diag; split_and!; [lia|done| |];
    [right; right; intros [rec' H']; congruence|]; intros b Hb; by apply not_elem_of_nil in Hb.
Qed.

Definition claimed (o : StateOwner) (rid : string) (ids : list string) (k : ApprovalKey) : bool :=
  bool_decide (k.1 = (o, rid)) && bool_decide (k.2 ∈ ids).

Lemma mark_consumed_lookup o rid t m ids k :
  mark_consumed o rid t m ids !! k =
  (fun st => if claimed o rid ids k then mkStored (a_record st) (Some t) else st) <$> m !! k.
Proof.
  unfold mark_consumed. revert m. induction ids as [|a ids IH]; intros m.
  { cbn. unfold claimed. rewrite (bool_decide_eq_false_2 (k.2 ∈ [])) by apply not_elem_of_nil.
    rewrite andb_false_r. by destruct (m !! k). }
  cbn [foldl]. rewrite IH. unfold mark_one. destruct k as [[o' rid'] a'].
  destruct (decide ((o, rid, a) = (o', rid', a'))) as [[= <- <- <-]|Hne].
  - destruct (m !! (o, rid, a)) as [st|] eqn:E; [|by rewrite E]. rewrite lookup_insert_eq. cbn. f_equal.
    unfold claimed. cbn. rewrite !(bool_decide_eq_true_2 ((o, rid) = (o, rid))) by done. cbn.
    rewrite (bool_decide_eq_true_2 (a ∈ a :: ids)) by set_solver. by case_bool_decide.
  - assert (forall m' : gmap ApprovalKey StoredApproval, m' !! (o', rid', a') = m !! (o', rid', a') ->
      (fun st => if claimed o rid ids (o', rid', a') then mkStored (a_record st) (Some t) else st) <$> m' !! (o', rid', a') =
      (fun st => if claimed o rid (a :: ids) (o', rid', a') then mkStored (a_record st) (Some t) else st) <$> m !! (o', rid', a')) as Hm.
    { intros m' ->. assert (claimed o rid (a :: ids) (o', rid', a') = claimed o rid ids (o', rid', a')) as ->; [|done].
      unfold claimed. cbn. destruct (bool_decide_reflect ((o', rid') = (o, rid))) as [[= -> ->]|]; [|done]. cbn.
      apply bool_decide_ext. rewrite elem_of_cons. split; [intros [->|]; [congruence|done]|by right]. }
    apply Hm. destruct (m !! (o, rid, a)); [by rewrite lookup_insert_ne|done].
Qed.

(** Claiming approvals is all or nothing: either every id of the batch is
    distinct and outstanding, and then exactly those are stamped with the given
    time; or nothing changes and the returned index points at the first id that
    is a repetition or not outstanding. *)
Theorem consume_all_or_nothing s o rid ids t :
  ((consume_approvals s o rid ids t).2 = Ok None /\ NoDup ids /\
   (forall a, a ∈ ids -> outstanding s o rid a /\ consumed (consume_approvals s o rid ids t).1 o rid a) /\
   (forall k, claimed o rid ids k = false ->
      approvals (consume_approvals s o rid ids t).1 !! k = approvals s !! k)) \/
  (exists i a, consume_approvals s o rid ids t = (s, Ok (Some i)) /\ ids !! i = Some a /\
     (a ∈ take i ids \/ ~ outstanding s o rid a) /\
     forall b, b ∈ take i ids -> outstanding s o rid b).
Proof.
  unfold consume_approvals. destruct (first_unclaimable s o rid ∅ 0 ids) as [i|] eqn:E.
  - right. apply first_unclaimable_Some in E as (a & _ & Ha & Hw & Hout). rewrite Nat.sub_0_r in *.
    exists i, a. split_and!; [done|done|set_solver|done].
  - left. apply first_unclaimable_None in E as [Hnd H]. cbn [fst snd]. split_and!; [done|done| |].
    + intros a Ha. destruct (H a Ha) as [_ Ho]. split; [done|]. destruct Ho as [rec Hr].
      exists rec, t. cbn. rewrite mark_consumed_lookup, Hr. cbn. unfold claimed. cbn.
      by rewrite !bool_decide_eq_true_2.
    + intros k Hk. cbn. rewrite mark_consumed_lookup, Hk. by destruct (approvals s !! k).
Qed.

(** ** Single use *)

Lemma consumed_persists s op s' o rid a :
  consumed s o rid a -> op <> DeleteResponse o rid -> store_exec s op = Some s' -> consumed s' o rid a.
Proof.
  intros (rec & t & Hc) Hne H.
  assert (approvals s' = approvals s -> consumed s' o rid a) as Hsame.
  { intros Heq. exists rec, t. by rewrite Heq. }
  assert (forall s1 o' rid' recs, approvals s1 = approvals s ->
    consumed (record_approvals_into s1 o' rid' recs) o rid a) as Hrec.
  { intros s1 o' rid' recs Heq. exists rec, t. unfold record_approvals_into. case_match; [by rewrite Heq|]. cbn.
    rewrite Heq. revert Hc. generalize (approvals s). clear. induction recs as [|x recs IH]; intros m Hm; [done|].
    cbn. apply IH. unfold record_approval. case_match eqn:E; [done|]. rewrite lookup_insert_ne; [done|congruence]. }
  destruct op; cbn [store_exec] in H; try (injection H as <-).
  - apply Hsame. unfold upsert_response, upsert_response_into. by case_match.
  - exists rec, t. unfold delete_response. set (s1 := if owns_response s o0 id then _ else s). cbn.
    assert (approvals s1 = approvals s) as -> by (unfold s1; by destruct (owns_response s o0 id)).
    apply map_lookup_filter_Some. split; [done|]. cbn.
    destruct (bool_decide_reflect (o = o0)), (bool_decide_reflect (rid = id)); try done. congruence.
  - by apply Hrec.
  - clear Hsame. unfold persist_response_with_pending_approvals.
    assert (approvals (upsert_response_into s r).1 = approvals s) as Hu
      by (unfold upsert_response_into; by case_match).
    destruct (upsert_response_into s r) as [s1 [[]|e]]; cbn [fst] in *; [by apply Hrec|].
    exists rec, t. by rewrite Hu.
  - exists rec, t. unfold consume_approvals. destruct (first_unclaimable s o0 rid0 ∅ 0 ids) eqn:E; [done|].
    apply first_unclaimable_None in E as [_ E]. cbn. rewrite mark_consumed_lookup, Hc. cbn. f_equal.
    unfold claimed. cbn. destruct (bool_decide_reflect ((o, rid) = (o0, rid0))) as [[= <- <-]|]; [|done]. cbn.
    case_bool_decide as Ha; [|done]. destruct (E a Ha) as [_ [rec' H']]. congruence.
  - apply Hsame. unfold append_events, append_events_into. by case_match.
  - apply Hsame. unfold upsert_conversation. repeat case_match; by simplify_eq.
  - apply Hsame. unfold update_conversation_messages. by repeat case_match.
  - apply Hsame. unfold update_conversation_metadata. by repeat case_match.
  - apply Hsame. unfold compare_and_swap_conversation_messages. by repeat case_match.
  - apply Hsame. unfold delete_conversation. by case_bool_decide.
  - apply Hsame. apply create_items_frame.
  - destruct (create_items_and_sync_messages s o0 cid l) as [[s1 r]|] eqn:E; [|done]. injection H as <-.
    apply Hsame. apply create_sync_cases in E as [[-> _]|(_ & _ & _ & _ & _ & (_ & _ & H3 & _)%push_numbered_frame)]; [done|].
    cbn. rewrite H3. apply preserve_legacy_frame.
  - apply Hsame. unfold delete_conversation_item. by repeat case_match.
  - apply Hsame. destruct (delete_item_and_sync_messages s o0 cid iid) as [s1 r] eqn:E.
    apply delete_sync_cases in E as [[-> _]|(_ & _ & l & index & _ & _ & _ & ->)]; [done|]. cbn.
    apply preserve_legacy_frame.
Qed.

(** C14. Single use: once a batch containing an approval has been claimed, no
    later batch with that approval can be claimed, whatever happens in between
    (re-emitted approvals and other owners' operations included), until the
    response itself is deleted; the failed attempt changes nothing. *)
Theorem approval_single_use s o rid ids t a ops s' ids' t' :
  (consume_approvals s o rid ids t).2 = Ok None -> a ∈ ids ->
  store_steps (consume_approvals s o rid ids t).1 ops s' ->
  Forall (fun op => op <> DeleteResponse o rid) ops -> a ∈ ids' ->
  exists i, consume_approvals s' o rid ids' t' = (s', Ok (Some i)).
Proof.
  intros Hok Ha Hsteps Hops Ha'.
  assert (consumed (consume_approvals s o rid ids t).1 o rid a) as Hc.
  { unfold consume_approvals in *. destruct (first_unclaimable s o rid ∅ 0 ids) eqn:E; [done|].
    apply first_unclaimable_None in E as [_ E]. destruct (E a Ha) as [_ [rec Hr]].
    exists rec, t. cbn. rewrite mark_consumed_lookup, Hr. cbn. unfold claimed. cbn. by rewrite !bool_decide_eq_true_2. }
  assert (consumed s' o rid a) as (rec & t0 & Hs').
  { clear Hok Ha'. revert Hops. induction Hsteps as [|ops op s1 s2 _ IH He]; intros Hops; [done|].
    apply Forall_app in Hops as [Hops Hop]. apply Forall_cons in Hop as [Hop _].
    by eapply consumed_persists; [by apply IH|exact Hop|]. }
  unfold consume_approvals. destruct (first_unclaimable s' o rid ∅ 0 ids') as [i|] eqn:E; [eauto|].
  apply first_unclaimable_None in E as [_ E]. destruct (E a Ha') as [_ [rec' H']]. congruence.
Qed.

Lemma approval_single_use_witness :
  exists i, consume_approvals
    (record_pending_approvals (consume_approvals approval_state alice "resp_1" ["a1"%string] 20).1
       alice "resp_1" [sample_approval "a1"] 21).1 alice "resp_1" ["a2"%string; "a1"%string] 30 =
    ((record_pending_approvals (consume_approvals approval_state alice "resp_1" ["a1"%string] 20).1
       alice "resp_1" [sample_approval "a1"] 21).1, Ok (Some i)).
Proof.
  apply (approval_single_use approval_state alice "resp_1" ["a1"%string] 20 "a1"
    [RecordApprovals alice "resp_1" [sample_approval "a1"] 21]).
  - vm_compute. reflexivity.
  - left.
  - eapply (ss_snoc _ []); [constructor|reflexivity].
  - apply Forall_singleton. discriminate.
  - right. left.
Defined.

(** * Event logs *)

Definition page_of {A} (r : result StoreError (list A)) : list A := match r with Ok l => l | Err _ => [] end.

(** Complete replay: a client that pages through a response's event log
    with any positive page size, each time from the last sequence number it
    received, obtains every stored event exactly once, in increasing sequence
    order, and then an empty page. *)
Theorem event_replay_complete s o rid log n :
  store_inv s -> events s !! (o, rid) = Some log -> (0 < n)%N ->
  collect sequence_number (fun c => page_of (list_events_after s o rid c n)) (S (length log)) None
    = sort_by event_leb log /\
  sort_by event_leb log ≡ₚ log /\
  StronglySorted (fun x y => (sequence_number x < sequence_number y)%N) (sort_by event_leb log).
Proof.
  intros (Hr & _) Hlog Hn. destruct (ok_events s Hr _ _ _ Hlog) as [_ Hnd].
  pose proof (sort_by_perm event_leb log) as Hperm.
  assert (NoDup (sequence_number <$> sort_by event_leb log)) as Hnd' by (by rewrite Hperm).
  pose proof (sort_by_sorted event_leb event_leb_total event_leb_trans log) as Hs.
  split_and!; [|done|].
  - replace (length log) with (length (sort_by event_leb log)) by (by rewrite Hperm).
    apply (collect_all _ _ _ (N.to_nat n)); [lia| |].
    + unfold list_events_after. rewrite Hlog. cbn. by rewrite filter_all by (apply Forall_true; done).
    + intros i x Hx. unfold list_events_after. rewrite Hlog. cbn [page_of].
      rewrite sort_by_filter by (apply event_leb_total || apply event_leb_trans).
      by rewrite (filter_after _ i x).
  - clear Hperm. induction Hs as [|x l Hl IH Hx]; [constructor|]. csimpl in *. apply NoDup_cons in Hnd' as [Hnx Hnd'].
    constructor; [by apply IH|]. rewrite Forall_forall in Hx |- *. intros y Hy. specialize (Hx y Hy).
    unfold event_leb in Hx. apply N.leb_le in Hx.
    assert (sequence_number x <> sequence_number y); [|lia]. intros Heq. apply Hnx. rewrite Heq.
    by apply list_elem_of_fmap_2.
Qed.

Definition sample_event (n : N) : ResponseEventRecord :=
  mkEventRecord "resp_1" alice n "delta" [] false 11.
Definition event_state : Inner :=
  (append_events approval_state alice "resp_1" [sample_event 3; sample_event 1; sample_event 2]).1.

Lemma event_replay_complete_witness :
  collect sequence_number (fun c => page_of (list_events_after event_state alice "resp_1" c 2)) 4 None
  = [sample_event 1; sample_event 2; sample_event 3].
Proof.
  destruct (event_replay_complete event_state alice "resp_1" [sample_event 3; sample_event 1; sample_event 2] 2)
    as [H _].
  - apply (store_steps_inv inner_new
      [PersistResponse (sample_response alice) [sample_approval "a1"; sample_approval "a2"];
       AppendEvents alice "resp_1" [sample_event 3; sample_event 1; sample_event 2] ]).
    + eapply (ss_snoc _ [_]); [eapply (ss_snoc _ []); [constructor|reflexivity]|reflexivity].
    + apply inner_new_inv.
  - vm_compute. reflexivity.
  - reflexivity.
  - exact H.
Defined.

(** ** Repeated appends *)

Lemma push_event_present log e :
  existsb (fun stored => (sequence_number stored =? sequence_number e)%N) (push_event log e) = true.
Proof.
  unfold push_event. destruct (existsb _ log) eqn:E; [done|]. rewrite existsb_app, E. cbn.
  by rewrite N.eqb_refl.
Qed.

Lemma push_events_prefix log evs : exists new, foldl push_event log evs = log ++ new.
Proof.
  revert log. induction evs as [|e evs IH]; intros log; [exists []; by rewrite app_nil_r|]. cbn [foldl].
  destruct (IH (push_event log e)) as [new ->]. unfold push_event. destruct (existsb _ log); [eauto|].
  exists (e :: new). by rewrite <- app_assoc.
Qed.

Lemma push_events_again log evs : foldl push_event (foldl push_event log evs) evs = foldl push_event log evs.
Proof.
  assert (forall l, Forall (fun e => existsb (fun st => (sequence_number st =? sequence_number e)%N) l = true) evs ->
    foldl push_event l evs = l) as Hid.
  { clear log. induction evs as [|e evs IH]; intros l H; [done|]. cbn [foldl]. apply Forall_cons in H as [He H].
    unfold push_event at 2. rewrite He. by apply IH. }
  apply Hid. clear Hid. revert log. induction evs as [|e evs IH]; intros log; [constructor|]. cbn [foldl].
  constructor; [|apply IH]. destruct (push_events_prefix (push_event log e) evs) as [new ->].
  rewrite existsb_app, push_event_present. done.
Qed.

(** Re-releasing a chunk is harmless: appending the same events again
    changes nothing, and no append alters or removes an event already stored. *)
Theorem append_events_idempotent s o rid evs :
  append_events_into (append_events_into s o rid evs) o rid evs = append_events_into s o rid evs /\
  forall k log, events s !! k = Some log ->
    exists new, events (append_events_into s o rid evs) !! k = Some (log ++ new).
Proof.
  split.
  - unfold append_events_into at 1. destruct (owns_response s o rid) eqn:Ho.
    + unfold append_events_into. rewrite Ho. cbn [negb]. unfold owns_response in *. cbn. rewrite Ho. cbn.
      rewrite lookup_insert_eq. cbn. rewrite push_events_again. unfold with_events. cbn.
      by rewrite insert_insert_eq.
    + unfold append_events_into. rewrite Ho. cbn. by rewrite Ho.
  - intros k log Hk. unfold append_events_into. destruct (owns_response s o rid); cbn [negb].
    + cbn. destruct (decide ((o, rid) = k)) as [<-|Hne].
      * rewrite lookup_insert_eq, Hk. cbn. destruct (push_events_prefix log evs) as [new ->]. eauto.
      * rewrite lookup_insert_ne by done. exists []. by rewrite app_nil_r.
    + exists []. by rewrite app_nil_r.
Qed.

(** * Conversation items *)

(** In a list of distinct items the cursor finds the item it names. *)
Lemma position_of_id L i x :
  NoDup (i_id <$> L) -> L !! i = Some x -> position (fun y => bool_decide (i_id y = i_id x)) L = Some i.
Proof.
  revert i. induction L as [|y L IH]; intros i Hnd Hi; [done|]. csimpl in Hnd.
  apply NoDup_cons in Hnd as [Hy Hnd]. cbn [position]. destruct i as [|i]; cbn in Hi.
  - injection Hi as ->. by rewrite bool_decide_eq_true_2.
  - rewrite bool_decide_eq_false_2; [by rewrite (IH i)|].
    intros Heq. apply Hy. rewrite Heq. apply list_elem_of_fmap_2. by eapply list_elem_of_lookup_2.
Qed.

(** Items in listing order. *)
Definition listed (l : list ConversationItemRecord) (ascending : bool) : list ConversationItemRecord :=
  if ascending then sort_by item_leb l else reverse (sort_by item_leb l).

Lemma listed_perm l ascending : listed l ascending ≡ₚ l.
Proof. unfold listed. destruct ascending; by rewrite ?reverse_Permutation, sort_by_perm. Qed.

Lemma item_leb_total x y : item_leb x y = true \/ item_leb y x = true.
Proof.
  unfold item_leb. destruct (Z.lt_trichotomy (i_position x) (i_position y)) as [H|[H|H]].
  - left. apply Z.ltb_lt in H. by rewrite H.
  - rewrite H, Z.ltb_irrefl, Z.eqb_refl. cbn. apply String.leb_total.
  - right. apply Z.ltb_lt in H. by rewrite H.
Qed.

(** Along positions alone the order is transitive, which is enough: positions
    of one conversation are distinct. *)
Lemma insert_by_positions x l :
  StronglySorted (fun a b => i_position a <= i_position b) l ->
  StronglySorted (fun a b => i_position a <= i_position b) (insert_by item_leb x l).
Proof.
  induction 1 as [|y l Hl IH Hy]; cbn; [by repeat constructor|].
  destruct (item_leb x y) eqn:E; unfold item_leb in E.
  - assert (i_position x <= i_position y) by lia.
    constructor; [by constructor|]. constructor; [done|].
    eapply Forall_impl; [exact Hy|]. cbn. intros z Hz. lia.
  - constructor; [done|]. rewrite insert_by_perm. constructor; [|done].
    destruct (item_leb_total x y) as [H|H]; unfold item_leb in H; [congruence|lia].
Qed.

Lemma sort_by_positions l : NoDup (i_position <$> l) ->
  StronglySorted (fun a b => i_position a < i_position b) (sort_by item_leb l).
Proof.
  intros Hnd. assert (StronglySorted (fun a b => i_position a <= i_position b) (sort_by item_leb l)) as Hs.
  { clear Hnd. induction l as [|x l IH]; [constructor|]. by apply insert_by_positions. }
  rewrite <- (sort_by_perm item_leb l) in Hnd. induction Hs as [|x L HL IH Hx]; [constructor|].
  csimpl in Hnd. apply NoDup_cons in Hnd as [Hnx Hnd]. constructor; [by apply IH|].
  rewrite Forall_forall in Hx |- *. intros y Hy. specialize (Hx y Hy). cbn in Hx.
  assert (i_position x <> i_position y); [|lia]. intros Heq. apply Hnx. rewrite Heq.
  by apply list_elem_of_fmap_2.
Qed.

(** Complete listing: a client that pages through a conversation's items
    with any positive limit and either direction, each time from the id of the
    last item it received, obtains every stored item exactly once, ordered
    strictly by position (descending listings being the reverse). *)
Theorem item_pages_complete s o cid l n ascending :
  store_inv s -> items s !! (o, cid) = Some l -> (0 < n)%N ->
  collect i_id (fun c => page_of (list_conversation_items s o cid c n ascending)) (S (length l)) None
    = listed l ascending /\
  listed l ascending ≡ₚ l /\
  StronglySorted (fun a b => i_position a < i_position b) (listed l true).
Proof.
  intros (_ & _ & Hi) Hl Hn. pose proof (listed_perm l ascending) as Hperm.
  assert (NoDup (i_id <$> listed l ascending)) as Hnd by (rewrite Hperm; by eapply ok_item_ids).
  split_and!; [|done|apply sort_by_positions; by eapply ok_item_positions].
  replace (length l) with (length (listed l ascending)) by (by rewrite Hperm).
  apply (collect_all _ _ _ (N.to_nat n)); [lia| |].
  - unfold list_conversation_items. rewrite Hl. done.
  - intros i x Hx. unfold list_conversation_items. rewrite Hl. cbn [default].
    fold (listed l ascending). rewrite (position_of_id _ i x) by done. cbn. by rewrite Nat.add_1_r.
Qed.

Definition sample_conversation : ConversationRecord :=
  mkConversation "conv_1" alice 5 JNull (JArray [JString "hello"]).
Definition sample_item (id : string) (data : Json) : ConversationItemRecord :=
  mkItem id alice "conv_1" data 6 0.
Definition conversation_ops : list store_op :=
  [UpsertConversation sample_conversation;
   CreateItemsSync alice "conv_1" [sample_item "b" (JString "x"); sample_item "a" (JString "y")] ].

Definition conversation_state : Inner :=
  default inner_new (s ← store_exec inner_new (UpsertConversation sample_conversation);
    store_exec s (CreateItemsSync alice "conv_1" [sample_item "b" (JString "x"); sample_item "a" (JString "y")])).

Lemma conversation_state_inv : store_inv conversation_state.
Proof.
  apply (store_steps_inv inner_new conversation_ops); [|apply inner_new_inv].
  eapply (ss_snoc _ [_]); [eapply (ss_snoc _ []); [constructor|reflexivity]|reflexivity].
Qed.

Lemma item_pages_complete_witness :
  collect i_id (fun c => page_of (list_conversation_items conversation_state alice "conv_1" c 1 false)) 3 None
  = [set_position 2 (sample_item "a" (JString "y")); set_position 1 (sample_item "b" (JString "x"))].
Proof.
  destruct (item_pages_complete conversation_state alice "conv_1"
    [set_position 1 (sample_item "b" (JString "x")); set_position 2 (sample_item "a" (JString "y"))] 1 false) as [H _].
  - apply conversation_state_inv.
  - vm_compute. reflexivity.
  - reflexivity.
  - exact H.
Defined.

(** ** Appending to the history *)

(** The batch with the positions [next + 1], [next + 2], ... *)
Fixpoint numbered (next : Z) (l : list ConversationItemRecord) : list ConversationItemRecord :=
  match l with
  | [] => []
  | i :: l => set_position (next + 1) i :: numbered (next + 1) l
  end.

Lemma numbered_data next l : i_data <$> numbered next l = i_data <$> l.
Proof. revert next. induction l as [|i l IH]; intros next; [done|]. csimpl. by rewrite IH. Qed.

Lemma numbered_above next l : Forall (fun i => next < i_position i) (numbered next l).
Proof.
  revert next. induction l as [|i l IH]; intros next; [constructor|]. cbn. constructor; [cbn; lia|].
  eapply Forall_impl; [apply IH|]. cbn. lia.
Qed.

Lemma item_leb_lt x y : i_position x < i_position y -> item_leb x y = true.
Proof. unfold item_leb. lia. Qed.

Lemma numbered_sorted next l : StronglySorted (fun x y => item_leb x y = true) (numbered next l).
Proof.
  revert next. induction l as [|i l IH]; intros next; [constructor|]. cbn. constructor; [apply IH|].
  eapply Forall_impl; [apply numbered_above|]. intros x Hx. by apply item_leb_lt.
Qed.

Lemma push_numbered_items l o cid next s s' :
  push_numbered (o, cid) next s l = Some s' ->
  default [] (items s' !! (o, cid)) = default [] (items s !! (o, cid)) ++ numbered next l.
Proof.
  revert next s. induction l as [|i l IH]; intros next s; cbn [push_numbered].
  - intros [= <-]. by rewrite app_nil_r.
  - case_match; [done|]. intros Hp. rewrite (IH _ _ Hp), push_item_lookup, decide_True by done.
    cbn [from_option numbered]. unfold id. by rewrite <- app_assoc.
Qed.

(** Numbering after the largest position keeps the batch after the stored
    items, in its own order. *)
Lemma ordered_append s o cid l :
  let next := default 0 (items s !! (o, cid) ≫= max_position) in
  let stored := default [] (items s !! (o, cid)) in
  ordered_messages (stored ++ numbered next l) = ordered_messages stored ++ (i_data <$> l).
Proof.
  cbv zeta. unfold ordered_messages. rewrite sort_by_app.
  - by rewrite fmap_app, (sort_by_sorted_id _ _ (numbered_sorted _ _)), numbered_data.
  - intros x y Hx Hy. apply item_leb_lt.
    assert (i_position x <= default 0 (items s !! (o, cid) ≫= max_position)) as Hle.
    { apply (max_position_bounds s (o, cid)). unfold stored_item. cbn [fst snd].
      destruct (items s !! (o, cid)); [eauto|by apply not_elem_of_nil in Hx]. }
    pose proof (numbered_above (default 0 (items s !! (o, cid) ≫= max_position)) l) as Ha.
    rewrite Forall_forall in Ha. specialize (Ha y Hy). cbn in Ha. lia.
Qed.

(** What the stored messages contribute to the history once items exist. *)
Definition legacy_part (m : Json) : list Json := default [] (get m "legacy_messages" ≫= as_array).

Lemma preserve_legacy_history_spec s o cid r h :
  conversations s !! (o, cid) = Some r -> conversation_history s o cid = Ok (Some h) ->
  (preserve_legacy_history s (o, cid)).2 = Ok tt ->
  exists r', conversations (preserve_legacy_history s (o, cid)).1 !! (o, cid) = Some r' /\
    h = legacy_part (c_messages r') ++ ordered_messages (default [] (items s !! (o, cid))).
Proof.
  intros Hr. unfold conversation_history, preserve_legacy_history. rewrite Hr. intros [= <-].
  set (l := default [] (items s !! (o, cid))).
  assert (match items s !! (o, cid) with Some l => negb (bool_decide (length l = 0%nat)) | None => false end
    = negb (bool_decide (length l = 0%nat))) as ->.
  { subst l. by destruct (items s !! (o, cid)). }
  fold (legacy_part (c_messages r)). set (m := c_messages r) in *.
  destruct (has_legacy m) eqn:Hleg.
  - intros _. exists r. split; [done|]. fold m. f_equal. case_match eqn:E; [|done].
    apply andb_true_iff in E as [_ E]. apply bool_decide_eq_true, nil_length_inv in E. rewrite E.
    unfold has_legacy in Hleg. by destruct m.
  - assert (legacy_part m = []) as Hnone.
    { unfold legacy_part. unfold has_legacy in Hleg. destruct (get m _) as [[]|]; done. }
    rewrite Hnone. destruct (bool_decide (length l = 0%nat)) eqn:El; cbn [negb andb].
    + case_match eqn:E; [done|]. intros _. eexists. split; [apply lookup_insert_eq|]. f_equal.
      cbn [c_messages set_messages]. destruct m as [| | | |[|x a]|]; try done.
    + intros _. eexists. split; [apply lookup_insert_eq|]. done.
Qed.

(** Appending extends the history: when a batch of items is created with
    message synchronisation, the conversation's history afterwards is the
    history before, followed by the batch in order, whichever form the earlier
    history was stored in. *)
Theorem create_items_appends_history s o cid l s' h :
  create_items_and_sync_messages s o cid l = Some (s', Ok tt) ->
  conversation_history s o cid = Ok (Some h) ->
  conversation_history s' o cid = Ok (Some (h ++ (i_data <$> l))).
Proof.
  intros [[-> Hl]|(_ & Hne & [_ [r Hr]]%scope_spec & _ & Hp & Hn)]%create_sync_cases Hh.
  { rewrite (Hl eq_refl). by rewrite app_nil_r. }
  destruct (preserve_legacy_history_spec _ _ _ _ _ Hr Hh Hp) as (r' & Hr' & ->).
  pose proof (push_numbered_items _ _ _ _ _ _ Hn) as Hitems.
  rewrite (proj1 (preserve_legacy_frame s (o, cid))) in Hitems.
  apply push_numbered_frame in Hn as (_ & _ & _ & Hc & _).
  unfold conversation_history. rewrite Hc, Hr', Hitems. fold (legacy_part (c_messages r')).
  rewrite (bool_decide_eq_false_2 (length _ = 0%nat)).
  - cbn [andb]. by rewrite ordered_append, app_assoc.
  - rewrite length_app. destruct l; [done|]. cbn. lia.
Qed.

Lemma create_items_appends_history_witness :
  conversation_history conversation_state alice "conv_1"
  = Ok (Some ([JString "hello"] ++ [JString "x"; JString "y"])).
Proof.
  apply (create_items_appends_history (upsert_conversation inner_new sample_conversation).1 alice "conv_1"
    [sample_item "b" (JString "x"); sample_item "a" (JString "y")] conversation_state [JString "hello"]).
  - vm_compute. reflexivity.
  - vm_compute. reflexivity.
Defined.
