(* ===== verification/MemoryBackend.v ===== *)
(** The in-memory store as a backend: [MemoryStore] implements the traits of
    [StoreApi] and confines owners, so that the theorems on handles apply to it;
    and what its atomic item operations answer when the conversation is gone. *)

From S2P Require Import Prelude Utf8 Json StoreTypes StoreApi StoreRegistry StoreRegistryProps.
From S2P Require Import MemoryStore MemoryStoreInv MemoryStoreProps.

Local Open Scope Z_scope.

(** Methods that lock, compute and unlock. *)
Definition mutate {A} (f : Inner -> Inner * result StoreError A) : Call Inner A := fun s => Some (f s).
Definition query {A} (f : Inner -> result StoreError A) : Call Inner A := fun s => Some (s, f s).

#[export] Instance memory_response_store : ResponseStore Inner := {
  StoreApi.upsert_response r := mutate (fun s => upsert_response s r);
  StoreApi.get_response o id := query (fun s => get_response s o id);
  StoreApi.delete_response o id := mutate (fun s => delete_response s o id);
  StoreApi.response_get_conversation o cid := query (fun s => get_conversation s o cid);
  StoreApi.record_pending_approvals o rid recs t := mutate (fun s => record_pending_approvals s o rid recs t);
  StoreApi.persist_response_with_pending_approvals r recs :=
    mutate (fun s => persist_response_with_pending_approvals s r recs);
  StoreApi.get_pending_approvals o rid ids := query (fun s => get_pending_approvals s o rid ids);
  StoreApi.consume_approvals o rid ids t := mutate (fun s => consume_approvals s o rid ids t);
  StoreApi.append_events o rid evs := mutate (fun s => append_events s o rid evs);
  StoreApi.list_events_after o rid after limit := query (fun s => list_events_after s o rid after limit);
  StoreApi.event_log_status o rid := query (fun s => event_log_status s o rid)
}.

#[export] Instance memory_item_store : ConversationItemStore Inner := {
  StoreApi.upsert_conversation r := mutate (fun s => upsert_conversation s r);
  StoreApi.update_conversation_messages o cid m := mutate (fun s => update_conversation_messages s o cid m);
  StoreApi.update_conversation_metadata o cid m := mutate (fun s => update_conversation_metadata s o cid m);
  StoreApi.compare_and_swap_conversation_messages o cid e m :=
    mutate (fun s => compare_and_swap_conversation_messages s o cid e m);
  StoreApi.get_conversation o cid := query (fun s => get_conversation s o cid);
  StoreApi.delete_conversation o cid := mutate (fun s => delete_conversation s o cid);
  StoreApi.create_conversation_items l := mutate (fun s => create_conversation_items s l);
  StoreApi.list_conversation_items o cid after limit asc :=
    query (fun s => list_conversation_items s o cid after limit asc);
  StoreApi.get_existing_conversation_item_ids o cid ids :=
    query (fun s => get_existing_conversation_item_ids s o cid ids);
  StoreApi.get_conversation_item o cid iid := query (fun s => get_conversation_item s o cid iid);
  StoreApi.delete_conversation_item o cid iid := mutate (fun s => delete_conversation_item s o cid iid);
  StoreApi.conversation_item_position o cid iid := query (fun s => conversation_item_position s o cid iid);
  StoreApi.max_item_position o cid := query (fun s => max_item_position s o cid);
  StoreApi.conversation_history o cid := query (fun s => conversation_history s o cid);
  StoreApi.create_items_and_sync_messages o cid l := fun s => create_items_and_sync_messages s o cid l;
  StoreApi.delete_item_and_sync_messages o cid iid := mutate (fun s => delete_item_and_sync_messages s o cid iid)
}.

#[export] Instance memory_backend : PersistedStateBackend Inner := {}.

Lemma exec_op_memory op (s : Inner) : exec_op op s = store_exec s op.
Proof. by destruct op. Qed.

Lemma same_view_query o q s s' :
  same_view o s s' -> snd <$> run_query o q s' = snd <$> run_query o q (s : Inner).
Proof.
  intros [A1 A2 A3 A4 A5 A6]. destruct q; cbn; do 3 f_equal.
  - apply A1.
  - unfold get_conversation. by rewrite A2.
  - unfold get_pending_approvals. f_equal. induction ids as [|a ids IH]; [done|]. cbn. by rewrite A5, IH.
  - unfold list_events_after. by rewrite A6.
  - unfold event_log_status. by rewrite A6.
  - unfold get_conversation. by rewrite A2.
  - unfold list_conversation_items. by rewrite A3.
  - unfold get_existing_conversation_item_ids. by rewrite A3.
  - unfold get_conversation_item. by rewrite A3.
  - unfold conversation_item_position. by rewrite A3.
  - unfold max_item_position. by rewrite A3.
  - unfold conversation_history. by rewrite A2, A3.
Qed.

#[export] Instance same_view_preorder o : PreOrder (same_view o).
Proof. split; [intros s; apply same_view_refl|intros s1 s2 s3; apply same_view_trans]. Qed.

Lemma memory_query_pure o q (s s' : Inner) r : run_query o q s = Some (s', r) -> s' = s.
Proof. destruct q; by intros [= <- _]. Qed.

#[export] Instance memory_confined : OwnerConfined Inner := {
  looks_same := same_view;
  confined_op o op s s' Ho He := store_exec_view o s op s' Ho (eq_trans (eq_sym (exec_op_memory op s)) He);
  confined_query := same_view_query;
  query_pure := memory_query_pure
}.

(** * A concrete world *)

Definition sample_heap : RegistryHeap := mkHeap {[1%N := {["default"%string := 7%N]}]} {[1%N := true]}.
Definition sample_registry : StoreRegistry := mkRegistry 1 1.
Definition sample_world : gmap N Inner := {[7%N := conversation_state]}.

(** Bob tries to overwrite and delete Alice's data through his handle. *)
Lemma scoped_confinement_witness :
  exists w', run_calls [(mkScoped 7 bob, SUpsertConversation sample_conversation);
                        (mkScoped 7 bob, SDeleteConversation "conv_1")] sample_world = Some w' /\
  snd <$> scoped_read (mkScoped 7 alice) (QHistory "conv_1") w' =
  Some (Ok (RHistory (Ok (Some [JString "hello"; JString "x"; JString "y"])))).
Proof.
  eexists. split; [reflexivity|].
  rewrite (fun H1 H2 => scoped_confinement sample_heap sample_registry alice
    [(mkScoped 7 bob, SUpsertConversation sample_conversation); (mkScoped 7 bob, SDeleteConversation "conv_1")]
    sample_world _ H1 H2 "default" (mkScoped 7 alice) (QHistory "conv_1")).
  - vm_compute. reflexivity.
  - repeat (apply Forall_cons; split; [exists "default"%string, bob; split; [discriminate|vm_compute; reflexivity]|]).
    apply Forall_nil_2.
  - reflexivity.
  - vm_compute. reflexivity.
Defined.

(** * Atomic item operations without their conversation *)

(** When the conversation is gone, the atomic item operations fail and
    change nothing; but they answer with a database error, where the trait
    promises [NotFound], which is what the conversation handlers turn into a
    not-found response. *)
Theorem sync_without_conversation s o cid iid l :
  conversations s !! (o, cid) = None ->
  (l <> [] -> Forall (fun i => i_owner i = o /\ i_conversation i = cid) l ->
   create_items_and_sync_messages s o cid l =
     Some (s, Err (Database ("conversation disappeared during message sync: " +:+ cid)))) /\
  (is_Some (items s !! (o, cid) ≫= find_item iid) ->
   delete_item_and_sync_messages s o cid iid =
     (s, Err (Database ("conversation disappeared during message sync: " +:+ cid)))).
Proof.
  intros Hc. split.
  - intros Hl Hs. unfold create_items_and_sync_messages.
    rewrite bool_decide_eq_false_2 by (by destruct l). unfold require_conversation_scope.
    rewrite (proj2 (forallb_forall _ l)); cbn [negb].
    + rewrite Hc, bool_decide_eq_false_2 by (intros [? ?]; done). done.
    + intros i Hi. apply list_elem_of_In in Hi. rewrite Forall_forall in Hs. destruct (Hs i Hi) as [-> ->].
      by rewrite !bool_decide_eq_true_2.
  - intros [i Hi]. unfold delete_item_and_sync_messages.
    destruct (items s !! (o, cid)) as [its|]; [|done]. cbn in *.
    destruct (position (fun i => bool_decide (i_id i = iid)) its) as [n|] eqn:Ep.
    + rewrite Hc, bool_decide_eq_false_2 by (intros [? ?]; done). done.
    + apply position_None in Ep. apply find_some in Hi as [Hi Hid]. rewrite Forall_forall in Ep.
      apply list_elem_of_In in Hi. specialize (Ep i Hi). cbn in Ep. congruence.
Qed.

Lemma sync_without_conversation_witness :
  delete_item_and_sync_messages (delete_conversation conversation_state alice "conv_1").1 alice "conv_1" "b" =
  ((delete_conversation conversation_state alice "conv_1").1,
   Err (Database "conversation disappeared during message sync: conv_1")).
Proof.
  apply (sync_without_conversation (delete_conversation conversation_state alice "conv_1").1 alice "conv_1" "b" []).
  - vm_compute. reflexivity.
  - vm_compute. by eexists.
Defined.
